(* ===== verification/_CoqProject ===== *)
-Q . S2P
Prelude.v
Paths.v
OrdMap.v
Types.v
Version.v
Crc32c.v
Wal.v
FileIo.v
Faults.v
MemTable.v
MemTableProps.v
Handle.v
TxManager.v
Codec.v
Bloom.v
KeyIndex.v
Arrow.v
RowCodec.v
RowCodecProps.v
ColumnPredicate.v
Manifest.v
Compaction.v
Engine.v
Metrics.v
Snapshots.v
Sst.v
SstProps.v
Lsm.v
LsmProps.v
LsmReads.v
GroupCommit.v
Restart.v
Lifecycle.v
Worker.v
Pressure.v
Config.v
Lookup.v
LookupProps.v
Catalog.v
Translate.v
Watch.v
ColumnStats.v
TableScan.v
TableScanProps.v
Dml.v
DmlProps.v
Database.v
DatabaseProps.v
DatabaseRun.v
DatabaseSsi.v
Session.v
Statistics.v
Planner.v
PlannerProps.v
