(* ===== verification/Prelude.v ===== *)
(** * HatP: verification of an embedded HTAP storage engine

    HatP stores key/value rows under multi-version concurrency control.  A commit
    goes through the transaction manager (serializable snapshot isolation), the
    write-ahead log and the memtable; a flush turns the memtable into an SST file
    recorded in the manifest; compactions merge SST files; reads combine the
    memtable with the files.  A SQL layer on DataFusion encodes rows and keys as
    bytes and pushes predicates into the scans.

    ** Files and the code they model

    All paths are under [src/crates/].

    - [Prelude]: results with the [let?] notation, machine integers, byte strings,
      little- and big-endian codecs, generic list lemmas, tactics, hint databases.
    - [OrdMap]: [BTreeMap] and [BTreeSet] as sorted association lists, over a class
      of compared keys.
    - [Paths]: the names of the files on disk ([lib.rs], [embedded.rs]).
    - [Types]: shared identifiers and errors ([hatp-types], [hatp-engine/src/lib.rs]).
    - [Version]: version chains ([hatp-engine/src/version.rs]).
    - [Crc32c]: table-driven and SSE4.2 checksums ([crc32c.rs]); the hardware
      instruction is a parameter with its law.
    - [Wal]: frames, append, group commit, sync, recovery and crash images
      ([wal.rs]).
    - [FileIo]: the file trait, over a file system and in memory ([file_io.rs]).
    - [Faults]: the registry of fault points ([fault_injector.rs]).
    - [MemTable], [MemTableProps], [Handle]: both backends and the handle over them
      ([memtable.rs]).
    - [TxManager]: the SSI validator and its hook ([hatp-tx/src/manager.rs],
      [hook.rs]).
    - [Codec]: primary-key and index encodings ([hatp-types/src/codec.rs]).
    - [Bloom], [KeyIndex]: SST sidecars ([bloom.rs], [key_index.rs]).
    - [Manifest]: version set and its log ([manifest.rs]).
    - [Compaction]: pickers and jobs ([compaction.rs]) and the merge of
      [lib.rs].
    - [Engine], [Snapshots]: the write path, group commit, recovery, pins and
      garbage collection ([lib.rs]).
    - [Metrics]: the counters, their text form and the counted commit path
      ([metrics.rs], [lib.rs]).
    - [Arrow]: the Arrow scalars, types, arrays and batches the other files use.
    - [RowCodec], [RowCodecProps]: row encoding and decoding ([row_codec.rs]).
    - [ColumnPredicate]: predicates on encoded rows ([column_predicate.rs]).
    - [Sst], [SstProps]: SST files ([vortex_sst.rs]).
    - [Lsm], [LsmProps], [LsmReads]: flush, compaction, scans and snapshot reads of
      the whole tree ([lib.rs]).
    - [GroupCommit]: the queue that concurrent writers share, one step per atomic
      action ([lib.rs], [write_with_tx_sync]).
    - [Restart]: opening the whole tree from what a crash leaves, and what it then
      holds ([lib.rs], [open_with_hook]).
    - [Lifecycle]: the threads of an open engine, shutdown and drop ([lib.rs]), and
      the handles of a database ([hatp/src/embedded.rs]).
    - [Worker]: the compaction worker's loop and the file of table schemas ([lib.rs]).
    - [Pressure]: the write throttle and the gauge it reads ([pressure.rs], [lib.rs]).
    - [Config]: the engine's settings and the clock ([lib.rs], [clock.rs]).
    - [Lookup], [LookupProps]: point reads with their Bloom filters, key indexes,
      hot-key cache, level search and the mapped reads of their files ([lib.rs],
      [mmap_io.rs]).
    - [Catalog]: table schemas and the catalog over the engine
      ([hatp-frontend/src/catalog.rs], [schema.rs]).
    - [Translate]: DataFusion filters translated to column predicates, for scans and
      for deletes ([predicate_translator.rs], [dml_planner.rs]).
    - [Watch]: the commit watcher and its waiting tasks ([watch.rs]).
    - [ColumnStats]: statistics per file and column, and skipping files by them
      ([lib.rs]).
    - [TableScan], [TableScanProps]: table scans to Arrow batches ([lib.rs],
      [vortex_sst.rs]).
    - [Dml], [DmlProps]: rows to mutations, predicates to deletes ([lib.rs]).
    - [Database], [DatabaseProps]: the database handle, its transactions and the
      catalog file ([hatp/src/embedded.rs]), over the engine and the manager.
    - [DatabaseRun], [DatabaseSsi]: runs of a database, as steps of handles,
      transactions, flushes, compactions and collections, and what they isolate.
    - [Session]: opening a database from its files, and running a statement
      ([hatp/src/embedded.rs], [execution.rs]).
    - [Statistics]: the table statistics handed to the optimizer
      ([hatp-frontend/src/execution.rs]).
    - [Planner], [PlannerProps]: INSERT, UPDATE and DELETE from the planner to the
      commit, table scans and the registration of tables ([dml_planner.rs],
      [execution.rs]).

    ** State and effects

    A struct is a [Record], a method that mutates it returns the new record, a
    fallible one returns it with a [result].  A panic (index out of range, overflow
    in a checked build) is [None].  Integers are [Z] with their width written out:
    wrapping, saturating and checked operations are separate definitions.  System
    calls are arguments: each write or sync takes its outcome ([IoOutcome]), so a
    theorem quantifies over every failure.  A lock-protected operation is one step;
    where the code releases a lock inside an operation the model has one definition
    per part: [flush_drain] and [flush_sst_locked], the two phases of a group
    commit, the three calls of [begin_ssi] ([ssi_snapshot], [ssi_reserve],
    [ssi_register]), the atomic operations of a publication ([Watch]).  Steps of
    other threads may fall between the calls of [begin_ssi] and of a publication,
    between the actions of a group commit, and, in the runs of [TxManager], between
    the validation of a commit, its timestamp and its promotion.  The runs of the
    tree and of a database take a commit and a successful flush as one step each:
    commits that race with a flush, and failed flushes, are the subject of
    separate lemmas ([flush_race_loses_commit], [failed_flush_hides_rows]).
    External code is a class: the CRC instruction ([Crc32Hw]), the Vortex
    file format ([VortexLib] with [VortexLaws]), Arrow's arrays ([ArrowLib],
    [ArrowArrays]), the order of DataFusion's scalars ([ScalarOrd]) and the meaning of
    its expressions and plans ([SqlSemantics], [SqlValues], [DataFusion],
    [SqlSession]), the catalog's JSON and the schema file's JSON ([CatalogJson],
    [SchemasJson]), the commit hook and the manager behind it ([EngineHook],
    [DetectTxManager]); theorems that rely on documented
    behaviour of such code take its laws as class arguments, and their witnesses
    instantiate them.  The throttle's floats are binary64 of [SpecFloat].

    ** What the theorems show

    - Durability: a crash image of the log recovers exactly the durable commits and
      a prefix of the rest ([Wal], [Engine]), unless the crash cut the log inside its
      magic number, when nothing was durable and the open is refused; the manifest
      reopens to its version set ([Manifest]); torn tails are cut at a frame
      boundary.  The whole tree, after any run of commits, flushes, compactions,
      crashes and restarts, with successful writes of log and manifest and crashes
      between operations, reopens to exactly the transactions it committed, of the
      unsynced ones a prefix ([Restart]), under any configuration ([Config]); a tree
      that was shut down
      loses nothing ([Lifecycle]), and a database finds its catalog again
      ([Session]).  Sidecars cut short by a crash or a failed write do not change
      what is read ([LookupProps]).
    - Isolation: committed transactions accepted by the validator have a serial
      order ([TxManager]), of the transactions that registered before any SSI commit
      that followed their snapshot; a later registration misses conflicts
      ([late_begin_misses_conflict]); pinned snapshots are stable under every other operation
      ([Snapshots]); in every run of a database a transaction reads its snapshot
      overlaid with its own writes, commits are all or nothing ([DatabaseRun]), and
      the committed SSI transactions that did not register late are serializable
      ([DatabaseSsi]).
    - Statements: an INSERT, UPDATE or DELETE changes exactly the rows it names or
      selects, and nothing when the engine refuses its commit ([PlannerProps]).
    - Refinement: version chains, the memtable, the compaction merge and the whole
      tree refine one map from keys to committed versions; after any run, full
      scans, range scans, point lookups and table scans return exactly the newest
      visible versions, under the conditions each theorem names ([LsmProps],
      [LsmReads], [LookupProps], [TableScanProps]); the catalog refines a map from
      names to definitions ([Catalog]).
    - Encodings: keys sort as their values, formats round-trip, decoders are total
      and reject what was not encoded ([Codec], [RowCodecProps], [Wal], [Manifest],
      [KeyIndex], [Catalog]).
    - Predicates: what filters push down loses no row ([Translate], [SstProps],
      [ColumnStats]); the bounds the optimizer is given enclose the data
      ([Statistics]); the key a delete looks up is the key of exactly the selected
      row, and the one an insert stored it under ([DmlProps]).
    - Equivalence: hardware and table checksums, the two memtable backends behind
      their handle, except on an inverted range, where one panics ([Handle]), files and their stand-in for tests ([FileIo]),
      candidate search in the version set and its linear specification.
    - Planning: compaction jobs are closed under overlap, pickers wake exactly when
      a level is over its limit ([Compaction]).
    - Concurrency: in every interleaving of writers each request is served once and
      told its own outcome ([GroupCommit]).
    - Liveness: a publication, with or without mutations, wakes the waiters whose
      timestamp it resolves, however its atomic operations interleave with theirs
      ([Watch]); writers never deadlock and all return ([GroupCommit]).

    Lemmas at the end of several files show inputs on which the code does not do
    what its comments promise; the conditions of the theorems exclude them.

    ** Bounds and fuel

    Loops that are not structural take fuel: recovery and manifest decoding the
    number of input bytes (every frame consumes at least one), binary searches the
    length of the searched vector (each step halves the interval), the CRC loops the
    number of chunks, the batch loops of table scans the number of rows (each batch
    takes at least one).  Each has a lemma that this fuel reaches the result.  Theorems
    on timestamps assume fewer than 2^64 - 1 commits and file ids, which the code
    assumes too (an open-ended interval is marked by the greatest timestamp).

    ** Not modelled

    The timing of worker threads (the steps they take are modelled and may come
    in any order), tracing, the [Debug] and [Display] forms of values, the branches
    compiled only for Windows, the file formats of external libraries, and the
    session that parses a query, builds its plan and runs it, which is DataFusion's
    ([SqlSession] is what the code uses of it). *)

From Stdlib Require Export ZArith Lia Strings.Byte.
From stdpp Require Import base tactics list countable sorting.

Set Default Goal Selector "!".

Declare Scope hatp_scope.
Delimit Scope hatp_scope with hatp.
#[global] Open Scope hatp_scope.
#[global] Open Scope Z_scope.

Create HintDb hatp discriminated.
Create Rewrite HintDb hatp.

(** ** Results

    Rust's [Result<T, E>] with the [?] operator as a monadic let. *)

Inductive result (E A : Type) : Type :=
| Ok (a : A)
| Err (e : E).
Arguments Ok {E A} a.
Arguments Err {E A} e.

Definition rbind {E A B} (r : result E A) (k : A -> result E B) : result E B :=
  match r with Ok a => k a | Err e => Err e end.

Definition ok_or {E A} (o : option A) (e : E) : result E A :=
  match o with Some a => Ok a | None => Err e end.

Definition is_ok {E A} (r : result E A) : bool :=
  match r with Ok _ => true | Err _ => false end.

Notation "'let?' p ':=' c1 'in' c2" := (rbind c1 (fun p => c2))
  (at level 10, p pattern, c1 at level 200, c2 at level 200,
   format "'[v' 'let?'  p  ':='  c1  'in' '/' c2 ']'") : hatp_scope.

(** Case split on the first [match] or [if] scrutinee found in the goal. *)
Ltac case_scrut :=
  match goal with
  | |- context [match ?x with _ => _ end] => destruct x eqn:?
  end.

(** Turn boolean comparisons of the code into the arithmetic they decide. *)
Ltac zbool :=
  repeat match goal with
  | H : (_ <? _) = true |- _ => apply Z.ltb_lt in H
  | H : (_ <? _) = false |- _ => apply Z.ltb_ge in H
  | H : (_ <=? _) = true |- _ => apply Z.leb_le in H
  | H : (_ <=? _) = false |- _ => apply Z.leb_gt in H
  | H : (_ =? _) = true |- _ => apply Z.eqb_eq in H
  | H : (_ =? _) = false |- _ => apply Z.eqb_neq in H
  | H : (_ && _)%bool = true |- _ => apply andb_true_iff in H as [? ?]
  | H : (_ || _)%bool = false |- _ => apply orb_false_iff in H as [? ?]
  end.

(** ** Machine integers *)

Definition u32_max : Z := 2 ^ 32 - 1.
Definition u64_max : Z := 2 ^ 64 - 1.
Definition is_u32 (z : Z) : Prop := 0 <= z <= u32_max.
Definition is_u64 (z : Z) : Prop := 0 <= z <= u64_max.
Definition wrap64 (z : Z) : Z := z mod 2 ^ 64.
Definition wrap32 (z : Z) : Z := z mod 2 ^ 32.
Definition saturating_add (a b : Z) : Z := Z.min (a + b) u64_max.
Definition saturating_sub (a b : Z) : Z := Z.max (a - b) 0.
Definition saturating_mul (a b : Z) : Z := Z.min (a * b) u64_max.
Definition checked_add (a b : Z) : option Z :=
  if a + b <=? u64_max then Some (a + b) else None.

Lemma u64_max_val : u64_max = 18446744073709551615.
Proof. reflexivity. Qed.

Lemma u32_max_val : u32_max = 4294967295.
Proof. reflexivity. Qed.

Lemma saturating_add_u64 a b : is_u64 a -> 0 <= b -> is_u64 (saturating_add a b).
Proof. unfold is_u64, saturating_add. rewrite u64_max_val. lia. Qed.

Lemma saturating_add_ge a b : a <= u64_max -> 0 <= b -> a <= saturating_add a b.
Proof. unfold saturating_add. lia. Qed.

(** ** Bytes *)

Definition b2z (b : byte) : Z := Z.of_N (Byte.to_N b).

Definition z2b (z : Z) : byte :=
  match Byte.of_N (Z.to_N (z mod 256)) with Some b => b | None => x00 end.

Abbreviation bytes := (list byte).

Lemma b2z_range b : 0 <= b2z b < 256.
Proof.
  unfold b2z. pose proof (Byte.to_N_bounded b). lia.
Qed.

Lemma b2z_z2b z : b2z (z2b z) = z mod 256.
Proof.
  unfold b2z, z2b. pose proof (Z.mod_pos_bound z 256 eq_refl) as Hb.
  destruct (Byte.of_N (Z.to_N (z mod 256))) as [b|] eqn:E.
  - apply Byte.to_of_N in E. rewrite E. lia.
  - apply Byte.of_N_None_iff in E. lia.
Qed.

Lemma b2z_inj a b : b2z a = b2z b -> a = b.
Proof.
  unfold b2z. intros H. apply N2Z.inj in H.
  pose proof (Byte.of_to_N a). pose proof (Byte.of_to_N b). congruence.
Qed.

Lemma z2b_b2z b : z2b (b2z b) = b.
Proof.
  apply b2z_inj. rewrite b2z_z2b. apply Z.mod_small, b2z_range.
Qed.

#[global] Instance byte_eq_dec : EqDecision byte := Byte.byte_eq_dec.

Definition byte_of_N (n : N) : byte :=
  match Byte.of_N n with Some b => b | None => x00 end.

Lemma byte_of_N_to_N b : byte_of_N (Byte.to_N b) = b.
Proof. unfold byte_of_N. by rewrite Byte.of_to_N. Qed.

#[global] Instance byte_countable : Countable byte :=
  inj_countable' Byte.to_N byte_of_N byte_of_N_to_N.

(** ** Little- and big-endian integers ([to_le_bytes], [to_be_bytes]) *)

Fixpoint to_le (n : nat) (z : Z) : bytes :=
  match n with
  | O => []
  | S m => z2b z :: to_le m (z / 256)
  end.

Fixpoint from_le (bs : bytes) : Z :=
  match bs with
  | [] => 0
  | b :: r => b2z b + 256 * from_le r
  end.

Definition to_be (n : nat) (z : Z) : bytes := rev (to_le n z).
Definition from_be (bs : bytes) : Z := from_le (rev bs).

Lemma length_to_le n z : length (to_le n z) = n.
Proof. revert z. induction n; intros; simpl; auto. Qed.

Lemma length_to_be n z : length (to_be n z) = n.
Proof. unfold to_be. rewrite length_rev. apply length_to_le. Qed.

Lemma pow256_S n : 256 ^ Z.of_nat (S n) = 256 * 256 ^ Z.of_nat n.
Proof. rewrite Nat2Z.inj_succ, Z.pow_succ_r; lia. Qed.

Lemma pow256_pos n : 0 < 256 ^ Z.of_nat n.
Proof. apply Z.pow_pos_nonneg; lia. Qed.

Lemma from_le_to_le n z : from_le (to_le n z) = z mod 256 ^ Z.of_nat n.
Proof.
  revert z. induction n as [|n IH]; intros z.
  - simpl. by rewrite Z.mod_1_r.
  - cbn [to_le from_le]. rewrite IH, b2z_z2b, pow256_S.
    pose proof (pow256_pos n).
    rewrite (Z.rem_mul_r z 256) by lia. lia.
Qed.

Lemma from_le_to_le_small n z :
  0 <= z < 256 ^ Z.of_nat n -> from_le (to_le n z) = z.
Proof. intros. rewrite from_le_to_le. by apply Z.mod_small. Qed.

Lemma from_le_range bs : 0 <= from_le bs < 256 ^ Z.of_nat (length bs).
Proof.
  induction bs as [|b r IH]; cbn [from_le length].
  - simpl. lia.
  - rewrite pow256_S. pose proof (b2z_range b). lia.
Qed.

Lemma to_le_from_le bs : to_le (length bs) (from_le bs) = bs.
Proof.
  induction bs as [|b r IH]; cbn [from_le length to_le]; [done|].
  pose proof (b2z_range b).
  f_equal.
  - apply b2z_inj. rewrite b2z_z2b, Z.mul_comm, Z.mod_add by lia.
    apply Z.mod_small. lia.
  - rewrite Z.mul_comm, Z.div_add by lia. rewrite Z.div_small by lia. apply IH.
Qed.

Lemma from_le_to_le4 z : is_u32 z -> from_le (to_le 4 z) = z.
Proof. intros [? ?]. apply from_le_to_le_small. rewrite u32_max_val in *. simpl. lia. Qed.

Lemma from_le_to_le8 z : is_u64 z -> from_le (to_le 8 z) = z.
Proof. intros [? ?]. apply from_le_to_le_small. rewrite u64_max_val in *. simpl. lia. Qed.

Lemma to_le_inj n x y :
  0 <= x < 256 ^ Z.of_nat n -> 0 <= y < 256 ^ Z.of_nat n ->
  to_le n x = to_le n y -> x = y.
Proof.
  intros Hx Hy H. apply (f_equal from_le) in H.
  by rewrite !from_le_to_le_small in H.
Qed.

Lemma to_be_inj n x y :
  0 <= x < 256 ^ Z.of_nat n -> 0 <= y < 256 ^ Z.of_nat n ->
  to_be n x = to_be n y -> x = y.
Proof.
  intros Hx Hy H. apply (to_le_inj n); [done..|].
  unfold to_be in H. apply (f_equal (@rev byte)) in H. by rewrite !rev_involutive in H.
Qed.
#[export] Hint Rewrite length_to_le length_to_be @length_app @length_cons : hatp.

(** ** Total orders

    Rust's [Ord]: a three-way comparison whose [Equal] is equality.  The
    ordered collections of the engine ([BTreeMap], [BTreeSet], sorted vectors)
    are all generic in it. *)

Class TotalCmp (A : Type) := {
  cmp : A -> A -> comparison;
  cmp_eq : forall a b, cmp a b = Eq <-> a = b;
  cmp_antisym : forall a b, cmp b a = CompOpp (cmp a b);
  cmp_lt_trans : forall a b c, cmp a b = Lt -> cmp b c = Lt -> cmp a c = Lt;
}.

Section TotalCmp.
Context {A : Type} `{TotalCmp A}.
Implicit Types a b c : A.

Definition clt a b : Prop := cmp a b = Lt.
Definition cle a b : Prop := cmp a b <> Gt.
Definition ltc a b : bool := match cmp a b with Lt => true | _ => false end.
Definition lec a b : bool := match cmp a b with Gt => false | _ => true end.
Definition eqc a b : bool := match cmp a b with Eq => true | _ => false end.

Lemma cmp_refl a : cmp a a = Eq.
Proof. by apply cmp_eq. Qed.

Lemma clt_irrefl a : ~ clt a a.
Proof. unfold clt. by rewrite cmp_refl. Qed.

Lemma clt_trans a b c : clt a b -> clt b c -> clt a c.
Proof. apply cmp_lt_trans. Qed.

Lemma cmp_gt_lt a b : cmp a b = Gt <-> clt b a.
Proof. unfold clt. rewrite (cmp_antisym a b). by destruct (cmp a b). Qed.

Lemma clt_asym a b : clt a b -> ~ clt b a.
Proof. intros ? ?. apply (clt_irrefl a). by eapply clt_trans. Qed.

Lemma cmp_case a b : clt a b \/ a = b \/ clt b a.
Proof.
  destruct (cmp a b) eqn:E.
  - right; left. by apply cmp_eq.
  - by left.
  - right; right. by apply cmp_gt_lt.
Qed.

Lemma cle_lt_eq a b : cle a b <-> clt a b \/ a = b.
Proof.
  unfold cle, clt. rewrite <- cmp_eq. destruct (cmp a b); intuition congruence.
Qed.

Lemma cle_refl a : cle a a.
Proof. rewrite cle_lt_eq. by right. Qed.

Lemma not_clt a b : ~ clt a b <-> cle b a.
Proof.
  unfold clt, cle. rewrite (cmp_antisym a b).
  destruct (cmp a b); simpl; intuition congruence.
Qed.

Lemma cle_lt_trans a b c : cle a b -> clt b c -> clt a c.
Proof. rewrite cle_lt_eq. intros [|<-]; [|done]. by apply clt_trans. Qed.

Lemma clt_le_trans a b c : clt a b -> cle b c -> clt a c.
Proof. rewrite (cle_lt_eq b). intros ? [|<-]; [|done]. by eapply clt_trans. Qed.

Lemma cle_trans a b c : cle a b -> cle b c -> cle a c.
Proof. rewrite (cle_lt_eq a b). intros [|<-] ?; [|done].
  apply cle_lt_eq. left. by eapply clt_le_trans. Qed.

Lemma clt_le a b : clt a b -> cle a b.
Proof. rewrite cle_lt_eq. by left. Qed.

Lemma cle_antisym a b : cle a b -> cle b a -> a = b.
Proof.
  rewrite !cle_lt_eq. intros [H1|] [H2|]; try done.
  by destruct (clt_asym a b).
Qed.

Lemma ltc_spec a b : ltc a b = true <-> clt a b.
Proof. unfold ltc, clt. destruct (cmp a b); intuition congruence. Qed.

Lemma lec_spec a b : lec a b = true <-> cle a b.
Proof. unfold lec, cle. destruct (cmp a b); intuition congruence. Qed.

Lemma eqc_spec a b : eqc a b = true <-> a = b.
Proof. unfold eqc. rewrite <- cmp_eq. destruct (cmp a b); intuition congruence. Qed.

Lemma ltc_false a b : ltc a b = false <-> cle b a.
Proof.
  rewrite <- not_true_iff_false, ltc_spec. apply not_clt.
Qed.

Lemma lec_false a b : lec a b = false <-> clt b a.
Proof.
  rewrite <- not_true_iff_false, lec_spec. unfold cle. rewrite cmp_gt_lt.
  split; [|intuition]. intros Hn.
  destruct (cmp_case a b) as [?|[->|]]; [|exfalso|done].
  - exfalso. apply Hn. by apply clt_asym.
  - apply Hn, clt_irrefl.
Qed.

Lemma eqc_false a b : eqc a b = false <-> a <> b.
Proof. rewrite <- not_true_iff_false, eqc_spec. done. Qed.

Lemma eqc_refl a : eqc a a = true.
Proof. by apply eqc_spec. Qed.

Lemma clt_ne a b : clt a b -> a <> b.
Proof. intros Hab ->. by apply (clt_irrefl b). Qed.

#[global] Instance clt_decision a b : Decision (clt a b).
Proof. unfold clt. solve_decision. Defined.
#[global] Instance cle_decision a b : Decision (cle a b).
Proof. unfold cle. solve_decision. Defined.
End TotalCmp.

#[export] Hint Resolve clt_irrefl clt_trans cle_refl cle_lt_trans clt_le_trans clt_le
  cle_trans clt_ne : hatp.

Ltac cbool :=
  repeat match goal with
  | H : ltc _ _ = true |- _ => apply ltc_spec in H
  | H : ltc _ _ = false |- _ => apply ltc_false in H
  | H : lec _ _ = true |- _ => apply lec_spec in H
  | H : lec _ _ = false |- _ => apply lec_false in H
  | H : eqc _ _ = true |- _ => apply eqc_spec in H
  | H : eqc _ _ = false |- _ => apply eqc_false in H
  end.

#[global] Instance Z_cmp : TotalCmp Z.
Proof.
  refine {| cmp := Z.compare; cmp_eq := Z.compare_eq_iff; cmp_antisym a b := Z.compare_antisym a b |}.
  intros a b c. rewrite !Z.compare_lt_iff. lia.
Defined.

Lemma clt_Z (a b : Z) : clt a b <-> a < b.
Proof. apply Z.compare_lt_iff. Qed.

Lemma cle_Z (a b : Z) : cle a b <-> a <= b.
Proof. reflexivity. Qed.

(** Tuples compare lexicographically ([Ordering::then_with]). *)
Definition pair_compare {A B} `{TotalCmp A, TotalCmp B} (x y : A * B) : comparison :=
  match cmp x.1 y.1 with Eq => cmp x.2 y.2 | c => c end.

#[global] Instance pair_cmp {A B} `{TotalCmp A, TotalCmp B} : TotalCmp (A * B).
Proof.
  refine {| cmp := pair_compare |}; unfold pair_compare.
  - intros [a b] [c d]. cbn. split.
    + destruct (cmp a c) eqn:E; try done. apply cmp_eq in E as ->.
      intros ->%cmp_eq. done.
    + intros [= -> ->]. by rewrite !cmp_refl.
  - intros [a b] [c d]. cbn. rewrite (cmp_antisym a c). destruct (cmp a c); cbn; [|done..].
    apply cmp_antisym.
  - intros [a b] [c d] [e f]. cbn. destruct (cmp a c) eqn:E1; try done.
    + apply cmp_eq in E1 as ->. destruct (cmp c e) eqn:E2; try done. apply cmp_lt_trans.
    + intros _. destruct (cmp c e) eqn:E2; try done.
      * apply cmp_eq in E2 as <-. by rewrite E1.
      * intros _. by rewrite (cmp_lt_trans _ _ _ E1 E2).
Defined.

Lemma clt_pair {A B} `{TotalCmp A, TotalCmp B} (x y : A * B) :
  clt x y <-> clt x.1 y.1 \/ x.1 = y.1 /\ clt x.2 y.2.
Proof.
  unfold clt. cbn. unfold pair_compare. destruct x as [a b], y as [c d]. cbn.
  destruct (cmp a c) eqn:E.
  - apply cmp_eq in E as ->. intuition congruence.
  - intuition congruence.
  - split; [done|]. intros [?|[-> _]]; [done|]. by rewrite cmp_refl in E.
Qed.

(** Byte strings compare lexicographically ([<\[u8\] as Ord>]). *)
Fixpoint bcmp (a b : bytes) : comparison :=
  match a, b with
  | [], [] => Eq
  | [], _ => Lt
  | _, [] => Gt
  | x :: a', y :: b' =>
      match b2z x ?= b2z y with Eq => bcmp a' b' | c => c end
  end.

Lemma bcmp_eq a b : bcmp a b = Eq <-> a = b.
Proof.
  revert b. induction a as [|x a IH]; intros [|y b]; simpl; try done.
  destruct (b2z x ?= b2z y) eqn:E.
  - apply Z.compare_eq_iff, b2z_inj in E as ->. rewrite IH. split; congruence.
  - split; [done|]. intros [= -> _]. by rewrite Z.compare_refl in E.
  - split; [done|]. intros [= -> _]. by rewrite Z.compare_refl in E.
Qed.

Lemma bcmp_antisym a b : bcmp b a = CompOpp (bcmp a b).
Proof.
  revert b. induction a as [|x a IH]; intros [|y b]; simpl; try done.
  rewrite (Z.compare_antisym (b2z x)). destruct (b2z x ?= b2z y); simpl; auto.
Qed.

Lemma bcmp_lt_trans a b c : bcmp a b = Lt -> bcmp b c = Lt -> bcmp a c = Lt.
Proof.
  revert b c. induction a as [|x a IH]; intros [|y b] [|z c]; simpl; try done.
  destruct (Z.compare_spec (b2z x) (b2z y)); destruct (Z.compare_spec (b2z y) (b2z z));
    destruct (Z.compare_spec (b2z x) (b2z z)); intros; try done; try lia; eauto.
Qed.

#[global] Instance bytes_cmp : TotalCmp bytes :=
  {| cmp := bcmp; cmp_eq := bcmp_eq; cmp_antisym := bcmp_antisym;
     cmp_lt_trans := bcmp_lt_trans |}.

Lemma bcmp_app a b c d :
  length a = length b ->
  bcmp (a ++ c) (b ++ d) = match bcmp a b with Eq => bcmp c d | o => o end.
Proof.
  revert b. induction a as [|x a IH]; intros [|y b]; simpl; try done.
  intros [= Hl]. destruct (b2z x ?= b2z y); auto.
Qed.

Lemma bcmp_app_l p c d : bcmp (p ++ c) (p ++ d) = bcmp c d.
Proof. rewrite bcmp_app by done. by rewrite (proj2 (bcmp_eq p p) eq_refl). Qed.

Lemma to_be_S n z : to_be (S n) z = to_be n (z / 256) ++ [z2b z].
Proof. reflexivity. Qed.

(** Big-endian bytes of equal width compare like the integers they encode. *)
Lemma bcmp_to_be n x y :
  0 <= x < 256 ^ Z.of_nat n -> 0 <= y < 256 ^ Z.of_nat n ->
  bcmp (to_be n x) (to_be n y) = (x ?= y).
Proof.
  revert x y. induction n as [|n IH]; intros x y Hx Hy.
  - simpl in *. assert (x = 0) as -> by lia. assert (y = 0) as -> by lia. done.
  - rewrite !to_be_S, bcmp_app by (by rewrite !length_to_be).
    rewrite pow256_S in Hx, Hy.
    rewrite IH by (split; [apply Z.div_pos; lia | apply Z.div_lt_upper_bound; lia]).
    simpl. rewrite !b2z_z2b.
    pose proof (Z.div_mod x 256). pose proof (Z.div_mod y 256).
    pose proof (Z.mod_pos_bound x 256). pose proof (Z.mod_pos_bound y 256).
    destruct (Z.compare_spec (x / 256) (y / 256));
      destruct (Z.compare_spec (x mod 256) (y mod 256));
      destruct (Z.compare_spec x y); try done; lia.
Qed.

(** ** Slices with Rust's bounds check ([buf.get(i..j)]) *)

Definition blen (b : bytes) : Z := Z.of_nat (length b).

Definition slice (buf : bytes) (i j : Z) : option bytes :=
  if (0 <=? i) && (i <=? j) && (j <=? blen buf)
  then Some (take (Z.to_nat (j - i)) (drop (Z.to_nat i) buf)) else None.

Lemma blen_nonneg b : 0 <= blen b.
Proof. unfold blen. lia. Qed.
#[export] Hint Resolve blen_nonneg : hatp.

Lemma blen_app a b : blen (a ++ b) = blen a + blen b.
Proof. unfold blen. rewrite length_app. lia. Qed.

Lemma blen_cons x b : blen (x :: b) = 1 + blen b.
Proof. unfold blen. rewrite length_cons. lia. Qed.

Lemma blen_nil : blen [] = 0.
Proof. reflexivity. Qed.

Lemma blen_take n b : blen (take n b) <= blen b.
Proof. unfold blen. rewrite length_take. lia. Qed.

Lemma blen_to_le n z : blen (to_le n z) = Z.of_nat n.
Proof. unfold blen. by rewrite length_to_le. Qed.

(** Reading the middle piece of a concatenation. *)
Lemma slice_app (a m b : bytes) i j :
  i = blen a -> j = blen a + blen m -> slice (a ++ m ++ b) i j = Some m.
Proof.
  intros -> ->. unfold slice. rewrite !blen_app.
  pose proof (blen_nonneg a). pose proof (blen_nonneg m). pose proof (blen_nonneg b).
  rewrite !(proj2 (Z.leb_le _ _)) by lia. simpl.
  rewrite Z.add_simpl_l. unfold blen. rewrite !Nat2Z.id.
  rewrite drop_app_length, take_app_length. done.
Qed.

Lemma slice_length buf i j m : slice buf i j = Some m -> blen m = j - i.
Proof.
  unfold slice. destruct (_ && _) eqn:E; [|done]. intros [= <-]. zbool.
  unfold blen in *. rewrite length_take, length_drop. lia.
Qed.

Lemma slice_is_Some buf i j :
  0 <= i <= j -> j <= blen buf -> exists m, slice buf i j = Some m.
Proof.
  intros. unfold slice. rewrite !(proj2 (Z.leb_le _ _)) by lia. eauto.
Qed.

Lemma slice_None_long buf i j : blen buf < j -> slice buf i j = None.
Proof.
  intros. unfold slice. rewrite (proj2 (Z.leb_gt j _)) by lia. by rewrite andb_false_r.
Qed.

Lemma slice_prefix buf full i j :
  buf `prefix_of` full -> slice full i j = slice buf i j \/ (blen buf < j /\ slice buf i j = None).
Proof.
  intros [q ->]. destruct (Z.ltb_spec (blen buf) j) as [Hlt|Hge].
  - right. split; [done|]. by apply slice_None_long.
  - left. unfold slice. rewrite blen_app. pose proof (blen_nonneg q).
    rewrite !(proj2 (Z.leb_le j _)) by lia. rewrite andb_true_r.
    destruct (Z.leb_spec 0 i); [|done]. destruct (Z.leb_spec i j); [|done]. simpl.
    f_equal. unfold blen in *. rewrite drop_app_le by lia. rewrite take_app_le; [done|].
    rewrite length_drop. lia.
Qed.

(** [slice::starts_with] *)
Fixpoint starts_with (b p : bytes) {struct p} : bool :=
  match p with
  | [] => true
  | x :: p' => match b with
               | y :: b' => bool_decide (x = y) && starts_with b' p'
               | [] => false
               end
  end.

Lemma starts_with_app p q : starts_with (p ++ q) p = true.
Proof. induction p as [|x p IH]; simpl; [done|]. by rewrite bool_decide_true. Qed.

Lemma starts_with_inv b p : starts_with b p = true -> exists q, b = p ++ q.
Proof.
  revert b. induction p as [|x p IH]; intros b; simpl; [by exists b|].
  destruct b as [|y b]; [done|]. intros [->%bool_decide_eq_true [q ->]%IH]%andb_true_iff.
  by exists q.
Qed.

Lemma starts_with_spec b p : starts_with b p = true <-> p `prefix_of` b.
Proof.
  split; [apply starts_with_inv|]. intros [q ->]. apply starts_with_app.
Qed.

(** ** Sorted vectors

    [slice::partition_point] on a slice partitioned by the predicate: the length
    of the prefix that satisfies it.  (Rust leaves the result unspecified on
    other slices; every caller's invariant gives a partitioned one.) *)
Fixpoint partition_point {A} (p : A -> bool) (l : list A) : nat :=
  match l with
  | [] => 0%nat
  | x :: r => if p x then S (partition_point p r) else 0%nat
  end.

Lemma partition_point_split {A} (p : A -> bool) l :
  exists pre post, l = pre ++ post /\ length pre = partition_point p l /\
    Forall (fun x => p x = true) pre /\
    match post with [] => True | y :: _ => p y = false end.
Proof.
  induction l as [|x l (pre & post & -> & Hl & Hpre & Hpost)]; simpl.
  - by exists [], [].
  - destruct (p x) eqn:E.
    + exists (x :: pre), post. simpl. rewrite Hl. auto.
    + exists [], (x :: pre ++ post). simpl. auto.
Qed.
