(* ===== verification/Paths.v ===== *)
(** * File names ([hatp-engine/src/lib.rs], [sst_path] and its siblings;
    [hatp/src/embedded.rs])

    The names of the files in a database directory, with the numbers printed in
    them.  The other files of this development index the disk by what a file is
    for; no two of them have the same name. *)

From Stdlib Require Import Strings.String Strings.Ascii Numbers.DecimalString Numbers.DecimalN.
From stdpp Require Import base tactics list option.
From S2P Require Import Prelude.
#[local] Open Scope Z_scope.
#[local] Open Scope string_scope.
#[local] Arguments String.append : simpl nomatch.

(** ** Printed numbers *)

(** [format!("{}")] of an unsigned number. *)
Definition fmt_u64 (n : Z) : string := NilEmpty.string_of_uint (N.to_uint (Z.to_N n)).

Fixpoint zeros (k : nat) (s : string) : string := match k with O => s | S k => String "0" (zeros k s) end.

(** [format!("{:020}")]: filled up with zeros to 20 digits. *)
Definition fmt_020 (n : Z) : string := zeros (20 - String.length (fmt_u64 n)) (fmt_u64 n).

Definition read_u64 (s : string) : option Z := (fun d => Z.of_N (N.of_uint d)) <$> NilEmpty.uint_of_string s.

Lemma fmt_u64_read n : 0 <= n -> read_u64 (fmt_u64 n) = Some n.
Proof. intros Hn. unfold read_u64, fmt_u64. rewrite NilEmpty.usu. cbn. by rewrite Unsigned.of_to, Z2N.id. Qed.

Lemma read_zeros k s : read_u64 (zeros k s) = read_u64 s.
Proof.
  induction k as [|k IH]; [done|]. rewrite <- IH. unfold read_u64. cbn. by destruct (NilEmpty.uint_of_string (zeros k s)).
Qed.

Lemma fmt_020_inj a b : 0 <= a -> 0 <= b -> fmt_020 a = fmt_020 b -> a = b.
Proof.
  intros Ha Hb E. assert (Hr : read_u64 (fmt_020 a) = read_u64 (fmt_020 b)) by (by rewrite E). unfold fmt_020 in Hr.
  rewrite !read_zeros, !fmt_u64_read in Hr by done. congruence.
Qed.

(** ** The files of a database *)

Inductive DataFile :=
| FWal | FManifest | FSchemas | FSchemasTmp | FCatalog | FCatalogTmp
| FSst (file_id : Z) | FBloom (file_id : Z) | FKeyIndex (file_id : Z).

Definition sst_path (file_id : Z) : string := "sst-" ++ fmt_020 file_id ++ ".vortex".
Definition bloom_path (file_id : Z) : string := "bloom-" ++ fmt_020 file_id ++ ".bf".
Definition key_index_path (file_id : Z) : string := "kidx-" ++ fmt_020 file_id ++ ".bin".
Definition schemas_path : string := "hatp.schemas".

(** The name of each file within the directory. *)
Definition file_name (f : DataFile) : string :=
  match f with
  | FWal => "hatp.wal"
  | FManifest => "MANIFEST"
  | FSchemas => schemas_path
  | FSchemasTmp => "hatp.schemas.tmp"
  | FCatalog => "catalog.json"
  | FCatalogTmp => "catalog.json.tmp"
  | FSst file_id => sst_path file_id
  | FBloom file_id => bloom_path file_id
  | FKeyIndex file_id => key_index_path file_id
  end.
Definition has_id (f : DataFile) : Prop :=
  match f with FSst i | FBloom i | FKeyIndex i => is_u64 i | _ => True end.

Lemma append_inj_r a b c : a ++ c = b ++ c -> a = b.
Proof.
  revert b. assert (Hlen : forall x y, String.length (x ++ y) = (String.length x + String.length y)%nat)
    by (induction x as [|d x IH]; intros y; cbn; [done|by rewrite IH]).
  induction a as [|d a IH]; intros [|e b] E; [done| | |].
  - assert (Hl : String.length ("" ++ c) = String.length (String e b ++ c)) by (by rewrite E). rewrite !Hlen in Hl. cbn in Hl. lia.
  - assert (Hl : String.length (String d a ++ c) = String.length ("" ++ c)) by (by rewrite E). rewrite !Hlen in Hl. cbn in Hl. lia.
  - cbn in E. injection E as -> E. by rewrite (IH b E).
Qed.

Lemma append_inj_l p a b : p ++ a = p ++ b -> a = b.
Proof. induction p as [|d p IH]; cbn; [done|]. intros [= E]. by apply IH. Qed.

(** A printed id determines the file. *)
Lemma numbered_inj p s a b : is_u64 a -> is_u64 b -> p ++ fmt_020 a ++ s = p ++ fmt_020 b ++ s -> a = b.
Proof. intros Ha Hb E%append_inj_l%append_inj_r. apply fmt_020_inj; [apply Ha|apply Hb|done]. Qed.

(** Different files have different names. *)
Lemma file_name_inj f g : has_id f -> has_id g -> file_name f = file_name g -> f = g.
Proof.
  intros Hf Hg E. destruct f, g; cbn [file_name] in E; try done; cbn [has_id] in Hf, Hg; f_equal; by eapply numbered_inj.
Qed.

(** The widest id fills its 20 digits. *)
Lemma widest_id : String.length (fmt_u64 u64_max) = 20%nat /\ fmt_020 7 = "00000000000000000007".
Proof. vm_compute. split; reflexivity. Qed.
