(* ===== verification/OrdMap.v ===== *)
(** * Ordered maps and sets

    [std::collections::BTreeMap] and [BTreeSet] as the engine uses them: point
    lookup, insertion, removal, half-open range iteration and iteration in
    ascending key order.  A map is the list of its entries in iteration order;
    [om_sorted] is the representation invariant, and [om_ext] makes two maps
    with the same lookups equal, so that client invariants can be stated on
    lookups alone. *)

From Stdlib Require Import Sorting.Permutation.
From S2P Require Import Prelude.
From stdpp Require Import base tactics list option sorting.
#[local] Open Scope Z_scope.

Abbreviation omap K V := (list (K * V)).

Section OrdMap.
Context {K V : Type} `{TotalCmp K}.
Implicit Types (m : omap K V) (k : K) (v : V).

(** [BTreeMap::get] *)
Fixpoint om_get (k : K) m : option V :=
  match m with
  | [] => None
  | (k', v) :: r => if eqc k k' then Some v else om_get k r
  end.

(** [BTreeMap::insert] *)
Fixpoint om_insert (k : K) (v : V) m : omap K V :=
  match m with
  | [] => [(k, v)]
  | (k', v') :: r =>
      match cmp k k' with
      | Lt => (k, v) :: m
      | Eq => (k, v) :: r
      | Gt => (k', v') :: om_insert k v r
      end
  end.

(** [BTreeMap::remove] *)
Definition om_remove (k : K) m : omap K V :=
  List.filter (fun e => negb (eqc k e.1)) m.

(** [entry(k).or_default()] followed by an in-place update. *)
Definition om_entry (k : K) (d : V) (f : V -> V) m : omap K V :=
  om_insert k (f (default d (om_get k m))) m.

(** [range((Included(lo), Excluded(hi)))]; [None] is the panic of
    [BTreeMap::range] when the start is greater than the end. *)
Definition in_range (lo hi k : K) : bool := lec lo k && ltc k hi.
Definition om_filter_range (lo hi : K) m : omap K V :=
  List.filter (fun e => in_range lo hi e.1) m.
Definition om_range (lo hi : K) m : option (omap K V) :=
  if lec lo hi then Some (om_filter_range lo hi m) else None.

Definition om_keys m : list K := map fst m.
Definition om_vals m : list V := map snd m.

Definition om_sorted m : Prop := StronglySorted clt (om_keys m).

(** *** Basic laws *)

Lemma om_sorted_nil : om_sorted [].
Proof. constructor. Qed.

Lemma om_sorted_inv k v m :
  om_sorted ((k, v) :: m) -> om_sorted m /\ Forall (clt k) (om_keys m).
Proof. intros Hs. by apply StronglySorted_inv in Hs. Qed.

Lemma om_sorted_cons k v m :
  om_sorted m -> Forall (clt k) (om_keys m) -> om_sorted ((k, v) :: m).
Proof. intros. by constructor. Qed.

Lemma om_get_cons k k' v m :
  om_get k ((k', v) :: m) = if eqc k k' then Some v else om_get k m.
Proof. done. Qed.

Lemma om_get_None_notin k m : om_get k m = None <-> ~ In k (om_keys m).
Proof.
  induction m as [|[k' v'] m IH]; simpl; [intuition|].
  destruct (eqc k k') eqn:E; cbool.
  - subst. split; [done|]. intros Hn. by destruct Hn; left.
  - rewrite IH. split; [|tauto]. intros Hn [Hk|Hk]; [by apply E|by apply Hn].
Qed.

Lemma om_get_In k v m : om_get k m = Some v -> In (k, v) m.
Proof.
  induction m as [|[k' v'] m IH]; simpl; [done|].
  destruct (eqc k k') eqn:E; cbool; naive_solver.
Qed.

Lemma om_get_below k m : Forall (clt k) (om_keys m) -> om_get k m = None.
Proof.
  intros Hall. apply om_get_None_notin. intros Hin.
  rewrite List.Forall_forall in Hall. by apply (clt_irrefl k), Hall.
Qed.

Lemma om_In_get k v m : om_sorted m -> In (k, v) m -> om_get k m = Some v.
Proof.
  induction m as [|[k' v'] m IH]; simpl; [done|].
  intros [Hs Hall]%om_sorted_inv [[= -> ->]|Hin].
  - by rewrite eqc_refl.
  - destruct (eqc k k') eqn:E; [|by apply IH]. cbool. subst.
    rewrite List.Forall_forall in Hall. exfalso. apply (clt_irrefl k'), Hall.
    by apply (in_map fst) in Hin.
Qed.

Lemma om_get_iff k v m : om_sorted m -> om_get k m = Some v <-> In (k, v) m.
Proof. intros Hs. split; [apply om_get_In|by apply om_In_get]. Qed.


Lemma om_get_insert k k' v m :
  om_get k' (om_insert k v m) = if eqc k' k then Some v else om_get k' m.
Proof.
  induction m as [|[k0 v0] m IH]; simpl; [done|].
  destruct (cmp k k0) eqn:E; simpl.
  - apply cmp_eq in E as ->. by destruct (eqc k' k0).
  - done.
  - rewrite IH. destruct (eqc k' k0) eqn:E1; [|done].
    destruct (eqc k' k) eqn:E2; [|done]. cbool. subst. by rewrite cmp_refl in E.
Qed.

Lemma om_get_insert_eq k v m : om_get k (om_insert k v m) = Some v.
Proof. by rewrite om_get_insert, eqc_refl. Qed.

Lemma om_get_insert_ne k k' v m : k' <> k -> om_get k' (om_insert k v m) = om_get k' m.
Proof. rewrite om_get_insert. intros Hne%eqc_false. by rewrite Hne. Qed.

Lemma om_keys_insert k k' v m :
  In k' (om_keys (om_insert k v m)) <-> k' = k \/ In k' (om_keys m).
Proof.
  induction m as [|[k0 v0] m IH]; simpl; [intuition|].
  destruct (cmp k k0) eqn:E; simpl.
  - apply cmp_eq in E as ->. intuition.
  - intuition.
  - rewrite IH. intuition.
Qed.

Lemma om_sorted_insert k v m : om_sorted m -> om_sorted (om_insert k v m).
Proof.
  induction m as [|[k0 v0] m IH]; simpl.
  - intros _. apply om_sorted_cons; constructor.
  - intros Hs. pose proof Hs as [Hs' Hall]%om_sorted_inv.
    destruct (cmp k k0) eqn:E.
    + apply cmp_eq in E as ->. by apply om_sorted_cons.
    + apply om_sorted_cons; [done|]. simpl. constructor; [done|].
      eapply Forall_impl; [exact Hall|]. intros ? ?. by eapply clt_trans.
    + apply om_sorted_cons; [by apply IH|]. apply List.Forall_forall.
      intros x [->|Hin]%om_keys_insert; [by apply cmp_gt_lt|].
      rewrite List.Forall_forall in Hall. by apply Hall.
Qed.

Lemma om_keys_filter f m : om_keys (List.filter f m) = map fst (List.filter f m).
Proof. done. Qed.

Lemma om_sorted_filter f m : om_sorted m -> om_sorted (List.filter f m).
Proof.
  induction m as [|[k v] m IH]; simpl; [done|].
  intros [Hs Hall]%om_sorted_inv. destruct (f (k, v)); [|by apply IH].
  apply om_sorted_cons; [by apply IH|]. apply List.Forall_forall.
  intros x ([k' v'] & <- & [Hin _]%filter_In)%in_map_iff.
  rewrite List.Forall_forall in Hall. apply Hall. by apply (in_map fst) in Hin.
Qed.

(** Filtering by a predicate on keys filters lookups. *)
Lemma om_get_filter (p : K -> bool) k m :
  om_get k (List.filter (fun e => p e.1) m) = if p k then om_get k m else None.
Proof.
  induction m as [|[k0 v0] m IH]; simpl; [by destruct (p k)|].
  destruct (eqc k k0) eqn:E.
  - apply eqc_spec in E as <-. destruct (p k) eqn:Ep; simpl.
    + by rewrite eqc_refl.
    + exact IH.
  - destruct (p k0); simpl; rewrite ?E; exact IH.
Qed.

Lemma om_get_remove k k' m :
  om_get k' (om_remove k m) = if eqc k k' then None else om_get k' m.
Proof.
  unfold om_remove. rewrite (om_get_filter (fun x => negb (eqc k x))).
  by destruct (eqc k k').
Qed.

Lemma om_get_remove_eq k m : om_get k (om_remove k m) = None.
Proof. by rewrite om_get_remove, eqc_refl. Qed.

Lemma om_get_remove_ne k k' m : k' <> k -> om_get k' (om_remove k m) = om_get k' m.
Proof. intros Hne. rewrite om_get_remove. by rewrite (proj2 (eqc_false k k')). Qed.

Lemma om_sorted_remove k m : om_sorted m -> om_sorted (om_remove k m).
Proof. apply om_sorted_filter. Qed.

(** Two well-formed maps with the same lookups are the same list. *)
Lemma om_ext m1 m2 :
  om_sorted m1 -> om_sorted m2 -> (forall k, om_get k m1 = om_get k m2) -> m1 = m2.
Proof.
  revert m2. induction m1 as [|[k1 v1] m1 IH]; intros [|[k2 v2] m2] Hs1 Hs2 Heq.
  - done.
  - specialize (Heq k2). simpl in Heq. by rewrite eqc_refl in Heq.
  - specialize (Heq k1). simpl in Heq. by rewrite eqc_refl in Heq.
  - pose proof Hs1 as [Hs1' Ha1]%om_sorted_inv. pose proof Hs2 as [Hs2' Ha2]%om_sorted_inv.
    assert (k1 = k2) as <-.
    { destruct (cmp_case k1 k2) as [Hlt|[?|Hlt]]; [exfalso|done|exfalso].
      - specialize (Heq k1). simpl in Heq. rewrite eqc_refl in Heq.
        rewrite (proj2 (eqc_false k1 k2)) in Heq by (by apply clt_ne).
        rewrite om_get_below in Heq; [done|].
        eapply Forall_impl; [exact Ha2|]. intros; by eapply clt_trans.
      - specialize (Heq k2). simpl in Heq. rewrite eqc_refl in Heq.
        rewrite (proj2 (eqc_false k2 k1)) in Heq by (by apply clt_ne).
        rewrite om_get_below in Heq; [done|].
        eapply Forall_impl; [exact Ha1|]. intros; by eapply clt_trans. }
    pose proof (Heq k1) as Hk. simpl in Hk. rewrite eqc_refl in Hk. injection Hk as <-.
    f_equal. apply IH; [done..|]. intros k. specialize (Heq k). simpl in Heq.
    destruct (eqc k k1) eqn:E; [|done]. apply eqc_spec in E as ->.
    by rewrite !om_get_below.
Qed.

Lemma om_sorted_entry k d f m : om_sorted m -> om_sorted (om_entry k d f m).
Proof. apply om_sorted_insert. Qed.

Lemma om_get_entry k k' d f m :
  om_get k' (om_entry k d f m) =
  if eqc k' k then Some (f (default d (om_get k m))) else om_get k' m.
Proof. apply om_get_insert. Qed.

Lemma om_get_range lo hi k m :
  om_get k (om_filter_range lo hi m) = if in_range lo hi k then om_get k m else None.
Proof. apply (om_get_filter (in_range lo hi)). Qed.

Lemma om_get_head k v m : om_sorted ((k, v) :: m) -> forall k', is_Some (om_get k' m) -> clt k k'.
Proof.
  intros [_ Hall]%om_sorted_inv k' [v' Hg%om_get_In%(in_map fst)].
  rewrite List.Forall_forall in Hall. by apply Hall.
Qed.

Lemma om_insert_id k v m : om_sorted m -> om_get k m = Some v -> om_insert k v m = m.
Proof.
  intros Hs Hg. apply om_ext; [by apply om_sorted_insert|done|].
  intros k'. rewrite om_get_insert. destruct (eqc k' k) eqn:E; [|done].
  apply eqc_spec in E as ->. done.
Qed.
End OrdMap.

#[export] Hint Resolve om_sorted_nil om_sorted_insert om_sorted_remove om_sorted_filter
  om_sorted_entry : hatp.

(** Mapping a function over the values keeps keys and order. *)
Definition om_map {K V W} (f : V -> W) (m : omap K V) : omap K W :=
  map (fun e => (e.1, f e.2)) m.

Lemma om_keys_map {K V W} (f : V -> W) (m : omap K V) : om_keys (om_map f m) = om_keys m.
Proof. unfold om_keys, om_map. rewrite map_map. done. Qed.

Lemma om_sorted_map {K V W} `{TotalCmp K} (f : V -> W) (m : omap K V) :
  om_sorted m -> om_sorted (om_map f m).
Proof. unfold om_sorted. by rewrite om_keys_map. Qed.
#[export] Hint Resolve om_sorted_map : hatp.

Lemma om_get_map {K V W} `{TotalCmp K} (f : V -> W) (m : omap K V) k :
  om_get k (om_map f m) = f <$> om_get k m.
Proof.
  induction m as [|[k0 v0] m IH]; simpl; [done|]. by destruct (eqc k k0).
Qed.

(** ** Sets: [BTreeSet] *)

Abbreviation oset K := (omap K unit).
Definition os_insert {K} `{TotalCmp K} (k : K) (s : oset K) : oset K := om_insert k tt s.
Definition os_remove {K} `{TotalCmp K} (k : K) (s : oset K) : oset K := om_remove k s.
Definition os_mem {K} `{TotalCmp K} (k : K) (s : oset K) : bool :=
  match om_get k s with Some _ => true | None => false end.

Section OrdSet.
Context {K : Type} `{TotalCmp K}.
Implicit Types (s : oset K) (k : K).

Lemma os_mem_In k s : os_mem k s = true <-> In k (om_keys s).
Proof.
  unfold os_mem. induction s as [|[k' []] s IH]; simpl; [done|].
  destruct (eqc k k') eqn:E; cbool; [intuition|]. rewrite IH. intuition congruence.
Qed.

Lemma os_mem_insert k k' s : os_mem k' (os_insert k s) = eqc k' k || os_mem k' s.
Proof. unfold os_mem, os_insert. rewrite om_get_insert. by destruct (eqc k' k). Qed.

Lemma os_mem_remove k k' s : os_mem k' (os_remove k s) = negb (eqc k k') && os_mem k' s.
Proof. unfold os_mem, os_remove. rewrite om_get_remove. by destruct (eqc k k'). Qed.

Lemma os_ext s1 s2 :
  om_sorted s1 -> om_sorted s2 -> (forall k, os_mem k s1 = os_mem k s2) -> s1 = s2.
Proof.
  intros H1 H2 Heq. apply om_ext; [done..|]. intros k. specialize (Heq k).
  unfold os_mem in Heq.
  destruct (om_get k s1) as [[]|], (om_get k s2) as [[]|]; done.
Qed.
End OrdSet.

Lemma om_keys_NoDup {K V} `{TotalCmp K} (m : omap K V) : om_sorted m -> NoDup (om_keys m).
Proof.
  intros Hs. induction Hs as [|k ks _ IH Hall]; constructor; [|done].
  intros Hin%list_elem_of_In. rewrite List.Forall_forall in Hall. by apply (clt_irrefl k), Hall.
Qed.

(** ** Sorted vectors *)

(** [slice::sort_by] on a key: the stable sort.  [sort_unstable_by_key] sorts a
    vector whose keys are distinct, where the two agree. *)
Fixpoint sort_insert {A K} `{TotalCmp K} (key : A -> K) (x : A) (l : list A) : list A :=
  match l with
  | [] => [x]
  | y :: r => if lec (key x) (key y) then x :: l else y :: sort_insert key x r
  end.

Definition sort_by_key {A K} `{TotalCmp K} (key : A -> K) (l : list A) : list A :=
  fold_right (sort_insert key) [] l.

(** [slice::binary_search_by_key] on a vector sorted by the key; of several
    equal keys (Rust leaves the choice open) the first. *)
Definition binary_search_by_key {A K} `{TotalCmp K} (k : K) (key : A -> K) (l : list A)
  : option nat :=
  let idx := partition_point (fun a => ltc (key a) k) l in
  match l !! idx with
  | Some a => if eqc (key a) k then Some idx else None
  | None => None
  end.

Section SortByKey.
Context {A K : Type} `{TotalCmp K} (key : A -> K).

Definition by_key_le (a b : A) : Prop := cle (key a) (key b).

Lemma sort_insert_perm x l : Permutation (x :: l) (sort_insert key x l).
Proof.
  induction l as [|y r IH]; cbn; [done|]. destruct (lec (key x) (key y)); [done|].
  etransitivity; [apply perm_swap|]. by apply perm_skip.
Qed.

Lemma sort_by_key_perm l : Permutation l (sort_by_key key l).
Proof.
  induction l as [|x l IH]; cbn; [done|].
  etransitivity; [by apply perm_skip, IH|apply sort_insert_perm].
Qed.

Lemma sort_insert_sorted x l :
  StronglySorted by_key_le l -> StronglySorted by_key_le (sort_insert key x l).
Proof.
  induction l as [|y r IH]; cbn; intros Hs; [repeat constructor|].
  pose proof Hs as [Hs' Hall]%StronglySorted_inv. destruct (lec (key x) (key y)) eqn:E; cbool.
  - constructor; [done|]. constructor; [done|].
    eapply List.Forall_impl; [|exact Hall]. intros z Hz. by apply (cle_trans _ (key y)).
  - constructor; [by apply IH|]. rewrite <- sort_insert_perm. constructor; [|done].
    by apply clt_le.
Qed.

Lemma sort_by_key_sorted l : StronglySorted by_key_le (sort_by_key key l).
Proof. induction l as [|x l IH]; cbn; [constructor|]. by apply sort_insert_sorted. Qed.

(** The prefix found by [partition_point] on a sorted vector. *)
Lemma partition_take (p : A -> bool) l x :
  StronglySorted by_key_le l -> (forall a b, by_key_le a b -> p b = true -> p a = true) ->
  In x (take (partition_point p l) l) <-> In x l /\ p x = true.
Proof.
  intros Hs Hp. induction l as [|y r IH]; cbn; [tauto|].
  apply StronglySorted_inv in Hs as [Hs Hall]. destruct (p y) eqn:E; cbn.
  - rewrite IH by done. split; [intros [->|[? ?]]; tauto|tauto].
  - split; [done|]. intros [[->|Hin] Hx]; [congruence|].
    rewrite List.Forall_forall in Hall. apply Hall in Hin. rewrite (Hp y x) in E; done.
Qed.

Lemma binary_search_spec k (l : list A) x :
  StronglySorted by_key_le l -> NoDup (map key l) ->
  (exists idx, binary_search_by_key k key l = Some idx /\ l !! idx = Some x) <->
  In x l /\ key x = k.
Proof.
  unfold binary_search_by_key. induction l as [|y r IH]; intros Hs Hnd.
  - cbn. split; [by intros (? & ? & _)|by intros [[] _]].
  - apply StronglySorted_inv in Hs as [Hs Hall]. apply NoDup_cons in Hnd as [Hni Hnd].
    cbn [partition_point]. destruct (ltc (key y) k) eqn:E; cbool.
    + cbn [lookup list_lookup]. specialize (IH Hs Hnd).
      transitivity (In x r /\ key x = k); [rewrite <- IH|].
      * destruct (r !! partition_point _ r) as [a|] eqn:Ea; cbn in Ea |- *; rewrite ?Ea.
        -- destruct (eqc (key a) k); split; intros (idx & [= <-] & Hx); eauto.
        -- split; by intros (? & ? & _).
      * cbn. split; [tauto|]. intros [[->|?] Hx]; [|tauto]. subst. by apply clt_irrefl in E.
    + cbn [lookup list_lookup]. destruct (eqc (key y) k) eqn:Ek; cbool.
      * split.
        -- intros (idx & [= <-] & [= <-]). split; [by left|done].
        -- intros [[->|Hin] Hx]; [by exists 0%nat|]. destruct Hni. apply list_elem_of_In.
           rewrite Ek, <- Hx. by apply in_map.
      * split; [by intros (? & ? & _)|]. intros [[->|Hin] Hx]; [done|].
        rewrite List.Forall_forall in Hall. apply Hall in Hin. unfold by_key_le in Hin.
        rewrite Hx in Hin. destruct Ek. by apply cle_antisym.
Qed.
End SortByKey.

