(* ===== verification/Types.v ===== *)
(** * Shared types

    The aliases of [hatp-types/src/lib.rs] and the error, mutation and
    configuration enums of [hatp-engine/src/lib.rs] that every component of the
    engine uses. *)

From Stdlib Require Import Strings.String.
From S2P Require Import Prelude.
From stdpp Require Import base tactics list.
#[local] Open Scope Z_scope.

(** Monotonically increasing transaction timestamp (a [u64]). *)
Abbreviation TxnTs := Z (only parsing).

(** Open end of the newest version's visibility range. *)
Definition OPEN_ENDED_TS : TxnTs := u64_max.

(** Errors of the durable engine.  Payloads that wrap foreign error types
    ([std::io], Arrow, Vortex) are kept as their message. *)
Inductive EngineError : Type :=
| Io (msg : string)
| Arrow (msg : string)
| OutOfRange (msg : string)
| Corrupt (msg : string)
| CorruptMessage (msg : string)
| Vortex (msg : string)
| EmptyBatch
| ChecksumMismatch
| Throttled
| NullPrimaryKey (table column : string)
| WriteConflict (txn : Z) (key : bytes)
| ReadWriteConflict (txn : Z) (key : bytes).

(** [hatp_engine::Result]. *)
Abbreviation Result A := (result EngineError A).

(** One atomic mutation in a write batch. *)
Inductive Mutation : Type :=
| MPut (key value : bytes)
| MDelete (key : bytes).

Definition mutation_key (m : Mutation) : bytes :=
  match m with MPut k _ => k | MDelete k => k end.

(** WAL durability mode. *)
Inductive SyncMode : Type :=
| Full
| Group (interval_us : Z).
