(* ===== verification/Version.v ===== *)
(** * MVCC version chains ([hatp-engine/src/version.rs])

    The chain of one key, newest first, with the visibility interval of every
    version.  [chain_wf] is the chain invariant (strictly decreasing begin
    timestamps, contiguous intervals, open-ended head); [history] is the
    abstract contract: a finite map from commit timestamps to values, of which
    a snapshot sees the entry with the greatest timestamp not after it. *)

From S2P Require Import Prelude Types.
From stdpp Require Import base tactics list gmap.
#[local] Open Scope Z_scope.

(** One version of a row value; [value = None] is a delete tombstone. *)
Record VersionedValue := {
  value : option bytes;
  begin_ts : TxnTs;
  end_ts : TxnTs;
  tx_id : Z;
}.

#[global] Instance VersionedValue_eq_dec : EqDecision VersionedValue.
Proof. solve_decision. Defined.

(** Functional update of [end_ts] (the code assigns the field in place). *)
Definition set_end (v : VersionedValue) (e : TxnTs) : VersionedValue :=
  {| value := value v; begin_ts := begin_ts v; end_ts := e; tx_id := tx_id v |}.

Definition live (val : bytes) (ts : TxnTs) (tx : Z) : VersionedValue :=
  {| value := Some val; begin_ts := ts; end_ts := OPEN_ENDED_TS; tx_id := tx |}.

Definition tombstone (ts : TxnTs) (tx : Z) : VersionedValue :=
  {| value := None; begin_ts := ts; end_ts := OPEN_ENDED_TS; tx_id := tx |}.

Definition visible_at (v : VersionedValue) (snapshot_ts : TxnTs) : bool :=
  (begin_ts v <=? snapshot_ts) && (snapshot_ts <? end_ts v).

(** Consistent read point used by a transaction. *)
Record Snapshot := mkSnapshot { ts : TxnTs }.

Definition sees (s : Snapshot) (v : VersionedValue) : bool := visible_at v (ts s).

(** The struct's only field, the vector of versions, newest first. *)
Abbreviation VersionChain := (list VersionedValue).

(** [VersionChain::insert] *)
Definition chain_insert (c : VersionChain) (version : VersionedValue) : VersionChain :=
  match c with
  | [] => [version]
  | head :: tail =>
      if begin_ts head <? begin_ts version then
        version :: set_end head (begin_ts version) :: tail
      else
        let idx := partition_point (fun cand => begin_ts version <? begin_ts cand) c in
        match c !! idx with
        | Some existing =>
            if begin_ts existing =? begin_ts version then
              <[idx := set_end version (end_ts existing)]> c
            else
              let version := match idx with
                             | O => version
                             | S p => match c !! p with
                                      | Some newer => set_end version (begin_ts newer)
                                      | None => version
                                      end
                             end in
              let c := if begin_ts version <? end_ts existing
                       then <[idx := set_end existing (begin_ts version)]> c else c in
              take idx c ++ version :: drop idx c
        | None =>
            let version := match idx with
                           | O => version
                           | S p => match c !! p with
                                    | Some newer => set_end version (begin_ts newer)
                                    | None => version
                                    end
                           end in
            take idx c ++ version :: drop idx c
        end
  end.

(** [VersionChain::get]: probe the head, then scan the whole chain. *)
Fixpoint find_visible (s : Snapshot) (c : list VersionedValue) : option VersionedValue :=
  match c with
  | [] => None
  | v :: r => if sees s v then Some v else find_visible s r
  end.

Definition chain_get (c : VersionChain) (s : Snapshot) : option VersionedValue :=
  match c with
  | [] => None
  | head :: _ => if sees s head then Some head else find_visible s c
  end.

(** [VersionChain::garbage_collect]; the chain and the number of versions dropped. *)
Definition chain_garbage_collect (c : VersionChain) (oldest_snapshot : TxnTs)
  : VersionChain * nat :=
  match c with
  | [] => (c, 0%nat)
  | head :: _ =>
      let newest_ts := begin_ts head in
      let c' := List.filter (fun v => (begin_ts v =? newest_ts)
                                      || (oldest_snapshot <? end_ts v)) c in
      (c', (length c - length c')%nat)
  end.

(** ** The chain invariant *)

(** Below an upper end [up]: intervals are contiguous and strictly decreasing. *)
Fixpoint chain_wf_from (up : TxnTs) (c : VersionChain) : Prop :=
  match c with
  | [] => True
  | v :: r => end_ts v = up /\ 0 <= begin_ts v < up /\ chain_wf_from (begin_ts v) r
  end.

Definition chain_wf (c : VersionChain) : Prop := chain_wf_from OPEN_ENDED_TS c.

(** A version as the memtable installs it: open ended, with a committed timestamp. *)
Definition fresh_version (v : VersionedValue) : Prop :=
  end_ts v = OPEN_ENDED_TS /\ 0 <= begin_ts v < OPEN_ENDED_TS.

(** ** The abstract history of a key *)

Abbreviation history := (gmap Z (option bytes * Z)).

Fixpoint chain_history (c : VersionChain) : history :=
  match c with
  | [] => ∅
  | v :: r => <[begin_ts v := (value v, tx_id v)]> (chain_history r)
  end.

(** [h] has its newest entry at or before [s] at timestamp [t]. *)
Definition newest_at (h : history) (s t : TxnTs) (e : option bytes * Z) : Prop :=
  h !! t = Some e /\ t <= s /\ forall t', is_Some (h !! t') -> t' <= s -> t' <= t.

(** ** Insertion, by recursion over the chain *)

Fixpoint ins (up : TxnTs) (v : VersionedValue) (c : VersionChain) : VersionChain :=
  match c with
  | [] => [set_end v up]
  | h :: t =>
      if begin_ts h <? begin_ts v then set_end v up :: set_end h (begin_ts v) :: t
      else if begin_ts h =? begin_ts v then set_end v up :: t
      else h :: ins (begin_ts h) v t
  end.

Lemma set_end_id v : set_end v (end_ts v) = v.
Proof. by destruct v. Qed.

(** Begin timestamp of the version just newer than the splice point. *)
Definition newer_begin (up : TxnTs) (pre : VersionChain) : TxnTs :=
  match last pre with Some n => begin_ts n | None => up end.

Lemma newer_begin_cons up x pre : newer_begin up (x :: pre) = newer_begin (begin_ts x) pre.
Proof. unfold newer_begin. rewrite last_cons. by destruct (last pre). Qed.

Lemma ins_app up v pre post :
  Forall (fun x => (begin_ts v <? begin_ts x) = true) pre ->
  ins up v (pre ++ post) = pre ++ ins (newer_begin up pre) v post.
Proof.
  intros Hpre. revert up. induction Hpre as [|x pre Hx Hpre IH]; intros up; simpl; [done|].
  zbool. rewrite (proj2 (Z.ltb_ge _ _)) by lia. rewrite (proj2 (Z.eqb_neq _ _)) by lia.
  by rewrite IH, newer_begin_cons.
Qed.

Lemma chain_wf_app up pre post :
  chain_wf_from up (pre ++ post) <->
  chain_wf_from up pre /\ chain_wf_from (newer_begin up pre) post.
Proof.
  revert up. induction pre as [|x pre IH]; intros up; simpl; [tauto|].
  rewrite IH, newer_begin_cons. tauto.
Qed.

(** On a well-formed chain the splice of [chain_insert] is the recursive one. *)
Lemma chain_insert_ins c v :
  chain_wf c -> end_ts v = OPEN_ENDED_TS -> chain_insert c v = ins OPEN_ENDED_TS v c.
Proof.
  intros Hwf Hv. destruct c as [|h t]; [by simpl; rewrite <- Hv, set_end_id|].
  unfold chain_insert. cbv zeta.
  destruct (begin_ts h <? begin_ts v) eqn:Hh; [by simpl; rewrite Hh, <- Hv, set_end_id|].
  set (p := fun cand => begin_ts v <? begin_ts cand).
  destruct (partition_point_split p (h :: t)) as (pre & post & Heq & Hlen & Hpre & Hpost).
  rewrite <- Hlen, Heq. rewrite Heq in Hwf. clear Hlen.
  apply chain_wf_app in Hwf as [_ Hwf]. rewrite ins_app by done.
  rewrite lookup_app_r, Nat.sub_diag by lia.
  assert (Hvp : match length pre with
          | O => v
          | S q => match (pre ++ post) !! q with
                   | Some newer => set_end v (begin_ts newer) | None => v end
          end = set_end v (newer_begin OPEN_ENDED_TS pre)).
  { unfold newer_begin. rewrite last_lookup. destruct pre as [|x pre]; [by simpl; rewrite <- Hv, set_end_id|].
    change (length (x :: pre)) with (S (length pre)). cbn [pred].
    rewrite lookup_app_l by (simpl; lia).
    destruct ((x :: pre) !! length pre) eqn:E; [done|].
    apply lookup_ge_None in E. simpl in E. lia. }
  destruct post as [|e post]; cbn [lookup list_lookup].
  - rewrite Hvp. by rewrite app_nil_r, take_ge, drop_ge by lia.
  - unfold p in Hpost. apply Z.ltb_ge in Hpost. cbn [ins]. rewrite Hvp.
    destruct Hwf as (He & Hb & _).
    destruct (begin_ts e =? begin_ts v) eqn:E; zbool.
    + rewrite (proj2 (Z.ltb_ge _ _)) by lia. rewrite insert_app_r_alt, Nat.sub_diag by lia.
      simpl. by rewrite He.
    + rewrite (proj2 (Z.ltb_lt (begin_ts e) _)) by lia.
      cbn [begin_ts set_end]. rewrite He.
      destruct (Z.ltb_spec (begin_ts v) (newer_begin OPEN_ENDED_TS pre)) as [|Hge].
      * rewrite insert_app_r_alt, Nat.sub_diag by lia. simpl.
        by rewrite take_app_length, drop_app_length.
      * exfalso. unfold newer_begin in Hge. destruct (last pre) as [n|] eqn:El.
        -- apply last_Some_elem_of in El. rewrite Forall_forall in Hpre.
           specialize (Hpre n El). unfold p in Hpre. zbool. lia.
        -- apply last_None in El as ->. simpl in Heq. injection Heq as -> ->. zbool. lia.
Qed.

Lemma ins_wf up v c :
  0 <= begin_ts v < up -> chain_wf_from up c -> chain_wf_from up (ins up v c).
Proof.
  revert up. induction c as [|h t IH]; intros up Hv Hwf; simpl in *; [auto|].
  destruct Hwf as (He & Hb & Ht).
  destruct (begin_ts h <? begin_ts v) eqn:E1; zbool.
  - simpl. repeat split; try done; lia.
  - destruct (begin_ts h =? begin_ts v) eqn:E2; zbool; simpl.
    + rewrite <- E2. repeat split; try done; lia.
    + repeat split; try done; try lia. apply IH; [lia|done].
Qed.

Lemma chain_history_bound up c t :
  chain_wf_from up c -> is_Some (chain_history c !! t) -> 0 <= t < up.
Proof.
  revert up. induction c as [|v r IH]; intros up Hwf; simpl in *.
  - rewrite lookup_empty. by intros [? ?].
  - destruct Hwf as (_ & Hb & Hr). rewrite lookup_insert. case_decide as Heq.
    + intros _. subst. lia.
    + intros Hs. specialize (IH _ Hr Hs). lia.
Qed.

Lemma chain_history_elem c v : v ∈ c -> is_Some (chain_history c !! begin_ts v).
Proof.
  induction 1 as [x c|x y c Hin IH]; simpl; rewrite lookup_insert; case_decide; try done; eauto.
Qed.

Lemma ins_history up v c :
  chain_wf_from up c ->
  chain_history (ins up v c) = <[begin_ts v := (value v, tx_id v)]> (chain_history c).
Proof.
  revert up. induction c as [|h t IH]; intros up Hwf; simpl in *; [done|].
  destruct Hwf as (He & Hb & Ht).
  destruct (begin_ts h <? begin_ts v) eqn:E1; zbool; [done|].
  destruct (begin_ts h =? begin_ts v) eqn:E2; zbool; simpl.
  - rewrite E2. by rewrite insert_insert_eq.
  - rewrite (IH _ Ht). rewrite insert_insert_ne; [done|lia].
Qed.

Lemma chain_get_find c s : chain_get c s = find_visible s c.
Proof. destruct c as [|h t]; [done|]. simpl. by destruct (sees s h). Qed.

(** The version a snapshot below the chain's end sees is the newest one of the
    history, and it carries that entry's value and transaction. *)
Lemma find_visible_newest up c s v :
  chain_wf_from up c -> ts s < up ->
  find_visible s c = Some v <->
  v ∈ c /\ newest_at (chain_history c) (ts s) (begin_ts v) (value v, tx_id v).
Proof.
  revert up. induction c as [|h t IH]; intros up Hwf Hs; simpl in *.
  { split; [done|]. intros [Hin _]. by apply not_elem_of_nil in Hin. }
  destruct Hwf as (He & Hb & Ht). unfold sees, visible_at.
  destruct (Z.leb_spec (begin_ts h) (ts s)) as [Hle|Hgt]; simpl.
  - rewrite (proj2 (Z.ltb_lt _ _)) by lia. split.
    + intros [= <-]. split; [by left|]. split; [by rewrite lookup_insert_eq|].
      split; [done|]. intros t' Ht'. rewrite lookup_insert in Ht'.
      case_decide; [lia|]. pose proof (chain_history_bound _ _ _ Ht Ht'). lia.
    + intros [Hin (Hn1 & Hn2 & Hn3)]. apply elem_of_cons in Hin as [->|Hin]; [done|].
      exfalso. rewrite lookup_insert in Hn1. case_decide as Heq.
      * assert (Hin' : is_Some (chain_history t !! begin_ts v)).
        { by apply chain_history_elem. }
        pose proof (chain_history_bound _ _ _ Ht Hin'). lia.
      * assert (Hs' : is_Some (chain_history t !! begin_ts v)) by eauto.
        pose proof (chain_history_bound _ _ _ Ht Hs').
        specialize (Hn3 (begin_ts h)). rewrite lookup_insert_eq in Hn3.
        specialize (Hn3 (ltac:(eauto)) Hle). lia.
  - rewrite (IH _ Ht) by lia. unfold newest_at. split.
    + intros [Hin (Hn1 & Hn2 & Hn3)]. split; [by right|]. split.
      * rewrite lookup_insert_ne by lia. done.
      * split; [done|]. intros t' Ht' Hle. rewrite lookup_insert in Ht'.
        case_decide; [lia|]. by apply Hn3.
    + intros [Hin (Hn1 & Hn2 & Hn3)]. apply elem_of_cons in Hin as [->|Hin]; [lia|].
      split; [done|]. rewrite lookup_insert_ne in Hn1 by lia.
      split; [done|]. split; [done|]. intros t' Ht' Hle. apply Hn3; [|done].
      rewrite lookup_insert. case_decide; eauto.
Qed.

Lemma find_visible_elem s c v : find_visible s c = Some v -> v ∈ c /\ sees s v = true.
Proof.
  induction c as [|h t IH]; simpl; [done|]. destruct (sees s h) eqn:E.
  - intros [= <-]. split; [by left|done].
  - intros [? ?]%IH. split; [by right|done].
Qed.

Lemma find_visible_None up c s :
  chain_wf_from up c -> ts s < up ->
  find_visible s c = None <-> forall t, is_Some (chain_history c !! t) -> ts s < t.
Proof.
  revert up. induction c as [|h t IH]; intros up Hwf Hs; simpl in *.
  { split; [|done]. intros _ t. rewrite lookup_empty. by intros [? ?]. }
  destruct Hwf as (He & Hb & Ht). unfold sees, visible_at.
  destruct (Z.leb_spec (begin_ts h) (ts s)) as [Hle|Hgt]; simpl.
  - rewrite (proj2 (Z.ltb_lt _ _)) by lia. split; [done|].
    intros Hall. specialize (Hall (begin_ts h)). rewrite lookup_insert_eq in Hall.
    specialize (Hall (ltac:(done))). lia.
  - rewrite (IH _ Ht) by lia. split; intros Hall t' Ht'.
    + rewrite lookup_insert in Ht'. case_decide; [lia|]. by apply Hall.
    + apply Hall. rewrite lookup_insert. by case_decide.
Qed.

(** ** Garbage collection *)

Definition gc_keep (oldest : TxnTs) (v : VersionedValue) : bool := oldest <? end_ts v.

Lemma chain_wf_ends up c : chain_wf_from up c -> Forall (fun v => end_ts v <= up) c.
Proof.
  revert up. induction c as [|v r IH]; intros up; simpl; [done|]. intros (He & Hb & Hr).
  constructor; [lia|]. eapply Forall_impl; [by apply IH|]. simpl. lia.
Qed.

Lemma chain_wf_begins up c : chain_wf_from up c -> Forall (fun v => begin_ts v < up) c.
Proof.
  revert up. induction c as [|v r IH]; intros up; simpl; [done|]. intros (_ & Hb & Hr).
  constructor; [lia|]. eapply Forall_impl; [by apply IH|]. simpl. lia.
Qed.

Lemma gc_none oldest c : Forall (fun v => end_ts v <= oldest) c -> List.filter (gc_keep oldest) c = [].
Proof.
  induction 1 as [|v r Hv Hr IH]; simpl; [done|]. unfold gc_keep at 1.
  by rewrite (proj2 (Z.ltb_ge _ _)).
Qed.

Lemma gc_wf oldest up c : chain_wf_from up c -> chain_wf_from up (List.filter (gc_keep oldest) c).
Proof.
  revert up. induction c as [|v r IH]; intros up Hwf; simpl; [done|].
  pose proof Hwf as (He & Hb & Hr). unfold gc_keep at 1.
  destruct (oldest <? end_ts v) eqn:E; zbool.
  - simpl. auto.
  - rewrite gc_none; [done|]. eapply Forall_impl; [by apply chain_wf_ends|]. simpl. lia.
Qed.

Lemma gc_find oldest up c s :
  chain_wf_from up c -> oldest <= ts s ->
  find_visible s (List.filter (gc_keep oldest) c) = find_visible s c.
Proof.
  intros _ Hs. induction c as [|v r IH]; simpl; [done|]. unfold gc_keep at 1.
  destruct (oldest <? end_ts v) eqn:E; simpl; zbool; [by rewrite IH|].
  rewrite IH. unfold sees, visible_at. rewrite (proj2 (Z.ltb_ge (ts s) _)) by lia.
  by rewrite andb_false_r.
Qed.

(** Collection keeps the head and then the versions still observable. *)
Lemma chain_garbage_collect_eq h t oldest :
  chain_wf (h :: t) ->
  (chain_garbage_collect (h :: t) oldest).1 = h :: List.filter (gc_keep oldest) t.
Proof.
  intros (_ & _ & Ht). unfold chain_garbage_collect. cbn [fst List.filter].
  rewrite Z.eqb_refl. simpl. f_equal. apply List.filter_ext_in. intros v Hin.
  apply chain_wf_begins in Ht. rewrite List.Forall_forall in Ht. specialize (Ht v Hin).
  simpl in Ht. by rewrite (proj2 (Z.eqb_neq _ _)) by lia.
Qed.

Lemma chain_gc_wf c oldest : chain_wf c -> chain_wf (chain_garbage_collect c oldest).1.
Proof.
  destruct c as [|h t]; [done|]. intros Hwf. rewrite chain_garbage_collect_eq by done.
  destruct Hwf as (? & ? & ?). split; [done|]. split; [done|]. by apply gc_wf.
Qed.

Lemma chain_gc_get c oldest s :
  chain_wf c -> oldest <= ts s ->
  chain_get (chain_garbage_collect c oldest).1 s = chain_get c s.
Proof.
  intros Hwf Hs. rewrite !chain_get_find. destruct c as [|h t]; [done|].
  rewrite chain_garbage_collect_eq by done. simpl. destruct Hwf as (_ & _ & Ht).
  destruct (sees s h); [done|]. by eapply gc_find.
Qed.

Lemma chain_insert_wf c v : chain_wf c -> fresh_version v -> chain_wf (chain_insert c v).
Proof.
  intros Hwf [He Hb]. rewrite chain_insert_ins by done. by apply ins_wf.
Qed.

Lemma chain_insert_history c v :
  chain_wf c -> fresh_version v ->
  chain_history (chain_insert c v) = <[begin_ts v := (value v, tx_id v)]> (chain_history c).
Proof.
  intros Hwf [He Hb]. rewrite chain_insert_ins by done. by apply (ins_history OPEN_ENDED_TS).
Qed.

Lemma live_fresh val t tx : 0 <= t < OPEN_ENDED_TS -> fresh_version (live val t tx).
Proof. done. Qed.

Lemma tombstone_fresh t tx : 0 <= t < OPEN_ENDED_TS -> fresh_version (tombstone t tx).
Proof. done. Qed.
#[export] Hint Resolve live_fresh tombstone_fresh chain_insert_wf chain_gc_wf : hatp.

(** ** Main results on chains *)

(** C22: on a well-formed chain, [VersionChain::insert] of a fresh version, in or
    out of timestamp order, keeps the chain well formed and refines insertion
    into the abstract history (an equal timestamp is overwritten). *)
Theorem chain_insert_refines (c : VersionChain) (v : VersionedValue) :
  chain_wf c -> fresh_version v ->
  chain_wf (chain_insert c v) /\
  chain_history (chain_insert c v) = <[begin_ts v := (value v, tx_id v)]> (chain_history c).
Proof. intros. split; [by apply chain_insert_wf | by apply chain_insert_history]. Qed.

Definition sample_chain : VersionChain :=
  chain_insert (chain_insert [] (live [x61] 100 1)) (live [x62] 50 2).

Lemma sample_chain_wf : chain_wf sample_chain.
Proof. vm_compute. repeat split; congruence. Qed.

Lemma chain_insert_refines_witness :
  chain_wf (chain_insert sample_chain (tombstone 75 3)) /\
  chain_history (chain_insert sample_chain (tombstone 75 3)) =
    <[75 := (None, 3)]> (chain_history sample_chain).
Proof.
  apply (chain_insert_refines sample_chain (tombstone 75 3)).
  - exact sample_chain_wf.
  - split; [reflexivity|]. unfold OPEN_ENDED_TS. rewrite u64_max_val. simpl. lia.
Defined.

(** [VersionChain::get] returns exactly the version with the greatest begin
    timestamp not after the snapshot, with that history entry's value; it
    returns nothing exactly when the history has no entry that old. *)
Lemma chain_get_newest (c : VersionChain) (s : Snapshot) :
  chain_wf c -> ts s < OPEN_ENDED_TS ->
  (forall v, chain_get c s = Some v <->
     v ∈ c /\ newest_at (chain_history c) (ts s) (begin_ts v) (value v, tx_id v)) /\
  (chain_get c s = None <-> forall t, is_Some (chain_history c !! t) -> ts s < t).
Proof.
  intros Hwf Hs. rewrite chain_get_find. split.
  - intros v. by eapply find_visible_newest.
  - by eapply find_visible_None.
Qed.

(** [VersionChain::garbage_collect] keeps the chain well formed, never drops
    the newest version, reports the number of versions dropped, and is
    invisible to every snapshot at or after the oldest active one. *)
Lemma chain_gc_invisible (c : VersionChain) (oldest : TxnTs) :
  chain_wf c ->
  let r := chain_garbage_collect c oldest in
  chain_wf r.1 /\ head r.1 = head c /\ (length r.1 + r.2 = length c)%nat /\
  forall s, oldest <= ts s -> chain_get r.1 s = chain_get c s.
Proof.
  intros Hwf r. split; [by apply chain_gc_wf|].
  split; [|split; [|intros; by apply chain_gc_get]].
  - unfold r. destruct c as [|h t]; [done|]. by rewrite chain_garbage_collect_eq.
  - unfold r, chain_garbage_collect. destruct c as [|h t]; [done|]. cbn [fst snd].
    match goal with |- (length (List.filter ?f ?l) + _)%nat = _ =>
      pose proof (List.filter_length_le f l) end. lia.
Qed.

