(* ===== verification/Crc32c.v ===== *)
(** * CRC32C ([hatp-engine/src/crc32c.rs])

    The lookup table, the software loop (byte-wise below 1024 bytes, eight bytes
    per iteration above), the SSE4.2 path and the streaming hasher.  The CPU
    feature flag and the [_mm_crc32_u64] instruction are parameters
    ([Crc32Hw]); [Crc32HwOk] states the instruction's documented effect.  All
    paths are shown to be the same bit-serial division by the reflected
    Castagnoli polynomial. *)

From S2P Require Import Prelude.
From stdpp Require Import base tactics list.
#[local] Open Scope Z_scope.

(** Initial CRC value. *)
Definition INIT : Z := 0xFFFFFFFF.

Definition finalize (crc : Z) : Z := Z.lxor crc 0xFFFFFFFF.

(** Castagnoli polynomial, reflected. *)
Definition POLY : Z := 0x82F63B78.

(** One shift of the table builder's inner loop. *)
Definition crc_shift (poly crc : Z) : Z :=
  if negb (Z.land crc 1 =? 0) then Z.lxor (Z.shiftr crc 1) poly else Z.shiftr crc 1.

Definition table_entry (poly i : Z) : Z := Nat.iter 8 (crc_shift poly) i.

Definition build_table (poly : Z) : list Z :=
  map (fun i => table_entry poly (Z.of_nat i)) (seq 0 256).

Definition TABLE : list Z := Eval vm_compute in build_table POLY.

(** [crc = (crc >> 8) ^ TABLE\[((crc ^ byte) & 0xFF)\]] *)
Definition crc_step (crc : Z) (byte : byte) : Z :=
  Z.lxor (Z.shiftr crc 8)
         (nth (Z.to_nat (Z.land (Z.lxor crc (b2z byte)) 0xFF)) TABLE 0).

Definition crc_loop (crc : Z) (bs : bytes) : Z := fold_left crc_step bs crc.

(** The unrolled loop: [chunks] iterations of eight steps, then the tail. *)
Fixpoint crc_sliced (chunks : nat) (crc : Z) (bs : bytes) : Z :=
  match chunks, bs with
  | S n, b0 :: b1 :: b2 :: b3 :: b4 :: b5 :: b6 :: b7 :: r =>
      let crc := crc_step crc b0 in
      let crc := crc_step crc b1 in
      let crc := crc_step crc b2 in
      let crc := crc_step crc b3 in
      let crc := crc_step crc b4 in
      let crc := crc_step crc b5 in
      let crc := crc_step crc b6 in
      let crc := crc_step crc b7 in
      crc_sliced n crc r
  | _, _ => crc_loop crc bs
  end.

Definition crc32c_software (bs : bytes) (init : Z) : Z :=
  if blen bs <? 1024 then crc_loop init bs
  else crc_sliced (Z.to_nat (blen bs / 8)) init bs.

(** The CPU the binary runs on. *)
Class Crc32Hw := {
  sse42_detected : bool;
  mm_crc32_u64 : Z -> Z -> Z;
}.

(** [crc32c_sse42] on x86_64: whole 64-bit words through the instruction, the
    tail of up to seven bytes through the software path. *)
Fixpoint sse42_words `{Crc32Hw} (chunks : nat) (crc : Z) (bs : bytes) : Z * bytes :=
  match chunks with
  | O => (crc, bs)
  | S n => sse42_words n (mm_crc32_u64 crc (from_le (take 8 bs))) (drop 8 bs)
  end.

Definition crc32c_sse42 `{Crc32Hw} (bs : bytes) (init : Z) : Z :=
  let crc := Z.land init 0xFFFFFFFF in
  let '(crc, tail) := sse42_words (Z.to_nat (blen bs / 8)) crc bs in
  let crc := match tail with [] => crc | _ => crc32c_software tail (wrap32 crc) end in
  wrap32 crc.

(** [crc32c_with_state] and its raw-pointer twin. *)
Definition crc32c_with_state `{Crc32Hw} (bs : bytes) (init : Z) : Z :=
  if sse42_detected then crc32c_sse42 bs init else crc32c_software bs init.

(** The streaming [Hasher]. *)
Record Hasher := mkHasher { state : Z }.
Definition hasher_new : Hasher := mkHasher INIT.
Definition hasher_update `{Crc32Hw} (h : Hasher) (bs : bytes) : Hasher :=
  mkHasher (crc32c_with_state bs (state h)).
Definition hasher_finalize (h : Hasher) : Z := finalize (state h).

Definition crc32c `{Crc32Hw} (bs : bytes) : Z := finalize (crc32c_with_state bs INIT).
Definition crc32c_unfinalized `{Crc32Hw} (bs : bytes) : Z := crc32c_with_state bs INIT.

(** A CPU without SSE4.2: the software path everywhere. *)
Definition no_sse42 : Crc32Hw := {| sse42_detected := false; mm_crc32_u64 crc _ := crc |}.

(** ** Bit-serial reference *)

(** Eight shifts after mixing the byte in: polynomial division bit by bit. *)
Definition crc_byte_ref (crc : Z) (byte : byte) : Z :=
  Nat.iter 8 (crc_shift POLY) (Z.lxor crc (b2z byte)).

Definition crc_ref (crc : Z) (bs : bytes) : Z := fold_left crc_byte_ref bs crc.

(** Documented effect of the instruction: the eight bytes of the word, in
    memory order, through the bit-serial division. *)
Class Crc32HwOk (hw : Crc32Hw) : Prop :=
  mm_crc32_u64_ok : forall crc w, is_u32 crc -> is_u64 w ->
    mm_crc32_u64 crc w = crc_ref crc (to_le 8 w).

Lemma low_bit x : negb (Z.land x 1 =? 0) = Z.testbit x 0.
Proof.
  change 1 with (Z.ones 1). rewrite Z.land_ones by lia. change (2 ^ 1) with 2.
  rewrite Z.bit0_odd. pose proof (Zmod_odd x) as Hm. rewrite Hm. by destruct (Z.odd x).
Qed.

Lemma crc_shift_lxor a b :
  crc_shift POLY (Z.lxor a b) = Z.lxor (crc_shift POLY a) (crc_shift POLY b).
Proof.
  unfold crc_shift. rewrite !low_bit, Z.lxor_spec, Z.shiftr_lxor.
  set (x := Z.shiftr a 1). set (y := Z.shiftr b 1).
  destruct (Z.testbit a 0), (Z.testbit b 0); simpl.
  - by rewrite Z.lxor_assoc, (Z.lxor_comm POLY), Z.lxor_assoc, Z.lxor_nilpotent, Z.lxor_0_r.
  - by rewrite !Z.lxor_assoc, (Z.lxor_comm POLY).
  - by rewrite !Z.lxor_assoc.
  - done.
Qed.

Lemma crc_shift_even y : crc_shift POLY (Z.shiftl y 1) = y.
Proof.
  unfold crc_shift. rewrite low_bit, Z.shiftl_spec_low by lia. simpl.
  rewrite Z.shiftr_shiftl_l by lia. apply Z.shiftl_0_r.
Qed.

Lemma iter_shift_lxor n a b :
  Nat.iter n (crc_shift POLY) (Z.lxor a b) =
  Z.lxor (Nat.iter n (crc_shift POLY) a) (Nat.iter n (crc_shift POLY) b).
Proof. induction n as [|n IH]; simpl; [done|]. by rewrite IH, crc_shift_lxor. Qed.

Lemma iter_shift_high n y : Nat.iter n (crc_shift POLY) (Z.shiftl y (Z.of_nat n)) = y.
Proof.
  induction n as [|n IH]; [apply Z.shiftl_0_r|].
  rewrite Nat.iter_succ_r. rewrite <- IH at 2. f_equal.
  rewrite Nat2Z.inj_succ. unfold Z.succ. rewrite <- Z.shiftl_shiftl by lia.
  apply crc_shift_even.
Qed.

(** A word splits into its high part and its low byte. *)
Lemma split_low_byte x : Z.lxor (Z.shiftl (Z.shiftr x 8) 8) (Z.land x 0xFF) = x.
Proof.
  apply Z.bits_inj'. intros n Hn. rewrite Z.lxor_spec, Z.land_spec.
  change 255 with (Z.ones 8). destruct (Z.ltb_spec n 8).
  - rewrite Z.shiftl_spec_low, Z.ones_spec_low by lia. by rewrite andb_true_r.
  - rewrite Z.shiftl_spec, Z.shiftr_spec, Z.ones_spec_high by lia.
    rewrite andb_false_r, xorb_false_r. f_equal. lia.
Qed.

Lemma TABLE_spec i :
  0 <= i < 256 -> nth (Z.to_nat i) TABLE 0 = Nat.iter 8 (crc_shift POLY) i.
Proof.
  intros Hi. change TABLE with (build_table POLY). unfold build_table.
  rewrite (nth_indep _ 0 (table_entry POLY (Z.of_nat 0)))
    by (rewrite length_map, length_seq; lia).
  rewrite (map_nth (fun i => table_entry POLY (Z.of_nat i))).
  rewrite seq_nth by lia. simpl. by rewrite Z2Nat.id by lia.
Qed.

(** One table step is eight bit steps. *)
Lemma crc_step_ref crc b : crc_step crc b = crc_byte_ref crc b.
Proof.
  unfold crc_step, crc_byte_ref. set (x := Z.lxor crc (b2z b)).
  assert (Hlow : 0 <= Z.land x 255 < 256).
  { change 255 with (Z.ones 8). rewrite Z.land_ones by lia. apply Z.mod_pos_bound. lia. }
  rewrite TABLE_spec by done. rewrite <- (split_low_byte x) at 2.
  rewrite iter_shift_lxor. change 8 with (Z.of_nat 8) at 3. rewrite iter_shift_high.
  f_equal. unfold x. rewrite Z.shiftr_lxor.
  replace (Z.shiftr (b2z b) 8) with 0; [by rewrite Z.lxor_0_r|].
  pose proof (b2z_range b). rewrite Z.shiftr_div_pow2 by lia. symmetry. apply Z.div_small. done.
Qed.

Lemma crc_loop_ref crc bs : crc_loop crc bs = crc_ref crc bs.
Proof.
  revert crc. induction bs as [|b bs IH]; intros crc; [done|].
  unfold crc_loop, crc_ref in *. simpl. by rewrite crc_step_ref, IH.
Qed.

Lemma crc_sliced_loop n crc bs : crc_sliced n crc bs = crc_loop crc bs.
Proof.
  revert crc bs. induction n as [|n IH]; intros crc bs; [done|].
  do 8 (destruct bs as [|? bs]; [done|]). simpl. by rewrite IH.
Qed.

Lemma crc32c_software_ref bs init : crc32c_software bs init = crc_ref init bs.
Proof.
  unfold crc32c_software. destruct (blen bs <? 1024); [|rewrite crc_sliced_loop];
    apply crc_loop_ref.
Qed.

Lemma crc_ref_app crc a b : crc_ref crc (a ++ b) = crc_ref (crc_ref crc a) b.
Proof. apply fold_left_app. Qed.

(** ** Width of the result *)

Lemma is_u32_bits x : is_u32 x <-> 0 <= x /\ forall n, 32 <= n -> Z.testbit x n = false.
Proof.
  unfold is_u32. rewrite u32_max_val. split.
  - intros [H0 H1]. split; [done|]. intros n Hn.
    destruct (decide (x = 0)) as [->|Hne]; [apply Z.bits_0|].
    apply Z.bits_above_log2; [done|]. apply Z.lt_le_trans with 32; [|done].
    apply Z.log2_lt_pow2; lia.
  - intros [H0 Hb]. split; [done|].
    assert (x = Z.land x (Z.ones 32)) as ->.
    { apply Z.bits_inj'. intros n Hn. rewrite Z.land_spec.
      destruct (Z.ltb_spec n 32).
      - by rewrite Z.ones_spec_low, andb_true_r by lia.
      - by rewrite Z.ones_spec_high, andb_false_r, Hb by lia. }
    rewrite Z.land_ones by lia. pose proof (Z.mod_pos_bound x (2 ^ 32) eq_refl). lia.
Qed.

Lemma lxor_u32 a b : is_u32 a -> is_u32 b -> is_u32 (Z.lxor a b).
Proof.
  rewrite !is_u32_bits. intros [Ha Ha'] [Hb Hb']. split.
  - rewrite Z.lxor_nonneg. tauto.
  - intros n Hn. by rewrite Z.lxor_spec, Ha', Hb'.
Qed.

Lemma crc_shift_u32 x : is_u32 x -> is_u32 (crc_shift POLY x).
Proof.
  intros Hx. assert (Hs : is_u32 (Z.shiftr x 1)).
  { revert Hx. rewrite !is_u32_bits. intros [H0 Hb]. split; [by apply Z.shiftr_nonneg|].
    intros n Hn. rewrite Z.shiftr_spec by lia. apply Hb. lia. }
  unfold crc_shift. destruct (negb _); [|done]. apply lxor_u32; [done|].
  unfold is_u32. rewrite u32_max_val. unfold POLY. lia.
Qed.

Lemma crc_ref_u32 crc bs : is_u32 crc -> is_u32 (crc_ref crc bs).
Proof.
  revert crc. induction bs as [|b bs IH]; intros crc Hc; [done|].
  apply IH. unfold crc_byte_ref.
  assert (H0 : is_u32 (Z.lxor crc (b2z b))).
  { apply lxor_u32; [done|]. pose proof (b2z_range b). unfold is_u32. rewrite u32_max_val. lia. }
  revert H0. generalize (Z.lxor crc (b2z b)). intros z.
  generalize 8%nat. intros n. induction n as [|n IHn]; simpl; intros; [done|].
  apply crc_shift_u32. auto.
Qed.

Lemma wrap32_u32 z : is_u32 (wrap32 z).
Proof.
  unfold is_u32, wrap32, u32_max. pose proof (Z.mod_pos_bound z (2 ^ 32) eq_refl). lia.
Qed.

Lemma wrap32_small z : is_u32 z -> wrap32 z = z.
Proof. unfold is_u32, wrap32, u32_max. intros. apply Z.mod_small. lia. Qed.

(** The checksum fits its four-byte field whatever the CPU computes. *)
Lemma crc32c_with_state_u32 `{Crc32Hw} bs init :
  is_u32 init -> is_u32 (crc32c_with_state bs init).
Proof.
  intros Hi. unfold crc32c_with_state. destruct sse42_detected.
  - unfold crc32c_sse42. destruct (sse42_words _ _ _) as [crc tail]. apply wrap32_u32.
  - rewrite crc32c_software_ref. by apply crc_ref_u32.
Qed.

Lemma sse42_words_ref `{hw : Crc32Hw} `{!Crc32HwOk hw} n crc bs :
  is_u32 crc -> (8 * n <= length bs)%nat ->
  sse42_words n crc bs = (crc_ref crc (take (8 * n) bs), drop (8 * n) bs).
Proof.
  revert crc bs. induction n as [|n IH]; intros crc bs Hc Hl; [done|].
  cbn [sse42_words]. set (w := take 8 bs).
  assert (Hw : length w = 8%nat) by (unfold w; rewrite length_take; lia).
  assert (Hword : mm_crc32_u64 crc (from_le w) = crc_ref crc w).
  { rewrite mm_crc32_u64_ok; [|done|].
    - by rewrite <- Hw, to_le_from_le.
    - pose proof (from_le_range w) as Hr. rewrite Hw in Hr.
      unfold is_u64, u64_max. change (256 ^ Z.of_nat 8) with (2 ^ 64) in Hr. lia. }
  rewrite Hword, IH; [|by apply crc_ref_u32|rewrite length_drop; lia].
  rewrite drop_drop. replace (8 * S n)%nat with (8 + 8 * n)%nat by lia.
  f_equal. rewrite <- crc_ref_app. f_equal.
  rewrite <- (take_drop 8 bs) at 2. rewrite take_app_ge by (fold w; rewrite Hw; lia).
  fold w. rewrite Hw. f_equal. f_equal. lia.
Qed.

Lemma crc32c_with_state_ref `{hw : Crc32Hw} `{!Crc32HwOk hw} bs init :
  is_u32 init -> crc32c_with_state bs init = crc_ref init bs.
Proof.
  intros Hi. unfold crc32c_with_state. destruct sse42_detected; [|apply crc32c_software_ref].
  unfold crc32c_sse42.
  assert (Hmask : Z.land init 4294967295 = init).
  { change 4294967295 with (Z.ones 32). rewrite Z.land_ones by lia. by apply wrap32_small. }
  assert (Hn : (8 * Z.to_nat (blen bs / 8) <= length bs)%nat).
  { unfold blen. pose proof (Z.mul_div_le (Z.of_nat (length bs)) 8 ltac:(lia)). lia. }
  rewrite Hmask, sse42_words_ref by done.
  set (k := (8 * Z.to_nat (blen bs / 8))%nat) in *.
  assert (Hhead : is_u32 (crc_ref init (take k bs))) by (by apply crc_ref_u32).
  symmetry. rewrite <- (take_drop k bs) at 1. rewrite crc_ref_app. symmetry.
  destruct (drop k bs) eqn:Hd.
  - by rewrite wrap32_small.
  - rewrite crc32c_software_ref, (wrap32_small (crc_ref init (take k bs))) by done.
    apply wrap32_small. by apply crc_ref_u32.
Qed.

(** For every CPU whose CRC instruction does what its manual says, the
    dispatching [crc32c_with_state] (table-driven byte loop, the eight-byte
    unrolled loop and the SSE4.2 path with its software tail) computes the
    bit-serial CRC of the whole input. *)
Lemma crc_paths_agree (hw : Crc32Hw) (bs : bytes) (init : Z) :
  Crc32HwOk hw -> is_u32 init -> crc32c_with_state bs init = crc_ref init bs.
Proof. intros. by apply crc32c_with_state_ref. Qed.

(** A CPU with the instruction, as the manual describes it. *)
Definition sse42_cpu : Crc32Hw :=
  {| sse42_detected := true; mm_crc32_u64 crc w := crc_ref crc (to_le 8 w) |}.

#[global] Instance sse42_cpu_ok : Crc32HwOk sse42_cpu.
Proof. intros crc w _ _. reflexivity. Qed.

Definition digits : bytes := [x31; x32; x33; x34; x35; x36; x37; x38; x39].

(** Streaming is exact: feeding any list of pieces to a [Hasher] and
    finalizing gives the one-shot [crc32c] of their concatenation. *)
Lemma hasher_streaming (hw : Crc32Hw) (pieces : list bytes) :
  Crc32HwOk hw ->
  hasher_finalize (fold_left hasher_update pieces hasher_new) = crc32c (concat pieces).
Proof.
  intros Hok. unfold hasher_finalize, crc32c. f_equal.
  assert (Hgen : forall st, is_u32 st ->
    state (fold_left hasher_update pieces (mkHasher st)) = crc_ref st (concat pieces)).
  { induction pieces as [|p ps IH]; intros st Hst; [done|]. simpl.
    unfold hasher_update at 2. simpl. rewrite crc32c_with_state_ref by done.
    rewrite IH by (by apply crc_ref_u32). by rewrite crc_ref_app. }
  assert (is_u32 INIT) by (vm_compute; split; congruence).
  rewrite crc32c_with_state_ref by done. by apply Hgen.
Qed.

(** The vectors of the module's unit tests. *)
Example crc_vectors :
  crc32c (H := no_sse42) [] = 0 /\
  crc32c (H := no_sse42) digits = 0xE3069283 /\
  crc32c (H := sse42_cpu) digits = 0xE3069283.
Proof. vm_compute. done. Qed.
