(* ===== verification/Wal.v ===== *)
(** * Write-ahead log ([hatp-engine/src/wal.rs])

    The binary frame format, the encoder and decoder, the append paths and
    recovery.  [decode_frame] returns [None] where the code would read outside
    the buffer or panic; [decode_frame_safe] shows that it never does.  The log
    file is modelled by its contents and the prefix known to be durable, so
    that a crash leaves any extension of the durable prefix. *)

From Stdlib Require Import Strings.String.
From S2P Require Import Prelude Types Crc32c.
From stdpp Require Import base tactics list option.
#[local] Open Scope Z_scope.

(** ** Records *)

Inductive OpType := Put | Delete | Commit | Abort.

#[global] Instance OpType_eq_dec : EqDecision OpType.
Proof. solve_decision. Defined.

(** Discriminant byte inside a frame. *)
Definition op_encode (op : OpType) : Z :=
  match op with Put => 1 | Delete => 2 | Commit => 3 | Abort => 4 end.

Definition op_decode (v : Z) : Result OpType :=
  if v =? 1 then Ok Put
  else if v =? 2 then Ok Delete
  else if v =? 3 then Ok Commit
  else if v =? 4 then Ok Abort
  else Err (CorruptMessage "unknown WAL operation tag").

Record WalRecord := {
  wr_tx_id : Z;
  wr_op : OpType;
  wr_key : bytes;
  wr_value : option bytes;
}.

Definition record_put (tx : Z) (key val : bytes) : WalRecord :=
  {| wr_tx_id := tx; wr_op := Put; wr_key := key; wr_value := Some val |}.
Definition record_delete (tx : Z) (key : bytes) : WalRecord :=
  {| wr_tx_id := tx; wr_op := Delete; wr_key := key; wr_value := None |}.
Definition record_commit (tx : Z) : WalRecord :=
  {| wr_tx_id := tx; wr_op := Commit; wr_key := []; wr_value := None |}.
Definition record_abort (tx : Z) : WalRecord :=
  {| wr_tx_id := tx; wr_op := Abort; wr_key := []; wr_value := None |}.

(** ** Frame format *)

Definition MAGIC_WAL1 : bytes := [x57; x41; x4c; x31].
Definition MAGIC_WAL1_U32 : Z := from_le MAGIC_WAL1.
Definition FRAME_HEADER_LEN : Z := 4 + 8 + 1 + 4 + 4.
Definition FRAME_CRC_LEN : Z := 4.
Definition FRAME_FIXED_OVERHEAD : Z := FRAME_HEADER_LEN + FRAME_CRC_LEN.
(** Sentinel [value_len]: no value. *)
Definition VALUE_NONE : Z := 0xFFFFFFFF.

(** [u32::try_from] on a length. *)
Definition u32_try_from (z : Z) : option Z := if z <=? u32_max then Some z else None.

Section WithCrc.
Context {hw : Crc32Hw}.

(** [encode_frame]: on success the frame is appended to [out]; on error [out]
    is untouched.  The header, key and value regions the code writes through
    raw pointers are consecutive, so the frame body is their concatenation. *)
Definition encode_frame (out : bytes) (tx : Z) (op : OpType) (key : bytes)
    (value : option bytes) : Result bytes :=
  let? value_len := match value with
                    | Some v => ok_or (u32_try_from (blen v))
                                  (OutOfRange "WAL value length exceeds u32::MAX")
                    | None => Ok VALUE_NONE
                    end in
  let? key_len := ok_or (u32_try_from (blen key))
                    (OutOfRange "WAL key length exceeds u32::MAX") in
  let body := MAGIC_WAL1 ++ to_le 8 tx ++ [z2b (op_encode op)] ++ to_le 4 key_len
              ++ to_le 4 value_len ++ key
              ++ match value with Some v => v | None => [] end in
  let crc := crc32c_with_state body 0 in
  Ok (out ++ body ++ to_le 4 crc).

(** The loops of [encode_batch] and [encode_mutations]: the buffer as it is
    left, and the error that stopped the loop if any. *)
Fixpoint encode_records (out : bytes) (records : list WalRecord) : bytes * Result unit :=
  match records with
  | [] => (out, Ok tt)
  | r :: rest =>
      match encode_frame out (wr_tx_id r) (wr_op r) (wr_key r) (wr_value r) with
      | Ok out' => encode_records out' rest
      | Err e => (out, Err e)
      end
  end.

Definition encode_commit (out : bytes) (tx : Z) : bytes * Result unit :=
  match encode_frame out tx Commit [] None with
  | Ok out' => (out', Ok tt)
  | Err e => (out, Err e)
  end.

(** [encode_batch]: every record, then the commit marker. *)
Definition encode_batch (out : bytes) (records : list WalRecord) (commit_tx_id : Z)
  : bytes * Result unit :=
  match encode_records out records with
  | (out', Ok tt) => encode_commit out' commit_tx_id
  | (out', Err e) => (out', Err e)
  end.

Fixpoint encode_mutation_frames (out : bytes) (tx : Z) (ms : list Mutation)
  : bytes * Result unit :=
  match ms with
  | [] => (out, Ok tt)
  | m :: rest =>
      let r := match m with
               | MPut key value => encode_frame out tx Put key (Some value)
               | MDelete key => encode_frame out tx Delete key None
               end in
      match r with
      | Ok out' => encode_mutation_frames out' tx rest
      | Err e => (out, Err e)
      end
  end.

(** [encode_mutations] *)
Definition encode_mutations (out : bytes) (tx : Z) (ms : list Mutation)
  : bytes * Result unit :=
  match encode_mutation_frames out tx ms with
  | (out', Ok tt) => encode_commit out' tx
  | (out', Err e) => (out', Err e)
  end.

(** ** Decoding *)

Record DecodedFrame := {
  df_tx_id : Z;
  df_op : OpType;
  df_key : bytes;
  df_value : option bytes;
  df_next_offset : option Z;
}.

(** [read_array::<N>]: an unchecked read; [None] is an out-of-bounds access. *)
Definition read_array (n : Z) (buf : bytes) (offset : Z) : option bytes :=
  slice buf offset (offset + n).

(** The second half of [decode_frame]: lengths, checksum, key and value. *)
Definition decode_body (buf : bytes) (cursor tx : Z) (op : OpType)
    (key_len value_len : Z) : option (Result (option DecodedFrame)) :=
  let key_len_usize := if key_len =? VALUE_NONE then 0 else key_len in
  let value_len_usize := if value_len =? VALUE_NONE then 0 else value_len in
  let body_start := cursor + FRAME_HEADER_LEN in
  match e ← checked_add body_start key_len_usize; checked_add e value_len_usize with
  | None => Some (Err (Corrupt "WAL frame length overflow"))
  | Some body_end =>
      match checked_add body_end FRAME_CRC_LEN with
      | None => Some (Err (Corrupt "WAL frame length overflow"))
      | Some crc_end =>
          if blen buf <? crc_end then Some (Ok None) else
          body ← slice buf cursor body_end;
          actual ← read_array 4 buf body_end;
          if negb (crc32c_with_state body 0 =? from_le actual) then Some (Ok None) else
          key ← (if key_len_usize =? 0 then Some []
                 else slice buf body_start (body_start + key_len_usize));
          value ← (if value_len =? VALUE_NONE then Some None
                   else Some <$> slice buf (body_start + key_len_usize) body_end);
          Some (Ok (Some {|
            df_tx_id := tx; df_op := op; df_key := key; df_value := value;
            df_next_offset := if crc_end =? blen buf then None else Some crc_end |}))
      end
  end.

(** [decode_frame]; the outer [None] is undefined behaviour or a panic. *)
Definition decode_frame (buf : bytes) (cursor : Z)
  : option (Result (option DecodedFrame)) :=
  if blen buf <? cursor + FRAME_HEADER_LEN then Some (Ok None) else
  magic ← read_array 4 buf cursor;
  if negb (from_le magic =? MAGIC_WAL1_U32) then Some (Ok None) else
  tx ← read_array 8 buf (cursor + 4);
  opb ← slice buf (cursor + 12) (cursor + 13);
  match op_decode (from_le opb) with
  | Err e => Some (Err e)
  | Ok op =>
      klen ← read_array 4 buf (cursor + 13);
      vlen ← read_array 4 buf (cursor + 17);
      decode_body buf cursor (from_le tx) op (from_le klen) (from_le vlen)
  end.

Definition record_of_frame (d : DecodedFrame) : WalRecord :=
  {| wr_tx_id := df_tx_id d; wr_op := df_op d; wr_key := df_key d;
     wr_value := match df_op d with Put => df_value d | _ => None end |}.

Definition frame_end (cursor : Z) (d : DecodedFrame) : Z :=
  cursor + FRAME_HEADER_LEN + blen (df_key d)
  + match df_value d with Some v => blen v | None => 0 end + FRAME_CRC_LEN.

(** The [while let] loop of [decode_all]. *)
Fixpoint decode_loop (fuel : nat) (buf : bytes) (cursor : Z) (out : list WalRecord)
    (last_valid : Z) : option (Result (list WalRecord * Z)) :=
  match fuel with
  | O => None
  | S fuel =>
      match decode_frame buf cursor with
      | None => None
      | Some (Err e) => Some (Err e)
      | Some (Ok None) => Some (Ok (out, last_valid))
      | Some (Ok (Some d)) =>
          let out := out ++ [record_of_frame d] in
          let last_valid := frame_end cursor d in
          match df_next_offset d with
          | None => Some (Ok (out, last_valid))
          | Some next => decode_loop fuel buf next out last_valid
          end
      end
  end.

(** One iteration per frame, and every frame is at least 25 bytes long. *)
Definition decode_all (buf : bytes) : option (Result (list WalRecord * Z)) :=
  decode_loop (S (length buf)) buf 0 [] 0.

(** ** Frames of records *)

(** Lengths the format represents faithfully: below the sentinel. *)
Definition size_ok (key : bytes) (value : option bytes) : Prop :=
  blen key < u32_max /\ match value with Some v => blen v < u32_max | None => True end.

Definition value_len_field (value : option bytes) : Z :=
  match value with Some v => blen v | None => VALUE_NONE end.

Definition value_bytes (value : option bytes) : bytes :=
  match value with Some v => v | None => [] end.

Definition frame_header (tx : Z) (op : OpType) (key : bytes) (value : option bytes) : bytes :=
  MAGIC_WAL1 ++ to_le 8 tx ++ [z2b (op_encode op)] ++ to_le 4 (blen key)
  ++ to_le 4 (value_len_field value).

Definition frame_bytes (tx : Z) (op : OpType) (key : bytes) (value : option bytes) : bytes :=
  frame_header tx op key value ++ key ++ value_bytes value
  ++ to_le 4 (crc32c_with_state
       (frame_header tx op key value ++ key ++ value_bytes value) 0).

Lemma encode_frame_ok out tx op key value :
  size_ok key value ->
  encode_frame out tx op key value = Ok (out ++ frame_bytes tx op key value).
Proof.
  intros [Hk Hv]. unfold encode_frame, u32_try_from, frame_bytes.
  assert (Hkl : (blen key <=? u32_max) = true) by (apply Z.leb_le; lia).
  rewrite Hkl. destruct value as [v|]; simpl.
  - assert (Hvl : (blen v <=? u32_max) = true) by (apply Z.leb_le; lia).
    rewrite Hvl. simpl. do 2 f_equal. unfold frame_header. simpl.
    by rewrite <- !app_assoc.
  - do 2 f_equal. unfold frame_header. simpl. by rewrite <- !app_assoc.
Qed.

Lemma blen_magic : blen MAGIC_WAL1 = 4.
Proof. reflexivity. Qed.

Ltac frame_len :=
  rewrite ?blen_app, ?blen_to_le, ?blen_magic, ?blen_cons, ?blen_nil; lia.

Lemma blen_header tx op key value : blen (frame_header tx op key value) = FRAME_HEADER_LEN.
Proof. unfold frame_header. rewrite !blen_app, !blen_to_le. reflexivity. Qed.

Lemma blen_frame tx op key value :
  blen (frame_bytes tx op key value) =
  FRAME_FIXED_OVERHEAD + blen key + blen (value_bytes value).
Proof.
  unfold frame_bytes. rewrite !blen_app, blen_header, blen_to_le.
  unfold FRAME_FIXED_OVERHEAD, FRAME_CRC_LEN. lia.
Qed.

Lemma op_decode_encode op : op_decode (from_le [z2b (op_encode op)]) = Ok op.
Proof. by destruct op. Qed.

Lemma blen_u32 b : blen b < u32_max -> is_u32 (blen b).
Proof. intros. pose proof (blen_nonneg b). unfold is_u32. lia. Qed.

Lemma value_len_u32 value :
  match value with Some v => blen v < u32_max | None => True end ->
  is_u32 (value_len_field value).
Proof. destruct value; simpl; [apply blen_u32|]. intros _. vm_compute. split; congruence. Qed.

(** Decoding past a complete header reaches the body with the header's fields. *)
Lemma decode_frame_header pre tx op key value X :
  is_u64 tx -> size_ok key value ->
  decode_frame (pre ++ frame_header tx op key value ++ X) (blen pre) =
  decode_body (pre ++ frame_header tx op key value ++ X) (blen pre) tx op
    (blen key) (value_len_field value).
Proof.
  intros Htx [Hk Hv]. set (buf := pre ++ frame_header tx op key value ++ X).
  assert (Hbuf : buf = pre ++ MAGIC_WAL1 ++ to_le 8 tx ++ [z2b (op_encode op)] ++
    to_le 4 (blen key) ++ to_le 4 (value_len_field value) ++ X).
  { unfold buf, frame_header. by rewrite <- !app_assoc. }
  unfold decode_frame, read_array.
  rewrite (proj2 (Z.ltb_ge (blen buf) _)) by
    (unfold buf; rewrite !blen_app, blen_header; pose proof (blen_nonneg X); lia).
  rewrite Hbuf.
  rewrite (slice_app pre MAGIC_WAL1 _ (blen pre) (blen pre + 4)) by frame_len. cbn [mbind option_bind].
  change (negb (from_le MAGIC_WAL1 =? MAGIC_WAL1_U32)) with false. cbv iota.
  rewrite (app_assoc pre), (slice_app _ (to_le 8 tx) _ (blen pre + 4) (blen pre + 4 + 8)) by frame_len.
  cbn [mbind option_bind].
  rewrite (app_assoc (pre ++ MAGIC_WAL1)), (slice_app _ [z2b (op_encode op)] _ (blen pre + 12)) by frame_len.
  cbn [mbind option_bind]. rewrite op_decode_encode.
  rewrite (app_assoc _ [z2b (op_encode op)]), (slice_app _ (to_le 4 (blen key)) _ (blen pre + 13)) by frame_len.
  cbn [mbind option_bind].
  rewrite (app_assoc _ (to_le 4 (blen key))),
    (slice_app _ (to_le 4 (value_len_field value)) _ (blen pre + 17)) by frame_len.
  cbn [mbind option_bind].
  rewrite from_le_to_le8 by done.
  rewrite !from_le_to_le4 by (auto using blen_u32, value_len_u32).
  by rewrite <- !app_assoc.
Qed.

Lemma VALUE_NONE_max : VALUE_NONE = u32_max.
Proof. reflexivity. Qed.

Lemma value_len_sentinel value :
  match value with Some v => blen v < u32_max | None => True end ->
  (value_len_field value =? VALUE_NONE) = match value with Some _ => false | None => true end.
Proof.
  rewrite VALUE_NONE_max. destruct value as [v|]; simpl; intros Hv;
    [apply Z.eqb_neq; lia | reflexivity].
Qed.

Lemma key_len_sentinel key :
  blen key < u32_max -> (if blen key =? VALUE_NONE then 0 else blen key) = blen key.
Proof. intros. rewrite VALUE_NONE_max, (proj2 (Z.eqb_neq _ _)); [done|lia]. Qed.

Lemma checked_add_ok a b : a + b <= u64_max -> checked_add a b = Some (a + b).
Proof. intros. unfold checked_add. by rewrite (proj2 (Z.leb_le _ _)). Qed.

(** The lengths part of [decode_body], on the fields of a real frame. *)
Lemma decode_body_bounds buf cursor tx op key value :
  size_ok key value -> 0 <= cursor ->
  cursor + FRAME_FIXED_OVERHEAD + blen key + blen (value_bytes value) <= u64_max ->
  let body_end := cursor + FRAME_HEADER_LEN + blen key + blen (value_bytes value) in
  decode_body buf cursor tx op (blen key) (value_len_field value) =
  if blen buf <? body_end + FRAME_CRC_LEN then Some (Ok None) else
  body ← slice buf cursor body_end;
  actual ← read_array 4 buf body_end;
  if negb (crc32c_with_state body 0 =? from_le actual) then Some (Ok None) else
  k ← (if blen key =? 0 then Some []
       else slice buf (cursor + FRAME_HEADER_LEN) (cursor + FRAME_HEADER_LEN + blen key));
  v ← (match value with None => Some None
       | Some _ => Some <$> slice buf (cursor + FRAME_HEADER_LEN + blen key) body_end end);
  Some (Ok (Some {| df_tx_id := tx; df_op := op; df_key := k; df_value := v;
    df_next_offset := if body_end + FRAME_CRC_LEN =? blen buf then None
                      else Some (body_end + FRAME_CRC_LEN) |})).
Proof.
  intros [Hk Hv] Hc Hsum. unfold decode_body.
  rewrite key_len_sentinel, value_len_sentinel by done.
  assert (Hvl : (if value_len_field value =? VALUE_NONE then 0 else value_len_field value)
                = blen (value_bytes value)).
  { rewrite value_len_sentinel by done. by destruct value. }
  rewrite <- value_len_sentinel, Hvl by done.
  pose proof (blen_nonneg key). pose proof (blen_nonneg (value_bytes value)).
  unfold FRAME_FIXED_OVERHEAD, FRAME_HEADER_LEN, FRAME_CRC_LEN in *.
  rewrite (checked_add_ok _ (blen key)) by lia. cbn [mbind option_bind].
  rewrite (checked_add_ok _ (blen (value_bytes value))) by lia.
  rewrite checked_add_ok by lia. rewrite value_len_sentinel by done. by destruct value.
Qed.

(** A complete frame decodes to what was encoded, whatever surrounds it. *)
Lemma decode_frame_frame pre tx op key value rest :
  is_u64 tx -> size_ok key value ->
  blen (pre ++ frame_bytes tx op key value ++ rest) <= u64_max ->
  decode_frame (pre ++ frame_bytes tx op key value ++ rest) (blen pre) =
  Some (Ok (Some {| df_tx_id := tx; df_op := op; df_key := key; df_value := value;
    df_next_offset := match rest with [] => None
      | _ => Some (blen pre + blen (frame_bytes tx op key value)) end |})).
Proof.
  intros Htx Hsz Hlen. rewrite !blen_app, blen_frame in Hlen.
  pose proof (blen_nonneg pre). pose proof (blen_nonneg rest).
  set (body := frame_header tx op key value ++ key ++ value_bytes value).
  set (crcb := to_le 4 (crc32c_with_state body 0)).
  assert (Hbuf : pre ++ frame_bytes tx op key value ++ rest =
                 pre ++ frame_header tx op key value ++ (key ++ value_bytes value ++ crcb ++ rest)).
  { unfold frame_bytes. fold body crcb. by rewrite <- !app_assoc. }
  rewrite Hbuf, decode_frame_header, decode_body_bounds by (done || lia).
  rewrite <- Hbuf. set (buf := pre ++ frame_bytes tx op key value ++ rest).
  assert (Hbl : blen buf = blen pre + FRAME_FIXED_OVERHEAD + blen key
                           + blen (value_bytes value) + blen rest).
  { unfold buf. rewrite !blen_app, blen_frame. lia. }
  unfold FRAME_FIXED_OVERHEAD in *.
  rewrite (proj2 (Z.ltb_ge (blen buf) _)) by lia.
  assert (Hb1 : buf = pre ++ body ++ crcb ++ rest).
  { unfold buf. rewrite Hbuf. unfold body. by rewrite <- !app_assoc. }
  assert (Hblen : blen body = FRAME_HEADER_LEN + blen key + blen (value_bytes value)).
  { unfold body. rewrite !blen_app, blen_header. lia. }
  rewrite Hb1 at 1. rewrite slice_app by lia. cbn [mbind option_bind].
  unfold read_array. rewrite Hb1 at 1. rewrite app_assoc.
  rewrite slice_app by (rewrite blen_app, Hblen; unfold crcb; rewrite ?blen_to_le; lia).
  cbn [mbind option_bind]. unfold crcb at 1.
  rewrite from_le_to_le4, Z.eqb_refl by
    (apply crc32c_with_state_u32; unfold is_u32; rewrite u32_max_val; lia).
  simpl negb. cbv iota.
  assert (Hkey : (if blen key =? 0 then Some []
     else slice buf (blen pre + FRAME_HEADER_LEN) (blen pre + FRAME_HEADER_LEN + blen key))
     = Some key).
  { destruct (Z.eqb_spec (blen key) 0) as [Hz|Hz].
    - unfold blen in Hz. destruct key; [done|]. simpl in Hz. lia.
    - unfold buf. rewrite Hbuf, app_assoc. apply slice_app; rewrite blen_app, blen_header; lia. }
  rewrite Hkey. cbn [mbind option_bind].
  assert (Hval : (match value with None => Some None
       | Some _ => Some <$> slice buf (blen pre + FRAME_HEADER_LEN + blen key)
          (blen pre + FRAME_HEADER_LEN + blen key + blen (value_bytes value)) end) = Some value).
  { assert (Hb2 : buf = ((pre ++ frame_header tx op key value) ++ key)
                        ++ value_bytes value ++ crcb ++ rest).
    { unfold buf. rewrite Hbuf. by rewrite <- !app_assoc. }
    rewrite Hb2, slice_app by (rewrite ?blen_app, ?blen_header; lia). by destruct value. }
  rewrite Hval. cbn [mbind option_bind]. do 4 f_equal. rewrite blen_frame, Hbl.
  unfold FRAME_FIXED_OVERHEAD. destruct rest as [|x rest].
  - rewrite blen_nil, (proj2 (Z.eqb_eq _ _)) by lia. done.
  - rewrite blen_cons, (proj2 (Z.eqb_neq _ _)) by (pose proof (blen_nonneg rest); lia).
    f_equal. lia.
Qed.

(** A frame cut short is reported as torn, never as an error. *)
Lemma decode_frame_torn pre tx op key value n :
  is_u64 tx -> size_ok key value ->
  blen (pre ++ frame_bytes tx op key value) <= u64_max ->
  (n < length (frame_bytes tx op key value))%nat ->
  decode_frame (pre ++ take n (frame_bytes tx op key value)) (blen pre) = Some (Ok None).
Proof.
  intros Htx Hsz Hlen Hn.
  rewrite blen_app, blen_frame in Hlen.
  assert (Hfl : Z.of_nat (length (frame_bytes tx op key value)) =
                FRAME_FIXED_OVERHEAD + blen key + blen (value_bytes value)) by apply blen_frame.
  set (T := take n (frame_bytes tx op key value)).
  assert (HT : blen T = Z.of_nat n) by (unfold T, blen; rewrite length_take; lia).
  destruct (Z.ltb_spec (Z.of_nat n) FRAME_HEADER_LEN) as [Hs|Hs].
  - unfold decode_frame. rewrite (proj2 (Z.ltb_lt _ _)); [done|]. rewrite blen_app. lia.
  - assert (HTs : exists X, T = frame_header tx op key value ++ X).
    { exists (take (n - length (frame_header tx op key value))
        (key ++ value_bytes value ++ to_le 4 (crc32c_with_state
           (frame_header tx op key value ++ key ++ value_bytes value) 0))).
      unfold T, frame_bytes. apply take_app_ge.
      pose proof (blen_header tx op key value) as Hh. unfold blen in Hh. lia. }
    destruct HTs as [X HX]. rewrite HX, decode_frame_header by done.
    pose proof (blen_nonneg pre).
    rewrite decode_body_bounds by (done || lia). rewrite <- HX.
    rewrite (proj2 (Z.ltb_lt (blen (pre ++ T)) _)); [done|].
    rewrite blen_app, HT. unfold FRAME_FIXED_OVERHEAD in *. lia.
Qed.

(** ** Logs: sequences of frames *)

Definition record_ok (r : WalRecord) : Prop :=
  is_u64 (wr_tx_id r) /\ size_ok (wr_key r) (wr_value r).

Definition record_frame (r : WalRecord) : bytes :=
  frame_bytes (wr_tx_id r) (wr_op r) (wr_key r) (wr_value r).

Definition log_bytes (rs : list WalRecord) : bytes := concat (map record_frame rs).

(** Recovery drops the value of anything but a put. *)
Definition normalize (r : WalRecord) : WalRecord :=
  {| wr_tx_id := wr_tx_id r; wr_op := wr_op r; wr_key := wr_key r;
     wr_value := match wr_op r with Put => wr_value r | _ => None end |}.

Lemma log_bytes_cons r rs : log_bytes (r :: rs) = record_frame r ++ log_bytes rs.
Proof. reflexivity. Qed.

Lemma log_bytes_app a b : log_bytes (a ++ b) = log_bytes a ++ log_bytes b.
Proof. unfold log_bytes. by rewrite map_app, concat_app. Qed.

Lemma record_frame_length r : (25 <= length (record_frame r))%nat.
Proof.
  pose proof (blen_frame (wr_tx_id r) (wr_op r) (wr_key r) (wr_value r)) as H.
  pose proof (blen_nonneg (wr_key r)). pose proof (blen_nonneg (value_bytes (wr_value r))).
  unfold FRAME_FIXED_OVERHEAD, FRAME_HEADER_LEN, FRAME_CRC_LEN, blen in *.
  unfold record_frame. lia.
Qed.

Lemma log_bytes_length rs : (length rs <= length (log_bytes rs))%nat.
Proof.
  induction rs as [|r rs IH]; simpl; [lia|]. rewrite length_app.
  pose proof (record_frame_length r). unfold log_bytes in IH. lia.
Qed.

Lemma frame_end_frame cursor r next :
  frame_end cursor {| df_tx_id := wr_tx_id r; df_op := wr_op r; df_key := wr_key r;
    df_value := wr_value r; df_next_offset := next |} = cursor + blen (record_frame r).
Proof.
  unfold frame_end, record_frame. rewrite blen_frame. simpl.
  unfold FRAME_FIXED_OVERHEAD, value_bytes. destruct (wr_value r); rewrite ?blen_nil; lia.
Qed.

Lemma decode_loop_log rs pre tail fuel out :
  Forall record_ok rs -> (length rs < fuel)%nat ->
  blen (pre ++ log_bytes rs ++ tail) <= u64_max ->
  decode_frame (pre ++ log_bytes rs ++ tail) (blen (pre ++ log_bytes rs)) = Some (Ok None) ->
  decode_loop fuel (pre ++ log_bytes rs ++ tail) (blen pre) out (blen pre) =
  Some (Ok (out ++ map normalize rs, blen (pre ++ log_bytes rs))).
Proof.
  revert pre fuel out. induction rs as [|r rs IH]; intros pre fuel out Hok Hf Hlen Hend.
  - destruct fuel as [|fuel]; [lia|]. simpl in *. rewrite app_nil_r in *. rewrite Hend.
    by rewrite app_nil_r.
  - destruct fuel as [|fuel]; [simpl in Hf; lia|]. apply Forall_cons_1 in Hok as [[Htx Hsz] Hok].
    assert (Hb : pre ++ log_bytes (r :: rs) ++ tail =
                 pre ++ record_frame r ++ (log_bytes rs ++ tail)).
    { by rewrite log_bytes_cons, <- app_assoc. }
    cbn [decode_loop]. rewrite Hb in *. unfold record_frame at 1.
    rewrite decode_frame_frame by done. fold (record_frame r).
    cbn [df_next_offset]. rewrite frame_end_frame.
    assert (Hpre : blen pre + blen (record_frame r) = blen (pre ++ record_frame r))
      by (by rewrite blen_app).
    assert (Hlog : pre ++ log_bytes (r :: rs) = (pre ++ record_frame r) ++ log_bytes rs)
      by (by rewrite log_bytes_cons, app_assoc).
    rewrite Hlog in *.
    destruct (log_bytes rs ++ tail) as [|x w] eqn:Hw.
    + apply app_eq_nil in Hw as [Hrs _]. rewrite Hrs, app_nil_r, Hpre.
      destruct rs as [|r' rs]; [done|]. exfalso.
      pose proof (log_bytes_length (r' :: rs)) as Hl. rewrite Hrs in Hl. simpl in Hl. lia.
    + rewrite <- Hw in *. fold (record_frame r). rewrite Hpre.
      rewrite (app_assoc pre) in Hend, Hlen |- *. rewrite IH; try done; [|simpl in Hf; lia].
      by rewrite <- app_assoc.
Qed.

Lemma decode_frame_short buf cursor :
  blen buf < cursor + FRAME_HEADER_LEN -> decode_frame buf cursor = Some (Ok None).
Proof. intros. unfold decode_frame. by rewrite (proj2 (Z.ltb_lt _ _)). Qed.

(** A whole log followed by a tail that holds no frame. *)
Lemma decode_all_log rs tail :
  Forall record_ok rs -> blen (log_bytes rs ++ tail) <= u64_max ->
  decode_frame (log_bytes rs ++ tail) (blen (log_bytes rs)) = Some (Ok None) ->
  decode_all (log_bytes rs ++ tail) = Some (Ok (map normalize rs, blen (log_bytes rs))).
Proof.
  intros Hok Hlen Hend. apply (decode_loop_log rs [] tail); try done.
  pose proof (log_bytes_length rs). rewrite length_app. lia.
Qed.

(** The frames wholly contained in the first [n] bytes of a log. *)
Fixpoint whole_frames (n : nat) (rs : list WalRecord) : list WalRecord :=
  match rs with
  | [] => []
  | r :: rest =>
      if (length (record_frame r) <=? n)%nat
      then r :: whole_frames (n - length (record_frame r)) rest else []
  end.

Lemma whole_frames_prefix n rs : whole_frames n rs `prefix_of` rs.
Proof.
  revert n. induction rs as [|r rs IH]; intros n; simpl; [done|].
  case_match; [by apply prefix_cons|apply prefix_nil].
Qed.

Lemma take_log_torn pre n rs :
  Forall record_ok rs -> blen (pre ++ log_bytes rs) <= u64_max ->
  exists tail, take n (log_bytes rs) = log_bytes (whole_frames n rs) ++ tail /\
    decode_frame (pre ++ log_bytes (whole_frames n rs) ++ tail)
      (blen (pre ++ log_bytes (whole_frames n rs))) = Some (Ok None).
Proof.
  revert pre n. induction rs as [|r rs IH]; intros pre n Hok Hlen; cbn [whole_frames].
  - exists []. split; [by destruct n|]. apply decode_frame_short.
    rewrite !app_nil_r. unfold FRAME_HEADER_LEN. lia.
  - apply Forall_cons_1 in Hok as [[Htx Hsz] Hok].
    rewrite log_bytes_cons in *.
    destruct (Nat.leb_spec (length (record_frame r)) n) as [Hn|Hn].
    + rewrite take_app_ge by done. rewrite app_assoc in Hlen.
      destruct (IH (pre ++ record_frame r) (n - length (record_frame r))%nat Hok Hlen)
        as (tail & Ht & Hd).
      exists tail. rewrite log_bytes_cons, Ht. rewrite <- !app_assoc in Hd. rewrite <- !app_assoc. done.
    + exists (take n (record_frame r)). change (log_bytes []) with (@nil byte).
      rewrite take_app_le by lia. split; [done|]. rewrite app_nil_r.
      apply decode_frame_torn; try done. fold (record_frame r).
      rewrite !blen_app in Hlen. rewrite blen_app.
      pose proof (blen_nonneg (log_bytes rs)). lia.
Qed.

(** ** Memory safety and termination of the decoder *)

Lemma slice_in buf i j : 0 <= i <= j -> j <= blen buf -> exists m, slice buf i j = Some m.
Proof. apply slice_is_Some. Qed.

Lemma sentinel_len_nonneg b : 0 <= (if from_le b =? VALUE_NONE then 0 else from_le b).
Proof. pose proof (from_le_range b). destruct (_ =? _); lia. Qed.

(** What a successful decode says about the frame's place in the buffer. *)
Definition frame_within (buf : bytes) (cursor : Z) (r : Result (option DecodedFrame)) : Prop :=
  match r with
  | Ok (Some d) =>
      cursor + FRAME_FIXED_OVERHEAD <= frame_end cursor d <= blen buf /\
      match df_next_offset d with
      | None => frame_end cursor d = blen buf
      | Some nx => nx = frame_end cursor d /\ nx < blen buf
      end
  | _ => True
  end.

Lemma decode_body_safe buf cursor tx op kl vl :
  0 <= cursor -> cursor + FRAME_HEADER_LEN <= blen buf ->
  exists r, decode_body buf cursor tx op (from_le kl) (from_le vl) = Some r /\
            frame_within buf cursor r.
Proof.
  intros Hc Hh. unfold decode_body.
  pose proof (sentinel_len_nonneg kl) as Hkl. pose proof (sentinel_len_nonneg vl) as Hvl.
  set (k := if from_le kl =? VALUE_NONE then 0 else from_le kl) in *.
  set (v := if from_le vl =? VALUE_NONE then 0 else from_le vl) in *.
  unfold checked_add, FRAME_HEADER_LEN, FRAME_CRC_LEN in *.
  destruct (_ <=? u64_max); cbn [mbind option_bind]; [|by eexists].
  destruct (_ <=? u64_max); [|by eexists]. destruct (_ <=? u64_max); [|by eexists].
  destruct (blen buf <? _) eqn:Hend; [by eexists|]. zbool.
  destruct (slice_in buf cursor (cursor + (4 + 8 + 1 + 4 + 4) + k + v)) as [body ->]; [lia..|].
  cbn [mbind option_bind]. unfold read_array.
  destruct (slice_in buf (cursor + (4 + 8 + 1 + 4 + 4) + k + v)
              (cursor + (4 + 8 + 1 + 4 + 4) + k + v + 4)) as [crc ->]; [lia..|].
  cbn [mbind option_bind]. destruct (negb _); [by eexists|].
  assert (Hkey : exists key, (if k =? 0 then Some [] else
     slice buf (cursor + (4 + 8 + 1 + 4 + 4)) (cursor + (4 + 8 + 1 + 4 + 4) + k)) = Some key
     /\ blen key = k).
  { destruct (Z.eqb_spec k 0) as [->|]; [by exists []|].
    destruct (slice_in buf (cursor + (4 + 8 + 1 + 4 + 4))
                (cursor + (4 + 8 + 1 + 4 + 4) + k)) as [key Hs]; [lia..|].
    exists key. split; [done|]. apply slice_length in Hs. lia. }
  destruct Hkey as (key & -> & Hkey). cbn [mbind option_bind].
  assert (Hval : exists value, (if from_le vl =? VALUE_NONE then Some None else
     Some <$> slice buf (cursor + (4 + 8 + 1 + 4 + 4) + k)
       (cursor + (4 + 8 + 1 + 4 + 4) + k + v)) = Some value
     /\ match value with Some x => blen x | None => 0 end = v).
  { unfold v in *. destruct (from_le vl =? VALUE_NONE); [by exists None|].
    destruct (slice_in buf (cursor + (4 + 8 + 1 + 4 + 4) + k)
                (cursor + (4 + 8 + 1 + 4 + 4) + k + from_le vl)) as [val Hs]; [lia..|].
    exists (Some val). rewrite Hs. split; [done|]. apply slice_length in Hs. lia. }
  destruct Hval as (value & -> & Hval). cbn [mbind option_bind].
  eexists. split; [done|]. unfold frame_within, frame_end. cbn [df_key df_value df_next_offset].
  rewrite Hkey, Hval. unfold FRAME_FIXED_OVERHEAD, FRAME_HEADER_LEN, FRAME_CRC_LEN.
  split; [lia|]. destruct (_ =? blen buf) eqn:He; zbool; lia.
Qed.

Lemma decode_frame_within buf cursor :
  0 <= cursor -> exists r, decode_frame buf cursor = Some r /\ frame_within buf cursor r.
Proof.
  intros Hc. unfold decode_frame.
  destruct (blen buf <? _) eqn:Hh; [by eexists|]. zbool. unfold read_array.
  unfold FRAME_HEADER_LEN in Hh.
  destruct (slice_in buf cursor (cursor + 4)) as [m ->]; [lia..|]. cbn [mbind option_bind].
  destruct (negb _); [by eexists|].
  destruct (slice_in buf (cursor + 4) (cursor + 4 + 8)) as [t ->]; [lia..|].
  destruct (slice_in buf (cursor + 12) (cursor + 13)) as [o ->]; [lia..|].
  cbn [mbind option_bind]. destruct (op_decode _); [|by eexists].
  destruct (slice_in buf (cursor + 13) (cursor + 13 + 4)) as [kl ->]; [lia..|].
  destruct (slice_in buf (cursor + 17) (cursor + 17 + 4)) as [vl ->]; [lia..|].
  cbn [mbind option_bind]. apply decode_body_safe; unfold FRAME_HEADER_LEN; lia.
Qed.

Lemma decode_loop_total fuel buf cursor out lv :
  0 <= cursor <= blen buf -> blen buf - cursor < Z.of_nat fuel -> 0 <= lv <= blen buf ->
  exists r, decode_loop fuel buf cursor out lv = Some r /\
    match r with Ok (_, valid) => 0 <= valid <= blen buf | Err _ => True end.
Proof.
  revert cursor out lv. induction fuel as [|fuel IH]; intros cursor out lv Hc Hf Hlv; [lia|].
  cbn [decode_loop].
  destruct (decode_frame_within buf cursor) as (r & -> & Hw); [lia|].
  destruct r as [[d|]|e]; [|by eexists|by eexists].
  destruct Hw as [Hend Hnext]. unfold FRAME_FIXED_OVERHEAD, FRAME_HEADER_LEN, FRAME_CRC_LEN in Hend.
  destruct (df_next_offset d) as [nx|]; [|eexists; split; [done|simpl; lia]].
  apply IH; lia.
Qed.

Lemma decode_all_total buf :
  exists r, decode_all buf = Some r /\
    match r with Ok (_, valid) => 0 <= valid <= blen buf | Err _ => True end.
Proof.
  apply decode_loop_total; pose proof (blen_nonneg buf); unfold blen in *; lia.
Qed.

(** ** The log file and its append paths *)

(** Contents as the kernel sees them, and the length known to be on disk. *)
Record LogFile := { lf_contents : bytes; lf_durable : Z }.

(** How a system call ends; a failed write may have written a prefix. *)
Inductive IoOutcome := IoOk | IoErr (written : nat) (msg : string).

Definition write_all (f : LogFile) (buf : bytes) (io : IoOutcome) : LogFile * Result unit :=
  match io with
  | IoOk => ({| lf_contents := lf_contents f ++ buf; lf_durable := lf_durable f |}, Ok tt)
  | IoErr n msg =>
      ({| lf_contents := lf_contents f ++ take n buf; lf_durable := lf_durable f |},
       Err (Io msg))
  end.

Definition file_sync_data (f : LogFile) (io : IoOutcome) : LogFile * Result unit :=
  match io with
  | IoOk => ({| lf_contents := lf_contents f; lf_durable := blen (lf_contents f) |}, Ok tt)
  | IoErr _ msg => (f, Err (Io msg))
  end.

Definition file_set_len_0 (f : LogFile) (io : IoOutcome) : LogFile * Result unit :=
  match io with
  | IoOk => ({| lf_contents := []; lf_durable := 0 |}, Ok tt)
  | IoErr _ msg => (f, Err (Io msg))
  end.

(** The handle: its file and the thread-local encoding buffer. *)
Record Wal := { w_file : LogFile; w_tls_buf : bytes }.

Definition take_wal_buf (w : Wal) : bytes * Wal :=
  (w_tls_buf w, {| w_file := w_file w; w_tls_buf := [] |}).

(** [return_wal_buf] clears the buffer before storing it. *)
Definition return_wal_buf (f : LogFile) (buf : bytes) : Wal :=
  {| w_file := f; w_tls_buf := [] |}.

Definition current_size (w : Wal) : Z := blen (lf_contents (w_file w)).

(** The closure shared by the single-batch paths: write, then sync. *)
Definition write_and_sync (f : LogFile) (buf : bytes) (io_w io_s : IoOutcome)
  : LogFile * Result Z :=
  match write_all f buf io_w with
  | (f, Err e) => (f, Err e)
  | (f, Ok tt) =>
      match file_sync_data f io_s with
      | (f, Err e) => (f, Err e)
      | (f, Ok tt) => (f, Ok (blen buf))
      end
  end.

Definition append_batch_commit_and_sync (w : Wal) (records : list WalRecord) (tx : Z)
    (io_w io_s : IoOutcome) : Wal * Result Z :=
  match records with
  | [] => (w, Ok 0)
  | _ =>
      let '(buffer, w) := take_wal_buf w in
      match encode_batch buffer records tx with
      | (buffer, Err e) => (return_wal_buf (w_file w) buffer, Err e)
      | (buffer, Ok tt) =>
          let '(f, r) := write_and_sync (w_file w) buffer io_w io_s in
          (return_wal_buf f buffer, r)
      end
  end.

Definition append_mutations_commit_and_sync (w : Wal) (tx : Z) (ms : list Mutation)
    (io_w io_s : IoOutcome) : Wal * Result Z :=
  match ms with
  | [] => (w, Ok 0)
  | _ =>
      let '(buffer, w) := take_wal_buf w in
      match encode_mutations buffer tx ms with
      | (buffer, Err e) => (return_wal_buf (w_file w) buffer, Err e)
      | (buffer, Ok tt) =>
          let '(f, r) := write_and_sync (w_file w) buffer io_w io_s in
          (return_wal_buf f buffer, r)
      end
  end.

(** The batch loops skip empty transactions. *)
Fixpoint encode_multi_batch (out : bytes) (batches : list (Z * list WalRecord))
  : bytes * Result unit :=
  match batches with
  | [] => (out, Ok tt)
  | (tx, []) :: rest => encode_multi_batch out rest
  | (tx, records) :: rest =>
      match encode_batch out records tx with
      | (out, Ok tt) => encode_multi_batch out rest
      | (out, Err e) => (out, Err e)
      end
  end.

Fixpoint encode_multi_mutations (out : bytes) (batches : list (Z * list Mutation))
  : bytes * Result unit :=
  match batches with
  | [] => (out, Ok tt)
  | (tx, []) :: rest => encode_multi_mutations out rest
  | (tx, ms) :: rest =>
      match encode_mutations out tx ms with
      | (out, Ok tt) => encode_multi_mutations out rest
      | (out, Err e) => (out, Err e)
      end
  end.

Definition finish_multi (w : Wal) (enc : bytes * Result unit) (io_w : IoOutcome)
  : Wal * Result Z :=
  match enc with
  | (buffer, Err e) => (return_wal_buf (w_file w) buffer, Err e)
  | ([], Ok tt) => (return_wal_buf (w_file w) [], Ok 0)
  | (buffer, Ok tt) =>
      match write_all (w_file w) buffer io_w with
      | (f, Err e) => (return_wal_buf f buffer, Err e)
      | (f, Ok tt) => (return_wal_buf f buffer, Ok (blen buffer))
      end
  end.

(** [append_multi_batch] and [append_multi_mutations]: no [sync_data]. *)
Definition append_multi_batch (w : Wal) (batches : list (Z * list WalRecord))
    (io_w : IoOutcome) : Wal * Result Z :=
  match batches with
  | [] => (w, Ok 0)
  | _ => let '(buffer, w) := take_wal_buf w in
         finish_multi w (encode_multi_batch buffer batches) io_w
  end.

Definition append_multi_mutations (w : Wal) (batches : list (Z * list Mutation))
    (io_w : IoOutcome) : Wal * Result Z :=
  match batches with
  | [] => (w, Ok 0)
  | _ => let '(buffer, w) := take_wal_buf w in
         finish_multi w (encode_multi_mutations buffer batches) io_w
  end.

Definition wal_sync_data (w : Wal) (io : IoOutcome) : Wal * Result unit :=
  let '(f, r) := file_sync_data (w_file w) io in
  ({| w_file := f; w_tls_buf := w_tls_buf w |}, r).

Definition sync_if_written (r : Wal * Result Z) (io_s : IoOutcome) : Wal * Result Z :=
  match r with
  | (w, Err e) => (w, Err e)
  | (w, Ok n) =>
      if 0 <? n then
        match wal_sync_data w io_s with
        | (w, Ok tt) => (w, Ok n)
        | (w, Err e) => (w, Err e)
        end
      else (w, Ok n)
  end.

Definition append_multi_batch_commit_and_sync (w : Wal)
    (batches : list (Z * list WalRecord)) (io_w io_s : IoOutcome) : Wal * Result Z :=
  sync_if_written (append_multi_batch w batches io_w) io_s.

Definition append_multi_mutations_commit_and_sync (w : Wal)
    (batches : list (Z * list Mutation)) (io_w io_s : IoOutcome) : Wal * Result Z :=
  sync_if_written (append_multi_mutations w batches io_w) io_s.

(** [reset_append_handle]: truncate, seek to the start, sync. *)
Definition reset_append_handle (f : LogFile) (io_len io_s : IoOutcome) : LogFile * Result unit :=
  match file_set_len_0 f io_len with
  | (f, Err e) => (f, Err e)
  | (f, Ok tt) => file_sync_data f io_s
  end.

Definition wal_reset (w : Wal) (io_len io_s : IoOutcome) : Wal * Result unit :=
  let '(f, r) := reset_append_handle (w_file w) io_len io_s in
  ({| w_file := f; w_tls_buf := w_tls_buf w |}, r).

(** ** Recovery *)

(** [recover_records_with_truncation] on the file's bytes ([None]: no file). *)
Definition recover_records_with_truncation (file : option bytes)
  : option (Result (list WalRecord * Z)) :=
  match file with
  | None => Some (Ok ([], 0))
  | Some [] => Some (Ok ([], 0))
  | Some b =>
      if negb (starts_with b MAGIC_WAL1) then
        Some (Err (CorruptMessage "WAL file uses an unsupported format"))
      else decode_all b
  end.

Definition wal_recover (file : option bytes) : option (Result (list WalRecord)) :=
  match recover_records_with_truncation file with
  | None => None
  | Some (Ok (records, _)) => Some (Ok records)
  | Some (Err e) => Some (Err e)
  end.

(** [open_append]: open or create, cut the file to its valid prefix ([set_len]
    to a length within the file) and sync it. *)
Definition open_append (file : option bytes) (valid : Z) (io_len io_s : IoOutcome)
  : Result LogFile :=
  let contents := match file with Some b => b | None => [] end in
  match io_len with
  | IoErr _ msg => Err (Io msg)
  | IoOk =>
      match file_sync_data {| lf_contents := take (Z.to_nat valid) contents; lf_durable := 0 |} io_s with
      | (f, Ok tt) => Ok f
      | (_, Err e) => Err e
      end
  end.

(** [Wal::open] *)
Definition wal_open (file : option bytes) (io_len io_s : IoOutcome) : option (Result Wal) :=
  match recover_records_with_truncation file with
  | None => None
  | Some (Err e) => Some (Err e)
  | Some (Ok (_, valid)) =>
      Some (let? f := open_append file valid io_len io_s in
            Ok {| w_file := f; w_tls_buf := [] |})
  end.

(** ** What the append paths put in the file *)

Definition mutation_record (tx : Z) (m : Mutation) : WalRecord :=
  match m with MPut k v => record_put tx k v | MDelete k => record_delete tx k end.

Definition txn_log (tx : Z) (ms : list Mutation) : list WalRecord :=
  map (mutation_record tx) ms ++ [record_commit tx].

Definition multi_log (batches : list (Z * list Mutation)) : list WalRecord :=
  flat_map (fun b => match b.2 with [] => [] | ms => txn_log b.1 ms end) batches.

Definition mutation_ok (m : Mutation) : Prop :=
  match m with MPut k v => size_ok k (Some v) | MDelete k => size_ok k None end.

Definition batch_ok (b : Z * list Mutation) : Prop :=
  is_u64 b.1 /\ Forall mutation_ok b.2.

Lemma commit_record_ok tx : is_u64 tx -> record_ok (record_commit tx).
Proof. intros. split; [done|]. split; [reflexivity|done]. Qed.

Lemma mutation_record_ok tx m : is_u64 tx -> mutation_ok m -> record_ok (mutation_record tx m).
Proof. by destruct m. Qed.

Lemma txn_log_ok tx ms : batch_ok (tx, ms) -> Forall record_ok (txn_log tx ms).
Proof.
  intros [Htx Hms]. apply Forall_app. split; [|by constructor; [apply commit_record_ok|]].
  apply Forall_map. eapply List.Forall_impl; [|exact Hms]. intros. by apply mutation_record_ok.
Qed.

Lemma multi_log_ok batches : Forall batch_ok batches -> Forall record_ok (multi_log batches).
Proof.
  induction 1 as [|[tx ms] bs Hb Hbs IH]; simpl; [done|]. apply Forall_app.
  split; [|done]. destruct ms; [done|]. by apply txn_log_ok.
Qed.

Lemma encode_records_ok out rs :
  Forall record_ok rs -> encode_records out rs = (out ++ log_bytes rs, Ok tt).
Proof.
  intros Hok. revert out. induction Hok as [|r rs [_ Hsz] Hrs IH]; intros out.
  - by rewrite app_nil_r.
  - cbn [encode_records]. rewrite encode_frame_ok by done. rewrite IH.
    by rewrite log_bytes_cons, <- app_assoc.
Qed.

Lemma encode_commit_ok out tx :
  encode_commit out tx = (out ++ log_bytes [record_commit tx], Ok tt).
Proof.
  unfold encode_commit. rewrite encode_frame_ok by done.
  by rewrite log_bytes_cons, app_nil_r.
Qed.

Lemma encode_batch_ok out rs tx :
  Forall record_ok rs ->
  encode_batch out rs tx = (out ++ log_bytes (rs ++ [record_commit tx]), Ok tt).
Proof.
  intros. unfold encode_batch. rewrite encode_records_ok, encode_commit_ok by done.
  by rewrite log_bytes_app, <- app_assoc.
Qed.

Lemma encode_mutations_ok out tx ms :
  batch_ok (tx, ms) -> encode_mutations out tx ms = (out ++ log_bytes (txn_log tx ms), Ok tt).
Proof.
  intros [Htx Hms]. unfold encode_mutations.
  assert (Hf : encode_mutation_frames out tx ms =
               (out ++ log_bytes (map (mutation_record tx) ms), Ok tt)).
  { simpl in Hms. clear Htx. revert out. induction Hms as [|m ms' Hm Hms' IH]; intros out.
    - by rewrite app_nil_r.
    - cbn [encode_mutation_frames map]. rewrite log_bytes_cons.
      destruct m; rewrite encode_frame_ok, IH, <- app_assoc by done; done. }
  rewrite Hf, encode_commit_ok. unfold txn_log. by rewrite log_bytes_app, <- app_assoc.
Qed.

Lemma encode_multi_mutations_ok out batches :
  Forall batch_ok batches ->
  encode_multi_mutations out batches = (out ++ log_bytes (multi_log batches), Ok tt).
Proof.
  intros Hok. revert out. induction Hok as [|[tx ms] bs Hb Hbs IH]; intros out.
  - by rewrite app_nil_r.
  - destruct ms as [|m ms]; [by apply IH|]. cbn [encode_multi_mutations].
    rewrite encode_mutations_ok, IH by done.
    change (multi_log ((tx, m :: ms) :: bs)) with (txn_log tx (m :: ms) ++ multi_log bs).
    by rewrite log_bytes_app, <- app_assoc.
Qed.

(** The WAL holds exactly the frames of [rs], all but a suffix durable. *)
Definition wal_holds (w : Wal) (rs : list WalRecord) : Prop :=
  lf_contents (w_file w) = log_bytes rs /\ Forall record_ok rs /\ w_tls_buf w = [] /\
  0 <= lf_durable (w_file w) <= blen (log_bytes rs).

Lemma log_bytes_nil_inv rs : log_bytes rs = [] -> rs = [].
Proof.
  destruct rs as [|r rs]; [done|]. intros H. pose proof (log_bytes_length (r :: rs)) as Hl.
  rewrite H in Hl. simpl in Hl. lia.
Qed.

Lemma append_multi_mutations_holds w rs batches io :
  wal_holds w rs -> Forall batch_ok batches ->
  exists w' r, append_multi_mutations w batches io = (w', r) /\
    match io with
    | IoOk => r = Ok (blen (log_bytes (multi_log batches))) /\
              wal_holds w' (rs ++ multi_log batches) /\
              lf_durable (w_file w') = lf_durable (w_file w)
    | IoErr n msg => w_tls_buf w' = [] /\
        (multi_log batches <> [] -> r = Err (Io msg) /\
           lf_contents (w_file w') = log_bytes rs ++ take n (log_bytes (multi_log batches)))
    end.
Proof.
  intros (Hc & Hok & Htls & Hd) Hb. unfold append_multi_mutations.
  pose proof (multi_log_ok _ Hb) as Hml.
  destruct batches as [|b0 bs].
  { exists w, (Ok 0). split; [done|]. destruct io; [|done].
    split; [done|]. simpl. rewrite app_nil_r. done. }
  unfold take_wal_buf. rewrite Htls, encode_multi_mutations_ok by done.
  unfold finish_multi. rewrite app_nil_l. cbn [w_file].
  destruct (log_bytes (multi_log (b0 :: bs))) as [|x l] eqn:Hlb.
  { eexists _, _. split; [done|]. apply log_bytes_nil_inv in Hlb. rewrite Hlb.
    destruct io; [|split; [done|by intros []]]. rewrite app_nil_r.
    split; [done|]. split; [|done]. split; [done|]. split; [done|]. split; [done|exact Hd]. }
  rewrite <- Hlb. unfold write_all. destruct io as [|n msg].
  - eexists _, _. split; [done|]. split; [done|]. split; [|done].
    split; [cbn [return_wal_buf w_file lf_contents]; by rewrite Hc, log_bytes_app|].
    split; [by apply Forall_app|]. split; [done|]. cbn [return_wal_buf w_file lf_durable].
    rewrite log_bytes_app, blen_app. pose proof (blen_nonneg (log_bytes (multi_log (b0 :: bs)))).
    lia.
  - eexists _, _. split; [done|]. split; [done|]. intros _. split; [done|].
    cbn [return_wal_buf w_file lf_contents]. by rewrite Hc.
Qed.

(** The single-transaction path is the group path with one transaction. *)
Lemma append_single_is_multi w tx ms io_w io_s :
  w_tls_buf w = [] ->
  append_mutations_commit_and_sync w tx ms io_w io_s =
  append_multi_mutations_commit_and_sync w [(tx, ms)] io_w io_s \/ ms = [].
Proof.
  intros Htls. destruct ms as [|m ms]; [by right|left].
  unfold append_mutations_commit_and_sync, append_multi_mutations_commit_and_sync,
    append_multi_mutations, take_wal_buf. rewrite Htls.
  cbn [encode_multi_mutations].
  destruct (encode_mutations [] tx (m :: ms)) as [buf [[]|e]] eqn:He; [|by destruct buf].
  assert (Hne : buf <> []).
  { unfold encode_mutations in He. destruct (encode_mutation_frames _ _ _) as [o [[]|]]; [|done].
    unfold encode_commit in He. rewrite encode_frame_ok in He by done.
    injection He as <-. intros Hnil. apply (f_equal length) in Hnil.
    rewrite length_app in Hnil. pose proof (record_frame_length (record_commit tx)) as Hl.
    unfold record_frame in Hl. simpl in Hl. simpl in Hnil. lia. }
  unfold finish_multi, write_and_sync, sync_if_written, wal_sync_data.
  destruct buf as [|x buf]; [done|]. destruct io_w; cbn -[Z.ltb blen]; [|done].
  rewrite (proj2 (Z.ltb_lt 0 _)) by (rewrite blen_cons; pose proof (blen_nonneg buf); lia).
  by destruct io_s.
Qed.

Lemma whole_frames_app n a b :
  (length (log_bytes a) <= n)%nat ->
  whole_frames n (a ++ b) = a ++ whole_frames (n - length (log_bytes a)) b.
Proof.
  revert n. induction a as [|r a IH]; intros n Hn.
  - simpl. by rewrite Nat.sub_0_r.
  - rewrite log_bytes_cons, length_app in Hn. cbn [app whole_frames].
    rewrite (proj2 (Nat.leb_le _ _)) by lia. rewrite IH by lia.
    rewrite log_bytes_cons, length_app. do 3 f_equal. lia.
Qed.

Lemma whole_frames_all n rs : (length (log_bytes rs) <= n)%nat -> whole_frames n rs = rs.
Proof.
  intros. pose proof (whole_frames_app n rs [] ltac:(done)) as Ha. by rewrite !app_nil_r in Ha.
Qed.

Lemma log_starts_with n rs :
  rs <> [] -> (4 <= n)%nat -> starts_with (take n (log_bytes rs)) MAGIC_WAL1 = true.
Proof.
  intros Hne Hn. destruct rs as [|r rs]; [done|].
  assert (Hm : exists rest, log_bytes (r :: rs) = MAGIC_WAL1 ++ rest).
  { rewrite log_bytes_cons. unfold record_frame, frame_bytes, frame_header.
    rewrite <- !app_assoc. by eexists. }
  destruct Hm as [rest ->]. rewrite take_app_ge by (simpl; lia). apply starts_with_app.
Qed.

(** A file that ends inside the magic number of its first frame. *)
Definition torn_magic (image : bytes) : bool :=
  match image with [] => false | _ => (length image <? 4)%nat end.

(** What recovery makes of any prefix of a log that is not cut inside the first
    magic number. *)
Lemma recover_prefix n rs :
  Forall record_ok rs -> blen (log_bytes rs) <= u64_max -> torn_magic (take n (log_bytes rs)) = false ->
  recover_records_with_truncation (Some (take n (log_bytes rs))) =
  Some (Ok (map normalize (whole_frames n rs), blen (log_bytes (whole_frames n rs)))).
Proof.
  intros Hok Hlen Hn.
  destruct (take_log_torn [] n rs Hok Hlen) as (tail & Ht & Hd). simpl in Hd.
  assert (Hwok : Forall record_ok (whole_frames n rs)).
  { destruct (whole_frames_prefix n rs) as [k Hk]. rewrite Hk in Hok. by apply Forall_app in Hok as [? _]. }
  pose proof (blen_take n (log_bytes rs)) as Hbt.
  assert (Hdec : decode_all (take n (log_bytes rs)) =
    Some (Ok (map normalize (whole_frames n rs), blen (log_bytes (whole_frames n rs))))).
  { rewrite Ht in Hbt |- *. apply decode_all_log; try done. lia. }
  unfold recover_records_with_truncation. rewrite <- Hdec.
  destruct (take n (log_bytes rs)) as [|x l] eqn:Hx; [done|].
  rewrite <- Hx, log_starts_with; [done| |].
  - intros ->. by destruct n.
  - unfold torn_magic in Hn. apply Nat.ltb_ge in Hn. pose proof (f_equal length Hx) as Hl. rewrite length_take in Hl. cbn [length] in Hn, Hl. lia.
Qed.

(** A prefix that is cut there does not look like a torn write: the magic check
    refuses the file. *)
Lemma torn_magic_refused n rs :
  torn_magic (take n (log_bytes rs)) = true ->
  (n < 4)%nat /\ wal_recover (Some (take n (log_bytes rs))) =
    Some (Err (CorruptMessage "WAL file uses an unsupported format")).
Proof.
  destruct rs as [|r rs]; [by destruct n|]. rewrite log_bytes_cons.
  unfold record_frame, frame_bytes, frame_header, MAGIC_WAL1. rewrite <- !app_assoc.
  destruct n as [|[|[|[|n]]]]; try done; (split; [lia|reflexivity]).
Qed.

Lemma torn_open_refused n rs io_len io_s :
  torn_magic (take n (log_bytes rs)) = true ->
  wal_open (Some (take n (log_bytes rs))) io_len io_s =
    Some (Err (CorruptMessage "WAL file uses an unsupported format")).
Proof.
  intros [_ Hr]%torn_magic_refused. unfold wal_recover in Hr. unfold wal_open.
  by destruct (recover_records_with_truncation _) as [[[? ?]|]|]; simplify_eq.
Qed.

(** The records in a durable part of less than four bytes: none. *)
Lemma short_log_empty rs n : (n < 4)%nat -> blen (log_bytes rs) <= Z.of_nat n -> rs = [].
Proof.
  destruct rs as [|r rs]; [done|]. rewrite log_bytes_cons, blen_app. unfold record_frame, frame_bytes, frame_header, MAGIC_WAL1.
  rewrite <- !app_assoc. unfold blen. rewrite !length_app. cbn [length]. lia.
Qed.
End WithCrc.

(** ** Properties *)

Section Properties.
Context {hw : Crc32Hw}.

(** On any file contents whatever, [decode_all] terminates without reading
    outside the buffer or panicking, and the valid length it reports for
    truncation lies within the buffer. *)
Lemma wal_decode_safe (buf : bytes) :
  exists r, decode_all buf = Some r /\
    match r with Ok (_, valid) => 0 <= valid <= blen buf | Err _ => True end.
Proof. apply decode_all_total. Qed.

(** A batch encoded into an empty buffer decodes to the same records, with
    the values of non-put records dropped, followed by the commit marker; the
    valid offset is the whole buffer. *)
Lemma wal_batch_roundtrip (rs : list WalRecord) (tx : Z) :
  Forall record_ok rs -> is_u64 tx ->
  blen (log_bytes (rs ++ [record_commit tx])) <= u64_max ->
  exists buf, encode_batch [] rs tx = (buf, Ok tt) /\
    decode_all buf = Some (Ok (map normalize rs ++ [record_commit tx], blen buf)).
Proof.
  intros Hrs Htx Hlen. exists (log_bytes (rs ++ [record_commit tx])).
  split; [by rewrite encode_batch_ok, app_nil_l|].
  pose proof (decode_all_log (rs ++ [record_commit tx]) []) as Hd.
  rewrite app_nil_r in Hd. rewrite Hd, map_app; [done| |done|].
  - apply Forall_app. split; [done|]. constructor; [by apply commit_record_ok|done].
  - apply decode_frame_short. unfold FRAME_HEADER_LEN. lia.
Qed.

(** Cut a log anywhere (a torn write) and decoding returns exactly the
    frames that are whole in the prefix, with their length as the valid
    offset; the fragment is never mistaken for a frame nor reported as
    corruption. *)
Lemma wal_torn_tail (rs : list WalRecord) (n : nat) :
  Forall record_ok rs -> blen (log_bytes rs) <= u64_max ->
  decode_all (take n (log_bytes rs)) =
  Some (Ok (map normalize (whole_frames n rs), blen (log_bytes (whole_frames n rs)))).
Proof.
  intros Hok Hlen. destruct (take_log_torn [] n rs Hok Hlen) as (tail & Ht & Hd).
  pose proof (blen_take n (log_bytes rs)) as Hbt. rewrite Ht in Hbt |- *.
  apply decode_all_log; [|lia|done].
  destruct (whole_frames_prefix n rs) as [k Hk]. rewrite Hk in Hok.
  by apply Forall_app in Hok as [? _].
Qed.

(** C23: a group commit of well-sized transactions to a log holding [rs] appends
    each non-empty transaction's records and its commit marker, in order, and
    reports the bytes written; when the write and the sync succeed and
    something was written, the whole file is durable.  The file is what
    recovery reads, so nothing acknowledged is left in the encoding buffer. *)
Theorem wal_group_commit_durable (w : Wal) (rs : list WalRecord)
    (batches : list (Z * list Mutation)) :
  wal_holds w rs -> Forall batch_ok batches ->
  exists w', append_multi_mutations_commit_and_sync w batches IoOk IoOk =
      (w', Ok (blen (log_bytes (multi_log batches)))) /\
    wal_holds w' (rs ++ multi_log batches) /\
    current_size w' = current_size w + blen (log_bytes (multi_log batches)) /\
    (multi_log batches <> [] -> lf_durable (w_file w') = current_size w').
Proof.
  intros Hw Hb. pose proof Hw as (Hc & _).
  destruct (append_multi_mutations_holds w rs batches IoOk Hw Hb)
    as (w1 & r & Ha & -> & Hw1 & Hdur).
  unfold append_multi_mutations_commit_and_sync. rewrite Ha. cbn [sync_if_written].
  assert (Hsz : current_size w1 = current_size w + blen (log_bytes (multi_log batches))).
  { destruct Hw1 as (Hc1 & _). unfold current_size.
    by rewrite Hc1, Hc, log_bytes_app, blen_app. }
  destruct (0 <? blen (log_bytes (multi_log batches))) eqn:Hpos; zbool.
  - eexists. split; [done|]. destruct Hw1 as (Hc1 & Hok1 & Htls1 & Hd1).
    split; [|done]. split; [done|]. split; [done|]. split; [done|].
    cbn [w_file lf_durable]. rewrite Hc1. pose proof (blen_nonneg (log_bytes (rs ++ multi_log batches))). lia.
  - exists w1. split; [done|]. split; [done|]. split; [done|]. intros Hne. exfalso. apply Hne.
    apply log_bytes_nil_inv. destruct (log_bytes (multi_log batches)); [done|].
    rewrite blen_cons in Hpos. pose proof (blen_nonneg l). lia.
Qed.

(** What [wal_recover] and [Wal::open] make of any prefix of a log that contains
    the frames [rs1]. *)
Lemma crash_image_opens rs1 rs2 n :
  Forall record_ok (rs1 ++ rs2) -> blen (log_bytes (rs1 ++ rs2)) <= u64_max ->
  (length (log_bytes rs1) <= n)%nat -> torn_magic (take n (log_bytes (rs1 ++ rs2))) = false ->
  let image := take n (log_bytes (rs1 ++ rs2)) in
  exists rs2', rs2' `prefix_of` rs2 /\
    wal_recover (Some image) = Some (Ok (map normalize (rs1 ++ rs2'))) /\
    exists w', wal_open (Some image) IoOk IoOk = Some (Ok w') /\ wal_holds w' (rs1 ++ rs2') /\
      lf_durable (w_file w') = blen (log_bytes (rs1 ++ rs2')).
Proof.
  intros Hok Hlen Hn Hn4 image.
  pose proof (recover_prefix n _ Hok Hlen Hn4) as Hrec.
  exists (whole_frames (n - length (log_bytes rs1)) rs2).
  split; [apply whole_frames_prefix|].
  fold image in Hrec. rewrite whole_frames_app in Hrec by done.
  split; [unfold wal_recover; by rewrite Hrec|].
  unfold wal_open. rewrite Hrec. eexists. split; [done|].
  set (L := log_bytes (rs1 ++ whole_frames (n - length (log_bytes rs1)) rs2)).
  assert (Himg : take (Z.to_nat (blen L)) image = L).
  { unfold L, image, blen. rewrite <- whole_frames_app, Nat2Z.id by done.
    destruct (take_log_torn [] n _ Hok Hlen) as (tail & Ht & _).
    by rewrite Ht, take_app_length. }
  unfold wal_holds. cbn [w_file w_tls_buf lf_durable lf_contents]. rewrite Himg. fold L.
  split; [|done]. split; [done|]. split; [|split; [done|pose proof (blen_nonneg L); lia]].
  destruct (whole_frames_prefix (n - length (log_bytes rs1)) rs2) as [k Hk].
  rewrite Hk, app_assoc in Hok. by apply Forall_app in Hok as [? _].
Qed.

(** C21: crash recovery of a log that holds whole frames.  After a crash the file
    is some prefix of what was written that contains the durable part (a crash in
    the middle of a write leaves such a prefix too).  If the prefix ends inside
    the magic number of the first frame, one to three bytes, nothing of the log was
    durable and [Wal::open] refuses the file.  Any other prefix recovers: recovery
    returns the whole frames of that prefix, these include every record of the
    durable part [rs1], and [Wal::open] (whose own truncation and sync succeed)
    leaves a log that holds exactly them. *)
Theorem wal_crash_recovery (w : Wal) (rs1 rs2 : list WalRecord) (n : nat) :
  wal_holds w (rs1 ++ rs2) -> lf_durable (w_file w) = blen (log_bytes rs1) ->
  blen (log_bytes (rs1 ++ rs2)) <= u64_max ->
  (length (log_bytes rs1) <= n)%nat ->
  let image := take n (lf_contents (w_file w)) in
  if torn_magic image then
    rs1 = [] /\ wal_open (Some image) IoOk IoOk = Some (Err (CorruptMessage "WAL file uses an unsupported format"))
  else
    exists rs2', rs2' `prefix_of` rs2 /\
      wal_recover (Some image) = Some (Ok (map normalize (rs1 ++ rs2'))) /\
      exists w', wal_open (Some image) IoOk IoOk = Some (Ok w') /\ wal_holds w' (rs1 ++ rs2').
Proof.
  intros (Hc & Hok & _) _ Hlen Hn image. unfold image. rewrite Hc. destruct (torn_magic _) eqn:Ht.
  - split; [|by apply torn_open_refused]. apply torn_magic_refused in Ht as [Hn4 _].
    apply (short_log_empty rs1 n Hn4). unfold blen. lia.
  - destruct (crash_image_opens rs1 rs2 n Hok Hlen Hn Ht) as (rs2' & Hp & Hr & w' & Hw & Hh & _).
    exists rs2'. split; [done|]. split; [done|]. by exists w'.
Qed.
End Properties.

(** ** Witnesses and findings *)

Definition wal_sample : list WalRecord :=
  [record_put 1 [x61] [x62; x63]; record_delete 1 [x64]].

Lemma wal_sample_ok : Forall record_ok wal_sample.
Proof. repeat constructor; vm_compute; congruence. Qed.

Definition empty_wal : Wal :=
  {| w_file := {| lf_contents := []; lf_durable := 0 |}; w_tls_buf := [] |}.

Definition sample_batches : list (Z * list Mutation) :=
  [(1, [MPut [x61] [x62]]); (2, []); (3, [MDelete [x61]])].

Lemma sample_batches_ok : Forall batch_ok sample_batches.
Proof. repeat constructor; vm_compute; congruence. Qed.

Lemma wal_group_commit_durable_witness :
  exists w', append_multi_mutations_commit_and_sync (hw := no_sse42) empty_wal sample_batches IoOk IoOk =
      (w', Ok 103) /\ lf_durable (w_file w') = current_size w'.
Proof.
  destruct (wal_group_commit_durable (hw := no_sse42) empty_wal [] sample_batches)
    as (w' & Ha & _ & _ & Hd).
  - split; [reflexivity|]. split; [constructor|]. split; [reflexivity|].
    vm_compute; split; congruence.
  - exact sample_batches_ok.
  - exists w'. split; [exact Ha|]. apply Hd. vm_compute. congruence.
Defined.

Definition crashed_wal : Wal :=
  {| w_file := {| lf_contents := log_bytes (hw := no_sse42) wal_sample; lf_durable := 28 |};
     w_tls_buf := [] |}.

Lemma wal_crash_recovery_witness :
  exists rs2', rs2' `prefix_of` [record_delete 1 [x64]] /\
    wal_recover (hw := no_sse42) (Some (take 30 (lf_contents (w_file crashed_wal)))) =
    Some (Ok (map normalize ([record_put 1 [x61] [x62; x63]] ++ rs2'))).
Proof.
  pose proof (wal_crash_recovery (hw := no_sse42) crashed_wal [record_put 1 [x61] [x62; x63]]
                [record_delete 1 [x64]] 30) as Hrec.
  destruct Hrec as (rs2' & Hp & Hr & _).
  - split; [reflexivity|]. split; [exact wal_sample_ok|]. split; [reflexivity|].
    vm_compute; split; congruence.
  - vm_compute; reflexivity.
  - vm_compute; congruence.
  - vm_compute; lia.
  - exists rs2'. split; [exact Hp|exact Hr].
Defined.

(** A value of exactly [u32::MAX] bytes is accepted, with the length field that
    means "no value". *)
Lemma sentinel_length_accepted {hw : Crc32Hw} out tx key v :
  blen v = u32_max -> blen key < u32_max ->
  exists frame rest, encode_frame out tx Put key (Some v) = Ok (out ++ frame) /\
    frame = frame_header tx Put key None ++ rest.
Proof.
  intros Hv Hk. unfold encode_frame, u32_try_from.
  rewrite (proj2 (Z.leb_le (blen v) _)), (proj2 (Z.leb_le (blen key) _)) by lia. simpl.
  eexists _, (key ++ v ++ _). split; [reflexivity|]. unfold frame_header. simpl.
  rewrite Hv, <- !app_assoc. reflexivity.
Qed.

(** A failed append may leave a fragment behind; later commits are written after
    it and acknowledged as durable, but recovery reads the fragment as the start
    of a frame, here with an invalid operation tag, and fails. *)
Lemma commit_after_partial_write_lost :
  exists w1 w2 n,
    append_mutations_commit_and_sync (hw := no_sse42) empty_wal 1 [MPut [x61] [x62]]
      (IoErr 5 "disk full") IoOk = (w1, Err (Io "disk full")) /\
    append_mutations_commit_and_sync (hw := no_sse42) w1 2 [MPut [x63] [x64]] IoOk IoOk = (w2, Ok n) /\
    lf_durable (w_file w2) = current_size w2 /\
    wal_recover (hw := no_sse42) (Some (lf_contents (w_file w2))) =
    Some (Err (CorruptMessage "unknown WAL operation tag")).
Proof.
  eexists _, _, _. split; [vm_compute; reflexivity|]. split; [vm_compute; reflexivity|].
  split; vm_compute; reflexivity.
Qed.
