(* ===== verification/FileIo.v ===== *)
(** * The file abstraction ([hatp-engine/src/file_io.rs])

    [FileIO] is the trait; [RealFileIO] holds a handle to a file of a file system,
    [FakeFileIO] a map from names to contents that tests use in its place.  The file
    system has inodes, each with its contents and how much of them is synced, and
    names for them; a handle keeps its inode when the name is given to another. *)

From Stdlib Require Import Strings.String.
From stdpp Require Import base tactics list option gmap.
From S2P Require Import Prelude OrdMap Types Version Wal.
#[local] Open Scope Z_scope.

(** ** Paths *)

(** A directory and a file name. *)
Record FilePath := mkPath { fp_parent : bytes; fp_name : bytes }.
Definition path_key (p : FilePath) : bytes := fp_parent p ++ [x2f] ++ fp_name p.

(** The part of a name before its last dot, if the dot is not at its start. *)
Fixpoint before_last_dot (name : bytes) : option bytes :=
  match name with
  | [] => None
  | c :: rest =>
      match before_last_dot rest with
      | Some stem => Some (c :: stem)
      | None => if b2z c =? 46 then Some [] else None
      end
  end.
Definition file_stem (name : bytes) : bytes :=
  match before_last_dot name with
  | Some (c :: stem) => c :: stem
  | _ => name
  end.
(** [Path::with_extension] *)
Definition with_extension (p : FilePath) (ext : bytes) : FilePath :=
  mkPath (fp_parent p) (file_stem (fp_name p) ++ [x2e] ++ ext).
Definition tmp_ext : bytes := [x74; x6d; x70].

(** ** The trait *)

(** The outcomes of the system calls of a method are its last argument. *)
Record AtomicIo := mkAtomicIo { ai_write : IoOutcome; ai_rename : IoOutcome; ai_sync : IoOutcome }.
Class FileIO (F : Type) := {
  io_write_all : F -> bytes -> IoOutcome -> F * Result unit;
  io_sync_data : F -> IoOutcome -> F * Result unit;
  io_set_len : F -> Z -> IoOutcome -> F * Result unit;
  io_read_all : F -> Result bytes;
  io_write_atomic : F -> FilePath -> bytes -> AtomicIo -> F * Result unit;
}.

(** ** [RealFileIO] *)

Record Disk := mkDisk { d_inodes : gmap Z LogFile; d_names : omap bytes Z; d_next : Z }.
Record RealFileIO := mkReal { rf_disk : Disk; rf_inode : Z }.

Definition empty_file : LogFile := {| lf_contents := []; lf_durable := 0 |}.
Definition inode (d : Disk) (i : Z) : LogFile := default empty_file (d_inodes d !! i).
Definition set_inode (d : Disk) (i : Z) (f : LogFile) : Disk := mkDisk (<[i := f]> (d_inodes d)) (d_names d) (d_next d).

(** The inode of a name, created when there is none. *)
Definition open_name (d : Disk) (name : bytes) : Disk * Z :=
  match om_get name (d_names d) with
  | Some i => (d, i)
  | None => (mkDisk (<[d_next d := empty_file]> (d_inodes d)) (om_insert name (d_next d) (d_names d)) (d_next d + 1), d_next d)
  end.

Definition open_append_real (d : Disk) (path : FilePath) : RealFileIO :=
  let '(d, i) := open_name d (path_key path) in mkReal d i.

(** [File::set_len]: cuts the file off or fills it up with zeros. *)
Definition resize (f : LogFile) (len : Z) : LogFile :=
  {| lf_contents := take (Z.to_nat len) (lf_contents f) ++ replicate (Z.to_nat len - length (lf_contents f)) x00;
     lf_durable := Z.min (lf_durable f) len |}.

Definition real_set_len (r : RealFileIO) (len : Z) (io : IoOutcome) : RealFileIO * Result unit :=
  match io with
  | IoOk => (mkReal (set_inode (rf_disk r) (rf_inode r) (resize (inode (rf_disk r) (rf_inode r)) len)) (rf_inode r), Ok tt)
  | IoErr _ msg => (r, Err (Io msg))
  end.

(** [fs::write]: opens and empties the file, then writes. *)
Definition fs_write (d : Disk) (name data : bytes) (io : IoOutcome) : Disk * Result unit :=
  let '(d, i) := open_name d name in
  let '(f, r) := write_all empty_file data io in (set_inode d i f, r).

Definition fs_rename (d : Disk) (from to : bytes) : Disk :=
  match om_get from (d_names d) with
  | Some i => mkDisk (d_inodes d) (om_insert to i (om_remove from (d_names d))) (d_next d)
  | None => d
  end.

Definition real_write_atomic (r : RealFileIO) (path : FilePath) (data : bytes) (io : AtomicIo) : RealFileIO * Result unit :=
  let tmp := path_key (with_extension path tmp_ext) in
  let '(d, w) := fs_write (rf_disk r) tmp data (ai_write io) in
  let r := mkReal d (rf_inode r) in
  match w with
  | Err err => (r, Err err)
  | Ok _ =>
      match ai_rename io with
      | IoErr _ msg => (r, Err (Io msg))
      | IoOk =>
          let r := mkReal (fs_rename d tmp (path_key path)) (rf_inode r) in
          match fp_parent path, ai_sync io with
          | _ :: _, IoErr _ msg => (r, Err (Io msg))
          | _, _ => (r, Ok tt)
          end
      end
  end.

#[global] Instance real_file_io : FileIO RealFileIO := {|
  io_write_all r buf io :=
    let '(f, res) := write_all (inode (rf_disk r) (rf_inode r)) buf io in
    (mkReal (set_inode (rf_disk r) (rf_inode r) f) (rf_inode r), res);
  io_sync_data r io :=
    let '(f, res) := file_sync_data (inode (rf_disk r) (rf_inode r)) io in
    (mkReal (set_inode (rf_disk r) (rf_inode r) f) (rf_inode r), res);
  io_set_len := real_set_len;
  io_read_all r := Ok (lf_contents (inode (rf_disk r) (rf_inode r)));
  io_write_atomic := real_write_atomic;
|}.

(** ** [FakeFileIO] *)

Record FakeFileIO := mkFake { ff_files : omap bytes bytes; ff_current : bytes; ff_cursor : Z }.

Definition fake_new (name : bytes) : FakeFileIO := mkFake [] name 0.
Definition fake_get (f : FakeFileIO) (name : bytes) : option bytes := om_get name (ff_files f).
Definition fake_corrupt (f : FakeFileIO) (name data : bytes) : FakeFileIO :=
  mkFake (om_insert name data (ff_files f)) (ff_current f) (ff_cursor f).

(** No call of the fake fails. *)
#[global] Instance fake_file_io : FileIO FakeFileIO := {|
  io_write_all f buf _ := (mkFake (om_entry (ff_current f) [] (fun entry => entry ++ buf) (ff_files f)) (ff_current f) (ff_cursor f), Ok tt);
  io_sync_data f _ := (f, Ok tt);
  io_set_len f len _ :=
    (mkFake (match om_get (ff_current f) (ff_files f) with
             | Some entry => om_insert (ff_current f) (take (Z.to_nat len) entry) (ff_files f)
             | None => ff_files f
             end) (ff_current f) 0, Ok tt);
  io_read_all f := Ok (default [] (om_get (ff_current f) (ff_files f)));
  io_write_atomic f path data _ := (mkFake (om_insert (path_key path) data (ff_files f)) (ff_current f) (ff_cursor f), Ok tt);
|}.

(** ** The fake in place of the real one *)

Inductive FileOp := FoWrite (buf : bytes) | FoSync | FoSetLen (len : Z) | FoRead | FoAtomic (path : FilePath) (data : bytes).
Definition atomic_ok : AtomicIo := mkAtomicIo IoOk IoOk IoOk.

(** A call whose system calls succeed, with what it returns. *)
Definition file_step {F} `{FileIO F} (f : F) (op : FileOp) : F * Result bytes :=
  let answer (x : F * Result unit) := (x.1, let? _ := x.2 in Ok []) in
  match op with
  | FoWrite buf => answer (io_write_all f buf IoOk)
  | FoSync => answer (io_sync_data f IoOk)
  | FoSetLen len => answer (io_set_len f len IoOk)
  | FoRead => (f, io_read_all f)
  | FoAtomic path data => answer (io_write_atomic f path data atomic_ok)
  end.
Fixpoint file_run {F} `{FileIO F} (f : F) (ops : list FileOp) : list (Result bytes) :=
  match ops with
  | [] => []
  | op :: ops => let '(f, r) := file_step f op in r :: file_run f ops
  end.

(** Calls on which the two agree: lengths within the file, and no atomic write to the
    open file or through it as the temporary one. *)
Definition op_within (own : bytes) (size : Z) (op : FileOp) : Prop :=
  match op with
  | FoSetLen len => 0 <= len <= size
  | FoAtomic path _ => path_key path <> own /\ path_key (with_extension path tmp_ext) <> own
  | _ => True
  end.
Fixpoint ops_within (f : FakeFileIO) (ops : list FileOp) : Prop :=
  match ops with
  | [] => True
  | op :: ops =>
      op_within (ff_current f) (blen (default [] (om_get (ff_current f) (ff_files f)))) op /\ ops_within (file_step f op).1 ops
  end.

(** The handle's inode has the contents of the fake's current file, and no other name. *)
Record same_file (r : RealFileIO) (f : FakeFileIO) : Prop := {
  sf_contents : lf_contents (inode (rf_disk r) (rf_inode r)) = default [] (om_get (ff_current f) (ff_files f));
  sf_own : forall name, name <> ff_current f -> om_get name (d_names (rf_disk r)) <> Some (rf_inode r);
  sf_next : rf_inode r < d_next (rf_disk r);
}.

Lemma inode_set d i j f : inode (set_inode d i f) j = if decide (i = j) then f else inode d j.
Proof. unfold inode, set_inode. cbn. rewrite lookup_insert. by case_decide. Qed.

Lemma take_resize f len : 0 <= len <= blen (lf_contents f) -> lf_contents (resize f len) = take (Z.to_nat len) (lf_contents f).
Proof.
  unfold resize, blen. cbn. intros Hl. replace (Z.to_nat len - length (lf_contents f))%nat with 0%nat by lia. by rewrite app_nil_r.
Qed.

(** Opening a name other than the handle's does not touch the handle's inode. *)
Lemma open_name_other d name i own d' j :
  open_name d name = (d', j) -> (forall n, n <> own -> om_get n (d_names d) <> Some i) -> i < d_next d -> name <> own ->
  j <> i /\ inode d' i = inode d i /\ i < d_next d' /\ (forall n, n <> own -> om_get n (d_names d') <> Some i) /\
  om_get name (d_names d') = Some j.
Proof.
  unfold open_name. intros Ho Hown Hi Hn. destruct (om_get name (d_names d)) as [k|] eqn:E; injection Ho as <- <-.
  - split; [|done]. intros ->. by apply (Hown name).
  - cbn. split; [lia|]. split; [unfold inode; cbn; by rewrite lookup_insert_ne by lia|]. split; [lia|]. split.
    + intros n Hne. rewrite om_get_insert. destruct (eqc n name); [intros [=]; lia|]. by apply Hown.
    + apply om_get_insert_eq.
Qed.

Lemma atomic_same r f path data :
  same_file r f -> path_key path <> ff_current f -> path_key (with_extension path tmp_ext) <> ff_current f ->
  (real_write_atomic r path data atomic_ok).2 = Ok tt /\
  same_file (real_write_atomic r path data atomic_ok).1 (io_write_atomic f path data atomic_ok).1.
Proof.
  intros [Hc Hown Hnx] Hp Ht. unfold real_write_atomic, fs_write.
  destruct (open_name (rf_disk r) (path_key (with_extension path tmp_ext))) as [d j] eqn:Eo.
  destruct (open_name_other _ _ _ _ _ _ Eo Hown Hnx Ht) as (Hj & Hin & Hnx' & Hown' & Hget). cbn [write_all empty_file ai_write atomic_ok ai_rename ai_sync].
  unfold fs_rename. cbn [set_inode d_names]. rewrite Hget.
  assert (Hs : same_file (mkReal (mkDisk (d_inodes (set_inode d j {| lf_contents := [] ++ data; lf_durable := 0 |}))
      (om_insert (path_key path) j (om_remove (path_key (with_extension path tmp_ext)) (d_names d))) (d_next d)) (rf_inode r))
      (io_write_atomic f path data atomic_ok).1).
  { split; cbn [rf_disk rf_inode io_write_atomic fake_file_io fst ff_current ff_files d_names d_next].
    - rewrite om_get_insert_ne by congruence. rewrite <- Hc, <- Hin. unfold inode at 1. cbn [set_inode d_inodes].
      by rewrite lookup_insert_ne.
    - intros n Hn. rewrite om_get_insert, om_get_remove. destruct (eqc n (path_key path)); [congruence|].
      case_match; [done|by apply Hown'].
    - done. }
  destruct (fp_parent path); by split.
Qed.

Lemma step_same r f op :
  same_file r f -> op_within (ff_current f) (blen (default [] (om_get (ff_current f) (ff_files f)))) op ->
  (file_step r op).2 = (file_step f op).2 /\ same_file (file_step r op).1 (file_step f op).1.
Proof.
  intros Hs Hop. destruct op as [buf| |len| |path data].
  - destruct Hs as [Hc Hown Hnx]. split; [done|]. split; cbn; [|done..].
    rewrite inode_set, decide_True by done. cbn. rewrite Hc, om_get_entry. by rewrite eqc_refl.
  - destruct Hs as [Hc Hown Hnx]. split; [done|]. split; cbn; [|done..]. by rewrite inode_set, decide_True.
  - destruct Hs as [Hc Hown Hnx]. cbn in Hop. rewrite <- Hc in Hop. split; [done|]. split; cbn; [|by destruct (om_get _ _)..].
    rewrite inode_set, decide_True by done. rewrite take_resize, Hc by done.
    destruct (om_get (ff_current f) (ff_files f)) as [entry|] eqn:E; cbn; [by rewrite om_get_insert_eq|]. rewrite E. by rewrite take_nil.
  - split; [|done]. cbn. by rewrite (sf_contents _ _ Hs).
  - destruct Hop as [Hp Ht]. destruct (atomic_same r f path data Hs Hp Ht) as [Hr Hs']. cbn [file_step fst snd]. split; [|done].
    cbn [io_write_atomic real_file_io]. by rewrite Hr.
Qed.

(** The fake answers as a handle to a new file of an empty file system. *)
Lemma fake_agrees path ops :
  ops_within (fake_new (path_key path)) ops ->
  file_run (open_append_real (mkDisk ∅ [] 0) path) ops = file_run (fake_new (path_key path)) ops.
Proof.
  assert (Hs : same_file (open_append_real (mkDisk ∅ [] 0) path) (fake_new (path_key path))).
  { split; cbn; [done| |lia]. intros name Hn. change (om_get name (om_insert (path_key path) 0 []) <> Some 0). by rewrite om_get_insert_ne. }
  revert Hs. generalize (open_append_real (mkDisk ∅ [] 0) path), (fake_new (path_key path)). induction ops as [|op ops IH]; intros r f Hs; [done|].
  intros [Hop Hops]. destruct (step_same r f op Hs Hop) as [Hr Hs']. cbn [file_run].
  destruct (file_step r op) as [r' x], (file_step f op) as [f' y]. cbn [fst snd] in *. subst y. f_equal. by apply IH.
Qed.

(** Past the end the file system fills up with zeros, the fake does nothing. *)
Definition sample_path : FilePath := mkPath [x64] [x61; x2e; x62].
Lemma fake_set_len_differs :
  let ops := [FoWrite [x31]; FoSetLen 3; FoRead] in
  file_run (open_append_real (mkDisk ∅ [] 0) sample_path) ops = [Ok []; Ok []; Ok [x31; x00; x00]] /\
  file_run (fake_new (path_key sample_path)) ops = [Ok []; Ok []; Ok [x31]].
Proof. vm_compute. split; reflexivity. Qed.

(** An atomic write over the open file: the handle keeps the old file, the fake reads
    the new one. *)
Lemma fake_atomic_differs :
  let ops := [FoWrite [x31]; FoAtomic sample_path [x32]; FoRead] in
  file_run (open_append_real (mkDisk ∅ [] 0) sample_path) ops = [Ok []; Ok []; Ok [x31]] /\
  file_run (fake_new (path_key sample_path)) ops = [Ok []; Ok []; Ok [x32]].
Proof. vm_compute. split; reflexivity. Qed.

(** A successful atomic write gives the name the data, but no byte of them is synced,
    so a crash afterwards may lose them. *)
Lemma atomic_write_unsynced d own path data :
  let r := real_write_atomic (mkReal d own) path data atomic_ok in
  r.2 = Ok tt /\
  exists i, om_get (path_key path) (d_names (rf_disk r.1)) = Some i /\
    inode (rf_disk r.1) i = {| lf_contents := data; lf_durable := 0 |}.
Proof.
  unfold real_write_atomic, fs_write. cbn [rf_disk rf_inode].
  destruct (open_name d (path_key (with_extension path tmp_ext))) as [d' j] eqn:Eo. cbn [write_all empty_file ai_write atomic_ok ai_rename ai_sync].
  assert (Hget : om_get (path_key (with_extension path tmp_ext)) (d_names d') = Some j).
  { unfold open_name in Eo. destruct (om_get _ (d_names d)) eqn:E; injection Eo as <- <-; [done|]. apply om_get_insert_eq. }
  unfold fs_rename. cbn [set_inode d_names]. rewrite Hget. destruct (fp_parent path); cbn [fst snd rf_disk d_names].
  all: split; [done|]; exists j; rewrite om_get_insert_eq; split; [done|]; unfold inode; cbn; by rewrite lookup_insert_eq.
Qed.

(** Targets that differ in their extension share the temporary file. *)
Lemma tmp_shared parent stem a b :
  before_last_dot stem = None -> stem <> [] -> before_last_dot a = None -> before_last_dot b = None ->
  with_extension (mkPath parent (stem ++ [x2e] ++ a)) tmp_ext = with_extension (mkPath parent (stem ++ [x2e] ++ b)) tmp_ext.
Proof.
  assert (Hd : forall s e, before_last_dot s = None -> before_last_dot e = None -> before_last_dot (s ++ [x2e] ++ e) = Some s).
  { induction s as [|c s IH]; intros e Hs He; cbn [app before_last_dot] in *.
    - by rewrite He.
    - destruct (before_last_dot s) eqn:E; [done|]. by rewrite (IH e). }
  intros Hs Hne Ha Hb. unfold with_extension, file_stem. cbn [fp_parent fp_name]. rewrite !Hd by done. by destruct stem.
Qed.
