(* ===== verification/Faults.v ===== *)
(** * Fault injection ([hatp-engine/src/fault_injector.rs])

    The registry of fault points: callbacks by name, hit counts, and whether
    injection is on.  A callback is a closure with state of its own, here a type, a
    state and a step.  [None] is the panic of a count that overflows. *)

From Stdlib Require Import Strings.String.
From stdpp Require Import base tactics list option.
From S2P Require Import Prelude OrdMap Types.
#[local] Open Scope Z_scope.

Inductive FaultAction :=
| FaNone
| FaIoError (kind : string)
| FaError (msg : string)
| FaPause
| FaFailOnNth (n : Z) (action : FaultAction).

(** [Box<dyn FnMut() -> FaultAction>] *)
Record Callback := mkCallback { cb_type : Type; cb_call : cb_type -> cb_type * FaultAction; cb_state : cb_type }.
Definition call (c : Callback) : Callback * FaultAction :=
  let '(s, a) := cb_call c (cb_state c) in (mkCallback (cb_type c) (cb_call c) s, a).

Record FaultRegistry := mkRegistry {
  callbacks : omap bytes Callback;
  hit_counts : omap bytes Z;
  enabled : bool;
}.
Definition registry_new : FaultRegistry := mkRegistry [] [] false.

(** [trigger] *)
Definition trigger (r : FaultRegistry) (name : bytes) : option (FaultRegistry * option FaultAction) :=
  if negb (enabled r) then Some (r, None) else
  count ← checked_add (default 0 (om_get name (hit_counts r))) 1;
  let hits := om_insert name count (hit_counts r) in
  match om_get name (callbacks r) with
  | Some callback =>
      let '(callback, action) := call callback in
      Some (mkRegistry (om_insert name callback (callbacks r)) hits (enabled r), Some action)
  | None => Some (mkRegistry (callbacks r) hits (enabled r), None)
  end.

Definition hit_count (r : FaultRegistry) (name : bytes) : Z := default 0 (om_get name (hit_counts r)).

(** [fault_point!] of a test build: the action is dropped; elsewhere it is nothing. *)
Definition fault_point (test_build : bool) (r : FaultRegistry) (name : bytes) : option FaultRegistry :=
  if test_build then fst <$> trigger r name else Some r.

(** [FaultInjector::enable], and its drop in a test build. *)
Definition enable (r : FaultRegistry) : FaultRegistry := mkRegistry [] [] true.
Definition injector_drop (r : FaultRegistry) : FaultRegistry := mkRegistry [] [] false.

Definition set_callback (r : FaultRegistry) (name : bytes) (callback : Callback) : FaultRegistry :=
  mkRegistry (om_insert name callback (callbacks r)) (hit_counts r) (enabled r).

(** The closure of [set_fail_on_nth]: its captured counter, which never passes the
    hit count of the point. *)
Definition nth_callback (n : Z) (action : FaultAction) : Callback :=
  mkCallback Z (fun count => let count := wrap64 (count + 1) in (count, if count =? n then action else FaNone)) 0.
Definition set_fail_on_nth (r : FaultRegistry) (name : bytes) (n : Z) (action : FaultAction) : FaultRegistry :=
  set_callback r name (nth_callback n action).

(** The answers of [k] calls of one point. *)
Fixpoint trigger_times (k : nat) (r : FaultRegistry) (name : bytes) : option (FaultRegistry * list (option FaultAction)) :=
  match k with
  | O => Some (r, [])
  | S k => '(r, acts) ← trigger_times k r name; '(r, a) ← trigger r name; Some (r, acts ++ [a])
  end.

(** The point fails on its [n]th call and on no other, whatever was registered before,
    and its count is the number of calls. *)
Lemma fails_on_nth (r : FaultRegistry) (name : bytes) (n : Z) (action : FaultAction) (k : nat) :
  Z.of_nat k <= u64_max ->
  exists r', trigger_times k (set_fail_on_nth (enable r) name n action) name =
    Some (r', map (fun i => Some (if Z.of_nat i + 1 =? n then action else FaNone)) (seq 0 k)) /\
    hit_count r' name = Z.of_nat k.
Proof.
  intros Hk. set (cb c := mkCallback Z (cb_call (nth_callback n action)) c).
  assert (Hr : exists r', trigger_times k (set_fail_on_nth (enable r) name n action) name =
      Some (r', map (fun i => Some (if Z.of_nat i + 1 =? n then action else FaNone)) (seq 0 k)) /\
      hit_count r' name = Z.of_nat k /\ enabled r' = true /\ om_get name (callbacks r') = Some (cb (Z.of_nat k))).
  { induction k as [|k IH].
    { eexists. split; [done|]. split; [done|]. split; [done|]. apply om_get_insert_eq. }
    destruct IH as (r1 & E & Hh & He & Hc); [lia|]. cbn [trigger_times]. rewrite E. cbn [mbind option_bind].
    unfold trigger. rewrite He. cbn [negb]. unfold hit_count in Hh. rewrite Hh. unfold checked_add.
    rewrite (proj2 (Z.leb_le _ _)) by lia. cbn [mbind option_bind]. rewrite Hc. cbn [call cb cb_call cb_state cb_type nth_callback].
    unfold wrap64. rewrite Z.mod_small by (unfold u64_max in Hk; lia). eexists. split.
    { rewrite seq_S, map_app. reflexivity. }
    unfold hit_count. cbn [hit_counts callbacks enabled]. rewrite !om_get_insert_eq. cbn [default]. replace (Z.of_nat (S k)) with (Z.of_nat k + 1) by lia. done. }
  destruct Hr as (r' & E & Hh & _). by exists r'.
Qed.

(** A fault point goes on whatever the callback answers: only the registry changes. *)
Lemma fault_point_passes (r : FaultRegistry) (name : bytes) (cb : Callback) :
  hit_count r name < u64_max -> exists r', fault_point true (set_callback r name cb) name = Some r'.
Proof.
  intros Hh. unfold fault_point, trigger. cbn [enabled set_callback hit_counts callbacks]. destruct (enabled r); [|by eexists].
  unfold hit_count in Hh. cbn [negb]. unfold checked_add. rewrite (proj2 (Z.leb_le _ _)) by lia. cbn [mbind option_bind].
  rewrite om_get_insert_eq. destruct (call cb). by eexists.
Qed.
