(* ===== verification/MemTable.v ===== *)
(** * The memtable ([hatp-engine/src/memtable.rs])

    The in-memory write buffer: a map from keys to version chains and an
    approximate byte counter.  [MemTableBackend] is the trait, with its default
    methods; [BTreeMapTable] and [SkipMapTable] are its two implementations.
    The contract of the trait is [MemTableLaws]: a backend's state denotes a
    sorted map of well-formed chains, and every operation acts on it as the
    specification functions say.  Both backends satisfy it.

    The skip list and the atomic pointer cells of [SkipMapTable] come from the
    crates [crossbeam_skiplist] and [arc_swap]; they are the classes
    [SkipMapOps] and [ArcSwapOps], with the documented behaviour the memtable
    relies on as their laws, instantiated below by ordered maps and by a heap.
    Writers are serialised by the engine's write guard, so the operations are
    sequential. *)

From Stdlib Require Import Strings.String.
From stdpp Require Import base tactics list option gmap.
From S2P Require Import Prelude OrdMap Types Version Wal.
#[local] Open Scope Z_scope.

(** ** Byte accounting *)

(** [MemTableSize]: a saturating counter. *)
Abbreviation MemTableSize := Z (only parsing).
Definition size_add (s : MemTableSize) (n : Z) : MemTableSize := saturating_add s n.
Definition size_reset (s : MemTableSize) : MemTableSize := 0.

(** Bytes charged for a put and for a delete. *)
Definition put_cost (key val : bytes) : Z :=
  saturating_add (saturating_add (blen key) (blen val)) 24.
Definition delete_cost (key : bytes) : Z := saturating_add (blen key) 24.

Record VersionedRow := mkRow { row_key : bytes; row_version : VersionedValue }.

(** ** Prefix ranges *)

(** The [while] loop on the reversed vector: pop [0xFF]s, bump the last byte. *)
Fixpoint bump_last (rev_upper : bytes) : option bytes :=
  match rev_upper with
  | [] => None
  | last :: rest =>
      if b2z last =? 255 then bump_last rest else Some (z2b (b2z last + 1) :: rest)
  end.

Definition prefix_upper_exclusive (prefix : bytes) : bytes :=
  match bump_last (rev prefix) with
  | Some u => rev u
  | None => prefix
  end.

(** ** The trait *)

Abbreviation KeyVersions := (list (bytes * VersionedValue)).

(** [None] results are panics ([BTreeMap::range] with start after end). *)
Class MemTableBackend (T : Type) := {
  mt_default : T;
  mt_apply_records_batch : T -> list WalRecord -> TxnTs -> T * Result unit;
  mt_apply_mutations_batch : T -> Z -> list Mutation -> TxnTs -> T * Result unit;
  mt_get : T -> bytes -> Snapshot -> option VersionedValue;
  mt_scan_prefix_versions : T -> bytes -> Snapshot -> option KeyVersions;
  mt_scan_range_versions : T -> bytes -> bytes -> Snapshot -> option KeyVersions;
  mt_all_versions : T -> list VersionedRow;
  mt_drain_into : T -> list VersionedRow -> list VersionedRow;
  mt_garbage_collect : T -> TxnTs -> T * Z;
  mt_clear : T -> T;
  mt_erase_prefix : T -> bytes -> option (T * Z);
  mt_approximate_bytes : T -> Z;
  mt_len : T -> Z;
  mt_is_empty : T -> bool;
}.

(** The default method [scan_prefix]. *)
Definition mt_scan_prefix {T} `{MemTableBackend T} (t : T) (prefix : bytes) (s : Snapshot)
  : option (list (bytes * bytes)) :=
  rows ← mt_scan_prefix_versions t prefix s;
  Some (List.flat_map (fun '(key, version) =>
          match value version with Some v => [(key, v)] | None => [] end) rows).

(** The default method [drain_into]. *)
Definition drain_into_default (all : list VersionedRow) (out : list VersionedRow)
  : list VersionedRow := out ++ all.

(** ** [BTreeMapTable] *)

Record BTreeMapTable := mkBT { bt_entries : omap bytes VersionChain; bt_bytes : MemTableSize }.

(** One iteration of the batch loops: splice a version into the key's chain and
    charge its bytes. *)
Definition bt_put (t : BTreeMapTable) (key val : bytes) (commit_ts tx : Z) : BTreeMapTable :=
  mkBT (om_entry key [] (fun chain => chain_insert chain (live val commit_ts tx)) (bt_entries t))
       (size_add (bt_bytes t) (put_cost key val)).

Definition bt_delete (t : BTreeMapTable) (key : bytes) (commit_ts tx : Z) : BTreeMapTable :=
  mkBT (om_entry key [] (fun chain => chain_insert chain (tombstone commit_ts tx)) (bt_entries t))
       (size_add (bt_bytes t) (delete_cost key)).

Fixpoint bt_apply_records_batch (t : BTreeMapTable) (records : list WalRecord)
    (commit_ts : TxnTs) : BTreeMapTable * Result unit :=
  match records with
  | [] => (t, Ok tt)
  | r :: rest =>
      match wr_op r with
      | Put =>
          match wr_value r with
          | Some v => bt_apply_records_batch (bt_put t (wr_key r) v commit_ts (wr_tx_id r)) rest commit_ts
          | None => (t, Err (Corrupt "put WAL record has no value"))
          end
      | Delete => bt_apply_records_batch (bt_delete t (wr_key r) commit_ts (wr_tx_id r)) rest commit_ts
      | Commit | Abort => bt_apply_records_batch t rest commit_ts
      end
  end.

Fixpoint bt_apply_mutations_batch (t : BTreeMapTable) (tx : Z) (ms : list Mutation)
    (commit_ts : TxnTs) : BTreeMapTable * Result unit :=
  match ms with
  | [] => (t, Ok tt)
  | MPut key v :: rest => bt_apply_mutations_batch (bt_put t key v commit_ts tx) tx rest commit_ts
  | MDelete key :: rest => bt_apply_mutations_batch (bt_delete t key commit_ts tx) tx rest commit_ts
  end.

Definition bt_get (t : BTreeMapTable) (key : bytes) (s : Snapshot) : option VersionedValue :=
  chain ← om_get key (bt_entries t); chain_get chain s.

(** The loop of the scans: the visible version of every chain it visits. *)
Definition push_visible (keep : bytes -> bool) (s : Snapshot) (m : omap bytes VersionChain)
  : KeyVersions :=
  List.flat_map (fun '(key, chain) =>
    if negb (keep key) then []
    else match chain_get chain s with Some v => [(key, v)] | None => [] end) m.

Definition bt_scan_prefix_versions (t : BTreeMapTable) (prefix : bytes) (s : Snapshot)
  : option KeyVersions :=
  r ← om_range prefix (prefix_upper_exclusive prefix) (bt_entries t);
  Some (push_visible (fun key => starts_with key prefix) s r).

Definition bt_scan_range_versions (t : BTreeMapTable) (lower upper : bytes) (s : Snapshot)
  : option KeyVersions :=
  r ← om_range lower upper (bt_entries t);
  Some (push_visible (fun _ => true) s r).

Definition chain_rows (e : bytes * VersionChain) : list VersionedRow := map (mkRow e.1) e.2.

Definition bt_all_versions (t : BTreeMapTable) : list VersionedRow :=
  List.flat_map chain_rows (bt_entries t).

(** The sum counts versions held in memory, so it cannot exceed [usize]. *)
Definition bt_garbage_collect (t : BTreeMapTable) (oldest : TxnTs) : BTreeMapTable * Z :=
  (mkBT (om_map (fun c => (chain_garbage_collect c oldest).1) (bt_entries t)) (bt_bytes t),
   foldr Z.add 0 (map (fun e => Z.of_nat (chain_garbage_collect e.2 oldest).2) (bt_entries t))).

Definition bt_clear (t : BTreeMapTable) : BTreeMapTable := mkBT [] (size_reset (bt_bytes t)).

Definition bt_erase_prefix (t : BTreeMapTable) (prefix : bytes) : option (BTreeMapTable * Z) :=
  r ← om_range prefix (prefix_upper_exclusive prefix) (bt_entries t);
  let keys := om_keys r in
  Some (mkBT (fold_left (fun m key => om_remove key m) keys (bt_entries t)) (bt_bytes t),
        Z.of_nat (length keys)).

#[export] Instance BTreeMap_backend : MemTableBackend BTreeMapTable := {|
  mt_default := mkBT [] 0;
  mt_apply_records_batch := bt_apply_records_batch;
  mt_apply_mutations_batch := bt_apply_mutations_batch;
  mt_get := bt_get;
  mt_scan_prefix_versions := bt_scan_prefix_versions;
  mt_scan_range_versions := bt_scan_range_versions;
  mt_all_versions := bt_all_versions;
  mt_drain_into t out := drain_into_default (bt_all_versions t) out;
  mt_garbage_collect := bt_garbage_collect;
  mt_clear := bt_clear;
  mt_erase_prefix := bt_erase_prefix;
  mt_approximate_bytes := bt_bytes;
  mt_len t := Z.of_nat (length (bt_entries t));
  mt_is_empty t := match bt_entries t with [] => true | _ => false end;
|}.

(** ** [SkipMapTable] *)

(** [crossbeam_skiplist::SkipMap<Bytes, V>], the methods the memtable calls. *)
Class SkipMapOps (V SM : Type) := {
  sm_new : SM;
  sm_get : SM -> bytes -> option V;
  sm_get_or_insert : SM -> bytes -> V -> SM * V;
  sm_remove : SM -> bytes -> SM;
  sm_range : SM -> bytes -> bytes -> list (bytes * V);
  sm_iter : SM -> list (bytes * V);
  sm_clear : SM -> SM;
  sm_len : SM -> Z;
  sm_is_empty : SM -> bool;
}.

(** Its documented behaviour: an ordered map.  A range whose start is after its
    end is empty. *)
Class SkipMapLaws (V SM : Type) `{SkipMapOps V SM} := {
  sm_sorted : forall m, om_sorted (sm_iter m);
  sm_iter_new : sm_iter sm_new = [];
  sm_get_ok : forall m k, sm_get m k = om_get k (sm_iter m);
  sm_get_or_insert_ok : forall m k v,
    sm_iter (sm_get_or_insert m k v).1 =
      match om_get k (sm_iter m) with Some _ => sm_iter m | None => om_insert k v (sm_iter m) end /\
    (sm_get_or_insert m k v).2 = default v (om_get k (sm_iter m));
  sm_remove_ok : forall m k, sm_iter (sm_remove m k) = om_remove k (sm_iter m);
  sm_range_ok : forall m lo hi, sm_range m lo hi = om_filter_range lo hi (sm_iter m);
  sm_clear_ok : forall m, sm_iter (sm_clear m) = [];
  sm_len_ok : forall m, sm_len m = Z.of_nat (length (sm_iter m));
  sm_is_empty_ok : forall m, sm_is_empty m = match sm_iter m with [] => true | _ => false end;
}.

(** [arc_swap::ArcSwap<A>] cells, allocated in a heap. *)
Class ArcSwapOps (A Cell Heap : Type) := {
  as_empty : Heap;
  as_from_pointee : Heap -> A -> Cell * Heap;
  as_load_full : Heap -> Cell -> A;
  as_store : Heap -> Cell -> A -> Heap;
  as_rcu : Heap -> Cell -> (A -> A) -> Heap;
}.

Class ArcSwapLaws (A Cell Heap : Type) `{ArcSwapOps A Cell Heap} := {
  as_live : Heap -> Cell -> Prop;
  as_new_ok : forall h a c h', as_from_pointee h a = (c, h') ->
    ~ as_live h c /\ as_live h' c /\ as_load_full h' c = a /\
    forall c', as_live h c' -> as_live h' c' /\ as_load_full h' c' = as_load_full h c';
  as_store_live : forall h c a c', as_live h c' -> as_live (as_store h c a) c';
  as_load_store : forall h c a, as_live h c -> as_load_full (as_store h c a) c = a;
  as_load_store_ne : forall h c c' a, c' <> c -> as_load_full (as_store h c a) c' = as_load_full h c';
  as_rcu_ok : forall h c f, as_rcu h c f = as_store h c (f (as_load_full h c));
}.

Section SkipMapTable.
Context {Cell SM Heap : Type} `{SkipMapOps Cell SM} `{ArcSwapOps VersionChain Cell Heap}.

Record SkipMapTable := mkSK { sk_entries : SM; sk_heap : Heap; sk_bytes : MemTableSize }.

(** [get_or_insert] of a freshly allocated empty chain, then [rcu] on the
    entry's cell and the byte charge: the body of the batch loops. *)
Definition sk_update (t : SkipMapTable) (key : bytes) (version : VersionedValue) (cost : Z)
  : SkipMapTable :=
  let '(cell, heap) := as_from_pointee (sk_heap t) [] in
  let '(entries, swap) := sm_get_or_insert (sk_entries t) key cell in
  mkSK entries (as_rcu heap swap (fun current => chain_insert current version))
       (size_add (sk_bytes t) cost).

Fixpoint sk_apply_records_batch (t : SkipMapTable) (records : list WalRecord)
    (commit_ts : TxnTs) : SkipMapTable * Result unit :=
  match records with
  | [] => (t, Ok tt)
  | r :: rest =>
      match wr_op r with
      | Put =>
          match wr_value r with
          | Some v =>
              sk_apply_records_batch
                (sk_update t (wr_key r) (live v commit_ts (wr_tx_id r)) (put_cost (wr_key r) v))
                rest commit_ts
          | None => (t, Err (Corrupt "put WAL record has no value"))
          end
      | Delete =>
          sk_apply_records_batch
            (sk_update t (wr_key r) (tombstone commit_ts (wr_tx_id r)) (delete_cost (wr_key r)))
            rest commit_ts
      | Commit | Abort => sk_apply_records_batch t rest commit_ts
      end
  end.

Fixpoint sk_apply_mutations_batch (t : SkipMapTable) (tx : Z) (ms : list Mutation)
    (commit_ts : TxnTs) : SkipMapTable * Result unit :=
  match ms with
  | [] => (t, Ok tt)
  | MPut key v :: rest =>
      sk_apply_mutations_batch (sk_update t key (live v commit_ts tx) (put_cost key v)) tx rest commit_ts
  | MDelete key :: rest =>
      sk_apply_mutations_batch (sk_update t key (tombstone commit_ts tx) (delete_cost key)) tx rest commit_ts
  end.

Definition sk_get (t : SkipMapTable) (key : bytes) (s : Snapshot) : option VersionedValue :=
  entry ← sm_get (sk_entries t) key; chain_get (as_load_full (sk_heap t) entry) s.

Definition sk_load (t : SkipMapTable) (es : list (bytes * Cell)) : omap bytes VersionChain :=
  om_map (as_load_full (sk_heap t)) es.

Definition sk_scan_prefix_versions (t : SkipMapTable) (prefix : bytes) (s : Snapshot)
  : option KeyVersions :=
  Some (push_visible (fun key => starts_with key prefix) s
          (sk_load t (sm_range (sk_entries t) prefix (prefix_upper_exclusive prefix)))).

Definition sk_scan_range_versions (t : SkipMapTable) (lower upper : bytes) (s : Snapshot)
  : option KeyVersions :=
  Some (push_visible (fun _ => true) s (sk_load t (sm_range (sk_entries t) lower upper))).

Definition sk_all_versions (t : SkipMapTable) : list VersionedRow :=
  List.flat_map chain_rows (sk_load t (sm_iter (sk_entries t))).

(** [drain_into] with its one-version fast path. *)
Definition sk_drain_entry (out : list VersionedRow) (e : bytes * VersionChain)
  : list VersionedRow :=
  match e.2 with
  | [v] => out ++ [mkRow e.1 v]
  | vs => fold_left (fun out v => out ++ [mkRow e.1 v]) vs out
  end.

Definition sk_drain_into (t : SkipMapTable) (out : list VersionedRow) : list VersionedRow :=
  fold_left sk_drain_entry (sk_load t (sm_iter (sk_entries t))) out.

(** One iteration of [garbage_collect]: store only when something was dropped. *)
Definition sk_gc_entry (oldest : TxnTs) (acc : Heap * Z) (e : bytes * Cell) : Heap * Z :=
  let '(heap, dropped) := acc in
  let current := as_load_full heap e.2 in
  let new := (chain_garbage_collect current oldest).1 in
  let before := Z.of_nat (length current) in
  let after := Z.of_nat (length new) in
  (if negb (before =? after) then as_store heap e.2 new else heap,
   saturating_add dropped (saturating_sub before after)).

Definition sk_garbage_collect (t : SkipMapTable) (oldest : TxnTs) : SkipMapTable * Z :=
  let '(heap, dropped) :=
    fold_left (sk_gc_entry oldest) (sm_iter (sk_entries t)) (sk_heap t, 0) in
  (mkSK (sk_entries t) heap (sk_bytes t), dropped).

Definition sk_clear (t : SkipMapTable) : SkipMapTable :=
  mkSK (sm_clear (sk_entries t)) (sk_heap t) (size_reset (sk_bytes t)).

Definition sk_erase_prefix (t : SkipMapTable) (prefix : bytes) : option (SkipMapTable * Z) :=
  let keys := map fst (sm_range (sk_entries t) prefix (prefix_upper_exclusive prefix)) in
  Some (mkSK (fold_left sm_remove keys (sk_entries t)) (sk_heap t) (sk_bytes t),
        Z.of_nat (length keys)).

#[export] Instance SkipMap_backend : MemTableBackend SkipMapTable := {|
  mt_default := mkSK sm_new as_empty 0;
  mt_apply_records_batch := sk_apply_records_batch;
  mt_apply_mutations_batch := sk_apply_mutations_batch;
  mt_get := sk_get;
  mt_scan_prefix_versions := sk_scan_prefix_versions;
  mt_scan_range_versions := sk_scan_range_versions;
  mt_all_versions := sk_all_versions;
  mt_drain_into := sk_drain_into;
  mt_garbage_collect := sk_garbage_collect;
  mt_clear := sk_clear;
  mt_erase_prefix := sk_erase_prefix;
  mt_approximate_bytes := sk_bytes;
  mt_len t := sm_len (sk_entries t);
  mt_is_empty t := sm_is_empty (sk_entries t);
|}.
End SkipMapTable.
Arguments SkipMapTable : clear implicits.

(** ** Prefix ranges select exactly the keys with the prefix *)

(** Some byte of the prefix is not [0xFF]: the range has a finite end. *)
Definition finite_prefix (p : bytes) : bool := existsb (fun b => negb (b2z b =? 255)) p.

Lemma bump_last_split p :
  finite_prefix p = true ->
  exists q b n, p = q ++ b :: replicate n (z2b 255) /\ b2z b < 255 /\
    bump_last (rev p) = Some (z2b (b2z b + 1) :: rev q).
Proof.
  revert p. induction p as [|x p IH] using rev_ind; [done|]. unfold finite_prefix.
  rewrite existsb_app, rev_app_distr. simpl. rewrite orb_false_r.
  destruct (b2z x =? 255) eqn:E; zbool; simpl.
  - rewrite orb_false_r. intros (q & b & n & -> & Hb & Hu)%IH. exists q, b, (S n).
    split; [|done]. rewrite replicate_S_end, <- app_assoc. simpl. do 4 f_equal.
    rewrite <- (z2b_b2z x). by f_equal.
  - intros _. exists p, x, 0%nat. pose proof (b2z_range x).
    split; [done|]. split; [lia|done].
Qed.

Lemma prefix_upper_split p :
  finite_prefix p = true ->
  exists q b n, p = q ++ b :: replicate n (z2b 255) /\ b2z b < 255 /\
    prefix_upper_exclusive p = q ++ [z2b (b2z b + 1)].
Proof.
  intros (q & b & n & Hp & Hb & Hu)%bump_last_split. exists q, b, n. split; [done|].
  split; [done|]. unfold prefix_upper_exclusive. rewrite Hu. simpl. by rewrite rev_involutive.
Qed.

Lemma infinite_prefix_upper p : finite_prefix p = false -> prefix_upper_exclusive p = p.
Proof.
  intros Hf. unfold prefix_upper_exclusive.
  assert (Hn : bump_last (rev p) = None); [|by rewrite Hn].
  induction p as [|x p IH] using rev_ind; [done|]. unfold finite_prefix in *.
  rewrite existsb_app in Hf. apply orb_false_iff in Hf as [Hp Hx]. simpl in Hx.
  rewrite rev_app_distr. simpl. destruct (b2z x =? 255); [by apply IH|done].
Qed.

Lemma le_all_ff n k : cle (replicate n (z2b 255)) k -> starts_with k (replicate n (z2b 255)) = true.
Proof.
  revert k. induction n as [|n IH]; intros k; [done|]. cbn [replicate starts_with].
  destruct k as [|y k]; [by intros []|]. unfold cle. cbn [cmp bytes_cmp bcmp]. change (b2z (z2b 255)) with 255.
  pose proof (b2z_range y). destruct (Z.compare_spec 255 (b2z y)) as [Heq| |]; [|lia|by intros []].
  intros Hle. assert (y = z2b 255) as -> by (apply b2z_inj; by rewrite <- Heq).
  rewrite bool_decide_true by done. by apply IH.
Qed.

Lemma prefix_range_spec p k :
  finite_prefix p = true -> in_range p (prefix_upper_exclusive p) k = starts_with k p.
Proof.
  intros (q & b & n & -> & Hb & ->)%prefix_upper_split. pose proof (b2z_range b).
  apply eq_true_iff_eq. unfold in_range. rewrite andb_true_iff, lec_spec, ltc_spec. split.
  - revert k. induction q as [|x q IH]; intros k; simpl.
    + unfold cle, clt. destruct k as [|y k]; [by intros [[] _]|]. simpl.
      rewrite b2z_z2b, Z.mod_small by lia.
      destruct (Z.compare_spec (b2z b) (b2z y)) as [Heq| |].
      * intros [Hle _]. apply b2z_inj in Heq as ->. rewrite bool_decide_true by done.
        by apply le_all_ff.
      * destruct (Z.compare_spec (b2z y) (b2z b + 1)); [|lia|by intros []].
        destruct k; by intros [].
      * by intros [].
    + destruct k as [|y k]; [by intros [[] _]|]. unfold cle, clt in *. simpl.
      rewrite (Z.compare_antisym (b2z x) (b2z y)).
      destruct (Z.compare_spec (b2z x) (b2z y)) as [Heq| |]; simpl; [|by intros []..].
      apply b2z_inj in Heq as ->. rewrite bool_decide_true by done. apply IH.
  - intros [r ->]%starts_with_inv. rewrite <- app_assoc. unfold cle, clt. simpl cmp.
    rewrite !bcmp_app_l. split.
    + change (b :: replicate n (z2b 255) ++ r) with ((b :: replicate n (z2b 255)) ++ r).
      rewrite <- (app_nil_r (b :: replicate n (z2b 255))) at 1. rewrite bcmp_app_l. by destruct r.
    + simpl. rewrite b2z_z2b, Z.mod_small by lia.
      destruct (Z.compare_spec (b2z b) (b2z b + 1)); [lia|done|lia].
Qed.

Lemma prefix_le_upper p : cle p (prefix_upper_exclusive p).
Proof.
  destruct (finite_prefix p) eqn:Hf; [|rewrite infinite_prefix_upper by done; apply cle_refl].
  apply lec_spec. pose proof (prefix_range_spec p p Hf) as Hr.
  rewrite (proj2 (starts_with_spec p p)) in Hr by done.
  apply andb_true_iff in Hr as [_ Hr%ltc_spec]. by apply lec_spec, clt_le.
Qed.

(** ** The contract of a backend *)

(** An edit of the table: a key, the version spliced into its chain, the bytes
    it is charged. *)
Record Edit := mkEdit { ed_key : bytes; ed_version : VersionedValue; ed_cost : Z }.

Definition mutation_edit (tx : Z) (commit_ts : TxnTs) (m : Mutation) : Edit :=
  match m with
  | MPut k v => mkEdit k (live v commit_ts tx) (put_cost k v)
  | MDelete k => mkEdit k (tombstone commit_ts tx) (delete_cost k)
  end.

(** The edits of a record batch, up to the first put without a value. *)
Fixpoint records_edits (commit_ts : TxnTs) (rs : list WalRecord) : list Edit * Result unit :=
  match rs with
  | [] => ([], Ok tt)
  | r :: rest =>
      let '(es, res) := records_edits commit_ts rest in
      match wr_op r with
      | Put =>
          match wr_value r with
          | Some v => (mutation_edit (wr_tx_id r) commit_ts (MPut (wr_key r) v) :: es, res)
          | None => ([], Err (Corrupt "put WAL record has no value"))
          end
      | Delete => (mutation_edit (wr_tx_id r) commit_ts (MDelete (wr_key r)) :: es, res)
      | Commit | Abort => (es, res)
      end
  end.

Definition apply_edit (m : omap bytes VersionChain) (e : Edit) : omap bytes VersionChain :=
  om_entry (ed_key e) [] (fun c => chain_insert c (ed_version e)) m.
Definition apply_edits (m : omap bytes VersionChain) (es : list Edit) : omap bytes VersionChain :=
  fold_left apply_edit es m.
Definition charge_edits (b : Z) (es : list Edit) : Z :=
  fold_left (fun b e => size_add b (ed_cost e)) es b.

(** The denotation of a table: keys in order, every chain well formed. *)
Definition table_wf (m : omap bytes VersionChain) : Prop :=
  om_sorted m /\ forall k c, om_get k m = Some c -> chain_wf c.

Definition gc_map (oldest : TxnTs) (m : omap bytes VersionChain) : omap bytes VersionChain :=
  om_map (fun c => (chain_garbage_collect c oldest).1) m.
Definition gc_dropped (oldest : TxnTs) (m : omap bytes VersionChain) : Z :=
  foldr Z.add 0 (map (fun e => Z.of_nat (chain_garbage_collect e.2 oldest).2) m).
Definition versions_count (m : omap bytes VersionChain) : Z :=
  foldr Z.add 0 (map (fun e => Z.of_nat (length e.2)) m).

(** What the engine relies on.  [mt_map] is the denotation of a table. *)
Class MemTableLaws (T : Type) `{MemTableBackend T} := {
  mt_map : T -> omap bytes VersionChain;
  mt_inv : T -> Prop;
  mt_map_wf : forall t, mt_inv t -> table_wf (mt_map t);
  mt_default_ok : mt_inv mt_default /\ mt_map mt_default = [] /\ mt_approximate_bytes mt_default = 0;
  mt_apply_records_ok : forall t rs cts, mt_inv t -> 0 <= cts < OPEN_ENDED_TS ->
    exists t', mt_apply_records_batch t rs cts = (t', (records_edits cts rs).2) /\ mt_inv t' /\
      mt_map t' = apply_edits (mt_map t) (records_edits cts rs).1 /\
      mt_approximate_bytes t' = charge_edits (mt_approximate_bytes t) (records_edits cts rs).1;
  mt_apply_mutations_ok : forall t tx ms cts, mt_inv t -> 0 <= cts < OPEN_ENDED_TS ->
    exists t', mt_apply_mutations_batch t tx ms cts = (t', Ok tt) /\ mt_inv t' /\
      mt_map t' = apply_edits (mt_map t) (map (mutation_edit tx cts) ms) /\
      mt_approximate_bytes t' =
        charge_edits (mt_approximate_bytes t) (map (mutation_edit tx cts) ms);
  mt_get_ok : forall t k s, mt_inv t -> mt_get t k s = (om_get k (mt_map t) ≫= fun c => chain_get c s);
  mt_scan_prefix_ok : forall t p s, mt_inv t ->
    mt_scan_prefix_versions t p s =
    Some (if finite_prefix p then push_visible (fun k => starts_with k p) s (mt_map t) else []);
  mt_scan_range_ok : forall t lo hi s, mt_inv t -> cle lo hi ->
    mt_scan_range_versions t lo hi s = Some (push_visible (in_range lo hi) s (mt_map t));
  mt_all_ok : forall t, mt_inv t -> mt_all_versions t = List.flat_map chain_rows (mt_map t);
  mt_drain_ok : forall t out, mt_inv t -> mt_drain_into t out = out ++ mt_all_versions t;
  mt_gc_ok : forall t oldest, mt_inv t -> versions_count (mt_map t) <= u64_max ->
    exists t', mt_garbage_collect t oldest = (t', gc_dropped oldest (mt_map t)) /\ mt_inv t' /\
      mt_map t' = gc_map oldest (mt_map t) /\ mt_approximate_bytes t' = mt_approximate_bytes t;
  mt_clear_ok : forall t, mt_inv t ->
    mt_inv (mt_clear t) /\ mt_map (mt_clear t) = [] /\ mt_approximate_bytes (mt_clear t) = 0;
  mt_erase_ok : forall t p, mt_inv t ->
    let doomed k := finite_prefix p && starts_with k p in
    exists t', mt_erase_prefix t p =
        Some (t', Z.of_nat (length (List.filter (fun e => doomed e.1) (mt_map t)))) /\ mt_inv t' /\
      mt_map t' = List.filter (fun e => negb (doomed e.1)) (mt_map t) /\
      mt_approximate_bytes t' = mt_approximate_bytes t;
  mt_len_ok : forall t, mt_inv t -> mt_len t = Z.of_nat (length (mt_map t));
  mt_is_empty_ok : forall t, mt_inv t -> mt_is_empty t = bool_decide (mt_map t = []);
}.

(** *** Lemmas on the specification *)

Lemma filter_filter_andb {A} (p q : A -> bool) l :
  List.filter p (List.filter q l) = List.filter (fun x => q x && p x) l.
Proof.
  induction l as [|x l IH]; simpl; [done|]. destruct (q x); simpl; [|done].
  destruct (p x); by rewrite IH.
Qed.

Lemma push_visible_ext keep keep' s m :
  (forall k, keep k = keep' k) -> push_visible keep s m = push_visible keep' s m.
Proof.
  intros Heq. unfold push_visible. apply flat_map_ext. intros [k c]. by rewrite Heq.
Qed.

Lemma push_visible_filter keep p s (m : omap bytes VersionChain) :
  push_visible keep s (List.filter (fun e => p e.1) m) = push_visible (fun k => p k && keep k) s m.
Proof.
  unfold push_visible. induction m as [|[k c] m IH]; simpl; [done|].
  destruct (p k); simpl; by rewrite IH.
Qed.

Lemma push_visible_none s m : push_visible (fun _ => false) s m = [].
Proof. unfold push_visible. by induction m as [|[k c] m IH]. Qed.

Lemma filter_none {A} (l : list A) : List.filter (fun _ => false) l = [].
Proof. by induction l. Qed.

(** The scan over a prefix range. *)
Definition prefix_keys (p k : bytes) : bool := finite_prefix p && starts_with k p.

Lemma in_range_empty (p k : bytes) : in_range p p k = false.
Proof.
  unfold in_range. destruct (lec p k) eqn:E; [|done]. simpl. apply ltc_false. by cbool.
Qed.

Lemma in_prefix_range p k : in_range p (prefix_upper_exclusive p) k = prefix_keys p k.
Proof.
  unfold prefix_keys. destruct (finite_prefix p) eqn:Hf; [by apply prefix_range_spec|].
  rewrite infinite_prefix_upper by done. apply in_range_empty.
Qed.

Lemma push_visible_prefix p s m :
  push_visible (fun k => starts_with k p) s (om_filter_range p (prefix_upper_exclusive p) m) =
  if finite_prefix p then push_visible (fun k => starts_with k p) s m else [].
Proof.
  unfold om_filter_range. rewrite push_visible_filter.
  rewrite (push_visible_ext _ (prefix_keys p)).
  - unfold prefix_keys. destruct (finite_prefix p); [done|]. apply push_visible_none.
  - intros k. rewrite in_prefix_range. unfold prefix_keys.
    by destruct (finite_prefix p), (starts_with k p).
Qed.

Lemma filter_prefix_range {V} p (m : omap bytes V) :
  om_filter_range p (prefix_upper_exclusive p) m = List.filter (fun e => prefix_keys p e.1) m.
Proof. apply filter_ext. intros e. apply in_prefix_range. Qed.

Lemma fold_remove {V} (ks : list bytes) (m : omap bytes V) :
  fold_left (fun m k => om_remove k m) ks m =
  List.filter (fun e => negb (existsb (fun k => eqc k e.1) ks)) m.
Proof.
  revert m. induction ks as [|k ks IH]; intros m; simpl.
  - induction m; simpl; congruence.
  - rewrite IH. unfold om_remove. rewrite filter_filter_andb. apply filter_ext.
    intros e. by rewrite negb_orb.
Qed.

(** Removing the keys selected by a predicate is filtering by its negation. *)
Lemma fold_remove_keys {V} (p : bytes -> bool) (m : omap bytes V) :
  fold_left (fun m k => om_remove k m) (om_keys (List.filter (fun e => p e.1) m)) m =
  List.filter (fun e => negb (p e.1)) m.
Proof.
  rewrite fold_remove. apply filter_ext_in. intros [k v] Hin. simpl. f_equal.
  apply eq_true_iff_eq. rewrite existsb_exists. split.
  - intros (k' & Hk' & ->%eqc_spec). apply in_map_iff in Hk' as ([k0 v0] & <- & [_ Hp]%filter_In).
    done.
  - intros Hp. exists k. split; [|apply eqc_refl].
    apply in_map_iff. exists (k, v). split; [done|]. by apply filter_In.
Qed.

Lemma table_wf_nil : table_wf [].
Proof. split; [apply om_sorted_nil|done]. Qed.

Lemma apply_edit_wf m e : table_wf m -> fresh_version (ed_version e) -> table_wf (apply_edit m e).
Proof.
  intros [Hs Hc] He. split; [by apply om_sorted_entry|]. intros k c. unfold apply_edit.
  rewrite om_get_entry. destruct (eqc k (ed_key e)); [|by apply Hc]. intros [= <-].
  apply chain_insert_wf; [|done]. destruct (om_get (ed_key e) m) eqn:Hg; [by eapply Hc|done].
Qed.

Lemma apply_edits_wf m es :
  table_wf m -> Forall (fun e => fresh_version (ed_version e)) es -> table_wf (apply_edits m es).
Proof.
  intros Hm Hes. revert m Hm. induction Hes as [|e es He Hes IH]; intros m Hm; [done|].
  apply IH. by apply apply_edit_wf.
Qed.

Lemma mutation_edit_fresh tx cts m :
  0 <= cts < OPEN_ENDED_TS -> fresh_version (ed_version (mutation_edit tx cts m)).
Proof. intros. destruct m; [by apply live_fresh|by apply tombstone_fresh]. Qed.

Lemma mutation_edits_fresh tx cts ms :
  0 <= cts < OPEN_ENDED_TS ->
  Forall (fun e => fresh_version (ed_version e)) (map (mutation_edit tx cts) ms).
Proof. intros. apply Forall_map, Forall_true. intros. by apply mutation_edit_fresh. Qed.

Lemma records_edits_fresh cts rs :
  0 <= cts < OPEN_ENDED_TS ->
  Forall (fun e => fresh_version (ed_version e)) (records_edits cts rs).1.
Proof.
  intros Hc. induction rs as [|r rs IH]; simpl; [done|].
  destruct (records_edits cts rs) as [es res]. simpl in IH.
  destruct (wr_op r); [destruct (wr_value r)| | |]; simpl; try done; constructor; try done.
Qed.

Lemma gc_map_wf oldest m : table_wf m -> table_wf (gc_map oldest m).
Proof.
  intros [Hs Hc]. split; [by apply om_sorted_map|]. intros k c. unfold gc_map.
  rewrite om_get_map. destruct (om_get k m) eqn:Hg; [|done]. intros [= <-].
  by eapply chain_gc_wf, Hc.
Qed.

Lemma table_wf_filter f m : table_wf m -> table_wf (List.filter (fun e => f e.1) m).
Proof.
  intros [Hs Hc]. split; [by apply om_sorted_filter|]. intros k c.
  rewrite (om_get_filter f). destruct (f k); [apply Hc|done].
Qed.

Lemma table_wf_forall m : table_wf m -> Forall (fun e => chain_wf e.2) m.
Proof.
  intros [Hs Hc]. apply List.Forall_forall. intros [k c] Hin. eapply (Hc k). by apply om_In_get.
Qed.

#[export] Hint Resolve table_wf_nil apply_edits_wf mutation_edits_fresh records_edits_fresh
  gc_map_wf table_wf_filter : hatp.

(** *** [BTreeMapTable] satisfies the contract *)

Definition bt_edit (t : BTreeMapTable) (e : Edit) : BTreeMapTable :=
  mkBT (apply_edit (bt_entries t) e) (size_add (bt_bytes t) (ed_cost e)).

Lemma bt_edits_eq t es :
  fold_left bt_edit es t = mkBT (apply_edits (bt_entries t) es) (charge_edits (bt_bytes t) es).
Proof.
  revert t. induction es as [|e es IH]; intros t; [by destruct t|]. simpl. by rewrite IH.
Qed.

Lemma bt_mutations_eq t tx ms cts :
  bt_apply_mutations_batch t tx ms cts = (fold_left bt_edit (map (mutation_edit tx cts) ms) t, Ok tt).
Proof. revert t. induction ms as [|[k v|k] ms IH]; intros t; simpl; [done|by rewrite IH..]. Qed.

Lemma bt_records_eq t rs cts :
  bt_apply_records_batch t rs cts =
  (fold_left bt_edit (records_edits cts rs).1 t, (records_edits cts rs).2).
Proof.
  revert t. induction rs as [|r rs IH]; intros t; simpl; [done|].
  destruct (records_edits cts rs) as [es res]. simpl in IH.
  destruct (wr_op r); [destruct (wr_value r)| | |]; simpl; by rewrite ?IH.
Qed.

#[export] Instance BTreeMap_laws : MemTableLaws BTreeMapTable.
Proof.
  refine {| mt_map := bt_entries; mt_inv t := table_wf (bt_entries t) |}.
  - done.
  - auto with hatp.
  - intros t rs cts Hi Hc. simpl. rewrite bt_records_eq, bt_edits_eq. eexists.
    split; [done|]. simpl. auto with hatp.
  - intros t tx ms cts Hi Hc. simpl. rewrite bt_mutations_eq, bt_edits_eq. eexists.
    split; [done|]. simpl. auto with hatp.
  - done.
  - intros t p s Hi. simpl. unfold bt_scan_prefix_versions, om_range.
    rewrite (proj2 (lec_spec _ _) (prefix_le_upper p)). simpl. by rewrite push_visible_prefix.
  - intros t lo hi s Hi Hle. simpl. unfold bt_scan_range_versions, om_range.
    rewrite (proj2 (lec_spec _ _) Hle). simpl. unfold om_filter_range.
    rewrite push_visible_filter. f_equal. apply push_visible_ext. intros k. by rewrite andb_true_r.
  - done.
  - done.
  - intros t oldest Hi _. eexists. split; [done|].
    split; [by apply gc_map_wf|done].
  - intros t Hi. simpl. auto with hatp.
  - intros t p Hi doomed. simpl. unfold bt_erase_prefix, om_range.
    rewrite (proj2 (lec_spec _ _) (prefix_le_upper p)). simpl.
    rewrite filter_prefix_range, fold_remove_keys. unfold om_keys. rewrite length_map.
    eexists. split; [done|]. simpl. split; [|done].
    by apply (table_wf_filter (fun k => negb (prefix_keys p k))).
  - done.
  - intros t Hi. simpl. by destruct (bt_entries t).
Defined.

(** *** [SkipMapTable] satisfies the contract *)

Section SkipMapLawful.
Context {Cell SM Heap : Type} `{!SkipMapOps Cell SM} `{!ArcSwapOps VersionChain Cell Heap}.
Context `{!SkipMapLaws Cell SM} `{!ArcSwapLaws VersionChain Cell Heap}.
Implicit Types t : SkipMapTable SM Heap.

Definition sk_map t : omap bytes VersionChain := sk_load t (sm_iter (sk_entries t)).

(** The cells of the table are allocated, and no two keys share one. *)
Definition cells_ok (h : Heap) (es : list (bytes * Cell)) : Prop :=
  Forall (fun e => as_live h e.2) es /\ NoDup (map snd es).

Definition sk_inv t : Prop :=
  cells_ok (sk_heap t) (sm_iter (sk_entries t)) /\ table_wf (sk_map t).

Lemma om_map_load_ext (h h' : Heap) (es : list (bytes * Cell)) :
  Forall (fun e => as_load_full h' e.2 = as_load_full h e.2) es ->
  om_map (as_load_full h') es = om_map (as_load_full h) es.
Proof. induction 1 as [|[k c] es He Hes IH]; simpl in *; [done|]. by rewrite He, IH. Qed.

(** Storing in the cell of one key changes the loaded map at that key only. *)
Lemma load_store k c a (h : Heap) (es : list (bytes * Cell)) :
  om_sorted es -> cells_ok h es -> om_get k es = Some c ->
  om_map (as_load_full (as_store h c a)) es = om_insert k a (om_map (as_load_full h) es).
Proof.
  intros Hs [Hlive Hnd] Hg.
  apply om_ext; [by apply om_sorted_map|by apply om_sorted_insert, om_sorted_map|].
  intros k'. rewrite om_get_insert, !om_get_map. destruct (eqc k' k) eqn:E; cbool.
  - subst. rewrite Hg. simpl. f_equal. apply as_load_store.
    rewrite List.Forall_forall in Hlive. by apply (Hlive (k, c)), om_get_In.
  - destruct (om_get k' es) as [c'|] eqn:Hg'; [|done]. simpl. f_equal.
    apply as_load_store_ne. intros ->. apply E.
    apply om_get_In, list_elem_of_In, list_elem_of_lookup in Hg as [i Hi].
    apply om_get_In, list_elem_of_In, list_elem_of_lookup in Hg' as [j Hj].
    assert (i = j) as <-.
    { eapply NoDup_lookup; [exact Hnd|by rewrite list_lookup_fmap, Hi|by rewrite list_lookup_fmap, Hj]. }
    congruence.
Qed.

Lemma cells_ok_store h c a es : cells_ok h es -> cells_ok (as_store h c a) es.
Proof.
  intros [Hl Hn]. split; [|done]. eapply List.Forall_impl; [|exact Hl].
  intros e. apply as_store_live.
Qed.

Lemma om_insert_fresh_perm k (c : Cell) es :
  om_get k es = None -> om_insert k c es ≡ₚ (k, c) :: es.
Proof.
  intros Hg%om_get_None_notin. induction es as [|[k' c'] es IH]; [done|].
  cbn [om_insert]. simpl in Hg.
  destruct (cmp k k') eqn:E; [|reflexivity|].
  - apply cmp_eq in E as ->. by destruct Hg; left.
  - rewrite IH by tauto. constructor.
Qed.

(** Inserting a freshly allocated cell keeps the cells of the table apart. *)
Lemma cells_ok_insert h h' k c es :
  cells_ok h es -> ~ as_live h c -> as_live h' c ->
  (forall c', as_live h c' -> as_live h' c') -> om_get k es = None ->
  cells_ok h' (om_insert k c es).
Proof.
  intros [Hl Hn] Hfresh Hc Hmono Hp%(om_insert_fresh_perm _ c). split.
  - rewrite Hp. constructor; [done|]. eapply List.Forall_impl; [|exact Hl]. auto.
  - change (NoDup (snd <$> om_insert k c es)). rewrite Hp. constructor; [|done].
    intros Hin. apply Hfresh. simpl in Hin.
    apply list_elem_of_In, in_map_iff in Hin as (e & <- & Hin).
    rewrite List.Forall_forall in Hl. by apply Hl.
Qed.

Lemma sk_update_ok t k v cost :
  sk_inv t -> fresh_version v ->
  sk_inv (sk_update t k v cost) /\
  sk_map (sk_update t k v cost) = apply_edit (sk_map t) (mkEdit k v cost) /\
  sk_bytes (sk_update t k v cost) = size_add (sk_bytes t) cost.
Proof.
  intros [[Hlive Hnd] Hwf] Hv. unfold sk_update.
  destruct (as_from_pointee (sk_heap t) []) as [cell heap] eqn:Hnew.
  apply as_new_ok in Hnew as (Hfresh & Hcell & Hload & Hold).
  destruct (sm_get_or_insert_ok (sk_entries t) k cell) as [Hit Hval].
  destruct (sm_get_or_insert (sk_entries t) k cell) as [entries swap]. simpl in Hit, Hval.
  set (es := sm_iter (sk_entries t)) in *. pose proof (sm_sorted (sk_entries t)) as Hs. fold es in Hs.
  assert (Hcells : cells_ok heap (sm_iter entries)).
  { rewrite Hit. destruct (om_get k es) eqn:Hg.
    - split; [|done]. eapply List.Forall_impl; [|exact Hlive]. intros e He. by apply Hold.
    - apply (cells_ok_insert (sk_heap t)); try done. intros c' Hc'. by apply Hold. }
  assert (Hgswap : om_get k (sm_iter entries) = Some swap).
  { rewrite Hit, Hval. destruct (om_get k es) eqn:Hg; [done|]. by rewrite om_get_insert_eq. }
  assert (Hcur : om_map (as_load_full heap) (sm_iter entries) =
                 match om_get k es with
                 | Some _ => sk_map t | None => om_insert k [] (sk_map t) end).
  { unfold sk_map, sk_load. fold es.
    assert (Hoe : om_map (as_load_full heap) es = om_map (as_load_full (sk_heap t)) es).
    { apply om_map_load_ext. eapply List.Forall_impl; [|exact Hlive]. intros e He. by apply Hold. }
    rewrite Hit. destruct (om_get k es) eqn:Hg; [done|].
    apply om_ext; [by apply om_sorted_map, om_sorted_insert|
                   by apply om_sorted_insert, om_sorted_map|].
    intros k'. rewrite om_get_map, !om_get_insert. destruct (eqc k' k); [simpl; by f_equal|].
    by rewrite <- om_get_map, Hoe. }
  assert (Hmap : sk_map {| sk_entries := entries;
      sk_heap := as_rcu heap swap (fun current => chain_insert current v);
      sk_bytes := size_add (sk_bytes t) cost |} = apply_edit (sk_map t) (mkEdit k v cost)).
  { unfold sk_map at 1, sk_load. cbn [sk_entries sk_heap].
    rewrite as_rcu_ok, (load_store k) by (done || apply sm_sorted). rewrite Hcur.
    assert (Hsw : as_load_full heap swap = default [] (om_get k (sk_map t))).
    { pose proof (om_get_map (as_load_full heap) (sm_iter entries) k) as Hm.
      rewrite Hgswap, Hcur in Hm. unfold sk_map, sk_load in *. fold es in Hm |- *.
      destruct (om_get k es) eqn:Hg; [by rewrite Hm|].
      rewrite om_get_insert_eq in Hm. rewrite om_get_map, Hg. by injection Hm. }
    unfold apply_edit, om_entry. simpl. rewrite Hsw.
    destruct (om_get k es); [done|]. destruct Hwf as [Hsm _].
    apply om_ext; auto with hatp. intros k'. rewrite !om_get_insert. by destruct (eqc k' k). }
  split; [|by rewrite Hmap].
  split; [simpl; rewrite as_rcu_ok; by apply cells_ok_store|]. rewrite Hmap. by apply apply_edit_wf.
Qed.

Lemma sk_mutations_ok t tx ms cts :
  sk_inv t -> 0 <= cts < OPEN_ENDED_TS ->
  exists t', sk_apply_mutations_batch t tx ms cts = (t', Ok tt) /\ sk_inv t' /\
    sk_map t' = apply_edits (sk_map t) (map (mutation_edit tx cts) ms) /\
    sk_bytes t' = charge_edits (sk_bytes t) (map (mutation_edit tx cts) ms).
Proof.
  intros Hi Hc. revert t Hi. induction ms as [|m ms IH]; intros t Hi; [by exists t|].
  pose proof (mutation_edit_fresh tx cts m Hc) as Hf.
  destruct m as [k v|k]; cbn [sk_apply_mutations_batch].
  - destruct (sk_update_ok t k (live v cts tx) (put_cost k v) Hi Hf) as (Hi' & Hm & Hb).
    destruct (IH _ Hi') as (t' & Ha & Hit' & Hm' & Hb'). exists t'. rewrite Hm, Hb in *. done.
  - destruct (sk_update_ok t k (tombstone cts tx) (delete_cost k) Hi Hf) as (Hi' & Hm & Hb).
    destruct (IH _ Hi') as (t' & Ha & Hit' & Hm' & Hb'). exists t'. rewrite Hm, Hb in *. done.
Qed.

Lemma sk_records_ok t rs cts :
  sk_inv t -> 0 <= cts < OPEN_ENDED_TS ->
  exists t', sk_apply_records_batch t rs cts = (t', (records_edits cts rs).2) /\ sk_inv t' /\
    sk_map t' = apply_edits (sk_map t) (records_edits cts rs).1 /\
    sk_bytes t' = charge_edits (sk_bytes t) (records_edits cts rs).1.
Proof.
  intros Hi Hc. revert t Hi. induction rs as [|r rs IH]; intros t Hi; [by exists t|].
  cbn [sk_apply_records_batch records_edits].
  destruct (records_edits cts rs) as [es res]. simpl in IH.
  destruct (wr_op r); [destruct (wr_value r) as [v|]| | |]; try (by apply IH).
  - destruct (sk_update_ok t (wr_key r) (live v cts (wr_tx_id r)) (put_cost (wr_key r) v) Hi)
      as (Hi' & Hm & Hb); [by apply live_fresh|].
    destruct (IH _ Hi') as (t' & Ha & Hit' & Hm' & Hb'). exists t'. rewrite Hm, Hb in *. done.
  - by exists t.
  - destruct (sk_update_ok t (wr_key r) (tombstone cts (wr_tx_id r)) (delete_cost (wr_key r)) Hi)
      as (Hi' & Hm & Hb); [by apply tombstone_fresh|].
    destruct (IH _ Hi') as (t' & Ha & Hit' & Hm' & Hb'). exists t'. rewrite Hm, Hb in *. done.
Qed.

Lemma gc_dropped_nonneg oldest m : 0 <= gc_dropped oldest m.
Proof. unfold gc_dropped. induction m; simpl; lia. Qed.

Lemma gc_dropped_cons oldest k c m :
  gc_dropped oldest ((k, c) :: m) =
  Z.of_nat (chain_garbage_collect c oldest).2 + gc_dropped oldest m.
Proof. done. Qed.

Lemma filter_length_id {A} (f : A -> bool) l :
  length (List.filter f l) = length l -> List.filter f l = l.
Proof.
  induction l as [|x l IH]; simpl; [done|]. destruct (f x); simpl.
  - intros [= ?]. f_equal. by apply IH.
  - intros Hl. pose proof (List.filter_length_le f l). lia.
Qed.

Lemma chain_gc_length c oldest :
  (length (chain_garbage_collect c oldest).1 + (chain_garbage_collect c oldest).2 = length c)%nat /\
  (length (chain_garbage_collect c oldest).1 = length c -> (chain_garbage_collect c oldest).1 = c).
Proof.
  destruct c as [|h r]; [done|]. unfold chain_garbage_collect.
  cbn [fst snd]. set (f := fun v : VersionedValue => _).
  pose proof (List.filter_length_le f (h :: r)). split; [lia|apply filter_length_id].
Qed.

(** One step stores the collected chain, or leaves an unchanged one alone. *)
Lemma sk_gc_entry_ok oldest h d k c :
  as_live h c -> 0 <= d ->
  let current := as_load_full h c in
  d + Z.of_nat (chain_garbage_collect current oldest).2 <= u64_max ->
  exists h', sk_gc_entry oldest (h, d) (k, c) =
      (h', d + Z.of_nat (chain_garbage_collect current oldest).2) /\
    as_load_full h' c = (chain_garbage_collect current oldest).1 /\
    (forall c', c' <> c -> as_load_full h' c' = as_load_full h c') /\
    (forall c', as_live h c' -> as_live h' c').
Proof.
  intros Hl Hd current Hmax. unfold sk_gc_entry. cbn [snd]. fold current.
  destruct (chain_gc_length current oldest) as [Hlen Hid].
  assert (Hdrop : saturating_add d (saturating_sub (Z.of_nat (length current))
              (Z.of_nat (length (chain_garbage_collect current oldest).1))) =
            d + Z.of_nat (chain_garbage_collect current oldest).2)
    by (unfold saturating_add, saturating_sub; lia).
  rewrite Hdrop. eexists. split; [done|].
  destruct (_ =? _) eqn:E; zbool; simpl.
  - split; [|done]. symmetry. apply Hid. lia.
  - split; [by apply as_load_store|]. split; intros c' Hc'; [by apply as_load_store_ne|].
    by apply as_store_live.
Qed.

Lemma sk_gc_fold oldest h d es :
  cells_ok h es -> 0 <= d ->
  d + gc_dropped oldest (om_map (as_load_full h) es) <= u64_max ->
  exists h', fold_left (sk_gc_entry oldest) es (h, d) =
      (h', d + gc_dropped oldest (om_map (as_load_full h) es)) /\
    om_map (as_load_full h') es = gc_map oldest (om_map (as_load_full h) es) /\
    (forall c', c' ∉ map snd es -> as_load_full h' c' = as_load_full h c') /\
    (forall c', as_live h c' -> as_live h' c').
Proof.
  revert h d. induction es as [|[k c] es IH]; intros h d [Hl Hn] Hd Hmax.
  { exists h. split; [unfold gc_dropped; simpl; by rewrite Z.add_0_r|done]. }
  apply Forall_cons_1 in Hl as [Hlc Hl]. apply NoDup_cons in Hn as [Hnc Hn].
  change (om_map (as_load_full h) ((k, c) :: es))
    with ((k, as_load_full h c) :: om_map (as_load_full h) es) in *.
  rewrite gc_dropped_cons in *. simpl in Hlc.
  pose proof (gc_dropped_nonneg oldest (om_map (as_load_full h) es)) as Hnn.
  destruct (sk_gc_entry_ok oldest h d k c Hlc Hd) as (h1 & He & Hload & Hother & Hlive); [lia|].
  assert (Heq : om_map (as_load_full h1) es = om_map (as_load_full h) es).
  { apply om_map_load_ext, Forall_forall. intros e Hin. apply Hother. intros <-.
    apply Hnc. apply list_elem_of_In, (in_map snd es e), list_elem_of_In, Hin. }
  destruct (IH h1 (d + Z.of_nat (chain_garbage_collect (as_load_full h c) oldest).2))
    as (h2 & Hf & Hm & Ho2 & Hl2).
  { split; [|done]. eapply List.Forall_impl; [|exact Hl]. auto. }
  { lia. }
  { rewrite Heq. lia. }
  exists h2. cbn [fold_left]. rewrite He, Hf, Heq. split; [f_equal; lia|].
  split; [|split; [|auto]].
  - simpl in Hnc. change (om_map (as_load_full h2) ((k, c) :: es))
      with ((k, as_load_full h2 c) :: om_map (as_load_full h2) es).
    rewrite Hm, Heq, Ho2, Hload by done. done.
  - intros c' [Hc' Hnin]%not_elem_of_cons. rewrite Ho2 by done. by apply Hother.
Qed.

Lemma gc_dropped_le oldest m : gc_dropped oldest m <= versions_count m.
Proof.
  unfold gc_dropped, versions_count. induction m as [|[k c] m IH]; simpl; [lia|].
  destruct (chain_gc_length c oldest) as [Hl _]. lia.
Qed.

Lemma sk_gc_ok t oldest :
  sk_inv t -> versions_count (sk_map t) <= u64_max ->
  exists t', sk_garbage_collect t oldest = (t', gc_dropped oldest (sk_map t)) /\ sk_inv t' /\
    sk_map t' = gc_map oldest (sk_map t) /\ sk_bytes t' = sk_bytes t.
Proof.
  intros [[Hl Hn] Hwf] Hmax. pose proof (gc_dropped_le oldest (sk_map t)) as Hle.
  destruct (sk_gc_fold oldest (sk_heap t) 0 (sm_iter (sk_entries t))) as (h & Hf & Hm & _ & Hlive).
  { by split. }
  { lia. }
  { unfold sk_map, sk_load in *. lia. }
  unfold sk_garbage_collect. rewrite Hf, Z.add_0_l. eexists. split; [done|].
  assert (Hmap : sk_map (mkSK (sk_entries t) h (sk_bytes t)) = gc_map oldest (sk_map t)) by done.
  split; [|done]. split; [|rewrite Hmap; by apply gc_map_wf].
  split; [|done]. eapply List.Forall_impl; [|exact Hl]. auto.
Qed.

Lemma fold_sm_remove ks (m : SM) :
  sm_iter (fold_left sm_remove ks m) = fold_left (fun m k => om_remove k m) ks (sm_iter m).
Proof.
  revert m. induction ks as [|k ks IH]; intros m; simpl; [done|]. by rewrite IH, sm_remove_ok.
Qed.

Lemma cells_ok_filter h es f : cells_ok h es -> cells_ok h (List.filter f es).
Proof.
  intros [Hl Hn]. split.
  - apply List.Forall_forall. intros e [Hin _]%filter_In. rewrite List.Forall_forall in Hl. auto.
  - clear Hl. induction es as [|e es IH]; simpl in *; [done|]. apply NoDup_cons in Hn as [He Hn].
    destruct (f e); [|by apply IH]. simpl. constructor; [|by apply IH].
    intros Hin. apply He. apply list_elem_of_In, in_map_iff in Hin as (e' & <- & [Hin _]%filter_In).
    by apply list_elem_of_In, in_map.
Qed.

Lemma om_map_filter (g : Cell -> VersionChain) (f : bytes -> bool) (es : list (bytes * Cell)) :
  om_map g (List.filter (fun e => f e.1) es) = List.filter (fun e => f e.1) (om_map g es).
Proof.
  induction es as [|[k c] es IH]; simpl; [done|]. destruct (f k); simpl; by rewrite IH.
Qed.

Lemma sk_erase_ok t p :
  sk_inv t ->
  exists t', sk_erase_prefix t p =
      Some (t', Z.of_nat (length (List.filter (fun e => prefix_keys p e.1) (sk_map t)))) /\
    sk_inv t' /\ sk_map t' = List.filter (fun e => negb (prefix_keys p e.1)) (sk_map t) /\
    sk_bytes t' = sk_bytes t.
Proof.
  intros [Hc Hwf]. unfold sk_erase_prefix. rewrite sm_range_ok, filter_prefix_range.
  eexists. split.
  { do 2 f_equal. unfold sk_map, sk_load. rewrite <- (om_map_filter _ (prefix_keys p)).
    unfold om_map. by rewrite !length_map. }
  set (t' := mkSK _ _ _).
  assert (Hit : sm_iter (sk_entries t') =
                List.filter (fun e => negb (prefix_keys p e.1)) (sm_iter (sk_entries t))).
  { unfold t'. cbn [sk_entries]. rewrite fold_sm_remove. apply fold_remove_keys. }
  assert (Hmap : sk_map t' = List.filter (fun e => negb (prefix_keys p e.1)) (sk_map t)).
  { unfold sk_map, sk_load. rewrite Hit.
    apply (om_map_filter _ (fun k => negb (prefix_keys p k))). }
  split; [|by rewrite Hmap]. split; [rewrite Hit; by apply cells_ok_filter|].
  rewrite Hmap. by apply (table_wf_filter (fun k => negb (prefix_keys p k))).
Qed.

Lemma sk_drain_ok t out : sk_drain_into t out = out ++ sk_all_versions t.
Proof.
  unfold sk_drain_into, sk_all_versions. generalize (sk_load t (sm_iter (sk_entries t))).
  intros m. revert out. induction m as [|e m IH]; intros out; simpl; [by rewrite app_nil_r|].
  rewrite IH, app_assoc. f_equal. unfold sk_drain_entry, chain_rows.
  assert (Hf : forall vs out, fold_left (fun out v => out ++ [mkRow e.1 v]) vs out =
                              out ++ map (mkRow e.1) vs).
  { induction vs as [|v vs IHv]; intros o; simpl; [by rewrite app_nil_r|].
    by rewrite IHv, <- app_assoc. }
  destruct e.2 as [|v [|v' vs]]; [by rewrite app_nil_r|done|apply Hf].
Qed.

#[export] Instance SkipMap_laws : MemTableLaws (SkipMapTable SM Heap).
Proof.
  refine {| mt_map := sk_map; mt_inv := sk_inv |}.
  - by intros t [_ ?].
  - simpl. unfold sk_inv, sk_map, sk_load. simpl. rewrite sm_iter_new.
    split; [|done]. split; [by split; constructor|apply table_wf_nil].
  - apply sk_records_ok.
  - apply sk_mutations_ok.
  - intros t k s Hi. simpl. unfold sk_get, sk_map, sk_load. rewrite sm_get_ok, om_get_map.
    by destruct (om_get k (sm_iter (sk_entries t))).
  - intros t p s Hi. simpl. unfold sk_scan_prefix_versions, sk_load. rewrite sm_range_ok.
    unfold om_filter_range. rewrite om_map_filter. f_equal. apply push_visible_prefix.
  - intros t lo hi s Hi Hle. simpl. unfold sk_scan_range_versions, sk_load. rewrite sm_range_ok.
    unfold om_filter_range. rewrite om_map_filter, push_visible_filter. f_equal.
    apply push_visible_ext. intros k. by rewrite andb_true_r.
  - done.
  - intros t out _. apply sk_drain_ok.
  - apply sk_gc_ok.
  - intros t [Hc Hwf]. simpl. unfold sk_inv, sk_map, sk_load. simpl. rewrite sm_clear_ok.
    split; [|done]. split; [by split; constructor|apply table_wf_nil].
  - intros t p Hi. apply sk_erase_ok, Hi.
  - intros t Hi. simpl. unfold sk_map, sk_load. rewrite sm_len_ok. unfold om_map. by rewrite length_map.
  - intros t Hi. simpl. unfold sk_map, sk_load. rewrite sm_is_empty_ok.
    by destruct (sm_iter (sk_entries t)).
Defined.
End SkipMapLawful.
