(* ===== verification/MemTableProps.v ===== *)
(** * Properties of the memtable

    Theorems proved against the contract [MemTableLaws], so that they hold of
    both backends: snapshot reads return the newest committed version, scans
    are complete and sorted, garbage collection is invisible, and two lawful
    backends give the same answers to every sequence of operations.  Concrete
    instances of the third-party classes close the development. *)

From Stdlib Require Import Strings.String.
From stdpp Require Import base tactics list option gmap sorting.
From S2P Require Import Prelude OrdMap Types Version Wal MemTable.
#[local] Open Scope Z_scope.

(** ** Commits and their history *)

(** A committed transaction: id, commit timestamp, mutations in order. *)
Record CommitBatch := mkCommit { cb_tx : Z; cb_ts : TxnTs; cb_muts : list Mutation }.

Definition mutation_value (m : Mutation) : option bytes :=
  match m with MPut _ v => Some v | MDelete _ => None end.

(** What a sequence of commits has written to [k]: a later write at the same
    timestamp replaces the earlier one. *)
Definition record_mutation (k : bytes) (c : CommitBatch) (h : history) (m : Mutation) : history :=
  if eqc k (mutation_key m) then <[cb_ts c := (mutation_value m, cb_tx c)]> h else h.
Definition commits_history (k : bytes) (cs : list CommitBatch) : history :=
  fold_left (fun h c => fold_left (record_mutation k c) (cb_muts c) h) cs ∅.

Definition commit_ok (c : CommitBatch) : Prop := 0 <= cb_ts c < OPEN_ENDED_TS.

Lemma gc_map_count oldest m :
  versions_count (gc_map oldest m) + gc_dropped oldest m = versions_count m.
Proof.
  induction m as [|[k c] m IH]; [done|].
  change (gc_map oldest ((k, c) :: m)) with ((k, (chain_garbage_collect c oldest).1) :: gc_map oldest m).
  rewrite gc_dropped_cons. unfold versions_count in *. cbn [map foldr snd].
  destruct (chain_gc_length c oldest) as [Hl _]. lia.
Qed.

Section Backend.
Context {T : Type} `{MemTableLaws T}.
Implicit Types t : T.

(** The memtable calls of a sequence of commits. *)
Fixpoint apply_commits t (cs : list CommitBatch) : T :=
  match cs with
  | [] => t
  | c :: cs => apply_commits (mt_apply_mutations_batch t (cb_tx c) (cb_muts c) (cb_ts c)).1 cs
  end.

Definition key_history (m : omap bytes VersionChain) (k : bytes) : history :=
  chain_history (default [] (om_get k m)).

Lemma apply_edit_history m e k :
  table_wf m -> fresh_version (ed_version e) ->
  key_history (apply_edit m e) k =
  if eqc k (ed_key e)
  then <[begin_ts (ed_version e) := (value (ed_version e), tx_id (ed_version e))]> (key_history m k)
  else key_history m k.
Proof.
  intros [Hs Hc] He. unfold key_history, apply_edit. rewrite om_get_entry.
  destruct (eqc k (ed_key e)) eqn:E; [|done]. cbool. subst. simpl. apply chain_insert_history; [|done].
  destruct (om_get (ed_key e) m) eqn:Hg; [by eapply Hc|done].
Qed.

Lemma apply_mutations_history m c k ms :
  table_wf m -> commit_ok c ->
  key_history (apply_edits m (map (mutation_edit (cb_tx c) (cb_ts c)) ms)) k =
  fold_left (record_mutation k c) ms (key_history m k).
Proof.
  intros Hm Hc. revert m Hm. induction ms as [|mu ms IH]; intros m Hm; [done|].
  pose proof (mutation_edit_fresh (cb_tx c) (cb_ts c) mu Hc) as Hf.
  cbn [map fold_left]. change (apply_edits m (?e :: ?es)) with (apply_edits (apply_edit m e) es).
  rewrite IH by (by apply apply_edit_wf). f_equal. rewrite apply_edit_history by done.
  unfold record_mutation. by destruct mu.
Qed.

Lemma apply_commits_history t cs k :
  mt_inv t -> Forall commit_ok cs ->
  mt_inv (apply_commits t cs) /\
  key_history (mt_map (apply_commits t cs)) k =
  fold_left (fun h c => fold_left (record_mutation k c) (cb_muts c) h) cs (key_history (mt_map t) k).
Proof.
  intros Ht Hcs. revert t Ht. induction Hcs as [|c cs Hc Hcs IH]; intros t Ht; [done|].
  simpl. destruct (mt_apply_mutations_ok t (cb_tx c) (cb_muts c) (cb_ts c) Ht Hc)
    as (t' & Ha & Ht' & Hm & _).
  rewrite Ha. simpl. destruct (IH t' Ht') as [Hi Hk]. split; [done|].
  rewrite Hk, Hm, apply_mutations_history; [done|by apply mt_map_wf|done].
Qed.

Lemma mt_get_history t k s :
  mt_inv t -> ts s < OPEN_ENDED_TS ->
  match mt_get t k s with
  | Some v => newest_at (key_history (mt_map t) k) (ts s) (begin_ts v) (value v, tx_id v)
  | None => forall u, is_Some (key_history (mt_map t) k !! u) -> ts s < u
  end.
Proof.
  intros Ht Hs. rewrite mt_get_ok by done. unfold key_history.
  destruct (mt_map_wf t Ht) as [_ Hwf]. destruct (om_get k (mt_map t)) as [c|] eqn:Hg; simpl.
  - rewrite chain_get_find. pose proof (Hwf _ _ Hg) as Hc. destruct (find_visible s c) eqn:Hv.
    + by apply (find_visible_newest OPEN_ENDED_TS) in Hv as [_ Hn].
    + exact (proj1 (find_visible_None OPEN_ENDED_TS c s Hc Hs) Hv).
  - intros u [? Hu]. by rewrite lookup_empty in Hu.
Qed.

(** C19: snapshot reads.  After any sequence of committed batches applied to a
    fresh memtable, [get] at a snapshot returns the committed version of the
    key with the greatest commit timestamp not after the snapshot (a tombstone
    if that was a delete), and nothing exactly when there is none. *)
Theorem memtable_snapshot_read (cs : list CommitBatch) (k : bytes) (s : Snapshot) :
  Forall commit_ok cs -> ts s < OPEN_ENDED_TS ->
  match mt_get (apply_commits mt_default cs) k s with
  | Some v => newest_at (commits_history k cs) (ts s) (begin_ts v) (value v, tx_id v)
  | None => forall u, is_Some (commits_history k cs !! u) -> ts s < u
  end.
Proof.
  intros Hcs Hs. destruct mt_default_ok as (Hd & Hdm & _).
  destruct (apply_commits_history mt_default cs k Hd Hcs) as [Hi Hh].
  pose proof (mt_get_history _ k s Hi Hs) as Hg. rewrite Hh, Hdm in Hg. exact Hg.
Qed.

(** A snapshot at or after the watermark reads the same versions. *)
Lemma gc_get_same (t t' : T) (oldest : TxnTs) k s :
  mt_inv t -> mt_inv t' -> mt_map t' = gc_map oldest (mt_map t) -> oldest <= ts s ->
  mt_get t' k s = mt_get t k s.
Proof.
  intros Ht Ht' Hm Hs. rewrite !mt_get_ok, Hm by done. unfold gc_map. rewrite om_get_map.
  destruct (mt_map_wf t Ht) as [_ Hwf]. destruct (om_get k (mt_map t)) eqn:Hg'; [|done].
  simpl. apply chain_gc_get; [by eapply Hwf|done].
Qed.

(** Garbage collection at [oldest] drops no version that a snapshot at or
    after [oldest] can read, reports the number of versions it dropped, and
    keeps the memtable's invariant. *)
Lemma memtable_gc_invisible (t : T) (oldest : TxnTs) :
  mt_inv t -> versions_count (mt_map t) <= u64_max ->
  exists t' n, mt_garbage_collect t oldest = (t', n) /\ mt_inv t' /\
    n = versions_count (mt_map t) - versions_count (mt_map t') /\
    forall k s, oldest <= ts s -> mt_get t' k s = mt_get t k s.
Proof.
  intros Ht Hmax. destruct (mt_gc_ok t oldest Ht Hmax) as (t' & Hg & Ht' & Hm & _).
  exists t', (gc_dropped oldest (mt_map t)). split; [done|]. split; [done|]. split.
  - rewrite Hm. pose proof (gc_map_count oldest (mt_map t)). lia.
  - intros k s. by apply gc_get_same.
Qed.

Lemma push_visible_In keep s m k v :
  om_sorted m ->
  In (k, v) (push_visible keep s m) <->
  keep k = true /\ (om_get k m ≫= fun c => chain_get c s) = Some v.
Proof.
  intros Hs. unfold push_visible. rewrite in_flat_map. split.
  - intros ([k' c] & Hin & Hkv). destruct (keep k') eqn:Hk; [|done]. simpl in Hkv.
    destruct (chain_get c s) eqn:Hc; [|done]. destruct Hkv as [[= -> ->]|[]].
    split; [done|]. by rewrite (om_In_get _ _ _ Hs Hin).
  - intros [Hk Hg]. destruct (om_get k m) as [c|] eqn:Hm; [|done]. simpl in Hg.
    exists (k, c). split; [by apply om_get_In|]. rewrite Hk, Hg. by left.
Qed.

Lemma push_visible_keys keep s m k :
  In k (map fst (push_visible keep s m)) -> In k (om_keys m).
Proof.
  unfold push_visible. intros ([k' v] & <- & ([k0 c] & Hin & Hkv)%in_flat_map)%in_map_iff.
  destruct (keep k0); [|done]. simpl in Hkv. destruct (chain_get c s); [|done].
  destruct Hkv as [[= -> ->]|[]]. by apply (in_map fst) in Hin.
Qed.

Lemma push_visible_sorted keep s m :
  om_sorted m -> StronglySorted clt (map fst (push_visible keep s m)).
Proof.
  induction m as [|[k c] m IH]; simpl; [constructor|]. intros [Hs Hall]%om_sorted_inv.
  destruct (negb (keep k)); [by apply IH|]. destruct (chain_get c s); [|by apply IH].
  simpl. constructor; [by apply IH|]. apply List.Forall_forall. intros x Hx.
  rewrite List.Forall_forall in Hall. by eapply Hall, push_visible_keys.
Qed.

(** Scans.  A prefix scan (of a prefix that is not all [0xFF]) and a range
    scan return, in strictly increasing key order, exactly the keys in the
    prefix or range that are visible at the snapshot, each with the version a
    point read returns. *)
Lemma memtable_scan_complete (t : T) (s : Snapshot) :
  mt_inv t ->
  (forall p, finite_prefix p = true -> exists rows,
     mt_scan_prefix_versions t p s = Some rows /\ StronglySorted clt (map fst rows) /\
     forall k v, In (k, v) rows <-> p `prefix_of` k /\ mt_get t k s = Some v) /\
  (forall lo hi, cle lo hi -> exists rows,
     mt_scan_range_versions t lo hi s = Some rows /\ StronglySorted clt (map fst rows) /\
     forall k v, In (k, v) rows <-> cle lo k /\ clt k hi /\ mt_get t k s = Some v).
Proof.
  intros Ht. destruct (mt_map_wf t Ht) as [Hs _]. split.
  - intros p Hp. rewrite mt_scan_prefix_ok, Hp by done. eexists. split; [done|].
    split; [by apply push_visible_sorted|]. intros k v.
    by rewrite push_visible_In, starts_with_spec, mt_get_ok.
  - intros lo hi Hle. rewrite mt_scan_range_ok by done. eexists. split; [done|].
    split; [by apply push_visible_sorted|]. intros k v.
    rewrite push_visible_In, mt_get_ok by done. unfold in_range.
    rewrite andb_true_iff, lec_spec, ltc_spec. tauto.
Qed.
End Backend.

(** The range [\[prefix, prefix_upper_exclusive(prefix))] contains exactly the
    keys that start with the prefix, unless the prefix consists of [0xFF] bytes
    only (the empty prefix included), for which it is empty. *)
Lemma prefix_upper_exact (p k : bytes) :
  (in_range p (prefix_upper_exclusive p) k = true <-> p `prefix_of` k /\ finite_prefix p = true) /\
  cle p (prefix_upper_exclusive p).
Proof.
  split; [|apply prefix_le_upper]. rewrite in_prefix_range. unfold prefix_keys.
  rewrite andb_true_iff, starts_with_spec. tauto.
Qed.

(** ** Two lawful backends are observationally equal *)

(** The calls of the trait, and what they return. *)
Inductive MemOp :=
| OpApplyRecords (rs : list WalRecord) (cts : TxnTs)
| OpApplyMutations (tx : Z) (ms : list Mutation) (cts : TxnTs)
| OpGet (k : bytes) (s : Snapshot)
| OpScanPrefix (p : bytes) (s : Snapshot)
| OpScanRange (lo hi : bytes) (s : Snapshot)
| OpAllVersions
| OpDrainInto (out : list VersionedRow)
| OpGarbageCollect (oldest : TxnTs)
| OpClear
| OpErasePrefix (p : bytes)
| OpApproximateBytes
| OpLen
| OpIsEmpty.

Inductive MemOut :=
| OutUnit
| OutResult (r : Result unit)
| OutVersion (v : option VersionedValue)
| OutScan (rows : KeyVersions)
| OutRows (rows : list VersionedRow)
| OutCount (n : Z)
| OutBool (b : bool).

(** [None] is a panic. *)
Definition mem_step {T} `{MemTableBackend T} (t : T) (op : MemOp) : option (T * MemOut) :=
  match op with
  | OpApplyRecords rs cts =>
      let '(t', r) := mt_apply_records_batch t rs cts in Some (t', OutResult r)
  | OpApplyMutations tx ms cts =>
      let '(t', r) := mt_apply_mutations_batch t tx ms cts in Some (t', OutResult r)
  | OpGet k s => Some (t, OutVersion (mt_get t k s))
  | OpScanPrefix p s => rows ← mt_scan_prefix_versions t p s; Some (t, OutScan rows)
  | OpScanRange lo hi s => rows ← mt_scan_range_versions t lo hi s; Some (t, OutScan rows)
  | OpAllVersions => Some (t, OutRows (mt_all_versions t))
  | OpDrainInto out => Some (t, OutRows (mt_drain_into t out))
  | OpGarbageCollect oldest =>
      let '(t', n) := mt_garbage_collect t oldest in Some (t', OutCount n)
  | OpClear => Some (mt_clear t, OutUnit)
  | OpErasePrefix p => '(t', n) ← mt_erase_prefix t p; Some (t', OutCount n)
  | OpApproximateBytes => Some (t, OutCount (mt_approximate_bytes t))
  | OpLen => Some (t, OutCount (mt_len t))
  | OpIsEmpty => Some (t, OutBool (mt_is_empty t))
  end.

Fixpoint mem_run {T} `{MemTableBackend T} (t : T) (ops : list MemOp) : option (list MemOut) :=
  match ops with
  | [] => Some []
  | op :: ops =>
      '(t, out) ← mem_step t op;
      outs ← mem_run t ops;
      Some (out :: outs)
  end.

(** Commit timestamps are valid and ranges are not inverted. *)
Definition op_ok (op : MemOp) : Prop :=
  match op with
  | OpApplyRecords _ cts => 0 <= cts < OPEN_ENDED_TS
  | OpApplyMutations _ _ cts => 0 <= cts < OPEN_ENDED_TS
  | OpScanRange lo hi _ => cle lo hi
  | _ => True
  end.

(** Upper bound on the versions an operation adds. *)
Definition op_writes (op : MemOp) : Z :=
  match op with
  | OpApplyRecords rs _ => Z.of_nat (length rs)
  | OpApplyMutations _ ms _ => Z.of_nat (length ms)
  | _ => 0
  end.

Definition ops_writes (ops : list MemOp) : Z := foldr (fun op n => op_writes op + n) 0 ops.

Lemma ins_length up v c : (length (ins up v c) <= S (length c))%nat.
Proof.
  revert up. induction c as [|h c IH]; intros up; simpl; [lia|].
  destruct (_ <? _); simpl; [lia|]. destruct (_ =? _); simpl; [lia|].
  specialize (IH (begin_ts h)). lia.
Qed.

Lemma om_insert_count k c m :
  om_sorted m ->
  versions_count (om_insert k c m) + Z.of_nat (length (default [] (om_get k m))) =
  versions_count m + Z.of_nat (length c).
Proof.
  unfold versions_count. induction m as [|[k' c'] m IH]; intros Hs; [simpl; lia|].
  apply om_sorted_inv in Hs as [Hs Hall]. cbn [om_insert om_get].
  destruct (cmp k k') eqn:E.
  - apply cmp_eq in E as ->. rewrite eqc_refl. cbn [map foldr snd from_option id]. lia.
  - rewrite (proj2 (eqc_false k k')) by (by apply clt_ne).
    rewrite om_get_below; [cbn [map foldr snd from_option length]; lia|].
    eapply List.Forall_impl; [|exact Hall]. intros x. by apply clt_trans.
  - rewrite (proj2 (eqc_false k k')).
    + specialize (IH Hs). cbn [map foldr snd]. lia.
    + intros ->. by rewrite cmp_refl in E.
Qed.

Lemma apply_edits_count m es :
  table_wf m -> Forall (fun e => fresh_version (ed_version e)) es ->
  versions_count (apply_edits m es) <= versions_count m + Z.of_nat (length es).
Proof.
  intros Hm Hes. revert m Hm. induction Hes as [|e es He Hes IH]; intros m Hm; [simpl; lia|].
  change (apply_edits m (e :: es)) with (apply_edits (apply_edit m e) es).
  specialize (IH (apply_edit m e) (apply_edit_wf m e Hm He)).
  destruct Hm as [Hs Hc]. unfold apply_edit, om_entry in *.
  set (old := default [] (om_get (ed_key e) m)) in *.
  pose proof (om_insert_count (ed_key e) (chain_insert old (ed_version e)) m Hs) as Hi. fold old in Hi.
  assert (Hwf : chain_wf old) by (unfold old; destruct (om_get (ed_key e) m) eqn:Hg; [by eapply Hc|done]).
  rewrite (chain_insert_ins old) in * by (done || apply He).
  pose proof (ins_length OPEN_ENDED_TS (ed_version e) old). cbn [length]. lia.
Qed.

Lemma records_edits_length cts rs : (length (records_edits cts rs).1 <= length rs)%nat.
Proof.
  induction rs as [|r rs IH]; simpl; [lia|]. destruct (records_edits cts rs). simpl in IH.
  destruct (wr_op r); [destruct (wr_value r)| | |]; simpl; lia.
Qed.

Lemma versions_count_filter f (m : omap bytes VersionChain) :
  versions_count (List.filter f m) <= versions_count m.
Proof.
  unfold versions_count. induction m as [|e m IH]; simpl; [lia|]. destruct (f e); simpl; lia.
Qed.

(** The abstract table: a map of chains and a byte count. *)
Abbreviation TableSpec := (omap bytes VersionChain * Z)%type.

Definition spec_step (a : TableSpec) (op : MemOp) : TableSpec * MemOut :=
  let '(m, b) := a in
  match op with
  | OpApplyRecords rs cts =>
      let '(es, r) := records_edits cts rs in ((apply_edits m es, charge_edits b es), OutResult r)
  | OpApplyMutations tx ms cts =>
      let es := map (mutation_edit tx cts) ms in
      ((apply_edits m es, charge_edits b es), OutResult (Ok tt))
  | OpGet k s => (a, OutVersion (om_get k m ≫= fun c => chain_get c s))
  | OpScanPrefix p s =>
      (a, OutScan (if finite_prefix p then push_visible (fun k => starts_with k p) s m else []))
  | OpScanRange lo hi s => (a, OutScan (push_visible (in_range lo hi) s m))
  | OpAllVersions => (a, OutRows (List.flat_map chain_rows m))
  | OpDrainInto out => (a, OutRows (out ++ List.flat_map chain_rows m))
  | OpGarbageCollect oldest => ((gc_map oldest m, b), OutCount (gc_dropped oldest m))
  | OpClear => (([], 0), OutUnit)
  | OpErasePrefix p =>
      ((List.filter (fun e => negb (prefix_keys p e.1)) m, b),
       OutCount (Z.of_nat (length (List.filter (fun e => prefix_keys p e.1) m))))
  | OpApproximateBytes => (a, OutCount b)
  | OpLen => (a, OutCount (Z.of_nat (length m)))
  | OpIsEmpty => (a, OutBool (bool_decide (m = [])))
  end.

Fixpoint spec_run (a : TableSpec) (ops : list MemOp) : list MemOut :=
  match ops with
  | [] => []
  | op :: ops => let '(a, out) := spec_step a op in out :: spec_run a ops
  end.

Section Refinement.
Context {T : Type} `{MemTableLaws T}.
Implicit Types t : T.

Definition mt_abs t : TableSpec := (mt_map t, mt_approximate_bytes t).

Lemma mem_step_refines t op :
  mt_inv t -> op_ok op -> versions_count (mt_map t) <= u64_max ->
  exists t' out, mem_step t op = Some (t', out) /\ mt_inv t' /\
    spec_step (mt_abs t) op = (mt_abs t', out) /\
    versions_count (mt_map t') <= versions_count (mt_map t) + op_writes op.
Proof.
  intros Ht Hop Hmax. pose proof (mt_map_wf t Ht) as Hwf. unfold mt_abs.
  destruct op as [rs cts|tx ms cts|k s|p s|lo hi s| |out|oldest| |p| | |]; cbn [mem_step spec_step].
  - destruct (mt_apply_records_ok t rs cts Ht Hop) as (t' & -> & Hi & Hm & Hb).
    pose proof (apply_edits_count _ _ Hwf (records_edits_fresh cts rs Hop)).
    pose proof (records_edits_length cts rs).
    destruct (records_edits cts rs) as [es r]. simpl in *.
    eexists _, _. rewrite Hm, Hb. repeat (split; [done|]). lia.
  - destruct (mt_apply_mutations_ok t tx ms cts Ht Hop) as (t' & -> & Hi & Hm & Hb).
    pose proof (apply_edits_count _ _ Hwf (mutation_edits_fresh tx cts ms Hop)) as Hc.
    rewrite length_map in Hc. eexists _, _. rewrite Hm, Hb. repeat (split; [done|]). done.
  - eexists _, _. split; [done|]. rewrite mt_get_ok by done. repeat split; [done|simpl; lia].
  - rewrite mt_scan_prefix_ok by done. eexists _, _. repeat split; [done|simpl; lia].
  - rewrite mt_scan_range_ok by done. eexists _, _. repeat split; [done|simpl; lia].
  - rewrite mt_all_ok by done. eexists _, _. repeat split; [done|simpl; lia].
  - rewrite mt_drain_ok, mt_all_ok by done. eexists _, _. repeat split; [done|simpl; lia].
  - destruct (mt_gc_ok t oldest Ht Hmax) as (t' & -> & Hi & Hm & Hb).
    eexists _, _. split; [done|]. split; [done|]. rewrite Hm, Hb. split; [done|].
    pose proof (gc_map_count oldest (mt_map t)). pose proof (gc_dropped_nonneg oldest (mt_map t)).
    simpl. lia.
  - destruct (mt_clear_ok t Ht) as (Hi & Hm & Hb). eexists _, _. split; [done|].
    rewrite Hm, Hb. repeat (split; [done|]). unfold versions_count. simpl.
    clear. induction (mt_map t); simpl; lia.
  - destruct (mt_erase_ok t p Ht) as (t' & -> & Hi & Hm & Hb). eexists _, _. split; [done|].
    split; [done|]. rewrite Hm, Hb. split; [done|]. simpl.
    pose proof (versions_count_filter (fun e => negb (prefix_keys p e.1)) (mt_map t)).
    unfold prefix_keys in *. lia.
  - eexists _, _. repeat split; [done|simpl; lia].
  - rewrite mt_len_ok by done. eexists _, _. repeat split; [done|simpl; lia].
  - rewrite mt_is_empty_ok by done. eexists _, _. repeat split; [done|simpl; lia].
Qed.

Lemma mem_run_refines t ops :
  mt_inv t -> Forall op_ok ops -> versions_count (mt_map t) + ops_writes ops <= u64_max ->
  mem_run t ops = Some (spec_run (mt_abs t) ops).
Proof.
  intros Ht Hops. revert t Ht. induction Hops as [|op ops Hop Hops IH]; intros t Ht Hmax; [done|].
  cbn [mem_run spec_run ops_writes foldr] in *. fold (ops_writes ops) in Hmax.
  assert (0 <= op_writes op) by (destruct op; simpl; lia).
  assert (0 <= ops_writes ops)
    by (clear; induction ops as [|o ops IH]; simpl; [lia|]; destruct o; simpl; lia).
  destruct (mem_step_refines t op Ht Hop) as (t' & out & Hs & Ht' & Hspec & Hc); [lia|].
  rewrite Hs, Hspec. simpl. rewrite IH; [done|done|lia].
Qed.
End Refinement.

(** ** Concrete instances and witnesses *)

(** A skip list modelled by the sorted list of its entries. *)
Record SortedEntries V := mkSorted { se_list : omap bytes V; se_sorted : om_sorted se_list }.
Arguments mkSorted {V}. Arguments se_list {V}. Arguments se_sorted {V}.

Definition se_insert {V} (m : SortedEntries V) (k : bytes) (v : V) : SortedEntries V :=
  mkSorted (om_insert k v (se_list m)) (om_sorted_insert k v _ (se_sorted m)).

#[export] Instance sorted_skipmap V : SkipMapOps V (SortedEntries V) := {|
  sm_new := mkSorted [] om_sorted_nil;
  sm_get m k := om_get k (se_list m);
  sm_get_or_insert m k v :=
    match om_get k (se_list m) with Some v0 => (m, v0) | None => (se_insert m k v, v) end;
  sm_remove m k := mkSorted (om_remove k (se_list m)) (om_sorted_remove k _ (se_sorted m));
  sm_range m lo hi := om_filter_range lo hi (se_list m);
  sm_iter := se_list;
  sm_clear m := mkSorted [] om_sorted_nil;
  sm_len m := Z.of_nat (length (se_list m));
  sm_is_empty m := match se_list m with [] => true | _ => false end;
|}.

#[export] Instance sorted_skipmap_laws V : SkipMapLaws V (SortedEntries V).
Proof.
  split; try done.
  - intros m. apply se_sorted.
  - intros m k v. simpl. by destruct (om_get k (se_list m)).
Qed.

(** Cells as indices into an append-only heap. *)
#[export] Instance list_cells : ArcSwapOps VersionChain nat (list VersionChain) := {|
  as_empty := [];
  as_from_pointee h a := (length h, h ++ [a]);
  as_load_full h c := default [] (h !! c);
  as_store h c a := <[c := a]> h;
  as_rcu h c f := <[c := f (default [] (h !! c))]> h;
|}.

#[export] Instance list_cells_laws : ArcSwapLaws VersionChain nat (list VersionChain).
Proof.
  refine {| as_live h c := (c < length h)%nat |}; simpl.
  - intros h a c h' [= <- <-]. rewrite length_app. simpl. split; [lia|]. split; [lia|].
    split; [by rewrite lookup_app_r, Nat.sub_diag|]. intros c' Hc'. split; [lia|].
    by rewrite lookup_app_l.
  - intros h c a c'. by rewrite length_insert.
  - intros h c a Hc. by rewrite list_lookup_insert_eq.
  - intros h c c' a Hne. by rewrite list_lookup_insert_ne.
  - done.
Qed.

Definition sample_commits : list CommitBatch :=
  [mkCommit 1 10 [MPut [x61] [x31]; MPut [x62] [x32]]; mkCommit 2 20 [MDelete [x61]]].

Lemma sample_commits_ok : Forall commit_ok sample_commits.
Proof. repeat constructor; vm_compute; congruence. Qed.

Lemma memtable_snapshot_read_witness :
  newest_at (commits_history [x61] sample_commits) 15 10 (Some [x31], 1).
Proof.
  exact (memtable_snapshot_read (T := BTreeMapTable) sample_commits [x61] (mkSnapshot 15)
           sample_commits_ok eq_refl).
Defined.

Definition sample_table : BTreeMapTable := apply_commits mt_default sample_commits.

Lemma sample_table_inv : mt_inv sample_table.
Proof.
  exact (proj1 (apply_commits_history (T := BTreeMapTable) mt_default sample_commits []
    (proj1 mt_default_ok) sample_commits_ok)).
Qed.

Definition sample_ops : list MemOp :=
  [OpApplyMutations 1 [MPut [x61] [x31]] 10; OpApplyRecords [record_delete 2 [x61]] 20;
   OpGarbageCollect 20; OpScanPrefix [x61] (mkSnapshot 30); OpErasePrefix [x61]; OpLen].

