(* ===== verification/Handle.v ===== *)
(** * The memtable handle ([hatp-engine/src/memtable.rs], [MemTable])

    The engine holds a [MemTable], which forwards every call to the backend it was
    created with.  [with_impl] picks the backend; the handle is itself a backend
    that satisfies the contract [MemTableLaws], whatever was picked, so every
    theorem on engines over a lawful backend holds of engines over the handle. *)

From stdpp Require Import base tactics list option.
From S2P Require Import Prelude OrdMap Types Version Wal MemTable MemTableProps.
#[local] Open Scope Z_scope.

Inductive MemTableImpl := ImplBTreeMap | ImplSkipMap.
#[global] Instance memtable_impl_dec : EqDecision MemTableImpl.
Proof. solve_decision. Defined.

(** [#[default]] of the enumeration. *)
Definition memtable_impl_default : MemTableImpl := ImplSkipMap.

Section Handle.
Context {SM Heap Cell : Type} `{SkipMapOps Cell SM} `{ArcSwapOps VersionChain Cell Heap}.
#[local] Abbreviation Skip := (SkipMapTable SM Heap).

(** [MemTable]: the trait object is one of the two tables of the crate. *)
Inductive MemTable := HBTreeMap (t : BTreeMapTable) | HSkipMap (t : Skip).

(** [MemTable::new], the [Default] of the handle. *)
Definition memtable_new : MemTable := HBTreeMap mt_default.

Definition with_impl (impl_kind : MemTableImpl) : MemTable :=
  match impl_kind with
  | ImplBTreeMap => HBTreeMap mt_default
  | ImplSkipMap => HSkipMap mt_default
  end.

Definition impl_of (t : MemTable) : MemTableImpl :=
  match t with HBTreeMap _ => ImplBTreeMap | HSkipMap _ => ImplSkipMap end.

(** A call that only reads, and one that changes the table. *)
Definition forward {R} (t : MemTable) (f : forall T, MemTableBackend T -> T -> R) : R :=
  match t with HBTreeMap b => f _ _ b | HSkipMap s => f _ _ s end.
Definition forward_mut {R} (t : MemTable) (f : forall T, MemTableBackend T -> T -> T * R) : MemTable * R :=
  match t with
  | HBTreeMap b => let '(b', r) := f _ _ b in (HBTreeMap b', r)
  | HSkipMap s => let '(s', r) := f _ _ s in (HSkipMap s', r)
  end.

Definition handle_erase_prefix (t : MemTable) (prefix : bytes) : option (MemTable * Z) :=
  match t with
  | HBTreeMap b => '(b', n) ← mt_erase_prefix b prefix; Some (HBTreeMap b', n)
  | HSkipMap s => '(s', n) ← mt_erase_prefix s prefix; Some (HSkipMap s', n)
  end.

(** The forwarding methods; a fresh table is one of the picked kind. *)
Definition memtable_backend (impl_kind : MemTableImpl) : MemTableBackend MemTable := {|
  mt_default := with_impl impl_kind;
  mt_apply_records_batch t records commit_ts := forward_mut t (fun T _ b => mt_apply_records_batch b records commit_ts);
  mt_apply_mutations_batch t tx ms commit_ts := forward_mut t (fun T _ b => mt_apply_mutations_batch b tx ms commit_ts);
  mt_get t key s := forward t (fun T _ b => mt_get b key s);
  mt_scan_prefix_versions t prefix s := forward t (fun T _ b => mt_scan_prefix_versions b prefix s);
  mt_scan_range_versions t lower upper s := forward t (fun T _ b => mt_scan_range_versions b lower upper s);
  mt_all_versions t := forward t (fun T _ b => mt_all_versions b);
  mt_drain_into t out := forward t (fun T _ b => mt_drain_into b out);
  mt_garbage_collect t oldest := forward_mut t (fun T _ b => mt_garbage_collect b oldest);
  mt_clear t := (forward_mut t (fun T _ b => (mt_clear b, tt))).1;
  mt_erase_prefix := handle_erase_prefix;
  mt_approximate_bytes t := forward t (fun T _ b => mt_approximate_bytes b);
  mt_len t := forward t (fun T _ b => mt_len b);
  mt_is_empty t := forward t (fun T _ b => mt_is_empty b);
|}.
End Handle.
Arguments MemTable : clear implicits.

Section HandleLaws.
Context {Cell SM Heap : Type} `{SkipMapLaws Cell SM} `{ArcSwapLaws VersionChain Cell Heap}.

Lemma forward_bt {R} (f : forall T, MemTableBackend T -> T -> T * R) b b' r :
  f _ _ b = (b', r) -> forward_mut (HBTreeMap b : MemTable SM Heap) f = (HBTreeMap b', r).
Proof. intros E. cbn. by rewrite E. Qed.
Lemma forward_skip {R} (f : forall T, MemTableBackend T -> T -> T * R) s s' r :
  f _ _ s = (s', r) -> forward_mut (HSkipMap s : MemTable SM Heap) f = (HSkipMap s', r).
Proof. intros E. cbn. by rewrite E. Qed.
Lemma erase_bt b p b' n :
  mt_erase_prefix b p = Some (b', n) -> handle_erase_prefix (HBTreeMap b : MemTable SM Heap) p = Some (HBTreeMap b', n).
Proof. intros E. cbn [handle_erase_prefix]. by rewrite E. Qed.
Lemma erase_skip (s : SkipMapTable SM Heap) p s' n :
  mt_erase_prefix s p = Some (s', n) -> handle_erase_prefix (HSkipMap s) p = Some (HSkipMap s', n).
Proof. intros E. cbn [handle_erase_prefix]. by rewrite E. Qed.

(** Each law of the handle is the law of the backend behind it. *)
Lemma memtable_laws (impl_kind : MemTableImpl) :
  @MemTableLaws (MemTable SM Heap) (memtable_backend impl_kind).
Proof.
  unshelve refine {|
    mt_map := fun t : MemTable SM Heap => match t with HBTreeMap b => mt_map b | HSkipMap s => mt_map s end;
    mt_inv := fun t => match t with HBTreeMap b => mt_inv b | HSkipMap s => mt_inv s end |}.
  - intros [b|s] Hi; by apply mt_map_wf.
  - destruct impl_kind; [apply (mt_default_ok (T := BTreeMapTable))|apply (mt_default_ok (T := SkipMapTable SM Heap))].
  - intros [b|s] rs cts Hi Hc.
    + destruct (mt_apply_records_ok b rs cts Hi Hc) as (t' & E & Ht).
      exists (HBTreeMap t'). split; [|exact Ht]. by apply forward_bt.
    + destruct (mt_apply_records_ok s rs cts Hi Hc) as (t' & E & Ht).
      exists (HSkipMap t'). split; [|exact Ht]. by apply forward_skip.
  - intros [b|s] tx ms cts Hi Hc.
    + destruct (mt_apply_mutations_ok b tx ms cts Hi Hc) as (t' & E & Ht).
      exists (HBTreeMap t'). split; [|exact Ht]. by apply forward_bt.
    + destruct (mt_apply_mutations_ok s tx ms cts Hi Hc) as (t' & E & Ht).
      exists (HSkipMap t'). split; [|exact Ht]. by apply forward_skip.
  - intros [b|s] k sn Hi; [exact (mt_get_ok b k sn Hi)|exact (mt_get_ok s k sn Hi)].
  - intros [b|s] p sn Hi; [exact (mt_scan_prefix_ok b p sn Hi)|exact (mt_scan_prefix_ok s p sn Hi)].
  - intros [b|s] lo hi sn Hi Hle; [exact (mt_scan_range_ok b lo hi sn Hi Hle)|exact (mt_scan_range_ok s lo hi sn Hi Hle)].
  - intros [b|s] Hi; [exact (mt_all_ok b Hi)|exact (mt_all_ok s Hi)].
  - intros [b|s] out Hi; [exact (mt_drain_ok b out Hi)|exact (mt_drain_ok s out Hi)].
  - intros [b|s] oldest Hi Hc.
    + destruct (mt_gc_ok b oldest Hi Hc) as (t' & E & Ht).
      exists (HBTreeMap t'). split; [|exact Ht]. by apply forward_bt.
    + destruct (mt_gc_ok s oldest Hi Hc) as (t' & E & Ht).
      exists (HSkipMap t'). split; [|exact Ht]. by apply forward_skip.
  - intros [b|s] Hi; [exact (mt_clear_ok b Hi)|exact (mt_clear_ok s Hi)].
  - intros [b|s] p Hi doomed.
    + destruct (mt_erase_ok b p Hi) as (t' & E & Ht).
      exists (HBTreeMap t'). split; [|exact Ht]. exact (erase_bt _ _ _ _ E).
    + destruct (mt_erase_ok s p Hi) as (t' & E & Ht).
      exists (HSkipMap t'). split; [|exact Ht]. exact (erase_skip _ _ _ _ E).
  - intros [b|s] Hi; [exact (mt_len_ok b Hi)|exact (mt_len_ok s Hi)].
  - intros [b|s] Hi; [exact (mt_is_empty_ok b Hi)|exact (mt_is_empty_ok s Hi)].
Defined.
End HandleLaws.

(** ** Every call, on either backend *)

(** Commit timestamps are valid. *)
Definition op_stamped (op : MemOp) : Prop :=
  match op with
  | OpApplyRecords _ cts | OpApplyMutations _ _ cts => 0 <= cts < OPEN_ENDED_TS
  | _ => True
  end.

(** The calls a backend accepts: [BTreeMap::range] panics when the lower bound is after
    the upper one, the skip list finds nothing between them. *)
Definition accepts (impl_kind : MemTableImpl) (op : MemOp) : bool :=
  match impl_kind, op with
  | ImplBTreeMap, OpScanRange lo hi _ => lec lo hi
  | _, _ => true
  end.

Section Calls.
Context {Cell SM Heap : Type} `{SkipMapLaws Cell SM} `{ArcSwapLaws VersionChain Cell Heap}.
Context (impl_kind : MemTableImpl).
#[local] Instance kind_backend : MemTableBackend (MemTable SM Heap) := memtable_backend impl_kind.
#[local] Instance kind_laws : MemTableLaws (MemTable SM Heap) := memtable_laws impl_kind.

(** No call changes the kind of the table. *)
Lemma forward_impl {R} (t : MemTable SM Heap) (f : forall T, MemTableBackend T -> T -> T * R) :
  impl_of (forward_mut t f).1 = impl_of t.
Proof. destruct t as [b|b]; cbn; by destruct (f _ _ b). Qed.

Lemma step_impl (t t' : MemTable SM Heap) op out : mem_step t op = Some (t', out) -> impl_of t' = impl_of t.
Proof.
  destruct op as [rs cts|tx ms cts|k s|p s|lo hi s| |rows|oldest| |p| | |];
    cbn [mem_step kind_backend memtable_backend mt_apply_records_batch mt_apply_mutations_batch mt_garbage_collect
         mt_clear mt_erase_prefix]; try (by intros [= <- _]).
  1,2,5: match goal with |- context [forward_mut ?t ?f] => pose proof (forward_impl t f) as Hf; destruct (forward_mut t f) end;
    by intros [= <- _].
  1,2: by intros (x & _ & [= <- _])%bind_Some.
  - intros [= <- _]. apply forward_impl.
  - intros ([t1 n] & Hb & [= <- _])%bind_Some. destruct t as [b|b]; by apply bind_Some in Hb as ([b' n'] & _ & [= <- _]).
Qed.

Lemma skip_range (s : SkipMapTable SM Heap) lo hi sn :
  mt_scan_range_versions s lo hi sn = Some (push_visible (in_range lo hi) sn (mt_map s)).
Proof.
  cbn. unfold sk_scan_range_versions, sk_map, sk_load. rewrite sm_range_ok.
  unfold om_filter_range. rewrite om_map_filter, push_visible_filter. f_equal.
  apply push_visible_ext. intros k. by rewrite andb_true_r.
Qed.

(** An accepted call does what the abstract table does; one that is not panics. *)
Lemma handle_step (t : MemTable SM Heap) op :
  impl_of t = impl_kind -> mt_inv t -> op_stamped op -> versions_count (mt_map t) <= u64_max ->
  if accepts impl_kind op then
    exists t' out, mem_step t op = Some (t', out) /\ impl_of t' = impl_kind /\ mt_inv t' /\
      spec_step (mt_abs t) op = (mt_abs t', out) /\
      versions_count (mt_map t') <= versions_count (mt_map t) + op_writes op
  else mem_step t op = None.
Proof.
  intros Hk Hi Hop Hmax.
  assert (Hok : op_ok op -> exists t' out, mem_step t op = Some (t', out) /\ impl_of t' = impl_kind /\ mt_inv t' /\
      spec_step (mt_abs t) op = (mt_abs t', out) /\ versions_count (mt_map t') <= versions_count (mt_map t) + op_writes op).
  { intros Ho. destruct (mem_step_refines t op Hi Ho Hmax) as (t' & out & Hs & Hi' & Hsp & Hc). exists t', out.
    split; [done|]. split; [by rewrite (step_impl _ _ _ _ Hs)|done]. }
  destruct op as [rs cts|tx ms cts|k s|p s|lo hi s| |rows|oldest| |p| | |]; try (by destruct impl_kind; apply Hok).
  destruct t as [b|b]; cbn [impl_of] in Hk; rewrite <- Hk in Hok |- *; cbn [accepts].
  - destruct (lec lo hi) eqn:E; [apply Hok; by apply lec_spec|]. cbn. unfold bt_scan_range_versions, om_range. by rewrite E.
  - exists (HSkipMap b), (OutScan (push_visible (in_range lo hi) s (mt_map b))).
    split; [|split; [done|split; [done|split; [done|cbn; lia]]]].
    change (mem_step (HSkipMap b) (OpScanRange lo hi s)) with
      (rows ← mt_scan_range_versions b lo hi s; Some (HSkipMap b : MemTable SM Heap, OutScan rows)).
    by rewrite skip_range.
Qed.

Lemma handle_run (t : MemTable SM Heap) ops :
  impl_of t = impl_kind -> mt_inv t -> Forall op_stamped ops -> versions_count (mt_map t) + ops_writes ops <= u64_max ->
  mem_run t ops = if forallb (accepts impl_kind) ops then Some (spec_run (mt_abs t) ops) else None.
Proof.
  intros Hk Hi Hops. revert t Hk Hi. induction Hops as [|op ops Hop Hops IH]; intros t Hk Hi Hmax; [done|].
  cbn [mem_run spec_run ops_writes foldr forallb] in *. fold (ops_writes ops) in Hmax.
  assert (0 <= op_writes op) by (destruct op; simpl; lia).
  assert (0 <= ops_writes ops) by (clear; induction ops as [|o ops IH]; simpl; [lia|]; destruct o; simpl; lia).
  pose proof (handle_step t op Hk Hi Hop ltac:(lia)) as Hs. destruct (accepts impl_kind op); [|by rewrite Hs].
  destruct Hs as (t' & out & -> & Hk' & Hi' & Hspec & Hc). rewrite Hspec. cbn [mbind option_bind andb].
  rewrite (IH t' Hk' Hi' ltac:(lia)). by destruct (forallb _ ops).
Qed.
End Calls.

(** C37: whichever backend [with_impl] picks, a sequence of calls on the handle,
    started on an empty table, with valid commit timestamps and no more versions than
    fit a [u64], returns the results of the abstract table; the one exception is a range
    scan whose lower bound is after its upper bound, on which the B-tree backend panics,
    while the skip list returns nothing, as the abstract table does. *)
Theorem memtable_handle_exact {Cell SM Heap : Type}
    `{SkipMapLaws Cell SM} `{ArcSwapLaws VersionChain Cell Heap} (impl_kind : MemTableImpl) (ops : list MemOp) :
  Forall op_stamped ops -> ops_writes ops <= u64_max ->
  @mem_run (MemTable SM Heap) (memtable_backend impl_kind) (with_impl impl_kind) ops =
    if forallb (accepts impl_kind) ops then Some (spec_run ([], 0) ops) else None.
Proof.
  intros Hops Hmax.
  destruct (@mt_default_ok (MemTable SM Heap) (memtable_backend impl_kind) (memtable_laws impl_kind)) as (Hi & Hm & Hb).
  cbn [mt_default memtable_backend] in Hi, Hm, Hb.
  unshelve refine (eq_trans (handle_run (SM := SM) impl_kind (with_impl impl_kind) ops _ Hi Hops _) _).
  - by destruct impl_kind.
  - unfold kind_laws, kind_backend. by rewrite Hm.
  - unfold mt_abs, kind_laws, kind_backend. by rewrite Hm, Hb.
Qed.

Lemma memtable_handle_exact_witness :
  let run k := @mem_run (MemTable (SortedEntries nat) (list VersionChain)) (memtable_backend k) (with_impl k) in
  let ops := sample_ops ++ [OpScanRange [x62] [x61] (mkSnapshot 9)] in
  run ImplBTreeMap sample_ops = Some (spec_run ([], 0) sample_ops) /\
  run ImplBTreeMap ops = None /\ run ImplSkipMap ops = Some (spec_run ([], 0) ops).
Proof.
  intros run ops.
  assert (Hok : Forall op_stamped ops) by (repeat constructor; vm_compute; congruence).
  assert (Hok' : Forall op_stamped sample_ops) by (repeat constructor; vm_compute; congruence).
  assert (Hw : ops_writes ops <= u64_max) by (vm_compute; congruence).
  assert (Hw' : ops_writes sample_ops <= u64_max) by (vm_compute; congruence).
  split; [|split].
  - exact (memtable_handle_exact (SM := SortedEntries nat) (Heap := list VersionChain) ImplBTreeMap sample_ops Hok' Hw').
  - exact (memtable_handle_exact (SM := SortedEntries nat) (Heap := list VersionChain) ImplBTreeMap ops Hok Hw).
  - exact (memtable_handle_exact (SM := SortedEntries nat) (Heap := list VersionChain) ImplSkipMap ops Hok Hw).
Defined.

(** The two backends differ on a range whose bounds are swapped. *)
Lemma inverted_range_differs :
  let run k := @mem_run (MemTable (SortedEntries nat) (list VersionChain)) (memtable_backend k) (with_impl k) in
  run ImplBTreeMap [OpScanRange [x63] [x61] (mkSnapshot 1)] = None /\
  run ImplSkipMap [OpScanRange [x63] [x61] (mkSnapshot 1)] = Some [OutScan []].
Proof. split; vm_compute; reflexivity. Qed.
