(* ===== verification/TxManager.v ===== *)
(** * Transaction manager ([hatp-tx/src/manager.rs], [error.rs], [hook.rs])

    The SSI state machine: transaction handles, active contexts with their read
    and write sets, the committed-write history and its watermark garbage
    collection, provisional staging, conflict validation and the Cahill
    dangerous-structure search; and the engine hook that drives it.

    [HashSet<Bytes>] is a finite set whose iteration order is unspecified: the
    class [HashIter] is an arbitrary order, so that no theorem depends on it
    (it only decides which conflicting key an error reports). *)

From Stdlib Require Import Strings.String.
From stdpp Require Import base tactics list option gmap sets sorting relations.
From S2P Require Import Prelude OrdMap Types Version.
#[local] Open Scope Z_scope.
#[local] Set Warnings "-clear-no-such-hyp".

Abbreviation TxnId := Z (only parsing).
Abbreviation KeySet := (gset bytes).

Class HashIter := {
  hash_iter : KeySet -> list bytes;
  hash_iter_elem : forall s k, In k (hash_iter s) <-> k ∈ s;
}.

Inductive IsolationHint := IsoSnapshot.

Inductive TxnState := Active | Committed | Aborted.

#[global] Instance TxnState_eq_dec : EqDecision TxnState.
Proof. solve_decision. Defined.

Record TxnHandle := mkHandle { th_id : TxnId; th_isolation : IsolationHint; th_state : TxnState }.

Definition set_state (h : TxnHandle) (s : TxnState) : TxnHandle :=
  mkHandle (th_id h) (th_isolation h) s.

Record SsiTxn := mkSsi {
  handle : TxnHandle;
  start_ts : TxnTs;
  read_set : KeySet;
  write_set : KeySet;
  read_conflict_ranges : list (bytes * bytes);
}.

Definition ssi_new (h : TxnHandle) (start : TxnTs) : SsiTxn := mkSsi h start ∅ ∅ [].

Definition record_read (t : SsiTxn) (key : bytes) : SsiTxn :=
  mkSsi (handle t) (start_ts t) ({[key]} ∪ read_set t) (write_set t) (read_conflict_ranges t).

Definition record_write (t : SsiTxn) (key : bytes) : SsiTxn :=
  mkSsi (handle t) (start_ts t) (read_set t) ({[key]} ∪ write_set t) (read_conflict_ranges t).

Definition add_read_conflict_range (t : SsiTxn) (lower upper : bytes) : SsiTxn :=
  mkSsi (handle t) (start_ts t) (read_set t) (write_set t)
        (read_conflict_ranges t ++ [(lower, upper)]).

(** Errors of the transaction layer. *)
Inductive TxError :=
| InvalidState (txn : TxnId) (expected actual : TxnState)
| UnknownTxn (txn : TxnId)
| TxWriteConflict (txn : TxnId) (key : bytes)
| TxReadWriteConflict (txn : TxnId) (key : bytes).

Abbreviation TxResult A := (result TxError A).

(** ** The commit history *)

Record CommitEntry := mkEntry { ce_write_set : KeySet; ce_commit_ts : TxnTs }.

Abbreviation CommitHistory := (list CommitEntry).

Definition history_push (h : CommitHistory) (e : CommitEntry) : CommitHistory := h ++ [e].

(** Pops entries at the front while they are at or below the watermark. *)
Fixpoint history_pop_front (h : CommitHistory) (watermark : TxnTs) : CommitHistory :=
  match h with
  | e :: rest => if ce_commit_ts e <=? watermark then history_pop_front rest watermark else h
  | [] => []
  end.

Definition history_garbage_collect (h : CommitHistory) (watermark : TxnTs)
  : CommitHistory * nat :=
  let h' := history_pop_front h watermark in (h', (length h - length h')%nat).

Record TxManager := mkTM {
  transactions : omap TxnId TxnHandle;
  ssi_contexts : omap TxnId SsiTxn;
  commit_history : CommitHistory;
  provisional : list CommitEntry;
}.

Definition tm_default : TxManager := mkTM [] [] [] [].

Definition with_transactions (m : TxManager) t := mkTM t (ssi_contexts m) (commit_history m) (provisional m).
Definition with_contexts (m : TxManager) c := mkTM (transactions m) c (commit_history m) (provisional m).

(** ** Beginning a transaction *)

Definition begin_with_id (m : TxManager) (id : TxnId) (iso : IsolationHint) : TxManager * TxnHandle :=
  let h := mkHandle id iso Active in
  (with_transactions m (om_insert id h (transactions m)), h).

Definition begin_ssi_with_id (m : TxManager) (id : TxnId) (start : TxnTs) : TxManager * SsiTxn :=
  let '(m, h) := begin_with_id m id IsoSnapshot in
  let txn := ssi_new h start in
  (with_contexts m (om_insert id txn (ssi_contexts m)), txn).

Definition get_ssi_txn (m : TxManager) (id : TxnId) : option SsiTxn := om_get id (ssi_contexts m).

Definition update_ssi_txn (m : TxManager) (txn : SsiTxn) : TxManager :=
  with_contexts m (om_insert (th_id (handle txn)) txn (ssi_contexts m)).

(** [with_ssi_txn]: the closure mutates the context in place. *)
Definition with_ssi_txn {R} (m : TxManager) (id : TxnId) (f : SsiTxn -> SsiTxn * R)
  : TxManager * TxResult R :=
  match om_get id (ssi_contexts m) with
  | None => (m, Err (UnknownTxn id))
  | Some ssi => let '(ssi, r) := f ssi in
                (with_contexts m (om_insert id ssi (ssi_contexts m)), Ok r)
  end.

Definition tm_get (m : TxManager) (id : TxnId) : TxResult TxnHandle :=
  ok_or (om_get id (transactions m)) (UnknownTxn id).

(** ** Conflict validation *)

Definition in_ranges (ranges : list (bytes * bytes)) (key : bytes) : bool :=
  existsb (fun '(lo, hi) => lec lo key && ltc key hi) ranges.

Section Validate.
Context {hi : HashIter}.

(** [has_write_conflict]: both transactions wrote a common key. *)
Definition has_write_conflict (t other : SsiTxn) : bool :=
  existsb (fun k => bool_decide (k ∈ write_set other)) (hash_iter (write_set t)).

Definition write_set_hits_reads (ws rs : KeySet) (ranges : list (bytes * bytes)) : bool :=
  existsb (fun key => bool_decide (key ∈ rs) || in_ranges ranges key) (hash_iter ws).

(** The range loop of [check_conflict]: the first peer key inside a range. *)
Fixpoint first_in_ranges (ranges : list (bytes * bytes)) (ws : KeySet) : option bytes :=
  match ranges with
  | [] => None
  | (lower, upper) :: rest =>
      match find (fun k => lec lower k && ltc k upper) (hash_iter ws) with
      | Some k => Some k
      | None => first_in_ranges rest ws
      end
  end.

Definition check_conflict (txn : SsiTxn) (commit_ts : TxnTs) (ws : KeySet) : TxResult unit :=
  let id := th_id (handle txn) in
  if commit_ts <=? start_ts txn then Ok tt else
  match find (fun k => bool_decide (k ∈ ws)) (hash_iter (write_set txn)) with
  | Some k => Err (TxWriteConflict id k)
  | None =>
      match find (fun k => bool_decide (k ∈ ws)) (hash_iter (read_set txn)) with
      | Some k => Err (TxReadWriteConflict id k)
      | None =>
          match first_in_ranges (read_conflict_ranges txn) ws with
          | Some k => Err (TxReadWriteConflict id k)
          | None => Ok tt
          end
      end
  end.

Fixpoint check_entries (txn : SsiTxn) (es : list CommitEntry) : TxResult unit :=
  match es with
  | [] => Ok tt
  | e :: rest => let? _ := check_conflict txn (ce_commit_ts e) (ce_write_set e) in
                 check_entries txn rest
  end.

(** *** Cahill's dangerous structure *)

(** [outgoing]: peers that read what [from] wrote. *)
Definition outgoing (contexts : omap TxnId SsiTxn) (from : SsiTxn) : list TxnId :=
  List.flat_map (fun '(peer_id, peer) =>
    if peer_id =? th_id (handle from) then []
    else if write_set_hits_reads (write_set from) (read_set peer) (read_conflict_ranges peer)
    then [peer_id] else []) contexts.

(** The key reported with a cycle. *)
Definition cahill_key (txn : SsiTxn) (contexts : omap TxnId SsiTxn) : bytes :=
  default [] (find (fun k => existsb (fun '(_, peer) =>
    bool_decide (k ∈ read_set peer) || in_ranges (read_conflict_ranges peer) k) contexts)
    (hash_iter (write_set txn))).

(** The [while let Some(next) = frontier.pop()] loop; [None] is out of fuel.
    The frontier is a stack with its top last; here it is kept reversed. *)
Fixpoint cahill_loop (fuel : nat) (txn : SsiTxn) (contexts : omap TxnId SsiTxn)
    (visited : gset TxnId) (frontier : list TxnId) : option (TxResult unit) :=
  match fuel with
  | O => None
  | S fuel =>
      match frontier with
      | [] => Some (Ok tt)
      | next :: frontier =>
          if next =? th_id (handle txn) then
            Some (Err (TxReadWriteConflict (th_id (handle txn)) (cahill_key txn contexts)))
          else if bool_decide (next ∈ visited) then
            cahill_loop fuel txn contexts visited frontier
          else
            let frontier := match om_get next contexts with
                            | Some peer => rev (outgoing contexts peer) ++ frontier
                            | None => frontier
                            end in
            cahill_loop fuel txn contexts ({[next]} ∪ visited) frontier
      end
  end.

(** Every peer is expanded at most once, and pushes at most every peer. *)
Definition cahill_fuel (contexts : omap TxnId SsiTxn) : nat :=
  let n := length contexts in S (n + n * n)%nat.

Definition validate_cahill (txn : SsiTxn) (contexts : omap TxnId SsiTxn) : option (TxResult unit) :=
  cahill_loop (cahill_fuel contexts) txn contexts {[th_id (handle txn)]}
    (rev (outgoing contexts txn)).

(** *** Validation *)

Definition validate_ssi_with_contexts (m : TxManager) (txn : SsiTxn)
    (contexts : omap TxnId SsiTxn) : option (TxResult unit) :=
  match check_entries txn (commit_history m) with
  | Err e => Some (Err e)
  | Ok _ =>
      match check_entries txn (provisional m) with
      | Err e => Some (Err e)
      | Ok _ => validate_cahill txn contexts
      end
  end.

Definition validate_ssi (m : TxManager) (txn : SsiTxn) : option (TxResult unit) :=
  validate_ssi_with_contexts m txn (ssi_contexts m).

(** A rejected commit is terminal: the handle is marked aborted and the context
    removed. *)
Definition record_write_and_validate (m : TxManager) (id : TxnId) (keys : list bytes)
  : option (TxManager * TxResult unit) :=
  match om_get id (ssi_contexts m) with
  | None =>
      match tm_get m id with
      | Ok h => if decide (th_state h = Aborted)
                then Some (m, Err (InvalidState id Active Aborted))
                else Some (m, Err (UnknownTxn id))
      | Err _ => Some (m, Err (UnknownTxn id))
      end
  | Some txn =>
      let txn := fold_left record_write keys txn in
      let m := with_contexts m (om_insert id txn (ssi_contexts m)) in
      match validate_ssi_with_contexts m txn (ssi_contexts m) with
      | None => None
      | Some (Ok u) => Some (m, Ok u)
      | Some (Err e) =>
          let m := match om_get id (transactions m) with
                   | Some h => with_transactions m (om_insert id (set_state h Aborted) (transactions m))
                   | None => m
                   end in
          Some (with_contexts m (om_remove id (ssi_contexts m)), Err e)
      end
  end.
End Validate.

(** ** Staging, commit and abort *)

Definition stage_commit (m : TxManager) (id : TxnId) (commit_ts : TxnTs) : TxManager * TxResult unit :=
  match om_get id (ssi_contexts m) with
  | None => (m, Err (UnknownTxn id))
  | Some ssi =>
      (mkTM (transactions m) (ssi_contexts m) (commit_history m)
            (provisional m ++ [mkEntry (write_set ssi) commit_ts]), Ok tt)
  end.

Definition discard_staged (m : TxManager) : TxManager :=
  mkTM (transactions m) (ssi_contexts m) (commit_history m) [].

(** [min(start_ts)] over the contexts, [u64::MAX] when there is none. *)
Definition watermark (contexts : omap TxnId SsiTxn) : TxnTs :=
  match contexts with
  | [] => u64_max
  | (_, t) :: rest => fold_left (fun w e => Z.min w (start_ts e.2)) rest (start_ts t)
  end.

Definition commit_at (m : TxManager) (id : TxnId) (commit_ts : TxnTs) : TxManager * TxResult TxnHandle :=
  match om_get id (transactions m) with
  | None => (m, Err (UnknownTxn id))
  | Some h =>
      if negb (bool_decide (th_state h = Active))
      then (m, Err (InvalidState id Active (th_state h)))
      else
        let h := set_state h Committed in
        let m := with_transactions m (om_insert id h (transactions m)) in
        let m := match om_get id (ssi_contexts m) with
                 | None => m
                 | Some ssi =>
                     let contexts := om_remove id (ssi_contexts m) in
                     let history := history_push (commit_history m)
                                      (mkEntry (write_set ssi) commit_ts) in
                     let history := (history_garbage_collect history (watermark contexts)).1 in
                     mkTM (transactions m) contexts history (provisional m)
                 end in
        (m, Ok h)
  end.

Definition tm_abort (m : TxManager) (id : TxnId) : TxManager * TxResult TxnHandle :=
  match om_get id (transactions m) with
  | None => (m, Err (UnknownTxn id))
  | Some h =>
      match th_state h with
      | Active =>
          let h := set_state h Aborted in
          let m := with_transactions m (om_insert id h (transactions m)) in
          (with_contexts m (om_remove id (ssi_contexts m)), Ok h)
      | actual => (m, Err (InvalidState id Active actual))
      end
  end.

Definition inflight (m : TxManager) : list TxnHandle :=
  List.filter (fun h => bool_decide (th_state h = Active)) (om_vals (transactions m)).

Definition active_ssi_transactions (m : TxManager) : list SsiTxn :=
  List.filter (fun t => bool_decide (th_state (handle t) = Active)) (om_vals (ssi_contexts m)).

(** ** The engine hook ([TxManagerHook]) *)

Definition map_tx_error (e : TxError) : EngineError :=
  match e with
  | TxWriteConflict txn key => WriteConflict txn key
  | TxReadWriteConflict txn key => ReadWriteConflict txn key
  | InvalidState _ _ _ | UnknownTxn _ => Corrupt "ssi pre-commit validation failed"
  end.

Definition is_aborted (r : TxResult TxnHandle) : bool :=
  match r with Ok h => bool_decide (th_state h = Aborted) | Err _ => false end.

Definition on_pre_commit {hi : HashIter} (m : TxManager) (tx : Z) (ms : list Mutation)
  : option (TxManager * Result unit) :=
  if is_aborted (tm_get m tx) then Some (m, Err (WriteConflict tx [])) else
  match get_ssi_txn m tx with
  | None => Some (m, Ok tt)
  | Some _ =>
      match record_write_and_validate m tx (map mutation_key ms) with
      | None => None
      | Some (m, Ok _) => Some (m, Ok tt)
      | Some (m, Err (UnknownTxn _)) => Some (m, Ok tt)
      | Some (m, Err other) => Some (m, Err (map_tx_error other))
      end
  end.

Definition on_tx_commit (m : TxManager) (tx : Z) (commit_ts : TxnTs) : TxManager :=
  (commit_at m tx commit_ts).1.

(** ** Conflict checks *)

(** [ws] touches a key that [t] wrote, read, or scanned. *)
Definition touches (t : SsiTxn) (ws : KeySet) : Prop :=
  exists k, k ∈ ws /\
    (k ∈ write_set t \/ k ∈ read_set t \/ in_ranges (read_conflict_ranges t) k = true).

Section ValidateLemmas.
Context {hi : HashIter}.

Lemma find_hash_None f s : find f (hash_iter s) = None <-> forall k, k ∈ s -> f k = false.
Proof.
  split.
  - intros Hf k Hk. by apply (find_none _ _ Hf), hash_iter_elem.
  - intros Hall. destruct (find f (hash_iter s)) eqn:E; [|done].
    apply find_some in E as [Hin Hf]. rewrite Hall in Hf; [done|]. by apply hash_iter_elem.
Qed.

Lemma find_hash_Some f s k : find f (hash_iter s) = Some k -> k ∈ s /\ f k = true.
Proof. intros [Hin Hf]%find_some. split; [by apply hash_iter_elem|done]. Qed.

Lemma first_in_ranges_None ranges ws :
  first_in_ranges ranges ws = None <-> forall k, k ∈ ws -> in_ranges ranges k = false.
Proof.
  induction ranges as [|[lo up] rs IH]; cbn [first_in_ranges]; [done|].
  unfold in_ranges in *. cbn [existsb].
  destruct (find _ (hash_iter ws)) eqn:E.
  - apply find_hash_Some in E as [Hin Hk]. split; [done|]. intros Hall.
    specialize (Hall _ Hin). by rewrite Hk in Hall.
  - rewrite find_hash_None in E. rewrite IH. split; intros Hall k Hk.
    + by rewrite E, Hall.
    + specialize (Hall k Hk). by apply orb_false_iff in Hall as [_ ?].
Qed.

Lemma first_in_ranges_Some ranges ws k :
  first_in_ranges ranges ws = Some k -> k ∈ ws /\ in_ranges ranges k = true.
Proof.
  induction ranges as [|[lo up] rs IH]; cbn [first_in_ranges]; [done|].
  unfold in_ranges in *. cbn [existsb]. destruct (find _ (hash_iter ws)) eqn:E.
  - intros [= <-]. apply find_hash_Some in E as [Hin ->]. done.
  - intros [Hin Hk]%IH. split; [done|]. by rewrite Hk, orb_true_r.
Qed.

(** A check passes exactly when the peer is in the snapshot or touches nothing
    of the transaction; a failure names a key both of them touch. *)
Lemma check_conflict_spec t cts ws :
  match check_conflict t cts ws with
  | Ok _ => cts <= start_ts t \/ ~ touches t ws
  | Err (TxWriteConflict id k) =>
      id = th_id (handle t) /\ start_ts t < cts /\ k ∈ ws /\ k ∈ write_set t
  | Err (TxReadWriteConflict id k) =>
      id = th_id (handle t) /\ start_ts t < cts /\ k ∈ ws /\ write_set t ## ws /\
      (k ∈ read_set t \/ in_ranges (read_conflict_ranges t) k = true)
  | Err _ => False
  end.
Proof.
  unfold check_conflict. destruct (cts <=? start_ts t) eqn:Hc; zbool; [by left|].
  destruct (find _ (hash_iter (write_set t))) eqn:Ew.
  { apply find_hash_Some in Ew as [? Hk%bool_decide_eq_true]. done. }
  rewrite find_hash_None in Ew.
  assert (Hww : write_set t ## ws).
  { intros k Hk Hk'. specialize (Ew k Hk). by rewrite bool_decide_true in Ew. }
  destruct (find _ (hash_iter (read_set t))) eqn:Er.
  { apply find_hash_Some in Er as [? Hk%bool_decide_eq_true]. do 4 (split; [done|]). by left. }
  rewrite find_hash_None in Er.
  destruct (first_in_ranges _ ws) eqn:Ef.
  { apply first_in_ranges_Some in Ef as [? ?]. do 4 (split; [done|]). by right. }
  right. intros (k & Hk & [Hw|[Hr|Hg]]).
  - by apply (Hww k).
  - specialize (Er k Hr). by rewrite bool_decide_true in Er.
  - rewrite first_in_ranges_None in Ef. by rewrite (Ef k Hk) in Hg.
Qed.

Lemma check_conflict_ok t cts ws :
  check_conflict t cts ws = Ok tt <-> (start_ts t < cts -> ~ touches t ws).
Proof.
  pose proof (check_conflict_spec t cts ws) as Hs.
  destruct (check_conflict t cts ws) as [[]|[| | |]]; try done.
  - split; [|done]. intros _ Hlt. destruct Hs; [lia|done].
  - destruct Hs as (_ & Hlt & Hk & Hw). split; [done|]. intros Hn. destruct (Hn Hlt).
    exists key. auto.
  - destruct Hs as (_ & Hlt & Hk & _ & Hw). split; [done|]. intros Hn. destruct (Hn Hlt).
    exists key. tauto.
Qed.

Lemma check_entries_ok t es :
  check_entries t es = Ok tt <->
  Forall (fun e => start_ts t < ce_commit_ts e -> ~ touches t (ce_write_set e)) es.
Proof.
  induction es as [|e es IH]; simpl; [done|]. rewrite Forall_cons, <- IH, <- check_conflict_ok.
  destruct (check_conflict _ _ _) as [[]|]; simpl; split; intros Hx; try done; try (by destruct Hx);
    by split.
Qed.

Lemma check_entries_err t es e :
  check_entries t es = Err e ->
  exists c, c ∈ es /\ check_conflict t (ce_commit_ts c) (ce_write_set c) = Err e.
Proof.
  induction es as [|c es IH]; simpl; [done|].
  destruct (check_conflict t (ce_commit_ts c) (ce_write_set c)) as [[]|e'] eqn:E; simpl.
  - intros (c' & Hin & Hc)%IH. exists c'. split; [by right|done].
  - intros [= ->]. exists c. split; [by left|done].
Qed.
End ValidateLemmas.

(** ** The Cahill search is exact *)

Lemma size_list_to_set_le (l : list TxnId) : (size (list_to_set l : gset TxnId) <= length l)%nat.
Proof.
  induction l as [|x l IH]; [done|]. rewrite list_to_set_cons, size_union_alt, size_singleton.
  cbn [length]. assert (Hs : (size ((list_to_set l : gset TxnId) ∖ {[x]}) <= size (list_to_set l : gset TxnId))%nat)
    by (apply subseteq_size; set_solver). lia.
Qed.

Section Cahill.
Context {hi : HashIter}.
Variables (txn : SsiTxn) (contexts : omap TxnId SsiTxn).
Hypothesis ctx_sorted : om_sorted contexts.
(** Contexts are stored under their own identifier. *)
Hypothesis ctx_ids : forall i t, om_get i contexts = Some t -> th_id (handle t) = i.

Let id := th_id (handle txn).

(** The graph the search runs on: the committer itself, and the active peers. *)
Definition node (a : TxnId) : option SsiTxn := if a =? id then Some txn else om_get a contexts.

(** [a -> b]: [b] is a peer other than [a] that read a key [a] wrote. *)
Definition rw_edge (a b : TxnId) : Prop :=
  exists ta tb, node a = Some ta /\ om_get b contexts = Some tb /\ b <> a /\
    write_set_hits_reads (write_set ta) (read_set tb) (read_conflict_ranges tb) = true.

Lemma node_id a t : node a = Some t -> th_id (handle t) = a.
Proof.
  unfold node. destruct (a =? id) eqn:E; zbool; [|by apply ctx_ids]. intros [= <-]. by rewrite E.
Qed.

Lemma outgoing_In a t b : node a = Some t -> In b (outgoing contexts t) <-> rw_edge a b.
Proof.
  intros Hn. pose proof (node_id _ _ Hn) as Ha. unfold outgoing. rewrite in_flat_map. split.
  - intros ([b' tb] & Hin & Hb). destruct (b' =? _) eqn:E; [done|]. zbool.
    destruct (write_set_hits_reads _ _ _) eqn:Hw; [|done]. destruct Hb as [<-|[]].
    exists t, tb. split; [done|]. split; [by apply om_In_get|]. split; [congruence|done].
  - intros (ta & tb & Hta & Htb & Hne & Hw). rewrite Hn in Hta. injection Hta as <-.
    exists (b, tb). split; [by apply om_get_In|].
    rewrite (proj2 (Z.eqb_neq _ _)) by congruence. rewrite Hw. by left.
Qed.

Lemma outgoing_length t : (length (outgoing contexts t) <= length contexts)%nat.
Proof.
  unfold outgoing. clear ctx_sorted ctx_ids. induction contexts as [|[i u] c IH]; simpl; [lia|].
  rewrite length_app. destruct (_ =? _); [simpl; lia|]. destruct (write_set_hits_reads _ _ _); simpl; lia.
Qed.

Definition ctx_set : gset TxnId := list_to_set (om_keys contexts).

Lemma ctx_set_elem a : a ∈ ctx_set <-> is_Some (om_get a contexts).
Proof.
  unfold ctx_set. rewrite elem_of_list_to_set, list_elem_of_In. split.
  - intros Hin. destruct (om_get a contexts) eqn:E; [done|]. by apply om_get_None_notin in E.
  - intros [t Ht%om_get_In]. by apply (in_map fst) in Ht.
Qed.

(** Loop invariant of the search. *)
Record cahill_inv (visited : gset TxnId) (frontier : list TxnId) : Prop := {
  ci_id : id ∈ visited;
  ci_reach : forall x, In x frontier -> tc rw_edge id x;
  ci_visited : forall x, x ∈ visited -> x = id \/ tc rw_edge id x;
  ci_closed : forall x y, x ∈ visited -> rw_edge x y -> (y ∈ visited /\ y <> id) \/ In y frontier;
}.

Lemma cahill_inv_skip visited next frontier :
  cahill_inv visited (next :: frontier) -> next <> id -> next ∈ visited ->
  cahill_inv visited frontier.
Proof.
  intros [Hid Hr Hv Hc] Hne Hin. split; [done| |done|].
  - intros x Hx. apply Hr. by right.
  - intros x y Hx Hy. destruct (Hc x y Hx Hy) as [|[<-|]]; [by left|by left|by right].
Qed.

Lemma cahill_inv_expand visited next frontier peer :
  cahill_inv visited (next :: frontier) -> next <> id -> om_get next contexts = Some peer ->
  cahill_inv ({[next]} ∪ visited) (rev (outgoing contexts peer) ++ frontier).
Proof.
  intros [Hid Hr Hv Hc] Hne Hg.
  assert (Hn : node next = Some peer) by (unfold node; by rewrite (proj2 (Z.eqb_neq _ _))).
  assert (Hreach : tc rw_edge id next) by (apply Hr; by left).
  split.
  - set_solver.
  - intros x [Hx|Hx]%in_app_iff; [|apply Hr; by right].
    apply in_rev, (outgoing_In next) in Hx; [|done]. by eapply tc_r.
  - intros x [->%elem_of_singleton|Hx]%elem_of_union; [by right|by apply Hv].
  - intros x y [->%elem_of_singleton|Hx]%elem_of_union Hy.
    + right. apply in_app_iff. left. apply -> in_rev. by apply (outgoing_In next).
    + destruct (Hc x y Hx Hy) as [[? ?]|[<-|]].
      * left. set_solver.
      * left. set_solver.
      * right. apply in_app_iff. by right.
Qed.

(** When the frontier is empty no path returns to the committer. *)
Lemma cahill_inv_done visited : cahill_inv visited [] -> ~ tc rw_edge id id.
Proof.
  intros [Hid _ _ Hc]. assert (Hx : forall x y, tc rw_edge x y -> x ∈ visited -> y ∈ visited /\ y <> id).
  { intros x y. induction 1 as [x y Hxy|x y z Hxy _ IH]; intros Hx.
    - by destruct (Hc x y Hx Hxy) as [|[]].
    - destruct (Hc x y Hx Hxy) as [[? ?]|[]]. by apply IH. }
  intros Hcyc. by destruct (Hx _ _ Hcyc Hid).
Qed.

Lemma cahill_loop_spec fuel visited frontier :
  cahill_inv visited frontier ->
  (length frontier + length contexts * size (ctx_set ∖ visited) < fuel)%nat ->
  (forall x, In x frontier -> is_Some (om_get x contexts)) ->
  (tc rw_edge id id /\
   cahill_loop fuel txn contexts visited frontier =
     Some (Err (TxReadWriteConflict id (cahill_key txn contexts)))) \/
  (~ tc rw_edge id id /\ cahill_loop fuel txn contexts visited frontier = Some (Ok tt)).
Proof.
  revert visited frontier. induction fuel as [|fuel IH]; intros visited frontier Hinv Hf Hin; [lia|].
  destruct frontier as [|next frontier]; cbn [cahill_loop].
  { right. split; [by eapply cahill_inv_done|done]. }
  fold id. destruct (next =? id) eqn:E; zbool.
  { left. split; [|done]. subst next. apply (ci_reach _ _ Hinv). by left. }
  case_bool_decide as Hv.
  - apply IH; [by eapply cahill_inv_skip|cbn [length] in Hf; lia|]. intros x Hx. apply Hin. by right.
  - destruct (Hin next) as [peer Hp]; [by left|]. rewrite Hp.
    assert (Hsz : size (ctx_set ∖ visited) = S (size (ctx_set ∖ ({[next]} ∪ visited)))).
    { replace (ctx_set ∖ visited) with ({[next]} ∪ (ctx_set ∖ ({[next]} ∪ visited))).
      - rewrite size_union by set_solver. by rewrite size_singleton.
      - apply set_eq. intros x. assert (next ∈ ctx_set) by (by apply ctx_set_elem).
        destruct (decide (x = next)); set_solver. }
    apply IH; [by apply cahill_inv_expand| |].
    + pose proof (outgoing_length peer). rewrite length_app, length_rev.
      rewrite Hsz in Hf. cbn [length] in Hf. lia.
    + intros x [Hx%in_rev|Hx]%in_app_iff; [|apply Hin; by right].
      apply (outgoing_In next) in Hx; [|unfold node; by rewrite (proj2 (Z.eqb_neq _ _))].
      destruct Hx as (_ & tb & _ & Htb & _). eauto.
Qed.

Lemma validate_cahill_spec :
  (tc rw_edge id id /\
   validate_cahill txn contexts = Some (Err (TxReadWriteConflict id (cahill_key txn contexts)))) \/
  (~ tc rw_edge id id /\ validate_cahill txn contexts = Some (Ok tt)).
Proof.
  assert (Hn : node id = Some txn) by (unfold node; by rewrite Z.eqb_refl).
  apply cahill_loop_spec.
  - fold id. split.
    + set_solver.
    + intros x Hx%in_rev. apply tc_once. by apply (outgoing_In id _ _ Hn).
    + intros x ->%elem_of_singleton. by left.
    + intros x y ->%elem_of_singleton Hy. right. apply -> in_rev. by apply (outgoing_In id _ _ Hn).
  - unfold cahill_fuel. rewrite length_rev. pose proof (outgoing_length txn).
    assert (Hs : (size (ctx_set ∖ {[id]}) <= length contexts)%nat).
    { etransitivity; [apply subseteq_size; apply subseteq_difference_l; reflexivity|].
      unfold ctx_set. etransitivity; [apply size_list_to_set_le|]. unfold om_keys. by rewrite length_map. }
    fold id. nia.
  - intros x Hx%in_rev. apply (outgoing_In id _ _ Hn) in Hx as (_ & tb & _ & Htb & _). eauto.
Qed.
End Cahill.

(** ** The transaction system: commits in the engine's order

    The manager as the engine and the facade drive it, one locked operation per
    step.  A transaction is registered with a snapshot taken at any earlier moment:
    [begin_read] and [begin_ssi_with_id] are separate calls, and commits may fall
    between them.  A commit holds the engine's write guard and takes three steps:
    validation, then the commit timestamp (after the log write, which may fail), then
    the promotion by the commit callback; other transactions begin, read, write and
    abort in between.  A transaction is not written to or aborted while its own commit
    is under way (see [abort_during_commit_unrecorded]).  A group commit, which would
    validate several requests before it promotes any (see
    [batch_write_conflict_unseen]), does not arise: the queue is never used
    ([GroupCommit.queue_never_used]).

    [sys_clock] is the last commit timestamp handed out; [sys_commit] the commit under
    way.  [sys_log] is a ghost list of the SSI transactions committed so far, as they
    were validated, with their commit timestamps; [sys_late] a ghost list of the
    transactions registered too late, when an SSI commit after their snapshot had
    already been promoted. *)

Record InCommit := mkInCommit { ic_id : TxnId; ic_context : option SsiTxn; ic_ts : option TxnTs }.

Record Sys := mkSys {
  sys_tm : TxManager;
  sys_clock : TxnTs;
  sys_log : list (SsiTxn * TxnTs);
  sys_commit : option InCommit;
  sys_late : list TxnId;
}.

Definition sys_init : Sys := mkSys tm_default 0 [] None [].

Definition on_time (log : list (SsiTxn * TxnTs)) (s : TxnTs) : bool := forallb (fun e => e.2 <=? s) log.

Definition note_late (log : list (SsiTxn * TxnTs)) (s : TxnTs) (id : TxnId) (late : list TxnId) : list TxnId :=
  if on_time log s then late else id :: late.

(** What the commit of a context adds to the log. *)
Definition log_commit (t : option SsiTxn) (cts : TxnTs) : list (SsiTxn * TxnTs) :=
  match t with Some t => [(t, cts)] | None => [] end.

Section System.
Context {hi : HashIter}.

Inductive sys_step : Sys -> Sys -> Prop :=
| step_begin m clk log p late id s :
    om_get id (transactions m) = None -> ic_id <$> p <> Some id -> s <= clk ->
    sys_step (mkSys m clk log p late) (mkSys (begin_ssi_with_id m id s).1 clk log p (note_late log s id late))
| step_begin_plain m clk log p late id iso :
    om_get id (transactions m) = None ->
    sys_step (mkSys m clk log p late) (mkSys (begin_with_id m id iso).1 clk log p late)
| step_read m clk log p late id k :
    sys_step (mkSys m clk log p late)
             (mkSys (with_ssi_txn m id (fun t => (record_read t k, tt))).1 clk log p late)
| step_read_range m clk log p late id lo up :
    sys_step (mkSys m clk log p late)
             (mkSys (with_ssi_txn m id (fun t => (add_read_conflict_range t lo up, tt))).1 clk log p late)
| step_record_write m clk log p late id k :
    ic_id <$> p <> Some id ->
    sys_step (mkSys m clk log p late)
             (mkSys (with_ssi_txn m id (fun t => (record_write t k, tt))).1 clk log p late)
| step_abort m clk log p late id :
    ic_id <$> p <> Some id ->
    sys_step (mkSys m clk log p late) (mkSys (tm_abort m id).1 clk log p late)
| step_validate m clk log late id ms m1 :
    on_pre_commit m id ms = Some (m1, Ok tt) ->
    sys_step (mkSys m clk log None late) (mkSys m1 clk log (Some (mkInCommit id (get_ssi_txn m1 id) None)) late)
| step_reject m clk log late id ms m1 e :
    on_pre_commit m id ms = Some (m1, Err e) ->
    sys_step (mkSys m clk log None late) (mkSys m1 clk log None late)
| step_stamp m clk log late id t cts :
    clk < cts < u64_max ->
    sys_step (mkSys m clk log (Some (mkInCommit id t None)) late)
             (mkSys m cts log (Some (mkInCommit id t (Some cts))) late)
| step_promote m clk log late id t cts :
    sys_step (mkSys m clk log (Some (mkInCommit id t (Some cts))) late)
             (mkSys (on_tx_commit m id cts) clk (log ++ log_commit t cts) None late)
| step_commit_failure m clk log p late :
    sys_step (mkSys m clk log (Some p) late) (mkSys m clk log None late).

Definition sys_reachable (s : Sys) : Prop := rtc sys_step sys_init s.

(** *** Invariants *)

(** Every context belongs to an active transaction and is stored under its id. *)
Record tm_wf (m : TxManager) : Prop := {
  wf_transactions : om_sorted (transactions m);
  wf_contexts : om_sorted (ssi_contexts m);
  wf_ids : forall i t, om_get i (ssi_contexts m) = Some t -> th_id (handle t) = i;
  wf_active : forall i t, om_get i (ssi_contexts m) = Some t ->
    exists h, om_get i (transactions m) = Some h /\ th_state h = Active;
  wf_provisional : provisional m = [];
}.

Definition starts_before (clk : TxnTs) (m : TxManager) : Prop :=
  forall i t, om_get i (ssi_contexts m) = Some t -> start_ts t <= clk.

(** The history still holds every commit that an active transaction registered in
    time has not seen. *)
Definition history_covers (m : TxManager) (log : list (SsiTxn * TxnTs)) (late : list TxnId) : Prop :=
  forall i u t c, om_get i (ssi_contexts m) = Some u -> i ∉ late -> (t, c) ∈ log -> start_ts u < c ->
    mkEntry (write_set t) c ∈ commit_history m.

Definition history_sorted (clk : TxnTs) (h : CommitHistory) : Prop :=
  StronglySorted (fun a b => ce_commit_ts a < ce_commit_ts b) h /\
  Forall (fun e => ce_commit_ts e <= clk) h.

(** No commit of the log between the snapshot of [t] and [c] touches [t]. *)
Definition unspoilt (log : list (SsiTxn * TxnTs)) (late : list TxnId) (t : SsiTxn) (c : TxnTs) : Prop :=
  th_id (handle t) ∉ late ->
  forall t' c', (t', c') ∈ log -> start_ts t < c' < c -> ~ touches t (write_set t').

Definition log_serial (clk : TxnTs) (log : list (SsiTxn * TxnTs)) (late : list TxnId) : Prop :=
  StronglySorted (fun a b => a.2 < b.2) log /\
  Forall (fun e => start_ts e.1 < e.2 <= clk) log /\
  Forall (fun e => unspoilt log late e.1 e.2) log.

(** The commit under way: its context is still there with the write set that was
    validated, and once it is stamped, its timestamp is after all that is recorded. *)
Definition in_commit_ok (m : TxManager) (clk : TxnTs) (log : list (SsiTxn * TxnTs)) (late : list TxnId)
    (p : option InCommit) : Prop :=
  match p with
  | None => True
  | Some (mkInCommit id t ts) =>
      let bound := match ts with None => clk | Some _ => clk - 1 end in
      (forall cts, ts = Some cts -> cts = clk) /\
      history_sorted bound (commit_history m) /\ Forall (fun e => e.2 <= bound) log /\
      match t with
      | None => om_get id (ssi_contexts m) = None
      | Some t =>
          start_ts t <= bound /\ unspoilt log late t (bound + 1) /\
          exists u, om_get id (ssi_contexts m) = Some u /\ write_set u = write_set t
      end
  end.

Record sys_inv (s : Sys) : Prop := {
  si_wf : tm_wf (sys_tm s);
  si_starts : starts_before (sys_clock s) (sys_tm s);
  si_history : history_sorted (sys_clock s) (commit_history (sys_tm s));
  si_covers : history_covers (sys_tm s) (sys_log s) (sys_late s);
  si_serial : log_serial (sys_clock s) (sys_log s) (sys_late s);
  si_commit : in_commit_ok (sys_tm s) (sys_clock s) (sys_log s) (sys_late s) (sys_commit s);
}.

Lemma watermark_le contexts i (t : SsiTxn) :
  om_get i contexts = Some t -> watermark contexts <= start_ts t.
Proof.
  assert (Hf : forall (l : omap TxnId SsiTxn) w,
    fold_left (fun w e => Z.min w (start_ts e.2)) l w <= w /\
    Forall (fun e => fold_left (fun w e => Z.min w (start_ts e.2)) l w <= start_ts e.2) l).
  { induction l as [|e l IH]; intros w; simpl; [split; [lia|done]|].
    destruct (IH (Z.min w (start_ts e.2))) as [Hw Hl]. split; [lia|]. constructor; [lia|done]. }
  intros Hg%om_get_In. destruct contexts as [|[j u] rest]; [done|]. simpl.
  destruct (Hf rest (start_ts u)) as [Hw Hl]. destruct Hg as [[= -> ->]|Hg]; [done|].
  rewrite List.Forall_forall in Hl. exact (Hl (i, t) Hg).
Qed.

(** Garbage collection keeps every entry above the watermark, and the order. *)
Lemma history_gc_spec h w e :
  e ∈ h -> w < ce_commit_ts e -> e ∈ (history_garbage_collect h w).1.
Proof.
  unfold history_garbage_collect. cbn [fst].
  induction h as [|x h IH]; simpl; [done|]. intros Hin Hw.
  destruct (ce_commit_ts x <=? w) eqn:E; zbool; [|done].
  apply elem_of_cons in Hin as [->|Hin]; [lia|by apply IH].
Qed.

Lemma history_pop_suffix h w : exists pre, h = pre ++ history_pop_front h w.
Proof.
  induction h as [|x h [pre Hp]]; simpl; [by exists []|].
  destruct (_ <=? _); [exists (x :: pre); simpl; by f_equal|by exists []].
Qed.

Lemma history_gc_sorted clk h w :
  history_sorted clk h -> history_sorted clk (history_garbage_collect h w).1.
Proof.
  intros [Hs Hf]. unfold history_garbage_collect. cbn [fst].
  destruct (history_pop_suffix h w) as [pre Hp]. rewrite Hp in Hs, Hf.
  apply Forall_app in Hf as [_ Hf]. split; [|done].
  clear Hf Hp. induction pre; [done|]. apply IHpre. by inversion Hs.
Qed.

Lemma history_push_sorted clk cts h e :
  history_sorted clk h -> clk < cts -> ce_commit_ts e = cts ->
  history_sorted cts (history_push h e).
Proof.
  intros [Hs Hf] Hlt He. unfold history_push. split.
  - induction h as [|x h IH]; simpl; [repeat constructor|].
    inversion Hs; inversion Hf; subst. constructor; [by apply IH|].
    apply Forall_app. split; [done|]. constructor; [lia|done].
  - apply Forall_app. split; [eapply Forall_impl; [exact Hf|]; simpl; lia|].
    constructor; [lia|done].
Qed.

(** The part of the invariant that concerns the manager's own state. *)
Record tm_inv (clk : TxnTs) (log : list (SsiTxn * TxnTs)) (late : list TxnId) (m : TxManager) : Prop := {
  ti_wf : tm_wf m;
  ti_starts : starts_before clk m;
  ti_history : history_sorted clk (commit_history m);
  ti_covers : history_covers m log late;
}.

(** Updating a context in place, keeping its identity and snapshot. *)
Lemma tm_inv_update clk log late m id t t' :
  tm_inv clk log late m -> om_get id (ssi_contexts m) = Some t ->
  handle t' = handle t -> start_ts t' = start_ts t ->
  tm_inv clk log late (with_contexts m (om_insert id t' (ssi_contexts m))).
Proof.
  intros [[Ht Hc Hi Ha Hp] Hs Hh Hcov] Hg Hhd Hst. split; [split| |done|]; simpl; try done.
  - by apply om_sorted_insert.
  - intros i u. rewrite om_get_insert. destruct (eqc i id) eqn:E; [|apply Hi]. cbool. subst.
    intros [= <-]. rewrite Hhd. by apply Hi.
  - intros i u. rewrite om_get_insert. destruct (eqc i id) eqn:E; [|apply Ha]. cbool. subst.
    intros _. by eapply Ha.
  - intros i u. simpl. rewrite om_get_insert. destruct (eqc i id) eqn:E; [|apply Hs]. cbool. subst.
    intros [= <-]. rewrite Hst. by eapply Hs.
  - intros i u t0 c0. simpl. rewrite om_get_insert. destruct (eqc i id) eqn:E; [|apply Hcov]. cbool. subst.
    intros [= <-]. rewrite Hst. exact (Hcov id t t0 c0 Hg).
Qed.

(** Removing a context, while the handle of the same transaction changes. *)
Lemma tm_inv_close clk log late m id trs :
  tm_inv clk log late m -> om_sorted trs ->
  (forall i, i <> id -> om_get i trs = om_get i (transactions m)) ->
  tm_inv clk log late (with_contexts (with_transactions m trs) (om_remove id (ssi_contexts m))).
Proof.
  intros [[Ht Hc Hi Ha Hp] Hs Hh Hcov] Htrs Hsame.
  assert (Hrem : forall i t, om_get i (om_remove id (ssi_contexts m)) = Some t ->
                 i <> id /\ om_get i (ssi_contexts m) = Some t).
  { intros i t. rewrite om_get_remove. destruct (eqc id i) eqn:E; [done|]. cbool.
    intros Hg. split; [congruence|done]. }
  split; [split| |done|]; simpl; try done.
  - by apply om_sorted_remove.
  - intros i t [_ Hg]%Hrem. by apply Hi.
  - intros i t [Hne Hg]%Hrem. rewrite Hsame by done. by eapply Ha.
  - intros i t [_ Hg]%Hrem. by eapply Hs.
  - intros i u t c [_ Hg]%Hrem. by eapply Hcov.
Qed.

Lemma om_get_set_state id h (trs : omap TxnId TxnHandle) i :
  i <> id -> om_get i (om_insert id h trs) = om_get i trs.
Proof. intros. by rewrite om_get_insert_ne. Qed.

Lemma fold_record_write keys t :
  handle (fold_left record_write keys t) = handle t /\
  start_ts (fold_left record_write keys t) = start_ts t /\
  read_set (fold_left record_write keys t) = read_set t /\
  read_conflict_ranges (fold_left record_write keys t) = read_conflict_ranges t /\
  write_set (fold_left record_write keys t) = list_to_set keys ∪ write_set t.
Proof.
  revert t. induction keys as [|k ks IH]; intros t; simpl.
  - repeat split. set_solver.
  - destruct (IH (record_write t k)) as (-> & -> & -> & -> & ->). repeat split. simpl. set_solver.
Qed.

Lemma validate_total m t :
  tm_wf m -> exists r, validate_ssi_with_contexts m t (ssi_contexts m) = Some r.
Proof.
  intros [_ Hc Hi _ _]. unfold validate_ssi_with_contexts.
  destruct (check_entries t (commit_history m)); [|by eexists].
  destruct (check_entries t (provisional m)); [|by eexists].
  destruct (validate_cahill_spec t (ssi_contexts m) Hc Hi) as [[_ ->]|[_ ->]]; by eexists.
Qed.

(** What a successful validation establishes. *)
Definition validated (m : TxManager) (t : SsiTxn) : Prop :=
  check_entries t (commit_history m) = Ok tt /\
  ~ tc (rw_edge t (ssi_contexts m)) (th_id (handle t)) (th_id (handle t)).

Lemma validate_ok m t :
  tm_wf m -> validate_ssi_with_contexts m t (ssi_contexts m) = Some (Ok tt) -> validated m t.
Proof.
  intros [_ Hc Hi _ _]. unfold validate_ssi_with_contexts, validated.
  destruct (check_entries t (commit_history m)) as [[]|]; [|done].
  destruct (check_entries t (provisional m)) as [[]|]; [|done].
  destruct (validate_cahill_spec t (ssi_contexts m) Hc Hi) as [[_ ->]|[Hn ->]]; done.
Qed.

Definition is_conflict (e : TxError) : Prop :=
  match e with TxWriteConflict _ _ | TxReadWriteConflict _ _ => True | _ => False end.

Lemma check_entries_conflict t es e : check_entries t es = Err e -> is_conflict e.
Proof.
  intros (c & _ & Hc)%check_entries_err.
  pose proof (check_conflict_spec t (ce_commit_ts c) (ce_write_set c)) as Hs.
  rewrite Hc in Hs. by destruct e.
Qed.

Lemma validate_err m t e :
  tm_wf m -> validate_ssi_with_contexts m t (ssi_contexts m) = Some (Err e) -> is_conflict e.
Proof.
  intros [_ Hc Hi _ _]. unfold validate_ssi_with_contexts.
  destruct (check_entries t (commit_history m)) as [[]|] eqn:E1;
    [|intros [= <-]; by eapply check_entries_conflict].
  destruct (check_entries t (provisional m)) as [[]|] eqn:E2;
    [|intros [= <-]; by eapply check_entries_conflict].
  destruct (validate_cahill_spec t (ssi_contexts m) Hc Hi) as [[_ ->]|[Hn ->]]; [|done].
  by intros [= <-].
Qed.

Lemma record_write_and_validate_inv clk log late m id keys :
  tm_inv clk log late m ->
  exists m1 r, record_write_and_validate m id keys = Some (m1, r) /\ tm_inv clk log late m1 /\
    match om_get id (ssi_contexts m) with
    | None => m1 = m /\ exists e, r = Err e
    | Some t =>
        let t' := fold_left record_write keys t in
        match r with
        | Ok _ => om_get id (ssi_contexts m1) = Some t' /\ validated m1 t' /\
                  commit_history m1 = commit_history m /\ transactions m1 = transactions m
        | Err e => is_conflict e /\ om_get id (ssi_contexts m1) = None /\
                   exists h, om_get id (transactions m1) = Some h /\ th_state h = Aborted
        end
    end.
Proof.
  intros Hinv. unfold record_write_and_validate.
  destruct (om_get id (ssi_contexts m)) as [t|] eqn:Hg.
  - destruct (fold_record_write keys t) as (Hhd & Hst & _).
    set (t' := fold_left record_write keys t) in *.
    pose proof (tm_inv_update clk log late m id t t' Hinv Hg Hhd Hst) as Hinv1.
    set (m1 := with_contexts m (om_insert id t' (ssi_contexts m))) in *.
    destruct (validate_total m1 t') as [r Hr]; [apply Hinv1|]. rewrite Hr.
    destruct r as [[]|e].
    + eexists _, _. split; [done|]. split; [done|].
      split; [unfold m1; simpl; by rewrite om_get_insert_eq|].
      split; [by apply validate_ok; [apply Hinv1|]|done].
    + destruct (wf_active _ (ti_wf _ _ _ _ Hinv) id t Hg) as (h & Hh & _).
      change (transactions m1) with (transactions m). rewrite Hh. eexists _, _. split; [done|]. split.
      * apply (tm_inv_close clk log late m1 id (om_insert id (set_state h Aborted) (transactions m)));
          [done|apply om_sorted_insert, Hinv|]. intros. by apply om_get_set_state.
      * split; [by eapply validate_err; [apply Hinv1|]|].
        split; [simpl; by rewrite om_get_remove_eq|]. exists (set_state h Aborted).
        split; [simpl; by rewrite om_get_insert_eq|done].
  - destruct (tm_get m id) as [h|e]; [destruct (decide _)|]; eexists _, _; (split; [done|]); eauto.
Qed.

Lemma on_pre_commit_inv clk log late m id ms m1 r :
  tm_inv clk log late m -> on_pre_commit m id ms = Some (m1, r) ->
  tm_inv clk log late m1 /\
  match r with
  | Ok _ => commit_history m1 = commit_history m /\ transactions m1 = transactions m /\
            forall t, get_ssi_txn m1 id = Some t -> validated m1 t
  | Err _ => exists h, om_get id (transactions m1) = Some h /\ th_state h = Aborted
  end.
Proof.
  intros Hinv. unfold on_pre_commit. destruct (is_aborted (tm_get m id)) eqn:Hab.
  { intros [= <- <-]. split; [done|]. unfold is_aborted, tm_get in Hab.
    destruct (om_get id (transactions m)) as [h|]; [|done]. apply bool_decide_eq_true in Hab. eauto. }
  destruct (record_write_and_validate_inv clk log late m id (map mutation_key ms) Hinv)
    as (m' & r' & -> & Hinv' & Hr). unfold get_ssi_txn.
  destruct (om_get id (ssi_contexts m)) as [t|] eqn:Hg.
  - destruct r' as [u|e].
    + intros [= <- <-]. split; [done|]. destruct Hr as (Hg' & Hv & -> & ->).
      split; [done|]. split; [done|]. rewrite Hg'. intros t' [= <-]. done.
    + destruct Hr as (Hc & _ & Hh). destruct e; try done; intros [= <- <-]; done.
  - intros [= <- <-]. split; [done|]. split; [done|]. split; [done|]. by rewrite Hg.
Qed.

Lemma on_pre_commit_total clk log late m id ms :
  tm_inv clk log late m -> exists m1 r, on_pre_commit m id ms = Some (m1, r).
Proof.
  intros Hinv. unfold on_pre_commit. destruct (is_aborted (tm_get m id)); [eauto|].
  destruct (get_ssi_txn m id); [|eauto].
  destruct (record_write_and_validate_inv clk log late m id (map mutation_key ms) Hinv)
    as (m' & r' & -> & _). destruct r' as [|[]]; eauto.
Qed.

(** A later commit timestamp keeps everything said about the past. *)
Lemma tm_inv_tick clk cts log late m :
  tm_inv clk log late m -> clk <= cts -> tm_inv cts log late m.
Proof.
  intros [Hwf Hs [Hh Hf] Hc] Hle. split; [done| |split; [done|]|done].
  - intros i t Hg. specialize (Hs i t Hg). lia.
  - eapply Forall_impl; [exact Hf|]. simpl. lia.
Qed.

Lemma begin_inv clk log late m id s :
  tm_inv clk log late m -> s <= clk -> om_get id (transactions m) = None ->
  tm_inv clk log (note_late log s id late) (begin_ssi_with_id m id s).1.
Proof.
  intros [[Ht Hc Hi Ha Hp] Hs Hh Hcov] Hle Hnone. split; [split| |done|]; simpl; try done.
  - by apply om_sorted_insert.
  - by apply om_sorted_insert.
  - intros i t. rewrite om_get_insert. destruct (eqc i id) eqn:E; [|apply Hi]. cbool. subst.
    by intros [= <-].
  - intros i t. rewrite !om_get_insert. destruct (eqc i id) eqn:E; [|apply Ha].
    intros _. eexists. split; [done|done].
  - intros i t. simpl. rewrite om_get_insert. destruct (eqc i id) eqn:E; [|apply Hs].
    by intros [= <-].
  - intros i u t c. simpl. unfold note_late, on_time. rewrite om_get_insert. destruct (eqc i id) eqn:E; cbool.
    + subst. destruct (forallb _ log) eqn:Ho; [|intros _ Hl; exfalso; apply Hl; by left].
      intros [= <-] _ Hin Hlt. simpl in Hlt. rewrite forallb_forall in Ho.
      apply list_elem_of_In in Hin. specialize (Ho _ Hin). simpl in Ho. zbool. lia.
    + intros Hu Hl. apply (Hcov i u t c Hu). destruct (forallb _ log); [done|]. by apply not_elem_of_cons in Hl as [_ Hl].
Qed.

Lemma begin_plain_inv clk log late m id iso :
  tm_inv clk log late m -> om_get id (transactions m) = None ->
  tm_inv clk log late (begin_with_id m id iso).1.
Proof.
  intros [[Ht Hc Hi Ha Hp] Hs Hh Hcov] Hnone. split; [split| |done|]; simpl; try done.
  - by apply om_sorted_insert.
  - intros i t Hg. rewrite om_get_insert. destruct (eqc i id) eqn:E; [|by eapply Ha].
    eexists. split; [done|done].
Qed.

Lemma tm_abort_inv clk log late m id : tm_inv clk log late m -> tm_inv clk log late (tm_abort m id).1.
Proof.
  intros Hinv. unfold tm_abort. destruct (om_get id (transactions m)) as [h|] eqn:Hg; [|done].
  destruct (th_state h); try done.
  apply (tm_inv_close clk log late m id (om_insert id (set_state h Aborted) (transactions m)));
    [done|apply om_sorted_insert, Hinv|]. intros. by apply om_get_set_state.
Qed.

Lemma commit_at_no_context clk log late m id cts :
  tm_inv clk log late m -> om_get id (ssi_contexts m) = None -> tm_inv clk log late (commit_at m id cts).1.
Proof.
  intros [[Ht Hc Hi Ha Hp] Hs Hh Hcov] Hnone. unfold commit_at.
  destruct (om_get id (transactions m)) as [h|] eqn:Hg; [|by split].
  destruct (negb _); [by split|]. simpl. rewrite Hnone. simpl. split; [split| |done|]; simpl; try done.
  - by apply om_sorted_insert.
  - intros i t Hgi. rewrite om_get_insert_ne; [by eapply Ha|]. intros ->. congruence.
Qed.

(** The commit of an SSI transaction: its write set enters the history, and what
    garbage collection drops no active transaction can conflict with. *)
Lemma commit_at_inv cts log late m id t u :
  tm_inv cts log late m -> om_get id (ssi_contexts m) = Some u -> write_set u = write_set t ->
  history_sorted (cts - 1) (commit_history m) ->
  tm_inv cts (log ++ [(t, cts)]) late (commit_at m id cts).1.
Proof.
  intros Hinv Hg Hws Hbef. pose proof Hinv as [[Ht Hc Hi Ha Hp] Hs Hh Hcov].
  destruct (Ha id u Hg) as (h & Hgh & Hact). unfold commit_at. rewrite Hgh.
  rewrite bool_decide_true by done. simpl. rewrite Hg. simpl.
  pose proof (tm_inv_close cts log late m id (om_insert id (set_state h Committed) (transactions m)) Hinv
    ltac:(by apply om_sorted_insert) ltac:(intros; by apply om_get_set_state)) as [[? Hc' ? ? ?] Hs' _ Hcov'].
  simpl in *.
  split; [split; simpl; try done|done| |]; simpl.
  - apply history_gc_sorted. apply (history_push_sorted (cts - 1)); [done|lia|done].
  - intros i v t0 c0 Hv Hl Hin Hlt0. simpl in Hv. cbn [commit_history].
    pose proof (watermark_le _ _ _ Hv).
    apply (history_gc_spec _ _ (mkEntry (write_set t0) c0)); [|simpl; lia].
    unfold history_push. apply elem_of_app. apply elem_of_app in Hin as [Hin|Hin].
    + left. by eapply Hcov'.
    + right. apply list_elem_of_singleton in Hin. injection Hin as -> ->. rewrite Hws. by left.
Qed.

Lemma log_serial_tick clk cts log late : log_serial clk log late -> clk <= cts -> log_serial cts log late.
Proof.
  intros (Hs & Hf & Hn) Hle. split; [done|]. split; [|done].
  eapply Forall_impl; [exact Hf|]. simpl. lia.
Qed.

Lemma note_late_incl log s id late i : i ∉ note_late log s id late -> i ∉ late.
Proof. unfold note_late. destruct (on_time log s); [done|]. by intros [_ ?]%not_elem_of_cons. Qed.

Lemma log_serial_late clk log late late' :
  log_serial clk log late -> (forall i, i ∉ late' -> i ∉ late) -> log_serial clk log late'.
Proof.
  intros (Hs & Hf & Hn) Hl. split; [done|]. split; [done|].
  eapply Forall_impl; [exact Hn|]. intros e He Hi. by apply He, Hl.
Qed.

Lemma log_serial_snoc cts log late t :
  log_serial cts log late -> Forall (fun e => e.2 <= cts - 1) log -> start_ts t <= cts - 1 -> unspoilt log late t cts ->
  log_serial cts (log ++ [(t, cts)]) late.
Proof.
  intros (Hs & Hf & Hn) Hb Hst Hnew. split; [|split].
  - clear Hn Hnew Hf. induction log as [|e log IH]; simpl; [repeat constructor|].
    inversion Hs; inversion Hb; subst. constructor; [by apply IH|].
    apply Forall_app. split; [done|]. constructor; [simpl; lia|done].
  - apply Forall_app. split; [done|]. constructor; [simpl; lia|done].
  - rewrite Forall_forall in Hb. apply Forall_app. split.
    + eapply Forall_impl; [apply Forall_and; split; [exact Hf|exact Hn]|]. intros [u c] [Hc Hu] Hl t' c'. simpl in *.
      intros [Hin|Hin]%elem_of_app Hlt; [by eapply Hu|]. apply list_elem_of_singleton in Hin. injection Hin as -> ->. lia.
    + constructor; [|done]. intros Hl t' c'. simpl in *. intros [Hin|Hin]%elem_of_app Hlt; [by eapply Hnew|].
      apply list_elem_of_singleton in Hin. injection Hin as -> ->. lia.
Qed.

Lemma sys_inv_alt m clk log p late :
  sys_inv (mkSys m clk log p late) <-> tm_inv clk log late m /\ log_serial clk log late /\ in_commit_ok m clk log late p.
Proof. split; [intros [? ? ? ? ? ?]; by split|intros [[? ? ? ?] [? ?]]; by split]. Qed.

Lemma with_ssi_txn_inv clk log late m id (f : SsiTxn -> SsiTxn) :
  tm_inv clk log late m -> (forall t, handle (f t) = handle t /\ start_ts (f t) = start_ts t) ->
  tm_inv clk log late (with_ssi_txn m id (fun t => (f t, tt))).1.
Proof.
  intros Hinv Hf. unfold with_ssi_txn. destruct (om_get id (ssi_contexts m)) as [t|] eqn:Hg; [|done].
  destruct (Hf t). by eapply tm_inv_update.
Qed.

(** A step that leaves the history and the write set of the committer alone. *)
Lemma in_commit_ok_other m m' clk log late late' p :
  in_commit_ok m clk log late p -> commit_history m' = commit_history m -> (forall i, i ∉ late' -> i ∉ late) ->
  (forall id, ic_id <$> p = Some id ->
     write_set <$> om_get id (ssi_contexts m') = write_set <$> om_get id (ssi_contexts m)) ->
  in_commit_ok m' clk log late' p.
Proof.
  destruct p as [[id t ts]|]; [|done]. intros (Hts & Hh & Hf & Ht) Heq Hl Hctx. specialize (Hctx id eq_refl).
  split; [done|]. rewrite Heq. split; [done|]. split; [done|]. destruct t as [t|].
  - destruct Ht as (Hst & Hun & u & Hu & Hw). split; [done|]. split; [intros Hi; by apply Hun, Hl|].
    rewrite Hu in Hctx. destruct (om_get id (ssi_contexts m')) as [u'|]; [|done]. exists u'. split; [done|].
    cbn in Hctx. congruence.
  - rewrite Ht in Hctx. by destruct (om_get id (ssi_contexts m')).
Qed.

Lemma with_ssi_history {R} m id (f : SsiTxn -> SsiTxn * R) : commit_history (with_ssi_txn m id f).1 = commit_history m.
Proof. unfold with_ssi_txn. destruct (om_get id (ssi_contexts m)) as [t|]; [|done]. by destruct (f t). Qed.

Lemma with_ssi_writes m id (f : SsiTxn -> SsiTxn) j :
  j <> id \/ (forall t, write_set (f t) = write_set t) ->
  write_set <$> om_get j (ssi_contexts (with_ssi_txn m id (fun t => (f t, tt))).1) = write_set <$> om_get j (ssi_contexts m).
Proof.
  intros Hor. unfold with_ssi_txn. destruct (om_get id (ssi_contexts m)) as [t|] eqn:Hg; [|done]. cbn.
  rewrite om_get_insert. destruct (eqc j id) eqn:E; [|done]. cbool. subst. rewrite Hg. cbn.
  destruct Hor as [?|Hw]; [done|]. by rewrite Hw.
Qed.

Lemma abort_history m id : commit_history (tm_abort m id).1 = commit_history m.
Proof. unfold tm_abort. destruct (om_get id _) as [h|]; [|done]. by destruct (th_state h). Qed.

Lemma abort_context m id j : j <> id -> om_get j (ssi_contexts (tm_abort m id).1) = om_get j (ssi_contexts m).
Proof.
  intros Hne. unfold tm_abort. destruct (om_get id _) as [h|]; [|done]. destruct (th_state h); [|done..].
  cbn [with_contexts with_transactions ssi_contexts fst]. rewrite om_get_remove.
  destruct (eqc id j) eqn:E; [|done]. cbool. congruence.
Qed.

(** What validation establishes for the commit that starts. *)
Lemma validate_commit_ok clk log late m id ms m1 :
  tm_inv clk log late m -> log_serial clk log late -> on_pre_commit m id ms = Some (m1, Ok tt) ->
  tm_inv clk log late m1 /\ in_commit_ok m1 clk log late (Some (mkInCommit id (get_ssi_txn m1 id) None)).
Proof.
  intros Hinv (_ & Hf & _) Hpre. destruct (on_pre_commit_inv clk log late m id ms m1 (Ok tt) Hinv Hpre) as (Hinv1 & _ & _ & Hv).
  split; [done|]. split; [done|]. split; [apply Hinv1|]. split; [eapply Forall_impl; [exact Hf|]; simpl; lia|].
  unfold get_ssi_txn in *. destruct (om_get id (ssi_contexts m1)) as [t|] eqn:Hg; [|done].
  split; [by eapply (ti_starts _ _ _ _ Hinv1)|]. split; [|by exists t].
  destruct (Hv t eq_refl) as [Hck _]. rewrite check_entries_ok, Forall_forall in Hck.
  rewrite <- (wf_ids _ (ti_wf _ _ _ _ Hinv1) _ _ Hg) in Hg. intros Hl t' c' Hin Hlt.
  apply (Hck (mkEntry (write_set t') c')); [|simpl; lia]. eapply (ti_covers _ _ _ _ Hinv1); [done|done|done|lia].
Qed.

(** A stamped commit is promoted. *)
Lemma promote_inv clk log late m id t cts :
  tm_inv clk log late m -> log_serial clk log late -> in_commit_ok m clk log late (Some (mkInCommit id t (Some cts))) ->
  tm_inv clk (log ++ log_commit t cts) late (on_tx_commit m id cts) /\ log_serial clk (log ++ log_commit t cts) late.
Proof.
  intros Hinv Hser (Hts & Hh & Hf & Ht). specialize (Hts cts eq_refl). subst cts. unfold on_tx_commit. destruct t as [t|]; cbn [log_commit].
  - destruct Ht as (Hst & Hun & u & Hu & Hw). split; [by eapply commit_at_inv|].
    apply log_serial_snoc; [done|done|done|]. by rewrite Z.sub_add in Hun.
  - rewrite app_nil_r. split; [by apply commit_at_no_context|done].
Qed.

Lemma stamp_inv clk log late m id t cts :
  tm_inv clk log late m -> log_serial clk log late -> in_commit_ok m clk log late (Some (mkInCommit id t None)) -> clk < cts ->
  in_commit_ok m cts log late (Some (mkInCommit id t (Some cts))).
Proof.
  intros [_ _ [Hs Hh] _] _ (_ & _ & Hf & Ht) Hlt. split; [by intros ? [= <-]|].
  split; [split; [done|]; eapply Forall_impl; [exact Hh|]; simpl; lia|].
  split; [eapply Forall_impl; [exact Hf|]; simpl; lia|]. destruct t as [t|]; [|done].
  destruct Ht as (Hst & Hun & Hu). split; [lia|]. split; [|done].
  intros Hl t' c' Hin Hc. apply (Hun Hl t' c' Hin). rewrite Forall_forall in Hf. specialize (Hf _ Hin). simpl in Hf. lia.
Qed.

Lemma sys_step_inv s s' : sys_step s s' -> sys_inv s -> sys_inv s'.
Proof.
  destruct 1 as [m clk log p late id s Hnew Hp Hle|m clk log p late id iso Hnew|m clk log p late id k|m clk log p late id lo up
    |m clk log p late id k Hp|m clk log p late id Hp|m clk log late id ms m1 Hpre|m clk log late id ms m1 e Hpre
    |m clk log late id t cts Hc|m clk log late id t cts|m clk log p late];
    rewrite !sys_inv_alt; intros (Hinv & Hser & Hcom).
  - split; [by apply begin_inv|]. split; [eapply log_serial_late; [done|apply note_late_incl]|].
    eapply in_commit_ok_other; [done|done|apply note_late_incl|]. intros j Hj. cbn. rewrite om_get_insert_ne; [done|congruence].
  - split; [by apply begin_plain_inv|]. split; [done|]. by eapply in_commit_ok_other.
  - split; [by apply (with_ssi_txn_inv clk log late m id (fun t => record_read t k))|]. split; [done|].
    eapply in_commit_ok_other; [done|apply with_ssi_history|done|]. intros j _.
    apply (with_ssi_writes m id (fun t => record_read t k)). by right.
  - split; [by apply (with_ssi_txn_inv clk log late m id (fun t => add_read_conflict_range t lo up))|]. split; [done|].
    eapply in_commit_ok_other; [done|apply with_ssi_history|done|]. intros j _.
    apply (with_ssi_writes m id (fun t => add_read_conflict_range t lo up)). by right.
  - split; [by apply (with_ssi_txn_inv clk log late m id (fun t => record_write t k))|]. split; [done|].
    eapply in_commit_ok_other; [done|apply with_ssi_history|done|]. intros j Hj.
    apply (with_ssi_writes m id (fun t => record_write t k)). left. congruence.
  - split; [by apply tm_abort_inv|]. split; [done|].
    eapply in_commit_ok_other; [done|apply abort_history|done|]. intros j Hj. rewrite abort_context; [done|congruence].
  - destruct (validate_commit_ok clk log late m id ms m1 Hinv Hser Hpre). done.
  - destruct (on_pre_commit_inv clk log late m id ms m1 (Err e) Hinv Hpre). done.
  - split; [apply tm_inv_tick with clk; [done|lia]|]. split; [apply log_serial_tick with clk; [done|lia]|].
    eapply stamp_inv; [done|done|done|lia].
  - destruct (promote_inv clk log late m id t cts Hinv Hser Hcom). done.
  - done.
Qed.

Lemma sys_init_inv : sys_inv sys_init.
Proof.
  split; [split; simpl; try done; constructor|done|split; constructor|by intros i u t c|by repeat constructor|done].
Qed.

Lemma sys_steps_inv s s' : rtc sys_step s s' -> sys_inv s -> sys_inv s'.
Proof. induction 1; eauto using sys_step_inv. Qed.

Lemma sys_reachable_inv s : sys_reachable s -> sys_inv s.
Proof. intros Hr. eapply sys_steps_inv; [exact Hr|apply sys_init_inv]. Qed.

(** Commits at or before [upto] that wrote [k], oldest first. *)
Definition writers (log : list (SsiTxn * TxnTs)) (upto : TxnTs) (k : bytes) : list (SsiTxn * TxnTs) :=
  List.filter (fun e => (e.2 <=? upto) && bool_decide (k ∈ write_set e.1)) log.

(** What a transaction depends on: keys it read, scanned or wrote. *)
Definition depends (t : SsiTxn) (k : bytes) : Prop :=
  k ∈ write_set t \/ k ∈ read_set t \/ in_ranges (read_conflict_ranges t) k = true.

(** C7: serializability in commit order.  Take any reachable state: registrations
    with a snapshot of any earlier moment, and commits in the steps validation,
    timestamp and promotion, interleaved with the steps of the other transactions.
    For every committed SSI transaction that was registered in time (before any SSI
    commit after its snapshot was promoted) and every key it had read (point or range)
    or written when it was validated, the committed SSI writers of the key up to the
    transaction's snapshot are exactly those up to its commit: what it read is still
    current when it takes its place in the commit order, and no update is lost. *)
Theorem ssi_serializable (s : Sys) (t : SsiTxn) (c : TxnTs) (k : bytes) :
  sys_reachable s -> (t, c) ∈ sys_log s -> th_id (handle t) ∉ sys_late s -> depends t k ->
  start_ts t < c /\ writers (sys_log s) (start_ts t) k = writers (sys_log s) (c - 1) k.
Proof.
  intros Hr Hin Hl Hd. destruct (sys_reachable_inv s Hr) as [_ _ _ _ (_ & Hf & Hn) _].
  rewrite Forall_forall in Hf, Hn. pose proof (Hf _ Hin) as Hc. simpl in Hc. split; [lia|].
  apply filter_ext_in. intros [t' c'] Hin'%list_elem_of_In. simpl.
  destruct (c' <=? start_ts t) eqn:E1, (c' <=? c - 1) eqn:E2; zbool; try done; [lia|]. simpl.
  symmetry. apply bool_decide_eq_false. intros Hk.
  apply (Hn _ Hin Hl t' c' Hin'); [simpl; lia|]. by exists k.
Qed.

(** C26: history garbage collection is safe for transactions registered in time.
    In every reachable state of the same system, for every active SSI transaction
    that was registered before any SSI commit after its snapshot was promoted, and for
    every SSI transaction committed after that snapshot, the commit history still holds
    the committed write set, so validation cannot miss the conflict because of garbage
    collection; and the history is strictly ordered by commit timestamp. *)
Theorem ssi_history_complete (s : Sys) (i : TxnId) (u t : SsiTxn) (c : TxnTs) :
  sys_reachable s -> get_ssi_txn (sys_tm s) i = Some u -> i ∉ sys_late s -> (t, c) ∈ sys_log s -> start_ts u < c ->
  mkEntry (write_set t) c ∈ commit_history (sys_tm s) /\
  StronglySorted (fun a b => ce_commit_ts a < ce_commit_ts b) (commit_history (sys_tm s)).
Proof.
  intros Hr Hg Hl Hin Hlt. destruct (sys_reachable_inv s Hr) as [_ _ [Hs _] Hc _ _].
  split; [by eapply Hc|done].
Qed.

(** *** Terminal states *)

Definition terminal (m : TxManager) (j : TxnId) (h : TxnHandle) : Prop :=
  om_get j (transactions m) = Some h /\ th_state h <> Active.

Lemma terminal_other m j h i h' c :
  terminal m j h -> j <> i ->
  terminal (with_contexts (with_transactions m (om_insert i h' (transactions m))) c) j h.
Proof. intros [Hg Hs] Hne. split; [simpl; by rewrite om_get_insert_ne|done]. Qed.

Lemma terminal_pre_commit clk log late m id ms m1 r j h :
  tm_inv clk log late m -> on_pre_commit m id ms = Some (m1, r) -> terminal m j h -> terminal m1 j h.
Proof.
  intros Hinv. unfold on_pre_commit. destruct (is_aborted _); [by intros [= <- <-]|].
  unfold get_ssi_txn. destruct (om_get id (ssi_contexts m)) as [t|] eqn:Hg; [|by intros [= <- <-]].
  unfold record_write_and_validate. rewrite Hg.
  destruct (wf_active _ (ti_wf _ _ _ _ Hinv) id t Hg) as (h0 & Hh0 & Hact).
  set (t' := fold_left record_write _ t). set (m' := with_contexts m _).
  destruct (validate_ssi_with_contexts m' t' _) as [[[]|e]|]; [by intros [= <- <-]| |done].
  change (transactions m') with (transactions m). rewrite Hh0. intros Hres Hterm.
  assert (Hm1 : m1 = with_contexts (with_transactions m' (om_insert id (set_state h0 Aborted) (transactions m')))
                       (om_remove id (ssi_contexts m'))) by (destruct e; by injection Hres).
  rewrite Hm1. apply terminal_other; [done|]. intros ->. destruct Hterm as [Hgt Hns]. congruence.
Qed.

Lemma terminal_commit m id cts j h : terminal m j h -> terminal (commit_at m id cts).1 j h.
Proof.
  intros [Hg Hs]. unfold commit_at. destruct (om_get id (transactions m)) as [h0|] eqn:Hg0; [|done].
  case_bool_decide as Hact; [|done]. simpl.
  assert (j <> id) by (intros ->; congruence).
  destruct (om_get id (ssi_contexts m)); (split; [|done]); simpl; by rewrite om_get_insert_ne.
Qed.

Lemma terminal_step s s' j h :
  sys_inv s -> sys_step s s' -> terminal (sys_tm s) j h -> terminal (sys_tm s') j h.
Proof.
  intros Hinv Hstep. assert (Hti : tm_inv (sys_clock s) (sys_log s) (sys_late s) (sys_tm s)).
  { destruct s. by apply sys_inv_alt in Hinv as [? _]. }
  destruct Hstep as [m clk log p late id s Hnew Hp Hle|m clk log p late id iso Hnew|m clk log p late id k|m clk log p late id lo up
    |m clk log p late id k Hp|m clk log p late id Hp|m clk log late id ms m1 Hpre|m clk log late id ms m1 e Hpre
    |m clk log late id t cts Hc|m clk log late id t cts|m clk log p late];
    simpl in *; intros Hterm; pose proof Hterm as [Hg Hs].
  - split; [simpl; rewrite om_get_insert_ne; [done|congruence]|done].
  - split; [simpl; rewrite om_get_insert_ne; [done|congruence]|done].
  - unfold with_ssi_txn. by destruct (om_get id (ssi_contexts m)).
  - unfold with_ssi_txn. by destruct (om_get id (ssi_contexts m)).
  - unfold with_ssi_txn. by destruct (om_get id (ssi_contexts m)).
  - unfold tm_abort. destruct (om_get id (transactions m)) as [h0|] eqn:Hg0; [|done].
    destruct (th_state h0) eqn:Hst; [|done|done].
    apply terminal_other; [done|]. intros ->. congruence.
  - by eapply terminal_pre_commit.
  - by eapply terminal_pre_commit.
  - done.
  - by apply terminal_commit.
  - done.
Qed.

Lemma terminal_steps s s' j h :
  sys_inv s -> rtc sys_step s s' -> terminal (sys_tm s) j h -> terminal (sys_tm s') j h.
Proof.
  intros Hi Hr. revert Hi. induction Hr as [|s s1 s2 Hs Hr IH]; intros Hi Ht; [done|].
  apply IH; [by eapply sys_step_inv|by eapply terminal_step].
Qed.

(** A rejected commit is final.  Once pre-commit validation has rejected a
    transaction, in every later state it stays aborted and every retry is
    rejected again; it can never be downgraded to an unvalidated commit. *)
Lemma ssi_rejection_final (m m1 : TxManager) (clk : TxnTs) (log : list (SsiTxn * TxnTs)) (late : list TxnId)
    (id : TxnId) (ms ms' : list Mutation) (e : EngineError) (s' : Sys) :
  sys_reachable (mkSys m clk log None late) -> on_pre_commit m id ms = Some (m1, Err e) ->
  rtc sys_step (mkSys m1 clk log None late) s' ->
  on_pre_commit (sys_tm s') id ms' = Some (sys_tm s', Err (WriteConflict id [])) /\
  exists h, tm_get (sys_tm s') id = Ok h /\ th_state h = Aborted.
Proof.
  intros Hr Hpre Hs'. pose proof (sys_reachable_inv _ Hr) as Hi.
  pose proof (sys_step_inv _ _ (step_reject m clk log late id ms m1 e Hpre) Hi) as Hi1.
  apply sys_inv_alt in Hi as [Hi _].
  destruct (on_pre_commit_inv _ _ _ _ _ _ _ _ Hi Hpre) as (_ & h & Hg & Hab).
  destruct (terminal_steps _ _ id h Hi1 Hs') as [Hg' _].
  { split; [done|]. by rewrite Hab. }
  unfold on_pre_commit, is_aborted, tm_get. rewrite Hg'. simpl. rewrite bool_decide_true by done.
  eauto.
Qed.

(** Lifecycle.  Committed and aborted are terminal: no later step, by any
    transaction, changes the handle, and commit and abort of it fail with the
    state it is in. *)
Lemma txn_terminal_states (s s' : Sys) (id : TxnId) (h : TxnHandle) (cts : TxnTs) :
  sys_reachable s -> rtc sys_step s s' ->
  om_get id (transactions (sys_tm s)) = Some h -> th_state h <> Active ->
  tm_get (sys_tm s') id = Ok h /\
  commit_at (sys_tm s') id cts = (sys_tm s', Err (InvalidState id Active (th_state h))) /\
  tm_abort (sys_tm s') id = (sys_tm s', Err (InvalidState id Active (th_state h))).
Proof.
  intros Hr Hs Hg Hst. destruct (terminal_steps s s' id h (sys_reachable_inv _ Hr) Hs) as [Hg' _].
  { by split. }
  unfold tm_get, commit_at, tm_abort. rewrite Hg'. split; [done|].
  split; [by rewrite bool_decide_false|]. by destruct (th_state h).
Qed.
End System.

(** C38: the Cahill search is exact and terminates: it rejects the committer
    exactly when the committer lies on a cycle of read-write dependencies
    among active transactions, of any length. *)
Theorem cahill_exact {hi : HashIter} (txn : SsiTxn) (contexts : omap TxnId SsiTxn) :
  om_sorted contexts ->
  (forall i t, om_get i contexts = Some t -> th_id (handle t) = i) ->
  let id := th_id (handle txn) in
  exists r, validate_cahill txn contexts = Some r /\
    (r = Ok tt <-> ~ tc (rw_edge txn contexts) id id) /\
    (is_ok r = false <-> tc (rw_edge txn contexts) id id).
Proof.
  intros Hs Hi id.
  destruct (validate_cahill_spec txn contexts Hs Hi) as [[Hc ->]|[Hc ->]]; eexists; (split; [done|]).
  - split; [split; [done|intros Hn; by destruct Hn]|done].
  - split; [done|split; [done|intros Hn; by destruct Hc]].
Qed.

(** Conflict classification.  Validation against one committed peer passes
    exactly when the peer is part of the snapshot or touches nothing the
    transaction wrote, read or scanned; a write-write conflict is reported
    before a read-write one, and the key reported is one both touched. *)
Lemma conflict_check_exact {hi : HashIter} (t : SsiTxn) (cts : TxnTs) (ws : KeySet) :
  (check_conflict t cts ws = Ok tt <-> (start_ts t < cts -> ~ touches t ws)) /\
  (forall id k, check_conflict t cts ws = Err (TxWriteConflict id k) ->
     k ∈ ws /\ k ∈ write_set t) /\
  (forall id k, check_conflict t cts ws = Err (TxReadWriteConflict id k) ->
     k ∈ ws /\ write_set t ## ws /\
     (k ∈ read_set t \/ in_ranges (read_conflict_ranges t) k = true)).
Proof.
  pose proof (check_conflict_spec t cts ws) as Hs. split; [apply check_conflict_ok|].
  split; intros id k Heq; rewrite Heq in Hs; tauto.
Qed.

(** ** Witnesses *)

#[global] Instance elements_iter : HashIter.
Proof.
  refine {| hash_iter s := elements s |}. intros s k. by rewrite <- list_elem_of_In, elem_of_elements.
Defined.

(** Two transactions: [1] reads [a] and commits a write of [b]; [2], which began
    before that commit, reads [b]. *)
Definition run1 : TxManager :=
  let m := (begin_ssi_with_id tm_default 1 0).1 in
  let m := (begin_ssi_with_id m 2 0).1 in
  let m := (with_ssi_txn m 1 (fun t => (record_read t [x61], tt))).1 in
  (with_ssi_txn m 2 (fun t => (record_read t [x62], tt))).1.

Lemma run1_reachable : sys_reachable (mkSys run1 0 [] None []).
Proof.
  eapply rtc_l; [apply (step_begin _ _ _ _ _ 1 0); done|].
  eapply rtc_l; [apply (step_begin _ _ _ _ _ 2 0); done|].
  eapply rtc_l; [apply (step_read _ _ _ _ _ 1 [x61])|].
  eapply rtc_l; [apply (step_read _ _ _ _ _ 2 [x62])|]. reflexivity.
Qed.

Definition pre1 : TxManager := match on_pre_commit run1 1 [MPut [x62] [x31]] with
  | Some (m, _) => m | None => run1 end.
Definition txn1 : SsiTxn := match get_ssi_txn pre1 1 with
  | Some t => t | None => ssi_new (mkHandle 1 IsoSnapshot Active) 0 end.
Definition sys2 : Sys := mkSys (on_tx_commit pre1 1 7) 7 [(txn1, 7)] None [].

Lemma sys2_reachable : sys_reachable sys2.
Proof.
  unfold sys_reachable. etransitivity; [apply run1_reachable|].
  eapply rtc_l; [apply (step_validate run1 0 [] [] 1 [MPut [x62] [x31]] pre1); vm_compute; reflexivity|].
  assert (E : get_ssi_txn pre1 1 = Some txn1) by (vm_compute; reflexivity). rewrite E.
  eapply rtc_l; [apply (step_stamp pre1 0 [] [] 1 (Some txn1) 7); done|].
  apply rtc_once, (step_promote pre1 7 [] [] 1 (Some txn1) 7).
Qed.

Lemma ssi_serializable_witness :
  start_ts txn1 < 7 /\ writers (sys_log sys2) (start_ts txn1) [x61] = writers (sys_log sys2) 6 [x61].
Proof.
  apply (ssi_serializable sys2 txn1 7 [x61] sys2_reachable).
  - apply list_elem_of_singleton. reflexivity.
  - apply not_elem_of_nil.
  - right. left. apply (bool_decide_unpack _). vm_compute. exact I.
Defined.

Definition txn2 : SsiTxn := match get_ssi_txn (sys_tm sys2) 2 with
  | Some t => t | None => txn1 end.

Lemma ssi_history_complete_witness :
  mkEntry (write_set txn1) 7 ∈ commit_history (sys_tm sys2).
Proof.
  apply (proj1 (ssi_history_complete sys2 2 txn2 txn1 7 sys2_reachable
    ltac:(vm_compute; reflexivity) ltac:(apply not_elem_of_nil) ltac:(apply list_elem_of_singleton; reflexivity)
    ltac:(vm_compute; reflexivity))).
Defined.

Definition rejected2 : TxManager := match on_pre_commit (sys_tm sys2) 2 [MPut [x63] [x31]] with
  | Some (m, _) => m | None => tm_default end.

Lemma rejected2_eq :
  on_pre_commit (sys_tm sys2) 2 [MPut [x63] [x31]] = Some (rejected2, Err (ReadWriteConflict 2 [x62])).
Proof. vm_compute. reflexivity. Qed.

(** A write-skew pair: each reads what the other writes. *)
Definition skew_a : SsiTxn := mkSsi (mkHandle 1 IsoSnapshot Active) 0 {[ [x62] ]} {[ [x61] ]} [].
Definition skew_b : SsiTxn := mkSsi (mkHandle 2 IsoSnapshot Active) 0 {[ [x61] ]} {[ [x62] ]} [].

Lemma cahill_exact_witness :
  exists r, validate_cahill skew_a [(1, skew_a); (2, skew_b)] = Some r /\
    (is_ok r = false <-> tc (rw_edge skew_a [(1, skew_a); (2, skew_b)]) 1 1) /\ is_ok r = false.
Proof.
  destruct (cahill_exact skew_a [(1, skew_a); (2, skew_b)]) as (r & Hr & _ & Hc).
  - repeat constructor.
  - intros i t. simpl. destruct (eqc i 1) eqn:E1; [|destruct (eqc i 2) eqn:E2]; cbool; [..|done];
      intros [= <-]; subst; reflexivity.
  - exists r. split; [exact Hr|]. split; [exact Hc|].
    assert (Hv : validate_cahill skew_a [(1, skew_a); (2, skew_b)] =
                 Some (Err (TxReadWriteConflict 1 [x61]))) by (vm_compute; reflexivity).
    rewrite Hr in Hv. by injection Hv as ->.
Defined.

(** The verdict of pre-commit validation. *)
Definition verdict (o : option (TxManager * Result unit)) : option (Result unit) := snd <$> o.
Definition after (o : option (TxManager * Result unit)) : TxManager := default tm_default (fst <$> o).

(** A transaction whose snapshot was taken before a commit but which is
    registered after it finds an already collected history: its validation
    passes although the commit overwrote what it writes. *)
Lemma late_registration_misses_conflict :
  let pre := on_pre_commit (begin_ssi_with_id tm_default 1 0).1 1 [MPut [x61] [x31]] in
  verdict pre = Some (Ok tt) /\
  verdict (on_pre_commit (begin_ssi_with_id (on_tx_commit (after pre) 1 5) 2 0).1 2 [MPut [x61] [x32]])
    = Some (Ok tt).
Proof. split; vm_compute; reflexivity. Qed.

(** Two transactions of one group-commit batch are both validated before either
    is promoted; nothing stages the first, so a write-write conflict passes. *)
Lemma batch_write_conflict_unseen :
  let pre := on_pre_commit (begin_ssi_with_id (begin_ssi_with_id tm_default 1 0).1 2 0).1
               1 [MPut [x61] [x31]] in
  verdict pre = Some (Ok tt) /\
  verdict (on_pre_commit (after pre) 2 [MPut [x61] [x32]]) = Some (Ok tt).
Proof. split; vm_compute; reflexivity. Qed.

(** The commit of a transaction whose context is aborted between validation and
    promotion, as by dropping a retry handle of it in another thread: the commit is
    durable, but its write set never enters the history, and a concurrent writer of the
    same key passes validation. *)
Lemma abort_during_commit_unrecorded :
  let pre := on_pre_commit (begin_ssi_with_id (begin_ssi_with_id tm_default 1 0).1 2 0).1
               1 [MPut [x61] [x31]] in
  let m := on_tx_commit (tm_abort (after pre) 1).1 1 5 in
  verdict pre = Some (Ok tt) /\ commit_history m = [] /\
  verdict (on_pre_commit m 2 [MPut [x61] [x32]]) = Some (Ok tt).
Proof. repeat split; vm_compute; reflexivity. Qed.
