(* ===== verification/Codec.v ===== *)
(** * Key encodings and hashes ([hatp-types/src/codec.rs], key layout of [lib.rs])

    The order-preserving primary-key encoding of scalars, the 8-byte secondary
    index encoding, the composition of encoded parts into table keys, and the
    two deterministic hashes of the bloom filter.

    [ScalarValue] is DataFusion's enum; the constructors below are the ones the
    code distinguishes, [SvOther] every other value.  Integers are carried at
    their declared width, strings as their UTF-8 bytes, floats as their IEEE-754
    bit patterns; of a value of another type only whether it is null is known. *)

From stdpp Require Import base tactics list option.
From S2P Require Import Prelude.
#[local] Open Scope Z_scope.

Inductive ScalarValue :=
| SvNull
| SvInt8 (v : option Z) | SvInt16 (v : option Z) | SvInt32 (v : option Z) | SvInt64 (v : option Z)
| SvUInt8 (v : option Z) | SvUInt16 (v : option Z) | SvUInt32 (v : option Z) | SvUInt64 (v : option Z)
| SvFloat32 (bits : option Z) | SvFloat64 (bits : option Z)
| SvBoolean (v : option bool)
| SvUtf8 (v : option bytes) | SvLargeUtf8 (v : option bytes)
| SvBinary (v : option bytes) | SvLargeBinary (v : option bytes)
| SvDate32 (v : option Z) | SvDate64 (v : option Z)
| SvTimestampSecond (v : option Z) (tz : option bytes) | SvTimestampMillisecond (v : option Z) (tz : option bytes)
| SvTimestampMicrosecond (v : option Z) (tz : option bytes) | SvTimestampNanosecond (v : option Z) (tz : option bytes)
| SvTime32Second (v : option Z) | SvTime32Millisecond (v : option Z)
| SvTime64Microsecond (v : option Z) | SvTime64Nanosecond (v : option Z)
| SvIntervalYearMonth (v : option Z)
| SvIntervalDayTime (v : option (Z * Z))
| SvIntervalMonthDayNano (v : option (Z * Z * Z))
| SvDurationSecond (v : option Z) | SvDurationMillisecond (v : option Z)
| SvDurationMicrosecond (v : option Z) | SvDurationNanosecond (v : option Z)
| SvOther (null : bool) (debug : bytes).

(** ** Encodings of components *)

(** [sign_flip_be]: the low [width] bytes of [v as u64] with the sign bit of the
    width flipped. *)
Definition sign_flip_be (v : Z) (width : nat) : bytes :=
  let flipped := Z.lxor (wrap64 v) (Z.shiftl 1 (Z.of_nat width * 8 - 1)) in
  drop (8 - width) (to_be 8 flipped).

Definition float_total_order_f64 (bits : Z) : bytes :=
  let ordered := if negb (Z.land bits (Z.shiftl 1 63) =? 0)
                 then Z.lxor bits u64_max else Z.lxor bits (Z.shiftl 1 63) in
  to_be 8 ordered.

Definition float_total_order_f32 (bits : Z) : bytes :=
  let ordered := if negb (Z.land bits (Z.shiftl 1 31) =? 0)
                 then Z.lxor bits u32_max else Z.lxor bits (Z.shiftl 1 31) in
  to_be 4 ordered.

Definition escape_byte (b : byte) : bytes :=
  if b2z b =? 0 then [x00; xff] else [b].

Definition escape_bytes (bs : bytes) : bytes := List.flat_map escape_byte bs ++ [x00].

(** [f64::from(f32)] on bit patterns: exact, subnormals normalised. *)
Definition f64_from_f32 (bits : Z) : Z :=
  let sign := Z.shiftl (bits / 2 ^ 31) 63 in
  let e := (bits / 2 ^ 23) mod 2 ^ 8 in
  let m := bits mod 2 ^ 23 in
  if e =? 255 then
    sign + 2047 * 2 ^ 52 + (if m =? 0 then 0 else Z.lor (m * 2 ^ 29) (2 ^ 51))
  else if e =? 0 then
    if m =? 0 then sign
    else let k := Z.log2 m in sign + (k + 874) * 2 ^ 52 + (m - 2 ^ k) * 2 ^ (52 - k)
  else sign + (e + 896) * 2 ^ 52 + m * 2 ^ 29.

(** ** Scalars *)

Definition encode_pk_value (scalar : ScalarValue) : option bytes :=
  match scalar with
  | SvInt8 (Some v) => Some (sign_flip_be v 1)
  | SvInt16 (Some v) => Some (sign_flip_be v 2)
  | SvInt32 (Some v) => Some (sign_flip_be v 4)
  | SvInt64 (Some v) => Some (sign_flip_be v 8)
  | SvUInt8 (Some v) => Some (to_be 1 v)
  | SvUInt16 (Some v) => Some (to_be 2 v)
  | SvUInt32 (Some v) => Some (to_be 4 v)
  | SvUInt64 (Some v) => Some (to_be 8 v)
  | SvFloat32 (Some v) => Some (float_total_order_f32 v)
  | SvFloat64 (Some v) => Some (float_total_order_f64 v)
  | SvBoolean (Some v) => Some [if v then x01 else x00]
  | SvUtf8 (Some s) | SvLargeUtf8 (Some s) => Some (escape_bytes s)
  | SvDate32 (Some v) => Some (sign_flip_be v 4)
  | SvDate64 (Some v) => Some (sign_flip_be v 8)
  | SvTimestampSecond (Some v) _ => Some (sign_flip_be v 8)
  | SvTimestampMillisecond (Some v) _ => Some (sign_flip_be v 8)
  | SvTimestampMicrosecond (Some v) _ => Some (sign_flip_be v 8)
  | SvTimestampNanosecond (Some v) _ => Some (sign_flip_be v 8)
  | _ => None
  end.

(** The fallback for other values formats them with [Debug], which belongs to
    DataFusion: [debug_fmt] is a parameter. *)
Definition scalar_to_index_be (debug_fmt : ScalarValue -> bytes) (scalar : ScalarValue) : bytes :=
  match scalar with
  | SvInt64 (Some v) | SvInt32 (Some v) | SvInt16 (Some v) | SvInt8 (Some v) => sign_flip_be v 8
  | SvUInt64 (Some v) | SvUInt32 (Some v) | SvUInt16 (Some v) | SvUInt8 (Some v) => to_be 8 v
  | SvFloat64 (Some v) => float_total_order_f64 v
  | SvFloat32 (Some v) => float_total_order_f64 (f64_from_f32 v)
  | SvUtf8 (Some v) | SvLargeUtf8 (Some v) => v
  | SvBinary (Some v) | SvLargeBinary (Some v) => v
  | SvBoolean (Some true) => [x01]
  | SvBoolean (Some false) => [x00]
  | SvDate32 (Some v) => sign_flip_be v 8
  | SvDate64 (Some v) => sign_flip_be v 8
  | SvTimestampSecond (Some v) _ | SvTimestampMillisecond (Some v) _
  | SvTimestampMicrosecond (Some v) _ | SvTimestampNanosecond (Some v) _ => sign_flip_be v 8
  | _ => debug_fmt scalar
  end.

(** ** Table keys ([lib.rs]) *)

Definition table_prefix (table : bytes) : bytes := table ++ [x00].

Fixpoint position_zero (key : bytes) : option nat :=
  match key with
  | [] => None
  | b :: r => if b2z b =? 0 then Some 0%nat else S <$> position_zero r
  end.

Definition key_table_prefix (key : bytes) : bytes :=
  let prefix_end := match position_zero key with Some i => S i | None => length key end in
  take prefix_end key.

Definition assemble_table_key (table : bytes) (parts : list bytes) : bytes :=
  table ++ [x00] ++ List.flat_map (fun part => x00 :: part) parts.

(** ** Hashes *)

Definition FNV_PRIME : Z := 0x00000100000001b3.
Definition fnv_step (hash : Z) (b : byte) : Z := wrap64 (Z.lxor hash (b2z b) * FNV_PRIME).
Definition djb2_step (hash : Z) (b : byte) : Z := wrap64 (wrap64 (hash * 33) + b2z b).

(** The 4-way unrolled main loop and the tail of both hashes. *)
Fixpoint hash_chunks (step : Z -> byte -> Z) (chunks : nat) (hash : Z) (data : bytes) : Z :=
  match chunks, data with
  | S n, b0 :: b1 :: b2 :: b3 :: rest =>
      hash_chunks step n (step (step (step (step hash b0) b1) b2) b3) rest
  | _, _ => fold_left step data hash
  end.

Definition fnv1a (data : bytes) : Z :=
  hash_chunks fnv_step (length data / 4) 0xcbf29ce484222325 data.

Definition djb2 (data : bytes) : Z := hash_chunks djb2_step (length data / 4) 5381 data.

(** ** Integers *)

Lemma to_be_add a b z :
  to_be (a + b) z = to_be a (z / 256 ^ Z.of_nat b) ++ to_be b z.
Proof.
  revert z. induction b as [|b IH]; intros z.
  - rewrite Nat.add_0_r, app_nil_r. simpl. by rewrite Z.div_1_r.
  - rewrite Nat.add_succ_r, !to_be_S, IH, <- app_assoc. do 2 f_equal.
    rewrite pow256_S, Z.div_div by (pose proof (pow256_pos b); lia). done.
Qed.

Lemma drop_to_be w z : (w <= 8)%nat -> drop (8 - w) (to_be 8 z) = to_be w z.
Proof.
  intros. replace 8%nat with ((8 - w) + w)%nat at 2 by lia.
  rewrite to_be_add. rewrite drop_app_length'; [done|by rewrite length_to_be].
Qed.

Lemma to_be_mod w z : to_be w z = to_be w (z mod 256 ^ Z.of_nat w).
Proof.
  unfold to_be. f_equal. rewrite <- from_le_to_le. rewrite <- (length_to_le w z) at 2.
  by rewrite to_le_from_le.
Qed.

Lemma land_pow2_clear x k : 0 <= k -> Z.testbit x k = false -> Z.land x (2 ^ k) = 0.
Proof.
  intros Hk Hb. apply Z.bits_inj'. intros n Hn. rewrite Z.land_spec, Z.bits_0.
  rewrite Z.pow2_bits_eqb by done. destruct (Z.eqb_spec k n) as [->|]; [by rewrite Hb|by rewrite andb_false_r].
Qed.

(** Flipping a bit adds or subtracts its weight. *)
Lemma lxor_pow2 x k :
  0 <= k -> Z.lxor x (2 ^ k) = if Z.testbit x k then x - 2 ^ k else x + 2 ^ k.
Proof.
  intros Hk. destruct (Z.testbit x k) eqn:Hb.
  - assert (Hc : Z.testbit (Z.lxor x (2 ^ k)) k = false)
      by (rewrite Z.lxor_spec, Hb, Z.pow2_bits_true by done; done).
    pose proof (Z.add_nocarry_lxor (Z.lxor x (2 ^ k)) (2 ^ k) (land_pow2_clear _ _ Hk Hc)) as Ha.
    rewrite Z.lxor_assoc, Z.lxor_nilpotent, Z.lxor_0_r in Ha. lia.
  - symmetry. apply Z.add_nocarry_lxor. by apply land_pow2_clear.
Qed.

Lemma testbit_sign v k :
  0 <= k < 64 -> - 2 ^ k <= v < 2 ^ k -> Z.testbit (wrap64 v) k = (v <? 0).
Proof.
  intros Hk Hv. unfold wrap64. rewrite Z.mod_pow2_bits_low by lia. rewrite Z.testbit_eqb by lia.
  assert (0 < 2 ^ k) by (apply Z.pow_pos_nonneg; lia).
  destruct (Z.ltb_spec v 0).
  - replace (v / 2 ^ k) with (-1); [done|].
    apply Z.div_unique with (v + 2 ^ k); lia.
  - rewrite Z.div_small by lia. done.
Qed.

Lemma sign_flip_be_eq v w :
  (1 <= w <= 8)%nat -> let k := Z.of_nat w * 8 - 1 in - 2 ^ k <= v < 2 ^ k ->
  sign_flip_be v w = to_be w (v + 2 ^ k).
Proof.
  intros Hw k Hv. unfold sign_flip_be. fold k. rewrite drop_to_be by lia.
  rewrite Z.shiftl_1_l, lxor_pow2, testbit_sign by lia.
  rewrite to_be_mod, (to_be_mod w (v + 2 ^ k)). f_equal.
  assert (Hpow : 256 ^ Z.of_nat w = 2 * 2 ^ k).
  { unfold k. rewrite <- Z.pow_succ_r by lia. change 256 with (2 ^ 8).
    rewrite <- Z.pow_mul_r by lia. f_equal. lia. }
  rewrite Hpow. assert (H64 : exists q, 2 ^ 64 = q * (2 * 2 ^ k)).
  { exists (2 ^ (64 - Z.succ k)). rewrite <- Z.pow_succ_r by lia. rewrite <- Z.pow_add_r by lia.
    f_equal. lia. }
  destruct H64 as [q Hq]. unfold wrap64. assert (0 < 2 ^ k) by (apply Z.pow_pos_nonneg; lia).
  destruct (Z.ltb_spec v 0).
  - replace (v mod 2 ^ 64) with (v + q * (2 * 2 ^ k)).
    + replace (v + q * (2 * 2 ^ k) - 2 ^ k) with ((v + 2 ^ k) + (q - 1) * (2 * 2 ^ k)) by lia.
      apply Z.mod_add. lia.
    + rewrite <- Hq. apply Z.mod_unique with (-1); [|lia].
      assert (2 ^ k <= 2 ^ 63) by (apply Z.pow_le_mono_r; lia). lia.
  - rewrite (Z.mod_small v); [done|]. assert (2 ^ k <= 2 ^ 63) by (apply Z.pow_le_mono_r; lia). lia.
Qed.

(** [i8] ... [i64] by width in bytes. *)
Definition is_int (w : nat) (v : Z) : Prop := - 2 ^ (Z.of_nat w * 8 - 1) <= v < 2 ^ (Z.of_nat w * 8 - 1).
Definition is_uint (w : nat) (v : Z) : Prop := 0 <= v < 2 ^ (Z.of_nat w * 8).

Lemma pow256_pow2 w : 256 ^ Z.of_nat w = 2 ^ (Z.of_nat w * 8).
Proof. change 256 with (2 ^ 8). rewrite <- Z.pow_mul_r by lia. f_equal. lia. Qed.

Lemma sign_flip_cmp w a b :
  (1 <= w <= 8)%nat -> is_int w a -> is_int w b ->
  bcmp (sign_flip_be a w) (sign_flip_be b w) = (a ?= b).
Proof.
  intros Hw Ha Hb. rewrite !sign_flip_be_eq by done. unfold is_int in *.
  assert (Hp : 2 ^ (Z.of_nat w * 8) = 2 * 2 ^ (Z.of_nat w * 8 - 1))
    by (rewrite <- Z.pow_succ_r by lia; f_equal; lia).
  rewrite bcmp_to_be by (rewrite pow256_pow2, Hp; lia).
  destruct (Z.compare_spec a b); destruct (Z.compare_spec (a + 2 ^ (Z.of_nat w * 8 - 1)) (b + 2 ^ (Z.of_nat w * 8 - 1)));
    try done; lia.
Qed.

Lemma to_be_cmp w a b : is_uint w a -> is_uint w b -> bcmp (to_be w a) (to_be w b) = (a ?= b).
Proof. intros Ha Hb. apply bcmp_to_be; by rewrite pow256_pow2. Qed.

Lemma sign_flip_length v w : (1 <= w <= 8)%nat -> length (sign_flip_be v w) = w.
Proof. intros. unfold sign_flip_be. rewrite drop_to_be by lia. apply length_to_be. Qed.

(** ** Floats *)

Section Float.
(** [M] mantissa bits, [W] bits without the sign: 52 and 63, or 23 and 31. *)
Variables M W : Z.
Hypothesis HM : 0 < M < W.

Definition f_negative (bits : Z) : bool := 2 ^ W <=? bits.
Definition f_magnitude (bits : Z) : Z := bits mod 2 ^ W.
Definition is_float (bits : Z) : Prop := 0 <= bits < 2 ^ (W + 1).

(** Rank of a bit pattern in IEEE-754's total order. *)
Definition f_rank (bits : Z) : Z :=
  if f_negative bits then 2 ^ (W + 1) - 1 - bits else bits + 2 ^ W.

(** Exponent of all ones with a non-zero mantissa. *)
Definition f_is_nan (bits : Z) : bool := (2 ^ W - 2 ^ M) <? f_magnitude bits.

(** The magnitude's value, in units of the least positive subnormal (infinity is
    the value its bit pattern continues to). *)
Definition f_abs (mag : Z) : Z :=
  let e := mag / 2 ^ M in let m := mag mod 2 ^ M in
  if e =? 0 then m else (2 ^ M + m) * 2 ^ (e - 1).
Definition f_value (bits : Z) : Z :=
  if f_negative bits then - f_abs (f_magnitude bits) else f_abs (f_magnitude bits).

Lemma f_abs_succ n : 0 <= n -> f_abs n < f_abs (n + 1).
Proof.
  intros Hn. unfold f_abs. assert (Hp : 0 < 2 ^ M) by (apply Z.pow_pos_nonneg; lia).
  pose proof (Z.div_mod n (2 ^ M)). pose proof (Z.mod_pos_bound n (2 ^ M)).
  assert (He : 0 <= n / 2 ^ M) by (apply Z.div_pos; lia).
  set (e := n / 2 ^ M) in *. set (m := n mod 2 ^ M) in *.
  destruct (Z.eq_dec (m + 1) (2 ^ M)) as [Hlast|Hlast].
  - assert (Hd : (n + 1) / 2 ^ M = e + 1) by (symmetry; apply Z.div_unique with 0; lia).
    assert (Hm : (n + 1) mod 2 ^ M = 0) by (symmetry; apply Z.mod_unique with (e + 1); lia).
    rewrite Hd, Hm. rewrite (proj2 (Z.eqb_neq (e + 1) 0)) by lia.
    destruct (Z.eqb_spec e 0) as [->|Hne].
    + simpl. lia.
    + replace (e + 1 - 1) with (Z.succ (e - 1)) by lia. rewrite Z.pow_succ_r by lia.
      assert (0 < 2 ^ (e - 1)) by (apply Z.pow_pos_nonneg; lia). nia.
  - assert (Hd : (n + 1) / 2 ^ M = e) by (symmetry; apply Z.div_unique with (m + 1); lia).
    assert (Hm : (n + 1) mod 2 ^ M = m + 1) by (symmetry; apply Z.mod_unique with e; lia).
    rewrite Hd, Hm. destruct (Z.eqb_spec e 0); [lia|].
    assert (0 < 2 ^ (e - 1)) by (apply Z.pow_pos_nonneg; lia). nia.
Qed.

Lemma f_abs_mono a b : 0 <= a -> a < b -> f_abs a < f_abs b.
Proof.
  intros Ha Hab. assert (Hge : forall n, 0 <= n -> f_abs a < f_abs (a + 1 + n)).
  { apply natlike_ind.
    - rewrite Z.add_0_r. by apply f_abs_succ.
    - intros x Hx IH. replace (a + 1 + Z.succ x) with (a + 1 + x + 1) by lia.
      etransitivity; [exact IH|]. apply f_abs_succ. lia. }
  specialize (Hge (b - a - 1) ltac:(lia)). by replace (a + 1 + (b - a - 1)) with b in Hge by lia.
Qed.

Lemma f_abs_nonneg a : 0 <= a -> 0 <= f_abs a.
Proof.
  intros. assert (f_abs 0 = 0).
  { unfold f_abs. rewrite Z.div_0_l, Z.mod_0_l by (apply Z.pow_nonzero; lia). done. }
  destruct (Z.eq_dec a 0) as [->|]; [lia|]. pose proof (f_abs_mono 0 a). lia.
Qed.

(** The rank orders values; it separates only the two zeros. *)
Lemma f_rank_value a b :
  is_float a -> is_float b -> f_value a < f_value b -> f_rank a < f_rank b.
Proof.
  unfold is_float, f_value, f_rank, f_negative, f_magnitude. intros Ha Hb.
  assert (Hp : 2 ^ (W + 1) = 2 * 2 ^ W) by (rewrite Z.pow_add_r by lia; lia).
  assert (0 < 2 ^ W) by (apply Z.pow_pos_nonneg; lia). rewrite Hp in *.
  assert (Hneg : forall x, 0 <= x < 2 * 2 ^ W -> 2 ^ W <= x -> x mod 2 ^ W = x - 2 ^ W).
  { intros x Hx Hge. symmetry. apply Z.mod_unique with 1; lia. }
  assert (Hpos : forall x, 0 <= x < 2 ^ W -> x mod 2 ^ W = x) by (intros; by apply Z.mod_small).
  destruct (Z.leb_spec (2 ^ W) a), (Z.leb_spec (2 ^ W) b);
    rewrite ?(Hneg a), ?(Hneg b), ?(Hpos a), ?(Hpos b) by lia; intros Hlt; try lia.
  - destruct (Z.lt_trichotomy a b) as [Hab|[->|Hab]]; [|lia|lia].
    pose proof (f_abs_mono (a - 2 ^ W) (b - 2 ^ W)). lia.
  - pose proof (f_abs_nonneg a). pose proof (f_abs_nonneg (b - 2 ^ W)). lia.
  - destruct (Z.lt_trichotomy a b) as [Hab|[->|Hab]]; [lia|lia|].
    pose proof (f_abs_mono b a). lia.
Qed.

Lemma f_rank_range a : is_float a -> 0 <= f_rank a < 2 ^ (W + 1).
Proof.
  unfold is_float, f_rank, f_negative. intros Ha.
  assert (Hp : 2 ^ (W + 1) = 2 * 2 ^ W) by (rewrite Z.pow_add_r by lia; lia).
  rewrite Hp in *. destruct (Z.leb_spec (2 ^ W) a); lia.
Qed.

Lemma lxor_ones n x : 0 <= n -> 0 <= x < 2 ^ n -> Z.lxor x (2 ^ n - 1) = 2 ^ n - 1 - x.
Proof.
  intros Hn Hx. replace (2 ^ n - 1) with (Z.ones n) by (rewrite Z.ones_equiv; lia).
  assert (Hl : Z.land x (Z.lxor x (Z.ones n)) = 0).
  { apply Z.bits_inj'. intros i Hi. rewrite Z.land_spec, Z.lxor_spec, Z.bits_0.
    destruct (Z.lt_ge_cases i n).
    - rewrite Z.ones_spec_low by lia. by destruct (Z.testbit x i).
    - replace (Z.testbit x i) with false; [done|]. symmetry.
      rewrite Z.testbit_eqb by done. rewrite Z.div_small; [done|].
      assert (2 ^ n <= 2 ^ i) by (apply Z.pow_le_mono_r; lia). lia. }
  pose proof (Z.add_nocarry_lxor _ _ Hl) as Ha.
  rewrite <- Z.lxor_assoc, Z.lxor_nilpotent, Z.lxor_0_l in Ha. lia.
Qed.

(** The bit trick of the encoders computes the rank. *)
Lemma f_ordered_rank bits :
  is_float bits ->
  (if negb (Z.land bits (Z.shiftl 1 W) =? 0) then Z.lxor bits (2 ^ (W + 1) - 1)
   else Z.lxor bits (Z.shiftl 1 W)) = f_rank bits.
Proof.
  intros Hb. unfold f_rank, f_negative. unfold is_float in Hb.
  assert (Hp : 2 ^ (W + 1) = 2 * 2 ^ W) by (rewrite Z.pow_add_r by lia; lia).
  assert (Hpos : 0 < 2 ^ W) by (apply Z.pow_pos_nonneg; lia). rewrite Z.shiftl_1_l.
  assert (Ht : Z.testbit bits W = (2 ^ W <=? bits)).
  { rewrite Z.testbit_eqb by lia. destruct (Z.leb_spec (2 ^ W) bits).
    - replace (bits / 2 ^ W) with 1; [done|]. apply Z.div_unique with (bits - 2 ^ W); lia.
    - by rewrite Z.div_small by lia. }
  destruct (2 ^ W <=? bits) eqn:Hs.
  - assert (Hl : Z.land bits (2 ^ W) <> 0).
    { intros H0. apply (f_equal (fun z => Z.testbit z W)) in H0.
      rewrite Z.land_spec, Ht, Z.pow2_bits_true, Z.bits_0 in H0 by lia. done. }
    rewrite (proj2 (Z.eqb_neq _ _) Hl). simpl. rewrite lxor_ones by lia. done.
  - rewrite land_pow2_clear by (done || lia). simpl. rewrite lxor_pow2, Ht by lia. done.
Qed.
End Float.

Lemma float64_eq bits : is_float 63 bits -> float_total_order_f64 bits = to_be 8 (f_rank 63 bits).
Proof.
  intros Hb. unfold float_total_order_f64. rewrite <- (f_ordered_rank 52 63) by (done || lia). done.
Qed.

Lemma float32_eq bits : is_float 31 bits -> float_total_order_f32 bits = to_be 4 (f_rank 31 bits).
Proof.
  intros Hb. unfold float_total_order_f32. rewrite <- (f_ordered_rank 23 31) by (done || lia). done.
Qed.

Lemma float64_cmp a b :
  is_float 63 a -> is_float 63 b ->
  bcmp (float_total_order_f64 a) (float_total_order_f64 b) = (f_rank 63 a ?= f_rank 63 b).
Proof.
  intros Ha Hb. rewrite !float64_eq by done. apply bcmp_to_be.
  - exact (f_rank_range 52 63 ltac:(lia) a Ha).
  - exact (f_rank_range 52 63 ltac:(lia) b Hb).
Qed.

Lemma float32_cmp a b :
  is_float 31 a -> is_float 31 b ->
  bcmp (float_total_order_f32 a) (float_total_order_f32 b) = (f_rank 31 a ?= f_rank 31 b).
Proof.
  intros Ha Hb. rewrite !float32_eq by done. apply bcmp_to_be.
  - exact (f_rank_range 23 31 ltac:(lia) a Ha).
  - exact (f_rank_range 23 31 ltac:(lia) b Hb).
Qed.

(** ** Strings *)

(** What follows an encoded string in a key: nothing, or the next separator. *)
Definition sep_start (r : bytes) : Prop := match r with [] => True | b :: _ => b = x00 end.

Lemma b2z_zero b : b2z b = 0 -> b = x00.
Proof. intros H. by apply b2z_inj. Qed.

(** Escaped strings compare like the strings, then like what follows them. *)
Lemma escape_cmp a b r s :
  sep_start r -> sep_start s ->
  bcmp (escape_bytes a ++ r) (escape_bytes b ++ s) =
  match bcmp a b with Eq => bcmp r s | c => c end.
Proof.
  intros Hr Hs. unfold escape_bytes. rewrite <- !app_assoc. simpl.
  revert b. induction a as [|x a IH]; intros [|y b]; cbn [flat_map].
  - done.
  - unfold escape_byte. destruct (b2z y =? 0) eqn:E; zbool.
    + cbn [app bcmp]. rewrite Z.compare_refl. destruct r as [|z r]; [done|]. by rewrite Hr.
    + cbn [app bcmp]. pose proof (b2z_range y). change (b2z x00) with 0.
      destruct (Z.compare_spec 0 (b2z y)); [lia|done|lia].
  - unfold escape_byte. destruct (b2z x =? 0) eqn:E; zbool.
    + cbn [app bcmp]. rewrite Z.compare_refl. destruct s as [|z s]; [done|]. by rewrite Hs.
    + cbn [app bcmp]. pose proof (b2z_range x). change (b2z x00) with 0.
      destruct (Z.compare_spec (b2z x) 0); [lia|lia|done].
  - rewrite <- !app_assoc. unfold escape_byte. pose proof (b2z_range x). pose proof (b2z_range y).
    destruct (b2z x =? 0) eqn:Ex, (b2z y =? 0) eqn:Ey; zbool; cbn [app bcmp];
      change (b2z x00) with 0; change (b2z xff) with 255.
    + rewrite Ex, Ey, !Z.compare_refl. apply IH.
    + rewrite Ex. destruct (Z.compare_spec 0 (b2z y)); [lia|done|lia].
    + rewrite Ey. destruct (Z.compare_spec (b2z x) 0); [lia|lia|done].
    + destruct (b2z x ?= b2z y); [apply IH|done|done].
Qed.

(** ** Scalars of one column *)

(** The type of a column: values of different columns are never compared. *)
Definition same_type (a b : ScalarValue) : Prop :=
  match a, b with
  | SvInt8 _, SvInt8 _ | SvInt16 _, SvInt16 _ | SvInt32 _, SvInt32 _ | SvInt64 _, SvInt64 _
  | SvUInt8 _, SvUInt8 _ | SvUInt16 _, SvUInt16 _ | SvUInt32 _, SvUInt32 _ | SvUInt64 _, SvUInt64 _
  | SvFloat32 _, SvFloat32 _ | SvFloat64 _, SvFloat64 _ | SvBoolean _, SvBoolean _
  | SvUtf8 _, SvUtf8 _ | SvLargeUtf8 _, SvLargeUtf8 _
  | SvDate32 _, SvDate32 _ | SvDate64 _, SvDate64 _
  | SvTimestampSecond _ _, SvTimestampSecond _ _ | SvTimestampMillisecond _ _, SvTimestampMillisecond _ _
  | SvTimestampMicrosecond _ _, SvTimestampMicrosecond _ _
  | SvTimestampNanosecond _ _, SvTimestampNanosecond _ _ => True
  | _, _ => False
  end.

(** Values within the range of their type. *)
Definition scalar_ok (a : ScalarValue) : Prop :=
  match a with
  | SvInt8 (Some v) => is_int 1 v
  | SvInt16 (Some v) => is_int 2 v
  | SvInt32 (Some v) | SvDate32 (Some v) => is_int 4 v
  | SvInt64 (Some v) | SvDate64 (Some v) | SvTimestampSecond (Some v) _ | SvTimestampMillisecond (Some v) _
  | SvTimestampMicrosecond (Some v) _ | SvTimestampNanosecond (Some v) _ => is_int 8 v
  | SvUInt8 (Some v) => is_uint 1 v
  | SvUInt16 (Some v) => is_uint 2 v
  | SvUInt32 (Some v) => is_uint 4 v
  | SvUInt64 (Some v) => is_uint 8 v
  | SvFloat32 (Some v) => is_float 31 v
  | SvFloat64 (Some v) => is_float 63 v
  | _ => True
  end.

Definition bool_cmp (a b : bool) : comparison :=
  match a, b with false, true => Lt | true, false => Gt | _, _ => Eq end.

(** The order of values: numeric, IEEE total order on floats, bytes on strings. *)
Definition scalar_cmp (a b : ScalarValue) : comparison :=
  match a, b with
  | SvInt8 (Some x), SvInt8 (Some y) | SvInt16 (Some x), SvInt16 (Some y)
  | SvInt32 (Some x), SvInt32 (Some y) | SvInt64 (Some x), SvInt64 (Some y)
  | SvUInt8 (Some x), SvUInt8 (Some y) | SvUInt16 (Some x), SvUInt16 (Some y)
  | SvUInt32 (Some x), SvUInt32 (Some y) | SvUInt64 (Some x), SvUInt64 (Some y)
  | SvDate32 (Some x), SvDate32 (Some y) | SvDate64 (Some x), SvDate64 (Some y)
  | SvTimestampSecond (Some x) _, SvTimestampSecond (Some y) _
  | SvTimestampMillisecond (Some x) _, SvTimestampMillisecond (Some y) _
  | SvTimestampMicrosecond (Some x) _, SvTimestampMicrosecond (Some y) _
  | SvTimestampNanosecond (Some x) _, SvTimestampNanosecond (Some y) _ => x ?= y
  | SvFloat32 (Some x), SvFloat32 (Some y) => f_rank 31 x ?= f_rank 31 y
  | SvFloat64 (Some x), SvFloat64 (Some y) => f_rank 63 x ?= f_rank 63 y
  | SvBoolean (Some x), SvBoolean (Some y) => bool_cmp x y
  | SvUtf8 (Some x), SvUtf8 (Some y) | SvLargeUtf8 (Some x), SvLargeUtf8 (Some y) => bcmp x y
  | _, _ => Eq
  end.

(** Parts compare like the values, then like what follows them in the key. *)
Definition part_cmp (a b : ScalarValue) (x y : bytes) : Prop :=
  forall r s, sep_start r -> sep_start s ->
    bcmp (x ++ r) (y ++ s) = match scalar_cmp a b with Eq => bcmp r s | c => c end.

Lemma fixed_part_cmp a b x y :
  length x = length y -> bcmp x y = scalar_cmp a b -> part_cmp a b x y.
Proof. intros Hl Hc r s _ _. by rewrite bcmp_app, Hc. Qed.

Lemma encode_pk_part a b x y :
  same_type a b -> scalar_ok a -> scalar_ok b ->
  encode_pk_value a = Some x -> encode_pk_value b = Some y -> part_cmp a b x y.
Proof.
  intros Ht Ha Hb. destruct a, b; try (exfalso; exact Ht); clear Ht;
    repeat match goal with o : option _ |- _ => destruct o end;
    try done; intros [= <-] [= <-];
    try (apply fixed_part_cmp; [by rewrite !sign_flip_length by lia|by apply sign_flip_cmp; [lia|..]]);
    try (apply fixed_part_cmp; [by rewrite !length_to_be|by apply to_be_cmp]);
    try (intros r s Hr Hs; by apply escape_cmp).
  - apply fixed_part_cmp; [|by apply float32_cmp]. by rewrite !float32_eq, !length_to_be by done.
  - apply fixed_part_cmp; [|by apply float64_cmp]. by rewrite !float64_eq, !length_to_be by done.
  - by apply fixed_part_cmp; [|repeat match goal with x : bool |- _ => destruct x end].
Qed.

(** ** Hashes and composite keys *)

Lemma hash_chunks_fold step n hash data :
  hash_chunks step n hash data = fold_left step data hash.
Proof.
  revert hash data. induction n as [|n IH]; intros hash data; [done|].
  destruct data as [|b0 [|b1 [|b2 [|b3 rest]]]]; try done. simpl. apply IH.
Qed.

Lemma wrap64_range z : is_u64 (wrap64 z).
Proof. unfold is_u64, wrap64, u64_max. pose proof (Z.mod_pos_bound z (2 ^ 64)). lia. Qed.

Lemma fold_hash_range (step : Z -> byte -> Z) (data : bytes) (hash : Z) :
  (forall h b, is_u64 (step h b)) -> is_u64 hash -> is_u64 (fold_left step data hash).
Proof. intros Hs. revert hash. induction data; intros hash Hh; [done|]. simpl. auto. Qed.

Lemma fnv1a_u64 data : is_u64 (fnv1a data).
Proof.
  unfold fnv1a. rewrite hash_chunks_fold. apply fold_hash_range; [|vm_compute; split; congruence].
  intros. apply wrap64_range.
Qed.

Lemma djb2_u64 data : is_u64 (djb2 data).
Proof.
  unfold djb2. rewrite hash_chunks_fold. apply fold_hash_range; [|vm_compute; split; congruence].
  intros. apply wrap64_range.
Qed.

(** Lexicographic order of primary-key tuples. *)
Fixpoint tuple_cmp (as_ bs : list ScalarValue) : comparison :=
  match as_, bs with
  | a :: as', b :: bs' => match scalar_cmp a b with Eq => tuple_cmp as' bs' | c => c end
  | _, _ => Eq
  end.

Definition join_parts (parts : list bytes) : bytes := List.flat_map (fun part => x00 :: part) parts.

Lemma join_parts_sep parts : sep_start (join_parts parts).
Proof. by destruct parts. Qed.

Lemma join_parts_cmp as_ bs xs ys :
  Forall2 same_type as_ bs -> Forall scalar_ok as_ -> Forall scalar_ok bs ->
  Forall2 (fun a x => encode_pk_value a = Some x) as_ xs ->
  Forall2 (fun b y => encode_pk_value b = Some y) bs ys ->
  bcmp (join_parts xs) (join_parts ys) = tuple_cmp as_ bs.
Proof.
  intros Ht. revert xs ys. induction Ht as [|a b as_ bs Hab Ht IH]; intros xs ys Ha Hb Hx Hy.
  - by inversion Hx; inversion Hy.
  - apply Forall_cons_1 in Ha as [Ha0 Ha]. apply Forall_cons_1 in Hb as [Hb0 Hb].
    apply Forall2_cons_inv_l in Hx as (x & xs' & Hax & Hxs & ->).
    apply Forall2_cons_inv_l in Hy as (y & ys' & Hby & Hys & ->).
    cbn [join_parts flat_map app bcmp tuple_cmp]. rewrite Z.compare_refl.
    rewrite (encode_pk_part a b x y); try done; try apply join_parts_sep.
    destruct (scalar_cmp a b); [|done|done]. by apply IH.
Qed.

Definition no_nul (name : bytes) : Prop := Forall (fun b => b2z b <> 0) name.

Lemma position_zero_app t r : no_nul t -> position_zero (t ++ x00 :: r) = Some (length t).
Proof.
  induction 1 as [|b t Hb Ht IH]; [done|]. simpl. rewrite (proj2 (Z.eqb_neq _ _) Hb), IH. done.
Qed.

Lemma key_table_prefix_app t r : no_nul t -> key_table_prefix (t ++ x00 :: r) = table_prefix t.
Proof.
  intros Ht. unfold key_table_prefix, table_prefix. rewrite position_zero_app by done.
  rewrite (cons_middle x00 t r), app_assoc. rewrite take_app_le by (rewrite length_app; simpl; lia).
  rewrite firstn_all2 by (rewrite length_app; simpl; lia). done.
Qed.

Lemma assemble_eq t parts : assemble_table_key t parts = t ++ x00 :: join_parts parts.
Proof. done. Qed.

(** Primary-key encoding is order preserving and injective: two values of one
    column type encode to byte strings that compare exactly as the values do
    (signed and unsigned integers, dates, timestamps, booleans, strings, and
    floats in IEEE-754 total order). *)
Lemma pk_encoding_order (a b : ScalarValue) (x y : bytes) :
  same_type a b -> scalar_ok a -> scalar_ok b ->
  encode_pk_value a = Some x -> encode_pk_value b = Some y ->
  bcmp x y = scalar_cmp a b /\ (x = y <-> scalar_cmp a b = Eq).
Proof.
  intros Ht Ha Hb Hx Hy.
  pose proof (encode_pk_part a b x y Ht Ha Hb Hx Hy [] [] I I) as Hc.
  rewrite !app_nil_r in Hc. assert (Hc' : bcmp x y = scalar_cmp a b) by (rewrite Hc; by destruct (scalar_cmp a b)).
  split; [done|]. rewrite <- Hc'. symmetry. apply bcmp_eq.
Qed.

(** The float encodings order numbers: a smaller [f64] (or [f32]) encodes to
    smaller bytes, infinities and subnormals included. *)
Lemma float_encoding_order (a b : Z) :
  (is_float 63 a -> is_float 63 b -> f_value 52 63 a < f_value 52 63 b ->
   bcmp (float_total_order_f64 a) (float_total_order_f64 b) = Lt) /\
  (is_float 31 a -> is_float 31 b -> f_value 23 31 a < f_value 23 31 b ->
   bcmp (float_total_order_f32 a) (float_total_order_f32 b) = Lt).
Proof.
  split; intros Ha Hb Hlt.
  - rewrite float64_cmp by done. apply Z.compare_lt_iff. by apply (f_rank_value 52 63).
  - rewrite float32_cmp by done. apply Z.compare_lt_iff. by apply (f_rank_value 23 31).
Qed.

Lemma table_key_cmp (t : bytes) (as_ bs : list ScalarValue) (xs ys : list bytes) :
  Forall2 same_type as_ bs -> Forall scalar_ok as_ -> Forall scalar_ok bs ->
  Forall2 (fun a x => encode_pk_value a = Some x) as_ xs ->
  Forall2 (fun b y => encode_pk_value b = Some y) bs ys ->
  bcmp (assemble_table_key t xs) (assemble_table_key t ys) = tuple_cmp as_ bs /\
  (assemble_table_key t xs = assemble_table_key t ys <-> tuple_cmp as_ bs = Eq).
Proof.
  intros Ht Ha Hb Hx Hy. rewrite !assemble_eq.
  assert (Hc : bcmp (t ++ x00 :: join_parts xs) (t ++ x00 :: join_parts ys) = tuple_cmp as_ bs).
  { rewrite bcmp_app_l. cbn [bcmp]. rewrite Z.compare_refl. by apply join_parts_cmp. }
  split; [done|]. rewrite <- Hc. symmetry. apply bcmp_eq.
Qed.

(** C29: table keys.  For primary keys of one table (the same column types), the
    assembled keys compare lexicographically by column value; so distinct keys
    never collide, whatever NUL or 0xFF bytes the values contain. *)
Theorem table_key_order (t : bytes) (as_ bs : list ScalarValue) (xs ys : list bytes) :
  Forall2 same_type as_ bs -> Forall scalar_ok as_ -> Forall scalar_ok bs ->
  Forall2 (fun a x => encode_pk_value a = Some x) as_ xs ->
  Forall2 (fun b y => encode_pk_value b = Some y) bs ys ->
  bcmp (assemble_table_key t xs) (assemble_table_key t ys) = tuple_cmp as_ bs /\
  (assemble_table_key t xs = assemble_table_key t ys <-> tuple_cmp as_ bs = Eq).
Proof. apply table_key_cmp. Qed.

(** Tables do not overlap: the prefix extracted from a key is the prefix of
    its table, and keys of different tables are different. *)
Lemma table_prefix_disjoint (t u : bytes) (xs ys : list bytes) :
  no_nul t -> no_nul u ->
  key_table_prefix (assemble_table_key t xs) = table_prefix t /\
  starts_with (assemble_table_key t xs) (table_prefix t) = true /\
  (starts_with (assemble_table_key u ys) (table_prefix t) = true -> t = u).
Proof.
  intros Ht Hu. rewrite !assemble_eq. split; [by apply key_table_prefix_app|]. split.
  - unfold table_prefix. rewrite (cons_middle x00 t), app_assoc. apply starts_with_app.
  - intros [r Hr]%starts_with_inv. unfold table_prefix in Hr. rewrite <- app_assoc in Hr.
    pose proof (key_table_prefix_app u (join_parts ys) Hu) as H1. rewrite Hr in H1.
    simpl in H1. rewrite key_table_prefix_app in H1 by done. unfold table_prefix in H1.
    by apply app_inj_tail in H1 as [? _].
Qed.

(** The unrolled hash loops compute the byte-at-a-time FNV-1a and DJB2 hashes,
    and stay within 64 bits. *)
Theorem hashes_reference (data : bytes) :
  fnv1a data = fold_left fnv_step data 0xcbf29ce484222325 /\ is_u64 (fnv1a data) /\
  djb2 data = fold_left djb2_step data 5381 /\ is_u64 (djb2 data).
Proof.
  split; [apply hash_chunks_fold|]. split; [apply fnv1a_u64|].
  split; [apply hash_chunks_fold|apply djb2_u64].
Qed.

(** *** Index encoding *)

(** Widening an [f32] keeps its value, in the finer units of [f64]. *)
Lemma f_abs_small M e m : 0 < M -> 0 <= m < 2 ^ M -> 0 <= e ->
  f_abs M (e * 2 ^ M + m) = if e =? 0 then m else (2 ^ M + m) * 2 ^ (e - 1).
Proof.
  intros HM Hm He. unfold f_abs.
  assert (Hd : (e * 2 ^ M + m) / 2 ^ M = e) by (symmetry; apply Z.div_unique with m; lia).
  assert (Hr : (e * 2 ^ M + m) mod 2 ^ M = m) by (symmetry; apply Z.mod_unique with e; lia).
  by rewrite Hd, Hr.
Qed.

(** Sign, exponent and mantissa of an [f32]. *)
Lemma f32_split bits :
  is_float 31 bits ->
  exists s e m, bits = s * 2 ^ 31 + e * 2 ^ 23 + m /\ (s = 0 \/ s = 1) /\ 0 <= e < 256 /\
    0 <= m < 2 ^ 23 /\ bits / 2 ^ 31 = s /\ (bits / 2 ^ 23) mod 2 ^ 8 = e /\ bits mod 2 ^ 23 = m.
Proof.
  unfold is_float. change (2 ^ (31 + 1)) with (2 * 2 ^ 31). intros Hb.
  exists (bits / 2 ^ 31), ((bits / 2 ^ 23) mod 2 ^ 8), (bits mod 2 ^ 23).
  pose proof (Z.div_mod bits (2 ^ 23) ltac:(lia)). pose proof (Z.mod_pos_bound bits (2 ^ 23) ltac:(lia)).
  pose proof (Z.div_mod (bits / 2 ^ 23) (2 ^ 8) ltac:(lia)).
  pose proof (Z.mod_pos_bound (bits / 2 ^ 23) (2 ^ 8) ltac:(lia)).
  assert (Hq : bits / 2 ^ 23 / 2 ^ 8 = bits / 2 ^ 31) by (rewrite Z.div_div by lia; done).
  assert (bits / 2 ^ 31 < 2) by (apply Z.div_lt_upper_bound; lia).
  assert (0 <= bits / 2 ^ 31) by (apply Z.div_pos; lia).
  repeat split; lia.
Qed.

Lemma f64_from_f32_finite s e m :
  (s = 0 \/ s = 1) -> 0 <= e < 255 -> 0 <= m < 2 ^ 23 ->
  let bits := s * 2 ^ 31 + e * 2 ^ 23 + m in
  bits / 2 ^ 31 = s -> (bits / 2 ^ 23) mod 2 ^ 8 = e -> bits mod 2 ^ 23 = m ->
  exists mag, f64_from_f32 bits = s * 2 ^ 63 + mag /\ 0 <= mag < 2 ^ 63 /\
    f_abs 52 mag = f_abs 23 (e * 2 ^ 23 + m) * 2 ^ 925.
Proof.
  intros Hs He Hm bits H1 H2 H3. unfold f64_from_f32. rewrite H1, H2, H3, Z.shiftl_mul_pow2 by lia.
  rewrite (proj2 (Z.eqb_neq e 255)) by lia. rewrite (f_abs_small 23 e m) by lia.
  destruct (Z.eqb_spec e 0) as [->|Hne].
  - destruct (Z.eqb_spec m 0) as [->|Hm0].
    { exists 0. split; [lia|]. split; [lia|]. reflexivity. }
    pose proof (Z.log2_spec m ltac:(lia)) as [Hlo Hhi]. set (k := Z.log2 m) in *.
    assert (Hk : 0 <= k < 23).
    { split; [apply Z.log2_nonneg|]. apply Z.log2_lt_pow2; lia. }
    assert (Hpow : 2 ^ k * 2 ^ (52 - k) = 2 ^ 52) by (rewrite <- Z.pow_add_r by lia; f_equal; lia).
    rewrite Z.pow_succ_r in Hhi by lia.
    assert (0 < 2 ^ (52 - k)) by (apply Z.pow_pos_nonneg; lia).
    exists ((k + 874) * 2 ^ 52 + (m - 2 ^ k) * 2 ^ (52 - k)).
    split; [lia|]. split; [nia|]. rewrite f_abs_small by nia.
    rewrite (proj2 (Z.eqb_neq (k + 874) 0)) by lia.
    replace (2 ^ 52 + (m - 2 ^ k) * 2 ^ (52 - k)) with (m * 2 ^ (52 - k)) by nia.
    rewrite <- Z.mul_assoc, <- Z.pow_add_r by lia. do 2 f_equal. lia.
  - exists ((e + 896) * 2 ^ 52 + m * 2 ^ 29). split; [lia|]. split; [lia|].
    rewrite f_abs_small by lia. rewrite (proj2 (Z.eqb_neq (e + 896) 0)) by lia.
    replace (2 ^ 52 + m * 2 ^ 29) with ((2 ^ 23 + m) * 2 ^ 29) by lia.
    rewrite <- !Z.mul_assoc, <- !Z.pow_add_r by lia. do 2 f_equal. lia.
Qed.

Lemma f_value_split M W s mag :
  0 < M < W -> (s = 0 \/ s = 1) -> 0 <= mag < 2 ^ W ->
  is_float W (s * 2 ^ W + mag) /\
  f_value M W (s * 2 ^ W + mag) = if s =? 0 then f_abs M mag else - f_abs M mag.
Proof.
  intros HM Hs Hmag. unfold is_float, f_value, f_negative, f_magnitude.
  rewrite Z.pow_add_r by lia. split; [lia|].
  rewrite Z.add_comm, Z.mod_add, Z.mod_small by lia.
  destruct Hs as [-> | ->]; simpl.
  - rewrite (proj2 (Z.leb_gt _ _)) by lia. done.
  - rewrite (proj2 (Z.leb_le _ _)) by lia. done.
Qed.

(** Finite [f32] bit patterns. *)
Definition f32_finite (bits : Z) : Prop := is_float 31 bits /\ (bits / 2 ^ 23) mod 2 ^ 8 < 255.

Lemma f64_from_f32_value bits :
  f32_finite bits ->
  is_float 63 (f64_from_f32 bits) /\
  f_value 52 63 (f64_from_f32 bits) = f_value 23 31 bits * 2 ^ 925.
Proof.
  intros [Hb Hfin]. destruct (f32_split bits Hb) as (s & e & m & Hbits & Hs & He & Hm & H1 & H2 & H3).
  rewrite Hbits in H1, H2, H3 |- *.
  destruct (f64_from_f32_finite s e m Hs ltac:(rewrite <- Hbits in H2; lia) Hm H1 H2 H3)
    as (mag & -> & Hmag & Habs).
  destruct (f_value_split 52 63 s mag ltac:(lia) Hs Hmag) as [Hf ->].
  rewrite <- Z.add_assoc.
  destruct (f_value_split 23 31 s (e * 2 ^ 23 + m) ltac:(lia) Hs ltac:(lia)) as [_ ->].
  split; [done|]. rewrite Habs. destruct (s =? 0); lia.
Qed.

(** The number a scalar denotes, by the three index domains. *)
Definition sint_of (a : ScalarValue) : option Z :=
  match a with
  | SvInt8 v | SvInt16 v | SvInt32 v | SvInt64 v | SvDate32 v | SvDate64 v | SvTimestampSecond v _
  | SvTimestampMillisecond v _ | SvTimestampMicrosecond v _ | SvTimestampNanosecond v _ => v
  | _ => None
  end.
Definition uint_of (a : ScalarValue) : option Z :=
  match a with SvUInt8 v | SvUInt16 v | SvUInt32 v | SvUInt64 v => v | _ => None end.
(** Floats in units of the least positive [f64]; [None] for [f32] infinities and NaNs. *)
Definition float_of (a : ScalarValue) : option Z :=
  match a with
  | SvFloat64 (Some b) => Some (f_value 52 63 b)
  | SvFloat32 (Some b) =>
      if (b / 2 ^ 23) mod 2 ^ 8 <? 255 then Some (f_value 23 31 b * 2 ^ 925) else None
  | _ => None
  end.

Lemma is_int_widen w v : (1 <= w <= 8)%nat -> is_int w v -> is_int 8 v.
Proof.
  unfold is_int. intros Hw [Hl Hh]. assert (2 ^ (Z.of_nat w * 8 - 1) <= 2 ^ (Z.of_nat 8 * 8 - 1)).
  { apply Z.pow_le_mono_r; lia. }
  lia.
Qed.

Lemma is_uint_widen w v : (w <= 8)%nat -> is_uint w v -> is_uint 8 v.
Proof.
  unfold is_uint. intros Hw [Hl Hh]. assert (2 ^ (Z.of_nat w * 8) <= 2 ^ (Z.of_nat 8 * 8)).
  { apply Z.pow_le_mono_r; lia. }
  lia.
Qed.

Lemma index_sint dbg a x :
  scalar_ok a -> sint_of a = Some x -> scalar_to_index_be dbg a = sign_flip_be x 8 /\ is_int 8 x.
Proof.
  intros Ha Hx. destruct a; simpl in Hx; try done; subst v; simpl in *; (split; [done|]); try done;
    eapply is_int_widen; try exact Ha; lia.
Qed.

Lemma index_uint dbg a x :
  scalar_ok a -> uint_of a = Some x -> scalar_to_index_be dbg a = to_be 8 x /\ is_uint 8 x.
Proof.
  intros Ha Hx. destruct a; simpl in Hx; try done; subst v; simpl in *; (split; [done|]); try done;
    eapply is_uint_widen; try exact Ha; lia.
Qed.

Lemma index_float dbg a x :
  scalar_ok a -> float_of a = Some x ->
  exists bits, scalar_to_index_be dbg a = float_total_order_f64 bits /\ is_float 63 bits /\
    f_value 52 63 bits = x.
Proof.
  intros Ha Hx. destruct a; simpl in Hx; try done; destruct bits as [b|]; try done.
  - destruct (_ <? 255) eqn:E; [|done]. injection Hx as <-. zbool.
    destruct (f64_from_f32_value b) as [Hf Hv]; [by split|]. by exists (f64_from_f32 b).
  - injection Hx as <-. by exists b.
Qed.

(** Index encoding orders numbers across declared widths: signed integers
    (dates and timestamps included) and unsigned integers of any two widths
    compare by value and equal values match, and a smaller float (an [f32]
    promoted exactly to [f64]) encodes to smaller bytes. *)
Lemma index_encoding_order (dbg : ScalarValue -> bytes) (a b : ScalarValue) (x y : Z) :
  scalar_ok a -> scalar_ok b ->
  (sint_of a = Some x -> sint_of b = Some y ->
   bcmp (scalar_to_index_be dbg a) (scalar_to_index_be dbg b) = (x ?= y)) /\
  (uint_of a = Some x -> uint_of b = Some y ->
   bcmp (scalar_to_index_be dbg a) (scalar_to_index_be dbg b) = (x ?= y)) /\
  (float_of a = Some x -> float_of b = Some y -> x < y ->
   bcmp (scalar_to_index_be dbg a) (scalar_to_index_be dbg b) = Lt).
Proof.
  intros Ha Hb. split; [|split].
  - intros Hx Hy. destruct (index_sint dbg a x Ha Hx) as [-> ?]. destruct (index_sint dbg b y Hb Hy) as [-> ?].
    by apply sign_flip_cmp; [lia|..].
  - intros Hx Hy. destruct (index_uint dbg a x Ha Hx) as [-> ?]. destruct (index_uint dbg b y Hb Hy) as [-> ?].
    by apply to_be_cmp.
  - intros Hx Hy Hlt. destruct (index_float dbg a x Ha Hx) as (p & -> & Hp & <-).
    destruct (index_float dbg b y Hb Hy) as (q & -> & Hq & <-).
    rewrite float64_cmp by done. apply Z.compare_lt_iff. by apply (f_rank_value 52 63).
Qed.

(** ** Witnesses *)

(** [-1.0] and [1.0]. *)
(** A string with a NUL followed by an integer column. *)
Lemma table_key_order_witness :
  bcmp (assemble_table_key [x74] [escape_bytes [x61]; sign_flip_be 2147483647 4])
       (assemble_table_key [x74] [escape_bytes [x61; x00]; sign_flip_be (-2147483648) 4]) = Lt.
Proof.
  apply (proj1 (table_key_order [x74] [SvUtf8 (Some [x61]); SvInt32 (Some 2147483647)]
    [SvUtf8 (Some [x61; x00]); SvInt32 (Some (-2147483648))]
    [escape_bytes [x61]; sign_flip_be 2147483647 4]
    [escape_bytes [x61; x00]; sign_flip_be (-2147483648) 4]
    ltac:(repeat constructor) ltac:(repeat constructor; vm_compute; congruence)
    ltac:(repeat constructor; vm_compute; congruence) ltac:(repeat constructor) ltac:(repeat constructor))).
Defined.

