(* ===== verification/Bloom.v ===== *)
(** * Per-SST bloom filter ([hatp-engine/src/bloom.rs])

    Double hashing over a bit array of a power-of-two size, and its sidecar
    format.  [None] marks an out-of-bounds [get_unchecked] access.  The sizing
    formula of [BloomFilter::new] is floating-point; its two rounded results are
    arguments of [bloom_new]. *)

From stdpp Require Import base tactics list option.
From S2P Require Import Prelude Codec.
#[local] Open Scope Z_scope.

Definition BLOOM_MAGIC : bytes := [x42; x46; x30; x31].

Record BloomFilter := mkBloom { num_bits : Z; num_hashes : Z; bits : list Z }.

(** [u64::next_power_of_two] *)
Definition next_power_of_two (n : Z) : Z := 2 ^ Z.log2_up n.

(** [BloomFilter::new] from the rounded optimal bit count [m] and probe count [k]
    (clamped to [1, 32]). *)
Definition bloom_new (m k : Z) : BloomFilter :=
  let nb := next_power_of_two (Z.max m 64) in
  mkBloom nb (Z.max 1 (Z.min k 32)) (replicate (Z.to_nat (nb / 64)) 0).

Definition probe_bit (f : BloomFilter) (key : bytes) (probe : Z) : Z :=
  let h := wrap64 (fnv1a key + wrap64 (probe * djb2 key)) in
  Z.land h (num_bits f - 1).

Definition set_bit (ws : list Z) (bit : Z) : option (list Z) :=
  w ← ws !! Z.to_nat (Z.shiftr bit 6);
  Some (<[Z.to_nat (Z.shiftr bit 6) := Z.lor w (Z.shiftl 1 (Z.land bit 63))]> ws).

Definition probes (f : BloomFilter) : list Z := map Z.of_nat (seq 0 (Z.to_nat (num_hashes f))).

Fixpoint set_probes (f : BloomFilter) (key : bytes) (ps : list Z) (ws : list Z) : option (list Z) :=
  match ps with
  | [] => Some ws
  | p :: ps => ws' ← set_bit ws (probe_bit f key p); set_probes f key ps ws'
  end.

Definition bloom_insert (f : BloomFilter) (key : bytes) : option BloomFilter :=
  ws ← set_probes f key (probes f) (bits f);
  Some (mkBloom (num_bits f) (num_hashes f) ws).

Fixpoint check_probes (f : BloomFilter) (key : bytes) (ps : list Z) : option bool :=
  match ps with
  | [] => Some true
  | p :: ps =>
      let bit := probe_bit f key p in
      w ← bits f !! Z.to_nat (Z.shiftr bit 6);
      if Z.land w (Z.shiftl 1 (Z.land bit 63)) =? 0 then Some false else check_probes f key ps
  end.

Definition bloom_contains (f : BloomFilter) (key : bytes) : option bool :=
  if (match bits f with [] => true | _ => false end) || (num_hashes f =? 0) then Some false
  else check_probes f key (probes f).

Definition bloom_to_bytes (f : BloomFilter) : bytes :=
  BLOOM_MAGIC ++ to_le 8 (num_bits f) ++ to_le 4 (num_hashes f) ++ List.flat_map (to_le 8) (bits f).

(** [read_words]: the loop of unaligned reads. *)
Fixpoint read_words (n : nat) (b : bytes) (off : Z) : option (list Z) :=
  match n with
  | O => Some []
  | S n => w ← slice b off (off + 8); rest ← read_words n b (off + 8); Some (from_le w :: rest)
  end.

(** Outer [None]: a read outside the buffer; inner [None]: rejected. *)
Definition bloom_from_bytes (b : bytes) : option (option BloomFilter) :=
  if blen b <? 16 then Some None
  else if negb (bool_decide (take 4 b = BLOOM_MAGIC)) then Some None
  else
    nb ← slice b 4 12;
    nh ← slice b 12 16;
    let words := from_le nb / 64 in
    if negb (blen b =? 16 + words * 8) then Some None
    else ws ← read_words (Z.to_nat words) b 16;
         Some (Some (mkBloom (from_le nb) (from_le nh) ws)).

(** [assert_invariants] *)
Definition is_power_of_two (n : Z) : bool := (0 <? n) && (2 ^ Z.log2 n =? n).
Definition bloom_invariants (f : BloomFilter) : bool :=
  is_power_of_two (num_bits f)
  && negb ((num_hashes f =? 0) || (32 <? num_hashes f))
  && (Z.of_nat (length (bits f)) =? num_bits f / 64).

(** ** Invariant *)

Record bloom_wf (f : BloomFilter) : Prop := {
  bw_size : exists p, 6 <= p <= 63 /\ num_bits f = 2 ^ p;
  bw_hashes : 1 <= num_hashes f <= 32;
  bw_words : Z.of_nat (length (bits f)) = num_bits f / 64;
  bw_u64 : Forall is_u64 (bits f);
}.

Lemma probe_bit_range f key p : bloom_wf f -> 0 <= probe_bit f key p < num_bits f.
Proof.
  intros [(q & Hq & Hn) _ _ _]. unfold probe_bit. rewrite Hn.
  replace (2 ^ q - 1) with (Z.ones q) by (rewrite Z.ones_equiv; lia).
  rewrite Z.land_ones by lia. apply Z.mod_pos_bound. apply Z.pow_pos_nonneg; lia.
Qed.

Lemma word_index bit : 0 <= bit -> Z.shiftr bit 6 = bit / 64.
Proof. intros. by rewrite Z.shiftr_div_pow2 by lia. Qed.

Lemma bit_in_word bit : 0 <= Z.land bit 63 < 64.
Proof.
  change 63 with (Z.ones 6). rewrite Z.land_ones by lia. apply Z.mod_pos_bound. lia.
Qed.

Lemma word_exists f key p :
  bloom_wf f -> (Z.to_nat (Z.shiftr (probe_bit f key p) 6) < length (bits f))%nat.
Proof.
  intros Hwf. pose proof (probe_bit_range f key p Hwf). destruct Hwf as [(q & Hq & Hn) _ Hw _].
  rewrite word_index by lia.
  assert (probe_bit f key p / 64 < num_bits f / 64).
  { rewrite Hn. replace q with (6 + (q - 6)) by lia. rewrite Z.pow_add_r by lia.
    change (2 ^ 6) with 64. rewrite (Z.mul_comm 64 (2 ^ (q - 6))), Z.div_mul by lia.
    apply Z.div_lt_upper_bound; [lia|]. rewrite Hn in H.
    replace q with (6 + (q - 6)) in H by lia. rewrite Z.pow_add_r in H by lia.
    change (2 ^ 6) with 64 in H. lia. }
  assert (0 <= probe_bit f key p / 64) by (apply Z.div_pos; lia). lia.
Qed.

(** The bit at position [bit] of the array is set. *)
Definition bit_set (ws : list Z) (bit : Z) : Prop :=
  exists w, ws !! Z.to_nat (Z.shiftr bit 6) = Some w /\ Z.testbit w (Z.land bit 63) = true.

Lemma lor_testbit w b i : Z.testbit w i = true -> Z.testbit (Z.lor w b) i = true.
Proof. intros H. by rewrite Z.lor_spec, H. Qed.

Lemma set_bit_spec ws bit ws' :
  set_bit ws bit = Some ws' ->
  bit_set ws' bit /\ length ws' = length ws /\ forall b, bit_set ws b -> bit_set ws' b.
Proof.
  unfold set_bit. destruct (ws !! _) as [w|] eqn:Hw; [|done]. intros [= <-].
  pose proof (bit_in_word bit). split; [|split].
  - exists (Z.lor w (Z.shiftl 1 (Z.land bit 63))). split.
    + apply list_lookup_insert_eq. by eapply lookup_lt_Some.
    + rewrite Z.lor_spec, Z.shiftl_1_l, Z.pow2_bits_true by lia. apply orb_true_r.
  - apply length_insert.
  - intros b (wb & Hb & Ht). destruct (decide (Z.to_nat (Z.shiftr b 6) = Z.to_nat (Z.shiftr bit 6))) as [He|He].
    + rewrite He, Hw in Hb. injection Hb as <-. eexists. split.
      * rewrite He. apply list_lookup_insert_eq. by eapply lookup_lt_Some.
      * by apply lor_testbit.
    + exists wb. split; [by rewrite list_lookup_insert_ne|done].
Qed.

Lemma set_bit_u64 ws bit ws' : set_bit ws bit = Some ws' -> Forall is_u64 ws -> Forall is_u64 ws'.
Proof.
  unfold set_bit. destruct (ws !! _) as [w|] eqn:Hw; [|done]. intros [= <-] Hf.
  apply Forall_insert; [done|]. assert (is_u64 w) as [Hl Hh] by (by eapply Forall_lookup).
  pose proof (bit_in_word bit). rewrite Z.shiftl_1_l. unfold is_u64, u64_max in *.
  assert (0 < 2 ^ Z.land bit 63) by (apply Z.pow_pos_nonneg; lia).
  assert (Hlog : Z.log2 (Z.lor w (2 ^ Z.land bit 63)) < 64).
  { rewrite Z.log2_lor by lia. rewrite Z.log2_pow2 by lia. apply Z.max_lub_lt; [|lia].
    destruct (Z.eq_dec w 0) as [->|]; [done|]. apply Z.log2_lt_pow2; lia. }
  assert (0 <= Z.lor w (2 ^ Z.land bit 63)) by (apply Z.lor_nonneg; lia).
  split; [done|]. destruct (Z.eq_dec (Z.lor w (2 ^ Z.land bit 63)) 0) as [->|]; [lia|].
  apply Z.log2_lt_pow2 in Hlog; lia.
Qed.

Lemma set_probes_spec f key ps ws :
  bloom_wf f -> length ws = length (bits f) -> Forall is_u64 ws ->
  exists ws', set_probes f key ps ws = Some ws' /\ length ws' = length ws /\ Forall is_u64 ws' /\
    (forall b, bit_set ws b -> bit_set ws' b) /\
    Forall (fun p => bit_set ws' (probe_bit f key p)) ps.
Proof.
  intros Hwf. revert ws. induction ps as [|p ps IH]; intros ws Hl Hu; [by exists ws|].
  cbn [set_probes]. destruct (set_bit ws (probe_bit f key p)) as [ws1|] eqn:Hs.
  - pose proof (set_bit_u64 _ _ _ Hs Hu) as Hu1. destruct (set_bit_spec _ _ _ Hs) as (Hset & Hl1 & Hmono).
    destruct (IH ws1) as (ws' & Hp & Hl' & Hu' & Hm' & Hall); [lia|done|].
    exists ws'. simpl. split; [done|]. split; [lia|]. split; [done|]. split; [auto|]. constructor; auto.
  - unfold set_bit in Hs. pose proof (word_exists f key p Hwf) as Hex. rewrite <- Hl in Hex.
    apply lookup_lt_is_Some in Hex as [w Hw]. by rewrite Hw in Hs.
Qed.

Lemma check_probes_true f key ps :
  Forall (fun p => bit_set (bits f) (probe_bit f key p)) ps -> check_probes f key ps = Some true.
Proof.
  induction 1 as [|p ps (w & Hw & Ht) Hps IH]; [done|]. cbn [check_probes]. rewrite Hw. simpl.
  rewrite (proj2 (Z.eqb_neq _ _)); [done|]. pose proof (bit_in_word (probe_bit f key p)).
  intros H0. apply (f_equal (fun z => Z.testbit z (Z.land (probe_bit f key p) 63))) in H0.
  rewrite Z.land_spec, Ht, Z.shiftl_1_l, Z.pow2_bits_true, Z.bits_0 in H0 by lia. done.
Qed.

Lemma bloom_contains_set f key :
  bloom_wf f -> Forall (fun p => bit_set (bits f) (probe_bit f key p)) (probes f) ->
  bloom_contains f key = Some true.
Proof.
  intros [(q & Hq & Hn) Hh Hw _] Hall. unfold bloom_contains.
  destruct (bits f) as [|w ws] eqn:Hb.
  - exfalso. simpl in Hw. rewrite Hn in Hw. replace q with (6 + (q - 6)) in Hw by lia.
    rewrite Z.pow_add_r in Hw by lia. change (2 ^ 6) with 64 in Hw.
    rewrite Z.mul_comm, Z.div_mul in Hw by lia.
    assert (0 < 2 ^ (q - 6)) by (apply Z.pow_pos_nonneg; lia). lia.
  - rewrite (proj2 (Z.eqb_neq _ _)) by lia. simpl. apply check_probes_true. by rewrite Hb.
Qed.

Lemma bloom_insert_spec f key :
  bloom_wf f ->
  exists f', bloom_insert f key = Some f' /\ bloom_wf f' /\
    num_bits f' = num_bits f /\ num_hashes f' = num_hashes f /\
    (forall b, bit_set (bits f) b -> bit_set (bits f') b) /\
    Forall (fun p => bit_set (bits f') (probe_bit f key p)) (probes f).
Proof.
  intros Hwf. destruct (set_probes_spec f key (probes f) (bits f) Hwf eq_refl (bw_u64 _ Hwf))
    as (ws & Hs & Hl & Hu & Hm & Hall).
  unfold bloom_insert. rewrite Hs. eexists. split; [done|].
  destruct Hwf as [Hsz Hh Hw _]. split; [split; simpl; [done..| |done]; by rewrite Hl|].
  repeat (split; [done|]). done.
Qed.

Fixpoint bloom_insert_all (f : BloomFilter) (keys : list bytes) : option BloomFilter :=
  match keys with
  | [] => Some f
  | k :: ks => f' ← bloom_insert f k; bloom_insert_all f' ks
  end.

Lemma insert_all_mono f keys :
  bloom_wf f ->
  exists f', bloom_insert_all f keys = Some f' /\ bloom_wf f' /\
    num_bits f' = num_bits f /\ num_hashes f' = num_hashes f /\
    (forall b, bit_set (bits f) b -> bit_set (bits f') b) /\
    forall k, In k keys -> Forall (fun p => bit_set (bits f') (probe_bit f k p)) (probes f).
Proof.
  revert f. induction keys as [|k ks IH]; intros f Hwf; [by exists f|].
  destruct (bloom_insert_spec f k Hwf) as (f1 & H1 & Hwf1 & Hb1 & Hh1 & Hm1 & Hall1).
  destruct (IH f1 Hwf1) as (f' & H' & Hwf' & Hb' & Hh' & Hm' & Hall').
  assert (Hpb : forall k p, probe_bit f1 k p = probe_bit f k p) by (intros; unfold probe_bit; by rewrite Hb1).
  assert (Hps : probes f1 = probes f) by (unfold probes; by rewrite Hh1).
  exists f'. cbn [bloom_insert_all]. rewrite H1. simpl. split; [done|]. split; [done|].
  split; [congruence|]. split; [congruence|]. split; [auto|].
  intros k' [<-|Hin].
  - eapply List.Forall_impl; [|exact Hall1]. simpl. auto.
  - specialize (Hall' k' Hin). rewrite Hps in Hall'. eapply List.Forall_impl; [|exact Hall'].
    intros p. simpl. by rewrite Hpb.
Qed.

Lemma bloom_contains_total f key : bloom_wf f -> exists b, bloom_contains f key = Some b.
Proof.
  intros Hwf. unfold bloom_contains. destruct (_ || _); [eauto|]. induction (probes f) as [|p ps IH]; [by eexists|].
  cbn [check_probes]. pose proof (word_exists f key p Hwf) as Hex. apply lookup_lt_is_Some in Hex as [w ->].
  cbn [mbind option_bind]. destruct (_ =? 0); [by eexists|done].
Qed.

Lemma insert_all_contains f keys :
  bloom_wf f ->
  exists f', bloom_insert_all f keys = Some f' /\ bloom_wf f' /\
    forall k, In k keys -> bloom_contains f' k = Some true.
Proof.
  intros Hwf. destruct (insert_all_mono f keys Hwf) as (f' & H' & Hwf' & Hb & Hh & _ & Hall).
  exists f'. split; [done|]. split; [done|]. intros k Hin. apply bloom_contains_set; [done|].
  assert (Hps : probes f' = probes f) by (unfold probes; by rewrite Hh). rewrite Hps.
  eapply List.Forall_impl; [|by apply Hall]. intros p. simpl. unfold probe_bit. by rewrite Hb.
Qed.

(** C39: no false negatives: after inserting any keys into a well-formed filter
    (no access is out of bounds), [contains] answers true for each of them, and
    the filter stays well formed. *)
Theorem bloom_no_false_negatives (f : BloomFilter) (keys : list bytes) :
  bloom_wf f ->
  exists f', bloom_insert_all f keys = Some f' /\ bloom_wf f' /\
    forall k, In k keys -> bloom_contains f' k = Some true.
Proof. apply insert_all_contains. Qed.

Lemma bloom_new_wf m k : m <= 2 ^ 63 -> bloom_wf (bloom_new m k).
Proof.
  intros Hm. unfold bloom_new, next_power_of_two.
  assert (Hl : 6 <= Z.log2_up (Z.max m 64) <= 63).
  { split; [change 6 with (Z.log2_up 64)|change 63 with (Z.log2_up (2 ^ 63))]; apply Z.log2_up_le_mono; lia. }
  split; cbn [num_bits num_hashes bits].
  - by exists (Z.log2_up (Z.max m 64)).
  - lia.
  - rewrite length_replicate. rewrite Z2Nat.id; [done|]. apply Z.div_pos; [|lia].
    apply Z.pow_nonneg. lia.
  - apply Forall_replicate. split; [lia|]. rewrite u64_max_val. lia.
Qed.

Lemma read_words_ok pre ws :
  Forall is_u64 ws ->
  read_words (length ws) (pre ++ List.flat_map (to_le 8) ws) (blen pre) = Some ws.
Proof.
  revert pre. induction ws as [|w ws IH]; intros pre Hu; [done|].
  apply Forall_cons_1 in Hu as [Hw Hu]. cbn [length read_words flat_map].
  rewrite (slice_app pre (to_le 8 w) _ (blen pre)) by (done || by rewrite blen_to_le).
  cbn [mbind option_bind]. rewrite from_le_to_le8 by done.
  specialize (IH (pre ++ to_le 8 w) Hu). rewrite blen_app, blen_to_le in IH.
  rewrite <- app_assoc in IH. change (Z.of_nat 8) with 8 in IH. by rewrite IH.
Qed.

Lemma blen_words ws : blen (List.flat_map (to_le 8) ws) = 8 * Z.of_nat (length ws).
Proof.
  induction ws as [|w ws IH]; [done|]. cbn [flat_map length]. rewrite blen_app, blen_to_le, IH. lia.
Qed.

(** The sidecar round trip: decoding the serialised bytes of a well-formed
    filter gives the filter back, without reading outside the buffer. *)
Lemma bloom_roundtrip (f : BloomFilter) :
  bloom_wf f -> bloom_from_bytes (bloom_to_bytes f) = Some (Some f).
Proof.
  intros [(q & Hq & Hn) Hh Hw Hu]. unfold bloom_from_bytes, bloom_to_bytes.
  set (body := List.flat_map (to_le 8) (bits f)).
  assert (Hpow : 2 ^ q <= 2 ^ 63) by (apply Z.pow_le_mono_r; lia).
  assert (0 < 2 ^ q) by (apply Z.pow_pos_nonneg; lia).
  assert (Hlen : blen (BLOOM_MAGIC ++ to_le 8 (num_bits f) ++ to_le 4 (num_hashes f) ++ body) =
                 16 + num_bits f / 64 * 8).
  { unfold body. rewrite !blen_app, !blen_to_le, blen_words, Hw. change (blen BLOOM_MAGIC) with 4. lia. }
  rewrite Hlen. assert (0 <= num_bits f / 64) by (apply Z.div_pos; lia).
  rewrite (proj2 (Z.ltb_ge _ _)) by lia.
  change (take 4 (BLOOM_MAGIC ++ to_le 8 (num_bits f) ++ to_le 4 (num_hashes f) ++ body)) with BLOOM_MAGIC.
  rewrite bool_decide_true by done. cbn [negb].
  rewrite (slice_app BLOOM_MAGIC (to_le 8 (num_bits f)) _ 4 12) by done. cbn [mbind option_bind].
  assert (Hs : slice (BLOOM_MAGIC ++ to_le 8 (num_bits f) ++ to_le 4 (num_hashes f) ++ body) 12 16 =
               Some (to_le 4 (num_hashes f))).
  { rewrite (app_assoc BLOOM_MAGIC). apply slice_app; by rewrite blen_app, !blen_to_le. }
  rewrite Hs. cbn [mbind option_bind].
  rewrite from_le_to_le8 by (unfold is_u64, u64_max; lia).
  rewrite from_le_to_le4 by (unfold is_u32, u32_max; lia).
  rewrite Z.eqb_refl. cbn [negb]. rewrite <- Hw, Nat2Z.id.
  replace (BLOOM_MAGIC ++ to_le 8 (num_bits f) ++ to_le 4 (num_hashes f) ++ body)
    with ((BLOOM_MAGIC ++ to_le 8 (num_bits f) ++ to_le 4 (num_hashes f)) ++ body) by (by rewrite <- !app_assoc).
  pose proof (read_words_ok (BLOOM_MAGIC ++ to_le 8 (num_bits f) ++ to_le 4 (num_hashes f)) (bits f) Hu) as Hr.
  rewrite !blen_app, !blen_to_le in Hr. change (blen BLOOM_MAGIC + (Z.of_nat 8 + Z.of_nat 4)) with 16 in Hr.
  unfold body. rewrite Hr. simpl. by destruct f.
Qed.

(** A filter file cut short is rejected. *)
Lemma bloom_torn (f : BloomFilter) b :
  bloom_wf f -> b `prefix_of` bloom_to_bytes f -> blen b < blen (bloom_to_bytes f) -> bloom_from_bytes b = Some None.
Proof.
  intros [(q & Hq & Hn) Hh Hw Hu] Hb Hlt. unfold bloom_from_bytes. destruct (Z.ltb_spec (blen b) 16); [done|].
  assert (Hs : forall i j, j <= 16 -> slice b i j = slice (bloom_to_bytes f) i j)
    by (intros i j Hj; destruct (slice_prefix b _ i j Hb) as [->|[? _]]; [done|lia]).
  assert (Ht : take 4 b = BLOOM_MAGIC).
  { destruct Hb as [g Hg]. transitivity (take 4 (bloom_to_bytes f)); [|done].
    rewrite Hg, take_app_le; [done|]. unfold blen in *. lia. }
  rewrite Ht, bool_decide_true by done. cbn [negb]. rewrite !Hs by lia. unfold bloom_to_bytes in Hlt |- *.
  set (body := List.flat_map (to_le 8) (bits f)) in *.
  rewrite (slice_app BLOOM_MAGIC (to_le 8 (num_bits f)) _ 4 12) by done. cbn [mbind option_bind].
  assert (E : slice (BLOOM_MAGIC ++ to_le 8 (num_bits f) ++ to_le 4 (num_hashes f) ++ body) 12 16 = Some (to_le 4 (num_hashes f)))
    by (rewrite (app_assoc BLOOM_MAGIC); apply slice_app; by rewrite blen_app, !blen_to_le).
  rewrite E. cbn [mbind option_bind]. assert (Hpow : 2 ^ q <= 2 ^ 63) by (apply Z.pow_le_mono_r; lia).
  assert (0 < 2 ^ q) by (apply Z.pow_pos_nonneg; lia).
  rewrite from_le_to_le8 by (unfold is_u64, u64_max; lia).
  unfold body in Hlt. rewrite !blen_app, !blen_to_le, blen_words, Hw in Hlt. change (blen BLOOM_MAGIC) with 4 in Hlt.
  by rewrite (proj2 (Z.eqb_neq _ _)) by lia.
Qed.

(** ** Witnesses and finding *)

Lemma bloom_no_false_negatives_witness :
  exists f', bloom_insert_all (bloom_new 128 7) [[x61]; [x62]] = Some f' /\ bloom_contains f' [x61] = Some true.
Proof.
  destruct (bloom_no_false_negatives (bloom_new 128 7) [[x61]; [x62]]) as (f' & H1 & _ & H2).
  - apply bloom_new_wf. lia.
  - exists f'. split; [exact H1|]. apply H2. left. reflexivity.
Defined.

(** A sidecar whose bit count is not a power of two is accepted, and a probe then
    indexes past the word array. *)
Definition bad_sidecar : bytes := BLOOM_MAGIC ++ to_le 8 96 ++ to_le 4 7 ++ to_le 8 u64_max.

Lemma bad_sidecar_out_of_bounds :
  exists f, bloom_from_bytes bad_sidecar = Some (Some f) /\ bloom_contains f [x62] = None.
Proof. exists (mkBloom 96 7 [u64_max]). split; vm_compute; reflexivity. Qed.

(** A filter file of the right length whose words were never written, as a crash
    may leave it, is accepted: it has no key at all. *)
Definition zeroed_sidecar : bytes := BLOOM_MAGIC ++ to_le 8 128 ++ to_le 4 7 ++ replicate 16 x00.

Lemma zeroed_sidecar_accepted :
  exists f, bloom_from_bytes zeroed_sidecar = Some (Some f) /\ bloom_contains f [x61] = Some false.
Proof. exists (mkBloom 128 7 [0; 0]). split; vm_compute; reflexivity. Qed.
