(* ===== verification/KeyIndex.v ===== *)
(** * Key index sidecar ([hatp-engine/src/key_index.rs])

    The flat sorted array of keys and versions written next to an SST, its
    decoder and its binary search.  [None] marks a read outside the buffer (the
    code reads through raw pointers). *)

From stdpp Require Import base tactics list option sorting.
From S2P Require Import Prelude OrdMap Types Version MemTable.
#[local] Open Scope Z_scope.

Definition KIDX_MAGIC : bytes := [x4b; x49; x44; x58].
Definition KI_VALUE_NONE : Z := 0xFFFFFFFF.

Record KeyIndex := mkIndex { ki_data : bytes; ki_count : Z; ki_offsets : list Z }.

(** [u32::try_from(len).unwrap_or(u32::MAX)] *)
Definition len_u32 (b : bytes) : Z := Z.min (blen b) u32_max.

Definition value_len_of (v : option bytes) : Z :=
  match v with Some v => len_u32 v | None => KI_VALUE_NONE end.

(** The bytes [from_rows] appends for one row. *)
Definition entry_bytes (row : VersionedRow) : bytes :=
  let v := row_version row in
  to_le 4 (len_u32 (row_key row)) ++ row_key row
  ++ to_le 4 (value_len_of (value v))
  ++ (if value_len_of (value v) =? KI_VALUE_NONE then []
      else match value v with Some b => b | None => [] end)
  ++ to_le 8 (begin_ts v) ++ to_le 8 (end_ts v).

(** The loop of [from_rows]; offsets are truncated to 32 bits. *)
Fixpoint from_rows_loop (rows : list VersionedRow) (data : bytes) (offsets : list Z)
  : bytes * list Z :=
  match rows with
  | [] => (data, offsets)
  | row :: rest =>
      from_rows_loop rest (data ++ entry_bytes row) (offsets ++ [wrap32 (blen data)])
  end.

Definition ki_from_rows (rows : list VersionedRow) : KeyIndex :=
  let count := wrap32 (Z.of_nat (length rows)) in
  let '(data, offsets) := from_rows_loop rows (KIDX_MAGIC ++ to_le 4 count) [] in
  mkIndex data count offsets.

Definition read_u32 (data : bytes) (off : Z) : option Z := from_le <$> slice data off (off + 4).
Definition read_u64 (data : bytes) (off : Z) : option Z := from_le <$> slice data off (off + 8).

(** The loop of [from_bytes]; outer [None]: out of bounds, inner [None]: rejected. *)
Fixpoint from_bytes_loop (n : nat) (data : bytes) (cursor : Z) (offsets : list Z)
  : option (option (list Z)) :=
  match n with
  | O => Some (Some offsets)
  | S n =>
      if blen data <? cursor + 4 then Some None else
      key_len ← read_u32 data cursor;
      let offsets := offsets ++ [wrap32 cursor] in
      let cursor := cursor + (4 + key_len) in
      if blen data <? cursor + 4 then Some None else
      value_len ← read_u32 data cursor;
      let cursor := cursor + 4 in
      let cursor := if negb (value_len =? KI_VALUE_NONE) then cursor + value_len else cursor in
      let cursor := cursor + 16 in
      if blen data <? cursor then Some None else from_bytes_loop n data cursor offsets
  end.

Definition ki_from_bytes (data : bytes) : option (option KeyIndex) :=
  if blen data <? 8 then Some None
  else if negb (bool_decide (take 4 data = KIDX_MAGIC)) then Some None
  else
    count ← read_u32 data 4;
    r ← from_bytes_loop (Z.to_nat count) data 8 [];
    Some (match r with Some offsets => Some (mkIndex data count offsets) | None => None end).

(** [version_at] *)
Definition version_at (data : bytes) (entry_start : Z) : option VersionedValue :=
  key_len ← read_u32 data entry_start;
  let value_cursor := entry_start + 4 + key_len in
  value_len ← read_u32 data value_cursor;
  value ← (if value_len =? KI_VALUE_NONE then Some None
           else Some <$> slice data (value_cursor + 4) (value_cursor + 4 + value_len));
  let ts_offset := value_cursor + 4 + (if value_len =? KI_VALUE_NONE then 0 else value_len) in
  begin_ts ← read_u64 data ts_offset;
  end_ts ← read_u64 data (ts_offset + 8);
  Some {| value := value; begin_ts := begin_ts; end_ts := end_ts; tx_id := 0 |}.

(** The binary search loop; [None] is an out-of-bounds access or out of fuel. *)
Fixpoint ki_search (fuel : nat) (idx : KeyIndex) (key : bytes) (lo hi : Z)
  : option (option VersionedValue) :=
  match fuel with
  | O => None
  | S fuel =>
      if negb (lo <? hi) then Some None else
      let mid := lo + (hi - lo) / 2 in
      entry_start ← ki_offsets idx !! Z.to_nat mid;
      key_len ← read_u32 (ki_data idx) entry_start;
      entry_key ← slice (ki_data idx) (entry_start + 4) (entry_start + 4 + key_len);
      match bcmp entry_key key with
      | Lt => ki_search fuel idx key (mid + 1) hi
      | Gt => ki_search fuel idx key lo mid
      | Eq => Some <$> version_at (ki_data idx) entry_start
      end
  end.

(** Each probe strictly shrinks the interval. *)
Definition ki_get (idx : KeyIndex) (key : bytes) : option (option VersionedValue) :=
  if ki_count idx =? 0 then Some None
  else ki_search (S (Z.to_nat (ki_count idx))) idx key 0 (ki_count idx).

(** The key order check of [assert_invariants]. *)
Fixpoint ki_keys_sorted (data : bytes) (offsets : list Z) (last : option bytes) : option bool :=
  match offsets with
  | [] => Some true
  | off :: rest =>
      if blen data <? off + 4 then Some false else
      key_len ← read_u32 data off;
      if blen data <? off + 4 + key_len then Some false else
      key ← slice data (off + 4) (off + 4 + key_len);
      match last with
      | Some l => if ltc key l then Some false else ki_keys_sorted data rest (Some key)
      | None => ki_keys_sorted data rest (Some key)
      end
  end.

Definition ki_assert_invariants (idx : KeyIndex) : option bool :=
  if ki_count idx =? 0 then Some (match ki_offsets idx with [] => true | _ => false end)
  else if negb (Z.of_nat (length (ki_offsets idx)) =? ki_count idx) then Some false
  else ki_keys_sorted (ki_data idx) (ki_offsets idx) None.

(** ** The layout of an index built from rows *)

Definition entries_bytes (rows : list VersionedRow) : bytes := concat (map entry_bytes rows).

Definition header_bytes (rows : list VersionedRow) : bytes :=
  KIDX_MAGIC ++ to_le 4 (wrap32 (Z.of_nat (length rows))).

Definition index_bytes (rows : list VersionedRow) : bytes := header_bytes rows ++ entries_bytes rows.

(** Offsets of the entries that follow [base] bytes. *)
Fixpoint entry_offsets (base : Z) (rows : list VersionedRow) : list Z :=
  match rows with
  | [] => []
  | r :: rest => wrap32 base :: entry_offsets (base + blen (entry_bytes r)) rest
  end.

Lemma from_rows_loop_eq rows data offsets :
  from_rows_loop rows data offsets =
  (data ++ entries_bytes rows, offsets ++ entry_offsets (blen data) rows).
Proof.
  revert data offsets. induction rows as [|r rows IH]; intros data offsets.
  - unfold entries_bytes. simpl. by rewrite !app_nil_r.
  - cbn [from_rows_loop entry_offsets]. rewrite IH. unfold entries_bytes. cbn [map concat].
    by rewrite <- !app_assoc, blen_app.
Qed.

Lemma from_rows_eq rows :
  ki_from_rows rows =
  mkIndex (index_bytes rows) (wrap32 (Z.of_nat (length rows))) (entry_offsets 8 rows).
Proof. unfold ki_from_rows. by rewrite from_rows_loop_eq. Qed.

(** Rows an index represents exactly: the whole index is addressable with 32-bit
    offsets, and timestamps are 64-bit. *)
Definition row_ok (r : VersionedRow) : Prop :=
  is_u64 (begin_ts (row_version r)) /\ is_u64 (end_ts (row_version r)).
Definition rows_ok (rows : list VersionedRow) : Prop :=
  blen (index_bytes rows) <= u32_max /\ Forall row_ok rows.

(** The version as the index stores it: without the transaction id. *)
Definition strip_tx (v : VersionedValue) : VersionedValue :=
  {| value := value v; begin_ts := begin_ts v; end_ts := end_ts v; tx_id := 0 |}.

Definition val_bytes (r : VersionedRow) : bytes :=
  match value (row_version r) with Some b => b | None => [] end.

(** *** Reading one entry back *)

(** The length field of a value below the sentinel. *)
Definition row_vl (r : VersionedRow) : Z :=
  match value (row_version r) with Some b => blen b | None => KI_VALUE_NONE end.

Section Entry.
Variables (pre post : bytes) (r : VersionedRow).
Abbreviation v := (row_version r).
Hypothesis Hk : blen (row_key r) < u32_max.
Hypothesis Hv : blen (val_bytes r) < u32_max.
Hypothesis Hts : row_ok r.

Abbreviation vl := (row_vl r).
Abbreviation data := (pre ++ entry_bytes r ++ post).

Lemma value_len_small : value_len_of (value v) = vl /\ (vl =? KI_VALUE_NONE) = match value v with Some _ => false | None => true end.
Proof.
  unfold row_vl, value_len_of, val_bytes, len_u32 in *.
  destruct (value v) as [b|]; [|done]. split; [lia|]. apply Z.eqb_neq. unfold KI_VALUE_NONE.
  rewrite u32_max_val in Hv. lia.
Qed.

Lemma entry_bytes_eq :
  entry_bytes r = to_le 4 (blen (row_key r)) ++ row_key r ++ to_le 4 vl ++ val_bytes r
                  ++ to_le 8 (begin_ts v) ++ to_le 8 (end_ts v).
Proof.
  destruct value_len_small as [Hvl Hs]. unfold entry_bytes. rewrite Hvl, Hs.
  unfold len_u32. rewrite Z.min_l by lia. unfold val_bytes. by destruct (value v).
Qed.

Lemma blen_entry : blen (entry_bytes r) = 24 + blen (row_key r) + blen (val_bytes r).
Proof. rewrite entry_bytes_eq, !blen_app, !blen_to_le. lia. Qed.

Ltac entry_slice a m :=
  match goal with |- slice ?d _ _ = Some m =>
    let H := fresh in
    assert (H : exists q, d = a ++ m ++ q)
      by (eexists; rewrite entry_bytes_eq; rewrite <- ?app_assoc; reflexivity);
    destruct H as [? ->]; apply slice_app; rewrite ?blen_app, ?blen_to_le; lia
  end.

Lemma read_key_len : read_u32 data (blen pre) = Some (blen (row_key r)).
Proof.
  unfold read_u32. assert (Hs : slice data (blen pre) (blen pre + 4) = Some (to_le 4 (blen (row_key r))))
    by entry_slice pre (to_le 4 (blen (row_key r))).
  rewrite Hs. cbn. f_equal. apply from_le_to_le4. pose proof (blen_nonneg (row_key r)).
  unfold is_u32. lia.
Qed.

Lemma read_key :
  slice data (blen pre + 4) (blen pre + 4 + blen (row_key r)) = Some (row_key r).
Proof. entry_slice (pre ++ to_le 4 (blen (row_key r))) (row_key r). Qed.

Lemma vl_some b : value v = Some b -> vl = blen b.
Proof. unfold row_vl. by intros ->. Qed.

Lemma vl_u32 : is_u32 vl.
Proof.
  unfold row_vl, val_bytes in *. destruct (value v) as [b|].
  - pose proof (blen_nonneg b). unfold is_u32. lia.
  - unfold is_u32, KI_VALUE_NONE. rewrite u32_max_val. lia.
Qed.

Lemma read_value_len : read_u32 data (blen pre + 4 + blen (row_key r)) = Some vl.
Proof.
  unfold read_u32.
  assert (Hs : slice data (blen pre + 4 + blen (row_key r)) (blen pre + 4 + blen (row_key r) + 4) =
               Some (to_le 4 vl))
    by entry_slice (pre ++ to_le 4 (blen (row_key r)) ++ row_key r) (to_le 4 vl).
  rewrite Hs. cbn. f_equal. apply from_le_to_le4, vl_u32.
Qed.

Lemma version_at_entry : version_at data (blen pre) = Some (strip_tx v).
Proof.
  unfold version_at. rewrite read_key_len. cbn [mbind option_bind]. rewrite read_value_len.
  cbn [mbind option_bind]. destruct value_len_small as [_ Hs]. rewrite Hs.
  set (c := blen pre + 4 + blen (row_key r)).
  assert (Hb : forall o, o = blen (val_bytes r) ->
    read_u64 data (c + 4 + o) = Some (begin_ts v) /\ read_u64 data (c + 4 + o + 8) = Some (end_ts v)).
  { intros o ->. unfold read_u64, c. split.
    - assert (Hr : slice data (blen pre + 4 + blen (row_key r) + 4 + blen (val_bytes r))
                     (blen pre + 4 + blen (row_key r) + 4 + blen (val_bytes r) + 8) = Some (to_le 8 (begin_ts v)))
        by entry_slice (pre ++ to_le 4 (blen (row_key r)) ++ row_key r ++ to_le 4 vl ++ val_bytes r) (to_le 8 (begin_ts v)).
      rewrite Hr. cbn. f_equal. apply from_le_to_le8, Hts.
    - assert (Hr : slice data (blen pre + 4 + blen (row_key r) + 4 + blen (val_bytes r) + 8)
                     (blen pre + 4 + blen (row_key r) + 4 + blen (val_bytes r) + 8 + 8) = Some (to_le 8 (end_ts v)))
        by entry_slice (pre ++ to_le 4 (blen (row_key r)) ++ row_key r ++ to_le 4 vl ++ val_bytes r ++ to_le 8 (begin_ts v))
                       (to_le 8 (end_ts v)).
      rewrite Hr. cbn. f_equal. apply from_le_to_le8, Hts. }
  destruct (value v) as [b|] eqn:Hval.
  - assert (Hvb : val_bytes r = b) by (unfold val_bytes; by rewrite Hval).
    assert (Hsl : slice data (c + 4) (c + 4 + vl) = Some b).
    { rewrite (vl_some b Hval), <- Hvb. unfold c.
      entry_slice (pre ++ to_le 4 (blen (row_key r)) ++ row_key r ++ to_le 4 vl) (val_bytes r). }
    rewrite Hsl. cbn [mbind option_bind fmap option_fmap option_map].
    destruct (Hb vl) as [-> ->]; [by rewrite (vl_some b Hval), Hvb|].
    cbn. unfold strip_tx. by rewrite Hval.
  - assert (Hvb : val_bytes r = []) by (unfold val_bytes; by rewrite Hval).
    cbn [mbind option_bind fmap option_fmap option_map].
    destruct (Hb 0) as [-> ->]; [by rewrite Hvb|]. cbn. unfold strip_tx. by rewrite Hval.
Qed.
End Entry.

(** *** Reading the whole index back *)

Lemma blen_index_header rows : blen (header_bytes rows) = 8.
Proof. unfold header_bytes. by rewrite blen_app, blen_to_le. Qed.

Lemma entries_bytes_app a b : entries_bytes (a ++ b) = entries_bytes a ++ entries_bytes b.
Proof. unfold entries_bytes. by rewrite map_app, concat_app. Qed.

Lemma entries_bytes_cons r b : entries_bytes (r :: b) = entry_bytes r ++ entries_bytes b.
Proof. done. Qed.

Lemma index_split rows a r b :
  rows = a ++ r :: b ->
  index_bytes rows = (header_bytes rows ++ entries_bytes a) ++ entry_bytes r ++ entries_bytes b.
Proof.
  intros ->. unfold index_bytes. rewrite entries_bytes_app, entries_bytes_cons.
  by rewrite <- !app_assoc.
Qed.

(** An entry is at least as long as its key and value. *)
Lemma entry_bytes_ge r : blen (row_key r) + 16 <= blen (entry_bytes r) /\
  (blen (val_bytes r) < u32_max -> blen (val_bytes r) + 16 <= blen (entry_bytes r)).
Proof.
  unfold entry_bytes, val_bytes. rewrite !blen_app, !blen_to_le.
  pose proof (blen_nonneg (row_key r)).
  set (x := if _ =? _ then _ else _). pose proof (blen_nonneg x). split; [lia|].
  intros Hv. unfold x, value_len_of, len_u32. destruct (value (row_version r)) as [b|]; [|simpl; lia].
  rewrite Z.min_l by lia. rewrite (proj2 (Z.eqb_neq _ _)); [lia|].
  unfold KI_VALUE_NONE. rewrite u32_max_val in Hv. lia.
Qed.

(** Values of [u32::MAX] bytes or more cannot be stored. *)
Definition values_small (rows : list VersionedRow) : Prop :=
  Forall (fun r => blen (val_bytes r) < u32_max) rows.

Lemma row_small rows a r b :
  rows_ok rows -> values_small rows -> rows = a ++ r :: b ->
  blen (row_key r) < u32_max /\ blen (val_bytes r) < u32_max /\ row_ok r /\
  8 + blen (entries_bytes a) + blen (entry_bytes r) <= u32_max.
Proof.
  intros [Hlen Hok] Hvs Hr. pose proof (entry_bytes_ge r) as [Hk _].
  pose proof (index_split _ _ _ _ Hr) as Hi. rewrite Hi in Hlen.
  rewrite !blen_app, blen_index_header in Hlen. pose proof (blen_nonneg (entries_bytes a)).
  pose proof (blen_nonneg (entries_bytes b)).
  rewrite Hr in Hok, Hvs. apply Forall_app in Hok as [_ Hok]. apply Forall_app in Hvs as [_ Hvs].
  apply Forall_cons_1 in Hok as [Hok _]. apply Forall_cons_1 in Hvs as [Hvs _].
  split; [lia|]. split; [done|]. split; [done|]. lia.
Qed.

Lemma wrap32_id z : 0 <= z <= u32_max -> wrap32 z = z.
Proof. intros. unfold wrap32. apply Z.mod_small. unfold u32_max in *. lia. Qed.

Lemma entry_offsets_lookup rows a r b base :
  rows = a ++ r :: b -> 0 <= base -> base + blen (entries_bytes a) <= u32_max ->
  entry_offsets base rows !! length a = Some (base + blen (entries_bytes a)).
Proof.
  intros ->. revert base. induction a as [|x a IH]; intros base Hb Hmax; simpl.
  - change (entries_bytes []) with (@nil byte) in *. rewrite blen_nil in *. rewrite Z.add_0_r in *.
    by rewrite wrap32_id.
  - rewrite entries_bytes_cons, blen_app in Hmax. pose proof (blen_nonneg (entry_bytes x)).
    pose proof (blen_nonneg (entries_bytes a)).
    change (x :: a ++ r :: b) with ((x :: a) ++ r :: b). rewrite entries_bytes_cons, blen_app.
    rewrite IH by lia. f_equal. lia.
Qed.

Lemma entry_offsets_length base rows : length (entry_offsets base rows) = length rows.
Proof. revert base. induction rows; intros; simpl; auto. Qed.

Lemma rows_count rows : rows_ok rows -> Z.of_nat (length rows) <= u32_max.
Proof.
  intros [Hlen _]. unfold index_bytes in Hlen. rewrite blen_app, blen_index_header in Hlen.
  assert (Hn : Z.of_nat (length rows) <= blen (entries_bytes rows)).
  { clear. induction rows as [|r rows IH]; [done|]. rewrite entries_bytes_cons, blen_app.
    pose proof (entry_bytes_ge r) as [Hk _]. pose proof (blen_nonneg (row_key r)). cbn [length]. lia. }
  lia.
Qed.

Lemma read_u32_prefix b full x : b `prefix_of` full -> x + 4 <= blen b -> read_u32 b x = read_u32 full x.
Proof.
  intros Hp Hx. unfold read_u32. destruct (slice_prefix b full x (x + 4) Hp) as [->|[? _]]; [done|lia].
Qed.

(** The loop on the bytes of an index, or on a part of them: a cut is noticed. *)
Lemma from_bytes_loop_rows all b a rows offs :
  rows_ok all -> values_small all -> b `prefix_of` index_bytes all -> all = a ++ rows ->
  8 + blen (entries_bytes a) <= blen b ->
  from_bytes_loop (length rows) b (8 + blen (entries_bytes a)) offs =
  if blen b <? blen (index_bytes all) then Some None
  else Some (Some (offs ++ entry_offsets (8 + blen (entries_bytes a)) rows)).
Proof.
  intros Hok Hvs Hb. revert a offs. induction rows as [|r rows IH]; intros a offs Hall Hcur.
  - rewrite app_nil_r in Hall. subst a. unfold index_bytes at 1. rewrite blen_app, blen_index_header.
    rewrite (proj2 (Z.ltb_ge _ _)) by lia. simpl. by rewrite app_nil_r.
  - destruct (row_small _ _ _ _ Hok Hvs Hall) as (Hk & Hv & Hro & Hmax).
    pose proof (index_split _ _ _ _ Hall) as Hi. cbn [length from_bytes_loop].
    set (pre := header_bytes all ++ entries_bytes a) in *.
    assert (Hpre : 8 + blen (entries_bytes a) = blen pre) by (unfold pre; by rewrite blen_app, blen_index_header).
    pose proof (blen_entry r Hk Hv) as Hbe. pose proof (blen_nonneg (row_key r)).
    pose proof (blen_nonneg (val_bytes r)). pose proof (blen_nonneg (entries_bytes rows)).
    assert (Hlen : blen (index_bytes all) = blen pre + blen (entry_bytes r) + blen (entries_bytes rows))
      by (rewrite Hi, !blen_app; lia).
    rewrite Hpre in *.
    destruct (Z.ltb_spec (blen b) (blen pre + 4)); [by rewrite (proj2 (Z.ltb_lt _ _)) by lia|].
    rewrite (read_u32_prefix b _ (blen pre) Hb) by lia. rewrite Hi at 1. rewrite read_key_len by done. cbn [mbind option_bind].
    rewrite Z.add_assoc.
    destruct (Z.ltb_spec (blen b) (blen pre + 4 + blen (row_key r) + 4)); [by rewrite (proj2 (Z.ltb_lt _ _)) by lia|].
    rewrite (read_u32_prefix b _ (blen pre + 4 + blen (row_key r)) Hb) by lia.
    rewrite Hi at 1. rewrite read_value_len by done. cbn [mbind option_bind].
    destruct (value_len_small r Hv) as [_ Hs]. rewrite Hs.
    assert (Hc : (if negb match value (row_version r) with Some _ => false | None => true end
                  then blen pre + 4 + blen (row_key r) + 4 + row_vl r
                  else blen pre + 4 + blen (row_key r) + 4) + 16 = blen pre + blen (entry_bytes r)).
    { rewrite Hbe. unfold row_vl, val_bytes. destruct (value (row_version r)); simpl; rewrite ?blen_nil; lia. }
    rewrite Hc.
    destruct (Z.ltb_spec (blen b) (blen pre + blen (entry_bytes r))); [by rewrite (proj2 (Z.ltb_lt _ _)) by lia|].
    specialize (IH (a ++ [r]) (offs ++ [wrap32 (blen pre)])).
    rewrite <- app_assoc in IH. specialize (IH Hall).
    rewrite entries_bytes_app, blen_app in IH. change (entries_bytes [r]) with (entry_bytes r ++ []) in IH.
    rewrite app_nil_r, Z.add_assoc, Hpre in IH. rewrite IH by done. by rewrite <- app_assoc.
Qed.

(** *** Binary search *)

Definition rows_sorted (rows : list VersionedRow) : Prop :=
  StronglySorted (fun a b => cle (row_key a) (row_key b)) rows.

Lemma rows_sorted_lookup rows i j a b :
  rows_sorted rows -> (i <= j)%nat -> rows !! i = Some a -> rows !! j = Some b ->
  cle (row_key a) (row_key b).
Proof.
  intros Hs. revert i j. induction Hs as [|x rows Hs IH Hall]; intros i j Hij Ha Hb; [done|].
  destruct i as [|i], j as [|j]; simpl in *; try lia.
  - injection Ha as <-. injection Hb as <-. apply cle_refl.
  - injection Ha as <-. rewrite Forall_forall in Hall. apply Hall. by eapply list_elem_of_lookup_2.
  - eapply IH; [|done|done]. lia.
Qed.

Lemma search_ok rows key fuel lo hi :
  rows_ok rows -> values_small rows -> rows_sorted rows ->
  0 <= lo <= hi -> hi <= Z.of_nat (length rows) -> hi - lo < Z.of_nat fuel ->
  (forall i r, rows !! i = Some r -> Z.of_nat i < lo -> clt (row_key r) key) ->
  (forall i r, rows !! i = Some r -> hi <= Z.of_nat i -> clt key (row_key r)) ->
  exists res, ki_search fuel (ki_from_rows rows) key lo hi = Some res /\
    match res with
    | Some v => exists r, r ∈ rows /\ row_key r = key /\ v = strip_tx (row_version r)
    | None => forall r, r ∈ rows -> row_key r <> key
    end.
Proof.
  intros Hok Hvs Hsort. rewrite from_rows_eq. revert lo hi.
  induction fuel as [|fuel IH]; intros lo hi Hlo Hhi Hf Hbelow Habove; [lia|].
  cbn [ki_search]. destruct (Z.ltb_spec lo hi) as [Hlt|Hge]; cbn [negb].
  - set (mid := lo + (hi - lo) / 2).
    assert (Hmid : lo <= mid < hi).
    { unfold mid. split; [pose proof (Z.div_pos (hi - lo) 2); lia|].
      assert ((hi - lo) / 2 < hi - lo) by (apply Z.div_lt; lia). lia. }
    destruct (lookup_lt_is_Some_2 rows (Z.to_nat mid)) as [r Hr]; [lia|].
    assert (Hsplit : rows = take (Z.to_nat mid) rows ++ r :: drop (S (Z.to_nat mid)) rows)
      by (by rewrite take_drop_middle).
    destruct (row_small _ _ _ _ Hok Hvs Hsplit) as (Hk & Hv & Hro & Hmax).
    pose proof (index_split _ _ _ _ Hsplit) as Hi.
    set (a := take (Z.to_nat mid) rows) in *.
    assert (Hla : length a = Z.to_nat mid) by (unfold a; rewrite length_take; lia).
    assert (Hoff : entry_offsets 8 rows !! Z.to_nat mid = Some (8 + blen (entries_bytes a))).
    { rewrite <- Hla. apply entry_offsets_lookup with r (drop (S (Z.to_nat mid)) rows); [done|lia|].
      pose proof (blen_nonneg (entry_bytes r)). lia. }
    cbn [ki_offsets ki_data]. rewrite Hoff. cbn [mbind option_bind].
    assert (Hpre : 8 + blen (entries_bytes a) = blen (header_bytes rows ++ entries_bytes a))
      by (by rewrite blen_app, blen_index_header).
    rewrite Hi, Hpre. rewrite read_key_len by done. cbn [mbind option_bind].
    rewrite read_key by done. cbn [mbind option_bind]. rewrite <- Hi.
    destruct (bcmp (row_key r) key) eqn:Hcmp.
    + rewrite Hi, version_at_entry by done. eexists. split; [done|].
      exists r. split; [by eapply list_elem_of_lookup_2|]. split; [by apply bcmp_eq|done].
    + apply IH; [lia|lia|lia| |done]. intros i x Hx Hix.
      eapply cle_lt_trans; [|exact Hcmp]. eapply (rows_sorted_lookup rows i (Z.to_nat mid)); try done. lia.
    + apply IH; [lia|lia|lia|done|]. intros i x Hx Hix.
      eapply clt_le_trans; [exact (proj1 (cmp_gt_lt (row_key r) key) Hcmp)|]. eapply (rows_sorted_lookup rows (Z.to_nat mid) i); try done. lia.
  - eexists. split; [done|]. intros r Hin. apply list_elem_of_lookup in Hin as [i Hi].
    destruct (Z.lt_ge_cases (Z.of_nat i) lo).
    + by apply clt_ne, (Hbelow i).
    + intros He. symmetry in He. revert He. apply clt_ne, (Habove i); [done|lia].
Qed.

Lemma get_ok rows key :
  rows_ok rows -> values_small rows -> rows_sorted rows ->
  exists res, ki_get (ki_from_rows rows) key = Some res /\
    match res with
    | Some v => exists r, r ∈ rows /\ row_key r = key /\ v = strip_tx (row_version r)
    | None => forall r, r ∈ rows -> row_key r <> key
    end.
Proof.
  intros Hok Hvs Hsort. pose proof (rows_count rows Hok) as Hn. unfold ki_get.
  assert (Hcount : ki_count (ki_from_rows rows) = Z.of_nat (length rows))
    by (rewrite from_rows_eq; cbn [ki_count]; apply wrap32_id; lia).
  rewrite Hcount. destruct (Z.eqb_spec (Z.of_nat (length rows)) 0) as [H0|H0].
  - eexists. split; [done|]. destruct rows; [|done]. intros r Hr. by apply not_elem_of_nil in Hr.
  - apply search_ok; try done; try lia. intros i r Hi Hge. apply lookup_lt_Some in Hi. lia.
Qed.

(** Point lookups.  On an index built from rows sorted by key (and small
    enough for its 32-bit offsets), the binary search terminates without
    reading out of bounds; it finds nothing exactly when no row has the key,
    and otherwise returns the version of a row with the key: with one row per
    key, the version stored for it. *)
Lemma key_index_lookup (rows : list VersionedRow) (key : bytes) :
  rows_ok rows -> values_small rows -> rows_sorted rows ->
  exists res, ki_get (ki_from_rows rows) key = Some res /\
    (res = None <-> forall r, r ∈ rows -> row_key r <> key) /\
    (forall v, res = Some v -> exists r, r ∈ rows /\ row_key r = key /\ v = strip_tx (row_version r)) /\
    (NoDup (map row_key rows) -> forall r, r ∈ rows -> row_key r = key ->
       res = Some (strip_tx (row_version r))).
Proof.
  intros Hok Hvs Hsort. destruct (get_ok rows key Hok Hvs Hsort) as (res & Hg & Hres).
  exists res. split; [done|]. destruct res as [v|].
  - destruct Hres as (r & Hin & Hk & Hv). split; [|split].
    + split; [done|]. intros Hn. by destruct (Hn r Hin).
    + intros ? [= <-]. eauto.
    + intros Hnd r' Hin' Hk'. apply list_elem_of_lookup in Hin as [i Hi], Hin' as [j Hj].
      assert (i = j) as <-; [|congruence]. eapply (NoDup_lookup _ i j key Hnd);
        change (map row_key rows) with (row_key <$> rows); rewrite list_lookup_fmap.
      * rewrite Hi. simpl. congruence.
      * rewrite Hj. simpl. congruence.
  - split; [done|]. split; [done|]. intros _ r Hin Hk. by destruct (Hres r Hin).
Qed.

(** Decoding the bytes of an index, or a part of them. *)
Lemma ki_from_bytes_prefix (rows : list VersionedRow) b :
  rows_ok rows -> values_small rows -> b `prefix_of` ki_data (ki_from_rows rows) ->
  ki_from_bytes b = Some (if blen b <? blen (ki_data (ki_from_rows rows)) then None else Some (ki_from_rows rows)).
Proof.
  intros Hok Hvs. pose proof (rows_count rows Hok) as Hn. rewrite from_rows_eq. cbn [ki_data]. intros Hb.
  unfold ki_from_bytes. pose proof (blen_nonneg (entries_bytes rows)).
  assert (Hlen : blen (index_bytes rows) = 8 + blen (entries_bytes rows))
    by (unfold index_bytes; by rewrite blen_app, blen_index_header).
  destruct (Z.ltb_spec (blen b) 8); [by rewrite (proj2 (Z.ltb_lt _ _)) by lia|].
  assert (Ht : take 4 b = KIDX_MAGIC).
  { destruct Hb as [g Hg]. transitivity (take 4 (index_bytes rows)); [|done].
    rewrite Hg, take_app_le; [done|]. unfold blen in *. lia. }
  rewrite Ht, bool_decide_true by done. cbn [negb].
  assert (Hc : read_u32 b 4 = Some (Z.of_nat (length rows))).
  { rewrite (read_u32_prefix b _ 4 Hb) by lia. unfold read_u32, index_bytes, header_bytes. rewrite <- app_assoc.
    rewrite (slice_app KIDX_MAGIC (to_le 4 _) _ 4 (4 + 4)) by (done || by rewrite blen_to_le).
    cbn [fmap option_fmap option_map]. f_equal. rewrite wrap32_id by lia.
    apply from_le_to_le4. unfold is_u32. lia. }
  rewrite Hc. cbn [mbind option_bind]. rewrite Nat2Z.id.
  pose proof (from_bytes_loop_rows rows b [] rows [] Hok Hvs Hb eq_refl) as Hl.
  change (entries_bytes []) with (@nil byte) in Hl. rewrite blen_nil in Hl. change (8 + 0) with 8 in Hl.
  rewrite Hl by lia. destruct (Z.ltb_spec (blen b) (blen (index_bytes rows))) as [|Hge]; [done|].
  cbn [mbind option_bind app]. rewrite wrap32_id by lia. destruct Hb as [g Hg].
  assert (g = []) as ->; [|by rewrite app_nil_r in Hg; rewrite Hg].
  apply nil_length_inv. apply (f_equal (length (A:=byte))) in Hg. rewrite length_app in Hg. unfold blen in Hge. lia.
Qed.

Lemma ki_from_bytes_rows (rows : list VersionedRow) :
  rows_ok rows -> values_small rows ->
  ki_from_bytes (ki_data (ki_from_rows rows)) = Some (Some (ki_from_rows rows)).
Proof. intros Hok Hvs. rewrite (ki_from_bytes_prefix rows) by done. by rewrite Z.ltb_irrefl. Qed.

(** The sidecar round trip: decoding the bytes of an index built from rows
    gives the same index, without reading out of bounds. *)
Lemma key_index_roundtrip (rows : list VersionedRow) :
  rows_ok rows -> values_small rows ->
  ki_from_bytes (ki_data (ki_from_rows rows)) = Some (Some (ki_from_rows rows)).
Proof. apply ki_from_bytes_rows. Qed.

(** ** Witnesses and finding *)

Definition sample_rows : list VersionedRow :=
  [mkRow [x61] (live [x31] 5 1); mkRow [x62] (tombstone 7 2)].

Lemma sample_rows_ok : rows_ok sample_rows /\ values_small sample_rows /\ rows_sorted sample_rows.
Proof. repeat split; repeat constructor; vm_compute; congruence. Qed.

(** A key written twice before a flush leaves two versions in the SST, newest
    first.  The search lands on the older one, which the latest snapshot does
    not see, although the newer one is visible to it. *)
Definition twice_written : list VersionedRow :=
  [mkRow [x61] (live [x32] 9 2); mkRow [x61] (set_end (live [x31] 5 1) 9)].

Lemma index_returns_superseded_version :
  exists v, ki_get (ki_from_rows twice_written) [x61] = Some (Some v) /\
    sees (mkSnapshot 9) v = false /\
    exists r, In r twice_written /\ row_key r = [x61] /\ sees (mkSnapshot 9) (row_version r) = true.
Proof.
  exists (strip_tx (set_end (live [x31] 5 1) 9)). split; [vm_compute; reflexivity|].
  split; [reflexivity|]. exists (mkRow [x61] (live [x32] 9 2)). split; [by left|done].
Qed.
