(* ===== verification/Arrow.v ===== *)
(** * Arrow columns and scalars

    The Arrow types the code distinguishes, arrays as typed lists of slots, and
    the two bridges between arrays and scalars: [array_slot_to_scalar]
    ([hatp-types/src/codec.rs]) and [scalar_to_array]
    ([hatp-engine/src/row_codec.rs]).  Building a [RecordBatch] from columns is
    Arrow's: it is the parameter [ArrowLib], with the checks Arrow documents as its
    law. *)

From Stdlib Require Import Strings.String.
From stdpp Require Import base tactics list option strings.
From S2P Require Import Prelude Types Codec.
#[local] Open Scope Z_scope.

Inductive TimeUnit := Second | Millisecond | Microsecond | Nanosecond.
Inductive IntervalUnit := YearMonth | DayTime | MonthDayNano.

(** [arrow_schema::DataType]; [DtOther] is every type the code has no case for. *)
Inductive DataType :=
| DtInt8 | DtInt16 | DtInt32 | DtInt64
| DtUInt8 | DtUInt16 | DtUInt32 | DtUInt64
| DtFloat32 | DtFloat64
| DtBoolean
| DtUtf8 | DtLargeUtf8 | DtBinary | DtLargeBinary
| DtDate32 | DtDate64
| DtTimestamp (unit_ : TimeUnit) (tz : option bytes)
| DtTime32 (unit_ : TimeUnit) | DtTime64 (unit_ : TimeUnit)
| DtInterval (unit_ : IntervalUnit)
| DtDuration (unit_ : TimeUnit)
| DtOther (name : string).

#[global] Instance time_unit_dec : EqDecision TimeUnit.
Proof. solve_decision. Defined.
#[global] Instance interval_unit_dec : EqDecision IntervalUnit.
Proof. solve_decision. Defined.
#[global] Instance data_type_dec : EqDecision DataType.
Proof. solve_decision. Defined.

Record Field := mkField { fd_name : bytes; fd_type : DataType; fd_nullable : bool }.
Abbreviation Schema := (list Field).

(** [Schema::column_with_name] *)
Fixpoint column_with_name (schema : Schema) (name : bytes) : option nat :=
  match schema with
  | [] => None
  | f :: rest => if eqc (fd_name f) name then Some 0%nat else S <$> column_with_name rest name
  end.

(** The value of a slot that is not null. *)
Inductive ArrowValue :=
| AvInt (v : Z)
| AvFloat (bits : Z)
| AvBool (v : bool)
| AvBytes (v : bytes)
| AvDayTime (v : Z * Z)
| AvMonthDayNano (v : Z * Z * Z)
| AvOther.

(** A typed array: its slots, [None] for null. *)
Record ArrowArray := mkArray { ar_type : DataType; ar_slots : list (option ArrowValue) }.

(** [ScalarValue::is_null] *)
Definition is_null (scalar : ScalarValue) : bool :=
  match scalar with
  | SvNull => true
  | SvInt8 v | SvInt16 v | SvInt32 v | SvInt64 v | SvUInt8 v | SvUInt16 v | SvUInt32 v | SvUInt64 v
  | SvFloat32 v | SvFloat64 v | SvDate32 v | SvDate64 v
  | SvTimestampSecond v _ | SvTimestampMillisecond v _ | SvTimestampMicrosecond v _
  | SvTimestampNanosecond v _ | SvTime32Second v | SvTime32Millisecond v | SvTime64Microsecond v
  | SvTime64Nanosecond v | SvIntervalYearMonth v | SvDurationSecond v | SvDurationMillisecond v
  | SvDurationMicrosecond v | SvDurationNanosecond v => match v with Some _ => false | None => true end
  | SvBoolean v => match v with Some _ => false | None => true end
  | SvUtf8 v | SvLargeUtf8 v | SvBinary v | SvLargeBinary v => match v with Some _ => false | None => true end
  | SvIntervalDayTime v => match v with Some _ => false | None => true end
  | SvIntervalMonthDayNano v => match v with Some _ => false | None => true end
  | SvOther null _ => null
  end.

(** [array_slot_to_scalar]: [None] when [row] is out of range (Arrow panics).  A
    slot whose physical value is not of the declared type reads as null. *)
Definition array_slot_to_scalar (array : ArrowArray) (row : nat) : option ScalarValue :=
  slot ← ar_slots array !! row;
  Some match slot with
  | None => SvNull
  | Some value =>
      match ar_type array, value with
      | DtInt64, AvInt v => SvInt64 (Some v)
      | DtInt32, AvInt v => SvInt32 (Some v)
      | DtInt16, AvInt v => SvInt16 (Some v)
      | DtInt8, AvInt v => SvInt8 (Some v)
      | DtUInt64, AvInt v => SvUInt64 (Some v)
      | DtUInt32, AvInt v => SvUInt32 (Some v)
      | DtUInt16, AvInt v => SvUInt16 (Some v)
      | DtUInt8, AvInt v => SvUInt8 (Some v)
      | DtFloat64, AvFloat v => SvFloat64 (Some v)
      | DtFloat32, AvFloat v => SvFloat32 (Some v)
      | DtUtf8, AvBytes v => SvUtf8 (Some v)
      | DtLargeUtf8, AvBytes v => SvLargeUtf8 (Some v)
      | DtBinary, AvBytes v => SvBinary (Some v)
      | DtLargeBinary, AvBytes v => SvLargeBinary (Some v)
      | DtBoolean, AvBool v => SvBoolean (Some v)
      | DtDate32, AvInt v => SvDate32 (Some v)
      | DtDate64, AvInt v => SvDate64 (Some v)
      | DtTimestamp Second _, AvInt v => SvTimestampSecond (Some v) None
      | DtTimestamp Millisecond _, AvInt v => SvTimestampMillisecond (Some v) None
      | DtTimestamp Microsecond _, AvInt v => SvTimestampMicrosecond (Some v) None
      | DtTimestamp Nanosecond _, AvInt v => SvTimestampNanosecond (Some v) None
      | _, _ => SvNull
      end
  end.

(** [scalar_to_array]: [len] copies of a scalar. *)
Definition scalar_to_array (sv : ScalarValue) (len : nat) (target_type : DataType) : Result ArrowArray :=
  let int t (v : option Z) := Ok (mkArray t (replicate len (AvInt <$> v))) in
  let str t (v : option bytes) := Ok (mkArray t (replicate len (AvBytes <$> v))) in
  match sv with
  | SvNull => Ok (mkArray target_type (replicate len None))
  | SvInt8 v => int DtInt8 v
  | SvInt16 v => int DtInt16 v
  | SvInt32 v => int DtInt32 v
  | SvInt64 v => int DtInt64 v
  | SvUInt8 v => int DtUInt8 v
  | SvUInt16 v => int DtUInt16 v
  | SvUInt32 v => int DtUInt32 v
  | SvUInt64 v => int DtUInt64 v
  | SvFloat32 v => Ok (mkArray DtFloat32 (replicate len (AvFloat <$> v)))
  | SvFloat64 v => Ok (mkArray DtFloat64 (replicate len (AvFloat <$> v)))
  | SvUtf8 v => str DtUtf8 v
  | SvLargeUtf8 v => str DtLargeUtf8 v
  | SvBinary v => str DtBinary v
  | SvLargeBinary v => str DtLargeBinary v
  | SvBoolean v => Ok (mkArray DtBoolean (replicate len (AvBool <$> v)))
  | SvDate32 v => int DtDate32 v
  | SvDate64 v => int DtDate64 v
  | SvTimestampSecond v _ => int (DtTimestamp Second None) v
  | SvTimestampMillisecond v _ => int (DtTimestamp Millisecond None) v
  | SvTimestampMicrosecond v _ => int (DtTimestamp Microsecond None) v
  | SvTimestampNanosecond v _ => int (DtTimestamp Nanosecond None) v
  | SvTime32Second v => int (DtTime32 Second) v
  | SvTime32Millisecond v => int (DtTime32 Millisecond) v
  | SvTime64Microsecond v => int (DtTime64 Microsecond) v
  | SvTime64Nanosecond v => int (DtTime64 Nanosecond) v
  | SvIntervalYearMonth v => int (DtInterval YearMonth) v
  | SvIntervalDayTime v => Ok (mkArray (DtInterval DayTime) (replicate len (AvDayTime <$> v)))
  | SvIntervalMonthDayNano v => Ok (mkArray (DtInterval MonthDayNano) (replicate len (AvMonthDayNano <$> v)))
  | SvDurationSecond v => int (DtDuration Second) v
  | SvDurationMillisecond v => int (DtDuration Millisecond) v
  | SvDurationMicrosecond v => int (DtDuration Microsecond) v
  | SvDurationNanosecond v => int (DtDuration Nanosecond) v
  | SvOther _ _ => Err (CorruptMessage "scalar_to_array: unsupported ScalarValue variant")
  end.

(** *** Record batches *)

Record RecordBatch := mkBatch { rb_schema : Schema; rb_columns : list ArrowArray; rb_num_rows : nat }.

(** What [RecordBatch::try_new] checks: a column per field, of its type, all of
    one length, without nulls where the field has none. *)
Definition column_fits (n : nat) (f : Field) (a : ArrowArray) : bool :=
  bool_decide (ar_type a = fd_type f) && (length (ar_slots a) =? n)%nat &&
  (fd_nullable f || forallb (fun s => match s with Some _ => true | None => false end) (ar_slots a)).

Fixpoint columns_fit (n : nat) (schema : Schema) (columns : list ArrowArray) : bool :=
  match schema, columns with
  | [], [] => true
  | f :: schema, a :: columns => column_fits n f a && columns_fit n schema columns
  | _, _ => false
  end.

Definition rows_of_columns (columns : list ArrowArray) : nat :=
  match columns with a :: _ => length (ar_slots a) | [] => 0%nat end.

Class ArrowLib := {
  try_new : Schema -> list ArrowArray -> result string RecordBatch;
}.

Class ArrowLaws `{ArrowLib} : Prop := {
  try_new_fits : forall schema columns,
    columns <> [] -> columns_fit (rows_of_columns columns) schema columns = true ->
    try_new schema columns = Ok (mkBatch schema columns (rows_of_columns columns));
}.

(** The batch that holds exactly the given columns, as Arrow builds it. *)
Definition checking_arrow : ArrowLib := {|
  try_new schema columns :=
    match columns with
    | [] => Err "must either specify a row count or at least one column"%string
    | _ => if columns_fit (rows_of_columns columns) schema columns
           then Ok (mkBatch schema columns (rows_of_columns columns))
           else Err "column types must match schema types"%string
    end;
|}.

Lemma checking_arrow_laws : @ArrowLaws checking_arrow.
Proof. split. intros schema [|a columns] Hne Hf; [done|]. unfold try_new, checking_arrow. by rewrite Hf. Qed.
