(* ===== verification/RowCodec.v ===== *)
(** * Row payloads ([hatp-engine/src/row_codec.rs])

    A row is stored as, per column, a marker byte (0 for null) and the bytes of the
    value; the types come from the table's schema.  Fixed-width values are read
    through an unchecked pointer copy: a read past the end of the buffer is
    undefined behaviour, the result [None] here. *)

From Stdlib Require Import Strings.String.
From stdpp Require Import base tactics list option.
From S2P Require Import Prelude Types Codec Arrow.
#[local] Open Scope Z_scope.

(** Undefined behaviour and panics, then Rust's [Result]. *)
Definition ubind {A B} (r : option (Result A)) (k : A -> option (Result B)) : option (Result B) :=
  match r with
  | Some (Ok a) => k a
  | Some (Err e) => Some (Err e)
  | None => None
  end.

Notation "'let!' p ':=' c1 'in' c2" := (ubind c1 (fun p => c2))
  (at level 10, p pattern, c1 at level 200, c2 at level 200,
   format "'[v' 'let!'  p  ':='  c1  'in' '/' c2 ']'") : hatp_scope.

Definition umap {A B} (f : A -> B) (r : option (Result A)) : option (Result B) := let! a := r in Some (Ok (f a)).

(** ** Values *)

(** [String::from_utf8] accepts exactly the well-formed UTF-8 sequences. *)
Definition between (lo hi : Z) (b : byte) : bool := (lo <=? b2z b) && (b2z b <=? hi).
Definition cont_byte : byte -> bool := between 0x80 0xBF.

(** The second byte after a lead byte of three and of four. *)
Definition second_of_three (b0 b1 : byte) : bool :=
  if b2z b0 =? 0xE0 then between 0xA0 0xBF b1
  else if b2z b0 =? 0xED then between 0x80 0x9F b1 else cont_byte b1.
Definition second_of_four (b0 b1 : byte) : bool :=
  if b2z b0 =? 0xF0 then between 0x90 0xBF b1
  else if b2z b0 =? 0xF4 then between 0x80 0x8F b1 else cont_byte b1.

Fixpoint utf8_valid (s : bytes) : bool :=
  match s with
  | [] => true
  | b0 :: r0 =>
      if between 0 0x7F b0 then utf8_valid r0
      else match r0 with
      | [] => false
      | b1 :: r1 =>
          if between 0xC2 0xDF b0 then cont_byte b1 && utf8_valid r1
          else match r1 with
          | [] => false
          | b2 :: r2 =>
              if between 0xE0 0xEF b0 then second_of_three b0 b1 && cont_byte b2 && utf8_valid r2
              else match r2 with
              | [] => false
              | b3 :: r3 =>
                  between 0xF0 0xF4 b0 && second_of_four b0 b1 && cont_byte b2 && cont_byte b3 && utf8_valid r3
              end
          end
      end
  end.

(** [String::from_utf8_lossy]: each maximal ill-formed piece becomes U+FFFD. *)
Definition replacement : bytes := [xef; xbf; xbd].

Fixpoint utf8_lossy (s : bytes) : bytes :=
  match s with
  | [] => []
  | b0 :: r0 =>
      if between 0 0x7F b0 then b0 :: utf8_lossy r0
      else match r0 with
      | [] => replacement
      | b1 :: r1 =>
          if between 0xC2 0xDF b0 then
            if cont_byte b1 then b0 :: b1 :: utf8_lossy r1 else replacement ++ utf8_lossy r0
          else if between 0xE0 0xEF b0 then
            if second_of_three b0 b1 then
              match r1 with
              | [] => replacement
              | b2 :: r2 => if cont_byte b2 then b0 :: b1 :: b2 :: utf8_lossy r2 else replacement ++ utf8_lossy r1
              end
            else replacement ++ utf8_lossy r0
          else if between 0xF0 0xF4 b0 then
            if second_of_four b0 b1 then
              match r1 with
              | [] => replacement
              | b2 :: r2 =>
                  if cont_byte b2 then
                    match r2 with
                    | [] => replacement
                    | b3 :: r3 => if cont_byte b3 then b0 :: b1 :: b2 :: b3 :: utf8_lossy r3
                                  else replacement ++ utf8_lossy r2
                    end
                  else replacement ++ utf8_lossy r1
              end
            else replacement ++ utf8_lossy r0
          else replacement ++ utf8_lossy r0
      end
  end.

Definition put_len_prefixed (out bs : bytes) : Result bytes :=
  if blen bs <=? u32_max then Ok (out ++ to_le 4 (blen bs) ++ bs)
  else Err (OutOfRange "row value > u32::MAX").

Definition take_len_prefixed (bs : bytes) (pos : Z) : Result (bytes * Z) :=
  let? len_bytes := ok_or (slice bs pos (pos + 4)) (Corrupt "row codec: truncated length") in
  let len := from_le len_bytes in
  let? payload := ok_or (slice bs (pos + 4) (pos + 4 + len)) (Corrupt "row codec: truncated payload") in
  Ok (payload, pos + 4 + len).

(** [scalar_to_value_bytes] *)
Definition scalar_to_value_bytes (out : bytes) (scalar : ScalarValue) : Result bytes :=
  match scalar with
  | SvInt8 (Some v) | SvUInt8 (Some v) => Ok (out ++ to_le 1 v)
  | SvInt16 (Some v) | SvUInt16 (Some v) => Ok (out ++ to_le 2 v)
  | SvInt32 (Some v) | SvUInt32 (Some v) => Ok (out ++ to_le 4 v)
  | SvInt64 (Some v) | SvUInt64 (Some v) => Ok (out ++ to_le 8 v)
  | SvFloat32 (Some v) => Ok (out ++ to_le 4 v)
  | SvFloat64 (Some v) => Ok (out ++ to_le 8 v)
  | SvBoolean (Some v) => Ok (out ++ [if v then x01 else x00])
  | SvUtf8 (Some s) | SvLargeUtf8 (Some s) => put_len_prefixed out s
  | SvBinary (Some b) | SvLargeBinary (Some b) => put_len_prefixed out b
  | SvDate32 (Some v) => Ok (out ++ to_le 4 v)
  | SvDate64 (Some v) => Ok (out ++ to_le 8 v)
  | SvTimestampSecond (Some v) _ | SvTimestampMillisecond (Some v) _
  | SvTimestampMicrosecond (Some v) _ | SvTimestampNanosecond (Some v) _ => Ok (out ++ to_le 8 v)
  | SvTime32Second (Some v) | SvTime32Millisecond (Some v) => Ok (out ++ to_le 4 v)
  | SvTime64Microsecond (Some v) | SvTime64Nanosecond (Some v) => Ok (out ++ to_le 8 v)
  | SvIntervalYearMonth (Some v) => Ok (out ++ to_le 4 v)
  | SvIntervalDayTime (Some (days, milliseconds)) => Ok (out ++ to_le 4 days ++ to_le 4 milliseconds)
  | SvIntervalMonthDayNano (Some (months, days, nanoseconds)) =>
      Ok (out ++ to_le 4 months ++ to_le 4 days ++ to_le 8 nanoseconds)
  | SvDurationSecond (Some v) | SvDurationMillisecond (Some v)
  | SvDurationMicrosecond (Some v) | SvDurationNanosecond (Some v) => Ok (out ++ to_le 8 v)
  | _ => Err (CorruptMessage "row codec: unsupported value type")
  end.

(** [read_fixed]: [None] when the copy leaves the buffer. *)
Definition read_fixed (n : Z) (bs : bytes) (pos : Z) : option bytes := slice bs pos (pos + n).

(** [iN::from_le_bytes] *)
Definition to_signed (w : nat) (z : Z) : Z :=
  if z <? 2 ^ (Z.of_nat w * 8 - 1) then z else z - 2 ^ (Z.of_nat w * 8).

Definition read_int (w : nat) (bs : bytes) (pos : Z) : option Z :=
  to_signed w ∘ from_le <$> read_fixed (Z.of_nat w) bs pos.
Definition read_uint (w : nat) (bs : bytes) (pos : Z) : option Z :=
  from_le <$> read_fixed (Z.of_nat w) bs pos.

Definition read_utf8 (bs : bytes) (pos : Z) : Result (bytes * Z) :=
  let? (s, next) := take_len_prefixed bs pos in
  if utf8_valid s then Ok (s, next) else Err (Corrupt "row codec: non-UTF8 string").

(** [value_bytes_to_scalar] *)
Definition value_bytes_to_scalar (bs : bytes) (pos : Z) (data_type : DataType)
  : option (Result (ScalarValue * Z)) :=
  let int w (mk : option Z -> ScalarValue) :=
    v ← read_int w bs pos; Some (Ok (mk (Some v), pos + Z.of_nat w)) in
  let uint w (mk : option Z -> ScalarValue) :=
    v ← read_uint w bs pos; Some (Ok (mk (Some v), pos + Z.of_nat w)) in
  match data_type with
  | DtInt8 => int 1%nat SvInt8
  | DtInt16 => int 2%nat SvInt16
  | DtInt32 => int 4%nat SvInt32
  | DtInt64 => int 8%nat SvInt64
  | DtUInt8 => uint 1%nat SvUInt8
  | DtUInt16 => uint 2%nat SvUInt16
  | DtUInt32 => uint 4%nat SvUInt32
  | DtUInt64 => uint 8%nat SvUInt64
  | DtFloat32 => uint 4%nat SvFloat32
  | DtFloat64 => uint 8%nat SvFloat64
  | DtBoolean => v ← read_uint 1 bs pos; Some (Ok (SvBoolean (Some (negb (v =? 0))), pos + 1))
  | DtUtf8 => Some (let? (s, next) := read_utf8 bs pos in Ok (SvUtf8 (Some s), next))
  | DtLargeUtf8 => Some (let? (s, next) := read_utf8 bs pos in Ok (SvLargeUtf8 (Some s), next))
  | DtBinary => Some (let? (b, next) := take_len_prefixed bs pos in Ok (SvBinary (Some b), next))
  | DtLargeBinary => Some (let? (b, next) := take_len_prefixed bs pos in Ok (SvLargeBinary (Some b), next))
  | DtDate32 => int 4%nat SvDate32
  | DtDate64 => int 8%nat SvDate64
  | DtTimestamp Second tz => int 8%nat (fun v => SvTimestampSecond v tz)
  | DtTimestamp Millisecond tz => int 8%nat (fun v => SvTimestampMillisecond v tz)
  | DtTimestamp Microsecond tz => int 8%nat (fun v => SvTimestampMicrosecond v tz)
  | DtTimestamp Nanosecond tz => int 8%nat (fun v => SvTimestampNanosecond v tz)
  | DtTime32 Second => int 4%nat SvTime32Second
  | DtTime32 Millisecond => int 4%nat SvTime32Millisecond
  | DtTime64 Microsecond => int 8%nat SvTime64Microsecond
  | DtTime64 Nanosecond => int 8%nat SvTime64Nanosecond
  | DtInterval YearMonth => int 4%nat SvIntervalYearMonth
  | DtInterval DayTime =>
      days ← read_int 4 bs pos; milliseconds ← read_int 4 bs (pos + 4);
      Some (Ok (SvIntervalDayTime (Some (days, milliseconds)), pos + 8))
  | DtInterval MonthDayNano =>
      months ← read_int 4 bs pos; days ← read_int 4 bs (pos + 4); nanoseconds ← read_int 8 bs (pos + 8);
      Some (Ok (SvIntervalMonthDayNano (Some (months, days, nanoseconds)), pos + 16))
  | DtDuration Second => int 8%nat SvDurationSecond
  | DtDuration Millisecond => int 8%nat SvDurationMillisecond
  | DtDuration Microsecond => int 8%nat SvDurationMicrosecond
  | DtDuration Nanosecond => int 8%nat SvDurationNanosecond
  | _ => Some (Err (CorruptMessage "row codec: unsupported column type"))
  end.

(** [typed_null] *)
Definition typed_null (data_type : DataType) : ScalarValue :=
  match data_type with
  | DtInt8 => SvInt8 None | DtInt16 => SvInt16 None | DtInt32 => SvInt32 None | DtInt64 => SvInt64 None
  | DtUInt8 => SvUInt8 None | DtUInt16 => SvUInt16 None | DtUInt32 => SvUInt32 None | DtUInt64 => SvUInt64 None
  | DtFloat32 => SvFloat32 None | DtFloat64 => SvFloat64 None
  | DtBoolean => SvBoolean None
  | DtUtf8 => SvUtf8 None | DtLargeUtf8 => SvLargeUtf8 None
  | DtBinary => SvBinary None | DtLargeBinary => SvLargeBinary None
  | DtDate32 => SvDate32 None | DtDate64 => SvDate64 None
  | DtTimestamp Second tz => SvTimestampSecond None tz
  | DtTimestamp Millisecond tz => SvTimestampMillisecond None tz
  | DtTimestamp Microsecond tz => SvTimestampMicrosecond None tz
  | DtTimestamp Nanosecond tz => SvTimestampNanosecond None tz
  | DtTime32 Second => SvTime32Second None | DtTime32 Millisecond => SvTime32Millisecond None
  | DtTime64 Microsecond => SvTime64Microsecond None | DtTime64 Nanosecond => SvTime64Nanosecond None
  | DtInterval YearMonth => SvIntervalYearMonth None
  | DtInterval DayTime => SvIntervalDayTime None
  | DtInterval MonthDayNano => SvIntervalMonthDayNano None
  | DtDuration Second => SvDurationSecond None | DtDuration Millisecond => SvDurationMillisecond None
  | DtDuration Microsecond => SvDurationMicrosecond None | DtDuration Nanosecond => SvDurationNanosecond None
  | _ => SvNull
  end.

(** ** Rows *)

(** [encode_row_narrow]; [None] is the panic of a column or row out of range. *)
Fixpoint encode_cols (batch : RecordBatch) (row : nat) (cols : list nat) (out : bytes) : option (Result bytes) :=
  match cols with
  | [] => Some (Ok out)
  | col :: rest =>
      array ← rb_columns batch !! col;
      scalar ← array_slot_to_scalar array row;
      if is_null scalar then encode_cols batch row rest (out ++ [x00])
      else let! out := Some (scalar_to_value_bytes (out ++ [x01]) scalar) in
           encode_cols batch row rest out
  end.

Definition encode_row_narrow (batch : RecordBatch) (row : nat) (cols : list nat) : option (Result bytes) :=
  encode_cols batch row cols [].

Definition encode_row (batch : RecordBatch) (row : nat) : option (Result bytes) :=
  encode_row_narrow batch row (seq 0 (length (rb_columns batch))).

(** One column at [pos]: its scalar and the position after it. *)
Definition decode_column (bs : bytes) (pos : Z) (data_type : DataType) : option (Result (ScalarValue * Z)) :=
  match bs !! Z.to_nat pos with
  | None => Some (Err (Corrupt "row codec: truncated null marker"))
  | Some marker =>
      let pos := pos + 1 in
      if b2z marker =? 0 then Some (Ok (typed_null data_type, pos))
      else value_bytes_to_scalar bs pos data_type
  end.

(** [decode_row_full] *)
Fixpoint decode_full_loop (bs : bytes) (pos : Z) (fields : Schema) (values : list ScalarValue)
  : option (Result (list ScalarValue)) :=
  match fields with
  | [] => Some (Ok values)
  | f :: rest =>
      let! (scalar, pos) := decode_column bs pos (fd_type f) in
      decode_full_loop bs pos rest (values ++ [scalar])
  end.

Definition decode_row_full (bs : bytes) (schema : Schema) : option (Result (list ScalarValue)) :=
  decode_full_loop bs 0 schema [].

(** [decode_row_into]: the buffer after the call, and the result. *)
Fixpoint decode_into_loop (bs : bytes) (pos : Z) (fields : Schema) (out : list ScalarValue)
  : option (list ScalarValue * Result unit) :=
  match fields with
  | [] => Some (out, Ok tt)
  | f :: rest =>
      match decode_column bs pos (fd_type f) with
      | None => None
      | Some (Err err) => Some (out, Err err)
      | Some (Ok (scalar, pos)) => decode_into_loop bs pos rest (out ++ [scalar])
      end
  end.

Definition decode_row_into (bs : bytes) (schema : Schema) (out : list ScalarValue)
  : option (list ScalarValue * Result unit) := decode_into_loop bs 0 schema [].

(** The lookup tables of [decode_row_narrow]. *)
Fixpoint mark_wanted (ncols : nat) (out_idx : Z) (cols : list nat) (wanted : list bool) (col_order : list Z)
  : list bool * list Z :=
  match cols with
  | [] => (wanted, col_order)
  | col :: rest =>
      if (col <? ncols)%nat
      then mark_wanted ncols (out_idx + 1) rest (<[col := true]> wanted) (<[col := out_idx]> col_order)
      else mark_wanted ncols (out_idx + 1) rest wanted col_order
  end.

(** The walk over all columns; [None] is also an index out of range. *)
Fixpoint narrow_loop (bs : bytes) (pos : Z) (col : nat) (fields : Schema) (wanted : list bool)
    (col_order : list Z) (values : list (option ScalarValue))
  : option (Result (list (option ScalarValue))) :=
  match fields with
  | [] => Some (Ok values)
  | f :: rest =>
      match bs !! Z.to_nat pos with
      | None => Some (Err (Corrupt "row codec: truncated null marker"))
      | Some marker =>
          let pos := pos + 1 in
          w ← wanted !! col;
          if (w : bool) then
            let! (scalar, pos) :=
              (if b2z marker =? 0 then Some (Ok (typed_null (fd_type f), pos))
               else value_bytes_to_scalar bs pos (fd_type f)) in
            target ← col_order !! col;
            if target <? Z.of_nat (length values)
            then narrow_loop bs pos (S col) rest wanted col_order (<[Z.to_nat target := Some scalar]> values)
            else None
          else if negb (b2z marker =? 0) then
            let! (_, pos) := value_bytes_to_scalar bs pos (fd_type f) in
            narrow_loop bs pos (S col) rest wanted col_order values
          else narrow_loop bs pos (S col) rest wanted col_order values
      end
  end.

Definition decode_row_narrow (bs : bytes) (schema : Schema) (cols : list nat)
  : option (Result (list ScalarValue)) :=
  let ncols := length schema in
  if bool_decide (cols = seq 0 ncols) then decode_row_full bs schema
  else
    let '(wanted, col_order) :=
      mark_wanted ncols 0 cols (replicate ncols false) (replicate ncols u64_max) in
    umap (fmap (default SvNull))
      (narrow_loop bs 0 0 schema wanted col_order (replicate (length cols) None)).

Definition decode_row_values (bs : bytes) (schema : Schema) : option (Result (list ScalarValue)) :=
  decode_row_narrow bs schema (seq 0 (length schema)).

(** [decode_row]: a batch of one row. *)
Fixpoint scalars_to_arrays (values : list ScalarValue) (fields : Schema) : Result (list ArrowArray) :=
  match values, fields with
  | scalar :: values, f :: fields =>
      let? a := scalar_to_array scalar 1 (fd_type f) in
      let? rest := scalars_to_arrays values fields in
      Ok (a :: rest)
  | _, _ => Ok []
  end.

Definition decode_row `{ArrowLib} (bs : bytes) (schema : Schema) : option (Result RecordBatch) :=
  let! values := decode_row_values bs schema in
  let! columns := Some (scalars_to_arrays values schema) in
  Some (match try_new schema columns with
        | Ok batch => Ok batch
        | Err err => Err (CorruptMessage (String.append "row codec: build batch: " err))
        end).
