(* ===== verification/RowCodecProps.v ===== *)
(** * Row payloads: round trips

    Encoding a row of a batch and decoding it with the table's schema gives the
    row back; decoding a projection is projecting the decoded row. *)

From Stdlib Require Import Strings.String.
From stdpp Require Import base tactics list option.
From S2P Require Import Prelude Types Codec Arrow RowCodec.
#[local] Open Scope Z_scope.

(** ** Values in the range of their column *)

(** Values the encoder accepts and the decoder gives back: Arrow's invariants on
    widths and UTF-8, and strings that fit the length prefix. *)
Definition value_ok (t : DataType) (v : ArrowValue) : Prop :=
  match t, v with
  | DtInt8, AvInt z => is_int 1 z
  | DtInt16, AvInt z => is_int 2 z
  | (DtInt32 | DtDate32), AvInt z => is_int 4 z
  | (DtInt64 | DtDate64 | DtTimestamp _ _), AvInt z => is_int 8 z
  | DtUInt8, AvInt z => is_uint 1 z
  | DtUInt16, AvInt z => is_uint 2 z
  | DtUInt32, AvInt z => is_uint 4 z
  | DtUInt64, AvInt z => is_uint 8 z
  | DtFloat32, AvFloat b => is_uint 4 b
  | DtFloat64, AvFloat b => is_uint 8 b
  | DtBoolean, AvBool _ => True
  | (DtUtf8 | DtLargeUtf8), AvBytes s => utf8_valid s = true /\ blen s <= u32_max
  | (DtBinary | DtLargeBinary), AvBytes s => blen s <= u32_max
  | _, _ => False
  end.

Definition slot_ok (t : DataType) (slot : option ArrowValue) : Prop :=
  match slot with Some v => value_ok t v | None => True end.

(** The scalar a slot decodes to: typed nulls, and the time zone of the schema. *)
Definition retag (t : DataType) (s : ScalarValue) : ScalarValue :=
  match t, s with
  | _, SvNull => typed_null t
  | DtTimestamp _ tz, SvTimestampSecond v _ => SvTimestampSecond v tz
  | DtTimestamp _ tz, SvTimestampMillisecond v _ => SvTimestampMillisecond v tz
  | DtTimestamp _ tz, SvTimestampMicrosecond v _ => SvTimestampMicrosecond v tz
  | DtTimestamp _ tz, SvTimestampNanosecond v _ => SvTimestampNanosecond v tz
  | _, _ => s
  end.

Definition stored_scalar (row : nat) (f : Field) (a : ArrowArray) : ScalarValue :=
  retag (fd_type f) (default SvNull (array_slot_to_scalar a row)).

(** ** One value *)

Lemma to_signed_le w z : (1 <= w)%nat -> is_int w z -> to_signed w (from_le (to_le w z)) = z.
Proof.
  intros Hw Hz. unfold is_int in Hz. rewrite from_le_to_le, pow256_pow2. unfold to_signed.
  assert (Hp : 2 ^ (Z.of_nat w * 8) = 2 * 2 ^ (Z.of_nat w * 8 - 1))
    by (rewrite <- Z.pow_succ_r by lia; f_equal; lia).
  rewrite Hp in *. set (h := 2 ^ (Z.of_nat w * 8 - 1)) in *.
  destruct (Z.ltb_spec z 0).
  - replace (z mod (2 * h)) with (z + 2 * h) by (apply (Z.mod_unique _ _ (-1)); lia).
    destruct (Z.ltb_spec (z + 2 * h) h); lia.
  - rewrite Z.mod_small by lia. destruct (Z.ltb_spec z h); lia.
Qed.

Section Value.
Context (pre post : bytes).

Lemma read_int_le w z k :
  (1 <= w)%nat -> is_int w z -> k = blen pre -> read_int w (pre ++ to_le w z ++ post) k = Some z.
Proof.
  intros Hw Hz ->. unfold read_int, read_fixed. rewrite slice_app by (rewrite ?blen_to_le; lia). cbn.
  by rewrite to_signed_le.
Qed.

Lemma read_uint_le w z k :
  is_uint w z -> k = blen pre -> read_uint w (pre ++ to_le w z ++ post) k = Some z.
Proof.
  intros Hz ->. unfold read_uint, read_fixed. rewrite slice_app by (rewrite ?blen_to_le; lia). cbn.
  by rewrite from_le_to_le_small by (by rewrite pow256_pow2).
Qed.

Lemma take_len_prefixed_put s :
  blen s <= u32_max ->
  take_len_prefixed (pre ++ (to_le 4 (blen s) ++ s) ++ post) (blen pre) = Ok (s, blen pre + 4 + blen s).
Proof.
  intros Hs. unfold take_len_prefixed. pose proof (blen_nonneg s).
  rewrite <- (app_assoc (to_le 4 _)), slice_app by (rewrite ?blen_to_le; lia). cbn [ok_or rbind].
  rewrite from_le_to_le4 by done.
  rewrite app_assoc, slice_app by (rewrite blen_app, ?blen_to_le; lia). done.
Qed.
End Value.

(** [s] is written as some bytes that read back as [s'] under type [t]. *)
Definition writes_back (t : DataType) (s s' : ScalarValue) : Prop :=
  exists enc, (forall out, scalar_to_value_bytes out s = Ok (out ++ enc)) /\
    forall pre post, value_bytes_to_scalar (pre ++ enc ++ post) (blen pre) t
                     = Some (Ok (s', blen pre + blen enc)).

Lemma writes_back_int t s w z (mk : option Z -> ScalarValue) :
  (1 <= w)%nat -> is_int w z ->
  (forall out, scalar_to_value_bytes out s = Ok (out ++ to_le w z)) ->
  (forall bs pos, value_bytes_to_scalar bs pos t
     = v ← read_int w bs pos; Some (Ok (mk (Some v), pos + Z.of_nat w))) ->
  writes_back t s (mk (Some z)).
Proof.
  intros Hw Hz He Hd. exists (to_le w z). split; [done|]. intros pre post.
  rewrite Hd, read_int_le by done. by rewrite blen_to_le.
Qed.

Lemma writes_back_uint t s w z (mk : Z -> ScalarValue) :
  is_uint w z ->
  (forall out, scalar_to_value_bytes out s = Ok (out ++ to_le w z)) ->
  (forall bs pos, value_bytes_to_scalar bs pos t
     = v ← read_uint w bs pos; Some (Ok (mk v, pos + Z.of_nat w))) ->
  writes_back t s (mk z).
Proof.
  intros Hz He Hd. exists (to_le w z). split; [done|]. intros pre post.
  rewrite Hd, read_uint_le by done. by rewrite blen_to_le.
Qed.

Lemma writes_back_bytes t s (v : bytes) (mk : option bytes -> ScalarValue) (rd : bytes -> Z -> Result (bytes * Z)) :
  blen v <= u32_max ->
  (forall out, scalar_to_value_bytes out s = put_len_prefixed out v) ->
  (forall bs pos next, take_len_prefixed bs pos = Ok (v, next) -> rd bs pos = Ok (v, next)) ->
  (forall bs pos, value_bytes_to_scalar bs pos t
     = Some (let? (s, next) := rd bs pos in Ok (mk (Some s), next))) ->
  writes_back t s (mk (Some v)).
Proof.
  intros Hv He Hr Hd. exists (to_le 4 (blen v) ++ v). split.
  - intros out. rewrite He. unfold put_len_prefixed. by rewrite (proj2 (Z.leb_le _ _)).
  - intros pre post. rewrite Hd, (Hr _ _ _ (take_len_prefixed_put pre post v Hv)). cbn [rbind].
    by rewrite blen_app, blen_to_le, Z.add_assoc.
Qed.

Lemma read_utf8_take bs pos v next :
  utf8_valid v = true -> take_len_prefixed bs pos = Ok (v, next) -> read_utf8 bs pos = Ok (v, next).
Proof. intros Hu Ht. unfold read_utf8. rewrite Ht. cbn [rbind]. by rewrite Hu. Qed.

(** The bytes of a value are read back as the value. *)
Lemma value_roundtrip t v s :
  value_ok t v -> array_slot_to_scalar (mkArray t [Some v]) 0 = Some s ->
  is_null s = false /\ writes_back t s (retag t s).
Proof.
  intros Hv Hs. cbn in Hs. injection Hs as <-.
  destruct t as [| | | | | | | | | | | | | | | | |u tz| | | | |]; destruct v; try done; try destruct u; cbn in Hv;
    (split; [done|]); cbn [retag].
  all: try (by eapply (writes_back_int _ _ _ _ _); [|exact Hv|done|done]; lia).
  all: try (by eapply (writes_back_uint _ _ _ _ (fun v => _ (Some v))); [exact Hv|done|done]).
  all: try (by apply (writes_back_bytes _ _ v _ take_len_prefixed)).
  all: try (by destruct Hv; apply (writes_back_bytes _ _ v _ read_utf8); [|..|done]; auto using read_utf8_take).
  - replace v with (negb ((if v then 1 else 0) =? 0)) at 2 by (by destruct v).
    apply (writes_back_uint _ _ 1%nat (if v then 1 else 0) (fun z => SvBoolean (Some (negb (z =? 0)))));
      by destruct v.
  - apply (writes_back_int _ _ 8 v (fun v => SvTimestampSecond v tz)); [lia|done..].
  - apply (writes_back_int _ _ 8 v (fun v => SvTimestampMillisecond v tz)); [lia|done..].
  - apply (writes_back_int _ _ 8 v (fun v => SvTimestampMicrosecond v tz)); [lia|done..].
  - apply (writes_back_int _ _ 8 v (fun v => SvTimestampNanosecond v tz)); [lia|done..].
Qed.

(** ** Rows *)

(** A column holds a good value in [row]. *)
Definition cell_ok (row : nat) (f : Field) (a : ArrowArray) : Prop :=
  ar_type a = fd_type f /\ exists slot, ar_slots a !! row = Some slot /\ slot_ok (fd_type f) slot.

Lemma slot_at a row slot :
  ar_slots a !! row = Some slot -> array_slot_to_scalar a row = array_slot_to_scalar (mkArray (ar_type a) [slot]) 0.
Proof. intros Hs. unfold array_slot_to_scalar. cbn. by rewrite Hs. Qed.

(** The marker and value of one column. *)
Lemma cell_roundtrip row f a :
  cell_ok row f a ->
  exists s enc, array_slot_to_scalar a row = Some s /\
    (if is_null s then enc = [x00]
     else exists e, enc = x01 :: e /\ forall out, scalar_to_value_bytes out s = Ok (out ++ e)) /\
    forall pre post, decode_column (pre ++ enc ++ post) (blen pre) (fd_type f)
                     = Some (Ok (stored_scalar row f a, blen pre + blen enc)).
Proof.
  intros (Ht & slot & Hs & Hok). unfold stored_scalar. rewrite (slot_at _ _ _ Hs), Ht.
  assert (Hm : forall pre m post, (pre ++ m :: post) !! Z.to_nat (blen pre) = Some m).
  { intros pre m post. unfold blen. rewrite Nat2Z.id. by apply list_lookup_middle. }
  destruct slot as [v|].
  - destruct (array_slot_to_scalar (mkArray (fd_type f) [Some v]) 0) as [s|] eqn:E; [|done].
    destruct (value_roundtrip _ _ _ Hok E) as (Hn & enc & He & Hd).
    exists s, (x01 :: enc). split; [done|]. rewrite Hn. split; [by exists enc|].
    intros pre post. unfold decode_column. cbn [app]. rewrite Hm. cbn -[value_bytes_to_scalar].
    replace (pre ++ x01 :: enc ++ post) with ((pre ++ [x01]) ++ enc ++ post) by (by rewrite <- app_assoc).
    replace (blen pre + 1) with (blen (pre ++ [x01])) by (by rewrite blen_app).
    rewrite Hd, blen_app, blen_cons, blen_cons, blen_nil. do 3 f_equal. lia.
  - exists SvNull, [x00]. split; [done|]. split; [done|]. intros pre post.
    unfold decode_column. cbn [app]. rewrite Hm. cbn. by destruct (fd_type f).
Qed.

(** Encoding the columns from the [k]-th on. *)
Lemma encode_cols_roundtrip batch row k fields columns :
  drop k (rb_columns batch) = columns -> Forall2 (cell_ok row) fields columns ->
  exists enc, (forall out, encode_cols batch row (seq k (length columns)) out = Some (Ok (out ++ enc))) /\
    forall pre post values, decode_full_loop (pre ++ enc ++ post) (blen pre) fields values
                            = Some (Ok (values ++ zip_with (stored_scalar row) fields columns)).
Proof.
  intros Hd Hf. revert k Hd. induction Hf as [|f a fields columns Ha Hf IH]; intros k Hd.
  - exists []. split; intros; cbn; by rewrite app_nil_r.
  - destruct (cell_roundtrip _ _ _ Ha) as (s & e & Hs & He & Hdec).
    destruct (IH (S k)) as (enc & Henc & Hloop).
    { rewrite <- Nat.add_1_r, <- drop_drop. by rewrite Hd. }
    assert (Hk : rb_columns batch !! k = Some a)
      by (rewrite <- (Nat.add_0_r k), <- lookup_drop, Hd; done).
    exists (e ++ enc). split.
    + intros out. cbn [length seq encode_cols]. rewrite Hk. cbn. rewrite Hs. cbn.
      destruct (is_null s).
      * subst e. rewrite Henc. by rewrite <- app_assoc.
      * destruct He as (e' & -> & He'). rewrite He'. cbn [ubind]. rewrite Henc. by rewrite <- !app_assoc.
    + intros pre post values. cbn [decode_full_loop zip_with].
      rewrite <- app_assoc, Hdec. cbn [ubind]. rewrite <- blen_app, app_assoc, Hloop.
      by rewrite <- app_assoc.
Qed.

(** ** Projections *)

Section Narrow.
Context (bs : bytes).

Lemma decode_full_loop_acc fields pos values :
  decode_full_loop bs pos fields values = umap (app values) (decode_full_loop bs pos fields []).
Proof.
  revert pos values. induction fields as [|f fields IH]; intros pos values; cbn [decode_full_loop].
  - cbn. by rewrite app_nil_r.
  - destruct (decode_column _ _ _) as [[[s next]|]|]; cbn [ubind umap]; [|done..].
    rewrite (IH next (values ++ [s])), (IH next ([] ++ [s])).
    destruct (decode_full_loop bs next fields []) as [[vs|]|]; cbn; [|done..]. by rewrite <- app_assoc.
Qed.

Lemma decode_full_length fields pos vs :
  decode_full_loop bs pos fields [] = Some (Ok vs) -> length vs = length fields.
Proof.
  revert pos vs. induction fields as [|f fields IH]; intros pos vs; cbn [decode_full_loop]; [by intros [= <-]|].
  destruct (decode_column _ _ _) as [[[s next]|]|]; cbn [ubind]; [|done..].
  rewrite decode_full_loop_acc. destruct (decode_full_loop bs next fields []) as [[vs'|]|] eqn:E; cbn; [|done..].
  intros [= <-]. cbn. by rewrite (IH _ _ E).
Qed.

Context (wanted : list bool) (col_order : list Z).

(** The scalars of the columns from [col] on, put where they are wanted. *)
Fixpoint place (col : nat) (vs : list ScalarValue) (values : list (option ScalarValue)) : list (option ScalarValue) :=
  match vs with
  | [] => values
  | s :: vs =>
      place (S col) vs
        (match wanted !! col, col_order !! col with
         | Some true, Some target => <[Z.to_nat target := Some s]> values
         | _, _ => values
         end)
  end.

Lemma place_length vs : forall col values, length (place col vs values) = length values.
Proof.
  induction vs as [|s vs IH]; intros col values; cbn [place]; [done|]. rewrite IH.
  destruct (wanted !! col) as [[|]|]; [|done..]. destruct (col_order !! col); [|done]. apply length_insert.
Qed.

(** Every column has its table entries, and wanted ones a place. *)
Definition tables_ok (ncols n : nat) : Prop :=
  forall c, (c < ncols)%nat -> exists w, wanted !! c = Some w /\
    (w = true -> exists target, col_order !! c = Some target /\ 0 <= target < Z.of_nat n).

Lemma narrow_loop_place ncols n fields : forall pos col values,
  tables_ok ncols n -> (col + length fields = ncols)%nat -> length values = n ->
  narrow_loop bs pos col fields wanted col_order values
  = umap (fun vs => place col vs values) (decode_full_loop bs pos fields []).
Proof.
  induction fields as [|f fields IH]; intros pos col values Ht Hc Hn; [done|].
  destruct (Ht col) as (w & Hw & Hord); [cbn in Hc; lia|]. cbn in Hc.
  cbn [narrow_loop decode_full_loop]. unfold decode_column.
  destruct (bs !! Z.to_nat pos) as [marker|]; [|done]. rewrite Hw. cbn [mbind option_bind].
  assert (Hstep : forall s next,
    umap (fun vs => place col vs values) (decode_full_loop bs next fields ([] ++ [s])) =
    umap (fun vs => place (S col) vs
            (match col_order !! col with Some target => if w then <[Z.to_nat target := Some s]> values else values
             | None => values end)) (decode_full_loop bs next fields [])).
  { intros s next. rewrite decode_full_loop_acc.
    destruct (decode_full_loop bs next fields []) as [[vs|]|]; cbn; [|done..]. rewrite Hw.
    by destruct w, (col_order !! col). }
  destruct w.
  - destruct (Hord eq_refl) as (target & Ho & Hr).
    destruct (if b2z marker =? 0 then _ else _) as [[[s next]|]|]; cbn [ubind]; [|done..].
    rewrite Ho in Hstep |- *. cbn [mbind option_bind]. rewrite (proj2 (Z.ltb_lt _ _)) by lia.
    rewrite Hstep. apply IH; [done|lia|by rewrite length_insert].
  - assert (Hstep' : forall s next,
      umap (fun vs => place col vs values) (decode_full_loop bs next fields ([] ++ [s])) =
      umap (fun vs => place (S col) vs values) (decode_full_loop bs next fields []))
      by (intros; rewrite Hstep; by destruct (col_order !! col)).
    destruct (b2z marker =? 0); cbn [negb ubind].
    + rewrite Hstep'. apply IH; [done|lia|done].
    + destruct (value_bytes_to_scalar _ _ _) as [[[s next]|]|]; cbn [ubind]; [|done..].
      rewrite Hstep'. apply IH; [done|lia|done].
Qed.

Lemma place_other vs j : forall col values,
  (forall c target, (col <= c < col + length vs)%nat -> wanted !! c = Some true ->
     col_order !! c = Some target -> Z.to_nat target <> j) ->
  place col vs values !! j = values !! j.
Proof.
  induction vs as [|s vs IH]; intros col values Hne; cbn [place]; [done|]. rewrite IH.
  - destruct (wanted !! col) as [[|]|] eqn:Hw; [|done..]. destruct (col_order !! col) as [target|] eqn:Ho; [|done].
    apply list_lookup_insert_ne, (Hne col target); cbn; [lia|done..].
  - intros c target Hc. apply Hne. cbn. lia.
Qed.

Lemma place_at vs c j : forall col values,
  (col <= c < col + length vs)%nat -> wanted !! c = Some true -> col_order !! c = Some (Z.of_nat j) ->
  (j < length values)%nat ->
  (forall c' target, c' <> c -> wanted !! c' = Some true -> col_order !! c' = Some target ->
     Z.to_nat target <> j) ->
  place col vs values !! j = Some (vs !! (c - col)%nat).
Proof.
  induction vs as [|s vs IH]; intros col values Hc Hw Ho Hj Hinj; cbn in Hc; [lia|]. cbn [place].
  destruct (decide (c = col)) as [->|Hne].
  - rewrite Hw, Ho, Nat.sub_diag, Nat2Z.id. rewrite place_other.
    + by rewrite list_lookup_insert_eq.
    + intros c target Hc' Hw' Ho'. apply (Hinj c); [lia|done..].
  - replace (c - col)%nat with (S (c - S col)) by lia. cbn. apply IH; [lia|done|done| |done].
    destruct (wanted !! col) as [[|]|]; [|done..]. destruct (col_order !! col); [|done]. by rewrite length_insert.
Qed.
End Narrow.

(** The tables of [decode_row_narrow]: a requested column has the place of its
    request, any other keeps its entry. *)
Lemma mark_wanted_spec ncols cols : forall i wanted order,
  length wanted = ncols -> length order = ncols -> NoDup cols ->
  let '(w, o) := mark_wanted ncols i cols wanted order in
  length w = ncols /\ length o = ncols /\
  (forall j c, (c < ncols)%nat -> cols !! j = Some c -> w !! c = Some true /\ o !! c = Some (i + Z.of_nat j)) /\
  (forall c, c ∉ cols -> w !! c = wanted !! c /\ o !! c = order !! c).
Proof.
  induction cols as [|col cols IH]; intros i wanted order Hw Ho Hnd; cbn [mark_wanted].
  - repeat split; try done; intros j; by rewrite lookup_nil.
  - inversion Hnd as [|? ? Hni Hnd']. clear Hnd; rename Hnd' into Hnd. destruct (Nat.ltb_spec col ncols) as [Hlt|Hge].
    + specialize (IH (i + 1) (<[col:=true]> wanted) (<[col:=i]> order)).
      rewrite !length_insert in IH. specialize (IH Hw Ho Hnd).
      destruct (mark_wanted ncols (i + 1) cols _ _) as [w o]. destruct IH as (Hw' & Ho' & Hat & Hout).
      split; [done|]. split; [done|]. split.
      * intros [|j] c Hc Hj.
        -- cbn in Hj. injection Hj as ->. destruct (Hout c Hni) as [-> ->].
           rewrite !list_lookup_insert_eq by lia. split; [done|]. f_equal. lia.
        -- destruct (Hat j c Hc Hj) as [-> ->]. split; [done|]. f_equal. lia.
      * intros c Hc. rewrite not_elem_of_cons in Hc. destruct Hc as [Hne Hc]. destruct (Hout c Hc) as [-> ->].
        by rewrite !list_lookup_insert_ne by done.
    + specialize (IH (i + 1) wanted order Hw Ho Hnd).
      destruct (mark_wanted ncols (i + 1) cols _ _) as [w o]. destruct IH as (Hw' & Ho' & Hat & Hout).
      split; [done|]. split; [done|]. split.
      * intros [|j] c Hc Hj; [cbn in Hj; injection Hj as ->; lia|].
        destruct (Hat j c Hc Hj) as [-> ->]. split; [done|]. f_equal. lia.
      * intros c Hc. rewrite not_elem_of_cons in Hc. apply Hout, Hc.
Qed.

Section Tables.
Context (ncols : nat) (cols : list nat) (Hnd : NoDup cols).
#[local] Abbreviation tables := (mark_wanted ncols 0 cols (replicate ncols false) (replicate ncols u64_max)).

Lemma tables_wanted c :
  tables.1 !! c = Some true -> (c < ncols)%nat /\ exists j, cols !! j = Some c /\ tables.2 !! c = Some (Z.of_nat j).
Proof.
  pose proof (mark_wanted_spec ncols cols 0 (replicate ncols false) (replicate ncols u64_max)
    (length_replicate _ _) (length_replicate _ _) Hnd) as Hm.
  destruct tables as [w o]. destruct Hm as (Hw & Ho & Hat & Hout). cbn. intros Hc.
  pose proof (lookup_lt_Some _ _ _ Hc) as Hlt. rewrite Hw in Hlt. split; [done|].
  destruct (decide (c ∈ cols)) as [[j Hj]%list_elem_of_lookup|Hn].
  - exists j. split; [done|]. by destruct (Hat j c Hlt Hj) as [_ ->].
  - destruct (Hout c Hn) as [Hf _]. rewrite Hf, lookup_replicate_2 in Hc by done. done.
Qed.

Lemma tables_at j c :
  (c < ncols)%nat -> cols !! j = Some c -> tables.1 !! c = Some true /\ tables.2 !! c = Some (Z.of_nat j).
Proof.
  pose proof (mark_wanted_spec ncols cols 0 (replicate ncols false) (replicate ncols u64_max)
    (length_replicate _ _) (length_replicate _ _) Hnd) as Hm.
  destruct tables as [w o]. destruct Hm as (_ & _ & Hat & _). apply Hat.
Qed.

Lemma tables_tables_ok : tables_ok tables.1 tables.2 ncols (length cols).
Proof.
  intros c Hc. destruct (tables.1 !! c) as [w|] eqn:Hw.
  - exists w. split; [done|]. intros ->. destruct (tables_wanted c Hw) as (_ & j & Hj & Ho).
    exists (Z.of_nat j). split; [done|]. apply lookup_lt_Some in Hj. lia.
  - exfalso. apply lookup_ge_None in Hw.
    pose proof (mark_wanted_spec ncols cols 0 (replicate ncols false) (replicate ncols u64_max)
      (length_replicate _ _) (length_replicate _ _) Hnd) as Hm.
    destruct tables as [w o]. destruct Hm as (Hl & _). cbn in Hw. lia.
Qed.

(** The requested scalars, in the order of the request. *)
Definition project (vs : list ScalarValue) : list ScalarValue := (fun c => default SvNull (vs !! c)) <$> cols.

Lemma place_project vs :
  length vs = ncols ->
  default SvNull <$> (place tables.1 tables.2 0 vs (replicate (length cols) None)) = project vs.
Proof.
  intros Hl. apply list_eq. intros j. unfold project. rewrite !list_lookup_fmap.
  destruct (cols !! j) as [c|] eqn:Hj; cbn.
  - pose proof (lookup_lt_Some _ _ _ Hj) as Hlt. destruct (decide (c < ncols)%nat) as [Hc|Hc].
    + destruct (tables_at j c Hc Hj) as [Hw Ho]. rewrite (place_at _ _ vs c j).
      * cbn. by rewrite Nat.sub_0_r.
      * lia.
      * done.
      * done.
      * by rewrite length_replicate.
      * intros c' target Hne Hw' Ho' <-. apply Hne. destruct (tables_wanted c' Hw') as (_ & j' & Hj' & Ho'').
        rewrite Ho'' in Ho'. injection Ho' as <-. rewrite Nat2Z.id in Hj. congruence.
    + rewrite place_other.
      * rewrite lookup_replicate_2 by done. cbn. rewrite lookup_ge_None_2 by lia. done.
      * intros c' target _ Hw' Ho' <-. destruct (tables_wanted c' Hw') as (Hlt' & j' & Hj' & Ho'').
        rewrite Ho'' in Ho'. injection Ho' as <-. rewrite Nat2Z.id in Hj. by simplify_eq.
  - rewrite lookup_ge_None_2; [done|]. rewrite place_length, length_replicate. by apply lookup_ge_None.
Qed.
End Tables.

Lemma project_all vs n : length vs = n -> project (seq 0 n) vs = vs.
Proof.
  intros <-. apply list_eq. intros j. unfold project. rewrite list_lookup_fmap.
  destruct (decide (j < length vs)%nat) as [Hj|Hj].
  - rewrite lookup_seq_lt by done. cbn. by destruct (lookup_lt_is_Some_2 vs j Hj) as [x ->].
  - by rewrite lookup_seq_ge, lookup_ge_None_2 by lia.
Qed.

Lemma decode_row_values_full bs schema : decode_row_values bs schema = decode_row_full bs schema.
Proof. unfold decode_row_values, decode_row_narrow. by rewrite bool_decide_true. Qed.

Lemma umap_ext {A B} (f g : A -> B) r :
  (forall a, r = Some (Ok a) -> f a = g a) -> umap f r = umap g r.
Proof. intros Hfg. destruct r as [[a|]|]; cbn; [|done..]. by rewrite Hfg. Qed.

(** Decoding a projection is projecting.  Decoding distinct columns of any
    payload, in any order, gives the same error, or the same read outside the
    payload, as decoding the whole row, and otherwise exactly the requested
    scalars of it; a column the schema does not have is a null. *)
Lemma narrow_decode (bs : bytes) (schema : Schema) (cols : list nat) :
  NoDup cols -> decode_row_narrow bs schema cols = umap (project cols) (decode_row_values bs schema).
Proof.
  intros Hnd. rewrite decode_row_values_full. unfold decode_row_narrow, decode_row_full.
  case_bool_decide as Hc.
  - subst cols. destruct (decode_full_loop bs 0 schema []) as [[vs|]|] eqn:E; cbn; [|done..].
    by rewrite project_all by (by eapply decode_full_length).
  - rewrite (surjective_pairing (mark_wanted _ _ _ _ _)).
    rewrite (narrow_loop_place _ _ _ (length schema) (length cols));
      [|by apply tables_tables_ok|done|by rewrite length_replicate].
    destruct (decode_full_loop bs 0 schema []) as [[vs|]|] eqn:E; cbn; [|done..].
    by rewrite place_project by (done || by eapply decode_full_length).
Qed.

(** ** The round trip *)

(** A batch as Arrow builds it, whose values are in range. *)
Definition batch_ok (batch : RecordBatch) : Prop :=
  rb_columns batch <> [] /\ rb_num_rows batch = rows_of_columns (rb_columns batch) /\
  columns_fit (rb_num_rows batch) (rb_schema batch) (rb_columns batch) = true /\
  Forall (fun a => Forall (slot_ok (ar_type a)) (ar_slots a)) (rb_columns batch).

Definition row_slice (row : nat) (a : ArrowArray) : ArrowArray :=
  mkArray (ar_type a) (take 1 (drop row (ar_slots a))).

(** The batch of one row of [batch]. *)
Definition single_row (batch : RecordBatch) (row : nat) : RecordBatch :=
  mkBatch (rb_schema batch) (row_slice row <$> rb_columns batch) 1.

(** [scalar_to_array] builds timestamp arrays without a time zone. *)
Definition no_time_zone (f : Field) : Prop :=
  match fd_type f with DtTimestamp _ (Some _) => False | _ => True end.

Lemma row_slice_slot row a slot :
  ar_slots a !! row = Some slot -> row_slice row a = mkArray (ar_type a) [slot].
Proof. intros Hs. unfold row_slice. by rewrite (drop_S _ _ _ Hs). Qed.

Lemma batch_cells n schema columns row :
  columns_fit n schema columns = true -> (row < n)%nat ->
  Forall (fun a => Forall (slot_ok (ar_type a)) (ar_slots a)) columns -> Forall2 (cell_ok row) schema columns.
Proof.
  intros Hf Hr. revert columns Hf. induction schema as [|f schema IH]; intros [|a columns] Hf Hok; try done.
  cbn in Hf. apply andb_true_iff in Hf as [Hc Hf]. apply Forall_cons_1 in Hok as [Ha Hok].
  constructor; [|by apply IH]. unfold column_fits in Hc.
  apply andb_true_iff in Hc as [[Ht%bool_decide_eq_true Hl]%andb_true_iff _]. apply Nat.eqb_eq in Hl.
  split; [done|]. destruct (lookup_lt_is_Some_2 (ar_slots a) row) as [slot Hs]; [lia|].
  exists slot. split; [done|]. rewrite <- Ht. by eapply Forall_lookup_1.
Qed.

(** A decoded scalar becomes the array of its slot. *)
Lemma stored_scalar_array row f a :
  cell_ok row f a -> no_time_zone f ->
  scalar_to_array (stored_scalar row f a) 1 (fd_type f) = Ok (row_slice row a).
Proof.
  intros (Ht & slot & Hs & Hok) Hz. unfold stored_scalar. rewrite (slot_at _ _ _ Hs), (row_slice_slot _ _ _ Hs), Ht.
  unfold no_time_zone in Hz. destruct slot as [v|]; cbn in Hok |- *.
  - destruct (fd_type f) as [| | | | | | | | | | | | | | | | |u [tz|]| | | | |]; destruct v; try done; by destruct u.
  - destruct (fd_type f) as [| | | | | | | | | | | | | | | | |u [tz|]|u|u|u|u|]; try done; by destruct u.
Qed.

Lemma scalars_to_arrays_cells row schema columns :
  Forall2 (cell_ok row) schema columns -> Forall no_time_zone schema ->
  scalars_to_arrays (zip_with (stored_scalar row) schema columns) schema = Ok (row_slice row <$> columns).
Proof.
  induction 1 as [|f a schema columns Ha _ IH]; intros Hz; [done|]. apply Forall_cons_1 in Hz as [Hf Hz].
  cbn [zip_with scalars_to_arrays]. rewrite stored_scalar_array by done. cbn [rbind]. by rewrite IH.
Qed.

Lemma single_row_fits n schema columns row :
  columns_fit n schema columns = true -> (row < n)%nat ->
  columns_fit 1 schema (row_slice row <$> columns) = true.
Proof.
  intros Hf Hr. revert columns Hf. induction schema as [|f schema IH]; intros [|a columns] Hf; try done.
  cbn in Hf |- *. apply andb_true_iff in Hf as [Hc Hf]. rewrite IH, andb_true_r by done. unfold column_fits in *.
  apply andb_true_iff in Hc as [[Ht Hl]%andb_true_iff Hn]. apply Nat.eqb_eq in Hl. cbn. rewrite Ht.
  destruct (lookup_lt_is_Some_2 (ar_slots a) row) as [slot Hs]; [lia|].
  rewrite (drop_S _ _ _ Hs). cbn. destruct (fd_nullable f); [done|]. cbn in Hn |- *.
  rewrite forallb_forall in Hn. rewrite Hn; [done|]. apply list_elem_of_In. by eapply list_elem_of_lookup_2.
Qed.

(** C18: a stored row reads back.  Every row of a batch encodes, and the payload,
    whatever bytes follow it, decodes with the batch's schema to the scalars of
    the row, nulls typed and timestamps in the schema's time zone; without time
    zones the decoded batch is exactly that row of the batch. *)
Theorem row_codec_roundtrip `{ArrowLib} (laws : ArrowLaws) (batch : RecordBatch) (row : nat) (rest : bytes) :
  batch_ok batch -> (row < rb_num_rows batch)%nat ->
  exists payload, encode_row batch row = Some (Ok payload) /\
    decode_row_values (payload ++ rest) (rb_schema batch)
      = Some (Ok (zip_with (stored_scalar row) (rb_schema batch) (rb_columns batch))) /\
    (Forall no_time_zone (rb_schema batch) ->
       decode_row (payload ++ rest) (rb_schema batch) = Some (Ok (single_row batch row))).
Proof.
  intros (Hne & Hn & Hf & Hok) Hr. pose proof (batch_cells _ _ _ _ Hf Hr Hok) as Hc.
  destruct (encode_cols_roundtrip batch row 0 _ _ eq_refl Hc) as (enc & He & Hd).
  rewrite drop_0 in He, Hd. exists enc. split; [apply He|].
  assert (Hv : decode_row_values (enc ++ rest) (rb_schema batch)
    = Some (Ok (zip_with (stored_scalar row) (rb_schema batch) (rb_columns batch))))
    by (rewrite decode_row_values_full; apply (Hd [] rest [])).
  split; [done|]. intros Hz. unfold decode_row. rewrite Hv. cbn [ubind].
  rewrite scalars_to_arrays_cells by done. cbn [ubind].
  assert (Hrows : rows_of_columns (row_slice row <$> rb_columns batch) = 1%nat).
  { destruct (rb_columns batch) as [|a cs]; [done|]. cbn in Hn |- *.
    rewrite length_take, length_drop. lia. }
  rewrite try_new_fits; rewrite ?Hrows.
  - done.
  - by destruct (rb_columns batch).
  - by eapply single_row_fits.
Qed.

(** ** Witnesses and findings *)

Definition sample_schema : Schema :=
  [mkField [x69] DtInt64 false; mkField [x6e] DtUtf8 true; mkField [x74] (DtTimestamp Second None) true].

Definition sample_batch : RecordBatch :=
  mkBatch sample_schema
    [mkArray DtInt64 [Some (AvInt (-7)); Some (AvInt 42)];
     mkArray DtUtf8 [None; Some (AvBytes [x61; xc3; xa9])];
     mkArray (DtTimestamp Second None) [Some (AvInt 1); None]] 2.

Lemma sample_batch_ok : batch_ok sample_batch.
Proof. repeat split; try done; repeat constructor; try (vm_compute; congruence). Qed.

Lemma row_codec_roundtrip_witness :
  exists payload, encode_row sample_batch 1 = Some (Ok payload) /\
    decode_row_values (payload ++ [x00]) sample_schema
    = Some (Ok [SvInt64 (Some 42); SvUtf8 (Some [x61; xc3; xa9]); SvTimestampSecond None None]).
Proof.
  destruct (row_codec_roundtrip (H := checking_arrow) checking_arrow_laws sample_batch 1 [x00] sample_batch_ok)
    as (payload & He & Hd & _); [cbn; lia|].
  exists payload. split; [exact He|exact Hd].
Defined.

(** Columns of a type [array_slot_to_scalar] has no case for (times, intervals,
    durations, decimals) are stored as nulls, without an error. *)
Lemma unsupported_column_stored_as_null :
  encode_row (mkBatch [mkField [x64] (DtDuration Second) false] [mkArray (DtDuration Second) [Some (AvInt 5)]] 1) 0
  = Some (Ok [x00]).
Proof. reflexivity. Qed.

(** A narrow payload does not decode with the columns it was encoded with: the
    decoder walks the whole schema. *)
Lemma narrow_payload_does_not_round_trip :
  encode_row_narrow sample_batch 1 [2]%nat = Some (Ok [x00]) /\
  decode_row_narrow [x00] sample_schema [2]%nat = Some (Err (Corrupt "row codec: truncated null marker")).
Proof. split; reflexivity. Qed.

(** A payload cut inside a fixed-width value is read past its end. *)
Lemma truncated_payload_read_outside :
  decode_row_values [x01; x2a] [mkField [x69] DtInt64 false] = None.
Proof. reflexivity. Qed.

(** A column requested twice is a null in its first place. *)
Lemma repeated_column_decodes_null :
  decode_row_narrow [x01; x2a; x00] [mkField [x61] DtUInt8 false; mkField [x62] DtInt8 true] [0; 0; 1]%nat
  = Some (Ok [SvNull; SvUInt8 (Some 42); SvInt8 None]).
Proof. reflexivity. Qed.

(** A well-formed string is its own lossy reading. *)
Lemma utf8_lossy_valid s : utf8_valid s = true -> utf8_lossy s = s.
Proof.
  assert (Hn : forall n s, (length s < n)%nat -> utf8_valid s = true -> utf8_lossy s = s).
  { clear s. intros n. induction n as [|n IH]; intros s Hl Hv; [lia|].
    destruct s as [|b0 r0]; [done|]. cbn in Hl, Hv |- *.
    destruct (between 0 0x7F b0); [by rewrite IH by (done || lia)|].
    destruct r0 as [|b1 r1]; [done|]. cbn in Hl.
    destruct (between 0xC2 0xDF b0).
    { apply andb_true_iff in Hv as [-> Hv]. by rewrite IH by (done || lia). }
    destruct r1 as [|b2 r2]; [done|]. cbn in Hl.
    destruct (between 0xE0 0xEF b0).
    { apply andb_true_iff in Hv as [[-> ->]%andb_true_iff Hv]. by rewrite IH by (done || lia). }
    destruct r2 as [|b3 r3]; [done|]. cbn in Hl.
    apply andb_true_iff in Hv as [[[[-> ->]%andb_true_iff ->]%andb_true_iff ->]%andb_true_iff Hv].
    by rewrite IH by (done || lia). }
  intros Hv. by apply (Hn (S (length s))); [lia|].
Qed.
