(* ===== verification/ColumnPredicate.v ===== *)
(** * Column predicates ([hatp-engine/src/column_predicate.rs])

    Comparisons of one column with a literal, as the scans evaluate them on decoded
    rows.  Equality and order of scalars are DataFusion's: the parameter
    [ScalarOrd], with what its documentation says of two values of one type as
    [ScalarOrdLaws]. *)

From Stdlib Require Import Strings.String.
From stdpp Require Import base tactics list option.
From S2P Require Import Prelude OrdMap Types Version Codec Arrow RowCodec MemTable.
#[local] Open Scope Z_scope.

(** [PartialEq] and [PartialOrd] of [ScalarValue]. *)
Class ScalarOrd := {
  sv_eq : ScalarValue -> ScalarValue -> bool;
  sv_partial_cmp : ScalarValue -> ScalarValue -> option comparison;
}.

Class ScalarOrdLaws `{ScalarOrd} : Prop := {
  sv_partial_cmp_same : forall a b, same_type a b -> is_null a = false -> is_null b = false ->
    sv_partial_cmp a b = Some (scalar_cmp a b);
  sv_eq_same : forall a b, same_type a b -> is_null a = false -> is_null b = false ->
    sv_eq a b = match scalar_cmp a b with Eq => true | _ => false end;
}.

Record Bound := mkBound { bd_value : ScalarValue; bd_inclusive : bool }.

Inductive ColumnPredicate :=
| PEq (col : nat) (value : ScalarValue)
| PLessThan (col : nat) (value : ScalarValue)
| PLessThanOrEqual (col : nat) (value : ScalarValue)
| PGreaterThan (col : nat) (value : ScalarValue)
| PGreaterThanOrEqual (col : nat) (value : ScalarValue)
| PRange (col : nat) (lower upper : option Bound).

(** [ColumnPredicate::column] *)
Definition p_column (p : ColumnPredicate) : nat :=
  match p with
  | PEq col _ | PLessThan col _ | PLessThanOrEqual col _ | PGreaterThan col _
  | PGreaterThanOrEqual col _ | PRange col _ _ => col
  end.

Section Evaluate.
Context `{ScalarOrd}.

(** The comparison operators Rust derives from [partial_cmp]. *)
Definition sv_lt (a b : ScalarValue) : bool :=
  match sv_partial_cmp a b with Some Lt => true | _ => false end.
Definition sv_le (a b : ScalarValue) : bool :=
  match sv_partial_cmp a b with Some (Lt | Eq) => true | _ => false end.
Definition sv_gt (a b : ScalarValue) : bool :=
  match sv_partial_cmp a b with Some Gt => true | _ => false end.
Definition sv_ge (a b : ScalarValue) : bool :=
  match sv_partial_cmp a b with Some (Gt | Eq) => true | _ => false end.

(** [ColumnPredicate::evaluate] *)
Definition evaluate (p : ColumnPredicate) (value : ScalarValue) : bool :=
  if is_null value then false else
  match p with
  | PEq _ rhs => sv_eq value rhs
  | PLessThan _ rhs => sv_lt value rhs
  | PLessThanOrEqual _ rhs => sv_le value rhs
  | PGreaterThan _ rhs => sv_gt value rhs
  | PGreaterThanOrEqual _ rhs => sv_ge value rhs
  | PRange _ lower upper =>
      if negb match lower with
              | Some low => if bd_inclusive low then sv_ge value (bd_value low) else sv_gt value (bd_value low)
              | None => true
              end then false
      else match upper with
           | Some high => if bd_inclusive high then sv_le value (bd_value high) else sv_lt value (bd_value high)
           | None => true
           end
  end.

(** [row_matches], and [row_matches_predicates] of [lib.rs]. *)
Fixpoint row_matches (decoded : list ScalarValue) (predicates : list ColumnPredicate) : bool :=
  match predicates with
  | [] => true
  | pred :: rest =>
      match decoded !! p_column pred with
      | None => false
      | Some scalar => if negb (evaluate pred scalar) then false else row_matches decoded rest
      end
  end.

(** The loop of [apply_row_predicates]. *)
Fixpoint apply_loop (rows : list VersionedRow) (schema : Schema) (predicates : list ColumnPredicate)
    (out : list VersionedRow) : option (Result (list VersionedRow)) :=
  match rows with
  | [] => Some (Ok out)
  | row :: rest =>
      match value (row_version row) with
      | None => apply_loop rest schema predicates out
      | Some payload =>
          let! decoded := decode_row_values payload schema in
          apply_loop rest schema predicates
            (if row_matches decoded predicates then out ++ [row] else out)
      end
  end.

Definition apply_row_predicates (rows : list VersionedRow) (row_schema : Schema)
    (predicates : list ColumnPredicate) : option (Result (list VersionedRow)) :=
  match predicates, row_schema with
  | [], _ | _, [] => Some (Ok rows)
  | _, _ => apply_loop rows row_schema predicates []
  end.
End Evaluate.

(** [predicates_with_fields] *)
Definition predicates_with_fields (predicates : list ColumnPredicate) (schema : Schema)
  : list (bytes * ColumnPredicate) :=
  List.flat_map (fun p => match schema !! p_column p with Some f => [(fd_name f, p)] | None => [] end) predicates.

(** ** Properties *)

Section Props.
Context `{ScalarOrd}.

Lemma row_matches_app decoded ps qs :
  row_matches decoded (ps ++ qs) = row_matches decoded ps && row_matches decoded qs.
Proof.
  induction ps as [|p ps IH]; cbn [app row_matches]; [done|].
  destruct (decoded !! p_column p) as [s|]; [|done]. by destruct (evaluate p s).
Qed.

(** Order does not matter: a row matches when every predicate holds of its
    column. *)
Lemma row_matches_forallb decoded ps :
  row_matches decoded ps =
  forallb (fun p => match decoded !! p_column p with Some s => evaluate p s | None => false end) ps.
Proof.
  induction ps as [|p ps IH]; cbn [row_matches forallb]; [done|].
  destruct (decoded !! p_column p) as [s|]; [|done]. by destruct (evaluate p s); cbn.
Qed.

(** What a row of a file with [schema] means to a filter: tombstones never match. *)
Definition row_selected (schema : Schema) (ps : list ColumnPredicate) (row : VersionedRow) : bool :=
  match value (row_version row) with
  | None => false
  | Some payload =>
      match decode_row_values payload schema with
      | Some (Ok decoded) => row_matches decoded ps
      | _ => false
      end
  end.

(** The payload of every row that has one decodes. *)
Definition rows_decode (schema : Schema) (rows : list VersionedRow) : Prop :=
  Forall (fun row => forall payload, value (row_version row) = Some payload ->
    exists decoded, decode_row_values payload schema = Some (Ok decoded)) rows.

Lemma apply_loop_selected schema ps rows out :
  rows_decode schema rows ->
  apply_loop rows schema ps out = Some (Ok (out ++ List.filter (row_selected schema ps) rows)).
Proof.
  revert out. induction rows as [|row rows IH]; intros out Hd; cbn [apply_loop List.filter].
  - by rewrite app_nil_r.
  - apply Forall_cons_1 in Hd as [Hrow Hd]. unfold row_selected at 1.
    destruct (value (row_version row)) as [payload|]; [|by apply IH].
    destruct (Hrow payload eq_refl) as [decoded ->]. cbn [ubind]. rewrite IH by done.
    destruct (row_matches decoded ps); [|done]. by rewrite <- app_assoc.
Qed.

Lemma apply_row_predicates_selected schema ps rows :
  ps <> [] -> schema <> [] -> rows_decode schema rows ->
  apply_row_predicates rows schema ps = Some (Ok (List.filter (row_selected schema ps) rows)).
Proof.
  intros Hp Hs Hd. unfold apply_row_predicates. destruct ps; [done|]. destruct schema; [done|].
  by rewrite apply_loop_selected.
Qed.
End Props.
