(* ===== verification/Manifest.v ===== *)
(** * Manifest ([hatp-engine/src/manifest.rs])

    The durable log of version edits: which SST files are live, at which level,
    with which key range, and which table prefixes are dropped.  The frame
    codec, the in-memory [VersionSet] with its derived indexes, the append path
    with its snapshot rewrite, and open.  The manifest path and the append
    handle are separate: a rewrite replaces the file under the path, and the
    handle follows only when it is reopened. *)

From Stdlib Require Import Strings.String Sorting.Permutation.
From stdpp Require Import base tactics list option sorting.
From S2P Require Import Prelude OrdMap Types Crc32c Wal.
#[local] Open Scope Z_scope.
#[local] Set Warnings "-clear-no-such-hyp".

(** ** Edits and version sets *)

Inductive VersionEdit : Type :=
| AddFile (file_id level : Z) (min_key max_key : bytes) (nbytes created_at : Z)
| DeleteFile (file_id level : Z)
| NextFileId (file_id : Z)
| DroppedPrefix (prefix : bytes)
| UndroppedPrefix (prefix : bytes).

(** [(min_key, max_key, bytes, created_at)] *)
Abbreviation MetaTuple := (bytes * bytes * Z * Z)%type.

Record VersionSet := mkVS {
  vs_levels : omap Z (oset Z);
  vs_file_meta : omap Z MetaTuple;
  vs_next_file_id : Z;
  vs_dropped : oset bytes;
  vs_files_by_key : list (bytes * Z);
  vs_file_level : list (Z * Z);
}.

Definition vs_default : VersionSet := mkVS [] [] 0 [] [] [].

(** The edits of [levels] made by [AddFile] and [DeleteFile]. *)
Definition levels_add (level file_id : Z) (ls : omap Z (oset Z)) : omap Z (oset Z) :=
  om_entry level [] (os_insert file_id) ls.

Definition levels_del (level file_id : Z) (ls : omap Z (oset Z)) : omap Z (oset Z) :=
  match om_get level ls with
  | None => ls
  | Some files =>
      let files := os_remove file_id files in
      match files with
      | [] => om_remove level ls
      | _ => om_insert level files ls
      end
  end.

(** [VersionSet::apply]: the derived indexes are left alone. *)
Definition vs_apply (vs : VersionSet) (edit : VersionEdit) : VersionSet :=
  let 'mkVS levels meta next dropped by_key flevel := vs in
  match edit with
  | AddFile file_id level min_key max_key nbytes created_at =>
      mkVS (levels_add level file_id levels)
           (om_insert file_id (min_key, max_key, nbytes, created_at) meta)
           (Z.max next (saturating_add file_id 1)) dropped by_key flevel
  | DeleteFile file_id level =>
      mkVS (levels_del level file_id levels) (om_remove file_id meta) next dropped by_key flevel
  | NextFileId file_id => mkVS levels meta (Z.max next file_id) dropped by_key flevel
  | DroppedPrefix prefix => mkVS levels meta next (os_insert prefix dropped) by_key flevel
  | UndroppedPrefix prefix => mkVS levels meta next (os_remove prefix dropped) by_key flevel
  end.

Definition rebuild_files_by_key (meta : omap Z MetaTuple) : list (bytes * Z) :=
  sort_by_key fst (map (fun '(id, (min_key, _, _, _)) => (min_key, id)) meta).

Definition level_pairs (levels : omap Z (oset Z)) : list (Z * Z) :=
  flat_map (fun '(level, files) => map (fun f => (f, level)) (om_keys files)) levels.

Definition rebuild_file_level (levels : omap Z (oset Z)) : list (Z * Z) :=
  sort_by_key fst (level_pairs levels).

Definition rebuild_indexes (vs : VersionSet) : VersionSet :=
  let 'mkVS levels meta next dropped _ _ := vs in
  mkVS levels meta next dropped (rebuild_files_by_key meta) (rebuild_file_level levels).

(** [candidate_files] *)
Definition may_contain (meta : omap Z MetaTuple) (search_key : bytes) (file_id : Z) : bool :=
  match om_get file_id meta with
  | Some (_, max_key, _, _) =>
      match max_key with [] => true | _ => lec search_key max_key end
  | None => false
  end.

Definition candidate_files (vs : VersionSet) (search_key : bytes) : list Z :=
  match vs_files_by_key vs with
  | [] => []
  | _ =>
      let idx := partition_point (fun '(min_key, _) => lec min_key search_key)
                   (vs_files_by_key vs) in
      List.filter (may_contain (vs_file_meta vs) search_key)
        (map snd (rev (take idx (vs_files_by_key vs))))
  end.

Definition file_level_for (vs : VersionSet) (file_id : Z) : option Z :=
  idx ← binary_search_by_key file_id fst (vs_file_level vs);
  snd <$> vs_file_level vs !! idx.

Definition vs_files (vs : VersionSet) (level : Z) : list Z :=
  match om_get level (vs_levels vs) with Some files => om_keys files | None => [] end.

Definition applied (vs : VersionSet) (edits : list VersionEdit) : VersionSet :=
  rebuild_indexes (fold_left vs_apply edits vs).

Definition file_metadata (vs : VersionSet) (file_id : Z) : option MetaTuple :=
  om_get file_id (vs_file_meta vs).

Definition dropped_prefixes (vs : VersionSet) : list bytes := om_keys (vs_dropped vs).

(** [to_edits]: the snapshot a rewrite writes. *)
Definition add_edit (meta : omap Z MetaTuple) (p : Z * Z) : VersionEdit :=
  let '(min_key, max_key, nbytes, created_at) := default ([], [], 0, 0) (om_get p.1 meta) in
  AddFile p.1 p.2 min_key max_key nbytes created_at.

Definition to_edits (vs : VersionSet) : list VersionEdit :=
  map (add_edit (vs_file_meta vs)) (level_pairs (vs_levels vs))
  ++ [NextFileId (vs_next_file_id vs)]
  ++ map DroppedPrefix (om_keys (vs_dropped vs)).

(** [Manifest::file_ids] *)
Definition file_ids (vs : VersionSet) : list Z :=
  flat_map (fun '(_, files) => om_keys files) (vs_levels vs).

(** ** Frame codec *)

Definition MAN_MAGIC : bytes := [x4d; x41; x4e; x31].
Definition FRAME_OVERHEAD : Z := 9.
Definition OP_ADD_FILE : Z := 1.
Definition OP_DELETE_FILE : Z := 2.
Definition OP_NEXT_FILE_ID : Z := 3.
Definition OP_DROPPED_PREFIX : Z := 4.
Definition OP_UNDROPPED_PREFIX : Z := 5.
Definition SNAPSHOT_THRESHOLD : Z := 1024.

Definition edit_payload_len (e : VersionEdit) : Z :=
  match e with
  | AddFile _ _ min_key max_key _ _ => 8 + 4 + 4 + blen min_key + 4 + blen max_key + 8 + 8
  | DeleteFile _ _ => 8 + 4
  | NextFileId _ => 8
  | DroppedPrefix prefix | UndroppedPrefix prefix => 4 + blen prefix
  end.

Definition write_len_prefixed_raw (b : bytes) : Result bytes :=
  let? len := ok_or (u32_try_from (blen b)) (OutOfRange "manifest field > u32::MAX") in
  Ok (to_le 4 len ++ b).

(** What the match of [encode_frame] writes from offset 4: the tag, the payload. *)
Definition encode_edit (e : VersionEdit) : Result (Z * bytes) :=
  match e with
  | AddFile file_id level min_key max_key nbytes created_at =>
      let? mn := write_len_prefixed_raw min_key in
      let? mx := write_len_prefixed_raw max_key in
      Ok (OP_ADD_FILE, to_le 8 file_id ++ to_le 4 level ++ mn ++ mx
                       ++ to_le 8 nbytes ++ to_le 8 created_at)
  | DeleteFile file_id level => Ok (OP_DELETE_FILE, to_le 8 file_id ++ to_le 4 level)
  | NextFileId file_id => Ok (OP_NEXT_FILE_ID, to_le 8 file_id)
  | DroppedPrefix prefix =>
      let? p := write_len_prefixed_raw prefix in Ok (OP_DROPPED_PREFIX, p)
  | UndroppedPrefix prefix =>
      let? p := write_len_prefixed_raw prefix in Ok (OP_UNDROPPED_PREFIX, p)
  end.

Section WithCrc.
Context {hw : Crc32Hw}.

(** [encode_frame]: [body_len] bytes are reserved (their initial contents are
    arbitrary, here zeros), the fields written from their start, and the
    checksum of the reserved region appended. *)
Definition man_encode_frame (out : bytes) (e : VersionEdit) : Result bytes :=
  let body_len := 5 + edit_payload_len e in
  let? (op, payload) := encode_edit e in
  let body := resize (Z.to_nat body_len) x00 (MAN_MAGIC ++ [z2b op] ++ payload) in
  Ok (out ++ body ++ to_le 4 (crc32c_with_state body 0)).

Fixpoint encode_edits (out : bytes) (edits : list VersionEdit) : Result bytes :=
  match edits with
  | [] => Ok out
  | e :: rest => let? out := man_encode_frame out e in encode_edits out rest
  end.

Definition take_u64 (buf : bytes) (pos : Z) : Result (Z * Z) :=
  let? b := ok_or (slice buf pos (pos + 8)) (Corrupt "manifest: truncated u64") in
  Ok (from_le b, pos + 8).

Definition take_u32 (buf : bytes) (pos : Z) : Result (Z * Z) :=
  let? b := ok_or (slice buf pos (pos + 4)) (Corrupt "manifest: truncated u32") in
  Ok (from_le b, pos + 4).

Definition take_len_prefixed (buf : bytes) (pos : Z) : Result (bytes * Z) :=
  let? (len, pos1) := take_u32 buf pos in
  let? b := ok_or (slice buf pos1 (pos1 + len)) (Corrupt "manifest: truncated payload") in
  Ok (b, pos1 + len).

(** The match of [decode_frame] on the operation tag: the edit and the end of
    its payload. *)
Definition decode_edit (buf : bytes) (op pos : Z) : Result (VersionEdit * Z) :=
  if op =? OP_ADD_FILE then
    let? (file_id, pos1) := take_u64 buf pos in
    let? (level, pos2) := take_u32 buf pos1 in
    let? (min_key, pos3) := take_len_prefixed buf pos2 in
    let? (max_key, pos4) := take_len_prefixed buf pos3 in
    let? (nbytes, pos5) := take_u64 buf pos4 in
    let? (created_at, pos6) := take_u64 buf pos5 in
    Ok (AddFile file_id level min_key max_key nbytes created_at, pos6)
  else if op =? OP_DELETE_FILE then
    let? (file_id, pos1) := take_u64 buf pos in
    let? (level, pos2) := take_u32 buf pos1 in
    Ok (DeleteFile file_id level, pos2)
  else if op =? OP_NEXT_FILE_ID then
    let? (file_id, pos1) := take_u64 buf pos in
    Ok (NextFileId file_id, pos1)
  else if (op =? OP_DROPPED_PREFIX) || (op =? OP_UNDROPPED_PREFIX) then
    let? (prefix, pos1) := take_len_prefixed buf pos in
    match prefix with
    | [] => Err (Corrupt "manifest drop-prefix frame has an empty prefix")
    | _ => Ok (if op =? OP_DROPPED_PREFIX then DroppedPrefix prefix
               else UndroppedPrefix prefix, pos1)
    end
  else Err (CorruptMessage "unknown manifest operation tag").

Definition man_decode_frame (buf : bytes) (cursor : Z) : Result (option (VersionEdit * Z)) :=
  if blen buf <? cursor + FRAME_OVERHEAD then Ok None
  else if negb (bool_decide (slice buf cursor (cursor + 4) = Some MAN_MAGIC)) then Ok None
  else
    match slice buf (cursor + 4) (cursor + 5) with
    | None => Ok None
    | Some opb =>
        let? (edit, crc_end) := decode_edit buf (from_le opb) (cursor + 5) in
        match slice buf crc_end (crc_end + 4) with
        | None => Ok None
        | Some crc_bytes =>
            let? body := ok_or (slice buf cursor crc_end)
                           (Corrupt "manifest: crc range out of bounds") in
            if negb (from_le crc_bytes =? crc32c_with_state body 0) then Ok None
            else Ok (Some (edit, crc_end + 4))
        end
    end.

(** The loop of [decode_all]; [None] is out of fuel. *)
Fixpoint man_decode_loop (fuel : nat) (buf : bytes) (cursor : Z) (edits : list VersionEdit)
  : option (Result (list VersionEdit)) :=
  match fuel with
  | O => None
  | S fuel =>
      if negb (cursor <? blen buf) then Some (Ok edits) else
      match man_decode_frame buf cursor with
      | Err e => Some (Err e)
      | Ok (Some (edit, next)) => man_decode_loop fuel buf next (edits ++ [edit])
      | Ok None => Some (Ok edits)
      end
  end.

(** Every frame is at least nine bytes long. *)
Definition man_decode_all (buf : bytes) : option (Result (list VersionEdit)) :=
  man_decode_loop (S (length buf)) buf 0 [].

(** ** The manifest *)

(** [mf_path] is the file under the manifest path; [mf_detached] is the file
    behind the append handle when that is no longer the path's. *)
Record Manifest := mkManifest {
  mf_path : LogFile;
  mf_detached : option LogFile;
  mf_version_set : VersionSet;
  mf_edit_count : Z;
}.

Definition read_manifest_file (file : option bytes) : option (Result (list VersionEdit)) :=
  match file with
  | None => Some (Ok [])
  | Some [] => Some (Ok [])
  | Some b =>
      if negb (starts_with b MAN_MAGIC)
      then Some (Err (CorruptMessage "MANIFEST uses an unsupported format"))
      else man_decode_all b
  end.

(** [Manifest::open]; the handle is opened for append, without truncation. *)
Definition man_open (file : option bytes) (io_open : IoOutcome) : option (Result Manifest) :=
  match read_manifest_file file with
  | None => None
  | Some (Err e) => Some (Err e)
  | Some (Ok edits) =>
      match io_open with
      | IoErr _ msg => Some (Err (Io msg))
      | IoOk =>
          let contents := default [] file in
          Some (Ok (mkManifest {| lf_contents := contents; lf_durable := blen contents |} None
                      (applied vs_default edits) (Z.of_nat (length edits))))
      end
  end.

(** The system calls of [rewrite], in order. *)
Record RewriteIo := {
  rw_create : IoOutcome; rw_write : IoOutcome; rw_sync : IoOutcome;
  rw_rename : IoOutcome; rw_sync_dir : IoOutcome; rw_reopen : IoOutcome;
}.

Definition io_result (io : IoOutcome) : Result unit :=
  match io with IoOk => Ok tt | IoErr _ msg => Err (Io msg) end.

(** [Manifest::rewrite]; the rename replaces the path's file, and until the
    reopen succeeds the handle keeps the file it had. *)
Definition man_rewrite (m : Manifest) (io : RewriteIo) : Manifest * Result unit :=
  match encode_edits [] (to_edits (mf_version_set m)) with
  | Err e => (m, Err e)
  | Ok buf =>
      let before :=
        let? _ := io_result (rw_create io) in
        let? _ := io_result (rw_write io) in
        let? _ := io_result (rw_sync io) in
        io_result (rw_rename io) in
      match before with
      | Err e => (m, Err e)
      | Ok _ =>
          let new := {| lf_contents := buf; lf_durable := blen buf |} in
          let detached :=
            mkManifest new (Some (default (mf_path m) (mf_detached m)))
              (mf_version_set m) (mf_edit_count m) in
          match rw_sync_dir io with
          | IoErr _ msg => (detached, Err (Io msg))
          | IoOk =>
              match rw_reopen io with
              | IoErr _ msg => (detached, Err (Io msg))
              | IoOk => (mkManifest new None (mf_version_set m) 0, Ok tt)
              end
          end
      end
  end.

(** The file behind the append handle. *)
Definition man_handle (m : Manifest) : LogFile := default (mf_path m) (mf_detached m).

Definition set_handle (m : Manifest) (f : LogFile) : Manifest :=
  match mf_detached m with
  | None => mkManifest f None (mf_version_set m) (mf_edit_count m)
  | Some _ => mkManifest (mf_path m) (Some f) (mf_version_set m) (mf_edit_count m)
  end.

(** [Manifest::append_batch] *)
Definition append_batch (m : Manifest) (edits : list VersionEdit)
    (io_w io_s : IoOutcome) (io_rw : RewriteIo) : Manifest * Result unit :=
  match edits with
  | [] => (m, Ok tt)
  | _ =>
      match encode_edits [] edits with
      | Err e => (m, Err e)
      | Ok buf =>
          let '(f, r) := write_all (man_handle m) buf io_w in
          let m := set_handle m f in
          match r with
          | Err e => (m, Err e)
          | Ok _ =>
              let '(f, r) := file_sync_data f io_s in
              let m := set_handle m f in
              match r with
              | Err e => (m, Err e)
              | Ok _ =>
                  let m := mkManifest (mf_path m) (mf_detached m)
                             (applied (mf_version_set m) edits)
                             (saturating_add (mf_edit_count m) (Z.of_nat (length edits))) in
                  if SNAPSHOT_THRESHOLD <=? mf_edit_count m then man_rewrite m io_rw
                  else (m, Ok tt)
              end
          end
      end
  end.

(** ** The codec *)

(** Edits the format represents: fields at their width, keys of at most
    [u32::MAX] bytes, and no empty dropped prefix. *)
Definition prefix_ok (p : bytes) : Prop := p <> [] /\ blen p <= u32_max.

Definition edit_ok (e : VersionEdit) : Prop :=
  match e with
  | AddFile file_id level min_key max_key nbytes created_at =>
      is_u64 file_id /\ is_u32 level /\ blen min_key <= u32_max /\ blen max_key <= u32_max
      /\ is_u64 nbytes /\ is_u64 created_at
  | DeleteFile file_id level => is_u64 file_id /\ is_u32 level
  | NextFileId file_id => is_u64 file_id
  | DroppedPrefix p | UndroppedPrefix p => prefix_ok p
  end.

Definition edit_op (e : VersionEdit) : Z :=
  match e with
  | AddFile _ _ _ _ _ _ => OP_ADD_FILE | DeleteFile _ _ => OP_DELETE_FILE
  | NextFileId _ => OP_NEXT_FILE_ID | DroppedPrefix _ => OP_DROPPED_PREFIX
  | UndroppedPrefix _ => OP_UNDROPPED_PREFIX
  end.

Definition len_prefixed (b : bytes) : bytes := to_le 4 (blen b) ++ b.

Definition edit_payload (e : VersionEdit) : bytes :=
  match e with
  | AddFile file_id level min_key max_key nbytes created_at =>
      to_le 8 file_id ++ to_le 4 level ++ len_prefixed min_key ++ len_prefixed max_key
      ++ to_le 8 nbytes ++ to_le 8 created_at
  | DeleteFile file_id level => to_le 8 file_id ++ to_le 4 level
  | NextFileId file_id => to_le 8 file_id
  | DroppedPrefix p | UndroppedPrefix p => len_prefixed p
  end.

Definition edit_body (e : VersionEdit) : bytes :=
  MAN_MAGIC ++ [z2b (edit_op e)] ++ edit_payload e.
Definition edit_frame (e : VersionEdit) : bytes :=
  edit_body e ++ to_le 4 (crc32c_with_state (edit_body e) 0).
Definition man_log (edits : list VersionEdit) : bytes := concat (map edit_frame edits).

Lemma blen_len_prefixed b : blen (len_prefixed b) = 4 + blen b.
Proof. unfold len_prefixed. by rewrite blen_app, blen_to_le. Qed.

Lemma blen_payload e : blen (edit_payload e) = edit_payload_len e.
Proof.
  destruct e; cbn [edit_payload edit_payload_len];
    rewrite ?blen_app, ?blen_len_prefixed, ?blen_to_le; lia.
Qed.

Lemma blen_body e : blen (edit_body e) = 5 + edit_payload_len e.
Proof.
  unfold edit_body. rewrite !blen_app, blen_payload, blen_cons, blen_nil.
  change (blen MAN_MAGIC) with 4. lia. Qed.

Lemma payload_len_nonneg e : 4 <= edit_payload_len e.
Proof.
  destruct e as [? ? a b ? ?| | |p|p]; cbn [edit_payload_len]; try lia.
  - pose proof (blen_nonneg a). pose proof (blen_nonneg b). lia.
  - pose proof (blen_nonneg p). lia.
  - pose proof (blen_nonneg p). lia.
Qed.

Lemma blen_frame_edit e : blen (edit_frame e) = 9 + edit_payload_len e.
Proof. unfold edit_frame. rewrite blen_app, blen_body, blen_to_le. lia. Qed.

Lemma write_len_prefixed_ok b :
  blen b <= u32_max -> write_len_prefixed_raw b = Ok (len_prefixed b).
Proof.
  intros. unfold write_len_prefixed_raw, u32_try_from.
  by rewrite (proj2 (Z.leb_le _ _)).
Qed.

Lemma encode_edit_ok e : edit_ok e -> encode_edit e = Ok (edit_op e, edit_payload e).
Proof.
  destruct e; cbn [edit_ok encode_edit]; unfold prefix_ok; intros;
    rewrite ?write_len_prefixed_ok by tauto; done.
Qed.

Lemma encode_frame_edit out e : edit_ok e -> man_encode_frame out e = Ok (out ++ edit_frame e).
Proof.
  intros He. unfold man_encode_frame. rewrite encode_edit_ok by done. cbn [rbind].
  fold (edit_body e). rewrite resize_all_alt.
  - done.
  - rewrite <- blen_body. unfold blen. by rewrite Nat2Z.id.
Qed.

Lemma encode_edits_ok out edits :
  Forall edit_ok edits -> encode_edits out edits = Ok (out ++ man_log edits).
Proof.
  intros Hall. revert out. induction Hall as [|e es He _ IH]; intros out; unfold man_log; cbn.
  - by rewrite app_nil_r.
  - rewrite encode_frame_edit by done. cbn [rbind]. rewrite IH.
    unfold man_log. by rewrite <- app_assoc.
Qed.

(** *** Reading fields back *)

Lemma take_u64_app pre z rest :
  is_u64 z -> take_u64 (pre ++ to_le 8 z ++ rest) (blen pre) = Ok (z, blen pre + 8).
Proof.
  intros. unfold take_u64. rewrite slice_app by (rewrite ?blen_to_le; lia). cbn [ok_or rbind].
  by rewrite from_le_to_le8.
Qed.

Lemma take_u32_app pre z rest :
  is_u32 z -> take_u32 (pre ++ to_le 4 z ++ rest) (blen pre) = Ok (z, blen pre + 4).
Proof.
  intros. unfold take_u32. rewrite slice_app by (rewrite ?blen_to_le; lia). cbn [ok_or rbind].
  by rewrite from_le_to_le4.
Qed.

Lemma take_len_prefixed_app pre b rest :
  blen b <= u32_max ->
  take_len_prefixed (pre ++ len_prefixed b ++ rest) (blen pre) = Ok (b, blen pre + blen (len_prefixed b)).
Proof.
  intros. unfold take_len_prefixed, len_prefixed. rewrite <- app_assoc.
  pose proof (blen_nonneg b). rewrite take_u32_app by (split; lia). cbn [rbind].
  rewrite app_assoc, slice_app by (rewrite ?blen_app, ?blen_to_le; lia). cbn [ok_or rbind].
  do 2 f_equal. rewrite blen_app, blen_to_le. lia.
Qed.

Lemma decode_edit_payload pre e rest :
  edit_ok e ->
  decode_edit (pre ++ edit_payload e ++ rest) (edit_op e) (blen pre) =
  Ok (e, blen pre + blen (edit_payload e)).
Proof.
  destruct e as [id lv mn mx nb ca|id lv|id|p|p]; cbn [edit_ok edit_payload edit_op]; intros He;
    unfold decode_edit; cbn [Z.eqb Pos.eqb orb OP_ADD_FILE OP_DELETE_FILE OP_NEXT_FILE_ID
      OP_DROPPED_PREFIX OP_UNDROPPED_PREFIX].
  - destruct He as (Hid & Hlv & Hmn & Hmx & Hnb & Hca). rewrite <- !app_assoc.
    rewrite take_u64_app by done. cbn [rbind].
    rewrite (app_assoc pre). replace (blen pre + 8) with (blen (pre ++ to_le 8 id))
      by (rewrite blen_app, blen_to_le; lia).
    rewrite take_u32_app by done. cbn [rbind].
    rewrite (app_assoc (pre ++ _)). replace (blen (pre ++ to_le 8 id) + 4)
      with (blen ((pre ++ to_le 8 id) ++ to_le 4 lv)) by (rewrite (blen_app (pre ++ _)), blen_to_le; lia).
    rewrite take_len_prefixed_app by done. cbn [rbind]. rewrite <- blen_app.
    rewrite (app_assoc _ (len_prefixed mn)).
    rewrite take_len_prefixed_app by done. cbn [rbind]. rewrite <- blen_app.
    rewrite (app_assoc _ (len_prefixed mx)).
    rewrite take_u64_app by done. cbn [rbind].
    rewrite (app_assoc _ (to_le 8 nb)).
    match goal with |- context [take_u64 (?a ++ to_le 8 ca ++ rest) ?p] =>
      replace p with (blen a) by (rewrite (blen_app _ (to_le 8 nb)), blen_to_le; lia) end.
    rewrite take_u64_app by done. cbn [rbind]. do 2 f_equal.
    rewrite !blen_app, !blen_to_le. lia.
  - destruct He as (Hid & Hlv). rewrite <- !app_assoc.
    rewrite take_u64_app by done. cbn [rbind].
    rewrite (app_assoc pre). replace (blen pre + 8) with (blen (pre ++ to_le 8 id))
      by (rewrite blen_app, blen_to_le; lia).
    rewrite take_u32_app by done. cbn [rbind]. do 2 f_equal.
    rewrite !blen_app, !blen_to_le. lia.
  - rewrite take_u64_app by done. cbn [rbind]. by rewrite blen_to_le.
  - destruct He as [Hne Hl]. rewrite take_len_prefixed_app by done. cbn [rbind]. by destruct p.
  - destruct He as [Hne Hl]. rewrite take_len_prefixed_app by done. cbn [rbind]. by destruct p.
Qed.

(** *** Reading a buffer cut short *)

(** A reader that stops at [p]: on a prefix of the buffer it either does the
    same, or reports truncation because [p] is past the end. *)
Definition cut_short {A} (buf : bytes) (r_full r : Result (A * Z)) : Prop :=
  match r_full with
  | Ok (a, p) => (p <= blen buf /\ r = Ok (a, p)) \/ (blen buf < p /\ exists m, r = Err (Corrupt m))
  | Err _ => True
  end.

Lemma slice_bound buf i j m : slice buf i j = Some m -> 0 <= i <= j /\ j <= blen buf.
Proof. unfold slice. destruct (_ && _) eqn:E; [|done]. zbool. lia. Qed.

Lemma cut_field {A} buf full i j msg (f : bytes -> A) :
  buf `prefix_of` full ->
  cut_short buf (let? b := ok_or (slice full i j) (Corrupt msg) in Ok (f b, j))
                (let? b := ok_or (slice buf i j) (Corrupt msg) in Ok (f b, j)).
Proof.
  intros Hp. destruct (slice_prefix buf full i j Hp) as [->|[Hlt Hn]].
  - destruct (slice buf i j) as [b|] eqn:E; cbn; [|done]. left. apply slice_bound in E. split; [tauto|done].
  - rewrite Hn. destruct (slice full i j); cbn; [|done]. right. eauto.
Qed.

Lemma cut_u64 buf full pos : buf `prefix_of` full -> cut_short buf (take_u64 full pos) (take_u64 buf pos).
Proof. apply cut_field. Qed.
Lemma cut_u32 buf full pos : buf `prefix_of` full -> cut_short buf (take_u32 full pos) (take_u32 buf pos).
Proof. apply cut_field. Qed.

(** Readers move forward. *)
Definition forward {A} (pos : Z) (r : Result (A * Z)) : Prop :=
  match r with Ok (_, p) => pos <= p | Err _ => True end.

Lemma forward_bind {A B} pos (r : Result (A * Z)) (k : A -> Z -> Result (B * Z)) :
  forward pos r -> (forall a p, forward p (k a p)) ->
  forward pos (let? (a, p) := r in k a p).
Proof.
  intros Hr Hk. destruct r as [[a p]|]; cbn; [|done]. cbn in Hr. specialize (Hk a p).
  destruct (k a p) as [[b q]|]; cbn in *; [lia|done].
Qed.

Lemma forward_ok {A} pos (a : A) : forward pos (Ok (a, pos)).
Proof. cbn. lia. Qed.

Lemma forward_u64 buf pos : forward pos (take_u64 buf pos).
Proof. unfold take_u64. destruct (slice _ _ _); cbn; [lia|done]. Qed.
Lemma forward_u32 buf pos : forward pos (take_u32 buf pos).
Proof. unfold take_u32. destruct (slice _ _ _); cbn; [lia|done]. Qed.
Lemma forward_len_prefixed buf pos : forward pos (take_len_prefixed buf pos).
Proof.
  unfold take_len_prefixed. apply forward_bind; [apply forward_u32|]. intros len p.
  destruct (slice _ _ _) eqn:E; cbn; [|done]. apply slice_bound in E. lia.
Qed.

(** Sequencing readers that only move forward. *)
Lemma cut_bind {A B} buf (r_full r : Result (A * Z)) (k_full k : A -> Z -> Result (B * Z)) :
  cut_short buf r_full r ->
  (forall a p, p <= blen buf -> cut_short buf (k_full a p) (k a p)) ->
  (forall a p, forward p (k_full a p)) ->
  cut_short buf (let? (a, p) := r_full in k_full a p) (let? (a, p) := r in k a p).
Proof.
  intros Hr Hk Hf. destruct r_full as [[a p]|e]; cbn; [|done].
  destruct Hr as [[Hle ->]|[Hlt [m ->]]]; cbn; [by apply Hk|].
  specialize (Hf a p). destruct (k_full a p) as [[b q]|]; cbn in *; [|done].
  right. split; [lia|eauto].
Qed.

Lemma cut_ok {A} buf (a : A) p : p <= blen buf -> cut_short buf (Ok (a, p)) (Ok (a, p)).
Proof. cbn. eauto. Qed.

Lemma cut_len_prefixed buf full pos :
  buf `prefix_of` full -> cut_short buf (take_len_prefixed full pos) (take_len_prefixed buf pos).
Proof.
  intros Hp. apply cut_bind; [by apply cut_u32| |].
  - intros len p Hle. by apply cut_field.
  - intros len p. destruct (slice full _ _) eqn:E; cbn; [|done]. apply slice_bound in E. lia.
Qed.

#[local] Hint Resolve forward_ok forward_u64 forward_u32 forward_len_prefixed cut_u64 cut_u32
  cut_len_prefixed : hatp.

Ltac fwd := repeat (apply forward_bind; [solve [auto with hatp]|intros ? ?]); auto with hatp.

Lemma decode_edit_cut buf full op pos :
  buf `prefix_of` full -> cut_short buf (decode_edit full op pos) (decode_edit buf op pos).
Proof.
  intros Hp. unfold decode_edit.
  destruct (op =? OP_ADD_FILE); [|destruct (op =? OP_DELETE_FILE); [|destruct (op =? OP_NEXT_FILE_ID);
    [|destruct (_ || _); [|done]]]];
    repeat (apply cut_bind; [auto with hatp|intros ? ? ?|intros; fwd]);
    try (by apply cut_ok).
  - destruct a; [done|]. by apply cut_ok.
  - destruct a; cbn; [done|lia].
Qed.

(** *** Frames and logs *)

Lemma MAN_MAGIC_len : blen MAN_MAGIC = 4.
Proof. reflexivity. Qed.

Lemma from_le_op e : from_le [z2b (edit_op e)] = edit_op e.
Proof. by destruct e. Qed.

(** A frame whose magic and tag are in the buffer is decoded by [decode_edit]. *)
Lemma decode_frame_start pre e X :
  4 <= blen X ->
  man_decode_frame (pre ++ MAN_MAGIC ++ [z2b (edit_op e)] ++ X) (blen pre) =
  let buf := pre ++ MAN_MAGIC ++ [z2b (edit_op e)] ++ X in
  let? (edit, crc_end) := decode_edit buf (edit_op e) (blen pre + 5) in
  match slice buf crc_end (crc_end + 4) with
  | None => Ok None
  | Some crc_bytes =>
      let? body := ok_or (slice buf (blen pre) crc_end)
                     (Corrupt "manifest: crc range out of bounds") in
      if negb (from_le crc_bytes =? crc32c_with_state body 0) then Ok None
      else Ok (Some (edit, crc_end + 4))
  end.
Proof.
  intros HX. unfold man_decode_frame, FRAME_OVERHEAD.
  rewrite (proj2 (Z.ltb_ge _ _)) by (rewrite !blen_app, MAN_MAGIC_len, blen_cons, blen_nil; lia).
  rewrite slice_app by (rewrite ?MAN_MAGIC_len; lia).
  rewrite bool_decide_true by done. cbn [negb].
  rewrite (app_assoc pre), slice_app by (rewrite blen_app, MAN_MAGIC_len, ?blen_cons, ?blen_nil; lia).
  rewrite from_le_op. by rewrite <- (app_assoc pre).
Qed.

Lemma edit_frame_eq e :
  edit_frame e = MAN_MAGIC ++ [z2b (edit_op e)] ++ edit_payload e
                 ++ to_le 4 (crc32c_with_state (edit_body e) 0).
Proof. unfold edit_frame. unfold edit_body at 1. by rewrite <- !app_assoc. Qed.

Lemma decode_edit_at pre e rest :
  edit_ok e ->
  decode_edit (pre ++ edit_frame e ++ rest) (edit_op e) (blen pre + 5) =
  Ok (e, blen pre + blen (edit_body e)).
Proof.
  intros He. rewrite edit_frame_eq, <- !app_assoc.
  rewrite (app_assoc MAN_MAGIC), (app_assoc pre).
  replace (blen pre + 5) with (blen (pre ++ MAN_MAGIC ++ [z2b (edit_op e)]))
    by (rewrite !blen_app, MAN_MAGIC_len, blen_cons, blen_nil; lia).
  rewrite decode_edit_payload by done. do 2 f_equal. unfold edit_body.
  rewrite !blen_app. lia.
Qed.

Lemma man_decode_frame_edit pre e rest :
  edit_ok e ->
  man_decode_frame (pre ++ edit_frame e ++ rest) (blen pre) =
  Ok (Some (e, blen (pre ++ edit_frame e))).
Proof.
  intros He. pose proof (decode_edit_at pre e rest He) as Hd.
  pose proof (payload_len_nonneg e). pose proof (blen_nonneg rest).
  rewrite edit_frame_eq, <- !app_assoc in Hd |- *.
  rewrite decode_frame_start by (rewrite !blen_app, blen_payload, blen_to_le; lia).
  cbv zeta. rewrite Hd. cbn [rbind].
  assert (Hb : forall X, pre ++ MAN_MAGIC ++ [z2b (edit_op e)] ++ edit_payload e ++ X =
                         pre ++ edit_body e ++ X)
    by (intros; unfold edit_body; by rewrite <- !app_assoc).
  rewrite Hb. rewrite (app_assoc pre) at 1.
  rewrite slice_app by (rewrite blen_app, ?blen_to_le; lia).
  rewrite slice_app by lia. cbn [ok_or rbind].
  rewrite from_le_to_le4, Z.eqb_refl by
    (apply crc32c_with_state_u32; unfold is_u32; rewrite u32_max_val; lia).
  cbn [negb]. do 3 f_equal. unfold edit_body. rewrite !blen_app, !blen_to_le. lia.
Qed.

(** Where a cut frame is skipped silently: inside its fixed part, or inside its
    checksum.  Anywhere else the reader reports corruption. *)
Definition torn_clean (n : nat) (e : VersionEdit) : bool :=
  (Z.of_nat n <? FRAME_OVERHEAD) || (5 + edit_payload_len e <=? Z.of_nat n).

Lemma man_decode_frame_torn pre e n :
  edit_ok e -> (n < length (edit_frame e))%nat ->
  if torn_clean n e then man_decode_frame (pre ++ take n (edit_frame e)) (blen pre) = Ok None
  else exists m, man_decode_frame (pre ++ take n (edit_frame e)) (blen pre) = Err (Corrupt m).
Proof.
  intros He Hn. set (buf := pre ++ take n (edit_frame e)).
  assert (Hbuf : blen buf = blen pre + Z.of_nat n)
    by (unfold buf; rewrite blen_app; unfold blen; rewrite length_take; lia).
  assert (Hlen : Z.of_nat n < 9 + edit_payload_len e)
    by (rewrite <- blen_frame_edit; unfold blen; lia).
  unfold torn_clean. destruct (Z.ltb_spec (Z.of_nat n) FRAME_OVERHEAD) as [Hs|Hs]; cbn [orb].
  { unfold man_decode_frame. by rewrite (proj2 (Z.ltb_lt _ _)) by lia. }
  unfold FRAME_OVERHEAD in Hs.
  assert (Hcut : exists X, take n (edit_frame e) = MAN_MAGIC ++ [z2b (edit_op e)] ++ X /\ 4 <= blen X).
  { rewrite edit_frame_eq. destruct n as [|[|[|[|[|n]]]]]; try lia. cbn. eexists. split; [done|].
    unfold blen. rewrite length_take, length_app.
    pose proof (blen_payload e) as Hp. unfold blen in Hp. pose proof (payload_len_nonneg e). lia. }
  destruct Hcut as (X & HX & HlX). unfold buf in *. rewrite HX in Hbuf |- *.
  rewrite decode_frame_start by done. cbv zeta.
  set (b := pre ++ MAN_MAGIC ++ _) in *.
  assert (Hpre : b `prefix_of` pre ++ edit_frame e ++ []).
  { unfold b. rewrite <- HX, app_nil_r. apply prefix_app, prefix_take. }
  pose proof (decode_edit_cut b _ (edit_op e) (blen pre + 5) Hpre) as Hc.
  rewrite decode_edit_at in Hc by done. cbn beta iota delta [cut_short] in Hc. rewrite blen_body in Hc.
  destruct Hc as [[Hle ->]|[Hlt [m ->]]]; cbn [rbind].
  - rewrite (proj2 (Z.leb_le _ _)) by lia. rewrite slice_None_long by lia. done.
  - rewrite (proj2 (Z.leb_gt _ _)) by lia. eauto.
Qed.

(** What decoding the first [n] bytes of a log gives; [None]: refused. *)
Fixpoint torn_edits (n : nat) (es : list VersionEdit) : option (list VersionEdit) :=
  match es with
  | [] => Some []
  | e :: rest =>
      let len := length (edit_frame e) in
      if (len <=? n)%nat then cons e <$> torn_edits (n - len) rest
      else if torn_clean n e then Some [] else None
  end.

Lemma edit_frame_length e : (9 <= length (edit_frame e))%nat.
Proof.
  pose proof (blen_frame_edit e) as H. pose proof (payload_len_nonneg e). unfold blen in H. lia.
Qed.

Lemma man_decode_loop_log es n pre acc fuel :
  Forall edit_ok es -> (length (take n (man_log es)) < fuel)%nat ->
  match torn_edits n es with
  | Some l => man_decode_loop fuel (pre ++ take n (man_log es)) (blen pre) acc = Some (Ok (acc ++ l))
  | None => exists m, man_decode_loop fuel (pre ++ take n (man_log es)) (blen pre) acc
                      = Some (Err (Corrupt m))
  end.
Proof.
  intros Hall. revert n pre acc fuel.
  induction Hall as [|e es He _ IH]; intros n pre acc fuel Hf; cbn [torn_edits].
  - unfold man_log. cbn [map concat]. rewrite take_nil, !app_nil_r.
    destruct fuel; [lia|]. cbn. by rewrite (proj2 (Z.ltb_ge _ _)) by lia.
  - unfold man_log in *. cbn [map concat] in *. pose proof (edit_frame_length e).
    destruct (Nat.leb_spec (length (edit_frame e)) n) as [Hle|Hlt].
    + rewrite take_app_ge in Hf |- * by done. rewrite length_app in Hf.
      destruct fuel as [|fuel]; [lia|].
      specialize (IH (n - length (edit_frame e))%nat (pre ++ edit_frame e) (acc ++ [e]) fuel
        ltac:(lia)).
      rewrite <- app_assoc in IH. cbn [man_decode_loop].
      rewrite (proj2 (Z.ltb_lt _ _)) by
        (rewrite !blen_app, blen_frame_edit; pose proof (payload_len_nonneg e);
         pose proof (blen_nonneg (take (n - length (edit_frame e)) (concat (map edit_frame es)))); lia).
      cbn [negb]. rewrite man_decode_frame_edit by done.
      destruct (torn_edits _ es); cbn [fmap option_fmap option_map]; [|done].
      by rewrite IH, <- app_assoc.
    + rewrite take_app_le in Hf |- * by lia. destruct fuel as [|fuel]; [lia|]. cbn [man_decode_loop].
      pose proof (man_decode_frame_torn pre e n He Hlt) as Ht.
      destruct (Z.ltb_spec (blen pre) (blen (pre ++ take n (edit_frame e)))) as [Hc|Hc]; cbn [negb].
      * destruct (torn_clean n e).
        -- by rewrite Ht, app_nil_r.
        -- destruct Ht as [m ->]. eauto.
      * rewrite blen_app in Hc. unfold blen in Hc. rewrite length_take in Hc.
        assert (n = 0%nat) as -> by lia. change (torn_clean 0 e) with true.
        cbv beta iota. by rewrite app_nil_r.
Qed.

Lemma torn_edits_all n es : (length (man_log es) <= n)%nat -> torn_edits n es = Some es.
Proof.
  revert n. induction es as [|e es IH]; intros n; [done|]. unfold man_log. cbn [map concat torn_edits].
  rewrite length_app. intros Hn. rewrite (proj2 (Nat.leb_le _ _)) by lia.
  rewrite IH; [done|]. unfold man_log. lia.
Qed.

Lemma man_decode_all_log es :
  Forall edit_ok es -> man_decode_all (man_log es) = Some (Ok es).
Proof.
  intros He. pose proof (man_decode_loop_log es (length (man_log es)) [] [] (S (length (man_log es))) He) as H.
  rewrite torn_edits_all, take_ge in H by lia. exact (H (Nat.lt_succ_diag_r _)).
Qed.

(** *** Decoding arbitrary bytes *)

Lemma take_u64_spec buf pos v p : take_u64 buf pos = Ok (v, p) -> is_u64 v /\ p = pos + 8.
Proof.
  unfold take_u64. destruct (slice _ _ _) as [b|] eqn:E; cbn; [|done]. intros [= <- <-].
  split; [|done]. pose proof (from_le_range b) as Hr. apply slice_length in E.
  unfold blen in E. replace (length b) with 8%nat in Hr by lia.
  unfold is_u64. rewrite u64_max_val. simpl in Hr. lia.
Qed.

Lemma take_u32_spec buf pos v p : take_u32 buf pos = Ok (v, p) -> is_u32 v /\ p = pos + 4.
Proof.
  unfold take_u32. destruct (slice _ _ _) as [b|] eqn:E; cbn; [|done]. intros [= <- <-].
  split; [|done]. pose proof (from_le_range b) as Hr. apply slice_length in E.
  unfold blen in E. replace (length b) with 4%nat in Hr by lia.
  unfold is_u32. rewrite u32_max_val. simpl in Hr. lia.
Qed.

Lemma take_len_prefixed_spec buf pos b p :
  take_len_prefixed buf pos = Ok (b, p) -> blen b <= u32_max /\ p = pos + 4 + blen b.
Proof.
  unfold take_len_prefixed. destruct (take_u32 buf pos) as [[len p1]|] eqn:E; cbn; [|done].
  apply take_u32_spec in E as [[Hl0 Hl] ->].
  destruct (slice _ _ _) as [b'|] eqn:E; cbn; [|done]. intros [= <- <-].
  apply slice_length in E. lia.
Qed.

(** Split a chain of field readers, keeping the equation of each. *)
Ltac read_fields H :=
  repeat match type of H with
  | rbind ?r _ = Ok _ =>
      let a := fresh "a" in let p := fresh "p" in let E := fresh "E" in
      destruct r as [[a p]|] eqn:E; cbn [rbind] in H; [|discriminate H];
      first [apply take_u64_spec in E as [? ->] | apply take_u32_spec in E as [? ->]
            | apply take_len_prefixed_spec in E as [? ->]]
  end.

Lemma decode_edit_spec buf op pos e p :
  decode_edit buf op pos = Ok (e, p) -> edit_ok e /\ p = pos + edit_payload_len e.
Proof.
  unfold decode_edit. intros H.
  destruct (op =? OP_ADD_FILE); [|destruct (op =? OP_DELETE_FILE); [|destruct (op =? OP_NEXT_FILE_ID);
    [|destruct (_ || _); [|done]]]]; read_fields H.
  - injection H as <- <-. cbn [edit_ok edit_payload_len]. split; [tauto|lia].
  - injection H as <- <-. cbn [edit_ok edit_payload_len]. split; [tauto|lia].
  - injection H as <- <-. done.
  - destruct a as [|x a]; [done|]. unfold prefix_ok in *.
    destruct (op =? OP_DROPPED_PREFIX); injection H as <- <-; cbn [edit_ok edit_payload_len];
      (split; [by split|lia]).
Qed.

Lemma man_decode_frame_spec buf cursor e next :
  man_decode_frame buf cursor = Ok (Some (e, next)) ->
  edit_ok e /\ cursor + 9 <= next <= blen buf.
Proof.
  unfold man_decode_frame. destruct (_ <? _) eqn:?; [done|]. destruct (negb _); [done|].
  destruct (slice buf (cursor + 4) _) as [opb|]; [|done].
  destruct (decode_edit _ _ _) as [[edit crc_end]|] eqn:E; cbn [rbind]; [|done].
  apply decode_edit_spec in E as [He ->]. pose proof (payload_len_nonneg edit).
  destruct (slice buf _ (_ + 4)) as [cb|] eqn:Ec; [|done]. apply slice_bound in Ec.
  destruct (slice buf cursor _); cbn [ok_or rbind]; [|done]. destruct (negb _); [done|].
  intros [= <- <-]. split; [done|]. lia.
Qed.

Lemma man_decode_loop_total fuel buf cursor acc :
  0 <= cursor -> (Z.to_nat (blen buf - cursor) < fuel)%nat -> Forall edit_ok acc ->
  exists r, man_decode_loop fuel buf cursor acc = Some r /\
    match r with Ok es => Forall edit_ok es | Err _ => True end.
Proof.
  revert cursor acc. induction fuel as [|fuel IH]; intros cursor acc Hc Hf Hacc; [lia|].
  cbn [man_decode_loop]. destruct (negb _); [by eexists|].
  destruct (man_decode_frame buf cursor) as [[[e next]|]|err] eqn:E.
  - apply man_decode_frame_spec in E as [He Hn]. apply IH; [lia|lia|].
    apply Forall_app; auto.
  - by eexists.
  - by eexists.
Qed.

(** ** Version sets *)

(** [level_has ls l f]: file [f] is listed at level [l]. *)
Definition level_has (ls : omap Z (oset Z)) (l f : Z) : bool :=
  match om_get l ls with Some files => os_mem f files | None => false end.

(** The representation invariant of [levels]: sorted, and no level is empty. *)
Definition levels_wf (ls : omap Z (oset Z)) : Prop :=
  om_sorted ls /\ forall l files, om_get l ls = Some files -> om_sorted files /\ files <> [].

Lemma os_mem_false_nil {K} `{TotalCmp K} (s : oset K) : (forall k, os_mem k s = false) -> s = [].
Proof.
  destruct s as [|[k []] s]; [done|]. intros Hn. specialize (Hn k). unfold os_mem in Hn.
  cbn in Hn. by rewrite eqc_refl in Hn.
Qed.

Lemma levels_ext a b :
  levels_wf a -> levels_wf b -> (forall l f, level_has a l f = level_has b l f) -> a = b.
Proof.
  intros [Hsa Ha] [Hsb Hb] Heq. apply om_ext; [done..|]. intros l.
  assert (Hl : forall f, level_has a l f = level_has b l f) by done. unfold level_has in Hl.
  destruct (om_get l a) as [fa|] eqn:Ea, (om_get l b) as [fb|] eqn:Eb; [| | |done].
  - f_equal. apply os_ext; [by apply (Ha l)|by apply (Hb l)|done].
  - apply Ha in Ea as [_ Hne]. by apply os_mem_false_nil in Hl.
  - apply Hb in Eb as [_ Hne]. destruct Hne. apply os_mem_false_nil. by intros; symmetry.
Qed.

Lemma os_insert_ne {K} `{TotalCmp K} (k : K) s : os_insert k s <> [].
Proof.
  intros Hn. assert (Hm : os_mem k (os_insert k s) = true) by (by rewrite os_mem_insert, eqc_refl).
  by rewrite Hn in Hm.
Qed.

Lemma level_has_add ls l f l' f' :
  level_has (levels_add l f ls) l' f' = (eqc l' l && eqc f' f) || level_has ls l' f'.
Proof.
  unfold level_has, levels_add. rewrite om_get_entry. destruct (eqc l' l) eqn:E; [|done].
  cbn [andb]. cbool. subst. rewrite os_mem_insert. by destruct (om_get l ls).
Qed.

Lemma levels_wf_add ls l f : levels_wf ls -> levels_wf (levels_add l f ls).
Proof.
  intros [Hs Hw]. split; [by apply om_sorted_entry|]. intros l' files. unfold levels_add.
  rewrite om_get_entry. destruct (eqc l' l); [|apply Hw]. intros [= <-].
  split; [|apply os_insert_ne]. apply om_sorted_insert.
  destruct (om_get l ls) eqn:E; cbn; [by apply (Hw l)|apply om_sorted_nil].
Qed.

Lemma level_has_del ls l f l' f' :
  level_has (levels_del l f ls) l' f' = level_has ls l' f' && negb (eqc l' l && eqc f' f).
Proof.
  unfold level_has, levels_del. destruct (om_get l ls) as [files|] eqn:El.
  - pose proof (fun k => os_mem_remove f k files) as Hr.
    destruct (os_remove f files) as [|x r] eqn:Er.
    + rewrite om_get_remove. destruct (eqc l l') eqn:E; cbool.
      * subst l'. rewrite El, eqc_refl. specialize (Hr f'). cbn in Hr.
        cbn [andb]. destruct (eqc f f') eqn:Ef, (os_mem f' files); cbn in Hr; try done.
        cbool. subst. by rewrite eqc_refl.
      * rewrite (proj2 (eqc_false l' l)) by congruence. cbn [andb negb]. by rewrite andb_true_r.
    + rewrite om_get_insert. destruct (eqc l' l) eqn:E; cbool.
      * subst l'. rewrite Hr, El. cbn [andb]. destruct (eqc f f') eqn:Ef.
        -- cbool. subst. rewrite eqc_refl. by rewrite andb_false_r.
        -- cbool. rewrite (proj2 (eqc_false f' f)) by congruence. by rewrite andb_true_r.
      * cbn [andb negb]. by rewrite andb_true_r.
  - destruct (eqc l' l) eqn:E; cbool; [subst; by rewrite El|]. cbn [andb negb].
    by rewrite andb_true_r.
Qed.

Lemma levels_wf_del ls l f : levels_wf ls -> levels_wf (levels_del l f ls).
Proof.
  intros [Hs Hw]. unfold levels_del. destruct (om_get l ls) as [files|] eqn:El; [|done].
  destruct (os_remove f files) as [|x r] eqn:Er.
  - split; [by apply om_sorted_remove|]. intros l' fs. rewrite om_get_remove.
    destruct (eqc l l'); [done|]. apply Hw.
  - split; [by apply om_sorted_insert|]. intros l' fs. rewrite om_get_insert.
    destruct (eqc l' l); [|apply Hw]. intros [= <-]. split; [|done].
    rewrite <- Er. apply om_sorted_remove. by apply (Hw l).
Qed.

Lemma level_pairs_In ls f l :
  levels_wf ls -> In (f, l) (level_pairs ls) <-> level_has ls l f = true.
Proof.
  intros [Hs Hw]. unfold level_pairs, level_has. rewrite in_flat_map. split.
  - intros ([l' files] & Hin & (f' & [= -> ->] & Hf)%in_map_iff).
    apply om_In_get in Hin; [|done]. rewrite Hin. by apply os_mem_In.
  - destruct (om_get l ls) as [files|] eqn:E; [|done]. intros Hm%os_mem_In.
    exists (l, files). split; [by apply om_get_In|]. apply in_map_iff. eauto.
Qed.

(** *** The invariant *)

(** Levels and metadata describe the same files, each at one level, and every
    field fits its width. *)
Record vs_wf (vs : VersionSet) : Prop := {
  wf_levels : levels_wf (vs_levels vs);
  wf_meta : om_sorted (vs_file_meta vs);
  wf_dropped : om_sorted (vs_dropped vs);
  wf_files : forall f, is_Some (om_get f (vs_file_meta vs)) <->
                       exists l, level_has (vs_levels vs) l f = true;
  wf_one_level : forall f l1 l2, level_has (vs_levels vs) l1 f = true ->
                                 level_has (vs_levels vs) l2 f = true -> l1 = l2;
  wf_next : forall f m, om_get f (vs_file_meta vs) = Some m ->
                        saturating_add f 1 <= vs_next_file_id vs;
  wf_next_u64 : is_u64 (vs_next_file_id vs);
  wf_fields : forall f l, level_has (vs_levels vs) l f = true ->
                          edit_ok (add_edit (vs_file_meta vs) (f, l));
  wf_prefixes : forall p, os_mem p (vs_dropped vs) = true -> prefix_ok p;
}.

(** How the engine uses edits: a file is added once and deleted from the level
    it is at. *)
Definition edit_valid (vs : VersionSet) (e : VersionEdit) : Prop :=
  edit_ok e /\
  match e with
  | AddFile f _ _ _ _ _ => om_get f (vs_file_meta vs) = None
  | DeleteFile f l => level_has (vs_levels vs) l f = true
  | _ => True
  end.

Fixpoint edits_valid (vs : VersionSet) (es : list VersionEdit) : Prop :=
  match es with
  | [] => True
  | e :: rest => edit_valid vs e /\ edits_valid (vs_apply vs e) rest
  end.

Lemma vs_default_wf : vs_wf vs_default.
Proof.
  split; cbn; try done.
  - split; [apply om_sorted_nil|done].
  - apply om_sorted_nil.
  - apply om_sorted_nil.
  - intros f. split; [by intros []|by intros []].
Qed.

Lemma saturating_add_mono_u64 f : is_u64 f -> is_u64 (saturating_add f 1).
Proof. intros. apply saturating_add_u64; [done|lia]. Qed.

Lemma apply_add_wf vs f l mn mx nb ca :
  vs_wf vs -> edit_valid vs (AddFile f l mn mx nb ca) ->
  vs_wf (vs_apply vs (AddFile f l mn mx nb ca)).
Proof.
  intros [] [Hok Hfresh]. destruct vs as [ls meta next dr bk fl]; cbn in *.
  assert (Hnone : forall l', level_has ls l' f = false).
  { intros l'. apply not_true_iff_false. intros Hl.
    assert (is_Some (om_get f meta)) as [? ?] by (apply wf_files0; eauto). congruence. }
  split; cbn; try done.
  - by apply levels_wf_add.
  - by apply om_sorted_insert.
  - intros f'. rewrite om_get_insert. setoid_rewrite level_has_add.
    destruct (eqc f' f) eqn:E.
    + split; [|done]. intros _. exists l. by rewrite eqc_refl.
    + rewrite wf_files0. split; intros [l' Hl']; exists l'.
      * by rewrite Hl', orb_true_r.
      * by rewrite andb_false_r in Hl'.
  - intros f' l1 l2. rewrite !level_has_add. destruct (eqc f' f) eqn:E.
    + cbool. subst. rewrite !Hnone, !andb_true_r, !orb_false_r. intros. cbool. congruence.
    + rewrite !andb_false_r. apply wf_one_level0.
  - intros f' m. rewrite om_get_insert. destruct (eqc f' f) eqn:E; cbool; [subst; lia|].
    intros Hm. apply wf_next0 in Hm. lia.
  - destruct Hok as [Hf _]. apply saturating_add_mono_u64 in Hf. unfold is_u64 in *. lia.
  - intros f' l'. rewrite level_has_add. unfold add_edit. cbn [fst snd]. rewrite om_get_insert.
    destruct (eqc f' f) eqn:E; cbool.
    + subst. rewrite Hnone, andb_true_r, orb_false_r. intros. cbool. by subst.
    + rewrite andb_false_r. apply wf_fields0.
Qed.

Lemma apply_delete_wf vs f l :
  vs_wf vs -> edit_valid vs (DeleteFile f l) -> vs_wf (vs_apply vs (DeleteFile f l)).
Proof.
  intros [] [Hok Hat]. destruct vs as [ls meta next dr bk fl]; cbn in *.
  split; cbn; try done.
  - by apply levels_wf_del.
  - by apply om_sorted_remove.
  - intros f'. rewrite om_get_remove. setoid_rewrite level_has_del.
    destruct (eqc f f') eqn:E; cbool.
    + subst f'. split; [by intros []|]. intros (l' & [Hl' Hn]%andb_true_iff).
      assert (l' = l) as -> by eauto. by rewrite !eqc_refl in Hn.
    + rewrite (proj2 (eqc_false f' f)) by congruence. rewrite wf_files0.
      split; intros [l' Hl']; exists l'.
      * by rewrite Hl', andb_false_r.
      * by apply andb_true_iff in Hl' as [? _].
  - intros f' l1 l2. rewrite !level_has_del. intros [? _]%andb_true_iff [? _]%andb_true_iff. eauto.
  - intros f' m. rewrite om_get_remove. destruct (eqc f f'); [done|]. apply wf_next0.
  - intros f' l'. rewrite level_has_del. intros [Hl' Hn]%andb_true_iff.
    unfold add_edit. cbn [fst snd]. rewrite om_get_remove.
    destruct (eqc f f') eqn:E; cbool; [|by apply wf_fields0].
    subst f'. assert (l' = l) as -> by eauto. by rewrite !eqc_refl in Hn.
Qed.

Lemma vs_apply_wf vs e : vs_wf vs -> edit_valid vs e -> vs_wf (vs_apply vs e).
Proof.
  intros Hw Hv. destruct e as [f l mn mx nb ca|f l|n|p|p].
  - by apply apply_add_wf.
  - by apply apply_delete_wf.
  - destruct Hw, Hv as [Hok _], vs; split; cbn in *; try done; unfold is_u64 in *.
    + intros f m Hm. specialize (wf_next0 f m Hm). lia.
    + lia.
  - destruct Hw, Hv as [Hok _], vs; split; cbn in *; try done.
    + by apply om_sorted_insert.
    + intros q. rewrite os_mem_insert. intros [?|?]%orb_true_iff; [cbool; by subst|auto].
  - destruct Hw, Hv as [Hok _], vs; split; cbn in *; try done.
    + by apply om_sorted_remove.
    + intros q. rewrite os_mem_remove. intros [_ ?]%andb_true_iff. auto.
Qed.

Lemma fold_apply_wf vs es : vs_wf vs -> edits_valid vs es -> vs_wf (fold_left vs_apply es vs).
Proof.
  revert vs. induction es as [|e es IH]; intros vs Hw; cbn; [done|].
  intros [He Hes]. apply IH; [by apply vs_apply_wf|done].
Qed.

Lemma rebuild_wf vs : vs_wf vs -> vs_wf (rebuild_indexes vs).
Proof. intros []. by destruct vs. Qed.

Lemma applied_wf vs es : vs_wf vs -> edits_valid vs es -> vs_wf (applied vs es).
Proof. intros. apply rebuild_wf. by apply fold_apply_wf. Qed.

(** *** Indexes are a function of levels and metadata *)

Lemma rebuild_apply a b e :
  rebuild_indexes a = rebuild_indexes b ->
  rebuild_indexes (vs_apply a e) = rebuild_indexes (vs_apply b e).
Proof.
  destruct a as [la ma na da ba fa], b as [lb mb nb db bb fb]. cbn.
  intros [= -> -> -> -> _ _]. by destruct e.
Qed.

Lemma rebuild_fold a b es :
  rebuild_indexes a = rebuild_indexes b -> applied a es = applied b es.
Proof.
  unfold applied. revert a b. induction es as [|e es IH]; intros a b Hab; cbn; [done|].
  apply IH. by apply rebuild_apply.
Qed.

Lemma rebuild_idem vs : rebuild_indexes (rebuild_indexes vs) = rebuild_indexes vs.
Proof. by destruct vs. Qed.

Lemma applied_app vs es1 es2 : applied (applied vs es1) es2 = applied vs (es1 ++ es2).
Proof.
  unfold applied at 3. rewrite fold_left_app. fold (applied (fold_left vs_apply es1 vs) es2).
  apply rebuild_fold. unfold applied. apply rebuild_idem.
Qed.

(** *** A snapshot rebuilds the version set *)

Lemma fold_adds_levels meta L vs l f :
  level_has (vs_levels (fold_left vs_apply (map (add_edit meta) L) vs)) l f =
  level_has (vs_levels vs) l f || existsb (fun p => eqc f p.1 && eqc l p.2) L.
Proof.
  revert vs. induction L as [|[f0 l0] L IH]; intros vs; cbn [map fold_left existsb].
  - by rewrite orb_false_r.
  - rewrite IH. unfold add_edit at 1. destruct (default _ _) as [[[mn mx] nb] ca].
    destruct vs; cbn. rewrite level_has_add. rewrite (andb_comm (eqc l l0)).
    by destruct (eqc f f0 && eqc l l0), (level_has _ _ _).
Qed.

Lemma fold_adds_levels_wf meta L vs :
  levels_wf (vs_levels vs) -> om_sorted (vs_file_meta vs) ->
  let vs' := fold_left vs_apply (map (add_edit meta) L) vs in
  levels_wf (vs_levels vs') /\ om_sorted (vs_file_meta vs') /\ vs_dropped vs' = vs_dropped vs.
Proof.
  revert vs. induction L as [|[f0 l0] L IH]; intros vs Hl Hm; cbn [map fold_left]; [done|].
  assert (He : exists mn mx nb ca, add_edit meta (f0, l0) = AddFile f0 l0 mn mx nb ca).
  { unfold add_edit. destruct (default _ _) as [[[mn mx] nb] ca]. cbn. eauto. }
  destruct He as (mn & mx & nb & ca & ->). destruct vs as [ls m n d b fl]. cbn in Hl, Hm.
  apply (IH (vs_apply (mkVS ls m n d b fl) (AddFile f0 l0 mn mx nb ca)));
    [by apply levels_wf_add|by apply om_sorted_insert].
Qed.

Lemma fold_adds_meta meta L vs f :
  om_get f (vs_file_meta (fold_left vs_apply (map (add_edit meta) L) vs)) =
  if existsb (fun p => eqc f p.1) L then Some (default ([], [], 0, 0) (om_get f meta))
  else om_get f (vs_file_meta vs).
Proof.
  revert vs. induction L as [|[f0 l0] L IH]; intros vs; cbn [map fold_left existsb]; [done|].
  rewrite IH. destruct (existsb _ L) eqn:E; [by rewrite orb_true_r|]. rewrite orb_false_r.
  unfold add_edit. cbn [fst snd]. destruct (default _ (om_get f0 meta)) as [[[mn mx] nb] ca] eqn:Ed.
  destruct vs; cbn [vs_apply vs_file_meta]. rewrite om_get_insert.
  destruct (eqc f f0) eqn:Ef; [|done]. cbool. subst. by rewrite Ed.
Qed.

Lemma fold_adds_next meta L vs b :
  Forall (fun p => saturating_add p.1 1 <= b) L ->
  vs_next_file_id vs <= b ->
  vs_next_file_id (fold_left vs_apply (map (add_edit meta) L) vs) <= b.
Proof.
  intros Hall. revert vs. induction Hall as [|[f0 l0] L Hf _ IH]; intros vs Hn; cbn; [done|].
  apply IH. unfold add_edit. cbn [fst snd].
  destruct (default _ _) as [[[mn mx] nb] ca]. destruct vs; cbn in *. lia.
Qed.

Lemma fold_drops ps vs :
  let vs' := fold_left vs_apply (map DroppedPrefix ps) vs in
  vs_levels vs' = vs_levels vs /\ vs_file_meta vs' = vs_file_meta vs /\
  vs_next_file_id vs' = vs_next_file_id vs /\
  vs_dropped vs' = fold_left (fun s p => os_insert p s) ps (vs_dropped vs).
Proof.
  revert vs. induction ps as [|p ps IH]; intros vs; cbn; [done|].
  specialize (IH (vs_apply vs (DroppedPrefix p))). by destruct vs.
Qed.

Lemma fold_os_insert ps (s : oset bytes) :
  om_sorted s ->
  let s' := fold_left (fun s p => os_insert p s) ps s in
  om_sorted s' /\ forall k, os_mem k s' = os_mem k s || existsb (eqc k) ps.
Proof.
  revert s. induction ps as [|p ps IH]; intros s Hs; cbn.
  - split; [done|]. intros k. by rewrite orb_false_r.
  - destruct (IH (os_insert p s)) as [H1 H2]; [by apply om_sorted_insert|].
    split; [done|]. intros k. rewrite H2, os_mem_insert.
    by destruct (eqc k p), (os_mem k s).
Qed.

Lemma existsb_iff {A} (p : A -> bool) l b :
  ((exists x, In x l /\ p x = true) <-> b = true) -> existsb p l = b.
Proof.
  intros H. destruct b.
  - apply existsb_exists. by apply H.
  - apply not_true_iff_false. rewrite existsb_exists. rewrite H. done.
Qed.

Section Snapshot.
Variable vs : VersionSet.
Hypothesis Hwf : vs_wf vs.

Definition snap_adds : VersionSet :=
  fold_left vs_apply (map (add_edit (vs_file_meta vs)) (level_pairs (vs_levels vs))) vs_default.

Lemma snap_levels : vs_levels snap_adds = vs_levels vs.
Proof.
  destruct Hwf. apply levels_ext; [|done|].
  - apply fold_adds_levels_wf; cbn; [apply vs_default_wf|apply om_sorted_nil].
  - intros l f. unfold snap_adds. rewrite fold_adds_levels. cbn [vs_default vs_levels].
    change (level_has [] l f) with false. cbn [orb]. apply existsb_iff. split.
    + intros ([f' l'] & Hin & [? ?]%andb_true_iff). cbn in *. cbool. subst.
      by apply level_pairs_In in Hin.
    + intros Hl%level_pairs_In; [|done]. exists (f, l). split; [done|].
      cbn. by rewrite !eqc_refl.
Qed.

Lemma snap_meta : vs_file_meta snap_adds = vs_file_meta vs.
Proof.
  destruct Hwf. apply om_ext; [|done|].
  - apply fold_adds_levels_wf; cbn; [apply vs_default_wf|apply om_sorted_nil].
  - intros f. unfold snap_adds. rewrite fold_adds_meta. cbn [vs_default vs_file_meta om_get].
    rewrite (existsb_iff _ _ (match om_get f (vs_file_meta vs) with Some _ => true | None => false end)).
    { by destruct (om_get f (vs_file_meta vs)). }
    transitivity (is_Some (om_get f (vs_file_meta vs))).
    + rewrite wf_files0. split.
      * intros ([f' l'] & Hin%level_pairs_In & ?); [|done]. cbn in *. cbool. subst. eauto.
      * intros [l Hl%level_pairs_In]; [|done]. exists (f, l). cbn. by rewrite eqc_refl.
    + destruct (om_get f (vs_file_meta vs)); split; try done.
Qed.

Lemma snap_next : vs_next_file_id snap_adds <= vs_next_file_id vs.
Proof.
  destruct Hwf. apply fold_adds_next; [|unfold is_u64 in *; cbn; lia].
  apply List.Forall_forall. intros [f l] Hin%level_pairs_In; [|done].
  assert (is_Some (om_get f (vs_file_meta vs))) as [m Hm] by (apply wf_files0; eauto).
  cbn. eauto.
Qed.

Lemma snap_dropped :
  fold_left (fun s p => os_insert p s) (om_keys (vs_dropped vs)) [] = vs_dropped vs.
Proof.
  destruct (fold_os_insert (om_keys (vs_dropped vs)) []) as [Hs Hm]; [apply om_sorted_nil|].
  apply os_ext; [done|by destruct Hwf|]. intros k. rewrite Hm. cbn [os_mem om_get orb].
  change (os_mem k []) with false. cbn [orb]. apply existsb_iff. rewrite os_mem_In. split.
  - intros (x & Hin & Hx). cbool. by subst.
  - intros Hin. exists k. by rewrite eqc_refl.
Qed.

Lemma to_edits_rebuild : applied vs_default (to_edits vs) = rebuild_indexes vs.
Proof.
  unfold applied, to_edits. rewrite !fold_left_app. fold snap_adds. cbn [fold_left].
  pose proof snap_levels as Hl. pose proof snap_meta as Hm. pose proof snap_next as Hn.
  assert (Hd : vs_dropped snap_adds = [])
    by (apply fold_adds_levels_wf; cbn; [apply vs_default_wf|apply om_sorted_nil]).
  destruct snap_adds as [ls0 m0 n0 d0 b0 f0]. cbn in Hl, Hm, Hn, Hd. subst ls0 m0 d0.
  cbn [vs_apply].
  destruct (fold_drops (om_keys (vs_dropped vs))
    (mkVS (vs_levels vs) (vs_file_meta vs) (Z.max n0 (vs_next_file_id vs)) [] b0 f0))
    as (Hl & Hm & Hn' & Hd).
  destruct (fold_left vs_apply _ _) as [l1 m1 n1 d1 b1 f1]. cbn in Hl, Hm, Hn', Hd. subst.
  rewrite snap_dropped. destruct vs; cbn in *. by rewrite Z.max_r by lia.
Qed.

Lemma to_edits_ok : Forall edit_ok (to_edits vs).
Proof.
  destruct Hwf. unfold to_edits. apply Forall_app. split; [|apply Forall_app; split].
  - apply List.Forall_forall. intros e ([f l] & <- & Hin%level_pairs_In)%in_map_iff; auto.
  - by constructor.
  - apply List.Forall_forall. intros e (p & <- & Hp%os_mem_In)%in_map_iff. by apply wf_prefixes0.
Qed.
End Snapshot.

(** ** The derived indexes *)

(** The file's key range may contain [k]; an empty [max_key] is unbounded. *)
Definition covers (m : MetaTuple) (k : bytes) : Prop :=
  let '(mn, mx, _, _) := m in cle mn k /\ (mx = [] \/ cle k mx).

Lemma files_by_key_In meta mn f :
  om_sorted meta ->
  In (mn, f) (rebuild_files_by_key meta) <->
  exists mx nb ca, om_get f meta = Some (mn, mx, nb, ca).
Proof.
  intros Hs. unfold rebuild_files_by_key. rewrite <- sort_by_key_perm, in_map_iff. split.
  - intros ([f' [[[mn' mx] nb] ca]] & [= -> ->] & Hin%om_In_get); eauto.
  - intros (mx & nb & ca & Hin%om_get_In). by exists (f, (mn, mx, nb, ca)).
Qed.

Lemma may_contain_spec meta k f :
  may_contain meta k f = true <->
  exists mn mx nb ca, om_get f meta = Some (mn, mx, nb, ca) /\ (mx = [] \/ cle k mx).
Proof.
  unfold may_contain. destruct (om_get f meta) as [[[[mn mx] nb] ca]|].
  - transitivity (mx = [] \/ cle k mx); [|naive_solver].
    rewrite <- lec_spec. destruct mx; naive_solver.
  - naive_solver.
Qed.

Lemma candidate_files_In vs k f :
  om_sorted (vs_file_meta vs) -> vs_files_by_key vs = rebuild_files_by_key (vs_file_meta vs) ->
  In f (candidate_files vs k) <-> exists m, file_metadata vs f = Some m /\ covers m k.
Proof.
  intros Hs Hi.
  transitivity (In f (List.filter (may_contain (vs_file_meta vs) k)
    (map snd (rev (take (partition_point (fun '(min_key, _) => lec min_key k) (vs_files_by_key vs))
       (vs_files_by_key vs)))))).
  { unfold candidate_files. by destruct (vs_files_by_key vs). }
  rewrite filter_In, may_contain_spec, in_map_iff, Hi. unfold file_metadata.
  assert (Hp : forall x, In x (take (partition_point (fun '(min_key, _) => lec min_key k)
      (rebuild_files_by_key (vs_file_meta vs))) (rebuild_files_by_key (vs_file_meta vs))) <->
      In x (rebuild_files_by_key (vs_file_meta vs)) /\ (let '(mn, _) := x in lec mn k) = true).
  { intros x. apply (partition_take fst); [apply sort_by_key_sorted|].
    intros [a ?] [b ?]. unfold by_key_le. cbn. rewrite !lec_spec. apply cle_trans. }
  split.
  - intros [([mn f'] & Heq & [Hin Hle]%in_rev%Hp) (mn' & mx & nb & ca & Hg & Hmx)].
    cbn in Heq. subst f'. apply files_by_key_In in Hin as (mx' & nb' & ca' & Hg'); [|done].
    rewrite Hg in Hg'. injection Hg' as -> -> -> ->. cbool. eexists. split; [done|]. by split.
  - intros ([[[mn mx] nb] ca] & Hg & Hmn & Hmx). split; [|naive_solver].
    exists (mn, f). split; [done|]. apply in_rev. rewrite rev_involutive. apply Hp.
    split; [|by apply lec_spec]. apply files_by_key_In; [done|]. eauto.
Qed.

Lemma candidate_files_NoDup vs k :
  om_sorted (vs_file_meta vs) -> vs_files_by_key vs = rebuild_files_by_key (vs_file_meta vs) ->
  NoDup (candidate_files vs k).
Proof.
  intros Hs Hi. unfold candidate_files.
  destruct (vs_files_by_key vs) as [|x0 r0]; [constructor|]. rewrite Hi. clear x0 r0 Hi.
  apply NoDup_ListNoDup, List.NoDup_filter, NoDup_ListNoDup.
  rewrite map_rev. apply NoDup_ListNoDup, List.NoDup_rev, NoDup_ListNoDup.
  eapply sublist_NoDup; [|rewrite <- firstn_map; apply sublist_take].
  unfold rebuild_files_by_key. rewrite <- sort_by_key_perm, map_map.
  erewrite map_ext; [by apply om_keys_NoDup|]. by intros [f [[[mn mx] nb] ca]].
Qed.

Lemma level_pairs_NoDup ls :
  levels_wf ls ->
  (forall f l1 l2, level_has ls l1 f = true -> level_has ls l2 f = true -> l1 = l2) ->
  NoDup (map fst (level_pairs ls)).
Proof.
  intros [Hs Hw] Hone. induction ls as [|[l0 fs0] r IH]; [constructor|].
  pose proof Hs as [Hsr Hall]%om_sorted_inv.
  assert (Hsub : forall l, l <> l0 -> om_get l ((l0, fs0) :: r) = om_get l r).
  { intros l Hl. cbn. by rewrite (proj2 (eqc_false l l0)). }
  assert (Hne : forall l fs, om_get l r = Some fs -> l <> l0).
  { intros l fs Hl ->. rewrite om_get_below in Hl; done. }
  assert (Hwr : levels_wf r).
  { split; [done|]. intros l fs Hl. apply (Hw l). rewrite Hsub; eauto. }
  assert (Hhas : forall l f, level_has r l f = true -> l <> l0 /\ level_has ((l0, fs0) :: r) l f = true).
  { intros l f. unfold level_has. destruct (om_get l r) as [fs|] eqn:E; [|done]. intros Hm.
    split; [eauto|]. rewrite Hsub, E; eauto. }
  cbn [level_pairs flat_map]. fold (level_pairs r). rewrite map_app, map_map, map_id.
  assert (Hf0 : om_get l0 ((l0, fs0) :: r) = Some fs0) by (cbn; by rewrite eqc_refl).
  apply NoDup_app. split; [|split].
  - apply om_keys_NoDup. by apply (Hw l0).
  - intros f Hf0in Hin. apply list_elem_of_In in Hf0in. apply list_elem_of_In, in_map_iff in Hin
      as ([f' l] & Heq & Hin%level_pairs_In); [|done]. cbn in Heq. subst f'.
    destruct (Hhas _ _ Hin) as [Hl Hin']. apply Hl. apply (Hone f); [done|].
    unfold level_has. rewrite Hf0. by apply os_mem_In.
  - apply IH; [done|by apply Hwr|]. intros f l1 l2 [_ H1]%Hhas [_ H2]%Hhas. eauto.
Qed.

Lemma file_level_for_spec vs f l :
  vs_wf vs -> vs_file_level vs = rebuild_file_level (vs_levels vs) ->
  file_level_for vs f = Some l <-> level_has (vs_levels vs) l f = true.
Proof.
  intros Hwf Hi. destruct Hwf. rewrite <- level_pairs_In by done.
  assert (Hnd : NoDup (map fst (rebuild_file_level (vs_levels vs)))).
  { unfold rebuild_file_level. rewrite <- sort_by_key_perm. by apply level_pairs_NoDup. }
  pose proof (binary_search_spec fst f (rebuild_file_level (vs_levels vs)) (f, l)
    (sort_by_key_sorted fst _) Hnd) as Hb.
  assert (Hin : In (f, l) (level_pairs (vs_levels vs)) <->
                In (f, l) (rebuild_file_level (vs_levels vs)))
    by (unfold rebuild_file_level; by rewrite <- sort_by_key_perm).
  rewrite Hin. transitivity (In (f, l) (rebuild_file_level (vs_levels vs)) /\ f = f); [|tauto].
  rewrite <- Hb. unfold file_level_for. rewrite Hi.
  destruct (binary_search_by_key f fst _) as [idx|] eqn:E; cbn; [|naive_solver].
  split.
  - destruct (_ !! idx) as [[f' l']|] eqn:El; cbn; [|done]. intros [= ->].
    exists idx. split; [done|]. rewrite El. unfold binary_search_by_key in E.
    destruct (_ !! partition_point _ _) as [a|] eqn:Ea; [|done].
    destruct (eqc a.1 f) eqn:Ef; [|done]. injection E as <-. rewrite Ea in El. injection El as ->.
    cbool. cbn in Ef. by subst.
  - intros (idx' & [= <-] & ->). done.
Qed.

(** ** Recovery *)

(** The path's file is a durable log that replays to the published version
    set; a detached handle only exists while a rewrite is still owed. *)
Record man_inv (m : Manifest) : Prop := {
  mi_wf : vs_wf (mf_version_set m);
  mi_indexed : rebuild_indexes (mf_version_set m) = mf_version_set m;
  mi_count : 0 <= mf_edit_count m;
  mi_owed : is_Some (mf_detached m) -> SNAPSHOT_THRESHOLD <= mf_edit_count m;
  mi_log : mf_detached m = None ->
    lf_durable (mf_path m) = blen (lf_contents (mf_path m)) /\
    exists es, Forall edit_ok es /\ lf_contents (mf_path m) = man_log es /\
               applied vs_default es = mf_version_set m;
}.

Lemma man_log_app a b : man_log (a ++ b) = man_log a ++ man_log b.
Proof. unfold man_log. by rewrite map_app, concat_app. Qed.

Lemma edits_valid_ok vs es : edits_valid vs es -> Forall edit_ok es.
Proof.
  revert vs. induction es as [|e es IH]; intros vs; cbn; [constructor|].
  intros [[He _] Hes]. constructor; eauto.
Qed.

Lemma man_rewrite_inv m io :
  vs_wf (mf_version_set m) -> rebuild_indexes (mf_version_set m) = mf_version_set m ->
  SNAPSHOT_THRESHOLD <= mf_edit_count m ->
  (mf_detached m = None -> man_inv m) ->
  let r := man_rewrite m io in
  man_inv r.1 /\ mf_version_set r.1 = mf_version_set m /\
  (r.2 = Ok tt -> mf_detached r.1 = None).
Proof.
  intros Hwf Hidx Hcnt Hm. unfold man_rewrite.
  rewrite encode_edits_ok by (by apply to_edits_ok). cbn [app].
  assert (H0 : 0 <= SNAPSHOT_THRESHOLD) by (unfold SNAPSHOT_THRESHOLD; lia).
  assert (Hsame : man_inv m).
  { destruct (mf_detached m) eqn:E; [|auto]. split; try done; [lia|by rewrite E]. }
  assert (Hnew : forall d c, (is_Some d -> SNAPSHOT_THRESHOLD <= c) -> 0 <= c ->
    man_inv (mkManifest {| lf_contents := man_log (to_edits (mf_version_set m));
      lf_durable := blen (man_log (to_edits (mf_version_set m))) |} d (mf_version_set m) c)).
  { intros d c Hd Hc. split; cbn; try done. intros _. split; [done|].
    exists (to_edits (mf_version_set m)). split; [by apply to_edits_ok|]. split; [done|].
    by rewrite to_edits_rebuild. }
  destruct (rw_create io), (rw_write io), (rw_sync io), (rw_rename io); cbn [io_result rbind];
    try (by cbn).
  destruct (rw_sync_dir io); [destruct (rw_reopen io)|]; cbn.
  - split; [apply Hnew; [by intros []|lia]|done].
  - split; [apply Hnew; [done|lia]|done].
  - split; [apply Hnew; [done|lia]|done].
Qed.

(** The state after the edits are written, synced and published. *)
Definition published (m : Manifest) (edits : list VersionEdit) : Manifest :=
  let contents := lf_contents (man_handle m) ++ man_log edits in
  let f := {| lf_contents := contents; lf_durable := blen contents |} in
  mkManifest (match mf_detached m with None => f | Some _ => mf_path m end)
    (match mf_detached m with None => None | Some _ => Some f end)
    (applied (mf_version_set m) edits)
    (saturating_add (mf_edit_count m) (Z.of_nat (length edits))).

Lemma append_batch_eq m edits io :
  Forall edit_ok edits -> edits <> [] ->
  append_batch m edits IoOk IoOk io =
  if SNAPSHOT_THRESHOLD <=? mf_edit_count (published m edits)
  then man_rewrite (published m edits) io else (published m edits, Ok tt).
Proof.
  intros Hok Hne. destruct edits as [|e es] eqn:He; [done|]. rewrite <- He in *.
  assert (Ha : append_batch m edits IoOk IoOk io =
    match encode_edits [] edits with
    | Err e => (m, Err e)
    | Ok buf =>
        let f := (write_all (man_handle m) buf IoOk).1 in
        let f' := (file_sync_data f IoOk).1 in
        let m := set_handle (set_handle m f) f' in
        let m := mkManifest (mf_path m) (mf_detached m) (applied (mf_version_set m) edits)
                   (saturating_add (mf_edit_count m) (Z.of_nat (length edits))) in
        if SNAPSHOT_THRESHOLD <=? mf_edit_count m then man_rewrite m io else (m, Ok tt)
    end) by (by rewrite He).
  rewrite Ha, encode_edits_ok by done. unfold published, man_handle, set_handle.
  destruct m as [p [d|] vs c]; reflexivity.
Qed.

Lemma published_inv m edits :
  man_inv m -> edits_valid (mf_version_set m) edits ->
  mf_detached (published m edits) = None -> man_inv (published m edits).
Proof.
  intros [Hwf Hidx Hcnt Howed Hlog] Hv Hd. unfold published in *.
  destruct m as [p [d|] vs c]; cbn in *; [done|].
  destruct (Hlog eq_refl) as (Hdur & es & Hes & Hc & Hr).
  split; cbn.
  - by apply applied_wf.
  - apply rebuild_idem.
  - unfold saturating_add. rewrite u64_max_val. lia.
  - by intros [].
  - intros _. split; [done|]. exists (es ++ edits). split; [|split].
    + apply Forall_app. split; [done|]. by eapply edits_valid_ok.
    + by rewrite man_log_app, Hc.
    + by rewrite <- applied_app, Hr.
Qed.

Lemma append_batch_inv m edits io :
  man_inv m -> edits_valid (mf_version_set m) edits -> edits <> [] ->
  let r := append_batch m edits IoOk IoOk io in
  man_inv r.1 /\ mf_version_set r.1 = applied (mf_version_set m) edits /\
  (r.2 = Ok tt -> mf_detached r.1 = None).
Proof.
  intros Hm Hv Hne. cbv zeta. rewrite append_batch_eq by first [done|by eapply edits_valid_ok].
  pose proof (published_inv m edits Hm Hv) as Hp.
  destruct (Z.leb_spec SNAPSHOT_THRESHOLD (mf_edit_count (published m edits))) as [Hth|Hth].
  - apply (man_rewrite_inv (published m edits)); [|apply rebuild_idem|done|done].
    apply applied_wf; [by destruct Hm|done].
  - cbn [fst snd]. assert (Hd : mf_detached m = None).
    { destruct (mf_detached m) eqn:E; [|done]. exfalso.
      pose proof (mi_owed m Hm) as Ho. rewrite E in Ho. specialize (Ho ltac:(eauto)).
      cbn in Hth. unfold saturating_add, SNAPSHOT_THRESHOLD in *. rewrite u64_max_val in Hth. lia. }
    assert (Hd' : mf_detached (published m edits) = None) by (cbn; by rewrite Hd).
    split; [auto|]. by split.
Qed.

(** The manifest of an engine: created empty, then edited batch by batch; the
    snapshot rewrites may fail at any system call. *)
Inductive man_reach : Manifest -> Prop :=
| reach_create m : man_open None IoOk = Some (Ok m) -> man_reach m
| reach_append m edits io :
    man_reach m -> edits_valid (mf_version_set m) edits ->
    man_reach (append_batch m edits IoOk IoOk io).1.

Lemma man_reach_inv m : man_reach m -> man_inv m.
Proof.
  induction 1 as [m Ho|m edits io _ IH Hv].
  - cbn in Ho. injection Ho as <-. split; cbn; try done.
    + apply (applied_wf vs_default []); [apply vs_default_wf|done].
    + intros _. split; [done|]. by exists [].
  - destruct edits as [|e es]; [done|]. by apply append_batch_inv.
Qed.

Lemma man_open_log es :
  Forall edit_ok es ->
  exists m, man_open (Some (man_log es)) IoOk = Some (Ok m) /\
            mf_version_set m = applied vs_default es /\ lf_contents (mf_path m) = man_log es.
Proof.
  intros He. assert (Hr : read_manifest_file (Some (man_log es)) = Some (Ok es)).
  { pose proof (man_decode_all_log es He) as Hd. destruct es as [|e es]; [done|].
    unfold read_manifest_file.
    destruct (man_log (e :: es)) as [|b r] eqn:El.
    { assert (length (man_log (e :: es)) = 0%nat) as Hl by (by rewrite El).
      unfold man_log in Hl. cbn [map concat] in Hl. rewrite length_app in Hl.
      pose proof (edit_frame_length e). lia. }
    rewrite <- El in *. assert (starts_with (man_log (e :: es)) MAN_MAGIC = true) as ->.
    { unfold man_log. cbn [map concat]. rewrite edit_frame_eq, <- !app_assoc. apply starts_with_app. }
    done. }
  unfold man_open. rewrite Hr. cbn [default]. eexists. split; [done|]. by cbn.
Qed.

(** A manifest whose path has all its edits is reopened as it was. *)
Lemma man_reopen_inv m n :
  man_inv m -> mf_detached m = None -> lf_durable (mf_path m) <= Z.of_nat n ->
  exists m', man_open (Some (take n (lf_contents (mf_path m)))) IoOk = Some (Ok m') /\
    mf_version_set m' = mf_version_set m /\ man_inv m' /\ mf_detached m' = None.
Proof.
  intros [Hwf Hidx _ _ Hlog] Hd Hn. destruct (Hlog Hd) as (Hdur & es & He & Hc & Hr).
  rewrite take_ge by (rewrite Hdur in Hn; unfold blen in Hn; lia). rewrite Hc.
  destruct (man_open_log es He) as (m' & Ho & Hvs & Hp). exists m'. rewrite Hr in Hvs. split; [done|]. split; [done|].
  unfold man_open in Ho. destruct (read_manifest_file _) as [[edits|]|]; [|done..]. injection Ho as <-. cbn in *.
  split; [|done]. split; cbn; rewrite ?Hvs; [done|done|lia|by intros []|].
  intros _. split; [done|]. by exists es.
Qed.

Lemma append_batch_attached m edits io_w io_s io m' :
  mf_detached m = None -> append_batch m edits io_w io_s io = (m', Ok tt) -> mf_detached m' = None.
Proof.
  intros Hd. unfold append_batch, man_rewrite, set_handle, man_handle. rewrite Hd. intros Ha.
  repeat (case_match; simplify_eq/=; try done).
Qed.

(** ** Properties *)

(** C20: the manifest after a crash. Take a manifest created fresh and edited by
    batches whose frames reached the disk, with snapshot rewrites that may have
    failed at any system call; every edit is valid where it is applied: its numbers
    and keys fit their fields, an added file is new, a deleted one is at the level
    named, and a dropped or undropped prefix is not empty. If a further non-empty
    batch of such edits is appended and synced and accepted ([Ok]), then whatever
    bytes of the manifest file a crash leaves beyond its durable part, opening it
    succeeds and gives exactly the version set the engine published: levels,
    metadata, next file id, dropped prefixes and both derived indexes. So the
    snapshot rewrite ([to_edits]) loses nothing. *)
Theorem manifest_reopen m edits io m' n :
  man_reach m -> edits_valid (mf_version_set m) edits -> edits <> [] ->
  append_batch m edits IoOk IoOk io = (m', Ok tt) ->
  lf_durable (mf_path m') <= Z.of_nat n ->
  mf_version_set m' = applied (mf_version_set m) edits /\
  exists m'', man_open (Some (take n (lf_contents (mf_path m')))) IoOk = Some (Ok m'') /\
              mf_version_set m'' = applied (mf_version_set m) edits.
Proof.
  intros Hm%man_reach_inv Hv Hne Ha Hn.
  pose proof (append_batch_inv m edits io Hm Hv Hne) as Hi. rewrite Ha in Hi. cbn in Hi.
  destruct Hi as ([_ _ _ _ Hlog] & Hvs & Hd). destruct (Hlog (Hd eq_refl)) as (Hdur & es & He & Hc & Hr).
  split; [done|]. rewrite take_ge by (rewrite Hdur in Hn; unfold blen in Hn; lia).
  rewrite Hc. destruct (man_open_log es He) as (m'' & Ho & Hvs' & _). exists m''.
  split; [done|]. congruence.
Qed.

(** Reading a manifest cut at any byte.  A cut at a frame boundary, inside
    a frame's first nine bytes or inside its checksum is read as exactly the
    whole frames before it; a cut anywhere else in a payload is refused as
    corruption.  No cut is ever read as a different list of edits, and the
    uncut log reads as all of them. *)
Lemma manifest_torn_tail (es : list VersionEdit) (n : nat) :
  Forall edit_ok es ->
  match torn_edits n es with
  | Some l => man_decode_all (take n (man_log es)) = Some (Ok l) /\ l `prefix_of` es
  | None => exists msg, man_decode_all (take n (man_log es)) = Some (Err (Corrupt msg))
  end /\
  encode_edits [] es = Ok (man_log es) /\ torn_edits (length (man_log es)) es = Some es.
Proof.
  intros He. split; [|split; [by rewrite encode_edits_ok|by apply torn_edits_all]].
  assert (Hpre : forall l, torn_edits n es = Some l -> l `prefix_of` es).
  { clear He. revert n. induction es as [|e es IH]; intros n l; cbn [torn_edits]; [by intros [= <-]|].
    destruct (length (edit_frame e) <=? n)%nat.
    - destruct (torn_edits _ es) as [r|] eqn:E; cbn [fmap option_fmap option_map]; [|done]. intros [= <-].
      by apply prefix_cons, (IH (n - length (edit_frame e))%nat).
    - destruct (torn_clean n e); [|done]. intros [= <-]. apply prefix_nil. }
  pose proof (man_decode_loop_log es n [] [] (S (length (take n (man_log es)))) He
    (Nat.lt_succ_diag_r _)) as H.
  destruct (torn_edits n es) as [l|]; [split; [exact H|by apply Hpre]|exact H].
Qed.

(** C40: the manifest decoder on arbitrary bytes.  It always terminates with a
    result, and every edit it accepts has its fields within their width and no
    empty dropped prefix, so a corrupt file can never install a drop filter that
    matches every key. *)
Theorem manifest_decode_total (buf : bytes) :
  exists r, man_decode_all buf = Some r /\
    match r with Ok es => Forall edit_ok es | Err _ => True end.
Proof.
  apply man_decode_loop_total; [lia| |constructor]. unfold blen. lia.
Qed.

Lemma candidates_inv m k :
  man_inv m ->
  NoDup (candidate_files (mf_version_set m) k) /\
  forall f, In f (candidate_files (mf_version_set m) k) <->
            exists meta, file_metadata (mf_version_set m) f = Some meta /\ covers meta k.
Proof.
  intros [Hwf Hidx _ _ _]. destruct Hwf.
  assert (Hi : vs_files_by_key (mf_version_set m) = rebuild_files_by_key (vs_file_meta (mf_version_set m)))
    by (rewrite <- Hidx at 1; by destruct (mf_version_set m)).
  split; [by apply candidate_files_NoDup|]. intros f. by apply candidate_files_In.
Qed.

Lemma file_level_inv m f l :
  man_inv m -> file_level_for (mf_version_set m) f = Some l <-> level_has (vs_levels (mf_version_set m)) l f = true.
Proof.
  intros [Hwf Hidx _ _ _]. apply file_level_for_spec; [done|]. rewrite <- Hidx at 1. by destruct (mf_version_set m).
Qed.

(** [candidate_files] on every published version set returns, without
    duplicates, exactly the files whose key range may contain the key: a point
    lookup that opens only these files misses none that could hold it. *)
Lemma candidate_files_exact m k :
  man_reach m ->
  NoDup (candidate_files (mf_version_set m) k) /\
  forall f, In f (candidate_files (mf_version_set m) k) <->
            exists meta, file_metadata (mf_version_set m) f = Some meta /\ covers meta k.
Proof.
  intros Hr%man_reach_inv. by apply candidates_inv.
Qed.

(** In every published version set, the level index answers with exactly
    the level whose file list contains the file, and a file has metadata
    exactly when it is listed at some level. *)
Lemma file_level_exact m f l :
  man_reach m ->
  (file_level_for (mf_version_set m) f = Some l <-> In f (vs_files (mf_version_set m) l)) /\
  (is_Some (file_metadata (mf_version_set m) f) <->
   is_Some (file_level_for (mf_version_set m) f)) /\
  (In f (file_ids (mf_version_set m)) <-> is_Some (file_metadata (mf_version_set m) f)).
Proof.
  intros [Hwf Hidx _ _ _]%man_reach_inv.
  assert (Hi : vs_file_level (mf_version_set m) = rebuild_file_level (vs_levels (mf_version_set m)))
    by (rewrite <- Hidx at 1; by destruct (mf_version_set m)).
  pose proof (fun l => file_level_for_spec _ f l Hwf Hi) as Hl.
  assert (Hm : is_Some (file_metadata (mf_version_set m) f) <->
               is_Some (file_level_for (mf_version_set m) f)).
  { unfold file_metadata. rewrite (wf_files _ Hwf). split.
    - intros [l' ?%Hl]. eauto.
    - intros [l' ?%Hl]. eauto. }
  split; [|split; [done|]].
  - rewrite Hl. unfold level_has, vs_files. destruct (om_get l _); [apply os_mem_In|done].
  - rewrite Hm. unfold file_ids. rewrite in_flat_map. destruct (wf_levels _ Hwf) as [Hs _]. split.
    + intros ([l' fs] & Hin%om_In_get & Hf); [|done]. exists l'. apply Hl. unfold level_has.
      rewrite Hin. by apply os_mem_In.
    + intros [l' Hl'%Hl]. unfold level_has in Hl'.
      destruct (om_get l' _) as [fs|] eqn:E; [|done]. exists (l', fs).
      split; [by apply om_get_In|by apply os_mem_In].
Qed.
End WithCrc.

(** ** Witnesses *)

Definition rw_all_ok : RewriteIo :=
  {| rw_create := IoOk; rw_write := IoOk; rw_sync := IoOk; rw_rename := IoOk;
     rw_sync_dir := IoOk; rw_reopen := IoOk |}.

Definition sample_edits : list VersionEdit :=
  [AddFile 1 0 [x61] [x6d] 10 5; AddFile 2 1 [x63] [x7a] 20 6; DroppedPrefix [x74; x00]].

Definition more_edits : list VersionEdit := [DeleteFile 1 0; AddFile 3 1 [x61] [x62] 7 8].

Definition man_empty : Manifest := mkManifest {| lf_contents := []; lf_durable := 0 |} None vs_default 0.

Definition man_sample : Manifest :=
  Eval vm_compute in (append_batch (hw := no_sse42) man_empty sample_edits IoOk IoOk rw_all_ok).1.

Ltac edits_valid_compute :=
  unfold sample_edits, more_edits, edits_valid, edit_valid, edit_ok, prefix_ok, is_u64, is_u32;
  repeat match goal with |- _ /\ _ => split end;
  try (vm_compute; first [reflexivity | discriminate | exact I]).

Lemma man_sample_reach : man_reach (hw := no_sse42) man_sample.
Proof.
  assert (Hc : man_reach (hw := no_sse42) man_empty) by (by apply reach_create).
  assert (Hv : edits_valid (mf_version_set man_empty) sample_edits) by edits_valid_compute.
  pose proof (reach_append (hw := no_sse42) man_empty sample_edits rw_all_ok Hc Hv) as H.
  assert (E : (append_batch (hw := no_sse42) man_empty sample_edits IoOk IoOk rw_all_ok).1 = man_sample)
    by (vm_compute; reflexivity).
  by rewrite E in H.
Qed.

Lemma manifest_reopen_witness :
  let r := append_batch (hw := no_sse42) man_sample more_edits IoOk IoOk rw_all_ok in
  exists m'', man_open (hw := no_sse42) (Some (take 400 (lf_contents (mf_path r.1)))) IoOk = Some (Ok m'') /\
    mf_version_set m'' = applied (mf_version_set man_sample) more_edits /\
    file_level_for (mf_version_set m'') 3 = Some 1.
Proof.
  intros r.
  destruct (manifest_reopen (hw := no_sse42) man_sample more_edits rw_all_ok r.1 400) as [_ (m'' & Ho & Hv)].
  - exact man_sample_reach.
  - edits_valid_compute.
  - discriminate.
  - vm_compute. reflexivity.
  - vm_compute. discriminate.
  - exists m''. split; [exact Ho|]. split; [exact Hv|]. rewrite Hv. vm_compute. reflexivity.
Defined.

(** ** Observations *)

(** A manifest torn inside its last payload does not open at all. *)
Lemma torn_payload_refuses_open :
  exists msg, man_open (hw := no_sse42)
    (Some (take 20 (man_log (hw := no_sse42) sample_edits))) IoOk = Some (Err (Corrupt msg)).
Proof. eexists. vm_compute. reflexivity. Qed.

(** Opening leaves a torn tail in the file: an edit acknowledged after the
    reopen is not found by the next one. *)
Lemma edit_after_torn_tail_lost :
  let torn := take 19 (man_log (hw := no_sse42) [NextFileId 5; NextFileId 7]) in
  match man_open (hw := no_sse42) (Some torn) IoOk with
  | Some (Ok m) =>
      let r := append_batch (hw := no_sse42) m [NextFileId 9] IoOk IoOk rw_all_ok in
      r.2 = Ok tt /\ vs_next_file_id (mf_version_set r.1) = 9 /\
      match man_open (hw := no_sse42) (Some (lf_contents (mf_path r.1))) IoOk with
      | Some (Ok m') => vs_next_file_id (mf_version_set m') = 5
      | _ => False
      end
  | _ => False
  end.
Proof. vm_compute. auto. Qed.

(** An empty dropped prefix is written without complaint and makes the manifest
    unreadable. *)
Lemma empty_prefix_poisons_manifest :
  let r := append_batch (hw := no_sse42) man_empty [DroppedPrefix []] IoOk IoOk rw_all_ok in
  r.2 = Ok tt /\
  exists msg, man_open (hw := no_sse42) (Some (lf_contents (mf_path r.1))) IoOk = Some (Err (Corrupt msg)).
Proof. split; [vm_compute; reflexivity|]. eexists. vm_compute. reflexivity. Qed.
