(* ===== verification/Compaction.v ===== *)
(** * Compaction ([hatp-engine/src/compaction.rs] and the merge of [lib.rs])

    The pickers that choose a compaction job from file metadata, and the merge
    that a job runs: sort the input rows, recompute the visibility intervals
    that were frozen at flush time, and drop the versions no snapshot at or
    after the watermark can see. *)

From Stdlib Require Import Sorting.Permutation.
From stdpp Require Import base tactics list option sorting.
From S2P Require Import Prelude OrdMap Types Version MemTable Codec Manifest.
#[local] Open Scope Z_scope.
#[local] Set Warnings "-clear-no-such-hyp".

(** ** The merge *)

(** [Vec::dedup_by] with a predicate on adjacent elements: the first of each run
    is kept. *)
Fixpoint dedup_after {A} (same : A -> A -> bool) (prev : A) (l : list A) : list A :=
  match l with
  | [] => []
  | x :: r => if same x prev then dedup_after same prev r else x :: dedup_after same x r
  end.

Definition dedup_by {A} (same : A -> A -> bool) (l : list A) : list A :=
  match l with [] => [] | x :: r => x :: dedup_after same x r end.

(** Sort key of the merge: key ascending, then [begin_ts] descending. *)
Definition row_rank (r : VersionedRow) : bytes * Z :=
  (row_key r, - begin_ts (row_version r)).

Definition same_version (l r : VersionedRow) : bool :=
  eqc (row_key l) (row_key r) && (begin_ts (row_version l) =? begin_ts (row_version r)).

Definition set_row_end (r : VersionedRow) (e : TxnTs) : VersionedRow :=
  mkRow (row_key r) (set_end (row_version r) e).

(** The two nested loops over the sorted rows: inside a group ([Some]) the state
    is the group's key and the [begin_ts] of the previous, newer version. *)
Fixpoint merge_loop (group : option (bytes * TxnTs)) (rows : list VersionedRow)
    (watermark : TxnTs) : list VersionedRow :=
  match rows with
  | [] => []
  | row :: rest =>
      let begin := begin_ts (row_version row) in
      let start := set_row_end row OPEN_ENDED_TS
                   :: merge_loop (Some (row_key row, begin)) rest watermark in
      match group with
      | Some (key, prev_begin) =>
          if eqc (row_key row) key then
            let row := set_row_end row prev_begin in
            let tail := merge_loop (Some (key, begin)) rest watermark in
            if watermark <? end_ts (row_version row) then row :: tail else tail
          else start
      | None => start
      end
  end.

Definition dedup_superseded (rows : list VersionedRow) (watermark : TxnTs) : list VersionedRow :=
  let rows := sort_by_key row_rank rows in
  let rows := dedup_by same_version rows in
  merge_loop None rows watermark.

(** [insert_newest] *)
Definition insert_newest (m : omap bytes VersionedValue) (key : bytes) (v : VersionedValue)
  : omap bytes VersionedValue :=
  match om_get key m with
  | Some current => if begin_ts current <? begin_ts v then om_insert key v m else m
  | None => om_insert key v m
  end.

(** [split_by_size] *)
Fixpoint split_loop (vs : VersionSet) (max_bytes : Z) (inputs : list Z)
    (chunks : list (list Z)) (current : list Z) (current_bytes : Z) : list (list Z) :=
  match inputs with
  | [] => match current with [] => chunks | _ => chunks ++ [current] end
  | input :: rest =>
      let nbytes := match file_metadata vs input with Some (_, _, b, _) => b | None => 0 end in
      if (max_bytes <? saturating_add current_bytes nbytes)
         && match current with [] => false | _ => true end
      then split_loop vs max_bytes rest (chunks ++ [current]) [input] (saturating_add 0 nbytes)
      else split_loop vs max_bytes rest chunks (current ++ [input])
             (saturating_add current_bytes nbytes)
  end.

Definition split_by_size (inputs : list Z) (vs : VersionSet) (max_bytes : Z) : list (list Z) :=
  split_loop vs max_bytes inputs [] [] 0.

(** [count_rows_by_prefix] and [prefix_count_delta] *)
Definition count_rows_by_prefix (rows : list VersionedRow) : omap bytes Z :=
  fold_left (fun counts row =>
    om_entry (key_table_prefix (row_key row)) 0 (fun c => saturating_add c 1) counts) rows [].

Definition prefix_count_delta (input output : omap bytes Z) : omap bytes Z :=
  let keys := fold_left (fun s k => os_insert k s) (om_keys input ++ om_keys output) [] in
  fold_left (fun delta key =>
    let change := default 0 (om_get key output) - default 0 (om_get key input) in
    if change =? 0 then delta else om_insert key change delta) (om_keys keys) [].

(** *** What the merge keeps *)

Lemma dedup_after_In {A} (same : A -> A -> bool) p l x :
  In x (dedup_after same p l) -> In x l.
Proof.
  revert p. induction l as [|y r IH]; intros p; cbn; [done|].
  destruct (same y p); cbn; [eauto|]. intros [->|?]; eauto.
Qed.

Lemma dedup_by_In {A} (same : A -> A -> bool) l x : In x (dedup_by same l) -> In x l.
Proof.
  destruct l as [|y r]; cbn; [done|]. intros [->|?%dedup_after_In]; auto.
Qed.

Section Dedup.
Context {A K : Type} `{TotalCmp K} (key : A -> K) (same : A -> A -> bool).
Hypothesis same_key : forall a b, same a b = true <-> key a = key b.

Definition by_key_lt (a b : A) : Prop := clt (key a) (key b).

Lemma dedup_after_rep p l x :
  In x l -> key x = key p \/ exists y, In y (dedup_after same p l) /\ key y = key x.
Proof.
  revert p. induction l as [|y r IH]; intros p; cbn; [done|].
  destruct (same y p) eqn:E.
  - apply same_key in E. intros [->|Hin]; [by left|]. by apply IH.
  - intros [->|Hin]; [right; exists x; split; [by left|done]|].
    right. destruct (IH y Hin) as [Hy|(z & Hz & Hk)].
    + exists y. split; [by left|done].
    + exists z. split; [by right|done].
Qed.

Lemma dedup_by_rep l x : In x l -> exists y, In y (dedup_by same l) /\ key y = key x.
Proof.
  destruct l as [|y r]; [done|]. intros [->|Hin].
  - exists x. split; [by left|done].
  - destruct (dedup_after_rep y r x Hin) as [Hy|(z & Hz & Hk)].
    + exists y. split; [by left|done].
    + exists z. split; [by right|done].
Qed.

Lemma dedup_after_sorted p l :
  StronglySorted (by_key_le key) (p :: l) ->
  StronglySorted by_key_lt (p :: dedup_after same p l).
Proof.
  revert p. induction l as [|y r IH]; intros p Hs; cbn; [repeat constructor|].
  apply StronglySorted_inv in Hs as [Hs Hall]. apply Forall_cons in Hall as [Hpy Hall].
  destruct (same y p) eqn:E.
  - apply IH. constructor; [by apply StronglySorted_inv in Hs as [? _]|done].
  - assert (Hlt : clt (key p) (key y)).
    { apply cle_lt_eq in Hpy as [?|Heq]; [done|]. symmetry in Heq. apply same_key in Heq. congruence. }
    pose proof (IH y Hs) as IHy. apply StronglySorted_inv in Hs as [_ Hy].
    constructor; [done|]. constructor; [done|]. apply List.Forall_forall.
    intros z Hz%dedup_after_In. rewrite List.Forall_forall in Hy. apply Hy in Hz.
    by apply (clt_le_trans _ (key y)).
Qed.

Lemma dedup_by_sorted l :
  StronglySorted (by_key_le key) l -> StronglySorted by_key_lt (dedup_by same l).
Proof. destruct l; [constructor|]. apply dedup_after_sorted. Qed.
End Dedup.

Lemma same_version_rank a b : same_version a b = true <-> row_rank a = row_rank b.
Proof.
  unfold same_version, row_rank. rewrite andb_true_iff, eqc_spec, Z.eqb_eq. split.
  - intros [-> ->]. done.
  - intros [= -> ?]. split; [done|lia].
Qed.

(** The rows the loops run on. *)
Definition merge_input (rows : list VersionedRow) : list VersionedRow :=
  dedup_by same_version (sort_by_key row_rank rows).

Definition row_lt : VersionedRow -> VersionedRow -> Prop := by_key_lt row_rank.

Lemma merge_input_sorted rows : StronglySorted row_lt (merge_input rows).
Proof. apply dedup_by_sorted; [apply same_version_rank|]. apply sort_by_key_sorted. Qed.

Lemma merge_input_In rows r : In r (merge_input rows) -> In r rows.
Proof. intros Hin%dedup_by_In. by rewrite <- sort_by_key_perm in Hin. Qed.

Lemma merge_input_rep rows r :
  In r rows -> exists r0, In r0 (merge_input rows) /\ row_rank r0 = row_rank r.
Proof.
  intros Hin. apply (dedup_by_rep row_rank); [apply same_version_rank|].
  by rewrite <- sort_by_key_perm.
Qed.

Lemma row_lt_spec a b :
  row_lt a b <-> clt (row_key a) (row_key b) \/
    row_key a = row_key b /\ begin_ts (row_version b) < begin_ts (row_version a).
Proof.
  unfold row_lt, by_key_lt, row_rank. rewrite clt_pair. cbn. rewrite clt_Z.
  split; intros [?|[? ?]]; auto; right; split; auto; lia.
Qed.

Lemma StronglySorted_split {A} (R : A -> A -> Prop) pre x post :
  StronglySorted R (pre ++ x :: post) ->
  Forall (fun y => R y x) pre /\ Forall (R x) post.
Proof.
  induction pre as [|y pre IH]; cbn; intros [Hs Hall]%StronglySorted_inv.
  - split; [constructor|done].
  - destruct (IH Hs) as [? ?]. split; [|done]. constructor; [|done].
    rewrite Forall_app, Forall_cons in Hall. tauto.
Qed.

(** The group state after the rows [pre]. *)
Definition group_after (g : option (bytes * TxnTs)) (pre : list VersionedRow)
  : option (bytes * TxnTs) :=
  match last pre with
  | Some p => Some (row_key p, begin_ts (row_version p))
  | None => g
  end.

Lemma group_after_cons g x pre :
  group_after g (x :: pre) = group_after (Some (row_key x, begin_ts (row_version x))) pre.
Proof. unfold group_after. rewrite last_cons. by destruct (last pre). Qed.

(** The row emitted for [r] after group state [g], if any. *)
Definition emits (g : option (bytes * TxnTs)) (w : TxnTs) (r r' : VersionedRow) : Prop :=
  match g with
  | Some (k, b) => if eqc (row_key r) k then w < b /\ r' = set_row_end r b
                   else r' = set_row_end r OPEN_ENDED_TS
  | None => r' = set_row_end r OPEN_ENDED_TS
  end.

Lemma merge_loop_cons g r l w r' :
  In r' (merge_loop g (r :: l) w) <->
  emits g w r r' \/ In r' (merge_loop (Some (row_key r, begin_ts (row_version r))) l w).
Proof.
  cbn. destruct g as [[k b]|]; cbn; [|naive_solver].
  destruct (eqc (row_key r) k) eqn:E; [|cbn; naive_solver].
  apply eqc_spec in E as ->. destruct (Z.ltb_spec w b); cbn; [naive_solver|].
  split; [by right|]. intros [[? _]|?]; [lia|done].
Qed.

Lemma merge_loop_In g l w r' :
  In r' (merge_loop g l w) <->
  exists pre r post, l = pre ++ r :: post /\ emits (group_after g pre) w r r'.
Proof.
  revert g. induction l as [|r l IH]; intros g.
  - cbn. split; [done|]. intros (pre & r & post & Hl & _). by destruct pre.
  - rewrite merge_loop_cons, IH. split.
    + intros [He|(pre & r0 & post & -> & He)].
      * by exists [], r, l.
      * exists (r :: pre), r0, post. split; [done|]. by rewrite group_after_cons.
    + intros ([|x pre] & r0 & post & [= -> ->] & He); [by left|].
      right. exists pre, r0, post. split; [done|]. by rewrite group_after_cons in He.
Qed.

(** The newest version of [k] not after [s] among [rows]. *)
Definition newest_in (rows : list VersionedRow) (k : bytes) (s : TxnTs) (r : VersionedRow) : Prop :=
  In r rows /\ row_key r = k /\ begin_ts (row_version r) <= s /\
  forall r2, In r2 rows -> row_key r2 = k -> begin_ts (row_version r2) <= s ->
             begin_ts (row_version r2) <= begin_ts (row_version r).

(** A newer version of the same key is before [r]; the last of them is the one
    the group state remembers. *)
Lemma newer_before pre r post r2 :
  StronglySorted row_lt (pre ++ r :: post) ->
  In r2 (pre ++ r :: post) -> row_key r2 = row_key r ->
  begin_ts (row_version r) < begin_ts (row_version r2) ->
  exists p, last pre = Some p /\ row_key p = row_key r /\
            begin_ts (row_version p) <= begin_ts (row_version r2).
Proof.
  intros Hs Hin Hk Hb. pose proof (StronglySorted_split _ _ _ _ Hs) as [Hpre Hpost].
  rewrite List.Forall_forall in Hpre, Hpost.
  assert (Hinp : In r2 pre).
  { apply in_app_iff in Hin as [?|[<-|Hin]]; [done|lia|].
    apply Hpost, row_lt_spec in Hin as [Hc|[_ Hc]]; [|lia].
    rewrite Hk in Hc. by apply clt_irrefl in Hc. }
  destruct pre as [|p0 pre0] using rev_ind; [done|]. clear IHpre0.
  exists p0. split; [by rewrite last_snoc|].
  assert (Hp : row_lt p0 r) by (apply Hpre, in_app_iff; right; by left).
  apply in_app_iff in Hinp as [Hinp|[<-|[]]]; [|split; [done|lia]].
  rewrite <- app_assoc in Hs. cbn in Hs.
  apply StronglySorted_split in Hs as [Hpre0 _]. rewrite List.Forall_forall in Hpre0.
  apply Hpre0, row_lt_spec in Hinp. apply row_lt_spec in Hp. rewrite Hk in Hinp.
  destruct Hinp as [Hc|[Hc Hb']], Hp as [Hc'|[Hc' Hb'']].
  - exfalso. by apply (clt_asym _ _ Hc).
  - rewrite Hc' in Hc. by apply clt_irrefl in Hc.
  - rewrite Hc in Hc'. by apply clt_irrefl in Hc'.
  - split; [done|lia].
Qed.

Section Merge.
Variables (l : list VersionedRow) (w s : TxnTs) (k : bytes).
Hypothesis Hsorted : StronglySorted row_lt l.
Hypothesis Hw : w <= s.
Hypothesis Hs : s < OPEN_ENDED_TS.

Lemma merge_visible_newest r' :
  In r' (merge_loop None l w) -> row_key r' = k -> visible_at (row_version r') s = true ->
  exists r, newest_in l k s r /\ exists e, r' = set_row_end r e.
Proof.
  intros (pre & r & post & -> & He)%merge_loop_In Hk Hv. exists r.
  assert (Hr' : exists e, r' = set_row_end r e)
    by (unfold emits in He; destruct (group_after None pre) as [[? ?]|];
        [destruct (eqc _ _)|]; naive_solver).
  split; [|done]. destruct Hr' as [e ->]. cbn in Hk.
  unfold visible_at in Hv. apply andb_true_iff in Hv as [Hb Hend]. cbn in Hb, Hend. zbool.
  split; [apply in_app_iff; right; by left|]. split; [done|]. split; [done|].
  intros r2 Hin2 Hk2 Hs2. apply Z.nlt_ge. intros Hlt.
  destruct (newer_before pre r post r2 Hsorted Hin2) as (p & Hp & Hkp & Hbp); [congruence|done|].
  unfold emits, group_after in He. rewrite Hp, Hkp, eqc_refl in He. destruct He as [_ [= ->]]. lia.
Qed.

Lemma merge_newest_visible r :
  newest_in l k s r ->
  exists e, In (set_row_end r e) (merge_loop None l w) /\
            visible_at (row_version (set_row_end r e)) s = true.
Proof.
  intros (Hin & Hk & Hb & Hnew). apply in_split in Hin as (pre & post & Hl).
  assert (Hvis : forall e, s < e -> visible_at (row_version (set_row_end r e)) s = true).
  { intros e He. unfold visible_at. cbn. apply andb_true_iff. split; [by apply Z.leb_le|by apply Z.ltb_lt]. }
  assert (Hout : forall e, emits (group_after None pre) w r (set_row_end r e) ->
                           In (set_row_end r e) (merge_loop None l w))
    by (intros e He; apply merge_loop_In; by exists pre, r, post).
  destruct (group_after None pre) as [[kp bp]|] eqn:Eg; [|exists OPEN_ENDED_TS; split; [by apply Hout|auto]].
  destruct (eqc (row_key r) kp) eqn:Ek.
  - exists bp. assert (Hbp : s < bp).
    { unfold group_after in Eg. destruct (last pre) as [p|] eqn:Elast; [|done].
      injection Eg as <- <-. cbool.
      apply last_Some in Elast as [pre0 ->].
      assert (Hinp : In p l) by (rewrite Hl; rewrite !in_app_iff; left; right; by left).
      assert (Hlt : row_lt p r).
      { rewrite Hl, <- app_assoc in Hsorted. cbn in Hsorted.
        apply StronglySorted_split in Hsorted as [_ Hp]. by apply Forall_cons in Hp as [? _]. }
      apply row_lt_spec in Hlt as [Hlt|[_ Hlt]]; [rewrite Ek in Hlt; by apply clt_irrefl in Hlt|].
      apply Z.nle_gt. intros Hle. specialize (Hnew p Hinp ltac:(congruence) Hle). lia. }
    split; [|auto]. apply Hout. cbn. rewrite Ek. split; [lia|done].
  - exists OPEN_ENDED_TS. split; [|auto]. apply Hout. cbn. by rewrite Ek.
Qed.
End Merge.

(** Copies of one version in several files agree on everything but [end_ts]. *)
Definition versions_agree (rows : list VersionedRow) : Prop :=
  forall r1 r2, In r1 rows -> In r2 rows -> row_rank r1 = row_rank r2 ->
                set_row_end r1 0 = set_row_end r2 0.

Lemma set_row_end_eq r1 r2 e : set_row_end r1 0 = set_row_end r2 0 -> set_row_end r1 e = set_row_end r2 e.
Proof.
  destruct r1 as [k1 [v1 b1 e1 t1]], r2 as [k2 [v2 b2 e2 t2]]. cbn. unfold set_row_end, set_end. cbn.
  congruence.
Qed.

Lemma newest_in_input rows k s r :
  versions_agree rows -> newest_in (merge_input rows) k s r -> newest_in rows k s r.
Proof.
  intros Hag (Hin & Hk & Hb & Hnew). split; [by apply merge_input_In|]. split; [done|]. split; [done|].
  intros r2 Hin2 Hk2 Hs2. destruct (merge_input_rep rows r2 Hin2) as (r3 & Hin3 & Hr).
  unfold row_rank in Hr. injection Hr as Hrk Hrb.
  specialize (Hnew r3 Hin3 ltac:(congruence) ltac:(lia)). lia.
Qed.

Lemma newest_in_merge rows k s r :
  versions_agree rows -> newest_in rows k s r ->
  exists r0, newest_in (merge_input rows) k s r0 /\ forall e, set_row_end r0 e = set_row_end r e.
Proof.
  intros Hag (Hin & Hk & Hb & Hnew). destruct (merge_input_rep rows r Hin) as (r0 & Hin0 & Hr).
  exists r0. split.
  - unfold row_rank in Hr. injection Hr as Hrk Hrb.
    split; [done|]. split; [congruence|]. split; [lia|].
    intros r2 Hin2%merge_input_In Hk2 Hs2. specialize (Hnew r2 Hin2 Hk2 Hs2). lia.
  - intros e. apply set_row_end_eq, Hag; [by apply merge_input_In|done..].
Qed.

Lemma newest_in_unique l k s r1 r2 :
  StronglySorted row_lt l -> newest_in l k s r1 -> newest_in l k s r2 -> r1 = r2.
Proof.
  intros Hs (Hin1 & Hk1 & Hb1 & Hn1) (Hin2 & Hk2 & Hb2 & Hn2).
  specialize (Hn1 r2 Hin2 Hk2 Hb2). specialize (Hn2 r1 Hin1 Hk1 Hb1).
  apply in_split in Hin1 as (pre & post & ->).
  pose proof (StronglySorted_split _ _ _ _ Hs) as [Hpre Hpost].
  rewrite List.Forall_forall in Hpre, Hpost.
  apply in_app_iff in Hin2 as [Hin2|[->|Hin2]]; [exfalso|done|exfalso].
  - apply Hpre, row_lt_spec in Hin2 as [Hc|[_ ?]]; [|lia]. rewrite Hk1, Hk2 in Hc. by apply clt_irrefl in Hc.
  - apply Hpost, row_lt_spec in Hin2 as [Hc|[_ ?]]; [|lia]. rewrite Hk1, Hk2 in Hc. by apply clt_irrefl in Hc.
Qed.

Lemma merge_sorted g l w :
  StronglySorted row_lt l -> StronglySorted row_lt (merge_loop g l w) /\
  forall r', In r' (merge_loop g l w) -> exists r e, In r l /\ r' = set_row_end r e.
Proof.
  intros Hs. revert g. induction Hs as [|r l Hs IH Hall]; intros g; [split; [constructor|done]|].
  destruct (IH (Some (row_key r, begin_ts (row_version r)))) as [IHs IHin].
  assert (Hin : forall r', In r' (merge_loop g (r :: l) w) -> exists r0 e, In r0 (r :: l) /\ r' = set_row_end r0 e).
  { intros r' [He|Hr]%merge_loop_cons.
    - unfold emits in He. destruct g as [[k b]|]; [destruct (eqc _ _); [destruct He as [_ He]|]|]; subst;
        exists r; eexists; (split; [by left|done]).
    - apply IHin in Hr as (r0 & e & ? & ->). exists r0, e. split; [by right|done]. }
  split; [|done].
  assert (Hlt : forall e, Forall (row_lt (set_row_end r e))
            (merge_loop (Some (row_key r, begin_ts (row_version r))) l w)).
  { intros e. apply List.Forall_forall. intros x Hx. apply IHin in Hx as (r0 & e' & Hr0 & ->).
    rewrite List.Forall_forall in Hall. by apply Hall in Hr0. }
  cbn. destruct g as [[k b]|]; [|by constructor].
  destruct (eqc (row_key r) k) eqn:E; [|by constructor]. apply eqc_spec in E. subst k.
  destruct (_ <? _); [by constructor|done].
Qed.

Lemma merge_keeps_only_visible g l w r' :
  w < OPEN_ENDED_TS -> In r' (merge_loop g l w) -> w < end_ts (row_version r').
Proof.
  intros Hw (pre & r & post & _ & He)%merge_loop_In. unfold emits in He.
  destruct (group_after g pre) as [[k b]|]; [destruct (eqc _ _)|].
  - by destruct He as [? ->].
  - by subst.
  - by subst.
Qed.

(** C12: compaction is invisible.  Merging any rows (in any order, with repeated
    copies of a version and with end timestamps frozen before later writes) and
    reading the result at any snapshot at or after the watermark finds, for
    every key, exactly the newest version not after the snapshot among all the
    inputs, and at most one; the output is strictly sorted (key ascending,
    newest first), and every row it keeps can still be seen by some snapshot
    after the watermark, so superseded versions are really dropped. *)
Theorem compaction_merge_exact (rows : list VersionedRow) (w s : TxnTs) (k : bytes) :
  versions_agree rows -> w <= s -> s < OPEN_ENDED_TS ->
  let out := dedup_superseded rows w in
  (forall r, newest_in rows k s r ->
     exists e, In (set_row_end r e) out /\ visible_at (row_version (set_row_end r e)) s = true) /\
  (forall r', In r' out -> row_key r' = k -> visible_at (row_version r') s = true ->
     exists r e, newest_in rows k s r /\ r' = set_row_end r e) /\
  (forall r1 r2, In r1 out -> In r2 out -> row_key r1 = k -> row_key r2 = k ->
     visible_at (row_version r1) s = true -> visible_at (row_version r2) s = true ->
     set_row_end r1 0 = set_row_end r2 0) /\
  StronglySorted row_lt out /\
  Forall (fun r' => w < end_ts (row_version r')) out.
Proof.
  intros Hag Hw Hs out. pose proof (merge_input_sorted rows) as Hsort.
  pose proof (merge_visible_newest (merge_input rows) w s k Hsort) as Hvis.
  split; [|split; [|split; [|split]]].
  - intros r (r0 & Hn & He)%newest_in_merge; [|done].
    destruct (merge_newest_visible (merge_input rows) w s k Hsort Hw Hs r0 Hn) as (e & Hin & Hv).
    exists e. rewrite <- He. done.
  - intros r' Hin Hk Hv. destruct (Hvis r' Hin Hk Hv) as (r & Hn & e & ->).
    exists r, e. split; [by apply newest_in_input|done].
  - intros r1 r2 Hin1 Hin2 Hk1 Hk2 Hv1 Hv2.
    destruct (Hvis r1 Hin1 Hk1 Hv1) as (q1 & Hn1 & e1 & ->).
    destruct (Hvis r2 Hin2 Hk2 Hv2) as (q2 & Hn2 & e2 & ->).
    by rewrite (newest_in_unique _ _ _ q1 q2 Hsort Hn1 Hn2).
  - by apply merge_sorted.
  - apply List.Forall_forall. intros r' Hin. apply merge_keeps_only_visible in Hin; [done|lia].
Qed.

(** ** Pickers *)

Inductive CompactionPolicy := Leveled | LazyLeveling | Tiered.

Inductive CompactionLayout := LayoutLeveled | LayoutLazyLeveling | LayoutTiered.

Inductive CompactionKind := KFlush | L0ToL1 | LevelNToN1 | BottomMost.

Record FileMeta := mkMeta {
  fm_file_id : Z;
  fm_level : Z;
  fm_bytes : Z;
  fm_min_key : bytes;
  fm_max_key : bytes;
  fm_created_at : Z;
}.

Definition overlaps (f other : FileMeta) : bool :=
  lec (fm_min_key f) (fm_max_key other) && lec (fm_min_key other) (fm_max_key f).

Record CompactionJob := mkJob {
  job_kind : CompactionKind;
  job_source_level : Z;
  job_target_level : Z;
  job_inputs : list Z;
  job_estimated_bytes : Z;
  job_priority : Z;
}.

(** [Ord for CompactionJob] *)
Definition job_cmp (a b : CompactionJob) : comparison :=
  match job_priority a ?= job_priority b with
  | Eq => match job_estimated_bytes b ?= job_estimated_bytes a with
          | Eq => job_source_level b ?= job_source_level a
          | c => c
          end
  | c => c
  end.

Record MinOverlappingRatioPicker := mkPicker {
  l0_trigger : Z;
  max_level : Z;
  policy : CompactionPolicy;
}.

Definition picker_default : MinOverlappingRatioPicker := mkPicker 4 6 LazyLeveling.

Definition picker_layout (p : MinOverlappingRatioPicker) (level : Z) : CompactionLayout :=
  if level =? 0 then LayoutTiered
  else match policy p with
       | Leveled => LayoutLeveled
       | LazyLeveling => LayoutLazyLeveling
       | Tiered => LayoutTiered
       end.

Definition level_capacity (level : Z) (p : CompactionPolicy) : Z :=
  match p with
  | Leveled => 1
  | LazyLeveling => if level <=? 2 then 4 else 1
  | Tiered => 4
  end.

(** [u32::saturating_add] *)
Definition sat_add32 (a b : Z) : Z := Z.min (a + b) u32_max.

Definition sum_bytes (init : Z) (files : list FileMeta) : Z :=
  fold_left (fun total file => saturating_add total (fm_bytes file)) files init.

(** The bytes of the target files a candidate overlaps. *)
Definition overlap_bytes (candidate : FileMeta) (target : option (list FileMeta)) : Z :=
  match target with
  | Some files => sum_bytes 0 (List.filter (overlaps candidate) files)
  | None => 0
  end.

Definition overlap_ratio (candidate : FileMeta) (target : option (list FileMeta)) : Z :=
  saturating_mul (overlap_bytes candidate target) 1000 / Z.max (fm_bytes candidate) 1.

Definition overlap_priority (candidate : FileMeta) (target : option (list FileMeta)) : Z :=
  saturating_sub u64_max (overlap_bytes candidate target).

(** [Iterator::min_by] on a sort key: the first minimum. *)
Fixpoint min_by {A K} `{TotalCmp K} (key : A -> K) (l : list A) : option A :=
  match l with
  | [] => None
  | x :: r => match min_by key r with
              | Some y => if lec (key x) (key y) then Some x else Some y
              | None => Some x
              end
  end.

Definition choose_min_overlap (source : list FileMeta) (target : option (list FileMeta))
  : option FileMeta :=
  min_by (fun f => (overlap_ratio f target, fm_created_at f)) source.

(** [Iterator::min] and [max] on keys. *)
Fixpoint min_bytes (l : list bytes) : option bytes :=
  match l with
  | [] => None
  | x :: r => match min_bytes r with
              | Some y => Some (if lec x y then x else y)
              | None => Some x
              end
  end.

Fixpoint max_bytes (l : list bytes) : option bytes :=
  match l with
  | [] => None
  | x :: r => match max_bytes r with
              | Some y => Some (if ltc y x then x else y)
              | None => Some x
              end
  end.

Definition build_l0_job (l0 : list FileMeta) (l1 : option (list FileMeta)) : option CompactionJob :=
  min_key ← min_bytes (map fm_min_key l0);
  max_key ← max_bytes (map fm_max_key l0);
  let touched := List.filter (fun file => lec (fm_min_key file) max_key && lec min_key (fm_max_key file))
                   (default [] l1) in
  Some (mkJob L0ToL1 0 1
    (sort_by_key id (map fm_file_id l0 ++ map fm_file_id touched))
    (sum_bytes (sum_bytes 0 l0) touched)
    (Z.min (Z.of_nat (length l0)) u64_max)).

(** Files grouped by level, in the order given. *)
Definition group_levels (files : list FileMeta) : omap Z (list FileMeta) :=
  fold_left (fun levels file => om_entry (fm_level file) [] (fun v => v ++ [file]) levels) files [].

(** The job that moves [candidate] one level down. *)
Definition level_job (p : MinOverlappingRatioPicker) (level : Z) (candidate : FileMeta)
    (target : option (list FileMeta)) : CompactionJob :=
  let touched := List.filter (overlaps candidate) (default [] target) in
  mkJob (if max_level p <=? sat_add32 level 1 then BottomMost else LevelNToN1)
    level (sat_add32 level 1)
    (sort_by_key id (fm_file_id candidate :: map fm_file_id touched))
    (sum_bytes (fm_bytes candidate) touched)
    (overlap_priority candidate target).

(** The loop over the levels [1..max_level]. *)
Fixpoint pick_levels (p : MinOverlappingRatioPicker) (levels : omap Z (list FileMeta))
    (ls : list Z) : option CompactionJob :=
  match ls with
  | [] => None
  | level :: rest =>
      match om_get level levels with
      | Some source =>
          if level_capacity level (policy p) <? Z.of_nat (length source) then
            let target := om_get (sat_add32 level 1) levels in
            match choose_min_overlap source target with
            | Some candidate => Some (level_job p level candidate target)
            | None => pick_levels p levels rest
            end
          else pick_levels p levels rest
      | None => pick_levels p levels rest
      end
  end.

Definition level_range (max : Z) : list Z := map Z.of_nat (seq 1 (Z.to_nat max - 1)).

Definition pick_inner (p : MinOverlappingRatioPicker) (files : list FileMeta) : option CompactionJob :=
  let levels := group_levels files in
  let l0 := default [] (om_get 0 levels) in
  if l0_trigger p <=? Z.of_nat (length l0) then build_l0_job l0 (om_get 1 levels)
  else pick_levels p levels (level_range (max_level p)).

Record TieredPicker := mkTiered {
  t_l0_trigger : Z;
  leveled_from_level : Z;
  t_max_level : Z;
}.

Definition tiered_default : TieredPicker := mkTiered 4 2 6.

Definition tiered_pick (t : TieredPicker) (files : list FileMeta) : option CompactionJob :=
  pick_inner (mkPicker (t_l0_trigger t) (t_max_level t) Tiered) files.

Definition tiered_layout (t : TieredPicker) (level : Z) : CompactionLayout :=
  if (level =? 0) || (level <? leveled_from_level t) then LayoutTiered else LayoutLeveled.

(** The [CompactionPicker] trait: [pick] and [layout] ([update_from_workload] is
    a no-op in both implementations). *)
Class CompactionPicker (P : Type) := {
  pick : P -> list FileMeta -> option CompactionJob;
  layout : P -> Z -> CompactionLayout;
}.
#[global] Instance min_overlap_picker : CompactionPicker MinOverlappingRatioPicker :=
  {| pick := pick_inner; layout := picker_layout |}.
#[global] Instance tiered_picker : CompactionPicker TieredPicker :=
  {| pick := tiered_pick; layout := tiered_layout |}.

(** [Engine::compaction_inputs]: every file of both levels. *)
Definition compaction_inputs (vs : VersionSet) (source_level target_level : Z) : list Z :=
  dedup_by Z.eqb (sort_by_key id (vs_files vs source_level ++ vs_files vs target_level)).

(** The metadata [run_compaction_iteration] hands to the picker.  [sst_meta] is
    the fallback for a file the manifest has no metadata for: key bounds and size
    read from the SST itself. *)
Definition collect_files (sst_meta : Z -> bytes * bytes * Z) (vs : VersionSet) : list FileMeta :=
  map (fun '(file_id, level) =>
         let '(min_key, max_key, nbytes, created_at) :=
           match file_metadata vs file_id with
           | Some m => m
           | None => let '(mn, mx, sz) := sst_meta file_id in (mn, mx, sz, 0)
           end in
         mkMeta file_id level nbytes min_key max_key created_at)
      (level_pairs (vs_levels vs)).

(** *** What a picked job guarantees *)

(** Merging the job's inputs leaves no overlapping pair behind: every file of the
    target level that overlaps a chosen source file is chosen too, and a job
    from level 0 takes all of it. *)
Record job_sound (files : list FileMeta) (job : CompactionJob) : Prop := {
  js_target : job_target_level job = sat_add32 (job_source_level job) 1;
  js_sorted : StronglySorted Z.le (job_inputs job);
  js_known : forall i, In i (job_inputs job) -> exists f, In f files /\ fm_file_id f = i /\
               (fm_level f = job_source_level job \/ fm_level f = job_target_level job);
  js_source : exists f, In f files /\ fm_level f = job_source_level job /\
                        In (fm_file_id f) (job_inputs job);
  js_closed : forall f g, In f files -> In g files ->
                fm_level f = job_source_level job -> In (fm_file_id f) (job_inputs job) ->
                fm_level g = job_target_level job -> overlaps f g = true ->
                In (fm_file_id g) (job_inputs job);
  js_l0 : job_source_level job = 0 -> forall f, In f files -> fm_level f = 0 ->
                In (fm_file_id f) (job_inputs job);
}.

(** The contract of the trait. *)
Class PickerLaws (P : Type) `{CompactionPicker P} := {
  picker_ok : P -> Prop;
  pick_sound : forall p files job,
    picker_ok p -> NoDup (map fm_file_id files) ->
    pick p files = Some job -> job_sound files job;
}.

Definition level_files (files : list FileMeta) (l : Z) : list FileMeta :=
  List.filter (fun f => fm_level f =? l) files.

Lemma level_files_In files l f : In f (level_files files l) <-> In f files /\ fm_level f = l.
Proof. unfold level_files. by rewrite filter_In, Z.eqb_eq. Qed.

Lemma group_levels_acc files l acc :
  om_get l (fold_left (fun levels file => om_entry (fm_level file) [] (fun v => v ++ [file]) levels)
              files acc) =
  match om_get l acc, level_files files l with
  | Some v, fs => Some (v ++ fs)
  | None, [] => None
  | None, fs => Some fs
  end.
Proof.
  revert acc. induction files as [|f files IH]; intros acc; cbn [fold_left].
  - cbn. destruct (om_get l acc); [by rewrite app_nil_r|done].
  - rewrite IH, om_get_entry. unfold level_files. cbn [List.filter].
    rewrite (Z.eqb_sym (fm_level f) l). change (eqc l (fm_level f)) with (eqc l (fm_level f)).
    destruct (eqc l (fm_level f)) eqn:E; cbool.
    + subst l. rewrite Z.eqb_refl. destruct (om_get (fm_level f) acc) as [v|]; cbn; [|done].
      by rewrite <- app_assoc.
    + by rewrite (proj2 (Z.eqb_neq _ _)).
Qed.

Lemma group_levels_get files l :
  om_get l (group_levels files) =
  match level_files files l with [] => None | fs => Some fs end.
Proof. unfold group_levels. by rewrite group_levels_acc. Qed.

Lemma group_levels_default files l : default [] (om_get l (group_levels files)) = level_files files l.
Proof. rewrite group_levels_get. by destruct (level_files files l). Qed.

Lemma min_by_spec {A K} `{TotalCmp K} (key : A -> K) l x :
  min_by key l = Some x -> In x l /\ forall y, In y l -> cle (key x) (key y).
Proof.
  revert x. induction l as [|a r IH]; intros x; cbn; [done|].
  destruct (min_by key r) as [b|] eqn:E.
  - destruct (IH b eq_refl) as [Hin Hle]. destruct (lec (key a) (key b)) eqn:El; cbool; intros [= <-].
    + split; [by left|]. intros y [<-|Hy]; [apply cle_refl|]. apply (cle_trans _ (key b)); auto.
    + split; [by right|]. intros y [<-|Hy]; [by apply clt_le|auto].
  - intros [= <-]. destruct r; [|cbn in E; destruct (min_by key r); [destruct (lec _ _)|]; done].
    split; [by left|]. intros y [<-|[]]. apply cle_refl.
Qed.

Lemma min_by_None {A K} `{TotalCmp K} (key : A -> K) l : min_by key l = None -> l = [].
Proof.
  destruct l as [|a r]; [done|]. cbn. destruct (min_by key r); [destruct (lec _ _)|]; done.
Qed.

Lemma min_bytes_le l x : In x l -> exists m, min_bytes l = Some m /\ cle m x.
Proof.
  induction l as [|a r IH]; [done|]. cbn. intros [->|Hin].
  - destruct (min_bytes r) as [m|]; [|exists x; split; [done|apply cle_refl]].
    destruct (lec x m) eqn:E; cbool; eexists; (split; [done|]); [apply cle_refl|by apply clt_le].
  - destruct (IH Hin) as (m & -> & Hle). destruct (lec a m) eqn:E; cbool; eexists; (split; [done|]);
      [by apply (cle_trans _ m)|done].
Qed.

Lemma max_bytes_ge l x : In x l -> exists m, max_bytes l = Some m /\ cle x m.
Proof.
  induction l as [|a r IH]; [done|]. cbn. intros [->|Hin].
  - destruct (max_bytes r) as [m|]; [|exists x; split; [done|apply cle_refl]].
    destruct (ltc m x) eqn:E; cbool; eexists; (split; [done|]); [apply cle_refl|done].
  - destruct (IH Hin) as (m & -> & Hle). destruct (ltc m a) eqn:E; cbool; eexists; (split; [done|]);
      [by apply (cle_trans _ m), clt_le|done].
Qed.

Lemma sort_ids_In (l : list Z) i : In i (sort_by_key id l) <-> In i l.
Proof. by rewrite <- sort_by_key_perm. Qed.

Lemma sort_ids_sorted (l : list Z) : StronglySorted Z.le (sort_by_key id l).
Proof. exact (sort_by_key_sorted id l). Qed.

Lemma fm_id_inj files f g :
  NoDup (map fm_file_id files) -> In f files -> In g files -> fm_file_id f = fm_file_id g -> f = g.
Proof.
  induction files as [|h files IH]; [done|]. cbn. intros [Hni Hnd]%NoDup_cons [->|Hf] [->|Hg] He; auto.
  - destruct Hni. rewrite He. by apply list_elem_of_In, in_map.
  - destruct Hni. rewrite <- He. by apply list_elem_of_In, in_map.
Qed.

Lemma build_l0_job_sound files job :
  NoDup (map fm_file_id files) ->
  build_l0_job (level_files files 0) (om_get 1 (group_levels files)) = Some job ->
  job_sound files job.
Proof.
  intros Hnd. unfold build_l0_job. rewrite group_levels_default.
  destruct (min_bytes _) as [mn|] eqn:Emn; cbn; [|done].
  destruct (max_bytes _) as [mx|] eqn:Emx; cbn; [|done]. intros [= <-].
  assert (Hbound : forall f, In f files -> fm_level f = 0 -> cle mn (fm_min_key f) /\ cle (fm_max_key f) mx).
  { intros f Hf Hl. assert (Hin : In f (level_files files 0)) by (by apply level_files_In).
    destruct (min_bytes_le (map fm_min_key (level_files files 0)) (fm_min_key f)) as (m & Hm & Hle);
      [by apply in_map|].
    destruct (max_bytes_ge (map fm_max_key (level_files files 0)) (fm_max_key f)) as (m' & Hm' & Hle');
      [by apply in_map|]. split; congruence. }
  assert (Hl0 : forall f, In f files -> fm_level f = 0 -> In f (level_files files 0))
    by (intros; by apply level_files_In).
  split; cbn [job_inputs job_source_level job_target_level].
  - done.
  - apply sort_ids_sorted.
  - intros i. rewrite sort_ids_In, in_app_iff, !in_map_iff.
    intros [(f & <- & [? ?]%level_files_In)|(f & <- & [[? ?]%level_files_In _]%filter_In)]; eauto.
  - destruct (level_files files 0) as [|f r] eqn:E; [done|]. exists f.
    assert (Hf : In f (level_files files 0)) by (rewrite E; by left).
    apply level_files_In in Hf as [? ?]. split; [done|]. split; [done|].
    apply sort_ids_In, in_app_iff. left. by left.
  - intros f g Hf Hg Hfl _ Hgl [H1%lec_spec H2%lec_spec]%andb_true_iff.
    destruct (Hbound f Hf Hfl) as [Hmn Hmx].
    apply sort_ids_In, in_app_iff. right. apply in_map, filter_In. split; [by apply level_files_In|].
    apply andb_true_iff. rewrite !lec_spec. split.
    + by apply (cle_trans _ (fm_max_key f)).
    + by apply (cle_trans _ (fm_min_key f)).
  - intros _ f Hf Hfl. apply sort_ids_In, in_app_iff. left. apply in_map. auto.
Qed.

Lemma level_job_sound p files level c :
  NoDup (map fm_file_id files) -> 1 <= level < u32_max ->
  In c (level_files files level) ->
  job_sound files (level_job p level c (om_get (sat_add32 level 1) (group_levels files))).
Proof.
  intros Hnd Hlv [Hc Hcl]%level_files_In. unfold level_job. rewrite group_levels_default.
  assert (Ht : sat_add32 level 1 = level + 1) by (unfold sat_add32; lia).
  split; cbn [job_inputs job_source_level job_target_level].
  - done.
  - apply sort_ids_sorted.
  - intros i. rewrite sort_ids_In. intros [<-|Hin]; [eauto|].
    apply in_map_iff in Hin as (f & <- & [[? ?]%level_files_In _]%filter_In). eauto.
  - exists c. split; [done|]. split; [done|]. apply sort_ids_In. by left.
  - intros f g Hf Hg Hfl Hin Hgl Ho. rewrite sort_ids_In in Hin.
    assert (f = c) as ->.
    { apply (fm_id_inj files); [done..|]. destruct Hin as [?|Hin]; [done|].
      apply in_map_iff in Hin as (h & Hid & Hh).
      apply filter_In in Hh as [[Hh Hhl]%level_files_In _].
      assert (h = f) as -> by (by apply (fm_id_inj files)). lia. }
    apply sort_ids_In. right. apply in_map, filter_In. split; [by apply level_files_In|done].
  - lia.
Qed.

Lemma level_range_In max l : In l (level_range max) <-> 1 <= l < max.
Proof.
  unfold level_range. rewrite in_map_iff. split.
  - intros (n & <- & Hn%in_seq). lia.
  - intros Hl. exists (Z.to_nat l). split; [lia|]. apply in_seq. lia.
Qed.

Lemma pick_levels_Some p files ls job :
  pick_levels p (group_levels files) ls = Some job ->
  exists level c, In level ls /\ In c (level_files files level) /\
    level_capacity level (policy p) < Z.of_nat (length (level_files files level)) /\
    (let target := om_get (sat_add32 level 1) (group_levels files) in
     job = level_job p level c target /\
     forall f, In f (level_files files level) -> overlap_ratio c target <= overlap_ratio f target).
Proof.
  induction ls as [|level ls IH]; cbn [pick_levels]; [done|]. rewrite group_levels_get.
  assert (Hrest : pick_levels p (group_levels files) ls = Some job -> _) by exact IH.
  assert (Hskip : pick_levels p (group_levels files) ls = Some job ->
    exists level0 c, In level0 (level :: ls) /\ In c (level_files files level0) /\
    level_capacity level0 (policy p) < Z.of_nat (length (level_files files level0)) /\
    (let target := om_get (sat_add32 level0 1) (group_levels files) in
     job = level_job p level0 c target /\
     forall f, In f (level_files files level0) -> overlap_ratio c target <= overlap_ratio f target)).
  { intros (l & c & Hl & H)%Hrest. exists l, c. split; [by right|done]. }
  destruct (level_files files level) as [|f0 fs0] eqn:El; [done|]. rewrite <- El.
  destruct (Z.ltb_spec (level_capacity level (policy p)) (Z.of_nat (length (level_files files level))));
    [|done].
  destruct (choose_min_overlap _ _) as [c|] eqn:Ec; [|done]. intros [= <-].
  apply min_by_spec in Ec as [Hin Hmin]. exists level, c. split; [by left|]. split; [done|].
  split; [done|]. split; [done|]. intros f Hf. specialize (Hmin f Hf).
  apply cle_lt_eq in Hmin as [[Hlt|[Heq _]]%clt_pair|[= Heq _]]; cbn in *.
  - apply Z.lt_le_incl. by apply clt_Z.
  - lia.
  - lia.
Qed.

Lemma pick_levels_None p files ls :
  pick_levels p (group_levels files) ls = None <->
  forall level, In level ls ->
    Z.of_nat (length (level_files files level)) <= level_capacity level (policy p).
Proof.
  assert (Hcap : forall level, 0 <= level_capacity level (policy p)).
  { intros. unfold level_capacity. destruct (policy p); [lia|destruct (_ <=? _); lia|lia]. }
  induction ls as [|level ls IH]; cbn [pick_levels]; [done|]. rewrite group_levels_get.
  destruct (level_files files level) as [|f0 fs0] eqn:El.
  - rewrite IH. split; intros Hall l Hl; [|by apply Hall; right].
    destruct Hl as [<-|Hl]; [rewrite El; apply Hcap|auto].
  - rewrite <- El. destruct (Z.ltb_spec (level_capacity level (policy p)) (Z.of_nat (length (level_files files level)))).
    + split; [|intros Hall; specialize (Hall level (or_introl eq_refl)); lia].
      destruct (choose_min_overlap _ _) eqn:Ec; [done|]. apply min_by_None in Ec. congruence.
    + rewrite IH. split; intros Hall l Hl; [|by apply Hall; right].
      destruct Hl as [<-|Hl]; [done|auto].
Qed.

Lemma pick_inner_sound p files job :
  is_u32 (max_level p) -> NoDup (map fm_file_id files) ->
  pick_inner p files = Some job -> job_sound files job.
Proof.
  intros Hp Hnd. unfold pick_inner. rewrite group_levels_default. destruct (_ <=? _).
  - by apply build_l0_job_sound.
  - intros (level & c & Hl%level_range_In & Hc & _ & -> & _)%pick_levels_Some.
    apply level_job_sound; [done| |done]. unfold is_u32 in Hp. lia.
Qed.

#[global] Instance min_overlap_lawful : PickerLaws MinOverlappingRatioPicker :=
  {| picker_ok p := is_u32 (max_level p); pick_sound := pick_inner_sound |}.

#[global] Instance tiered_lawful : PickerLaws TieredPicker :=
  {| picker_ok t := is_u32 (t_max_level t);
     pick_sound t := pick_inner_sound (mkPicker (t_l0_trigger t) (t_max_level t) Tiered) |}.

(** *** The worker *)

Lemma collect_files_ids sst_meta vs :
  map fm_file_id (collect_files sst_meta vs) = map fst (level_pairs (vs_levels vs)).
Proof.
  unfold collect_files. rewrite map_map. apply map_ext. intros [f l].
  destruct (file_metadata vs f) as [[[[? ?] ?] ?]|]; [done|]. by destruct (sst_meta f) as [[? ?] ?].
Qed.

Lemma collect_files_level sst_meta vs f :
  levels_wf (vs_levels vs) -> In f (collect_files sst_meta vs) ->
  In (fm_file_id f) (vs_files vs (fm_level f)).
Proof.
  intros Hw. unfold collect_files. rewrite in_map_iff. intros ([i l] & <- & Hin).
  apply level_pairs_In in Hin; [|done]. unfold level_has in Hin.
  destruct (match file_metadata vs i with Some m => m | None => _ end) as [[[? ?] ?] ?]. cbn.
  unfold vs_files. destruct (om_get l (vs_levels vs)); [|done].
  by apply os_mem_In.
Qed.

Lemma compaction_inputs_In vs s t i :
  In i (compaction_inputs vs s t) <-> In i (vs_files vs s) \/ In i (vs_files vs t).
Proof.
  unfold compaction_inputs. rewrite <- in_app_iff, <- (sort_ids_In (_ ++ _)). split.
  - apply dedup_by_In.
  - intros Hin. destruct (dedup_by_rep id Z.eqb) with (l := sort_by_key id (vs_files vs s ++ vs_files vs t)) (x := i)
      as (y & Hy & Hk); [intros; apply Z.eqb_eq|done|]. cbn in Hk. by subst.
Qed.

(** A compaction job leaves no overlap behind.  Whatever lawful picker is
    configured (both implementations are), a job it picks from a published
    version set takes a non-empty set of live files of two adjacent levels,
    takes all of level 0 when it starts there, and takes every target file that
    overlaps a chosen source file; and the compaction that runs, which merges
    the two levels whole, covers the job. *)
Lemma compaction_job_closed {P : Type} `{PickerLaws P} (p : P) (sst_meta : Z -> bytes * bytes * Z)
    (vs : VersionSet) (job : CompactionJob) :
  picker_ok p -> vs_wf vs -> pick p (collect_files sst_meta vs) = Some job ->
  job_sound (collect_files sst_meta vs) job /\
  (forall i, In i (job_inputs job) ->
     In i (compaction_inputs vs (job_source_level job) (job_target_level job)) /\
     is_Some (file_metadata vs i)).
Proof.
  intros Hp Hwf Hpick. assert (Hs : job_sound (collect_files sst_meta vs) job).
  { apply (pick_sound p); [done| |done]. rewrite collect_files_ids. destruct Hwf.
    by apply level_pairs_NoDup. }
  split; [done|]. intros i Hi. destruct (js_known _ _ Hs i Hi) as (f & Hf & <- & Hl).
  apply collect_files_level in Hf; [|by destruct Hwf].
  split.
  - apply compaction_inputs_In. destruct Hl as [<-|<-]; auto.
  - unfold file_metadata. apply (wf_files _ Hwf). exists (fm_level f).
    unfold vs_files in Hf. unfold level_has. destruct (om_get _ _); [by apply os_mem_In|done].
Qed.

(** The picker wakes up exactly when the tree is out of shape: it picks
    nothing exactly when level 0 is below its trigger and no level between 1 and
    the last exceeds its capacity; and a job below level 0 moves the file with
    the smallest overlap ratio of its level. *)
Lemma picker_wakes_exactly (p : MinOverlappingRatioPicker) (files : list FileMeta) :
  1 <= l0_trigger p ->
  (pick_inner p files = None <->
   Z.of_nat (length (level_files files 0)) < l0_trigger p /\
   forall level, 1 <= level < max_level p ->
     Z.of_nat (length (level_files files level)) <= level_capacity level (policy p)) /\
  (forall job, pick_inner p files = Some job -> job_source_level job <> 0 ->
   exists c, In c (level_files files (job_source_level job)) /\ In (fm_file_id c) (job_inputs job) /\
     forall f, In f (level_files files (job_source_level job)) ->
       overlap_ratio c (om_get (job_target_level job) (group_levels files)) <=
       overlap_ratio f (om_get (job_target_level job) (group_levels files))).
Proof.
  intros Htr. unfold pick_inner. rewrite group_levels_default.
  destruct (Z.leb_spec (l0_trigger p) (Z.of_nat (length (level_files files 0)))) as [Hle|Hgt]; split.
  - split; [|intros [? _]; lia]. intros Hn. exfalso. unfold build_l0_job in Hn.
    destruct (level_files files 0) as [|f r] eqn:E; [cbn in Hle; lia|]. rewrite <- E in Hn.
    assert (Hf : In f (level_files files 0)) by (rewrite E; by left).
    destruct (min_bytes_le (map fm_min_key (level_files files 0)) (fm_min_key f)) as (m & Hm & _); [by apply in_map|].
    destruct (max_bytes_ge (map fm_max_key (level_files files 0)) (fm_max_key f)) as (m' & Hm' & _); [by apply in_map|].
    by rewrite Hm, Hm' in Hn.
  - unfold build_l0_job. intros job. destruct (min_bytes _); cbn; [|done].
    destruct (max_bytes _); cbn; [|done]. by intros [= <-].
  - rewrite pick_levels_None. setoid_rewrite level_range_In. tauto.
  - intros job (level & c & _ & Hc & _ & -> & Hmin)%pick_levels_Some _. exists c.
    split; [done|]. split; [|done]. cbn [level_job job_inputs]. apply sort_ids_In. by left.
Qed.

(** ** Chunks *)

(** [split_by_size] cuts the inputs into non-empty consecutive chunks. *)
Lemma split_loop_spec vs mx inputs chunks current bts :
  Forall (fun c => c <> []) chunks ->
  concat (split_loop vs mx inputs chunks current bts) = concat chunks ++ current ++ inputs /\
  Forall (fun c => c <> []) (split_loop vs mx inputs chunks current bts).
Proof.
  revert chunks current bts. induction inputs as [|i inputs IH]; intros chunks current bts Hne;
    cbn [split_loop].
  - destruct current; [by rewrite !app_nil_r|]. rewrite concat_app. cbn. rewrite app_nil_r.
    split; [done|]. apply Forall_app. split; [done|]. by constructor.
  - destruct (_ && _) eqn:E.
    + destruct (IH (chunks ++ [current]) [i] (saturating_add 0
        match file_metadata vs i with Some (_, _, b, _) => b | None => 0 end)) as [H1 H2].
      { apply Forall_app. split; [done|]. constructor; [|constructor].
        destruct current; [by rewrite andb_false_r in E|done]. }
      split; [|done]. rewrite H1, concat_app. cbn. by rewrite app_nil_r, <- app_assoc.
    + destruct (IH chunks (current ++ [i]) (saturating_add bts
        match file_metadata vs i with Some (_, _, b, _) => b | None => 0 end) Hne) as [H1 H2].
      split; [|done]. rewrite H1. by rewrite <- app_assoc.
Qed.

Lemma split_by_size_partition inputs vs mx :
  concat (split_by_size inputs vs mx) = inputs /\
  Forall (fun c => c <> []) (split_by_size inputs vs mx).
Proof. by apply (split_loop_spec vs mx inputs [] [] 0). Qed.

(** Chunks are merged apart: two versions of one key in different chunks are
    both left open-ended, so both are visible at the newest snapshot. *)
Lemma chunks_keep_both_versions :
  let old := mkRow [x61] {| value := Some [x31]; begin_ts := 3; end_ts := OPEN_ENDED_TS; tx_id := 0 |} in
  let new := mkRow [x61] {| value := Some [x32]; begin_ts := 8; end_ts := OPEN_ENDED_TS; tx_id := 0 |} in
  map (fun r => visible_at (row_version r) 9) (dedup_superseded [old] 9 ++ dedup_superseded [new] 9)
    = [true; true] /\
  map (fun r => value (row_version r)) (dedup_superseded [old; new] 9) = [Some [x32]].
Proof. split; vm_compute; reflexivity. Qed.

(** Of two jobs with equal priority the smaller is the greater in the order, so
    it is the one a max-heap pops first. *)
Lemma job_order_prefers_smaller a b :
  job_priority a = job_priority b -> job_estimated_bytes a < job_estimated_bytes b ->
  job_cmp a b = Gt.
Proof.
  intros Hp Hb. unfold job_cmp. rewrite Hp, Z.compare_refl.
  assert ((job_estimated_bytes b ?= job_estimated_bytes a) = Gt) as -> by (by apply Z.compare_gt_iff). done.
Qed.

(** ** Witnesses *)

Definition sample_rows_merge : list VersionedRow :=
  [mkRow [x61] {| value := Some [x31]; begin_ts := 3; end_ts := OPEN_ENDED_TS; tx_id := 0 |};
   mkRow [x61] {| value := Some [x32]; begin_ts := 8; end_ts := OPEN_ENDED_TS; tx_id := 0 |};
   mkRow [x61] {| value := None; begin_ts := 5; end_ts := OPEN_ENDED_TS; tx_id := 0 |}].

Lemma compaction_merge_exact_witness :
  In (mkRow [x61] {| value := None; begin_ts := 5; end_ts := 8; tx_id := 0 |})
     (dedup_superseded sample_rows_merge 6) /\
  length (dedup_superseded sample_rows_merge 6) = 2%nat.
Proof.
  assert (Hag : versions_agree sample_rows_merge).
  { intros r1 r2 H1 H2. cbn in H1, H2. naive_solver. }
  split; [|vm_compute; reflexivity].
  destruct (compaction_merge_exact sample_rows_merge 6 7 [x61] Hag ltac:(lia) ltac:(vm_compute; reflexivity))
    as (H1 & _).
  destruct (H1 (mkRow [x61] {| value := None; begin_ts := 5; end_ts := OPEN_ENDED_TS; tx_id := 0 |})) as (e & Hin & Hv).
  - split; [cbn; auto|]. split; [reflexivity|]. split; [cbn; lia|].
    intros r2 Hr2 _. cbn in Hr2. destruct Hr2 as [<-|[<-|[<-|[]]]]; cbn; lia.
  - vm_compute. auto.
Defined.

Definition l0_vs : VersionSet :=
  Eval vm_compute in applied vs_default
    [AddFile 1 0 [x61] [x6d] 10 5; AddFile 2 0 [x63] [x7a] 20 6; AddFile 3 0 [x61] [x62] 7 8;
     AddFile 4 0 [x70] [x71] 7 8; AddFile 5 1 [x61] [x63] 9 9].

Lemma l0_vs_wf : vs_wf l0_vs.
Proof.
  assert (H : vs_wf (applied vs_default
    [AddFile 1 0 [x61] [x6d] 10 5; AddFile 2 0 [x63] [x7a] 20 6; AddFile 3 0 [x61] [x62] 7 8;
     AddFile 4 0 [x70] [x71] 7 8; AddFile 5 1 [x61] [x63] 9 9])).
  { apply applied_wf; [apply vs_default_wf|]. edits_valid_compute. }
  exact H.
Qed.

Definition no_meta (file_id : Z) : bytes * bytes * Z := ([], [], 0).

Definition l0_job : CompactionJob :=
  mkJob L0ToL1 0 1 [1; 2; 3; 4; 5] 53 4.

