(* ===== verification/Engine.v ===== *)
(** * The engine: snapshots, commits and recovery ([hatp-engine/src/lib.rs])

    The write path of [Engine]: transaction id allocation, the pre-commit hook,
    the WAL append in both sync modes, the commit sequence, the memtable, and
    the group commit of queued requests; the pinned snapshots and the
    garbage-collection watermark; and [Engine::open], which replays the log onto
    a fresh memtable.  The memtable and the hook are interfaces
    ([MemTableBackend], [EngineHook]); the transaction manager is an instance of
    the latter.  Commits run under the engine's write guard, so each is one
    step.  Metrics and the commit watcher are observers and are left out. *)

From Stdlib Require Import Strings.String.
From stdpp Require Import base tactics list option gmap.
From S2P Require Import Prelude OrdMap Types Version Crc32c Wal MemTable MemTableProps TxManager Codec Manifest.
#[local] Open Scope Z_scope.
#[local] Set Warnings "-clear-no-such-hyp".

(** ** The hook *)

(** [EngineHook]; a pre-commit result of [None] is a panic, which the engine
    catches. *)
Class EngineHook (H : Type) := {
  hook_is_noop : bool;
  hook_pre_commit : H -> Z -> list Mutation -> H * option (Result unit);
  hook_on_put : H -> bytes -> bytes -> Z -> H;
  hook_on_delete : H -> bytes -> Z -> H;
  hook_on_tx_commit : H -> Z -> TxnTs -> H;
}.

(** [NoopHook] *)
#[global] Instance NoopHook : EngineHook unit := {|
  hook_is_noop := true;
  hook_pre_commit h _ _ := (h, Some (Ok tt));
  hook_on_put h _ _ _ := h;
  hook_on_delete h _ _ := h;
  hook_on_tx_commit h _ _ := h;
|}.

(** [TxManagerHook] *)
#[global] Instance TxManagerHook {hi : HashIter} : EngineHook TxManager := {|
  hook_is_noop := false;
  hook_pre_commit m tx ms :=
    match on_pre_commit m tx ms with
    | Some (m', r) => (m', Some r)
    | None => (m, None)
    end;
  hook_on_put m _ _ _ := m;
  hook_on_delete m _ _ := m;
  hook_on_tx_commit := on_tx_commit;
|}.

(** ** The engine *)

Section Engine.
Context {hw : Crc32Hw} {T H : Type} `{MemTableBackend T} `{EngineHook H}.

(** The fields of the engine that its write path, snapshots and recovery use.
    The locks are left out: each operation below runs under the guard that makes
    it one step. *)
Record Engine := mkEngine {
  e_wal : Wal;
  e_memtable : T;
  e_hook : H;
  e_next_tx_id : Z;
  e_commit_seq : TxnTs;
  e_pinned_snapshots : omap TxnTs Z;
  e_sync_mode : SyncMode;
}.

Definition with_wal (e : Engine) (w : Wal) : Engine :=
  mkEngine w (e_memtable e) (e_hook e) (e_next_tx_id e) (e_commit_seq e)
    (e_pinned_snapshots e) (e_sync_mode e).
Definition with_memtable (e : Engine) (t : T) : Engine :=
  mkEngine (e_wal e) t (e_hook e) (e_next_tx_id e) (e_commit_seq e)
    (e_pinned_snapshots e) (e_sync_mode e).
Definition with_hook (e : Engine) (h : H) : Engine :=
  mkEngine (e_wal e) (e_memtable e) h (e_next_tx_id e) (e_commit_seq e)
    (e_pinned_snapshots e) (e_sync_mode e).
Definition with_next_tx (e : Engine) (n : Z) : Engine :=
  mkEngine (e_wal e) (e_memtable e) (e_hook e) n (e_commit_seq e)
    (e_pinned_snapshots e) (e_sync_mode e).
Definition with_commit_seq (e : Engine) (n : TxnTs) : Engine :=
  mkEngine (e_wal e) (e_memtable e) (e_hook e) (e_next_tx_id e) n
    (e_pinned_snapshots e) (e_sync_mode e).
Definition with_pins (e : Engine) (p : omap TxnTs Z) : Engine :=
  mkEngine (e_wal e) (e_memtable e) (e_hook e) (e_next_tx_id e) (e_commit_seq e)
    p (e_sync_mode e).

(** *** Snapshots *)

Definition snapshot_ts (e : Engine) : TxnTs := saturating_sub (e_commit_seq e) 1.

Definition pin_snapshot (e : Engine) (snapshot : TxnTs) : Engine :=
  with_pins e (om_entry snapshot 0 (fun n => n + 1) (e_pinned_snapshots e)).

Definition begin_read (e : Engine) : Engine * TxnTs :=
  let snapshot := saturating_sub (e_commit_seq e) 1 in
  (with_pins e (om_entry snapshot 0 (fun n => n + 1) (e_pinned_snapshots e)), snapshot).

(** Called by [SnapshotGuard::drop]. *)
Definition unpin_snapshot (e : Engine) (snapshot : TxnTs) : Engine :=
  match om_get snapshot (e_pinned_snapshots e) with
  | Some count =>
      with_pins e (if count - 1 =? 0 then om_remove snapshot (e_pinned_snapshots e)
                   else om_insert snapshot (count - 1) (e_pinned_snapshots e))
  | None => e
  end.

Definition engine_watermark (e : Engine) : TxnTs :=
  let min_pinned := match e_pinned_snapshots e with (ts, _) :: _ => ts | [] => u64_max end in
  let committed := saturating_sub (e_commit_seq e) 1 in
  Z.min min_pinned committed.

(** [Engine::garbage_collect] *)
Definition engine_garbage_collect (e : Engine) : Engine * Z :=
  let '(t, n) := mt_garbage_collect (e_memtable e) (engine_watermark e) in
  (with_memtable e t, n).

(** *** Commits *)

(** The sequential effect of the compare-exchange loop. *)
Definition alloc_tx_id (e : Engine) : Engine * Z :=
  let start := if e_next_tx_id e =? 0 then 1 else e_next_tx_id e in
  (with_next_tx e (wrap64 (start + 1)), start).

Definition build_wal_records (tx : Z) (ms : list Mutation) : list WalRecord :=
  map (fun m => match m with
                | MPut key value => record_put tx key value
                | MDelete key => record_delete tx key
                end) ms.

(** The hook calls after a commit. *)
Definition post_commit (h : H) (tx : Z) (ms : list Mutation) (commit_ts : TxnTs) : H :=
  hook_on_tx_commit
    (fold_left (fun h m => match m with
                           | MPut key value => hook_on_put h key value tx
                           | MDelete key => hook_on_delete h key tx
                           end) ms h) tx commit_ts.

Definition hook_result (r : option (Result unit)) : Result unit :=
  match r with Some r => r | None => Err (CorruptMessage "on_pre_commit panicked") end.

(** Allocate the commit timestamp, apply to the memtable, notify the hook. *)
Definition apply_commit (e : Engine) (tx : Z) (ms : list Mutation) : Engine * Result TxnTs :=
  let commit_ts := e_commit_seq e in
  let e := with_commit_seq e (wrap64 (commit_ts + 1)) in
  match mt_apply_mutations_batch (e_memtable e) tx ms commit_ts with
  | (t, Err err) => (with_memtable e t, Err err)
  | (t, Ok _) =>
      let e := with_memtable e t in
      (with_hook e (post_commit (e_hook e) tx ms commit_ts), Ok commit_ts)
  end.

(** [commit_single] *)
Definition commit_single (e : Engine) (tx : Z) (ms : list Mutation) (io_w io_s : IoOutcome)
  : Engine * Result TxnTs :=
  let '(h, r) := hook_pre_commit (e_hook e) tx ms in
  let e := with_hook e h in
  match (if hook_is_noop then Ok tt else hook_result r) with
  | Err err => (e, Err err)
  | Ok _ =>
      let '(w, r) := match e_sync_mode e with
                     | Full => append_mutations_commit_and_sync (e_wal e) tx ms io_w io_s
                     | Group _ => append_multi_batch (e_wal e) [(tx, build_wal_records tx ms)] io_w
                     end in
      let e := with_wal e w in
      match r with
      | Err err => (e, Err err)
      | Ok _ => apply_commit e tx ms
      end
  end.

(** [ThrottleLevel] of [pressure.rs]; a soft throttle only sleeps. *)
Inductive ThrottleLevel := ThrottleNone | ThrottleSoft | ThrottleHard.

(** [write_with_tx] when no other request is queued. *)
Definition write_with_tx (e : Engine) (tx : Z) (ms : list Mutation) (throttle : ThrottleLevel)
    (io_w io_s : IoOutcome) : Engine * Result TxnTs :=
  match ms with
  | [] => (e, Err EmptyBatch)
  | _ =>
      if tx =? 0 then (e, Err (Corrupt "tx_id 0 is reserved as sentinel")) else
      let target := saturating_add tx 1 in
      let e := if e_next_tx_id e <? target then with_next_tx e target else e in
      match throttle with
      | ThrottleHard => (e, Err Throttled)
      | _ => commit_single e tx ms io_w io_s
      end
  end.

(** [Engine::write] *)
Definition engine_write (e : Engine) (ms : list Mutation) (throttle : ThrottleLevel)
    (io_w io_s : IoOutcome) : Engine * Result TxnTs :=
  match ms with
  | [] => (e, Err EmptyBatch)
  | _ => let '(e, tx) := alloc_tx_id e in write_with_tx e tx ms throttle io_w io_s
  end.

(** *** Group commit *)

Record PendingWrite := mkPending { pw_tx_id : Z; pw_mutations : list Mutation }.

(** Results sent to waiters, in the order they are sent. *)
Abbreviation Sent := (list (PendingWrite * Result TxnTs)).

Definition swap {A} (i j : nat) (l : list A) : list A :=
  match l !! i, l !! j with
  | Some a, Some b => <[i := b]> (<[j := a]> l)
  | _, _ => l
  end.

(** The pre-commit loop of [flush_pending_batch] over the indexes [i..i+n]. *)
Fixpoint pre_commit_loop (n i passed : nat) (h : H) (batch : list PendingWrite) (sent : Sent)
  : H * list PendingWrite * nat * Sent :=
  match n with
  | O => (h, batch, passed, sent)
  | S n =>
      match batch !! i with
      | None => (h, batch, passed, sent)
      | Some req =>
          let '(h, r) := hook_pre_commit h (pw_tx_id req) (pw_mutations req) in
          match hook_result r with
          | Ok _ => pre_commit_loop n (S i) (S passed) h (swap passed i batch) sent
          | Err err => pre_commit_loop n (S i) passed h batch (sent ++ [(req, Err err)])
          end
      end
  end.

(** Step 4 of [flush_pending_batch]; the cause is left out of the messages. *)
Fixpoint apply_batch (e : Engine) (reqs : list PendingWrite) (sent : Sent)
  : Engine * Sent * Result unit :=
  match reqs with
  | [] => (e, sent, Ok tt)
  | req :: rest =>
      match apply_commit e (pw_tx_id req) (pw_mutations req) with
      | (e, Err err) =>
          (e, sent ++ (req, Err (CorruptMessage "memtable apply failed"))
                :: map (fun r => (r, Err (CorruptMessage
                     "memtable apply failed for preceding transaction"))) rest, Err err)
      | (e, Ok commit_ts) => apply_batch e rest (sent ++ [(req, Ok commit_ts)])
      end
  end.

(** [flush_pending_batch] *)
Definition flush_pending_batch (e : Engine) (batch : list PendingWrite) (io_w io_s : IoOutcome)
  : Engine * Sent * Result unit :=
  let '(h, batch, passed, sent) := pre_commit_loop (length batch) 0 0 (e_hook e) batch [] in
  let e := with_hook e h in
  match take passed batch with
  | [] => (e, sent, Ok tt)
  | reqs =>
      let refs := map (fun req => (pw_tx_id req, pw_mutations req)) reqs in
      let '(w, r) := match e_sync_mode e with
                     | Full => append_multi_mutations_commit_and_sync (e_wal e) refs io_w io_s
                     | Group _ => append_multi_mutations (e_wal e) refs io_w
                     end in
      let e := with_wal e w in
      match r with
      | Err err =>
          (e, sent ++ map (fun req => (req, Err (CorruptMessage "WAL append failed"))) reqs, Err err)
      | Ok _ => apply_batch e reqs sent
      end
  end.

(** The background fsync of [wal_sync_worker_loop]. *)
Definition background_sync (e : Engine) (io : IoOutcome) : Engine :=
  with_wal e (wal_sync_data (e_wal e) io).1.

(** *** Recovery *)

(** Rows by file; a file that cannot be read is skipped. *)
Definition sst_max_commit (read_all : Z -> Result (list VersionedRow)) (files : list Z) : TxnTs :=
  fold_left (fun mx file_id =>
    match read_all file_id with
    | Ok rows => fold_left (fun mx row => Z.max mx (begin_ts (row_version row))) rows mx
    | Err _ => mx
    end) files 0.

Record Replay := mkReplay {
  rp_memtable : T;
  rp_pending : omap Z (list WalRecord);
  rp_highest_tx : Z;
  rp_next_commit_ts : TxnTs;
}.

(** One iteration of the replay loop of [open_with_hook]. *)
Definition replay_record (st : Replay) (r : WalRecord) : Result Replay :=
  let highest := Z.max (rp_highest_tx st) (wr_tx_id r) in
  match wr_op r with
  | Put | Delete =>
      Ok (mkReplay (rp_memtable st)
            (om_entry (wr_tx_id r) [] (fun v => v ++ [r]) (rp_pending st))
            highest (rp_next_commit_ts st))
  | Commit =>
      match om_get (wr_tx_id r) (rp_pending st) with
      | Some records =>
          match mt_apply_records_batch (rp_memtable st) records (rp_next_commit_ts st) with
          | (_, Err err) => Err err
          | (t, Ok _) =>
              Ok (mkReplay t (om_remove (wr_tx_id r) (rp_pending st)) highest
                    (saturating_add (rp_next_commit_ts st) 1))
          end
      | None => Ok (mkReplay (rp_memtable st) (rp_pending st) highest (rp_next_commit_ts st))
      end
  | Abort =>
      Ok (mkReplay (rp_memtable st) (om_remove (wr_tx_id r) (rp_pending st)) highest
            (rp_next_commit_ts st))
  end.

Fixpoint replay (st : Replay) (rs : list WalRecord) : Result Replay :=
  match rs with
  | [] => Ok st
  | r :: rest => let? st := replay_record st r in replay st rest
  end.

(** [Engine::open_with_hook]: the log is read, the manifest opened, the log
    replayed onto a fresh memtable with timestamps that continue after the
    SSTs', and the log opened for append. *)
Definition engine_open (wal_file man_file : option bytes)
    (read_all : Z -> Result (list VersionedRow)) (hook : H) (mode : SyncMode)
    (io_man io_len io_s : IoOutcome) : option (Result (Engine * Manifest)) :=
  match wal_recover wal_file with
  | None => None
  | Some (Err err) => Some (Err err)
  | Some (Ok recovered) =>
      match man_open man_file io_man with
      | None => None
      | Some (Err err) => Some (Err err)
      | Some (Ok manifest) =>
          let max_commit := sst_max_commit read_all (file_ids (mf_version_set manifest)) in
          match replay (mkReplay mt_default [] 0 (saturating_add max_commit 1)) recovered with
          | Err err => Some (Err err)
          | Ok st =>
              match wal_open wal_file io_len io_s with
              | None => None
              | Some (Err err) => Some (Err err)
              | Some (Ok w) =>
                  Some (Ok (mkEngine w (rp_memtable st) hook (saturating_add (rp_highest_tx st) 1)
                              (rp_next_commit_ts st) [] mode, manifest))
              end
          end
      end
  end.

(** ** Group commit keeps the order of the requests that pass *)

(** The requests the hook accepts, in order, and the rest with their errors. *)
Fixpoint accepted (h : H) (batch : list PendingWrite) : H * list PendingWrite * Sent :=
  match batch with
  | [] => (h, [], [])
  | req :: rest =>
      let '(h, r) := hook_pre_commit h (pw_tx_id req) (pw_mutations req) in
      let '(h, ok, bad) := accepted h rest in
      match hook_result r with
      | Ok _ => (h, req :: ok, bad)
      | Err err => (h, ok, (req, Err err) :: bad)
      end
  end.

Lemma swap_same {A} i (l : list A) : swap i i l = l.
Proof.
  unfold swap. destruct (l !! i) as [a|] eqn:E; [|done].
  rewrite list_insert_insert_eq. by apply list_insert_id.
Qed.

Lemma swap_first {A} (p : list A) f m x r :
  swap (length p) (length p + S (length m)) (p ++ f :: m ++ x :: r) = p ++ x :: m ++ f :: r.
Proof.
  unfold swap. rewrite list_lookup_middle by done.
  replace (p ++ f :: m ++ x :: r) with ((p ++ f :: m) ++ x :: r) by (by rewrite <- app_assoc).
  rewrite list_lookup_middle by (rewrite length_app; cbn; lia).
  rewrite insert_app_r_alt by (rewrite length_app; cbn; lia).
  replace (length p + S (length m) - length (p ++ f :: m))%nat with 0%nat
    by (rewrite length_app; cbn; lia). cbn. rewrite <- app_assoc. cbn.
  rewrite insert_app_r_alt by lia. by rewrite Nat.sub_diag.
Qed.

Lemma pre_commit_loop_eq todo h p f sent :
  exists f', pre_commit_loop (length todo) (length (p ++ f)) (length p) h (p ++ f ++ todo) sent =
  let '(h', ok, bad) := accepted h todo in
  (h', (p ++ ok) ++ f', length (p ++ ok), sent ++ bad).
Proof.
  revert h p f sent. induction todo as [|req todo IH]; intros h p f sent.
  - exists f. cbn. by rewrite !app_nil_r.
  - cbn [length pre_commit_loop accepted]. rewrite app_assoc, list_lookup_middle by done.
    destruct (hook_pre_commit h _ _) as [h1 r]. destruct (hook_result r) as [u|err] eqn:Er.
    + destruct f as [|x f].
      * rewrite !app_nil_r. rewrite swap_same.
        destruct (IH h1 (p ++ [req]) [] sent) as [f' Hf]. exists f'.
        rewrite !app_nil_r in Hf. rewrite length_app in Hf. cbn in Hf.
        rewrite Nat.add_1_r, <- app_assoc in Hf. cbn in Hf. rewrite Hf.
        destruct (accepted h1 todo) as [[h2 ok] bad]. by rewrite <- !app_assoc.
      * destruct (IH h1 (p ++ [req]) (f ++ [x]) sent) as [f' Hf]. exists f'.
        assert (Hsw : swap (length p) (length (p ++ x :: f)) ((p ++ x :: f) ++ req :: todo) =
                      (p ++ [req]) ++ (f ++ [x]) ++ todo).
        { rewrite length_app. cbn [length]. rewrite <- app_assoc. cbn.
          rewrite swap_first. by rewrite <- !app_assoc. }
        rewrite Hsw.
        replace (S (length (p ++ x :: f))) with (length ((p ++ [req]) ++ f ++ [x]))
          by (rewrite !length_app; cbn; lia).
        replace (S (length p)) with (length (p ++ [req])) by (rewrite length_app; cbn; lia).
        rewrite Hf. destruct (accepted h1 todo) as [[h2 ok] bad]. by rewrite <- !app_assoc.
    + destruct (IH h1 p (f ++ [req]) (sent ++ [(req, Err err)])) as [f' Hf]. exists f'.
      replace (S (length (p ++ f))) with (length (p ++ f ++ [req]))
        by (rewrite !length_app; cbn; lia).
      replace ((p ++ f) ++ req :: todo) with (p ++ (f ++ [req]) ++ todo) by (by rewrite <- !app_assoc).
      rewrite Hf. destruct (accepted h1 todo) as [[h2 ok] bad]. by rewrite <- (app_assoc sent).
Qed.

Lemma pre_commit_accepted h batch :
  let '(h', b, passed, sent) := pre_commit_loop (length batch) 0 0 h batch [] in
  let '(h2, ok, bad) := accepted h batch in
  h' = h2 /\ take passed b = ok /\ sent = bad.
Proof.
  destruct (pre_commit_loop_eq batch h [] [] []) as [f' Hf]. cbn in Hf. rewrite Hf.
  destruct (accepted h batch) as [[h2 ok] bad]. cbn. by rewrite take_app_length.
Qed.

(** ** The log as transactions *)

(** A run of frames of one transaction; without its commit marker when a crash
    cut it short. *)
Record Seg := mkSeg { sg_tx : Z; sg_ms : list Mutation; sg_done : bool }.

Definition seg_log (s : Seg) : list WalRecord :=
  map (mutation_record (sg_tx s)) (sg_ms s)
  ++ (if sg_done s then [record_commit (sg_tx s)] else []).

Definition seg_logs (segs : list Seg) : list WalRecord := flat_map seg_log segs.

Definition done_txs (segs : list Seg) : list (Z * list Mutation) :=
  flat_map (fun s => if sg_done s then [(sg_tx s, sg_ms s)] else []) segs.

(** A cut transaction's id is not used again. *)
Fixpoint no_reuse (segs : list Seg) : Prop :=
  match segs with
  | [] => True
  | s :: rest =>
      (sg_done s = false -> Forall (fun s' => sg_done s' = true -> sg_tx s' <> sg_tx s) rest)
      /\ no_reuse rest
  end.

(** Commits numbered from [ts], and the versions they put in a memtable. *)
Fixpoint number_commits (ts : TxnTs) (txs : list (Z * list Mutation)) : list CommitBatch :=
  match txs with
  | [] => []
  | (tx, ms) :: rest => mkCommit tx ts ms :: number_commits (ts + 1) rest
  end.

Definition commits_edits (cs : list CommitBatch) : list Edit :=
  flat_map (fun c => map (mutation_edit (cb_tx c) (cb_ts c)) (cb_muts c)) cs.

Lemma seg_logs_app a b : seg_logs (a ++ b) = seg_logs a ++ seg_logs b.
Proof. apply flat_map_app. Qed.

Lemma done_txs_app a b : done_txs (a ++ b) = done_txs a ++ done_txs b.
Proof. apply flat_map_app. Qed.

Lemma apply_edits_app m a b : apply_edits m (a ++ b) = apply_edits (apply_edits m a) b.
Proof. apply fold_left_app. Qed.

Lemma number_commits_app ts a b :
  number_commits ts (a ++ b) = number_commits ts a ++ number_commits (ts + Z.of_nat (length a)) b.
Proof.
  revert ts. induction a as [|[tx ms] a IH]; intros ts; cbn [app number_commits length].
  - by rewrite Z.add_0_r.
  - rewrite IH. do 2 f_equal. f_equal. lia.
Qed.

Lemma commits_edits_app a b : commits_edits (a ++ b) = commits_edits a ++ commits_edits b.
Proof. apply flat_map_app. Qed.

(** *** Replaying it *)

Section Laws.
Context `{!MemTableLaws T}.

Lemma replay_app st a b : replay st (a ++ b) = (let? st := replay st a in replay st b).
Proof.
  revert st. induction a as [|r a IH]; intros st; cbn; [done|].
  destruct (replay_record st r); cbn; [apply IH|done].
Qed.

(** Mutations wait under their transaction's id. *)
Lemma replay_muts st tx ms :
  exists P hi, replay st (map (mutation_record tx) ms) =
      Ok (mkReplay (rp_memtable st) P hi (rp_next_commit_ts st)) /\
    rp_highest_tx st <= hi /\ (ms <> [] -> tx <= hi) /\
    forall t, om_get t P =
      if eqc t tx then match ms with
                       | [] => om_get tx (rp_pending st)
                       | _ => Some (default [] (om_get tx (rp_pending st)) ++ map (mutation_record tx) ms)
                       end
      else om_get t (rp_pending st).
Proof.
  revert st. induction ms as [|m ms IH]; intros st.
  - exists (rp_pending st), (rp_highest_tx st). cbn. split; [by destruct st|]. split; [lia|]. split; [done|].
    intros t. destruct (eqc t tx) eqn:E; [|done]. cbool. by subst.
  - set (st1 := mkReplay (rp_memtable st)
      (om_entry tx [] (fun v => v ++ [mutation_record tx m]) (rp_pending st))
      (Z.max (rp_highest_tx st) tx) (rp_next_commit_ts st)).
    assert (Hr : replay_record st (mutation_record tx m) = Ok st1) by (by destruct m).
    cbn [map replay]. rewrite Hr. cbn [rbind].
    destruct (IH st1) as (P & hi & -> & Hhi & _ & HP). exists P, hi. cbn in Hhi.
    split; [done|]. split; [lia|]. split; [lia|]. intros t. rewrite HP. cbn [rp_pending st1].
    rewrite !om_get_entry, eqc_refl. destruct (eqc t tx) eqn:E; [|done].
    destruct ms; cbn; [done|]. by rewrite <- app_assoc.
Qed.

Lemma records_edits_muts tx cts ms :
  records_edits cts (map (mutation_record tx) ms) = (map (mutation_edit tx cts) ms, Ok tt).
Proof.
  induction ms as [|m ms IH]; [done|]. cbn [map records_edits]. rewrite IH. by destruct m.
Qed.

(** What replaying a log of transactions does to the state. *)
Record replayed (st st' : Replay) (segs : list Seg) : Prop := {
  rd_inv : mt_inv (rp_memtable st');
  rd_map : mt_map (rp_memtable st') = apply_edits (mt_map (rp_memtable st))
             (commits_edits (number_commits (rp_next_commit_ts st) (done_txs segs)));
  rd_next : rp_next_commit_ts st' = rp_next_commit_ts st + Z.of_nat (length (done_txs segs));
  rd_highest : rp_highest_tx st <= rp_highest_tx st';
  rd_ids : Forall (fun s => sg_tx s <= rp_highest_tx st') segs;
}.

Lemma replay_logs segs st :
  Forall (fun s => sg_ms s <> []) segs -> no_reuse segs ->
  Forall (fun s => sg_done s = true -> om_get (sg_tx s) (rp_pending st) = None) segs ->
  mt_inv (rp_memtable st) -> 0 <= rp_next_commit_ts st ->
  rp_next_commit_ts st + Z.of_nat (length (done_txs segs)) <= OPEN_ENDED_TS ->
  exists st', replay st (seg_logs segs) = Ok st' /\ replayed st st' segs.
Proof.
  revert st. induction segs as [|s segs IH]; intros st Hne Hreuse Hpend Hinv Hts Hbound.
  - exists st. split; [done|]. split; cbn; [done|done|lia|lia|constructor].
  - apply Forall_cons in Hne as [Hms Hne]. destruct Hreuse as [Hr Hreuse].
    apply Forall_cons in Hpend as [Hps Hpend].
    cbn [seg_logs flat_map]. fold (seg_logs segs). unfold seg_log. rewrite <- app_assoc, replay_app.
    destruct (replay_muts st (sg_tx s) (sg_ms s)) as (P & hi & -> & Hhi & Htx & HP). cbn [rbind].
    specialize (Htx Hms). cbn [done_txs flat_map] in Hbound |- *. fold (done_txs segs) in Hbound |- *.
    destruct (sg_done s) eqn:Hd; cbn [app length] in Hbound |- *.
    + (* commit *)
      set (st1 := mkReplay (rp_memtable st) P hi (rp_next_commit_ts st)).
      destruct (sg_ms s) as [|m0 ms0] eqn:Ems; [done|]. rewrite <- Ems in *.
      assert (Hg : om_get (sg_tx s) P = Some (map (mutation_record (sg_tx s)) (sg_ms s))).
      { rewrite HP, eqc_refl, Ems, Hps by done. done. }
      destruct (mt_apply_records_ok (rp_memtable st) (map (mutation_record (sg_tx s)) (sg_ms s))
        (rp_next_commit_ts st) Hinv ltac:(lia)) as (t' & Ha & Hinv' & Hmap & _).
      rewrite records_edits_muts in Ha, Hmap. cbn [fst snd] in Ha, Hmap.
      set (st2 := mkReplay t' (om_remove (sg_tx s) P) (Z.max hi (sg_tx s))
                    (saturating_add (rp_next_commit_ts st) 1)).
      assert (Hc : replay_record st1 (record_commit (sg_tx s)) = Ok st2).
      { unfold replay_record. cbn [wr_op record_commit wr_tx_id rp_pending st1].
        rewrite Hg. cbn [rp_memtable rp_next_commit_ts st1]. by rewrite Ha. }
      cbn [replay]. rewrite Hc. cbn [rbind].
      assert (Hsat : saturating_add (rp_next_commit_ts st) 1 = rp_next_commit_ts st + 1).
      { unfold saturating_add. apply Z.min_l. unfold OPEN_ENDED_TS in Hbound. lia. }
      destruct (IH st2) as (st' & Hrep & [R1 R2 R3 R4 R5]); [done|done| |done|cbn; lia|cbn; lia|].
      { eapply List.Forall_impl; [|exact Hpend]. intros s' Hs' Hd'. cbn [rp_pending st2].
        rewrite om_get_remove, HP. destruct (eqc (sg_tx s) (sg_tx s')) eqn:E; [done|]. cbool.
        rewrite (proj2 (eqc_false (sg_tx s') (sg_tx s))) by congruence. auto. }
      exists st'. split; [done|]. unfold st2 in R2, R3, R4.
      cbn [rp_memtable rp_next_commit_ts rp_highest_tx] in R2, R3, R4.
      assert (Hdc : done_txs (s :: segs) = (sg_tx s, sg_ms s) :: done_txs segs)
        by (unfold done_txs; cbn [flat_map]; by rewrite Hd).
      split; rewrite ?Hdc.
      * done.
      * rewrite R2, Hmap, Hsat. cbn [number_commits commits_edits flat_map cb_tx cb_ts cb_muts].
        by rewrite <- apply_edits_app.
      * cbn [length]. lia.
      * lia.
      * constructor; [lia|done].
    + (* cut short *)
      destruct (IH (mkReplay (rp_memtable st) P hi (rp_next_commit_ts st)))
        as (st' & Hrep & [R1 R2 R3 R4 R5]); [done|done| |done|done|cbn; lia|].
      { specialize (Hr eq_refl). rewrite List.Forall_forall in Hpend, Hr |- *.
        intros s' Hin Hd'. cbn [rp_pending]. rewrite HP.
        rewrite (proj2 (eqc_false (sg_tx s') (sg_tx s))) by (by apply Hr). by apply Hpend. }
      exists st'. split; [done|]. cbn [rp_memtable rp_next_commit_ts rp_highest_tx] in R2, R3, R4.
      assert (Hdc : done_txs (s :: segs) = done_txs segs)
        by (unfold done_txs; cbn [flat_map]; by rewrite Hd).
      split; rewrite ?Hdc; [done|done|lia|lia|].
      constructor; [lia|done].
Qed.

(** *** Cutting it *)

(** The transactions left of a log after a cut: whole ones, then perhaps the
    first mutations of the next. *)
Definition cut_of (segs segs' : list Seg) : Prop :=
  exists a b, segs = a ++ b /\
    (segs' = a \/ exists s r ms', b = s :: r /\ ms' `prefix_of` sg_ms s /\ ms' <> [] /\
                    segs' = a ++ [mkSeg (sg_tx s) ms' false]).

Lemma cut_cons s segs segs' : cut_of segs segs' -> cut_of (s :: segs) (s :: segs').
Proof.
  intros (a & b & -> & Hcut). exists (s :: a), b. split; [done|].
  destruct Hcut as [->|(s0 & r & ms' & -> & Hp & Hne & ->)]; [by left|].
  right. exists s0, r, ms'. done.
Qed.

Lemma seg_log_cut s rs l :
  seg_log s = rs ++ l -> l <> [] ->
  exists ms', ms' `prefix_of` sg_ms s /\ rs = map (mutation_record (sg_tx s)) ms'.
Proof.
  unfold seg_log. intros Heq Hl.
  assert (Hpre : exists q, map (mutation_record (sg_tx s)) (sg_ms s) = rs ++ q).
  { apply app_eq_app in Heq as (l' & [[Hm _]|[Hrs Ht]]); [by exists l'|]. exists []. rewrite app_nil_r.
    destruct (sg_done s).
    - destruct l' as [|x l']; [by rewrite Hrs, app_nil_r|]. injection Ht as _ Ht.
      symmetry in Ht. by apply app_eq_nil in Ht as [_ ?].
    - symmetry in Ht. by apply app_eq_nil in Ht as [_ ?]. }
  destruct Hpre as [q Hq]. exists (take (length rs) (sg_ms s)). split; [apply prefix_take|].
  rewrite <- firstn_map, Hq. by rewrite take_app_length.
Qed.

Lemma prefix_cut segs rs :
  rs `prefix_of` seg_logs segs -> exists segs', cut_of segs segs' /\ rs = seg_logs segs'.
Proof.
  revert rs. induction segs as [|s segs IH]; intros rs [k Hk].
  - exists []. split; [exists [], []; by auto|]. symmetry in Hk. by apply app_eq_nil in Hk as [-> _].
  - cbn [seg_logs flat_map] in Hk. fold (seg_logs segs) in Hk.
    apply app_eq_app in Hk as (l & [[Hs Hl]|[Hrs Hl]]).
    + destruct l as [|x l0] eqn:El.
      * exists [s]. split; [exists [s], segs; by auto|]. unfold seg_logs. cbn [flat_map]. rewrite app_nil_r in *. by rewrite Hs.
      * rewrite <- El in *. apply seg_log_cut in Hs as (ms' & Hp & ->); [|by rewrite El].
        destruct ms' as [|m ms0] eqn:Em.
        { exists []. split; [exists [], (s :: segs); by auto|done]. }
        rewrite <- Em in *. exists [mkSeg (sg_tx s) ms' false]. split.
        { exists [], (s :: segs). split; [done|]. right. exists s, segs, ms'. split; [done|]. split; [done|].
          split; [by rewrite Em|done]. }
        cbn. unfold seg_log. cbn. by rewrite !app_nil_r.
    + destruct (IH l) as (segs' & Hc & ->); [by exists k|]. exists (s :: segs').
      split; [by apply cut_cons|]. by rewrite Hrs.
Qed.

Lemma no_reuse_app_l a b : no_reuse (a ++ b) -> no_reuse a.
Proof.
  induction a as [|s a IH]; cbn; [done|]. intros [Hs Ha]. split; [|auto].
  intros Hd. specialize (Hs Hd). by apply Forall_app in Hs as [? _].
Qed.

Lemma no_reuse_snoc a s :
  no_reuse a -> (sg_done s = true -> Forall (fun s0 => sg_done s0 = false -> sg_tx s <> sg_tx s0) a) ->
  no_reuse (a ++ [s]).
Proof.
  induction a as [|s0 a IH]; cbn; intros Ha Hs; [by split|]. destruct Ha as [Hs0 Ha]. split.
  - intros Hd. apply Forall_app. split; [auto|]. constructor; [|constructor].
    intros Hds. specialize (Hs Hds). apply Forall_cons in Hs as [Hs _]. auto.
  - apply IH; [done|]. intros Hds. by apply Forall_cons in Hs as [_ ?].
Qed.

Lemma cut_facts segs segs' :
  cut_of segs segs' ->
  done_txs segs' `prefix_of` done_txs segs /\
  (Forall (fun s => sg_ms s <> []) segs -> Forall (fun s => sg_ms s <> []) segs') /\
  (no_reuse segs -> no_reuse segs') /\
  (forall P : Z -> Prop, Forall (fun s => P (sg_tx s)) segs -> Forall (fun s => P (sg_tx s)) segs').
Proof.
  intros (a & b & -> & [->|(s & r & ms' & -> & Hp & Hne & ->)]).
  - split; [rewrite done_txs_app; by apply prefix_app_r|].
    split; [intros Hf; by apply Forall_app in Hf as [? _]|]. split; [apply no_reuse_app_l|].
    intros P Hf. by apply Forall_app in Hf as [? _].
  - split; [rewrite !done_txs_app; cbn; rewrite app_nil_r; by apply prefix_app_r|].
    split; [intros Hf; apply Forall_app in Hf as [? _]; apply Forall_app; split; [done|]; by constructor|].
    split.
    + intros Hn. apply no_reuse_snoc; [by eapply no_reuse_app_l|done].
    + intros P Hf. apply Forall_app in Hf as [? Hf]. apply Forall_cons in Hf as [? _].
      apply Forall_app. split; [done|]. by constructor.
Qed.

(** Cutting the tail only. *)
Lemma cut_app_l s1 s2 s2' : cut_of s2 s2' -> cut_of (s1 ++ s2) (s1 ++ s2').
Proof. induction s1 as [|s s1 IH]; cbn; [done|]. intros Hc. by apply cut_cons, IH. Qed.

Lemma normalize_seg_logs segs : map normalize (seg_logs segs) = seg_logs segs.
Proof.
  induction segs as [|s segs IH]; [done|]. cbn [seg_logs flat_map]. fold (seg_logs segs).
  rewrite map_app, IH. f_equal. unfold seg_log. rewrite map_app, map_map. f_equal.
  - apply map_ext. by intros [].
  - by destruct (sg_done s).
Qed.

(** ** The engine's invariant *)

(** What is durable of a log, and the rest, once [new] is appended. *)
Definition log_after {A} (mode : SyncMode) (durable rest new : list A) : list A * list A :=
  match mode with
  | Full => (durable ++ rest ++ new, [])
  | Group _ => (durable, rest ++ new)
  end.

(** The log of an engine: [base] is the first transaction id handed out since the
    engine was last opened, [s1] the part of the log that is durable and [s2] the
    rest. *)
Record log_inv (base : Z) (e : Engine) (s1 s2 : list Seg) : Prop := {
  ei_wal : wal_holds (e_wal e) (seg_logs (s1 ++ s2));
  ei_durable : lf_durable (w_file (e_wal e)) = blen (log_bytes (seg_logs s1));
  ei_full : e_sync_mode e = Full -> s2 = [];
  ei_next : 1 <= base <= e_next_tx_id e;
  ei_ne : Forall (fun s => sg_ms s <> []) (s1 ++ s2);
  ei_reuse : no_reuse (s1 ++ s2);
  ei_torn : Forall (fun s => sg_done s = false -> sg_tx s < base) (s1 ++ s2);
  ei_ids : Forall (fun s => 0 <= sg_tx s < u64_max) (s1 ++ s2);
}.

Definition log_inv_at (base : Z) (e : Engine) (s : list Seg * list Seg) : Prop := log_inv base e s.1 s.2.

(** An engine that was never flushed: its memtable holds the whole log.  [c0] is
    the newest commit in the SSTs when the log was started. *)
Record eng_inv (c0 base : Z) (e : Engine) (s1 s2 : list Seg) : Prop := {
  ei_c0 : 0 <= c0;
  ei_log : log_inv base e s1 s2;
  ei_mem : mt_inv (e_memtable e);
  ei_map : mt_map (e_memtable e) =
    apply_edits [] (commits_edits (number_commits (c0 + 1) (done_txs (s1 ++ s2))));
  ei_seq : e_commit_seq e = c0 + 1 + Z.of_nat (length (done_txs (s1 ++ s2)));
  ei_seq_bound : e_commit_seq e < OPEN_ENDED_TS;
}.

Definition eng_inv_at (c0 base : Z) (e : Engine) (s : list Seg * list Seg) : Prop :=
  eng_inv c0 base e s.1 s.2.

Definition done_seg (t : Z * list Mutation) : Seg := mkSeg t.1 t.2 true.

Lemma log_after_app {A} mode (s1 s2 s : list A) :
  (log_after mode s1 s2 s).1 ++ (log_after mode s1 s2 s).2 = s1 ++ s2 ++ s.
Proof. destruct mode; cbn; by rewrite ?app_nil_r. Qed.

Lemma done_txs_done txs : done_txs (map done_seg txs) = txs.
Proof.
  induction txs as [|[tx ms] txs IH]; [done|]. unfold done_txs in *. cbn. by rewrite IH.
Qed.

Lemma seg_logs_done txs :
  Forall (fun t => t.2 <> []) txs -> seg_logs (map done_seg txs) = multi_log txs.
Proof.
  induction 1 as [|[tx ms] txs Hms _ IH]; [done|].
  unfold seg_logs, multi_log in *. cbn [map flat_map]. rewrite IH. f_equal. by destruct ms.
Qed.

Lemma no_reuse_done segs base txs :
  no_reuse segs -> Forall (fun s => sg_done s = false -> sg_tx s < base) segs ->
  Forall (fun t => base <= t.1) txs -> no_reuse (segs ++ map done_seg txs).
Proof.
  intros Hr Ht Hb. revert segs Hr Ht. induction Hb as [|t txs Hbt _ IH]; intros segs Hr Ht.
  - by rewrite app_nil_r.
  - cbn [map]. change (segs ++ done_seg t :: map done_seg txs) with (segs ++ [done_seg t] ++ map done_seg txs).
    rewrite app_assoc. apply IH.
    + apply no_reuse_snoc; [done|]. intros _. eapply List.Forall_impl; [|exact Ht].
      intros s Hs Hd. specialize (Hs Hd). cbn. lia.
    + apply Forall_app. split; [done|]. by constructor.
Qed.

(** A new transaction: id handed out since the last open, representable sizes. *)
Definition tx_ok (base : Z) (t : Z * list Mutation) : Prop :=
  base <= t.1 /\ 0 <= t.1 < u64_max /\ t.2 <> [] /\ Forall mutation_ok t.2.

(** Durability of the file after [txs] were appended to the log [segs]. *)
Definition durable_after (mode : SyncMode) (d : Z) (segs : list Seg) (txs : list (Z * list Mutation)) : Z :=
  match mode with
  | Full => blen (log_bytes (seg_logs segs ++ multi_log txs))
  | Group _ => d
  end.

(** Appending committed transactions keeps the invariant of the log. *)
Lemma log_inv_commit base e e' s1 s2 txs :
  log_inv base e s1 s2 -> Forall (tx_ok base) txs ->
  wal_holds (e_wal e') (seg_logs (s1 ++ s2) ++ multi_log txs) ->
  lf_durable (w_file (e_wal e')) =
    durable_after (e_sync_mode e) (lf_durable (w_file (e_wal e))) (s1 ++ s2) txs ->
  e_sync_mode e' = e_sync_mode e -> e_next_tx_id e <= e_next_tx_id e' ->
  log_inv_at base e' (log_after (e_sync_mode e) s1 s2 (map done_seg txs)).
Proof.
  intros [] Htx Hw Hd Hmode Hnext.
  assert (Hne : Forall (fun t => t.2 <> []) txs)
    by (eapply List.Forall_impl; [|exact Htx]; by intros t (_ & _ & ? & _)).
  assert (Hlog : seg_logs ((s1 ++ s2) ++ map done_seg txs) = seg_logs (s1 ++ s2) ++ multi_log txs)
    by (by rewrite seg_logs_app, seg_logs_done).
  pose proof (log_after_app (e_sync_mode e) s1 s2 (map done_seg txs)) as Hla. rewrite app_assoc in Hla.
  split; rewrite ?Hla, ?Hlog; try done.
  - rewrite Hd. destruct (e_sync_mode e); cbn [durable_after log_after fst]; [|done]. by rewrite app_assoc, Hlog.
  - rewrite Hmode. destruct (e_sync_mode e); cbn; done.
  - lia.
  - apply Forall_app. split; [done|]. by apply Forall_map.
  - apply no_reuse_done with (base := base); [done|done|].
    eapply List.Forall_impl; [|exact Htx]. by intros t [? _].
  - apply Forall_app. split; [done|]. apply Forall_map. eapply List.Forall_impl; [|exact Htx]. done.
  - apply Forall_app. split; [done|]. apply Forall_map.
    eapply List.Forall_impl; [|exact Htx]. by intros t (_ & ? & _).
Qed.

(** *** The memtable side of a commit *)

Lemma apply_commit_ok e tx ms :
  mt_inv (e_memtable e) -> 0 <= e_commit_seq e -> e_commit_seq e + 1 < OPEN_ENDED_TS ->
  exists e', apply_commit e tx ms = (e', Ok (e_commit_seq e)) /\ mt_inv (e_memtable e') /\
    mt_map (e_memtable e') =
      apply_edits (mt_map (e_memtable e)) (commits_edits (number_commits (e_commit_seq e) [(tx, ms)])) /\
    e_commit_seq e' = e_commit_seq e + 1 /\ e_wal e' = e_wal e /\ e_sync_mode e' = e_sync_mode e /\
    e_pinned_snapshots e' = e_pinned_snapshots e /\ e_next_tx_id e' = e_next_tx_id e.
Proof.
  intros Hinv Hpos Hb. unfold apply_commit. cbn [with_commit_seq e_memtable].
  destruct (mt_apply_mutations_ok (e_memtable e) tx ms (e_commit_seq e) Hinv ltac:(lia))
    as (t' & -> & Hinv' & Hmap & _).
  eexists. split; [done|]. cbn [with_hook with_memtable with_commit_seq e_memtable e_commit_seq
    e_wal e_sync_mode e_pinned_snapshots e_next_tx_id].
  split; [done|]. split.
  - rewrite Hmap. cbn [number_commits commits_edits flat_map cb_tx cb_ts cb_muts]. by rewrite app_nil_r.
  - split; [|done]. unfold wrap64. apply Z.mod_small. unfold OPEN_ENDED_TS, u64_max in Hb. lia.
Qed.

Lemma apply_batch_ok e reqs sent :
  mt_inv (e_memtable e) -> 0 <= e_commit_seq e ->
  e_commit_seq e + Z.of_nat (length reqs) < OPEN_ENDED_TS ->
  exists e' ok, apply_batch e reqs sent = (e', sent ++ ok, Ok tt) /\ map fst ok = reqs /\
    Forall (fun p => is_ok p.2 = true) ok /\ mt_inv (e_memtable e') /\
    mt_map (e_memtable e') = apply_edits (mt_map (e_memtable e)) (commits_edits
      (number_commits (e_commit_seq e) (map (fun r => (pw_tx_id r, pw_mutations r)) reqs))) /\
    e_commit_seq e' = e_commit_seq e + Z.of_nat (length reqs) /\
    e_wal e' = e_wal e /\ e_sync_mode e' = e_sync_mode e /\ e_next_tx_id e' = e_next_tx_id e.
Proof.
  revert e sent. induction reqs as [|r reqs IH]; intros e sent Hinv Hpos Hb.
  - exists e, []. cbn. rewrite app_nil_r. repeat (split; [done|]). split; [lia|done].
  - cbn [length] in Hb. cbn [apply_batch].
    destruct (apply_commit_ok e (pw_tx_id r) (pw_mutations r) Hinv Hpos ltac:(lia))
      as (e1 & -> & Hinv1 & Hmap1 & Hseq1 & Hw1 & Hm1 & _ & Hn1).
    destruct (IH e1 (sent ++ [(r, Ok (e_commit_seq e))])) as (e2 & ok & Ha & Hf & Hok & Hinv2 & Hmap2 & Hseq2 & Hw2 & Hm2 & Hn2);
      [done|lia|lia|].
    exists e2, ((r, Ok (e_commit_seq e)) :: ok). rewrite Ha, <- app_assoc.
    split; [done|]. split; [cbn; by rewrite Hf|]. split; [by constructor|]. split; [done|]. split.
    + rewrite Hmap2, Hmap1, <- apply_edits_app. f_equal. rewrite <- commits_edits_app. f_equal.
      cbn [map number_commits app]. by rewrite Hseq1.
    + cbn [length]. split; [lia|]. split; [congruence|]. split; congruence.
Qed.

(** The transaction a call committed. *)
Definition committed (tx : Z) (ms : list Mutation) (r : Result TxnTs) : list (Z * list Mutation) :=
  match r with Ok _ => [(tx, ms)] | Err _ => [] end.

(** [e'] is [e] after committing [txs], in order. *)
Record commits_to (e e' : Engine) (txs : list (Z * list Mutation)) : Prop := {
  ct_inv : mt_inv (e_memtable e');
  ct_map : mt_map (e_memtable e') =
    apply_edits (mt_map (e_memtable e)) (commits_edits (number_commits (e_commit_seq e) txs));
  ct_seq : e_commit_seq e' = e_commit_seq e + Z.of_nat (length txs);
  ct_bound : e_commit_seq e' < OPEN_ENDED_TS;
}.

Lemma commits_to_none (e e' : Engine) :
  mt_inv (e_memtable e) -> e_commit_seq e < OPEN_ENDED_TS -> e_memtable e' = e_memtable e ->
  e_commit_seq e' = e_commit_seq e -> commits_to e e' [].
Proof. intros Hi Hb Hm Hs. split; rewrite ?Hm, ?Hs; try done. cbn. lia. Qed.

Lemma commits_to_from (e e1 e' : Engine) txs :
  e_memtable e1 = e_memtable e -> e_commit_seq e1 = e_commit_seq e ->
  commits_to e1 e' txs -> commits_to e e' txs.
Proof. intros Hm Hs [Hi Hmap Hq Hb]. rewrite Hm, Hs in *. by split. Qed.

Lemma commit_single_to (e : Engine) tx ms io_w io_s e' r :
  mt_inv (e_memtable e) -> 0 <= e_commit_seq e -> e_commit_seq e + 1 < OPEN_ENDED_TS ->
  commit_single e tx ms io_w io_s = (e', r) -> commits_to e e' (committed tx ms r).
Proof.
  intros Hi Hp Hb. unfold commit_single. destruct (hook_pre_commit _ _ _) as [h r0].
  destruct (if hook_is_noop then Ok tt else hook_result r0).
  2:{ intros [= <- <-]. apply commits_to_none; done || lia. }
  destruct (match e_sync_mode (with_hook e h) with Full => _ | Group _ => _ end) as [w [n|err]].
  2:{ intros [= <- <-]. apply commits_to_none; done || lia. }
  destruct (apply_commit_ok (with_wal (with_hook e h) w) tx ms Hi Hp Hb) as (e2 & -> & Hi2 & Hm & Hs & _).
  intros [= <- <-]. split; [done|exact Hm|exact Hs|]. cbn in Hs. lia.
Qed.

Lemma write_with_tx_to (e : Engine) tx ms throttle io_w io_s e' r :
  mt_inv (e_memtable e) -> 0 <= e_commit_seq e -> e_commit_seq e + 1 < OPEN_ENDED_TS ->
  write_with_tx e tx ms throttle io_w io_s = (e', r) -> commits_to e e' (committed tx ms r).
Proof.
  intros Hi Hp Hb. unfold write_with_tx.
  destruct ms as [|m ms]; [intros [= <- <-]; apply commits_to_none; done || lia|].
  destruct (tx =? 0); [intros [= <- <-]; apply commits_to_none; done || lia|].
  set (e1 := if _ <? _ then _ else _).
  assert (He1 : e_memtable e1 = e_memtable e /\ e_commit_seq e1 = e_commit_seq e)
    by (unfold e1; by destruct (_ <? _)).
  destruct He1 as [Hmem Hseq]. rewrite <- Hmem in Hi. rewrite <- Hseq in Hp, Hb.
  destruct throttle; [| |intros [= <- <-]; apply commits_to_none; congruence || lia];
    intros Hw; apply (commits_to_from e e1); try done; by eapply commit_single_to.
Qed.

Lemma engine_write_to (e : Engine) ms throttle io_w io_s e' r :
  mt_inv (e_memtable e) -> 0 <= e_commit_seq e -> e_commit_seq e + 1 < OPEN_ENDED_TS ->
  engine_write e ms throttle io_w io_s = (e', r) ->
  commits_to e e' (committed (alloc_tx_id e).2 ms r).
Proof.
  intros Hi Hp Hb. unfold engine_write.
  destruct ms as [|m ms]; [intros [= <- <-]; apply commits_to_none; done || lia|].
  intros Hw. apply (commits_to_from e (alloc_tx_id e).1); [done|done|].
  by eapply write_with_tx_to; [..|exact Hw].
Qed.

(** *** The log side of a commit *)

Lemma encode_records_muts out tx ms :
  encode_records out (build_wal_records tx ms) = encode_mutation_frames out tx ms.
Proof.
  revert out. induction ms as [|m ms IH]; intros out; [done|].
  unfold build_wal_records. cbn [map]. fold (build_wal_records tx ms).
  destruct m; cbn [encode_records encode_mutation_frames wr_tx_id wr_op wr_key wr_value
    record_put record_delete]; case_scrut; auto.
Qed.

(** In group mode the single path writes what the batch path writes. *)
Lemma append_single_group w tx ms io :
  ms <> [] ->
  append_multi_batch w [(tx, build_wal_records tx ms)] io = append_multi_mutations w [(tx, ms)] io.
Proof.
  intros Hne. unfold append_multi_batch, append_multi_mutations. destruct (take_wal_buf w) as [buf w'].
  f_equal. cbn [encode_multi_batch encode_multi_mutations]. destruct ms as [|m ms]; [done|].
  cbn [build_wal_records map]. unfold encode_batch, encode_mutations.
  rewrite <- (encode_records_muts buf tx (m :: ms)). done.
Qed.

Lemma multi_log_pos txs :
  txs <> [] -> Forall (fun t => t.2 <> []) txs -> 0 < blen (log_bytes (multi_log txs)).
Proof.
  intros Hne Hms. destruct Hms as [|[tx ms] txs Hm _]; [done|]. destruct ms as [|m ms]; [done|].
  change (multi_log ((tx, m :: ms) :: txs)) with (txn_log tx (m :: ms) ++ multi_log txs).
  unfold txn_log. cbn [map app]. rewrite log_bytes_cons, blen_app.
  pose proof (record_frame_length (mutation_record tx m)).
  pose proof (blen_nonneg (log_bytes ((map (mutation_record tx) ms ++ [record_commit tx]) ++ multi_log txs))).
  unfold blen at 1. lia.
Qed.

Lemma append_sync_holds w rs txs :
  wal_holds w rs -> Forall batch_ok txs -> txs <> [] -> Forall (fun t => t.2 <> []) txs ->
  exists w' n, append_multi_mutations_commit_and_sync w txs IoOk IoOk = (w', Ok n) /\
    wal_holds w' (rs ++ multi_log txs) /\
    lf_durable (w_file w') = blen (log_bytes (rs ++ multi_log txs)).
Proof.
  intros Hw Hb Hne Hms. pose proof (multi_log_pos txs Hne Hms) as Hpos.
  destruct (append_multi_mutations_holds w rs txs IoOk Hw Hb) as (w1 & r & Ha & -> & Hw1 & _).
  unfold append_multi_mutations_commit_and_sync. rewrite Ha. unfold sync_if_written.
  rewrite (proj2 (Z.ltb_lt _ _)) by done. unfold wal_sync_data, file_sync_data.
  destruct Hw1 as (Hc & Hok & Htls & Hd). eexists _, _. split; [done|].
  unfold wal_holds. cbn [w_file w_tls_buf lf_contents lf_durable]. rewrite Hc.
  pose proof (blen_nonneg (log_bytes (rs ++ multi_log txs))).
  split; [|done]. split; [done|]. split; [done|]. split; [done|lia].
Qed.

(** *** Steps keep the invariant *)

Lemma log_inv_ext base e e' s1 s2 :
  e_wal e' = e_wal e -> e_sync_mode e' = e_sync_mode e -> e_next_tx_id e <= e_next_tx_id e' ->
  log_inv base e s1 s2 -> log_inv base e' s1 s2.
Proof. intros Hw Hs Hn []. split; rewrite ?Hw, ?Hs; try done. lia. Qed.

Lemma eng_inv_ext c0 base e e' s1 s2 :
  e_wal e' = e_wal e -> e_memtable e' = e_memtable e -> e_commit_seq e' = e_commit_seq e ->
  e_sync_mode e' = e_sync_mode e -> e_next_tx_id e <= e_next_tx_id e' ->
  eng_inv c0 base e s1 s2 -> eng_inv c0 base e' s1 s2.
Proof. intros Hw Hm Hc Hs Hn []. split; rewrite ?Hm, ?Hc; try done. by apply (log_inv_ext base e). Qed.

(** A step that commits nothing. *)
Lemma log_inv_idle base e e' s1 s2 :
  e_wal e' = e_wal e -> e_sync_mode e' = e_sync_mode e -> e_next_tx_id e <= e_next_tx_id e' ->
  log_inv base e s1 s2 -> log_inv_at base e' (log_after (e_sync_mode e) s1 s2 []).
Proof.
  intros Hw Hs Hn Hi.
  assert (Hla : log_after (e_sync_mode e) s1 s2 [] = (s1, s2)).
  { destruct (e_sync_mode e) eqn:E; cbn; rewrite !app_nil_r; [|done].
    by rewrite (ei_full _ _ _ _ Hi E), app_nil_r. }
  rewrite Hla. by apply (log_inv_ext base e).
Qed.

(** A step that commits [txs] to the log and to the memtable. *)
Lemma eng_inv_step c0 base e e' s1 s2 txs :
  eng_inv c0 base e s1 s2 -> commits_to e e' txs ->
  log_inv_at base e' (log_after (e_sync_mode e) s1 s2 (map done_seg txs)) ->
  eng_inv_at c0 base e' (log_after (e_sync_mode e) s1 s2 (map done_seg txs)).
Proof.
  intros [] [Hi Hm Hq Hb] Hlog.
  assert (Hdone : done_txs ((s1 ++ s2) ++ map done_seg txs) = done_txs (s1 ++ s2) ++ txs)
    by (by rewrite done_txs_app, done_txs_done).
  pose proof (log_after_app (e_sync_mode e) s1 s2 (map done_seg txs)) as Hla. rewrite app_assoc in Hla.
  split; rewrite ?Hla, ?Hdone; try done.
  - rewrite Hm, ei_map0, <- apply_edits_app, <- commits_edits_app, number_commits_app. by rewrite ei_seq0.
  - rewrite Hq, ei_seq0, length_app. lia.
Qed.

(** The WAL append of a non-empty batch, in either mode. *)
Lemma append_mode_holds e w segs txs :
  wal_holds w (seg_logs segs) -> Forall batch_ok txs -> txs <> [] -> Forall (fun t => t.2 <> []) txs ->
  exists w' n,
    match e_sync_mode e with
    | Full => append_multi_mutations_commit_and_sync w txs IoOk IoOk
    | Group _ => append_multi_mutations w txs IoOk
    end = (w', Ok n) /\ wal_holds w' (seg_logs segs ++ multi_log txs) /\
    lf_durable (w_file w') = durable_after (e_sync_mode e) (lf_durable (w_file w)) segs txs.
Proof.
  intros Hw Hb Hne Hms. destruct (e_sync_mode e).
  - destruct (append_sync_holds w (seg_logs segs) txs Hw Hb Hne Hms) as (w' & n & Ha & Hw' & Hd). eauto.
  - destruct (append_multi_mutations_holds w (seg_logs segs) txs IoOk Hw Hb) as (w' & r & Ha & -> & Hw' & Hd).
    exists w', (blen (log_bytes (multi_log txs))). done.
Qed.

Lemma tx_ok_batch base txs : Forall (tx_ok base) txs -> Forall batch_ok txs /\ Forall (fun t => t.2 <> []) txs.
Proof.
  intros Hok. split; (eapply List.Forall_impl; [|exact Hok]); intros t (? & ? & ? & ?); [|done].
  split; [unfold is_u64; lia|done].
Qed.

Lemma commit_single_log base e s1 s2 tx ms e' r :
  log_inv base e s1 s2 -> mt_inv (e_memtable e) -> 0 <= e_commit_seq e ->
  tx_ok base (tx, ms) -> e_commit_seq e + 1 < OPEN_ENDED_TS ->
  commit_single e tx ms IoOk IoOk = (e', r) ->
  log_inv_at base e' (log_after (e_sync_mode e) s1 s2 (map done_seg (committed tx ms r))).
Proof.
  intros Hinv Hmem Hpos Htx Hb. unfold commit_single. destruct (hook_pre_commit _ _ _) as [h r0].
  destruct (if hook_is_noop then Ok tt else hook_result r0) as [u|err].
  2:{ intros [= <- <-]. by eapply log_inv_idle; [..|exact Hinv]. }
  assert (Hall : Forall (tx_ok base) [(tx, ms)]) by (by constructor).
  destruct (tx_ok_batch _ _ Hall) as [Hbatch Hms]. pose proof Hinv as [].
  pose proof ei_wal0 as (Hc & Hrok & Htls & Hdur).
  assert (Happ : match e_sync_mode (with_hook e h) with
    | Full => append_mutations_commit_and_sync (e_wal (with_hook e h)) tx ms IoOk IoOk
    | Group _ => append_multi_batch (e_wal (with_hook e h)) [(tx, build_wal_records tx ms)] IoOk
    end = match e_sync_mode e with
    | Full => append_multi_mutations_commit_and_sync (e_wal e) [(tx, ms)] IoOk IoOk
    | Group _ => append_multi_mutations (e_wal e) [(tx, ms)] IoOk
    end).
  { apply Forall_cons in Hms as [Hms _]. cbn [with_hook e_sync_mode e_wal]. destruct (e_sync_mode e).
    - by destruct (append_single_is_multi (e_wal e) tx ms IoOk IoOk Htls).
    - by apply append_single_group. }
  rewrite Happ.
  destruct (append_mode_holds e (e_wal e) (s1 ++ s2) [(tx, ms)]) as (w' & n & -> & Hw' & Hd);
    [done|done|done|done|].
  set (e1 := with_wal (with_hook e h) w').
  destruct (apply_commit_ok e1 tx ms) as (e2 & -> & _ & _ & _ & Hw2 & Hmode2 & _ & Hn2);
    [done|cbn; lia|cbn; lia|].
  intros [= <- <-]. apply (log_inv_commit base e e2 s1 s2 [(tx, ms)]); rewrite ?Hw2, ?Hmode2, ?Hn2; done.
Qed.

Lemma write_with_tx_log base e s1 s2 tx ms throttle e' r :
  log_inv base e s1 s2 -> mt_inv (e_memtable e) -> 0 <= e_commit_seq e ->
  base <= tx < u64_max -> Forall mutation_ok ms -> e_commit_seq e + 1 < OPEN_ENDED_TS ->
  write_with_tx e tx ms throttle IoOk IoOk = (e', r) ->
  log_inv_at base e' (log_after (e_sync_mode e) s1 s2 (map done_seg (committed tx ms r))).
Proof.
  intros Hinv Hmem Hpos Htx Hms Hb. unfold write_with_tx.
  destruct ms as [|m ms0] eqn:Em; [intros [= <- <-]; by apply (log_inv_idle _ e)|]. rewrite <- Em in *.
  destruct (tx =? 0); [intros [= <- <-]; by apply (log_inv_idle _ e)|].
  set (e1 := if _ <? _ then _ else _).
  assert (He1 : log_inv base e1 s1 s2 /\ e_commit_seq e1 = e_commit_seq e /\ e_sync_mode e1 = e_sync_mode e /\ e_memtable e1 = e_memtable e).
  { unfold e1. destruct (Z.ltb_spec (e_next_tx_id e) (saturating_add tx 1)); [|done]. split; [|done].
    eapply log_inv_ext; [..|exact Hinv]; try done. cbn. lia. }
  destruct He1 as (He1 & Hs1 & Hm1 & Ht1). rewrite <- Hm1. rewrite <- Ht1 in Hmem. pose proof (ei_next _ _ _ _ Hinv).
  destruct throttle; [| |intros [= <- <-]; by apply (log_inv_idle _ e1)];
    apply commit_single_log; try done;
    try (split; [cbn; lia|]; split; [cbn; lia|]; split; [by rewrite Em|done]); lia.
Qed.

Lemma alloc_next base e s1 s2 : log_inv base e s1 s2 -> (alloc_tx_id e).2 = e_next_tx_id e.
Proof. intros []. unfold alloc_tx_id. by rewrite (proj2 (Z.eqb_neq (e_next_tx_id e) 0)) by lia. Qed.

(** [Engine::write] takes a fresh id. *)
Lemma engine_write_log base e s1 s2 ms throttle e' r :
  log_inv base e s1 s2 -> mt_inv (e_memtable e) -> 0 <= e_commit_seq e ->
  e_next_tx_id e < u64_max -> Forall mutation_ok ms -> e_commit_seq e + 1 < OPEN_ENDED_TS ->
  engine_write e ms throttle IoOk IoOk = (e', r) ->
  log_inv_at base e'
    (log_after (e_sync_mode e) s1 s2 (map done_seg (committed (e_next_tx_id e) ms r))).
Proof.
  intros Hinv Hmem Hpos Hid Hms Hb. unfold engine_write.
  destruct ms as [|m ms0] eqn:Em; [intros [= <- <-]; by apply (log_inv_idle _ e)|]. rewrite <- Em in *.
  unfold alloc_tx_id. pose proof (ei_next _ _ _ _ Hinv).
  rewrite (proj2 (Z.eqb_neq (e_next_tx_id e) 0)) by lia.
  assert (Hw : wrap64 (e_next_tx_id e + 1) = e_next_tx_id e + 1)
    by (unfold wrap64; apply Z.mod_small; unfold u64_max in Hid; lia).
  intros Hwr. change (e_sync_mode e) with (e_sync_mode (with_next_tx e (wrap64 (e_next_tx_id e + 1)))).
  eapply write_with_tx_log; [|..|exact Hwr]; [|done|done|lia|done|done].
  eapply log_inv_ext; [..|exact Hinv]; try done. cbn. lia.
Qed.

Definition sent_txs (sent : Sent) : list (Z * list Mutation) :=
  flat_map (fun p => match p.2 with
                     | Ok _ => [(pw_tx_id p.1, pw_mutations p.1)]
                     | Err _ => []
                     end) sent.

Lemma sent_txs_app a b : sent_txs (a ++ b) = sent_txs a ++ sent_txs b.
Proof. apply flat_map_app. Qed.

Lemma sent_txs_err sent : Forall (fun p => is_ok p.2 = false) sent -> sent_txs sent = [].
Proof.
  induction 1 as [|[q r] sent Hr _ IH]; [done|]. unfold sent_txs in *. cbn [flat_map]. rewrite IH.
  by destruct r.
Qed.

Lemma sent_txs_ok sent :
  Forall (fun p => is_ok p.2 = true) sent ->
  sent_txs sent = map (fun r => (pw_tx_id r, pw_mutations r)) (map fst sent).
Proof.
  induction 1 as [|[q r] sent Hr _ IH]; [done|]. unfold sent_txs in *. cbn [flat_map map]. rewrite IH.
  by destruct r.
Qed.

Lemma accepted_spec h batch h' ok bad :
  accepted h batch = (h', ok, bad) ->
  Forall (fun p => is_ok p.2 = false) bad /\ forall x, In x ok -> In x batch.
Proof.
  revert h h' ok bad. induction batch as [|req batch IH]; intros h h' ok bad; cbn.
  - intros [= <- <- <-]. done.
  - destruct (hook_pre_commit _ _ _) as [h1 r]. destruct (accepted h1 batch) as [[h2 ok2] bad2] eqn:E.
    destruct (IH _ _ _ _ E) as [Hbad Hin].
    destruct (hook_result r) as [u|err]; intros [= <- <- <-].
    + split; [done|]. intros x [<-|Hx]; auto.
    + split; [by constructor|]. auto.
Qed.

Lemma accepted_length h batch h' ok bad :
  accepted h batch = (h', ok, bad) -> (length ok <= length batch)%nat.
Proof.
  revert h h' ok bad. induction batch as [|req batch IH]; intros h h' ok bad; cbn.
  - intros [= <- <- <-]. done.
  - destruct (hook_pre_commit _ _ _) as [h1 r]. destruct (accepted h1 batch) as [[h2 ok2] bad2] eqn:E.
    specialize (IH _ _ _ _ E). destruct (hook_result r); intros [= <- <- <-]; cbn; lia.
Qed.

Lemma flush_pending_to (e : Engine) batch io_w io_s e' sent r :
  mt_inv (e_memtable e) -> 0 <= e_commit_seq e ->
  e_commit_seq e + Z.of_nat (length batch) < OPEN_ENDED_TS ->
  flush_pending_batch e batch io_w io_s = (e', sent, r) ->
  commits_to e e' (sent_txs sent) /\
  forall t, In t (sent_txs sent) -> exists req, In req batch /\ t = (pw_tx_id req, pw_mutations req).
Proof.
  intros Hi Hp Hb. unfold flush_pending_batch.
  pose proof (pre_commit_accepted (e_hook e) batch) as Hpc.
  destruct (pre_commit_loop _ _ _ _ _ _) as [[[h b] passed] sent0].
  destruct (accepted (e_hook e) batch) as [[h2 ok] bad] eqn:Eacc. destruct Hpc as (-> & -> & ->).
  pose proof (accepted_length _ _ _ _ _ Eacc) as Hlen.
  destruct (accepted_spec _ _ _ _ _ Eacc) as [Hbad Hsub].
  destruct ok as [|q ok0] eqn:Eok.
  { intros [= <- <- _]. rewrite sent_txs_err by done. split; [|done]. apply commits_to_none; done || lia. }
  rewrite <- Eok in *.
  destruct (match e_sync_mode _ with Full => _ | Group _ => _ end) as [w [n|err]].
  - destruct (apply_batch_ok (with_wal (with_hook e h2) w) ok bad)
      as (e2 & oks & -> & Hfst & Hoks & Hi2 & Hm2 & Hs2 & _); [done|done|cbn; lia|].
    intros [= <- <- _]. rewrite sent_txs_app, sent_txs_err, sent_txs_ok, Hfst by done. cbn [app]. split.
    + split; [done|exact Hm2|by rewrite length_map|]. cbn in Hs2. lia.
    + intros t (req & <- & Hin)%in_map_iff. exists req. split; [by apply Hsub|done].
  - intros [= <- <- _]. rewrite sent_txs_err; [split; [apply commits_to_none; done || lia|done]|].
    apply Forall_app. split; [done|]. apply Forall_map, List.Forall_forall. done.
Qed.

(** A group commit accepts in order, makes all of them durable together, and
    reports to each waiter. *)
Lemma flush_pending_log base e s1 s2 batch e' sent r :
  log_inv base e s1 s2 -> mt_inv (e_memtable e) -> 0 <= e_commit_seq e ->
  Forall (fun req => tx_ok base (pw_tx_id req, pw_mutations req)) batch ->
  e_commit_seq e + Z.of_nat (length batch) < OPEN_ENDED_TS ->
  flush_pending_batch e batch IoOk IoOk = (e', sent, r) ->
  r = Ok tt /\ log_inv_at base e' (log_after (e_sync_mode e) s1 s2 (map done_seg (sent_txs sent))).
Proof.
  intros Hinv Hmem Hpos Hbatch Hb. unfold flush_pending_batch.
  pose proof (pre_commit_accepted (e_hook e) batch) as Hp.
  destruct (pre_commit_loop _ _ _ _ _ _) as [[[h b] passed] sent0].
  destruct (accepted (e_hook e) batch) as [[h2 ok] bad] eqn:Eacc. destruct Hp as (-> & -> & ->).
  pose proof (accepted_length _ _ _ _ _ Eacc) as Hlen.
  destruct (accepted_spec _ _ _ _ _ Eacc) as [Hbad Hsub].
  destruct ok as [|q ok0] eqn:Eok.
  { intros [= <- <- <-]. split; [done|]. rewrite sent_txs_err by done.
    by eapply log_inv_idle; [..|exact Hinv]. }
  rewrite <- Eok in *. set (txs := map (fun req => (pw_tx_id req, pw_mutations req)) ok).
  assert (Htx : Forall (tx_ok base) txs).
  { apply Forall_map. rewrite List.Forall_forall in Hbatch |- *. intros x Hx. by apply Hbatch, Hsub. }
  destruct (tx_ok_batch _ _ Htx) as [Hbo Hms].
  assert (Hne : txs <> []) by (unfold txs; by rewrite Eok).
  pose proof Hinv as [].
  destruct (append_mode_holds e (e_wal e) (s1 ++ s2) txs) as (w' & n & Ha & Hw' & Hd); [done..|].
  cbn [with_hook e_sync_mode e_wal]. rewrite Ha.
  set (e1 := with_wal (with_hook e h2) w').
  destruct (apply_batch_ok e1 ok bad)
    as (e2 & oks & -> & Hfst & Hoks & _ & _ & _ & Hw2 & Hmode2 & Hn2);
    [done|cbn; lia|cbn; lia|].
  intros [= <- <- <-]. split; [done|].
  rewrite sent_txs_app, sent_txs_err, sent_txs_ok, Hfst by done. cbn [app]. fold txs.
  apply (log_inv_commit base e e2 s1 s2 txs); rewrite ?Hw2, ?Hmode2, ?Hn2; done.
Qed.

Lemma background_sync_log base e s1 s2 :
  log_inv base e s1 s2 -> log_inv base (background_sync e IoOk) (s1 ++ s2) [].
Proof.
  intros []. destruct ei_wal0 as (Hc & Hok & Htls & Hd).
  assert (Hdur : lf_durable (w_file (e_wal (background_sync e IoOk))) = blen (log_bytes (seg_logs (s1 ++ s2))))
    by (cbn; by rewrite Hc).
  split; rewrite ?app_nil_r; try done.
  split; [done|]. split; [done|]. split; [done|]. rewrite Hdur.
  pose proof (blen_nonneg (log_bytes (seg_logs (s1 ++ s2)))). lia.
Qed.

(** *** Opening an engine *)

(** The manifest opens, and the newest commit in the SSTs it names is [c0]. *)
Definition ssts_at (man_file : option bytes) (read_all : Z -> Result (list VersionedRow))
    (manifest : Manifest) (c0 : TxnTs) : Prop :=
  man_open man_file IoOk = Some (Ok manifest) /\
  sst_max_commit read_all (file_ids (mf_version_set manifest)) = c0.

(** What [open_with_hook] makes of a log whose readable frames are [segs]. *)
Lemma engine_open_holds c0 wal_file w segs man_file read_all manifest hook mode :
  wal_recover wal_file = Some (Ok (map normalize (seg_logs segs))) ->
  wal_open wal_file IoOk IoOk = Some (Ok w) -> wal_holds w (seg_logs segs) ->
  lf_durable (w_file w) = blen (log_bytes (seg_logs segs)) ->
  ssts_at man_file read_all manifest c0 -> 0 <= c0 ->
  c0 + 1 + Z.of_nat (length (done_txs segs)) < OPEN_ENDED_TS ->
  Forall (fun s => sg_ms s <> []) segs -> no_reuse segs ->
  Forall (fun s => 0 <= sg_tx s < u64_max) segs ->
  exists e, engine_open wal_file man_file read_all hook mode IoOk IoOk IoOk = Some (Ok (e, manifest)) /\
    eng_inv c0 (e_next_tx_id e) e segs [] /\ e_sync_mode e = mode /\ e_hook e = hook.
Proof.
  intros Hrec Hopen Hw Hdur [Hman Hmax] Hc0 Hb Hne Hreuse Hids.
  unfold engine_open. rewrite Hrec, Hman, Hmax, normalize_seg_logs.
  assert (Hsat : saturating_add c0 1 = c0 + 1)
    by (unfold saturating_add; apply Z.min_l; unfold OPEN_ENDED_TS in Hb; lia).
  rewrite Hsat. destruct mt_default_ok as (Hd & Hdm & _).
  destruct (replay_logs segs (mkReplay mt_default [] 0 (c0 + 1))) as (st & -> & [R1 R2 R3 R4 R5]);
    [done|done|by apply List.Forall_forall|done|cbn; lia|cbn; lia|].
  rewrite Hopen. eexists. split; [done|].
  cbn [rp_memtable rp_next_commit_ts rp_highest_tx] in R2, R3, R4. rewrite Hdm in R2.
  split; [|done]. split; [done| |done|by rewrite app_nil_r|rewrite app_nil_r; cbn [e_commit_seq]; lia|cbn [e_commit_seq]; lia].
  split; rewrite ?app_nil_r; cbn [e_wal e_next_tx_id e_sync_mode]; try done.
  - unfold saturating_add, u64_max. lia.
  - rewrite List.Forall_forall in Hids, R5 |- *. intros s Hin _.
    specialize (Hids s Hin). specialize (R5 s Hin). unfold saturating_add. lia.
Qed.

(** A crash leaves a prefix of the log file that contains its durable part; the
    engine opens on it with a prefix of the commits that contains the durable ones. *)
Lemma engine_reopen c0 base e s1 s2 n man_file read_all manifest hook mode :
  log_inv base e s1 s2 -> 0 <= c0 -> c0 + 1 + Z.of_nat (length (done_txs (s1 ++ s2))) < OPEN_ENDED_TS -> blen (lf_contents (w_file (e_wal e))) <= u64_max ->
  lf_durable (w_file (e_wal e)) <= Z.of_nat n -> torn_magic (take n (lf_contents (w_file (e_wal e)))) = false ->
  ssts_at man_file read_all manifest c0 ->
  exists e' s2', engine_open (Some (take n (lf_contents (w_file (e_wal e))))) man_file read_all
      hook mode IoOk IoOk IoOk = Some (Ok (e', manifest)) /\
    done_txs s2' `prefix_of` done_txs s2 /\
    eng_inv c0 (e_next_tx_id e') e' (s1 ++ s2') [] /\ e_sync_mode e' = mode /\ e_hook e' = hook.
Proof.
  intros [] Hc0 Hb Hlen Hdn Hn4 Hssts. destruct ei_wal0 as (Hc & Hok & _ & _).
  rewrite Hc in Hlen |- *. rewrite seg_logs_app in Hok, Hlen |- *. rewrite ei_durable0 in Hdn.
  rewrite Hc, seg_logs_app in Hn4. destruct (crash_image_opens (seg_logs s1) (seg_logs s2) n Hok Hlen)
    as (rs & Hp & Hr & w' & Hwo & Hwh & Hwd); [unfold blen in Hdn; lia|done|].
  destruct (prefix_cut _ _ Hp) as (s2' & Hcut & ->).
  destruct (cut_facts _ _ (cut_app_l s1 s2 s2' Hcut)) as (Hpre & Hne & Hreuse & Hid).
  destruct (cut_facts _ _ Hcut) as (Hpre2 & _).
  rewrite <- seg_logs_app in Hwh, Hwd.
  pose proof (prefix_length _ _ Hpre).
  destruct (engine_open_holds c0 (Some (take n (log_bytes (seg_logs s1 ++ seg_logs s2)))) w'
    (s1 ++ s2') man_file read_all manifest hook mode)
    as (e' & Ho & Hi & Hm & Hh); try done;
    [by rewrite seg_logs_app|lia|auto|auto|by apply (Hid (fun t => 0 <= t < u64_max))|].
  exists e', s2'. done.
Qed.

(** An image that is cut inside the first magic number is refused; no committed
    transaction of it was durable. *)
Lemma engine_open_refused base e s1 s2 n man_file read_all hook mode io_man io_len io_s :
  log_inv base e s1 s2 -> lf_durable (w_file (e_wal e)) <= Z.of_nat n ->
  torn_magic (take n (lf_contents (w_file (e_wal e)))) = true ->
  done_txs s1 = [] /\
  engine_open (Some (take n (lf_contents (w_file (e_wal e))))) man_file read_all hook mode io_man io_len io_s =
    Some (Err (CorruptMessage "WAL file uses an unsupported format")).
Proof.
  intros [] Hd Ht. destruct ei_wal0 as (Hc & _). rewrite Hc in Ht |- *.
  apply torn_magic_refused in Ht as [Hn Hr]. split; [|unfold engine_open; by rewrite Hr].
  rewrite ei_durable0 in Hd. pose proof (short_log_empty _ n Hn Hd) as He. clear -He.
  induction s1 as [|[tx ms []] s1 IH]; [done|..]; cbn in He |- *.
  - by destruct (map (mutation_record tx) ms).
  - apply app_eq_nil in He as [_ He]. by apply IH.
Qed.

(** ** Runs of an engine over one log *)

(** [eng_run c0 base e durable rest]: [e] is reached from an engine opened on an
    absent log, over SSTs whose newest commit is [c0]; it committed the
    transactions [durable ++ rest], in order, of which [durable] survive any
    crash, and [base] is the first transaction id it could hand out since it was
    last opened. *)
Inductive eng_run (c0 : TxnTs) : Z -> Engine -> list (Z * list Mutation) -> list (Z * list Mutation) -> Prop :=
  | run_open man_file read_all manifest hook mode e :
      0 <= c0 -> c0 + 1 < OPEN_ENDED_TS -> ssts_at man_file read_all manifest c0 ->
      engine_open None man_file read_all hook mode IoOk IoOk IoOk = Some (Ok (e, manifest)) ->
      eng_run c0 (e_next_tx_id e) e [] []
  | run_write base e old new ms throttle e' r :
      eng_run c0 base e old new -> Forall mutation_ok ms ->
      e_next_tx_id e < u64_max -> e_commit_seq e + 1 < OPEN_ENDED_TS ->
      engine_write e ms throttle IoOk IoOk = (e', r) ->
      let h := log_after (e_sync_mode e) old new (committed (e_next_tx_id e) ms r) in
      eng_run c0 base e' h.1 h.2
  | run_write_with_tx base e old new tx ms throttle e' r :
      eng_run c0 base e old new -> base <= tx < u64_max -> Forall mutation_ok ms ->
      e_commit_seq e + 1 < OPEN_ENDED_TS ->
      write_with_tx e tx ms throttle IoOk IoOk = (e', r) ->
      let h := log_after (e_sync_mode e) old new (committed tx ms r) in
      eng_run c0 base e' h.1 h.2
  | run_group base e old new batch e' sent r :
      eng_run c0 base e old new ->
      Forall (fun req => tx_ok base (pw_tx_id req, pw_mutations req)) batch ->
      e_commit_seq e + Z.of_nat (length batch) < OPEN_ENDED_TS ->
      flush_pending_batch e batch IoOk IoOk = (e', sent, r) ->
      let h := log_after (e_sync_mode e) old new (sent_txs sent) in
      eng_run c0 base e' h.1 h.2
  | run_sync base e old new :
      eng_run c0 base e old new -> eng_run c0 base (background_sync e IoOk) (old ++ new) []
  | run_begin_read base e old new :
      eng_run c0 base e old new -> eng_run c0 base (begin_read e).1 old new
  | run_pin base e old new s :
      eng_run c0 base e old new -> eng_run c0 base (pin_snapshot e s) old new
  | run_unpin base e old new s :
      eng_run c0 base e old new -> eng_run c0 base (unpin_snapshot e s) old new
  | run_crash base e old new n man_file read_all manifest hook mode e' :
      eng_run c0 base e old new -> blen (lf_contents (w_file (e_wal e))) <= u64_max ->
      lf_durable (w_file (e_wal e)) <= Z.of_nat n -> torn_magic (take n (lf_contents (w_file (e_wal e)))) = false ->
      ssts_at man_file read_all manifest c0 ->
      engine_open (Some (take n (lf_contents (w_file (e_wal e))))) man_file read_all
        hook mode IoOk IoOk IoOk = Some (Ok (e', manifest)) ->
      forall new', new' `prefix_of` new ->
      e_commit_seq e' = c0 + 1 + Z.of_nat (length (old ++ new')) ->
      eng_run c0 (e_next_tx_id e') e' (old ++ new') [].

Lemma log_after_map {A B} (f : list A -> list B) mode s1 s2 s :
  f [] = [] -> (forall a b, f (a ++ b) = f a ++ f b) ->
  f (log_after mode s1 s2 s).1 = (log_after mode (f s1) (f s2) (f s)).1 /\
  f (log_after mode s1 s2 s).2 = (log_after mode (f s1) (f s2) (f s)).2.
Proof. intros Hnil Happ. destruct mode; cbn; by rewrite ?Happ, ?Hnil. Qed.

Lemma done_log_after mode s1 s2 txs :
  done_txs (log_after mode s1 s2 (map done_seg txs)).1 = (log_after mode (done_txs s1) (done_txs s2) txs).1 /\
  done_txs (log_after mode s1 s2 (map done_seg txs)).2 = (log_after mode (done_txs s1) (done_txs s2) txs).2.
Proof.
  destruct (log_after_map done_txs mode s1 s2 (map done_seg txs) eq_refl done_txs_app) as [-> ->].
  by rewrite done_txs_done.
Qed.

Lemma unpin_same e s :
  e_wal (unpin_snapshot e s) = e_wal e /\ e_memtable (unpin_snapshot e s) = e_memtable e /\
  e_commit_seq (unpin_snapshot e s) = e_commit_seq e /\
  e_sync_mode (unpin_snapshot e s) = e_sync_mode e /\
  e_next_tx_id (unpin_snapshot e s) = e_next_tx_id e.
Proof. unfold unpin_snapshot. by destruct (om_get s (e_pinned_snapshots e)). Qed.

Lemma prefix_same_length {A} (a b l : list A) :
  a `prefix_of` l -> b `prefix_of` l -> length a = length b -> a = b.
Proof.
  intros [x ->] [y Hy] Hlen. by apply app_inj_1 in Hy as [-> _].
Qed.

Lemma eng_run_inv c0 base e old new :
  eng_run c0 base e old new ->
  exists s1 s2, done_txs s1 = old /\ done_txs s2 = new /\ eng_inv c0 base e s1 s2.
Proof.
  assert (Hstep : forall base e' mode s1 s2 txs, eng_inv_at c0 base e' (log_after mode s1 s2 (map done_seg txs)) ->
    exists t1 t2, done_txs t1 = (log_after mode (done_txs s1) (done_txs s2) txs).1 /\
      done_txs t2 = (log_after mode (done_txs s1) (done_txs s2) txs).2 /\ eng_inv c0 base e' t1 t2).
  { intros base0 e' mode s1 s2 txs Hi. destruct (done_log_after mode s1 s2 txs). eauto. }
  induction 1 as [man_file read_all manifest hook mode e Hc0 Hb Hs Ho
    |base e old new ms th e' r _ (s1 & s2 & <- & <- & Hi) Hms Hid Hb Hw
    |base e old new tx ms th e' r _ (s1 & s2 & <- & <- & Hi) Htx Hms Hb Hw
    |base e old new batch e' sent r _ (s1 & s2 & <- & <- & Hi) Hba Hb Hf
    |base e old new _ (s1 & s2 & <- & <- & Hi)
    |base e old new _ (s1 & s2 & <- & <- & Hi)
    |base e old new s _ (s1 & s2 & <- & <- & Hi)
    |base e old new s _ (s1 & s2 & <- & <- & Hi)
    |base e old new n man_file read_all manifest hook mode e' _ (s1 & s2 & <- & <- & Hi)
      Hlen Hd Hn Hs Ho new' Hp Hseq].
  - exists [], []. split; [done|]. split; [done|].
    destruct (engine_open_holds c0 None empty_wal [] man_file read_all manifest hook mode)
      as (e' & Ho' & Hi & _); try done; [cbn; lia|].
    rewrite Ho in Ho'. by injection Ho' as <-.
  - pose proof Hi as []. apply Hstep, eng_inv_step; [done| |].
    { erewrite <- alloc_next by done. by eapply engine_write_to; [..|exact Hw]; try lia. }
    by eapply engine_write_log; [..|exact Hw]; try lia.
  - pose proof Hi as []. apply Hstep, eng_inv_step; [done|by eapply write_with_tx_to; [..|exact Hw]; try lia|].
    by eapply write_with_tx_log; [..|exact Hw]; try lia.
  - pose proof Hi as []. destruct (flush_pending_to e batch IoOk IoOk e' sent r) as [Hc _]; [done|lia|done|done|].
    apply Hstep, eng_inv_step; [done|done|]. by eapply flush_pending_log; [..|exact Hf]; try lia.
  - exists (s1 ++ s2), []. rewrite done_txs_app. split; [done|]. split; [done|]. destruct Hi.
    split; rewrite ?app_nil_r; try done. by apply background_sync_log.
  - exists s1, s2. split; [done|]. split; [done|]. by eapply eng_inv_ext; [..|exact Hi].
  - exists s1, s2. split; [done|]. split; [done|]. by eapply eng_inv_ext; [..|exact Hi].
  - exists s1, s2. split; [done|]. split; [done|].
    destruct (unpin_same e s) as (? & ? & ? & ? & ?). eapply eng_inv_ext; [..|exact Hi]; try done. lia.
  - pose proof Hi as [].
    destruct (engine_reopen c0 base e s1 s2 n man_file read_all manifest hook mode)
      as (e2 & s2' & Ho' & Hp' & Hi' & _); [done|done|lia|done..|].
    rewrite Ho in Ho'. injection Ho' as <-.
    exists (s1 ++ s2'), []. split; [|done]. rewrite done_txs_app. f_equal.
    pose proof (ei_seq _ _ _ _ _ Hi') as Hseq'. rewrite app_nil_r, done_txs_app in Hseq'.
    apply (prefix_same_length _ _ (done_txs s2)); [done|done|].
    rewrite !length_app in Hseq, Hseq'. lia.
Qed.

(** The versions of a key in a memtable that holds [cs]. *)
Lemma commits_edits_history m cs k :
  table_wf m -> Forall commit_ok cs ->
  key_history (apply_edits m (commits_edits cs)) k =
  fold_left (fun h c => fold_left (record_mutation k c) (cb_muts c) h) cs (key_history m k).
Proof.
  intros Hm Hcs. revert m Hm. induction Hcs as [|c cs Hc _ IH]; intros m Hm; [done|].
  unfold commits_edits. cbn [flat_map fold_left]. fold (commits_edits cs).
  rewrite apply_edits_app, IH.
  - by rewrite apply_mutations_history.
  - apply apply_edits_wf; [done|]. apply Forall_map, List.Forall_forall. intros mu _.
    by apply mutation_edit_fresh.
Qed.

Lemma number_commits_ok ts txs :
  0 <= ts -> ts + Z.of_nat (length txs) <= OPEN_ENDED_TS -> Forall commit_ok (number_commits ts txs).
Proof.
  revert ts. induction txs as [|[tx ms] txs IH]; intros ts Hts Hb; cbn [number_commits length] in *; constructor.
  - unfold commit_ok. cbn. lia.
  - apply IH; lia.
Qed.

(** What a reader of [e] sees: the newest commit of [cs] not after the snapshot. *)
Definition reads_as (e : Engine) (cs : list CommitBatch) : Prop :=
  forall k s, ts s < OPEN_ENDED_TS ->
  match mt_get (e_memtable e) k s with
  | Some v => newest_at (commits_history k cs) (ts s) (begin_ts v) (value v, tx_id v)
  | None => forall u, is_Some (commits_history k cs !! u) -> ts s < u
  end.

Lemma eng_inv_reads c0 base e s1 s2 :
  eng_inv c0 base e s1 s2 -> reads_as e (number_commits (c0 + 1) (done_txs (s1 ++ s2))).
Proof.
  intros [] k s Hs. pose proof (mt_get_history (e_memtable e) k s ei_mem0 Hs) as Hg.
  rewrite ei_map0, commits_edits_history in Hg; [exact Hg| |apply number_commits_ok; lia].
  destruct mt_default_ok as (Hd & <- & _). by apply mt_map_wf.
Qed.

(** C1: crash recovery of the engine.  Take any run of an engine over a log
    (single writes, group commits, background syncs, reads, earlier crashes, each
    with any result of the hook and the throttle, but with log writes and syncs
    that succeed) that committed [old ++ new], the former known durable, and any
    crash image of its log: a prefix that contains the durable part.  If the image
    ends inside the first magic number (one to three bytes), [open_with_hook]
    refuses it, and no committed transaction of this log was durable.  Otherwise
    [open_with_hook], whose own file operations succeed, opens the image; the
    recovered transactions are [old] and a prefix of [new], each of them whole;
    reads are those of exactly these commits, numbered as the live engine numbered
    them; the next commit gets the next number.  In full-sync mode nothing is lost:
    every read is the same as before the crash. *)
Theorem engine_crash_recovery (c0 base : Z) (e : Engine) (old new : list (Z * list Mutation)) (n : nat)
    (man_file : option bytes) (read_all : Z -> Result (list VersionedRow)) (manifest : Manifest)
    (hook : H) (mode : SyncMode) :
  eng_run c0 base e old new -> blen (lf_contents (w_file (e_wal e))) <= u64_max ->
  lf_durable (w_file (e_wal e)) <= Z.of_nat n -> ssts_at man_file read_all manifest c0 ->
  let image := take n (lf_contents (w_file (e_wal e))) in
  let opened := engine_open (Some image) man_file read_all hook mode IoOk IoOk IoOk in
  if torn_magic image then
    old = [] /\ opened = Some (Err (CorruptMessage "WAL file uses an unsupported format"))
  else
    exists e' new', opened = Some (Ok (e', manifest)) /\
      new' `prefix_of` new /\ reads_as e' (number_commits (c0 + 1) (old ++ new')) /\
      e_commit_seq e' = c0 + 1 + Z.of_nat (length (old ++ new')) /\
      eng_run c0 (e_next_tx_id e') e' (old ++ new') [] /\
      reads_as e (number_commits (c0 + 1) (old ++ new)) /\
      (e_sync_mode e = Full -> e_commit_seq e' = e_commit_seq e /\
         forall k s, mt_get (e_memtable e') k s = mt_get (e_memtable e) k s).
Proof.
  intros Hrun Hlen Hd Hs image opened. destruct (eng_run_inv _ _ _ _ _ Hrun) as (s1 & s2 & E1 & E2 & Hi).
  destruct (torn_magic image) eqn:Hn.
  { destruct (engine_open_refused base e s1 s2 n man_file read_all hook mode IoOk IoOk IoOk (ei_log _ _ _ _ _ Hi) Hd Hn).
    by rewrite <- E1. }
  pose proof (ei_seq _ _ _ _ _ Hi). pose proof (ei_seq_bound _ _ _ _ _ Hi).
  destruct (engine_reopen c0 base e s1 s2 n man_file read_all manifest hook mode)
    as (e' & s2' & Ho & Hp & Hi' & _); [by eapply ei_log|by eapply ei_c0|lia|done..|].
  pose proof (eng_inv_reads _ _ _ _ _ Hi) as Hr. pose proof (eng_inv_reads _ _ _ _ _ Hi') as Hr'.
  pose proof (ei_seq _ _ _ _ _ Hi') as Hseq'.
  rewrite app_nil_r, done_txs_app, E1 in Hr', Hseq'. rewrite done_txs_app, E1, E2 in Hr. rewrite E2 in Hp.
  exists e', (done_txs s2'). split; [done|]. split; [done|]. split; [done|]. split; [done|].
  split; [by eapply run_crash|]. split; [done|].
  intros Hf. pose proof (ei_full _ _ _ _ (ei_log _ _ _ _ _ Hi) Hf) as ->. cbn in E2. subst new.
  apply prefix_nil_inv in Hp.
  assert (Hdone : done_txs ((s1 ++ s2') ++ []) = done_txs (s1 ++ []))
    by (rewrite !app_nil_r, done_txs_app, Hp; by rewrite app_nil_r).
  split; [rewrite (ei_seq _ _ _ _ _ Hi'), (ei_seq _ _ _ _ _ Hi); by rewrite Hdone|].
  intros k s. rewrite !mt_get_ok by (by eapply ei_mem).
  by rewrite (ei_map _ _ _ _ _ Hi'), (ei_map _ _ _ _ _ Hi), Hdone.
Qed.
End Laws.
End Engine.

(** ** A run with a crash *)

#[local] Existing Instance no_sse42.

(** No SSTs yet. *)
Definition no_rows (_ : Z) : Result (list VersionedRow) := Ok [].

Definition opened_sample : Engine (T := BTreeMapTable) (H := unit) :=
  mkEngine empty_wal mt_default tt 1 1 [] (Group 1000).
Definition written_sample : Engine (T := BTreeMapTable) (H := unit) :=
  Eval vm_compute in (engine_write opened_sample [MPut [x61] [x31]] ThrottleNone IoOk IoOk).1.
Definition synced_sample : Engine (T := BTreeMapTable) (H := unit) :=
  Eval vm_compute in background_sync written_sample IoOk.
Definition crashing_sample : Engine (T := BTreeMapTable) (H := unit) :=
  Eval vm_compute in
    (engine_write synced_sample [MPut [x61] [x32]; MDelete [x62]] ThrottleSoft IoOk IoOk).1.

Lemma sample_ssts : ssts_at None no_rows man_empty 0.
Proof. split; vm_compute; reflexivity. Qed.

Lemma sample_run :
  eng_run 0 1 crashing_sample [(1, [MPut [x61] [x31]])] [(2, [MPut [x61] [x32]; MDelete [x62]])].
Proof.
  assert (Ho : eng_run 0 1 opened_sample [] []).
  { apply (run_open 0 None no_rows man_empty tt (Group 1000) opened_sample);
      [done|done|exact sample_ssts|vm_compute; reflexivity]. }
  assert (Hw : eng_run 0 1 written_sample [] [(1, [MPut [x61] [x31]])]).
  { refine (run_write 0 1 _ _ _ [MPut [x61] [x31]] ThrottleNone written_sample (Ok 1) Ho _ _ _ _);
      [repeat constructor|reflexivity|reflexivity|vm_compute; reflexivity]. }
  apply run_sync in Hw.
  refine (run_write 0 1 _ _ _ [MPut [x61] [x32]; MDelete [x62]] ThrottleSoft crashing_sample (Ok 2)
            Hw _ _ _ _);
    [repeat constructor|reflexivity|reflexivity|vm_compute; reflexivity].
Qed.

Lemma engine_crash_recovery_witness :
  exists e' new', engine_open (Some (take 120 (lf_contents (w_file (e_wal crashing_sample))))) None no_rows
      tt (Group 1000) IoOk IoOk IoOk = Some (Ok (e', man_empty)) /\
    new' `prefix_of` [(2, [MPut [x61] [x32]; MDelete [x62]])] /\
    e_commit_seq e' = 0 + 1 + Z.of_nat (length ([(1, [MPut [x61] [x31]])] ++ new')).
Proof.
  pose proof (engine_crash_recovery 0 1 crashing_sample _ _ 120 None no_rows man_empty tt (Group 1000)
                sample_run) as Hrec.
  change (torn_magic _) with false in Hrec. destruct Hrec as (e' & new' & Ho & Hp & _ & Hs & _).
  - vm_compute. congruence.
  - vm_compute. congruence.
  - exact sample_ssts.
  - exists e', new'. split; [exact Ho|]. split; [exact Hp|exact Hs].
Defined.
