(* ===== verification/Metrics.v ===== *)
(** * Metrics ([hatp-engine/src/metrics.rs])

    The engine's counters, the snapshot of them and its text form for a Prometheus
    scraper; and the commit path with the counters it moves.  Counters are atomic
    64-bit words, so an addition wraps around. *)

From Stdlib Require Import Strings.String Strings.Ascii Numbers.DecimalString Numbers.DecimalN.
From stdpp Require Import base tactics list option.
From S2P Require Import Prelude Paths OrdMap Types Version Crc32c Wal MemTable MemTableProps TxManager Engine.
#[local] Open Scope Z_scope.

(** ** The counters *)

(** [EngineMetrics], and [MetricsSnapshot], which has the same fields. *)
Record EngineMetrics := mkMetrics {
  tx_committed : Z;
  tx_aborted : Z;
  ssi_conflicts : Z;
  wal_bytes_written : Z;
  sst_bytes_written : Z;
  flush_count : Z;
  compaction_count : Z;
  memtable_bytes : Z;
  sst_read_failures : Z;
  gc_versions_dropped : Z;
  compaction_panics : Z;
}.
Definition MetricsSnapshot : Type := EngineMetrics.

Definition metrics_new : EngineMetrics := mkMetrics 0 0 0 0 0 0 0 0 0 0 0.

Definition record_commit (m : EngineMetrics) : EngineMetrics :=
  mkMetrics (wrap64 (tx_committed m + 1)) (tx_aborted m) (ssi_conflicts m) (wal_bytes_written m) (sst_bytes_written m)
    (flush_count m) (compaction_count m) (memtable_bytes m) (sst_read_failures m) (gc_versions_dropped m) (compaction_panics m).
Definition record_abort (m : EngineMetrics) : EngineMetrics :=
  mkMetrics (tx_committed m) (wrap64 (tx_aborted m + 1)) (ssi_conflicts m) (wal_bytes_written m) (sst_bytes_written m)
    (flush_count m) (compaction_count m) (memtable_bytes m) (sst_read_failures m) (gc_versions_dropped m) (compaction_panics m).
Definition record_ssi_conflict (m : EngineMetrics) : EngineMetrics :=
  mkMetrics (tx_committed m) (tx_aborted m) (wrap64 (ssi_conflicts m + 1)) (wal_bytes_written m) (sst_bytes_written m)
    (flush_count m) (compaction_count m) (memtable_bytes m) (sst_read_failures m) (gc_versions_dropped m) (compaction_panics m).
Definition record_wal_write (m : EngineMetrics) (n : Z) : EngineMetrics :=
  mkMetrics (tx_committed m) (tx_aborted m) (ssi_conflicts m) (wrap64 (wal_bytes_written m + n)) (sst_bytes_written m)
    (flush_count m) (compaction_count m) (memtable_bytes m) (sst_read_failures m) (gc_versions_dropped m) (compaction_panics m).
Definition record_sst_write (m : EngineMetrics) (n : Z) : EngineMetrics :=
  mkMetrics (tx_committed m) (tx_aborted m) (ssi_conflicts m) (wal_bytes_written m) (wrap64 (sst_bytes_written m + n))
    (flush_count m) (compaction_count m) (memtable_bytes m) (sst_read_failures m) (gc_versions_dropped m) (compaction_panics m).
Definition record_flush (m : EngineMetrics) : EngineMetrics :=
  mkMetrics (tx_committed m) (tx_aborted m) (ssi_conflicts m) (wal_bytes_written m) (sst_bytes_written m)
    (wrap64 (flush_count m + 1)) (compaction_count m) (memtable_bytes m) (sst_read_failures m) (gc_versions_dropped m) (compaction_panics m).
Definition record_compaction (m : EngineMetrics) : EngineMetrics :=
  mkMetrics (tx_committed m) (tx_aborted m) (ssi_conflicts m) (wal_bytes_written m) (sst_bytes_written m)
    (flush_count m) (wrap64 (compaction_count m + 1)) (memtable_bytes m) (sst_read_failures m) (gc_versions_dropped m) (compaction_panics m).
Definition set_memtable_bytes (m : EngineMetrics) (n : Z) : EngineMetrics :=
  mkMetrics (tx_committed m) (tx_aborted m) (ssi_conflicts m) (wal_bytes_written m) (sst_bytes_written m)
    (flush_count m) (compaction_count m) n (sst_read_failures m) (gc_versions_dropped m) (compaction_panics m).
Definition record_sst_read_failure (m : EngineMetrics) : EngineMetrics :=
  mkMetrics (tx_committed m) (tx_aborted m) (ssi_conflicts m) (wal_bytes_written m) (sst_bytes_written m)
    (flush_count m) (compaction_count m) (memtable_bytes m) (wrap64 (sst_read_failures m + 1)) (gc_versions_dropped m) (compaction_panics m).
Definition record_gc_versions_dropped (m : EngineMetrics) (n : Z) : EngineMetrics :=
  mkMetrics (tx_committed m) (tx_aborted m) (ssi_conflicts m) (wal_bytes_written m) (sst_bytes_written m)
    (flush_count m) (compaction_count m) (memtable_bytes m) (sst_read_failures m) (wrap64 (gc_versions_dropped m + n)) (compaction_panics m).
Definition record_compaction_panic (m : EngineMetrics) : EngineMetrics :=
  mkMetrics (tx_committed m) (tx_aborted m) (ssi_conflicts m) (wal_bytes_written m) (sst_bytes_written m)
    (flush_count m) (compaction_count m) (memtable_bytes m) (sst_read_failures m) (gc_versions_dropped m) (wrap64 (compaction_panics m + 1)).

(** [EngineMetrics::snapshot] loads each counter. *)
Definition snapshot (m : EngineMetrics) : MetricsSnapshot :=
  mkMetrics (tx_committed m) (tx_aborted m) (ssi_conflicts m) (wal_bytes_written m) (sst_bytes_written m)
    (flush_count m) (compaction_count m) (memtable_bytes m) (sst_read_failures m) (gc_versions_dropped m) (compaction_panics m).

(** ** The text form *)

#[local] Open Scope string_scope.
#[local] Arguments String.append : simpl nomatch.
Definition newline : string := String "010" EmptyString.

(** The three lines of a metric. *)
Definition push_metric (name help kind : string) (val : Z) : string :=
  "# HELP " ++ name ++ " " ++ help ++ newline ++
  "# TYPE " ++ name ++ " " ++ kind ++ newline ++
  name ++ " " ++ fmt_u64 val ++ newline.

(** [MetricsSnapshot::to_prometheus_text] *)
Definition to_prometheus_text (s : MetricsSnapshot) : string :=
  push_metric "hatp_tx_committed_total" "Total committed transactions" "counter" (tx_committed s) ++
  push_metric "hatp_tx_aborted_total" "Total aborted transactions" "counter" (tx_aborted s) ++
  push_metric "hatp_ssi_conflicts_total" "Total SSI conflicts" "counter" (ssi_conflicts s) ++
  push_metric "hatp_wal_bytes_written_total" "Total bytes written to WAL" "counter" (wal_bytes_written s) ++
  push_metric "hatp_sst_bytes_written_total" "Total bytes written to SST" "counter" (sst_bytes_written s) ++
  push_metric "hatp_flush_count_total" "Total flushes" "counter" (flush_count s) ++
  push_metric "hatp_compaction_count_total" "Total compactions" "counter" (compaction_count s) ++
  push_metric "hatp_memtable_bytes" "Approximate memtable bytes" "gauge" (memtable_bytes s) ++
  push_metric "hatp_sst_read_failures_total" "Total SST read failures" "counter" (sst_read_failures s) ++
  push_metric "hatp_gc_versions_dropped_total" "MVCC versions dropped by GC" "counter" (gc_versions_dropped s) ++
  push_metric "hatp_compaction_panics_total" "Compaction worker panics" "counter" (compaction_panics s).

(** ** Reading the text *)

(** What a scraper reads: each line that is not a comment is a name and a number. *)
Fixpoint until (c : ascii) (s : string) : option (string * string) :=
  match s with
  | EmptyString => None
  | String d rest =>
      if Ascii.eqb d c then Some ("", rest)
      else match until c rest with Some (a, b) => Some (String d a, b) | None => None end
  end.
Definition is_comment (line : string) : bool :=
  match line with String c _ => Ascii.eqb c "#" | EmptyString => false end.
Definition read_sample (line : string) : option (string * Z) :=
  '(name, val) ← until " " line;
  n ← read_u64 val;
  Some (name, n).
Fixpoint scrape (fuel : nat) (text : string) : option (list (string * Z)) :=
  match fuel with
  | O => None
  | S fuel =>
      match until "010" text with
      | None => Some []
      | Some (line, rest) =>
          samples ← scrape fuel rest;
          if is_comment line then Some samples else
          sample ← read_sample line;
          Some (sample :: samples)
      end
  end.

(** A character that a string does not have. *)
Fixpoint lacks (c : ascii) (s : string) : bool :=
  match s with EmptyString => true | String d rest => negb (Ascii.eqb d c) && lacks c rest end.

Lemma until_app c a b : lacks c a = true -> until c (a ++ String c b) = Some (a, b).
Proof.
  induction a as [|d a IH]; cbn [until lacks String.append]; intros Hl; [by rewrite Ascii.eqb_refl|].
  apply andb_prop in Hl as [Hd Ha]. destruct (Ascii.eqb d c); [done|]. by rewrite IH.
Qed.

Lemma lacks_app c a b : lacks c (a ++ b) = lacks c a && lacks c b.
Proof. induction a as [|d a IH]; cbn [lacks String.append]; [done|]. by rewrite IH, andb_assoc. Qed.

Lemma fmt_u64_lacks c n : (nat_of_ascii c < 48)%nat -> lacks c (fmt_u64 n) = true.
Proof.
  intros Hc. unfold fmt_u64. induction (N.to_uint (Z.to_N n)); cbn [NilEmpty.string_of_uint lacks]; rewrite ?IHu, ?andb_true_r; [done|..].
  all: match goal with |- context [Ascii.eqb ?d ?e] => destruct (Ascii.eqb_spec d e) as [<-|]; [vm_compute in Hc; lia|done] end.
Qed.

(** Reading a line, and reading the three lines of a metric. *)
Lemma scrape_line fuel line rest :
  lacks "010" line = true ->
  scrape (S fuel) (line ++ String "010" rest) =
  (samples ← scrape fuel rest;
   if is_comment line then Some samples else sample ← read_sample line; Some (sample :: samples)).
Proof. intros Hl. cbn [scrape]. by rewrite until_app. Qed.

Lemma append_assoc3 a b c : (a ++ b) ++ c = a ++ (b ++ c).
Proof. induction a as [|d a IH]; cbn [String.append]; [done|]. by rewrite IH. Qed.

Lemma append_nil_end a : a ++ "" = a.
Proof. induction a as [|d a IH]; cbn [String.append]; [done|]. by rewrite IH. Qed.

Definition clean (s : string) : bool := lacks "010" s && lacks " " s && negb (is_comment s) && negb (String.eqb s "").

Lemma scrape_metric fuel name help kind n rest :
  clean name = true -> lacks "010" help = true -> lacks "010" kind = true -> 0 <= n ->
  scrape (S (S (S fuel))) (push_metric name help kind n ++ rest) =
  (samples ← scrape fuel rest; Some ((name, n) :: samples)).
Proof.
  unfold clean. rewrite !andb_true_iff, !negb_true_iff. intros [[[Hn Hsp] Hc] Hne] Hh Hk Hp. unfold push_metric.
  replace (("# HELP " ++ name ++ " " ++ help ++ newline ++ "# TYPE " ++ name ++ " " ++ kind ++ newline ++ name ++ " " ++ fmt_u64 n ++ newline) ++ rest)
    with (("# HELP " ++ name ++ " " ++ help) ++ String "010" (("# TYPE " ++ name ++ " " ++ kind) ++ String "010" ((name ++ " " ++ fmt_u64 n) ++ String "010" rest)))
    by (unfold newline; rewrite !append_assoc3; done).
  rewrite !scrape_line by (rewrite !lacks_app, ?Hn, ?Hh, ?Hk, ?fmt_u64_lacks by (vm_compute; lia); done).
  cbn [is_comment String.append]. assert (E : is_comment (name ++ String " " (fmt_u64 n)) = false) by (by destruct name).
  rewrite E. assert (Er : read_sample (name ++ String " " (fmt_u64 n)) = Some (name, n)).
  { unfold read_sample. rewrite until_app by done. cbn [mbind option_bind].
    by rewrite fmt_u64_read. }
  rewrite Er. by destruct (scrape fuel rest).
Qed.

(** The samples of a snapshot. *)
Definition samples_of (s : MetricsSnapshot) : list (string * Z) :=
  [("hatp_tx_committed_total", tx_committed s); ("hatp_tx_aborted_total", tx_aborted s);
   ("hatp_ssi_conflicts_total", ssi_conflicts s); ("hatp_wal_bytes_written_total", wal_bytes_written s);
   ("hatp_sst_bytes_written_total", sst_bytes_written s); ("hatp_flush_count_total", flush_count s);
   ("hatp_compaction_count_total", compaction_count s); ("hatp_memtable_bytes", memtable_bytes s);
   ("hatp_sst_read_failures_total", sst_read_failures s); ("hatp_gc_versions_dropped_total", gc_versions_dropped s);
   ("hatp_compaction_panics_total", compaction_panics s)].

(** A scraper reads each counter back, under its name, whatever its value. *)
Lemma prometheus_roundtrip s :
  Forall (fun x => 0 <= x.2) (samples_of s) -> scrape 34 (to_prometheus_text s) = Some (samples_of s).
Proof.
  intros Hs. unfold samples_of in Hs. rewrite !Forall_cons_iff in Hs. cbn [snd] in Hs. destruct_and? Hs. unfold to_prometheus_text.
  rewrite <- (append_nil_end (push_metric "hatp_compaction_panics_total" _ _ _)).
  do 11 (rewrite scrape_metric by (first [assumption|reflexivity])). reflexivity.
Qed.

#[local] Close Scope string_scope.

(** ** The counters of the commit path *)

Section Metered.
Context {hw : Crc32Hw} {T H : Type} `{MemTableBackend T} `{EngineHook H}.
#[local] Abbreviation Eng := (Engine (T := T) (H := H)).

Definition is_conflict (err : EngineError) : bool :=
  match err with WriteConflict _ _ | ReadWriteConflict _ _ => true | _ => false end.

(** A transaction the hook turned down; a panic of the hook is not counted. *)
Definition count_rejected (m : EngineMetrics) (r : option (Result unit)) : EngineMetrics :=
  match r with
  | Some (Err err) => let m := record_abort m in if is_conflict err then record_ssi_conflict m else m
  | _ => m
  end.

(** [commit_single] with its counters. *)
Definition metered_commit_single (m : EngineMetrics) (e : Eng) (tx : Z) (ms : list Mutation) (io_w io_s : IoOutcome)
  : EngineMetrics * (Eng * Result TxnTs) :=
  let '(h, r) := hook_pre_commit (e_hook e) tx ms in
  let e := with_hook e h in
  match (if hook_is_noop then Ok tt else hook_result r) with
  | Err err => (count_rejected m r, (e, Err err))
  | Ok _ =>
      let '(w, r) := match e_sync_mode e with
                     | Full => append_mutations_commit_and_sync (e_wal e) tx ms io_w io_s
                     | Group _ => append_multi_batch (e_wal e) [(tx, build_wal_records tx ms)] io_w
                     end in
      let e := with_wal e w in
      match r with
      | Err err => (m, (e, Err err))
      | Ok wal_bytes =>
          let m := record_wal_write m wal_bytes in
          match apply_commit e tx ms with
          | (e, Ok ts) => (set_memtable_bytes (record_commit m) (mt_approximate_bytes (e_memtable e)), (e, Ok ts))
          | (e, Err err) => (m, (e, Err err))
          end
      end
  end.

(** The counters do not change what a commit does. *)
Lemma metered_commit m e tx ms io_w io_s : (metered_commit_single m e tx ms io_w io_s).2 = commit_single e tx ms io_w io_s.
Proof.
  unfold metered_commit_single, commit_single. destruct (hook_pre_commit _ _ _) as [h r].
  destruct (if hook_is_noop then _ else _); [|done]. destruct (match e_sync_mode _ with Full => _ | Group _ => _ end) as [w [n|err]]; [|done].
  by destruct (apply_commit _ tx ms) as [e' [ts|err]].
Qed.

(** A commit is counted exactly when it succeeds, and then the gauge is the size of
    the memtable; a failed one leaves the gauge. *)
Lemma metered_commit_counts m e tx ms io_w io_s :
  let '(m', (e', r)) := metered_commit_single m e tx ms io_w io_s in
  match r with
  | Ok _ => tx_committed m' = wrap64 (tx_committed m + 1) /\ memtable_bytes m' = mt_approximate_bytes (e_memtable e') /\
            tx_aborted m' = tx_aborted m
  | Err _ => tx_committed m' = tx_committed m /\ memtable_bytes m' = memtable_bytes m /\
             (tx_aborted m' = tx_aborted m \/ tx_aborted m' = wrap64 (tx_aborted m + 1))
  end.
Proof.
  unfold metered_commit_single. destruct (hook_pre_commit _ _ _) as [h r].
  destruct (if hook_is_noop then _ else _) as [[]|err].
  - destruct (match e_sync_mode _ with Full => _ | Group _ => _ end) as [w [n|err]]; [|by auto].
    destruct (apply_commit _ tx ms) as [e' [ts|err]]; by auto.
  - destruct r as [[[]|err']|]; cbn; [by auto| |by auto]. destruct (is_conflict err'); by auto.
Qed.

(** Commits one after the other. *)
Fixpoint metered_run (m : EngineMetrics) (e : Eng) (reqs : list (Z * list Mutation * IoOutcome * IoOutcome))
  : EngineMetrics * Eng * list (Result TxnTs) :=
  match reqs with
  | [] => (m, e, [])
  | (tx, ms, io_w, io_s) :: reqs =>
      let '(m, (e, r)) := metered_commit_single m e tx ms io_w io_s in
      let '(m, e, rs) := metered_run m e reqs in (m, e, r :: rs)
  end.

(** Over any sequence of commits the counter is the number of those that succeeded. *)
Lemma committed_counted reqs : forall m e,
  let '(m', _, rs) := metered_run m e reqs in
  tx_committed m = wrap64 (tx_committed m) ->
  tx_committed m' = wrap64 (tx_committed m + Z.of_nat (length (List.filter is_ok rs))).
Proof.
  induction reqs as [|[[[tx ms] io_w] io_s] reqs IH]; intros m e; cbn [metered_run].
  - intros Hm. cbn. by rewrite Z.add_0_r.
  - pose proof (metered_commit_counts m e tx ms io_w io_s) as Hc.
    destruct (metered_commit_single m e tx ms io_w io_s) as [m1 [e1 r]]. specialize (IH m1 e1).
    destruct (metered_run m1 e1 reqs) as [[m' e'] rs]. intros Hm. destruct r as [ts|err]; cbn [List.filter is_ok length].
    + destruct Hc as [Hc _]. rewrite IH by (rewrite Hc; unfold wrap64; by rewrite Z.mod_mod). rewrite Hc.
      unfold wrap64. rewrite Z.add_mod_idemp_l by done. f_equal. lia.
    + destruct Hc as [Hc _]. rewrite IH by (by rewrite Hc). by rewrite Hc.
Qed.
End Metered.
