(* ===== verification/Snapshots.v ===== *)
(** * Pinned snapshots ([hatp-engine/src/lib.rs], [SnapshotGuard])

    A reader pins its snapshot for as long as it holds a guard; the watermark of
    garbage collection is the oldest pin.  This file runs guards against commits,
    group commits, collections and other guards, and shows that what a guard
    reads never changes while it is held. *)

From stdpp Require Import base tactics list option gmap.
From S2P Require Import Prelude OrdMap Types Version Crc32c Wal MemTable MemTableProps TxManager Codec Manifest Engine.
#[local] Open Scope Z_scope.

Section Snapshots.
Context {hw : Crc32Hw} {T H : Type} `{MemTableBackend T} `{EngineHook H} `{!MemTableLaws T}.
#[local] Abbreviation Eng := (Engine (T := T) (H := H)).

(** What a reader observes of a key: the version's commit, its value and its
    transaction.  (The version's end timestamp is closed by later commits.) *)
Definition observe (e : Eng) (k : bytes) (s : TxnTs) : option (TxnTs * option bytes * Z) :=
  (fun v => (begin_ts v, value v, tx_id v)) <$> mt_get (e_memtable e) k (mkSnapshot s).

(** ** The guards that are held *)

Fixpoint release (s : TxnTs) (guards : list TxnTs) : list TxnTs :=
  match guards with
  | [] => []
  | g :: rest => if g =? s then rest else g :: release s rest
  end.

Fixpoint holders (s : TxnTs) (guards : list TxnTs) : Z :=
  match guards with
  | [] => 0
  | g :: rest => (if g =? s then 1 else 0) + holders s rest
  end.

(** One step of the engine with its guards: a reader begins or pins, drops its
    guard, a write or a queue of writes commits or fails, with any outcome of the
    file operations, or versions are collected. *)
Inductive guard_step : Eng * list TxnTs -> Eng * list TxnTs -> Prop :=
  | step_begin_read e g : guard_step (e, g) ((begin_read e).1, (begin_read e).2 :: g)
  | step_pin e g s : guard_step (e, g) (pin_snapshot e s, s :: g)
  | step_drop e g s : In s g -> guard_step (e, g) (unpin_snapshot e s, release s g)
  | step_write e g ms throttle io_w io_s e' r :
      e_commit_seq e + 1 < OPEN_ENDED_TS -> engine_write e ms throttle io_w io_s = (e', r) ->
      guard_step (e, g) (e', g)
  | step_write_with_tx e g tx ms throttle io_w io_s e' r :
      e_commit_seq e + 1 < OPEN_ENDED_TS -> write_with_tx e tx ms throttle io_w io_s = (e', r) ->
      guard_step (e, g) (e', g)
  | step_group e g batch io_w io_s e' sent r :
      e_commit_seq e + Z.of_nat (length batch) < OPEN_ENDED_TS ->
      flush_pending_batch e batch io_w io_s = (e', sent, r) -> guard_step (e, g) (e', g)
  | step_sync e g io : guard_step (e, g) (background_sync e io, g)
  | step_gc e g :
      versions_count (mt_map (e_memtable e)) <= u64_max ->
      guard_step (e, g) ((engine_garbage_collect e).1, g).

(** Steps during all of which some guard holds [s]. *)
Inductive held_steps (s : TxnTs) : Eng * list TxnTs -> Eng * list TxnTs -> Prop :=
  | held_refl c : In s c.2 -> held_steps s c c
  | held_step c1 c2 c3 : In s c1.2 -> guard_step c1 c2 -> held_steps s c2 c3 -> held_steps s c1 c3.

(** The engine's pins are exactly the guards held. *)
Record guards_inv (e : Eng) (g : list TxnTs) : Prop := {
  gi_sorted : om_sorted (e_pinned_snapshots e);
  gi_count : forall s, om_get s (e_pinned_snapshots e) =
    if holders s g =? 0 then None else Some (holders s g);
  gi_mem : mt_inv (e_memtable e);
  gi_seq : 1 <= e_commit_seq e < OPEN_ENDED_TS;
}.

Lemma holders_nonneg s g : 0 <= holders s g.
Proof. induction g as [|x g IH]; cbn; [lia|]. destruct (x =? s); lia. Qed.

Lemma holders_In s g : In s g -> 0 < holders s g.
Proof.
  induction g as [|x g IH]; [done|]. pose proof (holders_nonneg s g). cbn [In holders].
  intros [->|Hin]; [rewrite Z.eqb_refl; lia|]. specialize (IH Hin). destruct (x =? s); lia.
Qed.

Lemma holders_release s u g :
  In s g -> holders u (release s g) = holders u g - (if s =? u then 1 else 0).
Proof.
  induction g as [|x g IH]; [done|]. cbn [In release holders]. intros Hin.
  destruct (Z.eqb_spec x s) as [->|Hne]; [lia|]. destruct Hin as [->|Hin]; [done|].
  cbn [holders]. rewrite IH by done. lia.
Qed.

Lemma pins_count_add e g s :
  guards_inv e g ->
  guards_inv (pin_snapshot e s) (s :: g).
Proof.
  intros [Hs Hc Hm Hq]. split; [by apply om_sorted_entry| |done|done].
  intros u. unfold pin_snapshot. cbn [e_pinned_snapshots with_pins holders].
  rewrite om_get_entry. pose proof (holders_nonneg u g).
  destruct (eqc u s) eqn:E; cbool.
  - subst. rewrite Z.eqb_refl, Hc. rewrite (proj2 (Z.eqb_neq (1 + _) 0)) by lia.
    destruct (Z.eqb_spec (holders s g) 0) as [->|]; cbn; f_equal; lia.
  - rewrite (proj2 (Z.eqb_neq s u)) by congruence. by rewrite Hc.
Qed.

Lemma pins_count_drop e g s :
  guards_inv e g -> In s g -> guards_inv (unpin_snapshot e s) (release s g).
Proof.
  intros [Hs Hc Hm Hq] Hin. pose proof (holders_In _ _ Hin) as Hpos.
  destruct (unpin_same e s) as (_ & Hmem & Hseq & _).
  unfold unpin_snapshot in *. rewrite Hc in *. rewrite (proj2 (Z.eqb_neq _ _)) in * by lia.
  split; [| |by rewrite Hmem|by rewrite Hseq]; cbn [with_pins e_pinned_snapshots].
  - destruct (_ =? 0); [by apply om_sorted_remove|by apply om_sorted_insert].
  - intros u. rewrite holders_release by done. destruct (Z.eqb_spec s u) as [<-|Hne].
    + destruct (Z.eqb_spec (holders s g - 1) 0).
      * by rewrite om_get_remove, eqc_refl.
      * by rewrite om_get_insert, eqc_refl.
    + rewrite Z.sub_0_r. rewrite <- Hc.
      destruct (_ =? 0); [rewrite om_get_remove, (proj2 (eqc_false s u)) by done; done|].
      by apply om_get_insert_ne.
Qed.

(** The collector stays at or below every guard. *)
Lemma watermark_below_guard e g s : guards_inv e g -> In s g -> engine_watermark e <= s.
Proof.
  intros [Hs Hc _ _] Hin. pose proof (holders_In _ _ Hin). unfold engine_watermark.
  assert (Hg : is_Some (om_get s (e_pinned_snapshots e)))
    by (rewrite Hc, (proj2 (Z.eqb_neq _ _)) by lia; by eexists).
  destruct (e_pinned_snapshots e) as [|[k v] m]; [by destruct Hg|].
  assert (k <= s); [|lia].
  destruct Hg as [x Hx]. cbn [om_get] in Hx. destruct (eqc s k) eqn:E; cbool; [lia|].
  apply Z.lt_le_incl, Z.compare_lt_iff. by apply (om_get_head k v m Hs); exists x.
Qed.

(** ** What a step does to the versions *)

(** The versions committed before [e] stay as they are. *)
Record mem_step (e e' : Eng) : Prop := {
  ms_inv : mt_inv (e_memtable e');
  ms_seq : e_commit_seq e <= e_commit_seq e' < OPEN_ENDED_TS;
  ms_history : forall k u, u < e_commit_seq e ->
    key_history (mt_map (e_memtable e')) k !! u = key_history (mt_map (e_memtable e)) k !! u;
  ms_pins : e_pinned_snapshots e' = e_pinned_snapshots e;
}.

Lemma mem_step_same (e e' : Eng) :
  mt_inv (e_memtable e) -> e_commit_seq e < OPEN_ENDED_TS ->
  e_memtable e' = e_memtable e -> e_commit_seq e' = e_commit_seq e ->
  e_pinned_snapshots e' = e_pinned_snapshots e -> mem_step e e'.
Proof. intros Hi Hb Hm Hc Hp. split; rewrite ?Hm, ?Hc; done. Qed.

Lemma mem_step_trans e1 e2 e3 : mem_step e1 e2 -> mem_step e2 e3 -> mem_step e1 e3.
Proof.
  intros [I1 S1 H1' P1] [I2 S2 H2' P2]. split; [done|lia| |congruence].
  intros k u Hu. rewrite H2' by lia. by apply H1'.
Qed.

Lemma record_mutation_later k c ms h u :
  u < cb_ts c -> fold_left (record_mutation k c) ms h !! u = h !! u.
Proof.
  intros Hu. revert h. induction ms as [|m ms IH]; intros h; [done|]. cbn [fold_left]. rewrite IH.
  unfold record_mutation. destruct m; destruct (eqc _ _); rewrite ?lookup_insert_ne by lia; done.
Qed.

Lemma apply_commit_mem (e : Eng) tx ms :
  mt_inv (e_memtable e) -> 0 <= e_commit_seq e -> e_commit_seq e + 1 < OPEN_ENDED_TS ->
  exists e', apply_commit e tx ms = (e', Ok (e_commit_seq e)) /\ mem_step e e' /\
    e_commit_seq e' = e_commit_seq e + 1.
Proof.
  intros Hi Hp Hb. destruct (apply_commit_ok e tx ms Hi Hp Hb) as (e' & Ha & Hi' & Hm & Hs & _ & _ & Hpin & _).
  exists e'. split; [done|]. split; [|done]. split; [done|lia| |done].
  intros k u Hu. rewrite Hm. cbn [number_commits].
  rewrite commits_edits_history; [|by apply mt_map_wf|by repeat constructor; cbn; lia].
  cbn [fold_left]. by apply record_mutation_later.
Qed.

Lemma commit_single_mem (e : Eng) tx ms io_w io_s e' r :
  mt_inv (e_memtable e) -> 0 <= e_commit_seq e -> e_commit_seq e + 1 < OPEN_ENDED_TS ->
  commit_single e tx ms io_w io_s = (e', r) -> mem_step e e'.
Proof.
  intros Hi Hp Hb. unfold commit_single. destruct (hook_pre_commit _ _ _) as [h r0].
  destruct (if hook_is_noop then Ok tt else hook_result r0).
  2:{ intros [= <- _]. apply mem_step_same; done || lia. }
  destruct (match e_sync_mode (with_hook e h) with Full => _ | Group _ => _ end) as [w [n|err]].
  2:{ intros [= <- _]. apply mem_step_same; done || lia. }
  destruct (apply_commit_mem (with_wal (with_hook e h) w) tx ms Hi Hp Hb) as (e2 & -> & Hm & _).
  intros [= <- _]. eapply mem_step_trans; [|exact Hm]. apply mem_step_same; done || lia.
Qed.

Lemma write_with_tx_mem (e : Eng) tx ms throttle io_w io_s e' r :
  mt_inv (e_memtable e) -> 0 <= e_commit_seq e -> e_commit_seq e + 1 < OPEN_ENDED_TS ->
  write_with_tx e tx ms throttle io_w io_s = (e', r) -> mem_step e e'.
Proof.
  intros Hi Hp Hb. unfold write_with_tx.
  destruct ms as [|m ms]; [intros [= <- _]; apply mem_step_same; done || lia|].
  destruct (tx =? 0); [intros [= <- _]; apply mem_step_same; done || lia|].
  set (e1 := if _ <? _ then _ else _).
  assert (He1 : mem_step e e1 /\ e_memtable e1 = e_memtable e /\ e_commit_seq e1 = e_commit_seq e)
    by (unfold e1; destruct (_ <? _); (split; [apply mem_step_same; done || lia|done])).
  destruct He1 as (Hm1 & Hmem & Hseq). rewrite <- Hmem in Hi. rewrite <- Hseq in Hp, Hb.
  destruct throttle; [| |by intros [= <- _]]; intros Hw; (eapply mem_step_trans; [exact Hm1|]);
    by eapply commit_single_mem.
Qed.

Lemma engine_write_mem (e : Eng) ms throttle io_w io_s e' r :
  mt_inv (e_memtable e) -> 0 <= e_commit_seq e -> e_commit_seq e + 1 < OPEN_ENDED_TS ->
  engine_write e ms throttle io_w io_s = (e', r) -> mem_step e e'.
Proof.
  intros Hi Hp Hb. unfold engine_write.
  destruct ms as [|m ms]; [intros [= <- _]; apply mem_step_same; done || lia|].
  destruct (alloc_tx_id e) as [e1 tx] eqn:Ea. intros Hw.
  assert (He1 : e1 = (alloc_tx_id e).1) by (by rewrite Ea). subst e1.
  eapply mem_step_trans; [|by eapply write_with_tx_mem; [..|exact Hw]].
  apply mem_step_same; done || lia.
Qed.

Lemma apply_batch_mem (e : Eng) reqs sent :
  mt_inv (e_memtable e) -> 0 <= e_commit_seq e ->
  e_commit_seq e + Z.of_nat (length reqs) < OPEN_ENDED_TS ->
  mem_step e (apply_batch e reqs sent).1.1.
Proof.
  revert e sent. induction reqs as [|r reqs IH]; intros e sent Hi Hp Hb; cbn [length apply_batch] in *.
  - apply mem_step_same; done || lia.
  - destruct (apply_commit_mem e (pw_tx_id r) (pw_mutations r) Hi Hp) as (e1 & -> & Hm & Hs); [lia|].
    eapply mem_step_trans; [exact Hm|]. pose proof (ms_inv _ _ Hm). apply IH; done || lia.
Qed.

Lemma flush_pending_mem (e : Eng) batch io_w io_s :
  mt_inv (e_memtable e) -> 0 <= e_commit_seq e ->
  e_commit_seq e + Z.of_nat (length batch) < OPEN_ENDED_TS ->
  mem_step e (flush_pending_batch e batch io_w io_s).1.1.
Proof.
  intros Hi Hp Hb. unfold flush_pending_batch.
  pose proof (pre_commit_accepted (e_hook e) batch) as Hpc.
  destruct (pre_commit_loop _ _ _ _ _ _) as [[[h b] passed] sent0].
  destruct (accepted (e_hook e) batch) as [[h2 ok] bad] eqn:Eacc. destruct Hpc as (-> & -> & ->).
  pose proof (accepted_length _ _ _ _ _ Eacc) as Hlen.
  destruct ok as [|q ok0] eqn:Eok; [apply mem_step_same; done || lia|]. rewrite <- Eok in *.
  destruct (match e_sync_mode _ with Full => _ | Group _ => _ end) as [w [n|err]];
    [|apply mem_step_same; done || lia].
  eapply mem_step_trans; [|apply apply_batch_mem; [done|done|cbn; lia]].
  apply mem_step_same; done || lia.
Qed.

(** A reader's observation depends only on the history up to its snapshot. *)
Lemma observe_history (e e' : Eng) k s :
  mt_inv (e_memtable e) -> mt_inv (e_memtable e') -> s < OPEN_ENDED_TS ->
  (forall u, u <= s -> key_history (mt_map (e_memtable e')) k !! u =
                       key_history (mt_map (e_memtable e)) k !! u) ->
  observe e' k s = observe e k s.
Proof.
  intros Hi Hi' Hs Heq. unfold observe.
  pose proof (mt_get_history (e_memtable e) k (mkSnapshot s) Hi Hs) as H1'.
  pose proof (mt_get_history (e_memtable e') k (mkSnapshot s) Hi' Hs) as H2'.
  cbn [ts] in H1', H2'.
  destruct (mt_get (e_memtable e) _ _) as [v|], (mt_get (e_memtable e') _ _) as [v'|]; cbn; [..|done].
  - destruct H1' as (L & Hle & Hmax), H2' as (L' & Hle' & Hmax').
    assert (begin_ts v' = begin_ts v).
    { apply Z.le_antisymm.
      - apply Hmax; [|done]. rewrite <- Heq by done. by rewrite L'.
      - apply Hmax'; [|done]. rewrite Heq by done. by rewrite L. }
    rewrite Heq in L' by done. congruence.
  - destruct H1' as (L & Hle & _). rewrite <- Heq in L by done. specialize (H2' _ (mk_is_Some _ _ L)). lia.
  - destruct H2' as (L & Hle & _). rewrite Heq in L by done. specialize (H1' _ (mk_is_Some _ _ L)). lia.
Qed.

Lemma observe_mem_step (e e' : Eng) k s :
  mt_inv (e_memtable e) -> mem_step e e' -> s < e_commit_seq e -> observe e' k s = observe e k s.
Proof.
  intros Hi [Hi' Hq Hh _] Hs. apply observe_history; [done|done|lia|]. intros u Hu. apply Hh. lia.
Qed.

(** ** Steps with guards *)

Lemma guards_inv_mem (e e' : Eng) g : guards_inv e g -> mem_step e e' -> guards_inv e' g.
Proof. intros [Hs Hc _ Hq] [Hi Hq' _ Hp]. split; rewrite ?Hp; try done. lia. Qed.

(** A guarded step adds a guard, drops one, collects, or commits. *)
Lemma guard_step_inv c c' :
  guard_step c c' -> guards_inv c.1 c.2 ->
  guards_inv c'.1 c'.2 /\ e_commit_seq c.1 <= e_commit_seq c'.1 /\
  forall k s, In s c.2 -> s < e_commit_seq c.1 -> observe c'.1 k s = observe c.1 k s.
Proof.
  assert (Hcommit : forall (e e' : Eng) g, guards_inv e g -> mem_step e e' ->
    guards_inv e' g /\ e_commit_seq e <= e_commit_seq e' /\
    forall k s, In s g -> s < e_commit_seq e -> observe e' k s = observe e k s).
  { intros e e' g Hg Hm. split; [by eapply guards_inv_mem|]. split; [by destruct Hm; lia|].
    intros k s _ Hs. apply observe_mem_step; [by destruct Hg|done|done]. }
  intros Hst Hg. pose proof Hg as [Hs Hc Hm Hq].
  destruct Hst as [e g|e g s|e g s Hin|e g ms th io_w io_s e' r Hb Hw
    |e g tx ms th io_w io_s e' r Hb Hw|e g batch io_w io_s e' sent r Hb Hf|e g io|e g Hv];
    cbn [fst snd] in *.
  - split; [exact (pins_count_add e g _ Hg)|]. split; [cbn; lia|done].
  - split; [exact (pins_count_add e g _ Hg)|]. split; [cbn; lia|done].
  - split; [by apply pins_count_drop|]. destruct (unpin_same e s) as (_ & Hmem & Hseq & _).
    unfold observe. rewrite Hmem, Hseq. split; [lia|done].
  - apply Hcommit; [done|]. eapply engine_write_mem; [..|exact Hw]; done || lia.
  - apply Hcommit; [done|]. eapply write_with_tx_mem; [..|exact Hw]; done || lia.
  - apply Hcommit; [done|].
    replace e' with (flush_pending_batch e batch io_w io_s).1.1 by (by rewrite Hf).
    apply flush_pending_mem; done || lia.
  - apply Hcommit; [done|]. apply mem_step_same; done || lia.
  - unfold engine_garbage_collect.
    destruct (mt_gc_ok (e_memtable e) (engine_watermark e) Hm Hv) as (t' & -> & Hi' & Hmap & _).
    split; [by split|]. split; [cbn; lia|]. intros k s Hin _. unfold observe. cbn [e_memtable with_memtable fst].
    f_equal. apply (gc_get_same _ _ (engine_watermark e)); [done|done|done|].
    by eapply watermark_below_guard.
Qed.

Lemma guards_inv_fresh (e : Eng) :
  e_pinned_snapshots e = [] -> mt_inv (e_memtable e) -> 1 <= e_commit_seq e < OPEN_ENDED_TS ->
  guards_inv e [].
Proof. intros Hp Hi Hq. split; rewrite ?Hp; try done. constructor. Qed.

Lemma guard_steps_inv c c' : rtc guard_step c c' -> guards_inv c.1 c.2 -> guards_inv c'.1 c'.2.
Proof. induction 1 as [|c1 c2 c3 Hst _ IH]; [done|]. intros Hg. by apply IH, (guard_step_inv c1 c2). Qed.

Lemma held_steps_observe s c c' :
  held_steps s c c' -> guards_inv c.1 c.2 -> s < e_commit_seq c.1 ->
  guards_inv c'.1 c'.2 /\ In s c'.2 /\ forall k, observe c'.1 k s = observe c.1 k s.
Proof.
  induction 1 as [c Hin|c1 c2 c3 Hin Hst _ IH]; intros Hg Hs; [done|].
  destruct (guard_step_inv _ _ Hst Hg) as (Hg2 & Hq & Ho).
  destruct IH as (Hg3 & Hin3 & Ho3); [done|lia|]. split; [done|]. split; [done|].
  intros k. rewrite Ho3. by apply Ho.
Qed.

(** Snapshot isolation of readers.  Whatever an engine has done since it was
    opened, a reader that begins now sees every commit so far; and as long as it
    holds its guard, however many writes and group commits succeed or fail, other
    readers come and go, and collections run in between, every key reads as it did
    when the reader began, and the collector's watermark stays at or below it. *)
Lemma pinned_snapshot_stable (e0 e e1 e2 : Eng) (g g2 : list TxnTs) (s : TxnTs) :
  e_pinned_snapshots e0 = [] -> mt_inv (e_memtable e0) -> 1 <= e_commit_seq e0 < OPEN_ENDED_TS ->
  rtc guard_step (e0, []) (e, g) -> begin_read e = (e1, s) ->
  held_steps s (e1, s :: g) (e2, g2) ->
  s = e_commit_seq e - 1 /\ engine_watermark e2 <= s /\ forall k, observe e2 k s = observe e k s.
Proof.
  intros Hp Hi Hq Hrun Hb Hheld.
  pose proof (guard_steps_inv _ _ Hrun (guards_inv_fresh e0 Hp Hi Hq)) as Hg. cbn [fst snd] in Hg.
  pose proof (gi_seq _ _ Hg) as Hqe.
  assert (Hs : s = e_commit_seq e - 1)
    by (injection Hb as <- <-; unfold saturating_sub; lia).
  assert (Hst : guard_step (e, g) (e1, s :: g)).
  { replace e1 with (begin_read e).1 by (by rewrite Hb). replace s with (begin_read e).2 by (by rewrite Hb).
    constructor. }
  destruct (guard_step_inv _ _ Hst Hg) as (Hg1 & Hq1 & _). cbn [fst snd] in Hg1, Hq1.
  destruct (held_steps_observe _ _ _ Hheld Hg1) as (Hg2 & Hin & Ho); [cbn; lia|]. cbn [fst snd] in *.
  split; [done|]. split; [by eapply watermark_below_guard|]. intros k. rewrite Ho.
  injection Hb as <- _. done.
Qed.
End Snapshots.

(** ** A reader across an overwrite and a collection *)

#[local] Existing Instance no_sse42.

Definition read_sample : Engine (T := BTreeMapTable) (H := unit) :=
  Eval vm_compute in (begin_read written_sample).1.
Definition overwritten_sample : Engine (T := BTreeMapTable) (H := unit) :=
  Eval vm_compute in (engine_write read_sample [MPut [x61] [x32]] ThrottleNone IoOk IoOk).1.
Definition collected_sample : Engine (T := BTreeMapTable) (H := unit) :=
  Eval vm_compute in (engine_garbage_collect overwritten_sample).1.

