(* ===== verification/Sst.v ===== *)
(** * SST files ([hatp-engine/src/vortex_sst.rs], [sst_format.rs])

    An SST is a Vortex file whose base columns are the key, the value (null for a
    tombstone), the two timestamps and the tombstone flag; when the table has a
    schema, its business columns repeat what the value holds, so that filters on
    them run inside the scan.  The Vortex library is external: writing a struct
    array and scanning it with a filter expression are the parameter [VortexLib],
    and [VortexLaws] states that a scan returns the written rows that satisfy the
    expression, in the order they were written. *)

From Stdlib Require Import Strings.String.
From stdpp Require Import base tactics list option.
From S2P Require Import Prelude OrdMap Types Version Codec Arrow RowCodec MemTable ColumnPredicate.
#[local] Open Scope Z_scope.

(** ** Columns *)

(** Primitive types of Vortex arrays. *)
Inductive PType := I8 | I16 | I32 | I64 | U8 | U16 | U32 | U64.
#[global] Instance ptype_dec : EqDecision PType.
Proof. solve_decision. Defined.

(** A value of a column that is not null. *)
Inductive Cell :=
| CInt (p : PType) (v : Z)
| CFloat32 (bits : Z) | CFloat64 (bits : Z)
| CBool (v : bool)
| CBytes (v : bytes).

(** One row of the file. *)
Record Columns := mkColumns {
  col_key : bytes;
  col_value : option bytes;
  col_begin_ts : TxnTs;
  col_end_ts : TxnTs;
  col_tombstone : bool;
  col_cells : list (option Cell);
}.

(** ** Filter expressions *)

Inductive ColName := ColKey | ColBeginTs | ColEndTs | ColBusiness (n : nat).
Inductive CmpOp := OpEq | OpLt | OpGt | OpGtEq.

(** [col op lit], [lit op col] and conjunction. *)
Inductive Expression :=
| ECol (op : CmpOp) (c : ColName) (l : Cell)
| ELit (op : CmpOp) (l : Cell) (c : ColName)
| EAnd (a b : Expression).

(** *** What an expression means

    Integers of one type compare by value, floats in the IEEE total order, bytes
    lexicographically; nulls satisfy nothing. *)
Definition cell_cmp (a b : Cell) : option comparison :=
  match a, b with
  | CInt p x, CInt q y => if bool_decide (p = q) then Some (x ?= y) else None
  | CFloat32 x, CFloat32 y => Some (f_rank 31 x ?= f_rank 31 y)
  | CFloat64 x, CFloat64 y => Some (f_rank 63 x ?= f_rank 63 y)
  | CBool x, CBool y => Some (bool_cmp x y)
  | CBytes x, CBytes y => Some (bcmp x y)
  | _, _ => None
  end.

Definition op_holds (op : CmpOp) (c : comparison) : bool :=
  match op, c with
  | OpEq, Eq | OpLt, Lt | OpGt, Gt | OpGtEq, (Gt | Eq) => true
  | _, _ => false
  end.

Definition cell_at (c : Columns) (name : ColName) : option Cell :=
  match name with
  | ColKey => Some (CBytes (col_key c))
  | ColBeginTs => Some (CInt U64 (col_begin_ts c))
  | ColEndTs => Some (CInt U64 (col_end_ts c))
  | ColBusiness n => x ← col_cells c !! n; x
  end.

Definition cells_hold (op : CmpOp) (a b : option Cell) : bool :=
  match a, b with
  | Some a, Some b => match cell_cmp a b with Some o => op_holds op o | None => false end
  | _, _ => false
  end.

Fixpoint expr_holds (e : Expression) (c : Columns) : bool :=
  match e with
  | ECol op name l => cells_hold op (cell_at c name) (Some l)
  | ELit op l name => cells_hold op (Some l) (cell_at c name)
  | EAnd a b => expr_holds a c && expr_holds b c
  end.

(** The expression names columns of the file and compares values of one type. *)
Definition comparable (c : Columns) (name : ColName) (l : Cell) : bool :=
  match name with
  | ColBusiness n =>
      match col_cells c !! n with
      | None => false
      | Some None => true
      | Some (Some x) => match cell_cmp x l with Some _ => true | None => false end
      end
  | _ => match cell_at c name with
         | Some x => match cell_cmp x l with Some _ => true | None => false end
         | None => false
         end
  end.

Fixpoint expr_ok (e : Expression) (c : Columns) : bool :=
  match e with
  | ECol _ name l | ELit _ l name => comparable c name l
  | EAnd a b => expr_ok a c && expr_ok b c
  end.

(** The calls into the Vortex crates; [None] is a scan without filter.  The text
    of values without a column type of their own is [Debug]'s. *)
Class VortexLib := {
  vfile : Type;
  vortex_write : list Columns -> Result vfile;
  vortex_len : vfile -> Z;
  vortex_scan : vfile -> option Expression -> Result (list Columns);
  debug_fmt : ScalarValue -> bytes;
}.

Class VortexLaws `{VortexLib} : Prop := {
  vortex_scan_all : forall cols f, vortex_write cols = Ok f -> vortex_scan f None = Ok cols;
  vortex_scan_filter : forall cols f e,
    vortex_write cols = Ok f -> forallb (expr_ok e) cols = true ->
    vortex_scan f (Some e) = Ok (List.filter (expr_holds e) cols);
  vortex_len_u64 : forall f, is_u64 (vortex_len f);
}.

Record SstHandle := mkHandle {
  sh_file_id : Z;
  sh_min_key : bytes;
  sh_max_key : bytes;
  sh_rows : Z;
  sh_bytes : Z;
}.

(** [typed_null] of [vortex_sst.rs] *)
Definition sst_typed_null (data_type : DataType) : ScalarValue :=
  match data_type with
  | DtInt8 => SvInt8 None | DtInt16 => SvInt16 None | DtInt32 => SvInt32 None | DtInt64 => SvInt64 None
  | DtUInt8 => SvUInt8 None | DtUInt16 => SvUInt16 None | DtUInt32 => SvUInt32 None | DtUInt64 => SvUInt64 None
  | DtFloat32 => SvFloat32 None | DtFloat64 => SvFloat64 None
  | DtBoolean => SvBoolean None
  | DtUtf8 => SvUtf8 None | DtLargeUtf8 => SvLargeUtf8 None
  | DtBinary => SvBinary None | DtLargeBinary => SvLargeBinary None
  | DtDate32 => SvDate32 None | DtDate64 => SvDate64 None
  | _ => SvNull
  end.

Section Sst.
Context `{VortexLib}.

(** [build_column_array], one slot: booleans have no validity bitmap. *)
Definition build_cell (data_type : DataType) (s : ScalarValue) : option Cell :=
  match data_type with
  | DtInt64 => match s with SvInt64 (Some v) => Some (CInt I64 v) | _ => None end
  | DtInt32 => match s with SvInt32 (Some v) => Some (CInt I32 v) | _ => None end
  | DtInt16 => match s with SvInt16 (Some v) => Some (CInt I16 v) | _ => None end
  | DtInt8 => match s with SvInt8 (Some v) => Some (CInt I8 v) | _ => None end
  | DtUInt64 => match s with SvUInt64 (Some v) => Some (CInt U64 v) | _ => None end
  | DtUInt32 => match s with SvUInt32 (Some v) => Some (CInt U32 v) | _ => None end
  | DtUInt16 => match s with SvUInt16 (Some v) => Some (CInt U16 v) | _ => None end
  | DtUInt8 => match s with SvUInt8 (Some v) => Some (CInt U8 v) | _ => None end
  | DtFloat64 => match s with SvFloat64 (Some v) => Some (CFloat64 v) | _ => None end
  | DtFloat32 => match s with SvFloat32 (Some v) => Some (CFloat32 v) | _ => None end
  | DtBoolean => Some (CBool match s with SvBoolean (Some true) => true | _ => false end)
  | DtUtf8 | DtLargeUtf8 =>
      match s with SvUtf8 (Some v) | SvLargeUtf8 (Some v) => Some (CBytes v) | _ => None end
  | DtBinary | DtLargeBinary =>
      match s with SvBinary (Some v) | SvLargeBinary (Some v) => Some (CBytes v) | _ => None end
  | DtDate32 => match s with SvDate32 (Some v) => Some (CInt I32 v) | _ => None end
  | DtDate64 => match s with SvDate64 (Some v) => Some (CInt I64 v) | _ => None end
  | DtTimestamp _ _ =>
      match s with
      | SvTimestampSecond (Some v) _ | SvTimestampMillisecond (Some v) _
      | SvTimestampMicrosecond (Some v) _ | SvTimestampNanosecond (Some v) _ => Some (CInt I64 v)
      | _ => None
      end
  | _ => if is_null s then None else Some (CBytes (debug_fmt s))
  end.

(** The business columns of a row; [None] when its payload is read past the end. *)
Definition null_cells (schema : Schema) : list (option Cell) :=
  (fun f => build_cell (fd_type f) (sst_typed_null (fd_type f))) <$> schema.

Definition business_cells (schema : Schema) (v : option bytes) : option (list (option Cell)) :=
  match v with
  | None => Some (null_cells schema)
  | Some payload =>
      match decode_row_values payload schema with
      | None => None
      | Some (Err _) => Some (null_cells schema)
      | Some (Ok decoded) => Some (zip_with (fun f s => build_cell (fd_type f) s) schema decoded)
      end
  end.

Definition columns_of (row_schema : option Schema) (r : VersionedRow) : option Columns :=
  let v := row_version r in
  cells ← match row_schema with Some schema => business_cells schema (value v) | None => Some [] end;
  Some (mkColumns (row_key r) (value v) (begin_ts v) (end_ts v)
          (match value v with Some _ => false | None => true end) cells).

(** [collect_rows]: the transaction id is not stored. *)
Definition row_of (c : Columns) : VersionedRow :=
  mkRow (col_key c) {| value := col_value c; begin_ts := col_begin_ts c; end_ts := col_end_ts c; tx_id := 0 |}.

Definition collect_rows (cols : list Columns) : list VersionedRow := map row_of cols.

(** [write]; [None] is undefined behaviour of the row decoder. *)
Definition sst_write (rows : list VersionedRow) (file_id : Z) (row_schema : option Schema) (io : Result unit)
  : option (Result (vfile * SstHandle)) :=
  let min_key := match rows with r :: _ => row_key r | [] => [] end in
  let max_key := match rows !! (length rows - 1)%nat with Some r => row_key r | None => [] end in
  cols ← mapM (columns_of row_schema) rows;
  Some (let? f := vortex_write cols in
        let? _ := io in
        Ok (f, mkHandle file_id min_key max_key (Z.of_nat (length rows)) (vortex_len f))).

(** [read_all] *)
Definition sst_read_all (f : vfile) : Result (list VersionedRow) :=
  let? cols := vortex_scan f None in Ok (collect_rows cols).

Definition visible_expr (s : Snapshot) : Expression :=
  EAnd (ELit OpGtEq (CInt U64 (ts s)) ColBeginTs) (ECol OpGt ColEndTs (CInt U64 (ts s))).

(** [get] *)
Definition sst_get (f : vfile) (key : bytes) (s : Snapshot) : Result (option VersionedValue) :=
  let? cols := vortex_scan f (Some (EAnd (ECol OpEq ColKey (CBytes key)) (visible_expr s))) in
  Ok (row_version <$> head (collect_rows cols)).

(** The literals [column_pred_to_vortex] has a case for, per operator. *)
Definition eq_literal (value : ScalarValue) : option Cell :=
  match value with
  | SvInt8 (Some v) => Some (CInt I8 v)
  | SvInt16 (Some v) => Some (CInt I16 v)
  | SvInt32 (Some v) => Some (CInt I32 v)
  | SvInt64 (Some v) => Some (CInt I64 v)
  | SvUInt8 (Some v) => Some (CInt U8 v)
  | SvUInt16 (Some v) => Some (CInt U16 v)
  | SvUInt32 (Some v) => Some (CInt U32 v)
  | SvUInt64 (Some v) => Some (CInt U64 v)
  | SvFloat32 (Some v) => Some (CFloat32 v)
  | SvFloat64 (Some v) => Some (CFloat64 v)
  | SvUtf8 (Some v) | SvLargeUtf8 (Some v) => Some (CBytes v)
  | SvBoolean (Some v) => Some (CBool v)
  | _ => None
  end.

Definition order_literal (value : ScalarValue) : option Cell :=
  match value with
  | SvInt8 (Some v) => Some (CInt I8 v)
  | SvInt16 (Some v) => Some (CInt I16 v)
  | SvInt32 (Some v) => Some (CInt I32 v)
  | SvInt64 (Some v) => Some (CInt I64 v)
  | SvFloat32 (Some v) => Some (CFloat32 v)
  | SvFloat64 (Some v) => Some (CFloat64 v)
  | _ => None
  end.

(** The name table has 256 entries; beyond it the code takes [col_0]. *)
Definition pushed_column (col : nat) : ColName := ColBusiness (if (col <? 256)%nat then col else 0%nat).

(** [column_pred_to_vortex] *)
Definition column_pred_to_vortex (pred : ColumnPredicate) : option Expression :=
  match pred with
  | PEq col value => ECol OpEq (pushed_column col) <$> eq_literal value
  | PLessThan col value => ECol OpLt (pushed_column col) <$> order_literal value
  | PLessThanOrEqual _ _ => None
  | PGreaterThan col value => ECol OpGt (pushed_column col) <$> order_literal value
  | PGreaterThanOrEqual col value => ECol OpGtEq (pushed_column col) <$> order_literal value
  | PRange _ _ _ => None
  end.

(** [scan] *)
Definition range_expr (lower upper : bytes) (s : Snapshot) : Expression :=
  EAnd (EAnd (ECol OpGtEq ColKey (CBytes lower)) (ECol OpLt ColKey (CBytes upper))) (visible_expr s).

Definition scan_filter (lower upper : bytes) (s : Snapshot) (predicates : list ColumnPredicate) : Expression :=
  fold_left (fun filter pred =>
    match column_pred_to_vortex pred with Some e => EAnd filter e | None => filter end)
    predicates (range_expr lower upper s).

Definition sst_scan (f : vfile) (lower upper : bytes) (s : Snapshot) (predicates : list ColumnPredicate)
  : Result (list VersionedRow) :=
  let? cols := vortex_scan f (Some (scan_filter lower upper s predicates)) in
  Ok (collect_rows cols).

(** ** The format ([sst_format.rs]) *)

(** [can_vortex_pushdown] *)
Definition can_vortex_pushdown (pred : ColumnPredicate) : bool :=
  match pred with
  | PEq _ value | PLessThan _ value | PGreaterThan _ value | PGreaterThanOrEqual _ value =>
      match value with
      | SvInt8 (Some _) | SvInt16 (Some _) | SvInt32 (Some _) | SvInt64 (Some _)
      | SvUInt8 (Some _) | SvUInt16 (Some _) | SvUInt32 (Some _) | SvUInt64 (Some _)
      | SvFloat32 (Some _) | SvFloat64 (Some _)
      | SvUtf8 (Some _) | SvLargeUtf8 (Some _) | SvBoolean (Some _) => true
      | _ => false
      end
  | PLessThanOrEqual _ _ | PRange _ _ _ => false
  end.

Context `{ScalarOrd}.

(** [VortexFormat::scan_with_filter] *)
Definition scan_with_filter (f : vfile) (lower upper : bytes) (s : Snapshot)
    (predicates : option (list (bytes * ColumnPredicate))) (row_schema : option Schema)
  : option (Result (list VersionedRow)) :=
  let preds := map snd (default [] predicates) in
  let pred_slice := List.filter can_vortex_pushdown preds in
  let residual := List.filter (fun p => negb (can_vortex_pushdown p)) preds in
  let! rows := Some (sst_scan f lower upper s pred_slice) in
  match residual with
  | [] => Some (Ok rows)
  | _ =>
      match row_schema with
      | None => Some (Err (CorruptMessage "scan_with_filter requires row_schema"))
      | Some schema => apply_row_predicates rows schema residual
      end
  end.

(** [VortexFormat::zone_map]; the column maps of this format are empty. *)
Record ZoneMap := mkZone { zm_min_key : bytes; zm_max_key : bytes; zm_total_rows : Z; zm_total_bytes : Z }.

Definition zone_map (f : vfile) : Result ZoneMap :=
  let? rows := sst_read_all f in
  Ok (mkZone (match rows with r :: _ => row_key r | [] => [] end)
             (match rows !! (length rows - 1)%nat with Some r => row_key r | None => [] end)
             (Z.of_nat (length rows)) (vortex_len f)).
End Sst.
