(* ===== verification/SstProps.v ===== *)
(** * SST files: what is read back

    A file holds the rows it was written with; reads, lookups and range scans are
    filters of them; a filtered scan selects exactly the rows whose columns satisfy
    the predicates, for predicates the format can express. *)

From Stdlib Require Import Strings.String.
From stdpp Require Import base tactics list option.
From S2P Require Import Prelude OrdMap Types Version Codec Arrow RowCodec RowCodecProps MemTable KeyIndex ColumnPredicate Sst.
#[local] Open Scope Z_scope.

(** A row as an SST gives it back. *)
Definition stored (r : VersionedRow) : VersionedRow :=
  let v := row_version r in
  mkRow (row_key r) {| value := value v; begin_ts := begin_ts v; end_ts := end_ts v; tx_id := 0 |}.

Section Reads.
Context `{VortexLib}.

Lemma stored_key r : row_key (stored r) = row_key r.
Proof. done. Qed.

Lemma stored_sees s r : sees s (row_version (stored r)) = sees s (row_version r).
Proof. done. Qed.

(** The file was written with [schema] and holds the rows [rows]. *)
Definition sst_wrote (schema : option Schema) (f : vfile) (rows : list VersionedRow) : Prop :=
  exists src cols, mapM (columns_of schema) src = Some cols /\ vortex_write cols = Ok f /\ rows = map stored src.

Definition sst_holds (f : vfile) (rows : list VersionedRow) : Prop := exists schema, sst_wrote schema f rows.

Lemma columns_of_row schema r c : columns_of schema r = Some c -> row_of c = stored r.
Proof.
  unfold columns_of. destruct schema as [sc|]; cbn; [|by intros [= <-]].
  destruct (business_cells sc _); cbn; [|done]. by intros [= <-].
Qed.

Lemma collect_wrote schema src cols :
  mapM (columns_of schema) src = Some cols -> collect_rows cols = map stored src.
Proof.
  intros Hm. apply mapM_Some in Hm. unfold collect_rows.
  induction Hm as [|r c src cols Hc _ IH]; [done|]. cbn. by rewrite IH, (columns_of_row _ _ _ Hc).
Qed.

Lemma filter_wrote schema (p : VersionedRow -> bool) (q : Columns -> bool) src cols :
  mapM (columns_of schema) src = Some cols ->
  Forall2 (fun r c => columns_of schema r = Some c -> q c = p (stored r)) src cols ->
  collect_rows (List.filter q cols) = List.filter p (map stored src).
Proof.
  intros Hm Hpq. apply mapM_Some in Hm. unfold collect_rows.
  induction Hm as [|r c src cols Hc _ IH]; [done|]. inversion Hpq as [|? ? ? ? Hq Hpq']; subst. cbn.
  rewrite (Hq Hc). destruct (p (stored r)); cbn; rewrite (IH Hpq'); [|done]. by rewrite (columns_of_row _ _ _ Hc).
Qed.

Lemma filter_wrote_all schema p q src cols :
  mapM (columns_of schema) src = Some cols -> (forall c, q c = p (row_of c)) ->
  collect_rows (List.filter q cols) = List.filter p (map stored src).
Proof.
  intros Hm Hpq. eapply filter_wrote; [done|]. apply mapM_Some in Hm.
  eapply Forall2_impl; [|exact Hm]. intros r c Hc _. by rewrite Hpq, (columns_of_row _ _ _ Hc).
Qed.

(** *** The base columns *)

Lemma visible_expr_ok s c : expr_ok (visible_expr s) c = true.
Proof. done. Qed.

Lemma visible_expr_holds s c : expr_holds (visible_expr s) c = sees s (row_version (row_of c)).
Proof.
  unfold visible_expr, expr_holds, cells_hold, sees, visible_at. cbn. f_equal.
  - rewrite <- Z.geb_leb. unfold Z.geb. by destruct (_ ?= _).
  - rewrite <- Z.gtb_ltb. unfold Z.gtb. by destruct (_ ?= _).
Qed.

Lemma range_expr_ok lower upper s c : expr_ok (range_expr lower upper s) c = true.
Proof. done. Qed.

Lemma bytes_ge k l : cells_hold OpGtEq (Some (CBytes k)) (Some (CBytes l)) = lec l k.
Proof.
  unfold cells_hold, lec. cbn. change (cmp l k) with (bcmp l k). rewrite (bcmp_antisym l k). by destruct (bcmp l k).
Qed.

Lemma bytes_lt k l : cells_hold OpLt (Some (CBytes k)) (Some (CBytes l)) = ltc k l.
Proof. unfold cells_hold, ltc. cbn. change (cmp k l) with (bcmp k l). by destruct (bcmp k l). Qed.

Lemma bytes_eq k l : cells_hold OpEq (Some (CBytes k)) (Some (CBytes l)) = eqc k l.
Proof. unfold cells_hold, eqc. cbn. change (cmp k l) with (bcmp k l). by destruct (bcmp k l). Qed.

Lemma range_expr_holds lower upper s c :
  expr_holds (range_expr lower upper s) c
  = in_range lower upper (row_key (row_of c)) && sees s (row_version (row_of c)).
Proof.
  unfold range_expr. rewrite <- visible_expr_holds. cbn [expr_holds cell_at]. by rewrite bytes_ge, bytes_lt.
Qed.

Context `{!VortexLaws}.

Lemma sst_read_all_holds f rows : sst_holds f rows -> sst_read_all f = Ok rows.
Proof.
  intros (schema & src & cols & Hm & Hw & ->). unfold sst_read_all. rewrite (vortex_scan_all _ _ Hw). cbn [rbind].
  by rewrite (collect_wrote _ _ _ Hm).
Qed.

Lemma forallb_ok e cols : (forall c, expr_ok e c = true) -> forallb (expr_ok e) cols = true.
Proof. intros He. apply forallb_forall. auto. Qed.

Lemma sst_scan_holds f rows lower upper s :
  sst_holds f rows ->
  sst_scan f lower upper s [] =
  Ok (List.filter (fun r => in_range lower upper (row_key r) && sees s (row_version r)) rows).
Proof.
  intros (schema & src & cols & Hm & Hw & ->). unfold sst_scan, scan_filter. cbn [fold_left].
  rewrite (vortex_scan_filter _ _ _ Hw) by (apply forallb_ok, range_expr_ok). cbn [rbind]. f_equal.
  eapply filter_wrote_all; [done|]. intros c. apply range_expr_holds.
Qed.

Lemma key_expr_holds key s c :
  expr_holds (EAnd (ECol OpEq ColKey (CBytes key)) (visible_expr s)) c
  = eqc (row_key (row_of c)) key && sees s (row_version (row_of c)).
Proof.
  rewrite <- visible_expr_holds. cbn [expr_holds cell_at]. by rewrite bytes_eq.
Qed.

Lemma sst_get_holds f rows key s :
  sst_holds f rows ->
  sst_get f key s =
  Ok (row_version <$> head (List.filter (fun r => eqc (row_key r) key && sees s (row_version r)) rows)).
Proof.
  intros (schema & src & cols & Hm & Hw & ->). unfold sst_get.
  rewrite (vortex_scan_filter _ _ _ Hw) by (by apply forallb_ok). cbn [rbind]. do 3 f_equal.
  eapply filter_wrote_all; [done|]. intros c. apply key_expr_holds.
Qed.

Lemma sst_write_holds rows id schema io f h :
  sst_write rows id schema io = Some (Ok (f, h)) ->
  sst_wrote schema f (map stored rows) /\ sh_file_id h = id /\ is_u64 (sh_bytes h) /\
  sh_rows h = Z.of_nat (length rows) /\
  (sh_min_key h = [] \/ exists r, In r rows /\ sh_min_key h = row_key r) /\
  (sh_max_key h = [] \/ exists r, In r rows /\ sh_max_key h = row_key r).
Proof.
  unfold sst_write. destruct (mapM _ _) as [cols|] eqn:Hm; cbn [mbind option_bind]; [|done].
  destruct (vortex_write _) as [f'|] eqn:Hw; cbn [rbind]; [|done].
  destruct io; cbn [rbind]; [|done]. intros [= -> <-]. cbn.
  split; [by exists rows, cols|]. split; [done|]. split; [apply vortex_len_u64|]. split; [done|]. split.
  - destruct rows as [|r rows]; [by left|right]. exists r. split; [by left|done].
  - destruct (rows !! _) as [r|] eqn:E; [right|by left]. exists r. split; [|done].
    by apply list_elem_of_In, (list_elem_of_lookup_2 _ _ _ E).
Qed.

(** The bounds of a handle enclose the keys of sorted rows. *)
Lemma sst_write_bounds rows id schema io f h r :
  sst_write rows id schema io = Some (Ok (f, h)) -> rows_sorted rows -> In r rows ->
  cle (sh_min_key h) (row_key r) /\ cle (row_key r) (sh_max_key h).
Proof.
  unfold sst_write. destruct (mapM _ _) as [cols|]; cbn [mbind option_bind]; [|done].
  destruct (vortex_write _) as [f'|]; cbn [rbind]; [|done]. destruct io; cbn [rbind]; [|done].
  intros [= -> <-] Hs Hin. cbn. apply list_elem_of_In, list_elem_of_lookup in Hin as [i Hi].
  pose proof (lookup_lt_Some _ _ _ Hi) as Hlt. split.
  - destruct rows as [|r0 rows]; [done|]. by eapply (rows_sorted_lookup _ 0 i _ _ Hs); [lia|..].
  - destruct (lookup_lt_is_Some_2 rows (length rows - 1)) as [z Hz]; [lia|]. rewrite Hz.
    eapply (rows_sorted_lookup _ i (length rows - 1) _ _ Hs); [lia|done..].
Qed.

(** A write of [rows] as file [id] that succeeded, whatever its schema. *)
Definition written (rows : list VersionedRow) (id : Z) (f : vfile) (h : SstHandle) : Prop :=
  exists schema io, sst_write rows id schema io = Some (Ok (f, h)).

Lemma written_holds rows id f h :
  written rows id f h ->
  sst_holds f (map stored rows) /\ sh_file_id h = id /\ is_u64 (sh_bytes h) /\
  sh_rows h = Z.of_nat (length rows) /\
  (sh_min_key h = [] \/ exists r, In r rows /\ sh_min_key h = row_key r) /\
  (sh_max_key h = [] \/ exists r, In r rows /\ sh_max_key h = row_key r).
Proof.
  intros (schema & io & Hw). destruct (sst_write_holds _ _ _ _ _ _ Hw) as (Hh & Hr). split; [by exists schema|done].
Qed.
End Reads.

Lemma rows_sorted_stored rows : rows_sorted rows -> rows_sorted (map stored rows).
Proof.
  unfold rows_sorted. induction 1 as [|r rows Hs IH Hall]; cbn; constructor; [done|].
  rewrite List.Forall_forall in Hall |- *. intros r' (r0 & <- & Hin)%in_map_iff. apply (Hall r0 Hin).
Qed.

(** ** Decoded scalars have the type of their column *)

(** For the types filters push down. *)
Definition has_type (t : DataType) (s : ScalarValue) : Prop :=
  match t with
  | DtInt8 => exists v, s = SvInt8 v
  | DtInt16 => exists v, s = SvInt16 v
  | DtInt32 => exists v, s = SvInt32 v
  | DtInt64 => exists v, s = SvInt64 v
  | DtUInt8 => exists v, s = SvUInt8 v
  | DtUInt16 => exists v, s = SvUInt16 v
  | DtUInt32 => exists v, s = SvUInt32 v
  | DtUInt64 => exists v, s = SvUInt64 v
  | DtFloat32 => exists v, s = SvFloat32 v
  | DtFloat64 => exists v, s = SvFloat64 v
  | DtUtf8 => exists v, s = SvUtf8 v
  | DtLargeUtf8 => exists v, s = SvLargeUtf8 v
  | _ => True
  end.

(** The types with a comparable column: not booleans, whose column has no nulls. *)
Definition pushable_type (t : DataType) : bool :=
  match t with
  | DtInt8 | DtInt16 | DtInt32 | DtInt64 | DtUInt8 | DtUInt16 | DtUInt32 | DtUInt64
  | DtFloat32 | DtFloat64 | DtUtf8 | DtLargeUtf8 => true
  | _ => false
  end.

Lemma value_has_type bs pos t s next :
  value_bytes_to_scalar bs pos t = Some (Ok (s, next)) -> has_type t s.
Proof.
  destruct t; cbn -[read_int read_uint read_utf8]; try done.
  all: try (destruct (read_int _ _ _); cbn; [|done]; intros [= <- _]; eauto).
  all: try (destruct (read_uint _ _ _); cbn; [|done]; intros [= <- _]; eauto).
  all: destruct (read_utf8 bs pos) as [[x n]|]; cbn; [|done]; intros [= <- _]; eauto.
Qed.

Lemma decoded_has_type bs fields : forall pos vs,
  decode_full_loop bs pos fields [] = Some (Ok vs) -> Forall2 (fun f s => has_type (fd_type f) s) fields vs.
Proof.
  induction fields as [|f fields IH]; intros pos vs; cbn [decode_full_loop]; [intros [= <-]; constructor|].
  destruct (decode_column _ _ _) as [[[s next]|]|] eqn:E; cbn [ubind]; [|done..].
  rewrite decode_full_loop_acc. destruct (decode_full_loop bs next fields []) as [[vs'|]|] eqn:E'; cbn; [|done..].
  intros [= <-]. constructor; [|by eapply IH]. unfold decode_column in E. destruct (bs !! _) as [m|]; [|done].
  destruct (b2z m =? 0); [|by eapply value_has_type]. injection E as <- _. destruct (fd_type f); cbn; eauto.
Qed.

Section Pushdown.
Context `{VortexLib, ScalarOrd, !ScalarOrdLaws}.

Definition pred_literal (p : ColumnPredicate) : option ScalarValue :=
  match p with
  | PEq _ v | PLessThan _ v | PLessThanOrEqual _ v | PGreaterThan _ v | PGreaterThanOrEqual _ v => Some v
  | PRange _ _ _ => None
  end.

(** What the format pushes down it can express: the predicate has a translation,
    its column a name, and its literal the type of the column. *)
Definition pushes_exactly (schema : Schema) (p : ColumnPredicate) : Prop :=
  can_vortex_pushdown p = true ->
  is_Some (column_pred_to_vortex p) /\ (p_column p < 256)%nat /\
  exists f v, schema !! p_column p = Some f /\ pushable_type (fd_type f) = true /\
    pred_literal p = Some v /\ has_type (fd_type f) v.

Lemma build_cell_null t s : pushable_type t = true -> has_type t s -> is_null s = true -> build_cell t s = None.
Proof. intros Hp Ht Hn. destruct t; cbn in Hp, Ht; try done; destruct Ht as [[v|] ->]; done. Qed.

Lemma null_cells_pushable t : pushable_type t = true -> build_cell t (sst_typed_null t) = None.
Proof. by destruct t. Qed.

(** Columns compare as the scalars they were built from. *)
Lemma build_cell_cmp t s v x :
  pushable_type t = true -> has_type t s -> is_null s = false -> has_type t v -> eq_literal v = Some x ->
  exists y, build_cell t s = Some y /\ cell_cmp y x = Some (scalar_cmp s v) /\ same_type s v /\ is_null v = false.
Proof.
  intros Hp Hs Hn Hv Hx. destruct t; cbn in Hp, Hs, Hv; try done;
    destruct Hs as [[a|] ->], Hv as [[b|] ->]; try done; cbn in Hx; injection Hx as <-;
    eexists; (split; [reflexivity|]); by repeat split.
Qed.

Lemma order_literal_eq v x : order_literal v = Some x -> eq_literal v = Some x.
Proof. destruct v as [|[]|[]|[]|[]| | | | |[]|[]| | | | | | | | | | | | | | | | | | | | | | |]; done. Qed.

(** A translated predicate compares the column with a literal. *)
Lemma translated p e v :
  column_pred_to_vortex p = Some e -> (p_column p < 256)%nat -> pred_literal p = Some v ->
  exists op x, e = ECol op (ColBusiness (p_column p)) x /\ eq_literal v = Some x /\
    forall s, is_null s = false -> same_type s v -> is_null v = false ->
      evaluate p s = op_holds op (scalar_cmp s v).
Proof.
  intros He Hc Hl.
  assert (Hpc : forall col, (col < 256)%nat -> pushed_column col = ColBusiness col)
    by (intros col Hlt; unfold pushed_column; by rewrite (proj2 (Nat.ltb_lt _ _))).
  destruct p as [col w|col w|col w|col w|col w|]; cbn in He, Hc, Hl; try done; injection Hl as <-;
    destruct (_ w) as [x|] eqn:E; cbn in He; try done; injection He as <-; rewrite Hpc by done;
    eexists _, x; (split; [reflexivity|]);
    (split; [first [done|by apply order_literal_eq]|]); intros s Hs Ht Hn; unfold evaluate; rewrite Hs.
  - rewrite sv_eq_same by done. by destruct (scalar_cmp s w).
  - unfold sv_lt. rewrite sv_partial_cmp_same by done. by destruct (scalar_cmp s w).
  - unfold sv_gt. rewrite sv_partial_cmp_same by done. by destruct (scalar_cmp s w).
  - unfold sv_ge. rewrite sv_partial_cmp_same by done. by destruct (scalar_cmp s w).
Qed.

Lemma pushed_holds schema p e r c :
  pushes_exactly schema p -> can_vortex_pushdown p = true -> column_pred_to_vortex p = Some e ->
  rows_decode schema [r] -> columns_of (Some schema) r = Some c ->
  expr_ok e c = true /\ expr_holds e c = row_selected schema [p] r.
Proof.
  intros Hp Hcan He Hd Hc. destruct (Hp Hcan) as (_ & Hlt & f & v & Hf & Hpt & Hl & Hv).
  destruct (translated _ _ _ He Hlt Hl) as (op & x & -> & Hx & Hev).
  unfold columns_of in Hc. apply Forall_cons_1 in Hd as [Hd _]. unfold row_selected.
  destruct (value (row_version r)) as [payload|] eqn:Hval; cbn [business_cells] in Hc.
  - destruct (Hd payload eq_refl) as [decoded Hdec]. rewrite Hdec in Hc |- *. cbn in Hc. injection Hc as <-.
    rewrite decode_row_values_full in Hdec. pose proof (decoded_has_type _ _ _ _ Hdec) as Hty.
    destruct (Forall2_lookup_l _ _ _ _ _ Hty Hf) as (s & Hs & Hst). cbn [row_matches]. rewrite Hs.
    cbn. rewrite lookup_zip_with, Hf, Hs. cbn. destruct (is_null s) eqn:Hn.
    + rewrite (build_cell_null _ _ Hpt Hst Hn). unfold evaluate. by rewrite Hn.
    + destruct (build_cell_cmp _ _ _ _ Hpt Hst Hn Hv Hx) as (y & -> & Hcmp & Hsame & Hnv).
      cbn. rewrite Hcmp, (Hev s Hn Hsame Hnv). split; [done|]. by destruct (op_holds _ _).
  - cbn in Hc. injection Hc as <-. cbn. unfold null_cells. rewrite list_lookup_fmap, Hf. cbn.
    by rewrite null_cells_pushable.
Qed.

(** The filter of a scan, one conjunct per pushed predicate. *)
Lemma scan_filter_fold c preds : forall base,
  Forall (fun p => is_Some (column_pred_to_vortex p)) preds ->
  let filter := fold_left (fun filter pred =>
    match column_pred_to_vortex pred with Some e => EAnd filter e | None => filter end) preds base in
  expr_ok filter c = expr_ok base c &&
    forallb (fun p => match column_pred_to_vortex p with Some e => expr_ok e c | None => true end) preds /\
  expr_holds filter c = expr_holds base c &&
    forallb (fun p => match column_pred_to_vortex p with Some e => expr_holds e c | None => true end) preds.
Proof.
  induction preds as [|p preds IH]; intros base Hp; cbn [fold_left forallb].
  - by rewrite !andb_true_r.
  - apply Forall_cons_1 in Hp as [[e He] Hp]. rewrite He. destruct (IH (EAnd base e) Hp) as [-> ->].
    cbn [expr_ok expr_holds]. by rewrite !andb_assoc.
Qed.

Lemma pushed_all_hold schema preds r c :
  Forall (pushes_exactly schema) preds -> Forall (fun p => can_vortex_pushdown p = true) preds ->
  rows_decode schema [r] -> columns_of (Some schema) r = Some c ->
  forallb (fun p => match column_pred_to_vortex p with Some e => expr_ok e c | None => true end) preds = true /\
  forallb (fun p => match column_pred_to_vortex p with Some e => expr_holds e c | None => true end) preds
  = forallb (fun p => row_selected schema [p] r) preds.
Proof.
  intros Hp Hcan Hd Hc. induction preds as [|p preds IH]; [done|]. cbn [forallb].
  apply Forall_cons_1 in Hp as [Hp1 Hp], Hcan as [Hc1 Hcan]. destruct (Hp1 Hc1) as [[e He] _].
  destruct (pushed_holds _ _ _ _ _ Hp1 Hc1 He Hd Hc) as [Hok Hh]. rewrite He, Hok, Hh.
  by destruct (IH Hp Hcan) as [-> ->].
Qed.

Lemma row_selected_forallb schema ps r :
  ps <> [] -> row_selected schema ps r = forallb (fun p => row_selected schema [p] r) ps.
Proof.
  intros Hne. unfold row_selected. destruct (value (row_version r)) as [payload|].
  - destruct (decode_row_values payload schema) as [[decoded|]|]; [|by destruct ps..].
    rewrite row_matches_forallb. clear Hne. induction ps as [|p ps IH]; [done|]. cbn [forallb].
    rewrite <- IH. cbn [row_matches]. destruct (decoded !! p_column p) as [s|]; [|done]. by destruct (evaluate p s).
  - by destruct ps.
Qed.

Lemma row_selected_stored schema ps r : row_selected schema ps (stored r) = row_selected schema ps r.
Proof. done. Qed.

(** The pushed part of a filtered scan. *)
Lemma scan_pushed schema src cols preds lower upper s :
  mapM (columns_of (Some schema)) src = Some cols -> rows_decode schema src ->
  Forall (pushes_exactly schema) preds -> Forall (fun p => can_vortex_pushdown p = true) preds ->
  forallb (expr_ok (scan_filter lower upper s preds)) cols = true /\
  collect_rows (List.filter (expr_holds (scan_filter lower upper s preds)) cols) =
  List.filter (fun r => in_range lower upper (row_key r) && sees s (row_version r) &&
                        forallb (fun p => row_selected schema [p] r) preds) (map stored src).
Proof.
  intros Hm Hd Hp Hcan.
  assert (Hsome : Forall (fun p => is_Some (column_pred_to_vortex p)) preds).
  { rewrite Forall_forall in Hp, Hcan |- *. intros p Hin. by destruct (Hp p Hin (Hcan p Hin)). }
  assert (Hrow : forall r c, columns_of (Some schema) r = Some c -> rows_decode schema [r] ->
    expr_ok (scan_filter lower upper s preds) c = true /\
    expr_holds (scan_filter lower upper s preds) c
    = in_range lower upper (row_key r) && sees s (row_version r) && forallb (fun p => row_selected schema [p] r) preds).
  { intros r c Hc Hr. unfold scan_filter. destruct (scan_filter_fold c preds (range_expr lower upper s) Hsome) as [-> ->].
    rewrite range_expr_holds, range_expr_ok, (columns_of_row _ _ _ Hc).
    destruct (pushed_all_hold schema preds r c) as [-> ->]; done. }
  apply mapM_Some in Hm. split.
  - apply forallb_forall. intros c Hin%list_elem_of_In. apply list_elem_of_lookup in Hin as [i Hi].
    destruct (Forall2_lookup_r _ _ _ _ _ Hm Hi) as (r & Hr & Hc).
    destruct (Hrow r c Hc) as [Hok _]; [|done]. constructor; [|constructor]. by eapply Forall_lookup_1 in Hd.
  - eapply filter_wrote; [by apply mapM_Some|]. apply Forall2_same_length_lookup. split; [by eapply Forall2_length|].
    intros i r c Hr Hc Hrc. destruct (Hrow r c) as [_ ->]; [done| |done].
    constructor; [|constructor]. by eapply Forall_lookup_1 in Hd.
Qed.

Context `{!VortexLaws}.

Lemma forallb_partition {A} (g h : A -> bool) l :
  forallb h (List.filter g l) && forallb h (List.filter (fun x => negb (g x)) l) = forallb h l.
Proof.
  induction l as [|x l IH]; cbn; [done|]. rewrite <- IH. destruct (g x); cbn; [by rewrite andb_assoc|].
  destruct (h x); cbn; [done|]. by rewrite andb_false_r.
Qed.

(** C14: filters inside an SST scan are exact where the format can express what it
    pushes down. On a file written with the table's schema whose payloads decode,
    take predicates such that each one the format pushes into the file has a
    translation, a column index below 256 and a literal of its column's numeric or
    string type (so no ordered comparison of an unsigned or string column, and no
    boolean, among the pushed ones); the others are evaluated on the decoded rows.
    The scan returns, in file order, exactly the rows in the key range that the
    snapshot sees and whose columns satisfy every predicate; tombstones satisfy
    none. *)
Theorem filtered_scan_exact (schema : Schema) (f : vfile) (rows : list VersionedRow) (lower upper : bytes)
    (s : Snapshot) (preds : list (bytes * ColumnPredicate)) :
  sst_wrote (Some schema) f rows -> schema <> [] -> rows_decode schema rows -> preds <> [] ->
  Forall (pushes_exactly schema) (map snd preds) ->
  scan_with_filter f lower upper s (Some preds) (Some schema) =
  Some (Ok (List.filter (fun r => in_range lower upper (row_key r) && sees s (row_version r) &&
                                  row_selected schema (map snd preds) r) rows)).
Proof.
  intros (src & cols & Hm & Hw & ->) Hs Hd Hne Hp. unfold scan_with_filter. cbn [default id].
  set (ps := map snd preds) in *. assert (Hps : ps <> []) by (unfold ps; by destruct preds).
  set (pushed := List.filter can_vortex_pushdown ps).
  set (residual := List.filter (fun p => negb (can_vortex_pushdown p)) ps).
  assert (Hsrc : rows_decode schema src).
  { unfold rows_decode in *. rewrite Forall_forall in Hd |- *. intros r Hr.
    apply (Hd (stored r)), in_map, Hr. }
  destruct (scan_pushed schema src cols pushed lower upper s) as [Hok Hrows]; [done|done| | |].
  { rewrite Forall_forall in Hp |- *. intros p Hin%filter_In. apply Hp, Hin. }
  { apply Forall_forall. intros p Hin%filter_In. apply Hin. }
  unfold sst_scan. rewrite (vortex_scan_filter _ _ _ Hw Hok). cbn [rbind ubind]. rewrite Hrows.
  assert (Hres : forall r, row_selected schema ps r
    = forallb (fun p => row_selected schema [p] r) pushed && forallb (fun p => row_selected schema [p] r) residual)
    by (intros r; rewrite (row_selected_forallb schema ps r Hps); symmetry; apply forallb_partition).
  destruct (decide (residual = [])) as [He|Hn].
  - rewrite He in Hres |- *. do 2 f_equal. apply filter_ext. intros r. rewrite Hres. cbn. by rewrite andb_true_r.
  - transitivity (apply_row_predicates (List.filter (fun r => in_range lower upper (row_key r) && sees s (row_version r) &&
      forallb (fun p => row_selected schema [p] r) pushed) (map stored src)) schema residual); [by destruct residual|].
    rewrite apply_row_predicates_selected; [|done|done|].
    + rewrite filter_filter_andb. do 2 f_equal. apply filter_ext. intros r.
      by rewrite Hres, (row_selected_forallb schema residual r Hn), !andb_assoc.
    + unfold rows_decode in *. rewrite Forall_forall in Hd |- *.
      intros r Hin%filter_In. apply Hd, Hin.
Qed.
End Pushdown.

(** ** Witness and findings *)

(** A library whose files are their columns. *)
Definition list_vortex : VortexLib := {|
  vfile := list Columns;
  vortex_write cols := Ok cols;
  vortex_len cols := Z.min (Z.of_nat (length cols)) u64_max;
  vortex_scan f filter :=
    match filter with
    | None => Ok f
    | Some e => if forallb (expr_ok e) f then Ok (List.filter (expr_holds e) f)
                else Err (CorruptMessage "no comparison")
    end;
  debug_fmt _ := [];
|}.

Lemma list_vortex_laws : @VortexLaws list_vortex.
Proof.
  split.
  - by intros cols f [= <-].
  - intros cols f e [= <-] Hok. unfold vortex_scan, list_vortex. by rewrite Hok.
  - intros f. unfold is_u64, vortex_len, list_vortex. rewrite u64_max_val. lia.
Qed.

(** Scalars ordered as their column type orders them. *)
Definition column_ord : ScalarOrd := {|
  sv_eq a b := match scalar_cmp a b with Eq => true | _ => false end;
  sv_partial_cmp a b := Some (scalar_cmp a b);
|}.

Lemma column_ord_laws : @ScalarOrdLaws column_ord.
Proof. split; done. Qed.

Section Samples.
#[local] Existing Instance list_vortex.
#[local] Existing Instance list_vortex_laws.
#[local] Existing Instance column_ord.
#[local] Existing Instance column_ord_laws.

Definition id_schema : Schema := [mkField [x69] DtInt64 false; mkField [x66] DtBoolean true; mkField [x75] DtUInt64 true].

(** Rows [(7, null, 9)] and [(8, true, 1)]. *)
Definition id_rows : list VersionedRow :=
  [mkRow [x61] {| value := Some (x01 :: to_le 8 7 ++ [x00] ++ x01 :: to_le 8 9); begin_ts := 1; end_ts := 9; tx_id := 0 |};
   mkRow [x62] {| value := Some (x01 :: to_le 8 8 ++ [x01; x01] ++ x01 :: to_le 8 1); begin_ts := 2; end_ts := 9; tx_id := 0 |}].

Definition id_file : vfile :=
  Eval vm_compute in match mapM (columns_of (Some id_schema)) id_rows with Some cols => cols | None => [] end.

Lemma id_file_wrote : sst_wrote (Some id_schema) id_file id_rows.
Proof. by exists id_rows, id_file. Qed.

Lemma filtered_scan_exact_witness :
  scan_with_filter id_file [x61] [x63] (mkSnapshot 3) (Some [([x69], PGreaterThan 0 (SvInt64 (Some 7)))]) (Some id_schema)
  = Some (Ok (List.filter (fun r => in_range [x61] [x63] (row_key r) && sees (mkSnapshot 3) (row_version r) &&
               row_selected id_schema [PGreaterThan 0 (SvInt64 (Some 7))] r) id_rows)).
Proof.
  apply (filtered_scan_exact id_schema id_file id_rows [x61] [x63] (mkSnapshot 3)
    [([x69], PGreaterThan 0 (SvInt64 (Some 7)))] id_file_wrote).
  - discriminate.
  - constructor; [|constructor; [|constructor]]; intros payload Hp; injection Hp as Hp; rewrite <- Hp;
      eexists; vm_compute; reflexivity.
  - discriminate.
  - constructor; [|constructor]. intros _. split; [eexists; reflexivity|]. split; [cbn; lia|].
    exists (mkField [x69] DtInt64 false), (SvInt64 (Some 7)). repeat split; try reflexivity. exists (Some 7). reflexivity.
Defined.

(** An order comparison on an unsigned or string column is taken for pushed down
    and translated to nothing: the scan does not apply it. *)
Lemma ordered_unsigned_predicate_dropped :
  can_vortex_pushdown (PLessThan 2 (SvUInt64 (Some 5))) = true /\
  column_pred_to_vortex (PLessThan 2 (SvUInt64 (Some 5))) = None /\
  scan_with_filter id_file [x61] [x63] (mkSnapshot 3) (Some [([x75], PLessThan 2 (SvUInt64 (Some 5)))]) (Some id_schema)
  = Some (Ok id_rows) /\
  row_selected id_schema [PLessThan 2 (SvUInt64 (Some 5))] (mkRow [x61] (row_version (hd (mkRow [] (tombstone 0 0)) id_rows))) = false.
Proof. vm_compute. repeat split; reflexivity. Qed.

(** A null boolean is a [false] in its column, so it satisfies [= false]. *)
Lemma null_boolean_matches_false :
  match scan_with_filter id_file [x61] [x63] (mkSnapshot 3) (Some [([x66], PEq 1 (SvBoolean (Some false)))]) (Some id_schema) with
  | Some (Ok rows) => map row_key rows
  | _ => []
  end = [[x61]] /\
  row_selected id_schema [PEq 1 (SvBoolean (Some false))] (hd (mkRow [] (tombstone 0 0)) id_rows) = false.
Proof. vm_compute. split; reflexivity. Qed.

(** Past the 256th column a predicate filters on the first one. *)
Lemma wide_table_filters_first_column :
  column_pred_to_vortex (PEq 300 (SvInt64 (Some 7))) = column_pred_to_vortex (PEq 0 (SvInt64 (Some 7))).
Proof. reflexivity. Qed.
End Samples.
