(* ===== verification/Lsm.v ===== *)
(** * The LSM tree: scans, flush and compaction ([hatp-engine/src/lib.rs])

    The engine with its manifest and SST files.  A flush moves the memtable into
    a level-0 file, a compaction merges two levels, scans combine the memtable
    with every live file.  The refinement below relates all of them to one
    history of commits per key.  Caches that only point lookups use (bloom
    filters, key indexes, hot keys) and column statistics are left out. *)

From Stdlib Require Import Strings.String.
From stdpp Require Import base tactics list option gmap.
From S2P Require Import Prelude OrdMap Types Version Crc32c Wal MemTable MemTableProps TxManager Codec Arrow RowCodec ColumnPredicate Manifest Compaction Engine Sst.
#[local] Open Scope Z_scope.
#[local] Set Warnings "-clear-no-such-hyp".

Section Lsm.
Context {hw : Crc32Hw} {T H : Type} `{MemTableBackend T} `{EngineHook H} `{VortexLib} `{ScalarOrd}.
#[local] Abbreviation Eng := (Engine (T := T) (H := H)).

(** The engine's own state, the manifest, the SST files by id, the cached row
    counts and the registered table schemas. *)
Record Lsm := mkLsm {
  l_engine : Eng;
  l_manifest : Manifest;
  l_disk : omap Z vfile;
  l_dropped : oset bytes;
  l_sst_row_count : Z;
  l_table_rows : omap bytes Z;
  l_wal_max : Z;
  l_schemas : omap bytes Schema;
}.

Definition with_engine (l : Lsm) (e : Eng) : Lsm :=
  mkLsm e (l_manifest l) (l_disk l) (l_dropped l) (l_sst_row_count l) (l_table_rows l) (l_wal_max l) (l_schemas l).
Definition with_manifest (l : Lsm) (m : Manifest) : Lsm :=
  mkLsm (l_engine l) m (l_disk l) (l_dropped l) (l_sst_row_count l) (l_table_rows l) (l_wal_max l) (l_schemas l).
Definition with_disk (l : Lsm) (d : omap Z vfile) : Lsm :=
  mkLsm (l_engine l) (l_manifest l) d (l_dropped l) (l_sst_row_count l) (l_table_rows l) (l_wal_max l) (l_schemas l).
Definition with_dropped (l : Lsm) (d : oset bytes) : Lsm :=
  mkLsm (l_engine l) (l_manifest l) (l_disk l) d (l_sst_row_count l) (l_table_rows l) (l_wal_max l) (l_schemas l).
Definition with_counts (l : Lsm) (n : Z) (t : omap bytes Z) : Lsm :=
  mkLsm (l_engine l) (l_manifest l) (l_disk l) (l_dropped l) n t (l_wal_max l) (l_schemas l).
Definition with_schemas (l : Lsm) (schemas : omap bytes Schema) : Lsm :=
  mkLsm (l_engine l) (l_manifest l) (l_disk l) (l_dropped l) (l_sst_row_count l) (l_table_rows l) (l_wal_max l) schemas.
Definition with_mem (l : Lsm) (t : T) : Lsm := with_engine l (with_memtable (l_engine l) t).

Definition version_set (l : Lsm) : VersionSet := mf_version_set (l_manifest l).

(** [SstFormat::read_all] on the file of an id. *)
Definition read_file (l : Lsm) (file_id : Z) : Result (list VersionedRow) :=
  match om_get file_id (l_disk l) with
  | Some f => sst_read_all f
  | None => Err (Io "no such file")
  end.

(** The schema of the table of the first row, which the file is written with. *)
Definition strip_zero (prefix : bytes) : bytes :=
  match rev prefix with
  | b :: r => if b2z b =? 0 then rev r else prefix
  | [] => prefix
  end.

Definition first_schema (l : Lsm) (rows : list VersionedRow) : option Schema :=
  match rows with
  | [] => None
  | row :: _ => om_get (utf8_lossy (strip_zero (key_table_prefix (row_key row)))) (l_schemas l)
  end.

(** *** Dropped tables *)

Definition is_dropped_prefix (l : Lsm) (key : bytes) : bool :=
  os_mem (key_table_prefix key) (l_dropped l).

Definition drop_table_prefix (l : Lsm) (table : bytes) (io_w io_s : IoOutcome) (io_rw : RewriteIo)
  : option (Lsm * Result Z) :=
  let prefix := table_prefix table in
  match append_batch (l_manifest l) [DroppedPrefix prefix] io_w io_s io_rw with
  | (m, Err err) => Some (with_manifest l m, Err err)
  | (m, Ok _) =>
      let l := with_dropped (with_manifest l m) (os_insert prefix (l_dropped l)) in
      '(t, removed) ← mt_erase_prefix (e_memtable (l_engine l)) prefix;
      Some (with_mem l t, Ok removed)
  end.

Definition undrop_table_prefix (l : Lsm) (table : bytes) (io_w io_s : IoOutcome) (io_rw : RewriteIo)
  : Lsm * Result unit :=
  let prefix := table_prefix table in
  match append_batch (l_manifest l) [UndroppedPrefix prefix] io_w io_s io_rw with
  | (m, Err err) => (with_manifest l m, Err err)
  | (m, Ok _) => (with_dropped (with_manifest l m) (os_remove prefix (l_dropped l)), Ok tt)
  end.

(** *** Scans *)

(** The snapshot the scans pin is released when they return. *)
Fixpoint scan_all_files (l : Lsm) (s : Snapshot) (ids : list Z) (visible : omap bytes VersionedValue)
  : Result (omap bytes VersionedValue) :=
  match ids with
  | [] => Ok visible
  | file_id :: rest =>
      let? rows := read_file l file_id in
      scan_all_files l s rest
        (fold_left (fun visible row =>
           if negb (sees s (row_version row)) || is_dropped_prefix l (row_key row) then visible
           else insert_newest visible (row_key row) (row_version row)) rows visible)
  end.

Definition scan_all (l : Lsm) (snapshot : TxnTs) : Result (list (bytes * option bytes)) :=
  let s := mkSnapshot snapshot in
  let visible := fold_left (fun visible row =>
      if sees s (row_version row) then insert_newest visible (row_key row) (row_version row)
      else visible) (mt_all_versions (e_memtable (l_engine l))) [] in
  let? visible := scan_all_files l s (file_ids (version_set l)) visible in
  Ok (map (fun '(key, version) => (key, value version)) visible).

(** Key-range pruning of [scan_range]. *)
Definition pruned (vs : VersionSet) (lower upper : bytes) (file_id : Z) : bool :=
  match file_metadata vs file_id with
  | Some (min_key, max_key, _, _) =>
      match min_key, max_key with
      | [], _ | _, [] => false
      | _, _ => ltc max_key lower || lec upper min_key
      end
  | None => false
  end.

Fixpoint scan_range_files (l : Lsm) (lower upper : bytes) (s : Snapshot) (ids : list Z)
    (visible : omap bytes VersionedValue) : option (Result (omap bytes VersionedValue)) :=
  match ids with
  | [] => Some (Ok visible)
  | file_id :: rest =>
      if pruned (version_set l) lower upper file_id
      then scan_range_files l lower upper s rest visible
      else
        let! rows := match om_get file_id (l_disk l) with
                     | Some f => scan_with_filter f lower upper s None None
                     | None => Some (Err (Io "no such file"))
                     end in
        scan_range_files l lower upper s rest
          (fold_left (fun visible row =>
             if is_dropped_prefix l (row_key row) then visible
             else insert_newest visible (row_key row) (row_version row)) rows visible)
  end.

Definition scan_range (l : Lsm) (lower upper : bytes) (snapshot : TxnTs)
  : option (Result (list (bytes * bytes))) :=
  let s := mkSnapshot snapshot in
  mem ← mt_scan_range_versions (e_memtable (l_engine l)) lower upper s;
  let visible := fold_left (fun visible e => insert_newest visible e.1 e.2) mem [] in
  let! visible := scan_range_files l lower upper s (file_ids (version_set l)) visible in
  Some (Ok (List.flat_map (fun '(key, version) =>
              match value version with Some v => [(key, v)] | None => [] end) visible)).

(** *** Flush *)

(** Outcomes of the system calls of a flush or a compaction: the SST write, the
    manifest append with its rewrite, the log reset, the removal of an input file
    (an error other than [NotFound]); and the clock. *)
Record LsmIo := mkLsmIo {
  io_sst : Z -> Result unit;
  io_man_w : IoOutcome;
  io_man_s : IoOutcome;
  io_rewrite : RewriteIo;
  io_reset_len : IoOutcome;
  io_reset_sync : IoOutcome;
  io_remove : Z -> Result unit;
  io_now : Z;
}.

(** The first half of [flush], under the write guard. *)
Definition flush_drain (l : Lsm) : Lsm * list VersionedRow :=
  match mt_drain_into (e_memtable (l_engine l)) [] with
  | [] => (l, [])
  | rows => (with_mem l (mt_clear (e_memtable (l_engine l))), rows)
  end.

(** The rows of each table, added to the cached counts. *)
Definition add_table_rows (rows : list VersionedRow) (counts : omap bytes Z) : omap bytes Z :=
  fold_left (fun counts row =>
    om_entry (key_table_prefix (row_key row)) 0 (fun c => saturating_add c 1) counts) rows counts.

(** [flush_sst_locked]; [None] is a payload the row decoder reads past its end. *)
Definition flush_sst_locked (l : Lsm) (rows : list VersionedRow) (io : LsmIo)
  : option (Lsm * Result (option SstHandle)) :=
  match rows with
  | [] => Some (l, Ok None)
  | _ =>
      let file_id := vs_next_file_id (version_set l) in
      written ← sst_write rows file_id (first_schema l rows) (io_sst io file_id);
      Some match written with
      | Err err => (l, Err err)
      | Ok (f, handle) =>
          let l := with_disk l (om_insert file_id f (l_disk l)) in
          match append_batch (l_manifest l)
                  [AddFile file_id 0 (sh_min_key handle) (sh_max_key handle) (sh_bytes handle) (io_now io);
                   NextFileId (saturating_add file_id 1)]
                  (io_man_w io) (io_man_s io) (io_rewrite io) with
          | (m, Err err) => (with_manifest l m, Err err)
          | (m, Ok _) =>
              let l := with_manifest l m in
              let l := with_counts l (wrap64 (l_sst_row_count l + Z.of_nat (length rows)))
                         (add_table_rows rows (l_table_rows l)) in
              let l := with_mem l (mt_clear (e_memtable (l_engine l))) in
              if l_wal_max l <? current_size (e_wal (l_engine l)) then
                match wal_reset (e_wal (l_engine l)) (io_reset_len io) (io_reset_sync io) with
                | (w, Err err) => (with_engine l (with_wal (l_engine l) w), Err err)
                | (w, Ok _) => (with_engine l (with_wal (l_engine l) w), Ok (Some handle))
                end
              else (l, Ok (Some handle))
          end
      end
  end.

(** [flush], when nothing runs between its two halves. *)
Definition flush (l : Lsm) (io : LsmIo) : option (Lsm * Result (option SstHandle)) :=
  match flush_drain l with
  | (l, []) => Some (l, Ok None)
  | (l, rows) => flush_sst_locked l rows io
  end.

(** *** Compaction *)

(** The rows of all the input files. *)
Fixpoint read_inputs (l : Lsm) (chunk : list Z) : Result (list VersionedRow) :=
  match chunk with
  | [] => Ok []
  | input :: rest =>
      let? file_rows := read_file l input in
      let? rows := read_inputs l rest in
      Ok (file_rows ++ rows)
  end.

(** [compact_chunk]: the output file, its handle, the rows consumed and the
    change per table. *)
Definition compact_chunk (l : Lsm) (chunk : list Z) (watermark file_id : Z) (io : LsmIo)
  : option (Lsm * Result (SstHandle * Z * omap bytes Z)) :=
  match read_inputs l chunk with
  | Err err => Some (l, Err err)
  | Ok rows =>
      let deleted_rows := Z.of_nat (length rows) in
      let input_counts := count_rows_by_prefix rows in
      let rows := dedup_superseded rows watermark in
      let prefix_delta := prefix_count_delta input_counts (count_rows_by_prefix rows) in
      written ← sst_write rows file_id (first_schema l rows) (io_sst io file_id);
      Some match written with
      | Err err => (l, Err err)
      | Ok (f, handle) =>
          (with_disk l (om_insert file_id f (l_disk l)), Ok (handle, deleted_rows, prefix_delta))
      end
  end.

(** The per-table update of [commit_compaction]. *)
Definition apply_delta (counts : omap bytes Z) (prefix : bytes) (change : Z) : omap bytes Z :=
  if 0 <? change then om_entry prefix 0 (fun c => saturating_add c change) counts
  else match om_get prefix counts with
       | Some entry =>
           let entry := saturating_sub entry (- change) in
           if entry =? 0 then om_remove prefix counts else om_insert prefix entry counts
       | None => counts
       end.

(** The input files are unlinked one by one. *)
Fixpoint remove_inputs (l : Lsm) (inputs : list Z) (io : LsmIo) : Lsm * Result unit :=
  match inputs with
  | [] => (l, Ok tt)
  | input :: rest =>
      match io_remove io input with
      | Err err => (l, Err err)
      | Ok _ => remove_inputs (with_disk l (om_remove input (l_disk l))) rest io
      end
  end.

Definition compaction_edits (vs : VersionSet) (inputs : list Z) (source_level target_level : Z)
    (handles : list SstHandle) (now : Z) : list VersionEdit :=
  map (fun h => AddFile (sh_file_id h) target_level (sh_min_key h) (sh_max_key h) (sh_bytes h) now) handles
  ++ [NextFileId (saturating_add (fold_left Z.max (map sh_file_id handles) 0) 1)]
  ++ map (fun input => DeleteFile input
            (if bool_decide (input ∈ vs_files vs source_level) then source_level else target_level)) inputs.

(** [commit_compaction] *)
Definition commit_compaction (l : Lsm) (inputs : list Z) (source_level target_level : Z)
    (handles : list SstHandle) (deleted_rows : Z) (prefix_delta : omap bytes Z) (io : LsmIo)
  : Lsm * Result unit :=
  let new_rows := fold_left Z.add (map sh_rows handles) 0 in
  match append_batch (l_manifest l)
          (compaction_edits (version_set l) inputs source_level target_level handles (io_now io))
          (io_man_w io) (io_man_s io) (io_rewrite io) with
  | (m, Err err) => (with_manifest l m, Err err)
  | (m, Ok _) =>
      let l := with_manifest l m in
      let l := with_counts l (wrap64 (l_sst_row_count l - deleted_rows + new_rows))
                 (fold_left (fun counts e => apply_delta counts e.1 e.2) prefix_delta (l_table_rows l)) in
      remove_inputs l inputs io
  end.

(** [compact_with_watermark] *)
Definition compact_with_watermark (l : Lsm) (source_level target_level watermark : Z) (io : LsmIo)
  : option (Lsm * Result (option SstHandle)) :=
  let inputs := compaction_inputs (version_set l) source_level target_level in
  if (length inputs <? 2)%nat then Some (l, Ok None) else
  let file_id := vs_next_file_id (version_set l) in
  chunk ← compact_chunk l inputs watermark file_id io;
  Some match chunk with
  | (l, Err err) => (l, Err err)
  | (l, Ok (handle, deleted_rows, prefix_delta)) =>
      match commit_compaction l inputs source_level target_level [handle] deleted_rows prefix_delta io with
      | (l, Err err) => (l, Err err)
      | (l, Ok _) => (l, Ok (Some handle))
      end
  end.

(** [compact] *)
Definition compact (l : Lsm) (source_level target_level : Z) (io : LsmIo)
  : option (Lsm * Result (option SstHandle)) :=
  compact_with_watermark l source_level target_level (engine_watermark (l_engine l)) io.

(** [sub_compact]: every chunk is merged, into consecutive file ids; the first
    error is returned. *)
Fixpoint compact_chunks (l : Lsm) (chunks : list (list Z)) (watermark file_id : Z) (io : LsmIo)
  : option (Lsm * list (Result (SstHandle * Z * omap bytes Z))) :=
  match chunks with
  | [] => Some (l, [])
  | chunk :: rest =>
      '(l, r) ← compact_chunk l chunk watermark file_id io;
      '(l, rs) ← compact_chunks l rest watermark (saturating_add file_id 1) io;
      Some (l, r :: rs)
  end.

(** [isize::saturating_add] *)
Definition saturating_add_isize (a b : Z) : Z := Z.max (- 2 ^ 63) (Z.min (2 ^ 63 - 1) (a + b)).

Fixpoint gather_chunks (results : list (Result (SstHandle * Z * omap bytes Z)))
    (handles : list SstHandle) (deleted_rows : Z) (prefix_delta : omap bytes Z)
  : Result (list SstHandle * Z * omap bytes Z) :=
  match results with
  | [] => Ok (handles, deleted_rows, prefix_delta)
  | Err err :: _ => Err err
  | Ok (handle, deleted, delta) :: rest =>
      gather_chunks rest (handles ++ [handle]) (saturating_add deleted_rows deleted)
        (fold_left (fun acc e => om_entry e.1 0 (fun c => saturating_add_isize c e.2) acc) delta prefix_delta)
  end.

Definition SUB_COMPACTION_BYTES : Z := 64 * 1024 * 1024.

Definition sub_compact (l : Lsm) (source_level target_level watermark : Z) (io : LsmIo)
  : option (Lsm * Result (option (list SstHandle))) :=
  let inputs := compaction_inputs (version_set l) source_level target_level in
  if (length inputs <? 2)%nat then Some (l, Ok None) else
  let chunks := split_by_size inputs (version_set l) SUB_COMPACTION_BYTES in
  '(l, results) ← compact_chunks l chunks watermark (vs_next_file_id (version_set l)) io;
  Some match gather_chunks results [] 0 [] with
  | Err err => (l, Err err)
  | Ok (handles, deleted_rows, prefix_delta) =>
      match commit_compaction l inputs source_level target_level handles deleted_rows prefix_delta io with
      | (l, Err err) => (l, Err err)
      | (l, Ok _) => (l, Ok (Some handles))
      end
  end.

(** ** Collecting the newest versions *)

(** [visible] holds, for every key of [S], the version of [S] with the greatest
    commit timestamp. *)
Record collects (visible : omap bytes VersionedValue) (S : bytes -> VersionedValue -> Prop) : Prop := {
  cl_sorted : om_sorted visible;
  cl_newest : forall k v, om_get k visible = Some v ->
    S k v /\ forall v', S k v' -> begin_ts v' <= begin_ts v;
  cl_all : forall k v, S k v -> is_Some (om_get k visible);
}.

Lemma collects_nil : collects [] (fun _ _ => False).
Proof. split; [constructor|done|done]. Qed.

Lemma collects_ext visible (S S' : bytes -> VersionedValue -> Prop) :
  (forall k v, S k v <-> S' k v) -> collects visible S -> collects visible S'.
Proof.
  intros He [Hs Hn Ha]. split; [done| |].
  - intros k v Hg. destruct (Hn k v Hg) as [H1' H2']. split; [by apply He|]. intros v' Hv'%He. auto.
  - intros k v Hv%He. eauto.
Qed.

Lemma collects_insert visible S key v :
  collects visible S ->
  collects (insert_newest visible key v) (fun k u => S k u \/ (k = key /\ u = v)).
Proof.
  intros [Hs Hn Ha]. unfold insert_newest.
  assert (Hins : (forall u, S key u -> begin_ts u <= begin_ts v) ->
    collects (om_insert key v visible) (fun k u => S k u \/ (k = key /\ u = v))).
  { intros Hmax. split; [by apply om_sorted_insert| |].
    - intros k u. rewrite om_get_insert. destruct (eqc k key) eqn:E; cbool.
      + subst. intros [= <-]. split; [by right|]. intros u' [Hu|[_ ->]]; [auto|lia].
      + intros Hg. destruct (Hn k u Hg). split; [by left|]. intros u' [Hu|[-> _]]; [auto|done].
    - intros k u Hu. rewrite om_get_insert. destruct (eqc k key) eqn:E; cbool; [done|].
      destruct Hu as [Hu|[-> _]]; [eauto|done]. }
  destruct (om_get key visible) as [c|] eqn:Ec.
  - destruct (Hn key c Ec) as [Hc Hmax]. destruct (Z.ltb_spec (begin_ts c) (begin_ts v)).
    + apply Hins. intros u Hu. specialize (Hmax u Hu). lia.
    + split; [done| |].
      * intros k u Hg. destruct (Hn k u Hg) as [Hu Hm]. split; [by left|].
        intros u' [Hu'|[-> ->]]; [auto|]. rewrite Ec in Hg. injection Hg as <-. lia.
      * intros k u [Hu|[-> _]]; [eauto|]. by rewrite Ec.
  - apply Hins. intros u Hu. destruct (Ha key u Hu) as [? Hx]. by rewrite Ec in Hx.
Qed.

Lemma collects_fold {A} (key : A -> bytes) (ver : A -> VersionedValue) (keep : A -> bool) rows visible S :
  collects visible S ->
  collects (fold_left (fun visible r => if keep r then insert_newest visible (key r) (ver r) else visible)
              rows visible)
    (fun k u => S k u \/ exists r, In r rows /\ keep r = true /\ key r = k /\ ver r = u).
Proof.
  revert visible S. induction rows as [|r rows IH]; intros visible S Hc; cbn [fold_left].
  - eapply collects_ext; [|exact Hc]. intros k u. split; [by left|]. by intros [?|(? & [] & _)].
  - destruct (keep r) eqn:E.
    + eapply collects_ext; [|apply IH, collects_insert, Hc]. intros k u. cbn [In]. split.
      * intros [[Hu|[-> ->]]|(r' & Hin & Hr')]; [by left|right; exists r; auto|right; exists r'; tauto].
      * intros [Hu|(r' & [<-|Hin] & Hk & <- & <-)]; [by left; left|by left; right|].
        right. by exists r'.
    + eapply collects_ext; [|apply IH, Hc]. intros k u. cbn [In]. split.
      * intros [Hu|(r' & Hin & Hr')]; [by left|right; exists r'; tauto].
      * intros [Hu|(r' & [<-|Hin] & Hk & Hr')]; [by left|congruence|]. right. by exists r'.
Qed.
End Lsm.
