(* ===== verification/LsmProps.v ===== *)
(** * The LSM tree refines a history of commits

    Every operation of [Lsm] is related to one abstract object, the history of
    committed values of each key: commits extend it; flushes, compactions and
    collections leave it alone; scans read it. *)

From Stdlib Require Import Strings.String Sorting.Sorted.
From stdpp Require Import base tactics list option gmap.
From S2P Require Import Prelude OrdMap Types Version Crc32c Wal MemTable MemTableProps TxManager Codec KeyIndex Arrow RowCodec ColumnPredicate Manifest Compaction Engine Snapshots Sst SstProps Lsm.
#[local] Open Scope Z_scope.
#[local] Set Warnings "-clear-no-such-hyp".

(** Committed values of a key by commit timestamp; [None] is a delete. *)
Abbreviation values := (gmap Z (option bytes)).

(** [h] has its newest entry at or before [s] at [t]. *)
Definition newest {A} (h : gmap Z A) (s t : TxnTs) (a : A) : Prop :=
  h !! t = Some a /\ t <= s /\ forall t', is_Some (h !! t') -> t' <= s -> t' <= t.

Lemma newest_exists {A} (h : gmap Z A) (s t : TxnTs) :
  is_Some (h !! t) -> t <= s -> exists t0 a, newest h s t0 a.
Proof.
  revert t. induction h as [|u a h Hu IH] using map_ind; intros t Ht Hs.
  { rewrite lookup_empty in Ht. by destruct Ht. }
  assert (Hcase : (exists t1, is_Some (h !! t1) /\ t1 <= s) \/ forall t1, is_Some (h !! t1) -> s < t1).
  { destruct (decide (map_Exists (fun t1 _ => t1 <= s) h)) as [(t1 & x & Hx & Hle)|Hno].
    - left. eauto.
    - right. intros t1 [x Hx]. apply Z.nle_gt. intros Hle. apply Hno. by exists t1, x. }
  destruct Hcase as [(t1 & Ht1 & Hle1)|Hno].
  - destruct (IH t1 Ht1 Hle1) as (t0 & b & Hb & Hle & Hmax).
    destruct (decide (t0 < u /\ u <= s)) as [[H1 H2]|Hn].
    + exists u, a. split; [by rewrite lookup_insert_eq|]. split; [done|]. intros t' Ht' Hs'.
      rewrite lookup_insert in Ht'. case_decide; [lia|]. specialize (Hmax t' Ht' Hs'). lia.
    + exists t0, b. assert (u <> t0) by (intros ->; by rewrite Hu in Hb).
      split; [by rewrite lookup_insert_ne|]. split; [done|]. intros t' Ht' Hs'.
      rewrite lookup_insert in Ht'. case_decide; [lia|]. by apply Hmax.
  - rewrite lookup_insert in Ht. case_decide as E; [|specialize (Hno t Ht); lia]. subst u.
    exists t, a. split; [by rewrite lookup_insert_eq|]. split; [done|]. intros t' Ht' Hs'.
    rewrite lookup_insert in Ht'. case_decide; [lia|]. specialize (Hno t' Ht'). lia.
Qed.

(** *** Chains *)

Lemma chain_history_value up c v :
  chain_wf_from up c -> v ∈ c -> chain_history c !! begin_ts v = Some (value v, tx_id v).
Proof.
  revert up. induction c as [|x c IH]; intros up; [by intros _ ?%not_elem_of_nil|].
  intros (_ & Hb & Hwf) [->|Hin]%elem_of_cons; cbn; [by rewrite lookup_insert_eq|].
  pose proof (proj1 (Forall_forall _ _) (chain_wf_begins _ _ Hwf) v Hin) as Hlt. cbn in Hlt.
  rewrite lookup_insert_ne by lia. eauto.
Qed.

(** ** The stored versions and the history *)

(** The memtable [m] and the SST rows [P] (key, begin, end, value) store the
    history [h]: every version is in it, for every snapshot from [w] on the newest
    entry of a key is stored and still open at the snapshot, and the memtable is
    newer than the SSTs. *)
Record core_rep (w : TxnTs) (m : omap bytes VersionChain)
    (P : bytes -> TxnTs -> TxnTs -> option bytes -> Prop) (h : bytes -> values) : Prop := {
  cr_wf : table_wf m;
  cr_mem : forall k u e, key_history m k !! u = Some e -> h k !! u = Some e.1;
  cr_sst : forall k b e v, P k b e v -> h k !! b = Some v;
  cr_complete : forall k s t v, w <= s -> s < OPEN_ENDED_TS -> newest (h k) s t v ->
    is_Some (key_history m k !! t) \/ exists e v', P k t e v' /\ s < e;
  cr_newer : forall k u b e v, is_Some (key_history m k !! u) -> P k b e v -> b < u;
}.

Definition extend_edit (h : bytes -> values) (ed : Edit) : bytes -> values :=
  fun k => if eqc k (ed_key ed) then <[begin_ts (ed_version ed) := value (ed_version ed)]> (h k) else h k.

(** The history after commits. *)
Definition extend (h : bytes -> values) (cs : list CommitBatch) : bytes -> values :=
  fold_left extend_edit (commits_edits cs) h.

Lemma core_rep_edit w m P h ed :
  core_rep w m P h -> fresh_version (ed_version ed) ->
  (forall k b e v, P k b e v -> b < begin_ts (ed_version ed)) ->
  core_rep w (apply_edit m ed) P (extend_edit h ed).
Proof.
  intros [Hwf Hm Hp Hc Hnew] Hf Hno. set (b := begin_ts (ed_version ed)) in *.
  pose proof (fun k => apply_edit_history m ed k Hwf Hf) as Hh. fold b in Hh.
  split; [by apply apply_edit_wf| | | |].
  - intros k u e. rewrite Hh. unfold extend_edit. fold b. destruct (eqc k (ed_key ed)); [|apply Hm].
    rewrite !lookup_insert. case_decide; [by intros [= <-]|apply Hm].
  - intros k u e v HP. unfold extend_edit. fold b. pose proof (Hp _ _ _ _ HP) as Hu.
    destruct (eqc k (ed_key ed)); [|done]. rewrite lookup_insert_ne; [done|].
    intros <-. apply Hno in HP. lia.
  - intros k s t v Hw Hs (Ht & Hts & Hmax). rewrite Hh. unfold extend_edit in Ht, Hmax. fold b in Ht, Hmax.
    destruct (eqc k (ed_key ed)).
    + destruct (decide (t = b)) as [->|Hne]; [left; by rewrite lookup_insert_eq|].
      rewrite lookup_insert_ne in Ht by done. rewrite lookup_insert_ne by done.
      apply (Hc k s t v Hw Hs). split; [done|]. split; [done|]. intros t' Ht'. apply Hmax.
      rewrite lookup_insert. by case_decide.
    + by apply (Hc k s t v Hw Hs).
  - intros k u b' e v. rewrite Hh. destruct (eqc k (ed_key ed)); [|apply Hnew].
    rewrite lookup_insert. case_decide as E; [|apply Hnew]. intros _ HP%Hno. lia.
Qed.

Lemma core_rep_edits w m P h eds :
  core_rep w m P h -> Forall (fun ed => fresh_version (ed_version ed)) eds ->
  Forall (fun ed => forall k b e v, P k b e v -> b < begin_ts (ed_version ed)) eds ->
  core_rep w (apply_edits m eds) P (fold_left extend_edit eds h).
Proof.
  intros Hc Hf. revert m h Hc. induction Hf as [|ed eds Hed _ IH]; intros m h Hc Hno; [done|].
  apply Forall_cons in Hno as [Hn Hno]. cbn [fold_left].
  change (apply_edits m (ed :: eds)) with (apply_edits (apply_edit m ed) eds).
  apply IH; [by apply core_rep_edit|done].
Qed.

Lemma key_history_In m k c u e :
  table_wf m -> om_get k m = Some c -> key_history m k !! u = Some e ->
  exists v, v ∈ c /\ begin_ts v = u /\ (value v, tx_id v) = e.
Proof.
  intros _ Hc. unfold key_history. rewrite Hc. cbn. clear Hc. induction c as [|x c IH]; cbn.
  - by rewrite lookup_empty.
  - rewrite lookup_insert. case_decide as E.
    + intros [= <-]. exists x. split; [by left|done].
    + intros Hu. destruct (IH Hu) as (v & Hv & ?). exists v. split; [by right|done].
Qed.

(** The version a snapshot reads from a chain is the newest of the history when
    the history's newest is in the chain. *)
Lemma core_visible w m P h k s t v :
  core_rep w m P h -> s < OPEN_ENDED_TS -> newest (h k) s t v -> is_Some (key_history m k !! t) ->
  exists c x, om_get k m = Some c /\ x ∈ c /\ sees (mkSnapshot s) x = true /\ begin_ts x = t /\
    find_visible (mkSnapshot s) c = Some x.
Proof.
  intros [[_ Hwf] Hm _ _ _] Hs (Ht & Hts & Hmax) [e He]. unfold key_history in He.
  destruct (om_get k m) as [c|] eqn:Hc; [|cbn in He; by rewrite lookup_empty in He]. cbn in He.
  destruct (find_visible (mkSnapshot s) c) as [x|] eqn:Hf.
  - pose proof (find_visible_elem _ _ _ Hf) as [Hin Hsee]. pose proof Hf as Hf'.
    apply (find_visible_newest OPEN_ENDED_TS) in Hf as [_ (Hb & Hle & Hn)]; [|by eapply Hwf|done].
    exists c, x. split; [done|]. split; [done|]. split; [done|]. split; [|done].
    apply Z.le_antisymm; [|by apply Hn]. apply Hmax; [|done]. exists (value x).
    refine (Hm k (begin_ts x) (value x, tx_id x) _). unfold key_history. by rewrite Hc.
  - apply (find_visible_None OPEN_ENDED_TS) with (t := t) in Hf; [cbn in Hf; lia|by eapply Hwf|done|done].
Qed.

Lemma core_rep_ext w m (P Q : bytes -> TxnTs -> TxnTs -> option bytes -> Prop) h :
  (forall k b e v, P k b e v <-> Q k b e v) -> core_rep w m P h -> core_rep w m Q h.
Proof.
  intros HPQ [Hwf Hm Hp Hc Hnew]. split; [done|done| | |].
  - intros k b e v HQ%HPQ. eauto.
  - intros k s t v Hw Hs Hn. destruct (Hc k s t v Hw Hs Hn) as [?|(e & v' & HP & ?)]; [by left|right].
    exists e, v'. split; [by apply HPQ|done].
  - intros k u b e v Hu HQ%HPQ. eauto.
Qed.

(** The versions of a memtable as rows. *)
Definition mem_row (m : omap bytes VersionChain) (k : bytes) (b e : TxnTs) (v : option bytes) : Prop :=
  exists c x, om_get k m = Some c /\ x ∈ c /\ begin_ts x = b /\ end_ts x = e /\ value x = v.

(** Moving the memtable into an SST. *)
Lemma core_rep_flush w m P h :
  core_rep w m P h -> core_rep w [] (fun k b e v => P k b e v \/ mem_row m k b e v) h.
Proof.
  intros Hcore. pose proof Hcore as [Hwf Hm Hp Hc _]. split; [apply table_wf_nil| | | |].
  - intros k u e. unfold key_history. cbn. by rewrite lookup_empty.
  - intros k b e v [HP|(c & x & Hg & Hin & <- & _ & <-)]; [eauto|]. destruct Hwf as [_ Hwf].
    refine (Hm k (begin_ts x) (value x, tx_id x) _). unfold key_history. rewrite Hg. cbn.
    eapply chain_history_value; [by eapply Hwf|done].
  - intros k s t v Hw Hs Hn. right. destruct (Hc k s t v Hw Hs Hn) as [He|(e & v' & HP & Hse)].
    + destruct (core_visible _ _ _ _ k s t v Hcore Hs Hn He) as (c & x & Hg & Hin & Hsee & Hb & _).
      unfold sees, visible_at in Hsee. cbn in Hsee. apply andb_true_iff in Hsee as [_ Hend].
      apply Z.ltb_lt in Hend. exists (end_ts x), (value x). split; [|done]. right. by exists c, x.
    + exists e, v'. split; [by left|done].
  - intros k u b e v. unfold key_history. cbn. rewrite lookup_empty. by intros [? ?].
Qed.

(** Replacing rows by rows that keep every read from [o] on. *)
Lemma core_rep_replace w o m (P Q : bytes -> TxnTs -> TxnTs -> option bytes -> Prop) h :
  core_rep w m P h ->
  (forall k b e v, Q k b e v -> exists e', P k b e' v) ->
  (forall k s t e v, o <= s -> s < OPEN_ENDED_TS -> newest (h k) s t v -> P k t e v -> s < e ->
     exists e', Q k t e' v /\ s < e') ->
  core_rep (Z.max w o) m Q h.
Proof.
  intros [Hwf Hm Hp Hc Hnew] Hsound Hkeep. split; [done|done| | |].
  - intros k b e v HQ. destruct (Hsound _ _ _ _ HQ) as [e' HP]. eauto.
  - intros k s t v Hw Hs Hn. destruct (Hc k s t v ltac:(lia) Hs Hn) as [?|(e & v' & HP & Hse)]; [by left|].
    right. pose proof (Hp _ _ _ _ HP) as Hv. destruct Hn as (Ht & Hn). rewrite Ht in Hv. injection Hv as <-.
    destruct (Hkeep k s t e v ltac:(lia) Hs) as (e' & HQ & ?); [by split|done|done|]. by exists e', v.
  - intros k u b e v Hu HQ. destruct (Hsound _ _ _ _ HQ) as [e' HP]. eauto.
Qed.

(** Collecting memtable versions. *)
Lemma core_rep_gc w o m P h : core_rep w m P h -> core_rep (Z.max w o) (gc_map o m) P h.
Proof.
  intros Hcore. pose proof Hcore as [Hwf Hm Hp Hc Hnew]. pose proof (gc_map_wf o m Hwf) as Hwf'.
  assert (Hget : forall k, om_get k (gc_map o m) = (fun c => (chain_garbage_collect c o).1) <$> om_get k m)
    by (intros k; apply om_get_map).
  assert (Hsub : forall k u e, key_history (gc_map o m) k !! u = Some e -> key_history m k !! u = Some e).
  { intros k u e He. specialize (Hget k). destruct (om_get k m) as [c|] eqn:Hg; cbn in Hget.
    + destruct (key_history_In _ k _ u e Hwf' Hget He) as (v & Hv & <- & <-).
      unfold key_history. rewrite Hg. cbn.
      eapply chain_history_value; [destruct Hwf as [_ Hwf]; by eapply Hwf|].
      destruct c as [|x c]; [done|]. apply list_elem_of_In in Hv.
      unfold chain_garbage_collect in Hv. cbn [fst] in Hv. apply list_elem_of_In. apply filter_In in Hv. by destruct Hv.
    + unfold key_history in He. rewrite Hget in He. cbn in He. by rewrite lookup_empty in He. }
  split; [done|by eauto|done| |].
  - intros k s t v Hw Hs Hn. destruct (Hc k s t v ltac:(lia) Hs Hn) as [He|HP]; [left|by right].
    destruct (core_visible _ _ _ _ k s t v Hcore Hs Hn He) as (c & x & Hg & _ & _ & <- & Hf).
    destruct Hwf as [_ Hwf]. rewrite <- chain_get_find, <- (chain_gc_get c o) in Hf;
      [|by eapply Hwf|cbn; lia].
    rewrite chain_get_find in Hf. apply find_visible_elem in Hf as [Hin _].
    unfold key_history. rewrite Hget, Hg. cbn. by apply chain_history_elem.
  - intros k u b e v [x Hx%Hsub]. by apply Hnew.
Qed.

Lemma core_rep_mono w w' m P h : core_rep w m P h -> w <= w' -> core_rep w' m P h.
Proof. intros [Hwf Hm Hp Hc Hnew] Hw. split; [done..| |done]. intros k s t v Hs. apply Hc. lia. Qed.

(** ** The edits of a compaction *)

Lemma edits_valid_app vs a b :
  edits_valid vs (a ++ b) <-> edits_valid vs a /\ edits_valid (fold_left vs_apply a vs) b.
Proof.
  revert vs. induction a as [|e a IH]; intros vs; cbn [app edits_valid fold_left]; [tauto|].
  rewrite IH. tauto.
Qed.

(** Files as the manifest records them at one level. *)
Definition add_files (level now : Z) (hs : list SstHandle) : list VersionEdit :=
  map (fun h => AddFile (sh_file_id h) level (sh_min_key h) (sh_max_key h) (sh_bytes h) now) hs.

Lemma add_files_valid vs level now hs :
  Forall (fun h => edit_ok (AddFile (sh_file_id h) level (sh_min_key h) (sh_max_key h) (sh_bytes h) now)) hs ->
  NoDup (map sh_file_id hs) -> (forall h, In h hs -> om_get (sh_file_id h) (vs_file_meta vs) = None) ->
  edits_valid vs (add_files level now hs) /\
  forall l f, level_has (vs_levels (fold_left vs_apply (add_files level now hs) vs)) l f = true <->
    (l = level /\ In f (map sh_file_id hs)) \/ level_has (vs_levels vs) l f = true.
Proof.
  intros Hok. revert vs. induction Hok as [|h hs Hh _ IH]; intros vs Hnd Hfresh.
  - split; [done|]. intros l f. cbn. tauto.
  - cbn [map] in Hnd. apply NoDup_cons in Hnd as [Hnin Hnd].
    change (add_files level now (h :: hs)) with
      (AddFile (sh_file_id h) level (sh_min_key h) (sh_max_key h) (sh_bytes h) now :: add_files level now hs).
    destruct vs as [ls meta nx dr bk fl]. cbn [edits_valid fold_left vs_apply].
    destruct (IH (vs_apply (mkVS ls meta nx dr bk fl)
      (AddFile (sh_file_id h) level (sh_min_key h) (sh_max_key h) (sh_bytes h) now)) Hnd) as [Hv Hl].
    { intros h' Hin. cbn. rewrite om_get_insert_ne; [apply Hfresh; by right|].
      intros E. apply Hnin, list_elem_of_In. rewrite <- E. by apply in_map. }
    split.
    + split; [|exact Hv]. split; [done|]. apply Hfresh. by left.
    + intros l f. cbn [vs_apply] in Hl. rewrite Hl. cbn [vs_levels map In]. rewrite level_has_add, orb_true_iff, andb_true_iff.
      rewrite !eqc_spec. naive_solver.
Qed.

Definition del_files (level : Z -> Z) (ids : list Z) : list VersionEdit :=
  map (fun f => DeleteFile f (level f)) ids.

Lemma del_files_valid vs level ids :
  Forall (fun f => is_u64 f /\ is_u32 (level f)) ids -> NoDup ids ->
  (forall f, In f ids -> level_has (vs_levels vs) (level f) f = true) ->
  edits_valid vs (del_files level ids) /\
  forall l f, level_has (vs_levels (fold_left vs_apply (del_files level ids) vs)) l f = true <->
    level_has (vs_levels vs) l f = true /\ ~ (In f ids /\ l = level f).
Proof.
  intros Hok. revert vs. induction Hok as [|x ids Hx _ IH]; intros vs Hnd Hhas.
  - split; [done|]. intros l f. cbn. tauto.
  - apply NoDup_cons in Hnd as [Hnin Hnd]. rewrite list_elem_of_In in Hnin.
    change (del_files level (x :: ids)) with (DeleteFile x (level x) :: del_files level ids).
    destruct vs as [ls meta nx dr bk fl]. cbn [edits_valid fold_left vs_apply].
    destruct (IH (vs_apply (mkVS ls meta nx dr bk fl) (DeleteFile x (level x))) Hnd) as [Hv Hl].
    { intros f Hin. cbn. rewrite level_has_del. cbn in Hhas. rewrite Hhas by (by right). cbn.
      rewrite (proj2 (eqc_false f x)) by (by intros ->). by rewrite andb_false_r. }
    split.
    + split; [|exact Hv]. split; [done|]. apply Hhas. by left.
    + intros l f. cbn [vs_apply] in Hl. rewrite Hl. cbn [vs_levels In].
      rewrite level_has_del, andb_true_iff, negb_true_iff, andb_false_iff, !eqc_false.
      split; [naive_solver|]. intros [? Hn]. split; [|naive_solver]. split; [done|].
      destruct (decide (l = level x)); [right|by left]. naive_solver.
Qed.

(** *** What a merged chunk holds *)

Lemma dedup_superseded_In rows w r' :
  In r' (dedup_superseded rows w) -> exists r e, In r rows /\ r' = set_row_end r e.
Proof.
  unfold dedup_superseded. fold (merge_input rows).
  intros (pre & r & post & Hl & He)%merge_loop_In. exists r.
  assert (Hin : In r rows)
    by (apply merge_input_In; rewrite Hl; apply in_app_iff; right; by left).
  unfold emits in He. destruct (group_after None pre) as [[? ?]|]; [destruct (eqc _ _)|]; naive_solver.
Qed.

Lemma dedup_superseded_keeps rows w s k r :
  versions_agree rows -> w <= s -> s < OPEN_ENDED_TS -> newest_in rows k s r ->
  exists e, In (set_row_end r e) (dedup_superseded rows w) /\ s < e.
Proof.
  intros Hag Hw Hs (r0 & Hn & He)%newest_in_merge; [|done].
  destruct (merge_newest_visible (merge_input rows) w s k (merge_input_sorted rows) Hw Hs r0 Hn) as (e & Hin & Hv).
  exists e. rewrite <- He. split; [done|]. unfold visible_at in Hv. cbn in Hv.
  apply andb_true_iff in Hv as [_ Hv]. by apply Z.ltb_lt.
Qed.

Lemma compaction_inputs_NoDup vs s t : NoDup (compaction_inputs vs s t).
Proof.
  unfold compaction_inputs.
  assert (Hs : StronglySorted (by_key_lt id) (dedup_by Z.eqb (sort_by_key id (vs_files vs s ++ vs_files vs t)))).
  { apply (dedup_by_sorted id Z.eqb); [intros; apply Z.eqb_eq|]. apply (sort_by_key_sorted id). }
  induction Hs as [|x l _ IH Hall]; constructor; [|done]. intros Hin%list_elem_of_In.
  rewrite List.Forall_forall in Hall. specialize (Hall x Hin). by apply clt_irrefl in Hall.
Qed.

Lemma dedup_rows_sorted rows w : rows_sorted (dedup_superseded rows w).
Proof.
  unfold dedup_superseded. fold (merge_input rows).
  destruct (merge_sorted None (merge_input rows) w (merge_input_sorted rows)) as [Hs _].
  unfold rows_sorted. induction Hs as [|r l _ IH Hall]; constructor; [done|].
  eapply List.Forall_impl; [|exact Hall]. intros r' [Hk|[-> _]]%row_lt_spec; [by apply clt_le|apply cle_refl].
Qed.

(** The rows of a memtable are in key order. *)
Lemma chains_rows_sorted (m : omap bytes VersionChain) : om_sorted m -> rows_sorted (List.flat_map chain_rows m).
Proof.
  unfold om_sorted, rows_sorted, om_keys. induction m as [|[k c] m IH]; cbn [map List.flat_map]; intros Hs; [constructor|].
  apply StronglySorted_inv in Hs as [Hs Hall]. rewrite List.Forall_forall in Hall.
  assert (Hrest : forall r, In r (List.flat_map chain_rows m) -> cle k (row_key r)).
  { intros r ([k' c'] & Hin & (v & <- & _)%in_map_iff)%in_flat_map. apply clt_le, Hall.
    apply in_map_iff. by exists (k', c'). }
  unfold chain_rows at 1. cbn [fst snd]. clear Hall. induction c as [|v c IHc]; cbn [map app]; [by apply IH|].
  constructor; [done|]. apply List.Forall_app. split.
  - apply List.Forall_forall. intros r (v' & <- & _)%in_map_iff. apply cle_refl.
  - apply List.Forall_forall. apply Hrest.
Qed.

(** *** Metadata after the edits of a batch *)

Lemma NoDup_map_inj {A B} (g : A -> B) l a b : NoDup (map g l) -> In a l -> In b l -> g a = g b -> a = b.
Proof.
  induction l as [|x l IH]; cbn; intros Hnd Ha Hb Hg; [done|].
  apply NoDup_cons in Hnd as [Hn Hnd]. rewrite list_elem_of_In in Hn.
  destruct Ha as [->|Ha], Hb as [->|Hb]; [done| | |by apply IH]; exfalso; apply Hn.
  - rewrite Hg. by apply in_map.
  - rewrite <- Hg. by apply in_map.
Qed.

Lemma add_files_meta vs level now hs f :
  NoDup (map sh_file_id hs) ->
  om_get f (vs_file_meta (fold_left vs_apply (add_files level now hs) vs)) =
  match List.find (fun h => eqc f (sh_file_id h)) hs with
  | Some h => Some (sh_min_key h, sh_max_key h, sh_bytes h, now)
  | None => om_get f (vs_file_meta vs)
  end.
Proof.
  revert vs. induction hs as [|h hs IH]; intros vs Hnd; [done|]. cbn [map] in Hnd.
  apply NoDup_cons in Hnd as [Hnin Hnd]. cbn [add_files map fold_left List.find].
  fold (add_files level now hs). rewrite IH by done. destruct vs as [ls meta nx dr bk fl]. cbn [vs_apply vs_file_meta].
  destruct (eqc f (sh_file_id h)) eqn:E; cbool.
  - subst f. destruct (List.find _ hs) as [h'|] eqn:Ef; [|by rewrite om_get_insert_eq].
    apply List.find_some in Ef as [Hin He]. cbool. exfalso. apply Hnin, list_elem_of_In. rewrite He. by apply in_map.
  - by rewrite om_get_insert_ne by done.
Qed.

Lemma del_files_meta vs level ids f :
  ~ In f ids -> om_get f (vs_file_meta (fold_left vs_apply (del_files level ids) vs)) = om_get f (vs_file_meta vs).
Proof.
  revert vs. induction ids as [|x ids IH]; intros vs Hf; [done|]. cbn [del_files map fold_left].
  fold (del_files level ids). rewrite IH by (intros ?; apply Hf; by right).
  destruct vs as [ls meta nx dr bk fl]. cbn [vs_apply vs_file_meta]. apply om_get_remove_ne.
  intros ->. apply Hf. by left.
Qed.

Lemma vs_files_level vs l f : In f (vs_files vs l) <-> level_has (vs_levels vs) l f = true.
Proof. unfold vs_files, level_has. destruct (om_get l (vs_levels vs)); [symmetry; apply os_mem_In|done]. Qed.

Lemma stored_agree (h : bytes -> values) rows :
  (forall r, In r rows -> tx_id (row_version r) = 0 /\
     h (row_key r) !! begin_ts (row_version r) = Some (value (row_version r))) -> versions_agree rows.
Proof.
  intros Hh r1 r2 Hin1 Hin2 Hr. unfold row_rank in Hr. injection Hr as Hk Hb.
  destruct (Hh r1 Hin1) as [Ht1 Hv1], (Hh r2 Hin2) as [Ht2 Hv2].
  assert (Hb' : begin_ts (row_version r1) = begin_ts (row_version r2)) by lia.
  rewrite Hk, Hb', Hv2 in Hv1. injection Hv1 as Hv.
  destruct r1 as [k1 [v1 b1 e1 t1]], r2 as [k2 [v2 b2 e2 t2]]. cbn in *. subst. done.
Qed.

Section Refinement.
Context {hw : Crc32Hw} {T H : Type} `{MemTableBackend T} `{EngineHook H} `{!MemTableLaws T}.
Context `{VortexLib} `{!VortexLaws}.
#[local] Abbreviation Lsm := (Lsm (T := T) (H := H)).

Definition mem (l : Lsm) : T := e_memtable (l_engine l).

(** The file is listed in the manifest. *)
Definition live (l : Lsm) (f : Z) : Prop :=
  exists level, level_has (vs_levels (version_set l)) level f = true.

Definition file_rows (l : Lsm) (f : Z) (rows : list VersionedRow) : Prop :=
  exists file, om_get f (l_disk l) = Some file /\ sst_holds file rows.

(** The rows of the live files. *)
Definition sst_row (l : Lsm) (k : bytes) (b e : TxnTs) (v : option bytes) : Prop :=
  exists f rows r, live l f /\ file_rows l f rows /\ In r rows /\ row_key r = k /\
    begin_ts (row_version r) = b /\ end_ts (row_version r) = e /\ value (row_version r) = v.

(** The file's rows are in key order and inside the bounds of its metadata. *)
Definition file_ok (vs : VersionSet) (f : Z) (rows : list VersionedRow) : Prop :=
  rows_sorted rows /\ exists m, file_metadata vs f = Some m /\ forall r, In r rows -> covers m (row_key r).

(** [h] is the history the tree stores, complete for snapshots from [w] on. *)
Record lsm_rep (w : TxnTs) (l : Lsm) (h : bytes -> values) : Prop := {
  lr_mem : mt_inv (mem l);
  lr_man : man_inv (l_manifest l);
  lr_disk : forall f, live l f -> exists rows, file_rows l f rows;
  lr_core : core_rep w (mt_map (mem l)) (sst_row l) h;
  lr_seq : 0 <= e_commit_seq (l_engine l) < OPEN_ENDED_TS;
  lr_files : forall f rows, live l f -> file_rows l f rows -> file_ok (version_set l) f rows;
  lr_bound : forall k u, is_Some (h k !! u) -> u < e_commit_seq (l_engine l) /\ blen k < u32_max;
}.

Lemma file_rows_fun l f rows rows' : file_rows l f rows -> file_rows l f rows' -> rows = rows'.
Proof.
  intros (x & Hx & Hr) (y & Hy & Hr'). rewrite Hx in Hy. injection Hy as <-.
  apply sst_read_all_holds in Hr, Hr'. rewrite Hr in Hr'. congruence.
Qed.

Lemma file_ids_live l f : man_inv (l_manifest l) -> In f (file_ids (version_set l)) <-> live l f.
Proof.
  intros Hm. destruct (mi_wf _ Hm) as [[Hs Hw] _ _ _ _ _ _ _ _]. unfold live, file_ids, level_has.
  rewrite in_flat_map. split.
  - intros ([level files] & Hin & Hf). exists level. apply om_In_get in Hin; [|done].
    unfold version_set in *. rewrite Hin. by apply os_mem_In.
  - intros [level Hl]. destruct (om_get level _) as [files|] eqn:E; [|done].
    exists (level, files). split; [by apply om_get_In|by apply os_mem_In].
Qed.

(** ** Reading *)

(** The versions a snapshot can see in the tree. *)
Definition in_mem (l : Lsm) (s : TxnTs) (k : bytes) (v : VersionedValue) : Prop :=
  exists c, om_get k (mt_map (mem l)) = Some c /\ v ∈ c /\ sees (mkSnapshot s) v = true.
Definition in_sst (l : Lsm) (s : TxnTs) (k : bytes) (v : VersionedValue) : Prop :=
  exists f rows r, live l f /\ file_rows l f rows /\ In r rows /\ row_key r = k /\ row_version r = v /\
    sees (mkSnapshot s) v = true.

Lemma sees_iff s v : sees (mkSnapshot s) v = true <-> begin_ts v <= s < end_ts v.
Proof. unfold sees, visible_at. cbn. rewrite andb_true_iff, Z.leb_le, Z.ltb_lt. done. Qed.

(** The newest of what a snapshot sees is the newest entry of the history. *)
Lemma rep_reads w l h k s vis (S : bytes -> VersionedValue -> Prop) :
  lsm_rep w l h -> w <= s -> s < OPEN_ENDED_TS -> collects vis S ->
  (forall v, S k v <-> in_mem l s k v \/ in_sst l s k v) ->
  forall val, (exists v, om_get k vis = Some v /\ value v = val) <-> exists t, newest (h k) s t val.
Proof.
  intros Hrep Hw Hs [_ Hn Ha] HS. destruct Hrep.
  assert (Hsound : forall v, S k v -> begin_ts v <= s /\ h k !! begin_ts v = Some (value v)).
  { intros v [(c & Hc & Hin & Hv)|(f & rows & r & Hf & Hr & Hin & <- & <- & Hv)]%HS.
    - apply sees_iff in Hv. split; [lia|]. destruct (mt_map_wf _ lr_mem0) as [_ Hwf].
      pose proof (chain_history_value _ _ _ (Hwf _ _ Hc) Hin) as Hh.
      refine (cr_mem _ _ _ _ lr_core0 k (begin_ts v) (value v, tx_id v) _). unfold key_history. by rewrite Hc.
    - apply sees_iff in Hv. split; [lia|].
      apply (cr_sst _ _ _ _ lr_core0) with (e := end_ts (row_version r)). by exists f, rows, r. }
  assert (Hcomplete : forall t val, newest (h k) s t val -> exists v, S k v /\ begin_ts v = t /\ value v = val).
  { intros t val Hnew. pose proof Hnew as (Ht & Hts & Hmax).
    assert (Hv : exists v, S k v /\ begin_ts v = t).
    { destruct (cr_complete _ _ _ _ lr_core0 k s t val Hw Hs Hnew)
        as [He|(e & v' & (f & rows & r & Hf & Hr & Hin & Hk & Hb & He & _) & Hse)].
      - destruct (core_visible _ _ _ _ k s t val lr_core0 Hs Hnew He) as (c & x & Hc & Hin & Hsee & Hb & _).
        exists x. split; [|done]. apply HS. left. by exists c.
      - exists (row_version r). split; [|done]. apply HS. right. exists f, rows, r.
        repeat (split; [done|]). apply sees_iff. lia. }
    destruct Hv as (v & Hv & Hb). exists v. split; [done|]. split; [done|].
    destruct (Hsound v Hv) as [_ Hh]. rewrite Hb, Ht in Hh. congruence. }
  intros val. split.
  - intros (v & Hg & <-). destruct (Hn k v Hg) as [Hv Hmax]. destruct (Hsound v Hv) as [Hle Hh].
    exists (begin_ts v). split; [done|]. split; [done|]. intros t' Ht' Hs'.
    destruct (newest_exists (h k) s t' Ht' Hs') as (t0 & a & Hnew).
    destruct (Hcomplete t0 a Hnew) as (v0 & Hv0 & Hb0 & _). specialize (Hmax v0 Hv0).
    destruct Hnew as (_ & _ & Hm). specialize (Hm t' Ht' Hs'). lia.
  - intros (t & Hnew). destruct (Hcomplete t val Hnew) as (v0 & Hv0 & Hb0 & Hval).
    destruct (Ha k v0 Hv0) as [v Hg]. exists v. split; [done|].
    destruct (Hn k v Hg) as [Hv Hmax]. specialize (Hmax v0 Hv0). destruct (Hsound v Hv) as [Hle Hh].
    destruct Hnew as (Ht & Hts & Hm). specialize (Hm (begin_ts v) (mk_is_Some _ _ Hh) Hle).
    assert (Heq : begin_ts v = t) by lia. rewrite Heq, Ht in Hh. congruence.
Qed.

Lemma fold_skip {A B} (skip : B -> bool) (f : A -> B -> A) rows a :
  fold_left (fun a r => if skip r then a else f a r) rows a =
  fold_left (fun a r => if negb (skip r) then f a r else a) rows a.
Proof.
  revert a. induction rows as [|r rows IH]; intros a; cbn [fold_left]; [done|].
  rewrite IH. by destruct (skip r).
Qed.

(** The visible rows of some files, less dropped tables. *)
Definition in_files (l : Lsm) (ids : list Z) (p : VersionedRow -> bool) (k : bytes) (v : VersionedValue) : Prop :=
  exists f rows r, In f ids /\ file_rows l f rows /\ In r rows /\ p r = true /\
    is_dropped_prefix l (row_key r) = false /\ row_key r = k /\ row_version r = v.

Lemma in_files_cons l f ids p k v rows :
  file_rows l f rows ->
  in_files l (f :: ids) p k v <->
  (exists r, In r rows /\ (p r = true /\ is_dropped_prefix l (row_key r) = false) /\
     row_key r = k /\ row_version r = v) \/ in_files l ids p k v.
Proof.
  intros Hf. unfold in_files. split.
  - intros (f' & rows' & r & [<-|Hin] & Hr & ?); [left|right; by exists f', rows', r].
    rewrite (file_rows_fun _ _ _ _ Hf Hr). exists r. tauto.
  - intros [(r & ? & [? ?] & ? & ?)|(f' & rows' & r & Hin & ?)].
    + exists f, rows, r. cbn. tauto.
    + exists f', rows', r. cbn. tauto.
Qed.

Lemma scan_all_files_ok l s ids vis S :
  (forall f, In f ids -> exists rows, file_rows l f rows) -> collects vis S ->
  exists vis', scan_all_files l s ids vis = Ok vis' /\
    collects vis' (fun k v => S k v \/ in_files l ids (fun r => sees s (row_version r)) k v).
Proof.
  revert vis S. induction ids as [|f ids IH]; intros vis S Hids Hc; cbn [scan_all_files].
  - exists vis. split; [done|]. eapply collects_ext; [|exact Hc]. intros k v. split; [by left|].
    by intros [?|(? & ? & ? & [] & _)].
  - destruct (Hids f (or_introl eq_refl)) as [rows Hr]. pose proof Hr as (file & Hg & Hh).
    unfold read_file. rewrite Hg, (sst_read_all_holds _ _ Hh). cbn [rbind].
    rewrite (fold_skip (fun row => negb (sees s (row_version row)) || is_dropped_prefix l (row_key row))).
    destruct (IH _ _ (fun f Hf => Hids f (or_intror Hf))
                (collects_fold row_key row_version
                  (fun row => negb (negb (sees s (row_version row)) || is_dropped_prefix l (row_key row)))
                  rows vis S Hc)) as (vis' & Ho & Hc').
    exists vis'. split; [exact Ho|]. eapply collects_ext; [|exact Hc']. intros k v.
    rewrite (in_files_cons l f ids _ k v rows Hr).
    setoid_rewrite negb_true_iff. setoid_rewrite orb_false_iff. setoid_rewrite negb_false_iff.
    tauto.
Qed.

Lemma all_versions_In l r s :
  mt_inv (mem l) -> In r (mt_all_versions (mem l)) /\ sees (mkSnapshot s) (row_version r) = true <->
  in_mem l s (row_key r) (row_version r).
Proof.
  intros Hi. rewrite mt_all_ok by done. rewrite in_flat_map. unfold in_mem, chain_rows.
  destruct (mt_map_wf _ Hi) as [Hs _]. split.
  - intros [([k c] & Hin & (v & <- & Hv)%in_map_iff) Hsee]. exists c. cbn in *.
    split; [by apply om_In_get|]. split; [by apply list_elem_of_In|done].
  - intros (c & Hg & Hv & Hsee). split; [|done]. exists (row_key r, c).
    split; [by apply om_get_In|]. apply in_map_iff. exists (row_version r).
    split; [by destruct r|by apply list_elem_of_In].
Qed.

(** [scan_all] reads the history. *)
Lemma scan_all_rep w l h s :
  lsm_rep w l h -> w <= s -> s < OPEN_ENDED_TS ->
  exists out, scan_all l s = Ok out /\ StronglySorted clt (map fst out) /\
    forall k val, is_dropped_prefix l k = false ->
      In (k, val) out <-> exists t, newest (h k) s t val.
Proof.
  intros Hrep Hw Hs. pose proof (lr_man _ _ _ Hrep) as Hman. pose proof (lr_mem _ _ _ Hrep) as Hmem.
  pose proof (collects_fold row_key row_version (fun r => sees (mkSnapshot s) (row_version r))
    (mt_all_versions (mem l)) [] _ collects_nil) as Hc0.
  destruct (scan_all_files_ok l (mkSnapshot s) (file_ids (version_set l)) _ _
    (fun f Hf => lr_disk _ _ _ Hrep f (proj1 (file_ids_live l f Hman) Hf)) Hc0) as (vis & Ho & Hc).
  unfold scan_all. fold (mem l). rewrite Ho. cbn [rbind]. eexists. split; [done|].
  pose proof (cl_sorted _ _ Hc) as Hsort. split.
  - rewrite map_map. unfold om_sorted, om_keys in Hsort.
    by rewrite (map_ext _ fst) by (by intros []).
  - intros k val Hdrop. rewrite <- (rep_reads w l h k s vis _ Hrep Hw Hs Hc).
    + rewrite in_map_iff. split.
      * intros ([k' v] & [= -> <-] & Hin). exists v. split; [by apply om_In_get|done].
      * intros (v & Hg & <-). exists (k, v). split; [done|by apply om_get_In].
    + intros v. split.
      * intros [[[]|(r & Hin & Hsee & <- & <-)]|(f & rows & r & Hf & Hr & Hin & Hsee & _ & <- & <-)].
        -- left. by apply all_versions_In.
        -- right. exists f, rows, r. by apply file_ids_live in Hf.
      * intros [Hm|(f & rows & r & Hf & Hr & Hin & <- & <- & Hsee)].
        -- left. right. destruct (all_versions_In l (mkRow k v) s Hmem) as [_ Hback].
           destruct (Hback Hm) as [Hin Hsee]. by exists (mkRow k v).
        -- right. exists f, rows, r. rewrite file_ids_live by done. done.
Qed.

(** ** Commits *)

#[local] Abbreviation Eng := (Engine (T := T) (H := H)).

Definition keys_ok (txs : list (Z * list Mutation)) : Prop :=
  Forall (fun t => Forall (fun m => blen (mutation_key m) < u32_max) t.2) txs.

Lemma number_commits_edits ts txs :
  0 <= ts -> ts + Z.of_nat (length txs) <= OPEN_ENDED_TS -> keys_ok txs ->
  Forall (fun ed => fresh_version (ed_version ed) /\
            ts <= begin_ts (ed_version ed) < ts + Z.of_nat (length txs) /\
            blen (ed_key ed) < u32_max) (commits_edits (number_commits ts txs)).
Proof.
  revert ts. induction txs as [|[tx ms] txs IH]; intros ts Hts Hb Hk; [constructor|].
  apply Forall_cons in Hk as [Hk Hks]. cbn [length] in Hb |- *.
  unfold commits_edits. cbn [number_commits flat_map cb_tx cb_ts cb_muts]. fold (commits_edits (number_commits (ts + 1) txs)).
  apply Forall_app. split.
  - apply Forall_map. eapply List.Forall_impl; [|exact Hk]. intros m Hm. cbn in Hm.
    split; [apply mutation_edit_fresh; lia|]. destruct m; cbn in *; (split; [lia|done]).
  - eapply List.Forall_impl; [|apply (IH (ts + 1)); [lia|lia|done]]. cbn. intros ed (? & ? & ?).
    split; [done|]. split; [lia|done].
Qed.

Lemma extend_edits_bound eds h n b k u :
  Forall (fun ed => begin_ts (ed_version ed) < n /\ blen (ed_key ed) < u32_max) eds -> b <= n ->
  (forall k u, is_Some (h k !! u) -> u < b /\ blen k < u32_max) ->
  is_Some (fold_left extend_edit eds h k !! u) -> u < n /\ blen k < u32_max.
Proof.
  intros Hed Hbn Hh. assert (Hh' : forall k u, is_Some (h k !! u) -> u < n /\ blen k < u32_max)
    by (intros k' u' Hu; specialize (Hh k' u' Hu); lia). clear Hh.
  revert h Hh'. induction Hed as [|ed eds [Hb Hk] _ IH]; intros h Hh; cbn [fold_left]; [apply Hh|].
  apply IH. intros k' u'. unfold extend_edit. destruct (eqc k' (ed_key ed)) eqn:E; [|apply Hh].
  apply eqc_spec in E as ->. rewrite lookup_insert. case_decide; [by subst|apply Hh].
Qed.

Lemma lsm_rep_commit w l h e' txs :
  lsm_rep w l h -> commits_to (l_engine l) e' txs -> keys_ok txs ->
  lsm_rep w (with_engine l e') (extend h (number_commits (e_commit_seq (l_engine l)) txs)).
Proof.
  intros [Hi Hman Hd Hcore Hseq Hfiles Hbound] [Hi' Hm Hq Hb] Hk.
  pose proof (number_commits_edits (e_commit_seq (l_engine l)) txs ltac:(lia) ltac:(lia) Hk) as Hed.
  split; [done|done|done| |cbn; lia|done|].
  - unfold mem, with_engine. cbn [l_engine]. rewrite Hm. apply core_rep_edits; [exact Hcore| |];
      (eapply List.Forall_impl; [|exact Hed]); intros ed (Hf & Hts & _); [done|].
    intros k b e v HP. pose proof (cr_sst _ _ _ _ Hcore _ _ _ _ HP) as Hh.
    destruct (Hbound _ _ (mk_is_Some _ _ Hh)). lia.
  - intros k u. cbn [with_engine l_engine]. rewrite Hq.
    apply (extend_edits_bound _ h _ (e_commit_seq (l_engine l))); [|lia|done].
    eapply List.Forall_impl; [|exact Hed]. intros ed (_ & Hts & ?). split; [lia|done].
Qed.

(** ** Flush *)

Lemma mem_rows l k b e v :
  mt_inv (mem l) ->
  mem_row (mt_map (mem l)) k b e v <->
  exists r, In r (mt_all_versions (mem l)) /\ row_key r = k /\ begin_ts (row_version r) = b /\
    end_ts (row_version r) = e /\ value (row_version r) = v.
Proof.
  intros Hi. rewrite mt_all_ok by done. destruct (mt_map_wf _ Hi) as [Hs _]. unfold mem_row, chain_rows. split.
  - intros (c & x & Hg & Hin & ?). exists (mkRow k x). split; [|done]. apply in_flat_map.
    exists (k, c). split; [by apply om_get_In|]. by apply in_map, list_elem_of_In.
  - intros (r & ([k' c] & Hin & (x & <- & Hx)%in_map_iff)%in_flat_map & <- & ?). exists c, x.
    split; [by apply om_In_get|]. split; [by apply list_elem_of_In|done].
Qed.

Lemma next_file_fresh l :
  man_inv (l_manifest l) -> vs_next_file_id (version_set l) < u64_max ->
  om_get (vs_next_file_id (version_set l)) (vs_file_meta (version_set l)) = None /\
  ~ live l (vs_next_file_id (version_set l)).
Proof.
  intros Hm Hb. pose proof (mi_wf _ Hm) as Hwf. fold (version_set l) in Hwf.
  assert (Hn : om_get (vs_next_file_id (version_set l)) (vs_file_meta (version_set l)) = None).
  { destruct (om_get _ (vs_file_meta (version_set l))) as [x|] eqn:E; [|done]. exfalso.
    pose proof (wf_next _ Hwf _ _ E) as Hle. unfold saturating_add in Hle.
    pose proof u64_max_val. lia. }
  split; [done|]. intros Hl. apply (wf_files _ Hwf) in Hl. rewrite Hn in Hl. by destruct Hl.
Qed.

(** Rows of keys the history knows fit the manifest's key fields. *)
Lemma handle_keys_ok h n (rows : list VersionedRow) key :
  (forall k u, is_Some (h k !! u) -> u < n /\ blen k < u32_max) ->
  (forall r, In r rows -> is_Some ((h : bytes -> values) (row_key r) !! begin_ts (row_version r))) ->
  key = [] \/ (exists r, In r rows /\ key = row_key r) -> blen key <= u32_max.
Proof.
  intros Hb Hr [->|(r & Hin & ->)]; [vm_compute; congruence|].
  destruct (Hb _ _ (Hr r Hin)). lia.
Qed.

Lemma sst_holds_fun f rows rows' : sst_holds f rows -> sst_holds f rows' -> rows = rows'.
Proof. intros Hr%sst_read_all_holds Hr'%sst_read_all_holds. rewrite Hr in Hr'. congruence. Qed.

Lemma all_versions_sorted t : mt_inv t -> rows_sorted (mt_all_versions t).
Proof. intros Hi. rewrite (mt_all_ok _ Hi). apply chains_rows_sorted. by destruct (mt_map_wf _ Hi). Qed.

(** The state after a flush whose calls all succeeded. *)
Lemma lsm_rep_flushed w l h l' f handle now m rw :
  let id := vs_next_file_id (version_set l) in
  lsm_rep w l h -> id < u64_max -> is_u64 now ->
  written (mt_all_versions (mem l)) id f handle ->
  append_batch (l_manifest l)
    [AddFile id 0 (sh_min_key handle) (sh_max_key handle) (sh_bytes handle) now;
     NextFileId (saturating_add id 1)] IoOk IoOk rw = (m, Ok tt) ->
  mt_inv (mem l') -> mt_map (mem l') = [] -> l_manifest l' = m ->
  l_disk l' = om_insert id f (l_disk l) ->
  e_commit_seq (l_engine l') = e_commit_seq (l_engine l) -> lsm_rep w l' h.
Proof.
  intros id [Hi Hman Hd Hcore Hseq Hfiles Hbound] Hid Hnow Hwr Happ Hi' Hm' Hman' Hdisk Hseq'.
  destruct (next_file_fresh l Hman Hid) as [Hfresh Hnlive]. fold id in Hfresh, Hnlive.
  destruct (written_holds _ _ _ _ Hwr) as (Hh & _ & Hbytes & _ & Hmin & Hmax).
  pose proof (core_rep_flush _ _ _ _ Hcore) as Hflush.
  assert (Hrows : forall r, In r (mt_all_versions (mem l)) -> is_Some (h (row_key r) !! begin_ts (row_version r))).
  { intros r Hin. exists (value (row_version r)). apply (cr_sst _ _ _ _ Hflush) with (e := end_ts (row_version r)).
    right. apply mem_rows; [done|]. by exists r. }
  pose proof (mi_wf _ Hman) as Hwf. fold (version_set l) in Hwf.
  assert (Hu64 : is_u64 id) by apply (wf_next_u64 _ Hwf).
  assert (Hvalid : edits_valid (mf_version_set (l_manifest l))
    [AddFile id 0 (sh_min_key handle) (sh_max_key handle) (sh_bytes handle) now; NextFileId (saturating_add id 1)]).
  { split; [split|split; [split|]]; [|exact Hfresh|by apply saturating_add_mono_u64|done|done].
    split; [done|]. split; [vm_compute; split; congruence|].
    split; [by apply (handle_keys_ok h _ _ _ Hbound Hrows)|].
    split; [by apply (handle_keys_ok h _ _ _ Hbound Hrows)|done]. }
  destruct (append_batch_inv (l_manifest l) _ rw Hman Hvalid) as (Hman2 & Hvs & _); [done|].
  rewrite Happ in Hman2, Hvs. cbn [fst] in Hman2, Hvs. subst m.
  assert (Hlive : forall x, live l' x <-> x = id \/ live l x).
  { intros x. unfold live, version_set. rewrite Hvs. unfold version_set in *.
    destruct (mf_version_set (l_manifest l)) as [levels meta next dropped by_key flevel].
    cbn [applied fold_left vs_apply rebuild_indexes vs_levels]. setoid_rewrite level_has_add. split.
    - intros [lv [Hx|Hx]%orb_true_iff]; [left|right; eauto]. apply andb_true_iff in Hx as [_ Hx].
      by apply eqc_spec in Hx.
    - intros [->|[lv Hx]]; [exists 0; by rewrite !eqc_refl|exists lv; by rewrite Hx, orb_true_r]. }
  assert (Hfr : forall x rows, file_rows l' x rows <->
    (x = id /\ rows = map stored (mt_all_versions (mem l))) \/ (x <> id /\ file_rows l x rows)).
  { intros x rows. unfold file_rows. rewrite Hdisk, om_get_insert. destruct (eqc x id) eqn:E; cbool.
    - subst x. split.
      + intros (y & [= <-] & Hy). left. split; [done|]. by eapply sst_holds_fun.
      + intros [[_ ->]|[? _]]; [by exists f|done].
    - split; [by right|]. by intros [[? _]|[_ ?]]. }
  assert (Hmeta : forall x, file_metadata (version_set l') x =
    if eqc x id then Some (sh_min_key handle, sh_max_key handle, sh_bytes handle, now)
    else file_metadata (version_set l) x).
  { intros x. unfold file_metadata, version_set. rewrite Hvs.
    destruct (mf_version_set (l_manifest l)) as [levels meta next dropped by_key flevel].
    cbn [applied fold_left vs_apply rebuild_indexes vs_file_meta]. apply om_get_insert. }
  split; [done|done| | |lia| |by rewrite Hseq'].
  3: { intros x rows Hx [[-> ->]|[Hne Hr]]%Hfr.
    - split; [apply rows_sorted_stored, all_versions_sorted, Hi|]. rewrite Hmeta, eqc_refl. eexists. split; [done|].
      intros r (r0 & <- & Hin)%in_map_iff. destruct Hwr as (schema & io & Hwr).
      destruct (sst_write_bounds _ _ _ _ _ _ _ Hwr (all_versions_sorted _ Hi) Hin) as [Hlo Hhi].
      split; [done|by right].
    - apply Hlive in Hx as [->|Hx]; [done|]. destruct (Hfiles x rows Hx Hr) as (Hs & m & Hm & Hc).
      split; [done|]. exists m. split; [|done]. rewrite Hmeta. by rewrite (proj2 (eqc_false x id)). }
  - intros x [->|Hx]%Hlive; [eexists; apply Hfr; by left|]. destruct (Hd x Hx) as [rows Hr].
    exists rows. apply Hfr. right. split; [|done]. by intros ->.
  - rewrite Hm'. eapply core_rep_ext; [|exact Hflush]. intros k b e v. cbn beta. rewrite mem_rows by done.
    unfold sst_row. setoid_rewrite Hlive. setoid_rewrite Hfr. split.
    + intros [(x & rows & r & Hx & Hr & Hp)|(r & Hin & Hp)].
      * exists x, rows, r. split; [by right|]. split; [right; split; [by intros ->|done]|done].
      * exists id, (map stored (mt_all_versions (mem l))), (stored r). split; [by left|]. split; [by left|].
        split; [by apply in_map|done].
    + intros (x & rows & r & Hx & [[-> ->]|[Hne Hr]] & Hin & Hp).
      * right. apply in_map_iff in Hin as (r0 & <- & Hin). by exists r0.
      * left. destruct Hx as [->|Hx]; [done|]. by exists x, rows, r.
Qed.

(** A flush stores the same history. *)
Lemma lsm_rep_flush w l h io l' r :
  lsm_rep w l h -> vs_next_file_id (version_set l) < u64_max -> is_u64 (io_now io) ->
  io_man_w io = IoOk -> io_man_s io = IoOk -> flush l io = Some (l', Ok r) -> lsm_rep w l' h.
Proof.
  intros Hrep Hid Hnow Hw Hs. pose proof (lr_mem _ _ _ Hrep) as Hi. unfold flush, flush_drain. fold (mem l).
  rewrite (mt_drain_ok _ [] Hi). cbn [app]. destruct (mt_all_versions (mem l)) as [|r0 rest] eqn:Erows.
  { by intros [= <- _]. }
  rewrite <- Erows. unfold flush_sst_locked. rewrite Erows at 1.
  change (version_set (with_mem l (mt_clear (mem l)))) with (version_set l).
  set (id := vs_next_file_id (version_set l)) in *.
  destruct (sst_write _ _ _ _) as [[[f handle]|err]|] eqn:Hwr; cbn [mbind option_bind]; [|done..].
  assert (Hwr' : written (mt_all_versions (mem l)) id f handle) by (do 2 eexists; exact Hwr).
  cbn [l_manifest with_disk with_mem with_engine]. rewrite Hw, Hs.
  destruct (append_batch (l_manifest l) _ IoOk IoOk (io_rewrite io)) as [m [[]|err]] eqn:Happ; [|done].
  destruct (mt_clear_ok _ Hi) as (Hi1 & Hm1 & _). destruct (mt_clear_ok _ Hi1) as (Hi2 & Hm2 & _).
  match goal with |- context [if ?b then _ else _] => destruct b end.
  - destruct (wal_reset _ _ _) as [wl [u|err]]; [|done]. intros [= <- _].
    by eapply (lsm_rep_flushed w l h _ f handle (io_now io) m (io_rewrite io)).
  - intros [= <- _]. by eapply (lsm_rep_flushed w l h _ f handle (io_now io) m (io_rewrite io)).
Qed.

(** ** Compaction *)

Lemma read_inputs_ok (l : Lsm) chunk rows :
  read_inputs l chunk = Ok rows -> (forall f, In f chunk -> exists rs, file_rows l f rs) ->
  forall r, In r rows <-> exists f rs, In f chunk /\ file_rows l f rs /\ In r rs.
Proof.
  revert rows. induction chunk as [|f chunk IH]; intros rows Hr Hf r; cbn [read_inputs] in Hr.
  - injection Hr as <-. split; [done|]. by intros (? & ? & [] & _).
  - destruct (Hf f (or_introl eq_refl)) as [rs Hrs]. pose proof Hrs as (file & Hg & Hh).
    unfold read_file in Hr. rewrite Hg, (sst_read_all_holds _ _ Hh) in Hr. cbn [rbind] in Hr.
    destruct (read_inputs l chunk) as [rows0|] eqn:E; cbn [rbind] in Hr; [|done]. injection Hr as <-.
    rewrite in_app_iff, (IH rows0 eq_refl (fun f Hin => Hf f (or_intror Hin))). split.
    + intros [Hin|(f' & rs' & Hin & ?)]; [exists f, rs; by auto using in_eq|exists f', rs'; cbn; tauto].
    + intros (f' & rs' & [<-|Hin] & Hrs' & Hr'); [left; by rewrite (file_rows_fun _ _ _ _ Hrs Hrs')|].
      right. by exists f', rs'.
Qed.

Lemma read_inputs_ext (l l' : Lsm) chunk :
  (forall f, In f chunk -> om_get f (l_disk l') = om_get f (l_disk l)) ->
  read_inputs l' chunk = read_inputs l chunk.
Proof.
  induction chunk as [|f chunk IH]; intros He; [done|]. cbn [read_inputs]. unfold read_file.
  rewrite (He f) by (by left). by rewrite IH by (intros; apply He; by right).
Qed.

(** The output of a chunk, read from [l], is on the disk [d]. *)
Definition merged (l : Lsm) (d : omap Z vfile) (watermark : TxnTs) (chunk : list Z) (handle : SstHandle) : Prop :=
  exists rows f, read_inputs l chunk = Ok rows /\ om_get (sh_file_id handle) d = Some f /\
    written (dedup_superseded rows watermark) (sh_file_id handle) f handle.

Lemma compact_chunk_ok (l : Lsm) chunk watermark id io l' handle deleted delta :
  compact_chunk l chunk watermark id io = Some (l', Ok (handle, deleted, delta)) ->
  sh_file_id handle = id /\
  exists f, l' = with_disk l (om_insert id f (l_disk l)) /\ merged l (l_disk l') watermark chunk handle.
Proof.
  unfold compact_chunk. destruct (read_inputs l chunk) as [rows|] eqn:Er; [|done].
  destruct (sst_write _ _ _ _) as [[[f hd]|]|] eqn:Hw; cbn [mbind option_bind]; [|done..]. intros [= <- -> _ _].
  assert (Hw' : written (dedup_superseded rows watermark) id f handle) by (do 2 eexists; exact Hw).
  destruct (written_holds _ _ _ _ Hw') as (_ & Hid & _). split; [done|].
  exists f. split; [done|]. exists rows, f. rewrite Hid. split; [done|]. split; [|done].
  cbn [with_disk l_disk]. by rewrite om_get_insert_eq.
Qed.

Lemma gather_chunks_ok results hs deleted delta hs' deleted' delta' :
  gather_chunks results hs deleted delta = Ok (hs', deleted', delta') ->
  exists outs, results = map Ok outs /\ hs' = hs ++ map (fun o => o.1.1) outs.
Proof.
  revert hs deleted delta. induction results as [|[[[hd d] dl]|err] results IH]; intros hs deleted delta Hg;
    cbn [gather_chunks] in Hg; [|apply IH in Hg as (outs & -> & ->)|done].
  - injection Hg as <- _ _. exists []. by rewrite app_nil_r.
  - exists ((hd, d, dl) :: outs). split; [done|]. cbn [map fst]. by rewrite <- app_assoc.
Qed.

(** Every chunk's output lands in its own new file. *)
Lemma compact_chunks_ok (l0 : Lsm) chunks watermark io n (l : Lsm) id l' outs :
  (forall f, In f (concat chunks) -> f < n) -> n <= id -> id + Z.of_nat (length chunks) <= u64_max ->
  (forall f, f < n -> om_get f (l_disk l) = om_get f (l_disk l0)) ->
  compact_chunks l chunks watermark id io = Some (l', map Ok outs) ->
  let hs := map (fun o => o.1.1) outs in
  l' = with_disk l (l_disk l') /\
  (forall f, f < id -> om_get f (l_disk l') = om_get f (l_disk l)) /\
  Forall2 (merged l0 (l_disk l') watermark) chunks hs /\
  NoDup (map sh_file_id hs) /\
  Forall (fun h => id <= sh_file_id h < id + Z.of_nat (length chunks)) hs.
Proof.
  revert l id outs. induction chunks as [|chunk chunks IH]; intros l id outs Hin Hn Hb Hag Hc hs;
    cbn [compact_chunks] in Hc.
  { destruct outs; [|done]. injection Hc as <-. split; [by destruct l|]. split; [done|].
    split; [constructor|]. split; constructor. }
  destruct (compact_chunk l chunk watermark id io) as [[l1 r]|] eqn:E1; cbn [mbind option_bind] in Hc; [|done].
  cbn [length] in Hb. assert (Hsat : saturating_add id 1 = id + 1) by (unfold saturating_add; lia).
  rewrite Hsat in Hc. destruct (compact_chunks l1 chunks watermark (id + 1) io) as [[l2 rs]|] eqn:E2;
    cbn [mbind option_bind] in Hc; [|done].
  destruct outs as [|[[hd d] dl] outs]; [done|]. cbn [map] in Hc. injection Hc as <- -> ->.
  destruct (compact_chunk_ok _ _ _ _ _ _ _ _ _ E1) as (Hid & f & -> & rows & f' & Hr & Hg & Hw).
  destruct (IH (with_disk l (om_insert id f (l_disk l))) (id + 1) outs) as (Hl & Hd & Hm & Hnd & Hids).
  { intros x Hx. apply Hin. cbn. apply in_app_iff. by right. }
  { lia. }
  { lia. }
  { intros x Hx. cbn [with_disk l_disk]. rewrite om_get_insert_ne by lia. by apply Hag. }
  { exact E2. }
  cbn [with_disk l_disk] in *. split; [by rewrite Hl|]. split.
  { intros x Hx. rewrite Hd by lia. apply om_get_insert_ne. lia. }
  subst hs. cbn [map fst]. split; [constructor; [|done]|split; [constructor; [|done]|constructor]].
  - exists rows, f'. split.
    { rewrite <- Hr. symmetry. apply read_inputs_ext. intros x Hx. apply Hag, Hin. cbn. apply in_app_iff. by left. }
    rewrite Hid in *. split; [rewrite Hd by lia; done|done].
  - rewrite list_elem_of_In, in_map_iff. intros (h' & He & Hh'). rewrite List.Forall_forall in Hids.
    specialize (Hids h' Hh'). lia.
  - rewrite Hid. cbn [length]. lia.
  - eapply List.Forall_impl; [|exact Hids]. cbn [length]. intros h' Hh'. cbn in Hh'. lia.
Qed.

Lemma remove_inputs_ok (l : Lsm) inputs io l' :
  remove_inputs l inputs io = (l', Ok tt) ->
  l' = with_disk l (l_disk l') /\
  forall f, om_get f (l_disk l') = if bool_decide (f ∈ inputs) then None else om_get f (l_disk l).
Proof.
  revert l. induction inputs as [|x inputs IH]; intros l Hr; cbn [remove_inputs] in Hr.
  - injection Hr as <-. split; [by destruct l|]. intros f. by rewrite bool_decide_eq_false_2 by apply not_elem_of_nil.
  - destruct (io_remove io x); [|done]. destruct (IH _ Hr) as [Hl Hd]. split; [by rewrite Hl|].
    intros f. rewrite Hd. cbn [with_disk l_disk]. rewrite om_get_remove.
    destruct (eqc x f) eqn:E; cbool.
    + subst. rewrite (bool_decide_eq_true_2 (f ∈ f :: inputs)) by (by left). by destruct (bool_decide _).
    + rewrite (bool_decide_ext (f ∈ x :: inputs) (f ∈ inputs)); [done|]. rewrite elem_of_cons.
      split; [intros [?|?]; [congruence|done]|by right].
Qed.

Lemma live_below l f :
  man_inv (l_manifest l) -> vs_next_file_id (version_set l) < u64_max -> live l f ->
  is_u64 f /\ f < vs_next_file_id (version_set l).
Proof.
  intros Hm Hb [lv Hl]. pose proof (mi_wf _ Hm) as Hwf. fold (version_set l) in Hwf.
  destruct (proj2 (wf_files _ Hwf f) ltac:(eauto)) as [x Hx]. pose proof (wf_next _ Hwf _ _ Hx) as Hle.
  pose proof (wf_fields _ Hwf _ _ Hl) as Hok. unfold add_edit in Hok. cbn [fst snd] in Hok. rewrite Hx in Hok. cbn in Hok.
  destruct x as [[[mn mx] nb] ca]. destruct Hok as (Hu & _). split; [done|].
  unfold saturating_add in Hle. lia.
Qed.

(** The edits of a compaction are accepted; afterwards the outputs are live and
    the inputs are not. *)
Lemma compaction_edits_live (l : Lsm) src tgt hs now :
  let vs := version_set l in
  let inputs := compaction_inputs vs src tgt in
  man_inv (l_manifest l) -> vs_next_file_id vs < u64_max -> is_u32 tgt -> is_u64 now ->
  Forall (fun h => is_u64 (sh_file_id h) /\ blen (sh_min_key h) <= u32_max /\
            blen (sh_max_key h) <= u32_max /\ is_u64 (sh_bytes h) /\
            vs_next_file_id vs <= sh_file_id h) hs ->
  NoDup (map sh_file_id hs) ->
  let edits := compaction_edits vs inputs src tgt hs now in
  edits_valid vs edits /\
  (forall f, (exists lv, level_has (vs_levels (applied vs edits)) lv f = true) <->
    In f (map sh_file_id hs) \/ (live l f /\ ~ In f inputs)) /\
  (forall hd, In hd hs -> file_metadata (applied vs edits) (sh_file_id hd)
     = Some (sh_min_key hd, sh_max_key hd, sh_bytes hd, now)) /\
  (forall f, live l f -> ~ In f inputs -> file_metadata (applied vs edits) f = file_metadata vs f).
Proof.
  intros vs inputs Hman Hnext Htgt Hnow Hhs Hnd edits.
  pose proof (mi_wf _ Hman) as Hwf. fold (version_set l) in Hwf. fold vs in Hwf.
  set (lv := fun f => if bool_decide (f ∈ vs_files vs src) then src else tgt).
  assert (He : edits = add_files tgt now hs ++
    [NextFileId (saturating_add (fold_left Z.max (map sh_file_id hs) 0) 1)] ++ del_files lv inputs) by done.
  assert (Hbelow : forall f, live l f -> is_u64 f /\ f < vs_next_file_id vs) by (intros; by apply live_below).
  assert (Hin : forall f, In f inputs -> level_has (vs_levels vs) (lv f) f = true /\ live l f).
  { intros f Hf. assert (Hl : level_has (vs_levels vs) (lv f) f = true).
    { unfold lv. case_bool_decide as Hsrc; [by apply vs_files_level, list_elem_of_In|].
      apply compaction_inputs_In in Hf as [Hf|Hf]; [by apply list_elem_of_In in Hf|by apply vs_files_level]. }
    split; [done|by exists (lv f)]. }
  destruct (add_files_valid vs tgt now hs) as [Hva Hla]; [|done| |].
  { eapply List.Forall_impl; [|exact Hhs]. intros hd (? & ? & ? & ? & _). done. }
  { intros hd Hhd. rewrite List.Forall_forall in Hhs. destruct (Hhs hd Hhd) as (_ & _ & _ & _ & Hge).
    destruct (om_get _ (vs_file_meta vs)) eqn:E; [|done].
    destruct (Hbelow (sh_file_id hd)); [apply (wf_files _ Hwf); by rewrite E|lia]. }
  set (vs1 := fold_left vs_apply (add_files tgt now hs) vs) in *.
  set (nx := NextFileId (saturating_add (fold_left Z.max (map sh_file_id hs) 0) 1)) in *.
  assert (Hmax : is_u64 (fold_left Z.max (map sh_file_id hs) 0)).
  { assert (Hgen : forall a, is_u64 a -> is_u64 (fold_left Z.max (map sh_file_id hs) a)).
    { clear -Hhs. induction hs as [|hd hs IH]; intros a Ha; cbn; [done|].
      apply Forall_cons in Hhs as [(Hu & _) Hhs]. apply IH; [done|]. unfold is_u64 in *. lia. }
    apply Hgen. vm_compute. split; congruence. }
  assert (Hlv1 : vs_levels (vs_apply vs1 nx) = vs_levels vs1) by (by destruct vs1).
  destruct (del_files_valid (vs_apply vs1 nx) lv inputs) as [Hvd Hld].
  { apply List.Forall_forall. intros f Hf. destruct (Hin f Hf) as [Hl Hlive]. split; [by apply Hbelow|].
    pose proof (wf_fields _ Hwf _ _ Hl) as Hok. unfold add_edit in Hok.
    destruct (default _ _) as [[[? ?] ?] ?]. by destruct Hok as (_ & ? & _). }
  { apply compaction_inputs_NoDup. }
  { intros f Hf. rewrite Hlv1. apply Hla. right. by apply Hin. }
  assert (Hmeta : forall f, ~ In f inputs -> file_metadata (applied vs edits) f =
    match List.find (fun h => eqc f (sh_file_id h)) hs with
    | Some h => Some (sh_min_key h, sh_max_key h, sh_bytes h, now)
    | None => file_metadata vs f
    end).
  { intros f Hf. unfold file_metadata, applied. rewrite He, fold_left_app. cbn [fold_left app]. fold vs1.
    assert (Hrb : forall v, vs_file_meta (rebuild_indexes v) = vs_file_meta v) by (by intros []).
    rewrite Hrb, del_files_meta by done. replace (vs_file_meta (vs_apply vs1 nx)) with (vs_file_meta vs1) by (by destruct vs1).
    by apply add_files_meta. }
  assert (Hnew : forall hd, In hd hs -> ~ live l (sh_file_id hd)).
  { intros hd Hhd Hlv. apply Hbelow in Hlv as [_ Hlt].
    rewrite List.Forall_forall in Hhs. destruct (Hhs hd Hhd) as (_ & _ & _ & _ & Hge). lia. }
  split; [|split; [|split]].
  4: { intros f Hf Hn. rewrite Hmeta by done. destruct (List.find _ hs) as [hd|] eqn:E; [|done].
    apply List.find_some in E as [Hhd E]. cbool. subst f. by destruct (Hnew hd Hhd). }
  3: { intros hd Hhd. rewrite Hmeta by (intros Hf; destruct (Hnew hd Hhd); by apply Hin).
    destruct (List.find _ hs) as [hd'|] eqn:E.
    - apply List.find_some in E as [Hhd' E]. cbool. by rewrite (NoDup_map_inj sh_file_id hs hd' hd).
    - apply (List.find_none _ _ E) in Hhd. cbool. done. }
  - rewrite He. apply edits_valid_app. split; [done|]. cbn [app edits_valid].
    split; [split; [by apply saturating_add_mono_u64|done]|exact Hvd].
  - intros f. rewrite He. unfold applied. rewrite fold_left_app. cbn [fold_left app]. fold vs1.
    assert (Hrb : forall v, vs_levels (rebuild_indexes v) = vs_levels v) by (by intros []).
    rewrite Hrb. setoid_rewrite Hld. rewrite Hlv1. setoid_rewrite Hla. split.
    + intros (l0 & [[-> Hf]|Hf] & Hn); [by left|right]. split; [by exists l0|].
      intros Hfi. apply Hn. split; [done|]. destruct (Hin f Hfi) as [Hl _].
      by apply (wf_one_level _ Hwf f).
    + intros [Hf|[[l0 Hf] Hn]].
      * exists tgt. split; [by left|]. intros [Hfi _]. destruct (Hin f Hfi) as [_ Hlive].
        apply Hbelow in Hlive as [_ Hlt]. apply in_map_iff in Hf as (hd & <- & Hhd).
        rewrite List.Forall_forall in Hhs. destruct (Hhs hd Hhd) as (_ & _ & _ & _ & Hge). lia.
      * exists l0. split; [by right|]. tauto.
Qed.

(** The rows of live files carry no transaction id. *)
Lemma file_rows_tx (l : Lsm) f rows r : file_rows l f rows -> In r rows -> tx_id (row_version r) = 0.
Proof. intros (file & _ & schema & src & cols & _ & _ & ->) (r0 & <- & _)%in_map_iff. done. Qed.

(** *** One committed compaction *)

Section Compacted.
Context (w : TxnTs) (l : Lsm) (h : bytes -> values) (chunks : list (list Z)) (hs : list SstHandle).
Context (watermark : TxnTs) (src tgt : Z) (d1 : omap Z vfile).
#[local] Abbreviation vs := (version_set l).
#[local] Abbreviation inputs := (compaction_inputs vs src tgt).
Hypothesis Hrep : lsm_rep w l h.
Hypothesis Hnext : vs_next_file_id vs < u64_max.
Hypothesis Hchunks : concat chunks = inputs.
Hypothesis Hd1 : forall f, f < vs_next_file_id vs -> om_get f d1 = om_get f (l_disk l).
Hypothesis Hmerged : Forall2 (merged l d1 watermark) chunks hs.
Hypothesis Hids : Forall (fun h => vs_next_file_id vs <= sh_file_id h < u64_max) hs.

Lemma inputs_live f : In f inputs -> live l f.
Proof. intros [Hf|Hf]%compaction_inputs_In; apply vs_files_level in Hf; eexists; exact Hf. Qed.

Lemma chunk_inputs c f : In c chunks -> In f c -> In f inputs.
Proof. intros Hc Hf. rewrite <- Hchunks. apply in_concat. eauto. Qed.

(** The rows a chunk reads. *)
Lemma chunk_rows c rows :
  In c chunks -> read_inputs l c = Ok rows ->
  forall r, In r rows <-> exists f rs, In f c /\ file_rows l f rs /\ In r rs.
Proof.
  intros Hc Hr. apply (read_inputs_ok l c rows Hr). intros f Hf.
  by apply (lr_disk _ _ _ Hrep), inputs_live, (chunk_inputs c).
Qed.

Lemma chunk_values c rows r :
  In c chunks -> read_inputs l c = Ok rows -> In r rows ->
  tx_id (row_version r) = 0 /\ h (row_key r) !! begin_ts (row_version r) = Some (value (row_version r)).
Proof.
  intros Hc Hr Hin. apply (chunk_rows c rows Hc Hr) in Hin as (f & rs & Hf & Hfr & Hin).
  split; [by eapply file_rows_tx|].
  apply (cr_sst _ _ _ _ (lr_core _ _ _ Hrep)) with (e := end_ts (row_version r)).
  exists f, rs, r. split; [by apply inputs_live, (chunk_inputs c)|done].
Qed.

Lemma handle_chunk hd : In hd hs -> exists c, In c chunks /\ merged l d1 watermark c hd.
Proof.
  intros Hhd. destruct (proj1 (list_elem_of_lookup _ _) (proj2 (list_elem_of_In _ _) Hhd)) as [i Hi'].
  destruct (Forall2_lookup_r _ _ _ _ _ Hmerged Hi') as (c & Hc & Hm). exists c.
  split; [by apply list_elem_of_lookup_2, list_elem_of_In in Hc|done].
Qed.

Lemma chunk_handle c : In c chunks -> exists hd, In hd hs /\ merged l d1 watermark c hd.
Proof.
  intros Hc. destruct (proj1 (list_elem_of_lookup _ _) (proj2 (list_elem_of_In _ _) Hc)) as [i Hi'].
  destruct (Forall2_lookup_l _ _ _ _ _ Hmerged Hi') as (hd & Hhd & Hm). exists hd.
  split; [by apply list_elem_of_lookup_2, list_elem_of_In in Hhd|done].
Qed.

(** The outputs fit the fields of the manifest. *)
Lemma handles_ok :
  Forall (fun h => is_u64 (sh_file_id h) /\ blen (sh_min_key h) <= u32_max /\
            blen (sh_max_key h) <= u32_max /\ is_u64 (sh_bytes h) /\ vs_next_file_id vs <= sh_file_id h) hs.
Proof.
  apply List.Forall_forall. intros hd Hhd. rewrite List.Forall_forall in Hids. pose proof (Hids hd Hhd) as Hid.
  destruct (handle_chunk hd Hhd) as (c & Hc & rows & f & Hr & _ & Hw).
  destruct (written_holds _ _ _ _ Hw) as (_ & _ & Hb & _ & Hmin & Hmax).
  assert (Hin : forall r', In r' (dedup_superseded rows watermark) ->
    is_Some (h (row_key r') !! begin_ts (row_version r'))).
  { intros r' (r & e & Hin & ->)%dedup_superseded_In. destruct (chunk_values c rows r Hc Hr Hin) as [_ Hv].
    by exists (value (row_version r)). }
  pose proof (wf_next_u64 _ (mi_wf _ (lr_man _ _ _ Hrep))) as Hu. fold (version_set l) in Hu.
  pose proof (lr_bound _ _ _ Hrep) as Hbound.
  split; [unfold is_u64 in *; lia|]. split; [by apply (handle_keys_ok h _ _ _ Hbound Hin)|].
  split; [by apply (handle_keys_ok h _ _ _ Hbound Hin)|]. split; [done|lia].
Qed.

(** The files of the tree after the commit. *)
Context (l' : Lsm).
Hypothesis Hlive' : forall f, live l' f <-> In f (map sh_file_id hs) \/ (live l f /\ ~ In f inputs).
Hypothesis Hdisk' : forall f, om_get f (l_disk l') = if bool_decide (f ∈ inputs) then None else om_get f d1.

Lemma old_files f rs : live l f -> ~ In f inputs -> (file_rows l' f rs <-> file_rows l f rs).
Proof.
  intros Hf Hn. unfold file_rows. rewrite Hdisk', bool_decide_eq_false_2 by (by rewrite list_elem_of_In).
  by rewrite Hd1 by (by apply (live_below l f (lr_man _ _ _ Hrep) Hnext)).
Qed.

Lemma new_files c hd :
  In c chunks -> In hd hs -> merged l d1 watermark c hd ->
  live l' (sh_file_id hd) /\ exists rows, read_inputs l c = Ok rows /\
    file_rows l' (sh_file_id hd) (map stored (dedup_superseded rows watermark)).
Proof.
  intros _ Hhd (rows & f & Hr & Hg & Hw). split; [apply Hlive'; left; by apply in_map|].
  exists rows. split; [done|]. exists f. rewrite Hdisk', bool_decide_eq_false_2.
  - split; [done|]. by destruct (written_holds _ _ _ _ Hw).
  - rewrite list_elem_of_In. intros Hin%inputs_live.
    apply (live_below l _ (lr_man _ _ _ Hrep) Hnext) in Hin as [_ Hlt].
    rewrite List.Forall_forall in Hids. specialize (Hids hd Hhd). lia.
Qed.

Lemma compacted_disk f : live l' f -> exists rows, file_rows l' f rows.
Proof.
  intros [(hd & <- & Hhd)%in_map_iff|[Hf Hn]]%Hlive'.
  - destruct (handle_chunk hd Hhd) as (c & Hc & Hm).
    destruct (new_files c hd Hc Hhd Hm) as (_ & rows & _ & Hr). eauto.
  - destruct (lr_disk _ _ _ Hrep f Hf) as [rows Hr]. exists rows. by apply old_files.
Qed.

(** Every row of an output was in an input. *)
Lemma compacted_sound k b e v : sst_row l' k b e v -> exists e', sst_row l k b e' v.
Proof.
  intros (f & rs & r & Hf & Hfr & Hin & Hk & Hb & _ & Hv). apply Hlive' in Hf as [Hf|[Hf Hn]].
  - apply in_map_iff in Hf as (hd & <- & Hhd). destruct (handle_chunk hd Hhd) as (c & Hc & Hm).
    destruct (new_files c hd Hc Hhd Hm) as (_ & rows & Hr & Hfr').
    rewrite (file_rows_fun _ _ _ _ Hfr Hfr') in Hin. apply in_map_iff in Hin as (r0 & <- & Hin).
    apply dedup_superseded_In in Hin as (r1 & e1 & Hin & ->).
    apply (chunk_rows c rows Hc Hr) in Hin as (f1 & rs1 & Hf1 & Hfr1 & Hin1).
    exists (end_ts (row_version r1)), f1, rs1, r1.
    split; [by apply inputs_live, (chunk_inputs c)|done].
  - exists (end_ts (row_version r)), f, rs, r. split; [done|]. split; [by apply old_files|done].
Qed.

(** The version a snapshot reads stays visible. *)
Lemma compacted_keeps k s t e v :
  watermark <= s -> s < OPEN_ENDED_TS -> newest (h k) s t v -> sst_row l k t e v -> s < e ->
  exists e', sst_row l' k t e' v /\ s < e'.
Proof.
  intros Hws Hs (Ht & Hts & Hmax) (f & rs & r & Hf & Hfr & Hin & Hk & Hb & He & Hv) Hse.
  destruct (in_dec Z.eq_dec f inputs) as [Hfi|Hfn].
  - rewrite <- Hchunks in Hfi. apply in_concat in Hfi as (c & Hc & Hfc).
    destruct (chunk_handle c Hc) as (hd & Hhd & Hm).
    destruct (new_files c hd Hc Hhd Hm) as (Hl' & rows & Hr & Hfr').
    assert (Hinr : In r rows) by (apply (chunk_rows c rows Hc Hr); by exists f, rs).
    destruct (dedup_superseded_keeps rows watermark s k r) as (e' & Hin' & Hse'); [|done|done| |].
    { apply (stored_agree h). intros r1 Hr1. by apply (chunk_values c rows). }
    { split; [done|]. split; [done|]. split; [lia|]. intros r2 Hin2 Hk2 Hb2. rewrite Hb.
      apply Hmax; [|done]. destruct (chunk_values c rows r2 Hc Hr Hin2) as [_ Hv2]. rewrite <- Hk2.
      by exists (value (row_version r2)). }
    exists e'. split; [|done]. exists (sh_file_id hd), (map stored (dedup_superseded rows watermark)),
      (stored (set_row_end r e')). split; [done|]. split; [done|]. split; [by apply in_map|done].
  - exists e. split; [|done]. exists f, rs, r. split; [apply Hlive'; by right|].
    split; [by apply old_files|done].
Qed.
End Compacted.

(** Committing the merged chunks stores the same history. *)
Lemma lsm_rep_compacted w l h chunks hs watermark src tgt d1 io deleted delta l' :
  let vs := version_set l in
  let inputs := compaction_inputs vs src tgt in
  lsm_rep w l h -> vs_next_file_id vs < u64_max -> is_u32 tgt -> is_u64 (io_now io) ->
  io_man_w io = IoOk -> io_man_s io = IoOk -> concat chunks = inputs ->
  (forall f, f < vs_next_file_id vs -> om_get f d1 = om_get f (l_disk l)) ->
  Forall2 (merged l d1 watermark) chunks hs -> NoDup (map sh_file_id hs) ->
  Forall (fun h => vs_next_file_id vs <= sh_file_id h < u64_max) hs ->
  commit_compaction (with_disk l d1) inputs src tgt hs deleted delta io = (l', Ok tt) ->
  lsm_rep (Z.max w watermark) l' h.
Proof.
  intros vs inputs Hrep Hnext Htgt Hnow Hiw His Hchunks Hd1 Hmerged Hnd Hids Hcommit.
  pose proof Hrep as [Hi Hman Hd Hcore Hseq Hfiles Hbound].
  pose proof (handles_ok w l h chunks hs watermark src tgt d1 Hrep Hchunks Hmerged Hids) as Hhs.
  destruct (compaction_edits_live l src tgt hs (io_now io) Hman Hnext Htgt Hnow Hhs Hnd) as (Hvalid & Hlive & Hmnew & Hmold).
  fold vs in Hvalid, Hlive, Hmnew, Hmold. fold inputs in Hvalid, Hlive, Hmnew, Hmold.
  unfold commit_compaction in Hcommit. cbn [with_disk l_manifest] in Hcommit.
  change (version_set (with_disk l d1)) with vs in Hcommit. rewrite Hiw, His in Hcommit.
  destruct (append_batch_inv (l_manifest l) _ (io_rewrite io) Hman Hvalid) as (Hman2 & Hvs & _);
    [unfold compaction_edits; intros Hnil; by apply app_eq_nil in Hnil as [_ ?]|].
  destruct (append_batch (l_manifest l) _ IoOk IoOk (io_rewrite io)) as [m [u|err]]; [|done].
  cbn [fst] in Hman2, Hvs. apply remove_inputs_ok in Hcommit as [Hl' Hdisk].
  assert (Hm' : l_manifest l' = m) by (by rewrite Hl').
  assert (Hmem' : mem l' = mem l) by (unfold mem; by rewrite Hl').
  assert (Hseq' : e_commit_seq (l_engine l') = e_commit_seq (l_engine l)) by (by rewrite Hl').
  assert (Hlive' : forall f, live l' f <-> In f (map sh_file_id hs) \/ (live l f /\ ~ In f inputs)).
  { intros f. unfold live at 1, version_set. rewrite Hm', Hvs. apply Hlive. }
  assert (Hvs' : version_set l' = applied vs (compaction_edits vs inputs src tgt hs (io_now io)))
    by (unfold version_set; by rewrite Hm', Hvs).
  split; [by rewrite Hmem'|by rewrite Hm'| | |lia| |by rewrite Hseq'].
  3: { intros f rows Hf Hr. rewrite Hvs'. apply Hlive' in Hf as [Hf|[Hf Hn]].
    - apply in_map_iff in Hf as (hd & <- & Hhd).
      destruct (handle_chunk l chunks hs watermark d1 Hmerged hd Hhd) as (c & Hc & Hm).
      destruct (new_files w l h chunks hs watermark src tgt d1 Hrep Hnext Hids l' Hlive' Hdisk c hd Hc Hhd Hm)
        as (_ & rows0 & Hr0 & Hfr). rewrite (file_rows_fun _ _ _ _ Hr Hfr).
      split; [apply rows_sorted_stored, dedup_rows_sorted|]. rewrite (Hmnew hd Hhd). eexists. split; [done|].
      intros r (r1 & <- & Hin)%in_map_iff. destruct Hm as (rows1 & f1 & Hr1 & _ & schema & io1 & Hw).
      rewrite Hr0 in Hr1. injection Hr1 as <-.
      destruct (sst_write_bounds _ _ _ _ _ _ _ Hw (dedup_rows_sorted _ _) Hin). split; [done|by right].
    - destruct (Hfiles f rows Hf) as (Hs & m0 & Hm0 & Hc); [by apply (old_files w l h src tgt d1 Hrep Hnext Hd1 l' Hdisk f rows Hf Hn)|].
      split; [done|]. exists m0. split; [|done]. by rewrite (Hmold f Hf Hn). }
  - by eapply compacted_disk.
  - rewrite Hmem'. apply core_rep_replace with (P := sst_row l); [done| |].
    + by eapply compacted_sound.
    + by eapply compacted_keeps.
Qed.

(** [compact_with_watermark] is one chunk, [sub_compact] several. *)
Lemma lsm_rep_compact w l h src tgt watermark io l' r :
  lsm_rep w l h -> vs_next_file_id (version_set l) + 1 < u64_max -> is_u32 tgt -> is_u64 (io_now io) ->
  io_man_w io = IoOk -> io_man_s io = IoOk ->
  compact_with_watermark l src tgt watermark io = Some (l', Ok r) ->
  lsm_rep (Z.max w watermark) l' h.
Proof.
  intros Hrep Hnext Htgt Hnow Hiw His. unfold compact_with_watermark.
  set (inputs := compaction_inputs (version_set l) src tgt).
  destruct (length inputs <? 2)%nat.
  { intros [= <- _]. destruct Hrep. split; try done. eapply core_rep_mono; [done|lia]. }
  destruct (compact_chunk l inputs watermark _ io) as [[l1 [[[hd d] dl]|err]]|] eqn:Ec; cbn [mbind option_bind]; [|done..].
  destruct (compact_chunk_ok _ _ _ _ _ _ _ _ _ Ec) as (Hid & f & -> & Hm).
  destruct (commit_compaction _ _ _ _ _ _ _ _) as [l2 [[]|err]] eqn:Ecc; [|done].
  intros [= <- _]. cbn [with_disk l_disk] in Hm.
  eapply (lsm_rep_compacted w l h [inputs] [hd] watermark src tgt
    (om_insert (vs_next_file_id (version_set l)) f (l_disk l)) io d dl); try done.
  - lia.
  - cbn. apply app_nil_r.
  - intros x Hx. apply om_get_insert_ne. lia.
  - by constructor.
  - cbn. apply NoDup_singleton.
  - constructor; [|constructor]. lia.
Qed.

Lemma lsm_rep_sub_compact w l h src tgt watermark io l' r :
  lsm_rep w l h ->
  vs_next_file_id (version_set l) + Z.of_nat (length (file_ids (version_set l))) < u64_max ->
  is_u32 tgt -> is_u64 (io_now io) ->
  io_man_w io = IoOk -> io_man_s io = IoOk ->
  sub_compact l src tgt watermark io = Some (l', Ok r) ->
  lsm_rep (Z.max w watermark) l' h.
Proof.
  intros Hrep Hnext Htgt Hnow Hiw His. unfold sub_compact.
  set (vs := version_set l) in *. set (inputs := compaction_inputs vs src tgt).
  destruct (length inputs <? 2)%nat.
  { intros [= <- _]. destruct Hrep. split; try done. eapply core_rep_mono; [done|lia]. }
  set (chunks := split_by_size inputs vs SUB_COMPACTION_BYTES).
  destruct (split_by_size_partition inputs vs SUB_COMPACTION_BYTES) as [Hcat Hne]. fold chunks in Hcat, Hne.
  assert (Hlen : (length chunks <= length inputs)%nat).
  { rewrite <- Hcat. clear -Hne. induction Hne as [|c cs Hc _ IH]; [done|]. cbn. rewrite length_app.
    destruct c; [done|]. cbn. lia. }
  assert (Hinl : forall f, In f inputs -> live l f).
  { intros f Hf. by eapply (inputs_live l src tgt). }
  assert (Hfiles : (length inputs <= length (file_ids vs))%nat).
  { apply NoDup_incl_length; [apply NoDup_ListNoDup, compaction_inputs_NoDup|].
    intros f Hf. apply (file_ids_live l f (lr_man _ _ _ Hrep)). auto. }
  destruct (compact_chunks l chunks watermark (vs_next_file_id vs) io) as [[l1 results]|] eqn:Ec;
    cbn [mbind option_bind]; [|done].
  destruct (gather_chunks results [] 0 []) as [[[hs d] dl]|err] eqn:Eg; [|done].
  destruct (gather_chunks_ok _ _ _ _ _ _ _ Eg) as (outs & -> & ->). cbn [app].
  destruct (compact_chunks_ok l chunks watermark io (vs_next_file_id vs) l (vs_next_file_id vs) l1 outs)
    as (Hl1 & Hd1 & Hm & Hnd & Hids); [|lia|lia|done|done|].
  { intros f Hf. rewrite Hcat in Hf. apply (live_below l f (lr_man _ _ _ Hrep)); [fold vs; lia|auto]. }
  destruct (commit_compaction _ _ _ _ _ _ _ _) as [l2 [[]|err]] eqn:Ecc; [|done].
  intros [= <- _]. rewrite Hl1 in Ecc.
  eapply (lsm_rep_compacted w l h chunks _ watermark src tgt (l_disk l1) io d dl); try done.
  - fold vs. lia.
  - eapply List.Forall_impl; [|exact Hids]. intros hd Hhd. cbn in Hhd. fold vs. lia.
Qed.

(** ** Runs *)

Lemma lsm_rep_idle w l h e' :
  lsm_rep w l h -> e_memtable e' = e_memtable (l_engine l) ->
  e_commit_seq e' = e_commit_seq (l_engine l) -> lsm_rep w (with_engine l e') h.
Proof.
  intros [Hi Hman Hd Hcore Hseq Hfiles Hbound] Hm Hq.
  assert (Hmem : mem (with_engine l e') = mem l) by done.
  split; rewrite ?Hmem; cbn [with_engine l_engine]; rewrite ?Hq; done.
Qed.

Lemma lsm_rep_gc w l h :
  lsm_rep w l h -> versions_count (mt_map (mem l)) <= u64_max ->
  lsm_rep (Z.max w (engine_watermark (l_engine l))) (with_engine l (engine_garbage_collect (l_engine l)).1) h.
Proof.
  intros [Hi Hman Hd Hcore Hseq Hfiles Hbound] Hv. unfold engine_garbage_collect.
  destruct (mt_gc_ok (mem l) (engine_watermark (l_engine l)) Hi Hv) as (t' & Hg & Hi' & Hmap & _).
  unfold mem in Hg. rewrite Hg. split; try done.
  unfold mem. cbn [with_engine l_engine with_memtable e_memtable fst]. rewrite Hmap. by apply core_rep_gc.
Qed.

(** [lsm_run w l h]: the tree [l] is reached from a new database by writes, group
    commits, flushes, compactions, collections, pins and registrations of table
    schemas; [h] is the history of
    its commits and [w] the latest watermark versions were collected at. *)
Inductive lsm_run : TxnTs -> Lsm -> (bytes -> values) -> Prop :=
  | lrun_new l :
      man_open None IoOk = Some (Ok (l_manifest l)) -> e_memtable (l_engine l) = mt_default ->
      1 <= e_commit_seq (l_engine l) < OPEN_ENDED_TS -> lsm_run 0 l (fun _ => ∅)
  | lrun_write w l h ms throttle io_w io_s e' r :
      lsm_run w l h -> e_commit_seq (l_engine l) + 1 < OPEN_ENDED_TS ->
      Forall (fun m => blen (mutation_key m) < u32_max) ms ->
      engine_write (l_engine l) ms throttle io_w io_s = (e', r) ->
      lsm_run w (with_engine l e')
        (extend h (number_commits (e_commit_seq (l_engine l)) (committed (alloc_tx_id (l_engine l)).2 ms r)))
  | lrun_write_with_tx w l h tx ms throttle io_w io_s e' r :
      lsm_run w l h -> e_commit_seq (l_engine l) + 1 < OPEN_ENDED_TS ->
      Forall (fun m => blen (mutation_key m) < u32_max) ms ->
      write_with_tx (l_engine l) tx ms throttle io_w io_s = (e', r) ->
      lsm_run w (with_engine l e')
        (extend h (number_commits (e_commit_seq (l_engine l)) (committed tx ms r)))
  | lrun_group w l h batch io_w io_s e' sent r :
      lsm_run w l h -> e_commit_seq (l_engine l) + Z.of_nat (length batch) < OPEN_ENDED_TS ->
      Forall (fun req => Forall (fun m => blen (mutation_key m) < u32_max) (pw_mutations req)) batch ->
      flush_pending_batch (l_engine l) batch io_w io_s = (e', sent, r) ->
      lsm_run w (with_engine l e')
        (extend h (number_commits (e_commit_seq (l_engine l)) (sent_txs sent)))
  | lrun_begin_read w l h :
      lsm_run w l h -> lsm_run w (with_engine l (begin_read (l_engine l)).1) h
  | lrun_unpin w l h s :
      lsm_run w l h -> lsm_run w (with_engine l (unpin_snapshot (l_engine l) s)) h
  | lrun_register w l h schemas :
      lsm_run w l h -> lsm_run w (with_schemas l schemas) h
  | lrun_sync w l h io :
      lsm_run w l h -> lsm_run w (with_engine l (background_sync (l_engine l) io)) h
  | lrun_gc w l h :
      lsm_run w l h -> versions_count (mt_map (mem l)) <= u64_max ->
      lsm_run (Z.max w (engine_watermark (l_engine l)))
        (with_engine l (engine_garbage_collect (l_engine l)).1) h
  | lrun_flush w l h io l' r :
      lsm_run w l h -> vs_next_file_id (version_set l) < u64_max -> is_u64 (io_now io) ->
      io_man_w io = IoOk -> io_man_s io = IoOk -> flush l io = Some (l', Ok r) -> lsm_run w l' h
  | lrun_compact w l h src tgt io l' r :
      lsm_run w l h -> vs_next_file_id (version_set l) + 1 < u64_max -> is_u32 tgt -> is_u64 (io_now io) ->
      io_man_w io = IoOk -> io_man_s io = IoOk -> compact l src tgt io = Some (l', Ok r) ->
      lsm_run (Z.max w (engine_watermark (l_engine l))) l' h
  | lrun_sub_compact w l h src tgt watermark io l' r :
      lsm_run w l h ->
      vs_next_file_id (version_set l) + Z.of_nat (length (file_ids (version_set l))) < u64_max ->
      is_u32 tgt -> is_u64 (io_now io) -> io_man_w io = IoOk -> io_man_s io = IoOk ->
      sub_compact l src tgt watermark io = Some (l', Ok r) -> lsm_run (Z.max w watermark) l' h.

Lemma committed_keys_ok tx ms r :
  Forall (fun m => blen (mutation_key m) < u32_max) ms -> keys_ok (committed tx ms r).
Proof. intros Hk. destruct r; by repeat constructor. Qed.

Lemma lsm_rep_new l :
  man_open None IoOk = Some (Ok (l_manifest l)) -> e_memtable (l_engine l) = mt_default ->
  1 <= e_commit_seq (l_engine l) < OPEN_ENDED_TS -> lsm_rep 0 l (fun _ => ∅).
Proof.
  intros Hman Hm Hq. pose proof (man_reach_inv _ (reach_create _ Hman)) as Hinv.
  destruct mt_default_ok as (Hi & Hmap & _). cbn in Hman. injection Hman as Hman.
  assert (Hno : forall f, ~ live l f) by (intros f [lv Hl]; unfold version_set in Hl; by rewrite <- Hman in Hl).
  split.
  - unfold mem. by rewrite Hm.
  - done.
  - by intros f ?%Hno.
  - unfold mem. rewrite Hm, Hmap. split; [apply table_wf_nil| | | |].
    + intros k u e. unfold key_history. cbn. by rewrite lookup_empty.
    + intros k b e v (f & _ & _ & ?%Hno & _). done.
    + intros k s t v _ _ (Ht & _). by rewrite lookup_empty in Ht.
    + intros k u b e v _ (f & _ & _ & ?%Hno & _). done.
  - lia.
  - by intros f rows ?%Hno.
  - intros k u [x Hx]. by rewrite lookup_empty in Hx.
Qed.

Lemma lsm_run_rep w l h : lsm_run w l h -> lsm_rep w l h.
Proof.
  induction 1 as [l Hman Hm Hq|w l h ms th io_w io_s e' r _ IH Hb Hk Hw
    |w l h tx ms th io_w io_s e' r _ IH Hb Hk Hw|w l h batch io_w io_s e' sent r _ IH Hb Hk Hf
    |w l h _ IH|w l h s _ IH|w l h schemas _ IH|w l h io _ IH|w l h _ IH Hv|w l h io l' r _ IH Hn Hnow Hiw His Hf
    |w l h src tgt io l' r _ IH Hn Ht Hnow Hiw His Hc|w l h src tgt wm io l' r _ IH Hn Ht Hnow Hiw His Hc].
  - by apply lsm_rep_new.
  - pose proof IH as []. apply lsm_rep_commit; [done| |by apply committed_keys_ok].
    by eapply engine_write_to; [..|exact Hw]; try lia.
  - pose proof IH as []. apply lsm_rep_commit; [done| |by apply committed_keys_ok].
    by eapply write_with_tx_to; [..|exact Hw]; try lia.
  - pose proof IH as []. destruct (flush_pending_to (l_engine l) batch io_w io_s e' sent r) as [Hc Hin];
      [done|lia|lia|done|].
    apply lsm_rep_commit; [done|done|]. apply List.Forall_forall. intros t Ht.
    destruct (Hin t Ht) as (req & Hreq & ->). rewrite List.Forall_forall in Hk. by apply Hk.
  - by apply lsm_rep_idle.
  - destruct (unpin_same (l_engine l) s) as (_ & ? & ? & _). by apply lsm_rep_idle.
  - by destruct IH.
  - by apply lsm_rep_idle.
  - by apply lsm_rep_gc.
  - by eapply lsm_rep_flush.
  - by eapply lsm_rep_compact.
  - by eapply lsm_rep_sub_compact.
Qed.

(** C8: the tree reads its commit history.  After any run of writes, group
    commits, flushes, compactions (whole levels, or chunks merged apart) and
    collections, a scan at any snapshot not before the latest collection succeeds
    and returns, sorted by key, for every key of a table that is not dropped,
    exactly the value of the newest commit at or before the snapshot (a tombstone
    as [None]), wherever its versions are stored. *)
Theorem lsm_scan_exact (w : TxnTs) (l : Lsm) (h : bytes -> values) (s : TxnTs) :
  lsm_run w l h -> w <= s -> s < OPEN_ENDED_TS ->
  exists out, scan_all l s = Ok out /\ StronglySorted clt (map fst out) /\
    forall k val, is_dropped_prefix l k = false ->
      In (k, val) out <-> exists t, newest (h k) s t val.
Proof. intros Hrun. apply scan_all_rep. by apply lsm_run_rep. Qed.
End Refinement.

(** ** A run with a flush and a compaction *)

#[local] Existing Instance no_sse42.

#[local] Existing Instance list_vortex.
#[local] Existing Instance list_vortex_laws.
#[local] Existing Instance column_ord.

Abbreviation SampleLsm := (Lsm (T := BTreeMapTable) (H := unit)).

Definition all_ok : LsmIo := mkLsmIo (fun _ => Ok tt) IoOk IoOk rw_all_ok IoOk IoOk (fun _ => Ok tt) 7.
Definition sst_fails : LsmIo :=
  mkLsmIo (fun _ => Err (Io "disk full")) IoOk IoOk rw_all_ok IoOk IoOk (fun _ => Ok tt) 7.

Definition new_lsm : SampleLsm := mkLsm opened_sample man_empty [] [] 0 [] 1000000 [].
Definition put (l : SampleLsm) (k v : bytes) : SampleLsm :=
  with_engine l (engine_write (l_engine l) [MPut k v] ThrottleNone IoOk IoOk).1.

Definition after {A} (l : SampleLsm) (r : option (SampleLsm * A)) : SampleLsm :=
  match r with Some (l', _) => l' | None => l end.

Definition put_lsm : SampleLsm := Eval vm_compute in put new_lsm [x61] [x31].
Definition flushed_lsm : SampleLsm := Eval vm_compute in after put_lsm (flush put_lsm all_ok).
Definition put2_lsm : SampleLsm := Eval vm_compute in put flushed_lsm [x61] [x32].
Definition flushed2_lsm : SampleLsm := Eval vm_compute in after put2_lsm (flush put2_lsm all_ok).
Definition compacted_lsm : SampleLsm := Eval vm_compute in after flushed2_lsm (compact flushed2_lsm 0 1 all_ok).

Definition sample_history : bytes -> values :=
  extend (extend (fun _ => ∅) (number_commits 1 [(1, [MPut [x61] [x31]])])) (number_commits 2 [(2, [MPut [x61] [x32]])]).

Lemma sample_lsm_run : lsm_run 2 compacted_lsm sample_history.
Proof.
  assert (Hnow : is_u64 (io_now all_ok)) by (vm_compute; split; congruence).
  assert (H1 : lsm_run 0 put_lsm (extend (fun _ => ∅) (number_commits 1 [(1, [MPut [x61] [x31]])]))).
  { refine (lrun_write 0 new_lsm _ [MPut [x61] [x31]] ThrottleNone IoOk IoOk _ (Ok 1) _ _ _ _).
    - by apply lrun_new.
    - done.
    - by repeat constructor.
    - vm_compute. reflexivity. }
  assert (F1 : flush put_lsm all_ok = Some (flushed_lsm, Ok (Some (mkHandle 0 [x61] [x61] 1 1))))
    by vm_cast_no_check (eq_refl (Some (flushed_lsm, Ok (E := EngineError) (Some (mkHandle 0 [x61] [x61] 1 1))))).
  pose proof (lrun_flush 0 put_lsm _ all_ok _ _ H1 eq_refl Hnow eq_refl eq_refl F1) as H2.
  assert (H3 : lsm_run 0 put2_lsm sample_history).
  { refine (lrun_write 0 flushed_lsm _ [MPut [x61] [x32]] ThrottleNone IoOk IoOk _ (Ok 2) H2 _ _ _).
    - done.
    - by repeat constructor.
    - vm_compute. reflexivity. }
  assert (F2 : flush put2_lsm all_ok = Some (flushed2_lsm, Ok (Some (mkHandle 1 [x61] [x61] 1 1))))
    by vm_cast_no_check (eq_refl (Some (flushed2_lsm, Ok (E := EngineError) (Some (mkHandle 1 [x61] [x61] 1 1))))).
  pose proof (lrun_flush 0 put2_lsm _ all_ok _ _ H3 eq_refl Hnow eq_refl eq_refl F2) as H4.
  assert (F3 : compact flushed2_lsm 0 1 all_ok = Some (compacted_lsm, Ok (Some (mkHandle 2 [x61] [x61] 1 1))))
    by vm_cast_no_check (eq_refl (Some (compacted_lsm, Ok (E := EngineError) (Some (mkHandle 2 [x61] [x61] 1 1))))).
  refine (lrun_compact 0 flushed2_lsm _ 0 1 all_ok _ _ H4 eq_refl _ Hnow eq_refl eq_refl F3).
  vm_compute. split; congruence.
Qed.

Lemma lsm_scan_exact_witness :
  exists out, scan_all compacted_lsm 5 = Ok out /\
    (In ([x61], Some [x32]) out <-> exists t, newest (sample_history [x61]) 5 t (Some [x32])).
Proof.
  destruct (lsm_scan_exact 2 compacted_lsm sample_history 5 sample_lsm_run) as (out & Ho & _ & Hk).
  - lia.
  - reflexivity.
  - exists out. split; [exact Ho|]. apply Hk. reflexivity.
Defined.

(** *** What a flush does to concurrent and failed work *)

(** A commit between the two halves of a flush is cleared from the memtable with
    the rows that were flushed: the scan finds the old value only. *)
Lemma flush_race_loses_commit :
  let '(drained, rows) := flush_drain put_lsm in
  let raced := put drained [x61] [x32] in
  scan_all raced 2 = Ok [([x61], Some [x32])] /\
  scan_all (after raced (flush_sst_locked raced rows all_ok)) 2 = Ok [([x61], Some [x31])].
Proof. vm_compute. split; reflexivity. Qed.

(** When the SST cannot be written the drained rows are gone from reads. *)
Lemma failed_flush_hides_rows :
  scan_all put_lsm 1 = Ok [([x61], Some [x31])] /\
  snd <$> flush put_lsm sst_fails = Some (Err (Io "disk full")) /\
  scan_all (after put_lsm (flush put_lsm sst_fails)) 1 = Ok [].
Proof. vm_compute. repeat split; reflexivity. Qed.
