(* ===== verification/LsmReads.v ===== *)
(** * Range scans and point lookups of the tree

    [scan_range] prunes files by the bounds in the manifest and filters inside each
    file; [get] ([hatp-engine/src/lib.rs]) goes through the candidate files of a key
    with their bloom filters and key indexes.  Both read the same history as the
    full scan. *)

From Stdlib Require Import Strings.String Sorting.Sorted.
From stdpp Require Import base tactics list option gmap.
From S2P Require Import Prelude OrdMap Types Version Crc32c Wal MemTable MemTableProps TxManager Codec Bloom KeyIndex Arrow RowCodec ColumnPredicate Manifest Compaction Engine Snapshots Sst SstProps Lsm LsmProps.
#[local] Open Scope Z_scope.

(** A chain has at most one version visible to a snapshot. *)
Lemma find_visible_unique up c s v :
  chain_wf_from up c -> v ∈ c -> sees s v = true -> find_visible s c = Some v.
Proof.
  revert up. induction c as [|x c IH]; intros up; [by intros _ ?%not_elem_of_nil|].
  intros (Hx & Hb & Hwf) [->|Hin]%elem_of_cons Hv; cbn; [by rewrite Hv|].
  pose proof (proj1 (Forall_forall _ _) (chain_wf_ends _ _ Hwf) v Hin) as Hle. cbn in Hle.
  destruct (sees s x) eqn:E; [|by eapply IH]. unfold sees, visible_at in *. zbool. lia.
Qed.

Section Reads.
Context {hw : Crc32Hw} {T H : Type} `{MemTableBackend T} `{EngineHook H} `{!MemTableLaws T}.
Context `{VortexLib} `{!VortexLaws} `{ScalarOrd}.
#[local] Abbreviation Lsm := (Lsm (T := T) (H := H)).

(** ** Range scans *)

Lemma push_visible_found keep s (m : omap bytes VersionChain) k v :
  om_sorted m ->
  In (k, v) (push_visible keep s m) <->
  keep k = true /\ exists c, om_get k m = Some c /\ find_visible s c = Some v.
Proof.
  intros Hs. rewrite push_visible_In by done. setoid_rewrite <- chain_get_find.
  destruct (om_get k m) as [c|]; cbn; split; intros [Hk Hv]; (split; [done|]); [by exists c| |done|by destruct Hv as (? & ? & _)].
  by destruct Hv as (? & [= <-] & ?).
Qed.

Lemma pruned_no_rows (l : Lsm) lower upper f rows r :
  file_ok (version_set l) f rows -> pruned (version_set l) lower upper f = true -> In r rows ->
  in_range lower upper (row_key r) = false.
Proof.
  intros (_ & [[[mn mx] nb] ca] & Hm & Hc) Hp Hin. unfold pruned in Hp. rewrite Hm in Hp.
  destruct (Hc r Hin) as [Hlo Hhi]. destruct mn as [|b mn]; [done|]. destruct mx as [|b' mx]; [done|].
  destruct Hhi as [|Hhi]; [done|]. unfold in_range.
  destruct (lec lower (row_key r)) eqn:E1; [|done]. destruct (ltc (row_key r) upper) eqn:E2; [|done].
  apply orb_true_iff in Hp as [Hp|Hp]; cbool; exfalso.
  - eapply clt_irrefl, cle_lt_trans; [exact E1|]. by eapply cle_lt_trans.
  - eapply clt_irrefl, clt_le_trans; [exact E2|]. by eapply cle_trans.
Qed.

(** The scan of the files collects their visible rows in the range. *)
Lemma scan_range_files_ok (l : Lsm) lower upper s ids vis S :
  (forall f, In f ids -> exists rows, file_rows l f rows /\ file_ok (version_set l) f rows) -> collects vis S ->
  exists vis', scan_range_files l lower upper s ids vis = Some (Ok vis') /\
    collects vis' (fun k v => S k v \/
      in_files l ids (fun r => in_range lower upper (row_key r) && sees s (row_version r)) k v).
Proof.
  revert vis S. induction ids as [|f ids IH]; intros vis S Hids Hc; cbn [scan_range_files].
  - exists vis. split; [done|]. eapply collects_ext; [|exact Hc]. intros k v. split; [by left|].
    by intros [?|(? & ? & ? & [] & _)].
  - destruct (Hids f (or_introl eq_refl)) as (rows & Hr & Hok). pose proof Hr as (file & Hg & Hh).
    destruct (pruned _ _ _ f) eqn:Hp.
    + destruct (IH vis S (fun f Hf => Hids f (or_intror Hf)) Hc) as (vis' & Ho & Hc').
      exists vis'. split; [exact Ho|]. eapply collects_ext; [|exact Hc']. intros k v.
      rewrite (in_files_cons l f ids _ k v rows Hr). split; [tauto|].
      intros [?|[(r & Hin & [Hpr _] & _)|?]]; [tauto| |tauto].
      by rewrite (pruned_no_rows l lower upper f rows r Hok Hp Hin) in Hpr.
    + rewrite Hg. unfold scan_with_filter. cbn [default map List.filter].
      rewrite (sst_scan_holds _ _ _ _ _ Hh). cbn [ubind].
      set (kept := List.filter _ rows). rewrite (fold_skip (fun row => is_dropped_prefix l (row_key row))).
      destruct (IH _ _ (fun f Hf => Hids f (or_intror Hf))
                  (collects_fold row_key row_version (fun row => negb (is_dropped_prefix l (row_key row)))
                    kept vis S Hc)) as (vis' & Ho & Hc').
      exists vis'. split; [exact Ho|]. eapply collects_ext; [|exact Hc']. intros k v.
      rewrite (in_files_cons l f ids _ k v rows Hr). unfold kept. setoid_rewrite filter_In.
      setoid_rewrite negb_true_iff. split.
      * intros [[?|(r & [? ?] & ? & ?)]|?]; [tauto| |tauto]. right. left. exists r. tauto.
      * intros [?|[(r & ? & [? ?] & ?)|?]]; [tauto| |tauto]. left. right. exists r. tauto.
Qed.

Lemma mem_visible (l : Lsm) s k v c :
  mt_inv (mem l) -> om_get k (mt_map (mem l)) = Some c ->
  find_visible s c = Some v <-> v ∈ c /\ sees s v = true.
Proof.
  intros Hi Hg. destruct (mt_map_wf _ Hi) as [_ Hwf]. split; [apply find_visible_elem|].
  intros [Hin Hv]. by eapply find_visible_unique; [apply (Hwf _ _ Hg)|..].
Qed.

Lemma scan_range_rep w (l : Lsm) h lower upper s :
  lsm_rep w l h -> cle lower upper -> w <= s -> s < OPEN_ENDED_TS ->
  exists out, scan_range l lower upper s = Some (Ok out) /\ StronglySorted clt (map fst out) /\
    forall k v, is_dropped_prefix l k = false ->
      In (k, v) out <-> in_range lower upper k = true /\ exists t, newest (h k) s t (Some v).
Proof.
  intros Hrep Hlu Hw Hs. pose proof (lr_man _ _ _ Hrep) as Hman. pose proof (lr_mem _ _ _ Hrep) as Hmem.
  destruct (mt_map_wf _ Hmem) as [Hsort _].
  unfold scan_range. fold (mem l). rewrite (mt_scan_range_ok _ _ _ _ Hmem Hlu). cbn [mbind option_bind].
  set (rows := push_visible (in_range lower upper) (mkSnapshot s) (mt_map (mem l))).
  pose proof (collects_fold fst snd (fun _ => true) rows [] _ collects_nil) as Hc0.
  destruct (scan_range_files_ok l lower upper (mkSnapshot s) (file_ids (version_set l)) _ _
    (fun f Hf => let Hl := proj1 (file_ids_live l f Hman) Hf in
       match lr_disk _ _ _ Hrep f Hl with
       | ex_intro _ rows Hr => ex_intro _ rows (conj Hr (lr_files _ _ _ Hrep f rows Hl Hr)) end) Hc0)
    as (vis & Ho & Hc). rewrite Ho. cbn [ubind]. eexists. split; [done|].
  pose proof (cl_sorted _ _ Hc) as Hvs.
  assert (Hin : forall k v, In (k, v) (List.flat_map (fun '(key, version) =>
      match value version with Some v => [(key, v)] | None => [] end) vis) <->
    exists x, om_get k vis = Some x /\ value x = Some v).
  { intros k v. rewrite in_flat_map. split.
    - intros ([k' x] & Hx & Hv). destruct (value x) as [v'|] eqn:E; [|done]. destruct Hv as [[= -> ->]|[]].
      exists x. split; [by apply om_In_get|done].
    - intros (x & Hg & Hv). exists (k, x). split; [by apply om_get_In|]. rewrite Hv. by left. }
  split.
  - clear -Hvs. unfold om_sorted, om_keys in Hvs. induction vis as [|[k x] vis IH]; cbn; [constructor|].
    apply StronglySorted_inv in Hvs as [Hvs Hall]. destruct (value x); cbn; [|by apply IH].
    constructor; [by apply IH|]. rewrite List.Forall_forall in Hall |- *.
    intros k' ([k0 v0] & <- & ([k1 x1] & Hx & Hv)%in_flat_map)%in_map_iff. cbn.
    destruct (value x1); [|done]. destruct Hv as [[= -> _]|[]]. apply Hall. apply in_map_iff. by exists (k0, x1).
  - intros k v Hdrop. rewrite Hin. destruct (in_range lower upper k) eqn:Hk.
    + rewrite (rep_reads w l h k s vis _ Hrep Hw Hs Hc); [by split; [split|intros [_ ?]]|].
      intros x. split.
      * intros [[[]|([k' x'] & Hr & _ & <- & <-)]|(f & rs & r & Hf & Hr & Hr' & Hp & _ & <- & <-)].
        -- left. apply push_visible_found in Hr as (_ & c & Hg & Hv); [|done]. exists c.
           split; [done|]. by apply (mem_visible l _ k' x' c Hmem Hg).
        -- right. apply file_ids_live in Hf; [|done]. apply andb_true_iff in Hp as [_ Hp]. by exists f, rs, r.
      * intros [(c & Hg & Hx)|(f & rs & r & Hf & Hr & Hr' & <- & <- & Hv)].
        -- left. right. exists (k, x). split; [|done]. apply push_visible_found; [done|]. split; [done|].
           exists c. split; [done|]. by apply (mem_visible l _ k x c Hmem Hg).
        -- right. exists f, rs, r. rewrite file_ids_live by done. rewrite Hk, Hv. done.
    + split; [|by intros [? _]]. intros (x & Hg & _).
      destruct (cl_newest _ _ Hc k x Hg) as [[[[]|([k' x'] & Hr & _ & <- & <-)]|(f & rs & r & _ & _ & _ & Hp & _ & <- & _)] _].
      * apply push_visible_found in Hr as [Hr _]; [|done]. cbn in Hk. by rewrite Hk in Hr.
      * by rewrite Hk in Hp.
Qed.

(** C9: range scans are exact. After any run (commits, group commits, collections,
    flushes and compactions, each a whole step, the last two successful), a scan of
    [\[lower, upper)], with the lower bound not after the upper one, at a snapshot
    not before the latest collection, skips files by their recorded bounds, filters
    inside the others, and returns, sorted by key, for every key of a table that is
    not dropped exactly the value of the newest commit at or before the snapshot,
    when the key is in the range and that commit was not a delete. *)
Theorem lsm_range_scan_exact (w : TxnTs) (l : Lsm) (h : bytes -> values) (lower upper : bytes) (s : TxnTs) :
  lsm_run w l h -> cle lower upper -> w <= s -> s < OPEN_ENDED_TS ->
  exists out, scan_range l lower upper s = Some (Ok out) /\ StronglySorted clt (map fst out) /\
    forall k v, is_dropped_prefix l k = false ->
      In (k, v) out <-> in_range lower upper k = true /\ exists t, newest (h k) s t (Some v).
Proof. intros Hrun. apply scan_range_rep. by apply lsm_run_rep. Qed.
End Reads.

#[local] Existing Instance no_sse42.
#[local] Existing Instance list_vortex.
#[local] Existing Instance list_vortex_laws.
#[local] Existing Instance column_ord.

Lemma lsm_range_scan_exact_witness :
  exists out, scan_range compacted_lsm [x61] [x62] 5 = Some (Ok out) /\
    (In ([x61], [x32]) out <-> in_range [x61] [x62] [x61] = true /\ exists t, newest (sample_history [x61]) 5 t (Some [x32])).
Proof.
  destruct (lsm_range_scan_exact 2 compacted_lsm sample_history [x61] [x62] 5 sample_lsm_run) as (out & Ho & _ & Hk).
  - vm_compute. congruence.
  - lia.
  - reflexivity.
  - exists out. split; [exact Ho|]. apply Hk. reflexivity.
Defined.
