(* ===== verification/GroupCommit.v ===== *)
(** * The group-commit queue ([hatp-engine/src/lib.rs], [write_with_tx_sync])

    Concurrent writers share a queue of pending requests and one write guard.  A
    writer that finds the queue empty commits alone; otherwise it queues its
    request, takes the guard, and either finds its result in its channel, another
    writer having served it, or drains the queue and commits everything in it
    together.  Each atomic action of a writer (a lock, a look at the queue, a send,
    a receive, a commit under the guard) is one step; the steps of the writers
    interleave freely.  Requests carry distinct transaction ids, which name the
    writers and their channels. *)

From Stdlib Require Import Strings.String.
From stdpp Require Import base tactics list option sets fin_maps gmap.
From S2P Require Import Prelude OrdMap Types Version Crc32c Wal MemTable MemTableProps TxManager Compaction Engine Sst Lsm LsmProps.
#[local] Open Scope Z_scope.

(** Where a writer is in [write_with_tx_sync]. *)
Inductive Pc :=
| CheckQueue                     (** the first look at the queue *)
| FastLock                       (** waiting for the guard, to commit alone *)
| FastCheck                      (** the second look, under the guard *)
| FastCommit
| Push
| LockGuard                      (** queued, waiting for the guard *)
| TryRecv
| Drain
| Recv (flushed : Result unit)   (** the result of [flush_pending_batch] *)
| Returned (result : Result TxnTs).

Record Writer := mkWriter { w_req : PendingWrite; w_pc : Pc }.

#[local] Abbreviation Sent := (list (PendingWrite * Result TxnTs)).

Section Queue.
Context {hw : Crc32Hw} {T H : Type} `{MemTableBackend T} `{EngineHook H}.
#[local] Abbreviation Eng := (Engine (T := T) (H := H)).

(** [s_log] records every request served with its outcome, in order. *)
Record Sys := mkSys {
  s_engine : Eng;
  s_pending : list PendingWrite;
  s_guard : option Z;
  s_chans : gmap Z (Result TxnTs);
  s_writers : gmap Z Writer;
  s_log : Sent;
}.

Definition set_pc (S : Sys) (id : Z) (pc : Pc) : Sys :=
  mkSys (s_engine S) (s_pending S) (s_guard S) (s_chans S) (alter (fun wr => mkWriter (w_req wr) pc) id (s_writers S)) (s_log S).
Definition set_guard (S : Sys) (g : option Z) : Sys :=
  mkSys (s_engine S) (s_pending S) g (s_chans S) (s_writers S) (s_log S).
Definition push_pending (S : Sys) (req : PendingWrite) : Sys :=
  mkSys (s_engine S) (s_pending S ++ [req]) (s_guard S) (s_chans S) (s_writers S) (s_log S).
Definition take_chan (S : Sys) (id : Z) : Sys :=
  mkSys (s_engine S) (s_pending S) (s_guard S) (delete id (s_chans S)) (s_writers S) (s_log S).

(** The results sent to the channels of their requests. *)
Definition send_all (chans : gmap Z (Result TxnTs)) (sent : Sent) : gmap Z (Result TxnTs) :=
  fold_left (fun c p => <[pw_tx_id p.1 := p.2]> c) sent chans.

(** The engine after a commit that served [sent] from the queue. *)
Definition served_alone (S : Sys) (e : Eng) (req : PendingWrite) (r : Result TxnTs) : Sys :=
  mkSys e (s_pending S) (s_guard S) (s_chans S) (s_writers S) (s_log S ++ [(req, r)]).
Definition served_queue (S : Sys) (e : Eng) (sent : Sent) : Sys :=
  mkSys e [] (s_guard S) (send_all (s_chans S) sent) (s_writers S) (s_log S ++ sent).

(** The next action of writer [id]; [None] when it waits or has returned. *)
Definition writer_step (S : Sys) (id : Z) (io_w io_s : IoOutcome) : option Sys :=
  wr ← s_writers S !! id;
  let req := w_req wr in
  match w_pc wr with
  | CheckQueue => Some (set_pc S id (match s_pending S with [] => FastLock | _ => Push end))
  | FastLock =>
      match s_guard S with
      | None => Some (set_pc (set_guard S (Some id)) id FastCheck)
      | Some _ => None
      end
  | FastCheck =>
      match s_pending S with
      | [] => Some (set_pc S id FastCommit)
      | _ => Some (set_pc (set_guard S None) id Push)
      end
  | FastCommit =>
      let '(e, r) := commit_single (s_engine S) (pw_tx_id req) (pw_mutations req) io_w io_s in
      Some (set_pc (set_guard (served_alone S e req r) None) id (Returned r))
  | Push => Some (set_pc (push_pending S req) id LockGuard)
  | LockGuard =>
      match s_guard S with
      | None => Some (set_pc (set_guard S (Some id)) id TryRecv)
      | Some _ => None
      end
  | TryRecv =>
      match s_chans S !! id with
      | Some r => Some (set_pc (set_guard (take_chan S id) None) id (Returned r))
      | None => Some (set_pc S id Drain)
      end
  | Drain =>
      match s_pending S with
      | [] => Some (set_pc S id (Recv (Ok tt)))
      | batch =>
          let '(e, sent, r) := flush_pending_batch (s_engine S) batch io_w io_s in
          Some (set_pc (served_queue S e sent) id (Recv r))
      end
  | Recv flushed =>
      match s_chans S !! id with
      | None => None
      | Some r =>
          Some (set_pc (set_guard (take_chan S id) None) id
                  (Returned (match flushed with Err err => Err err | Ok _ => r end)))
      end
  | Returned _ => None
  end.

(** [write_with_tx] up to the queue: the id is reserved and the throttle passed. *)
Definition enter (S : Sys) (tx : Z) (ms : list Mutation) : Sys :=
  let e := s_engine S in
  let target := saturating_add tx 1 in
  mkSys (if e_next_tx_id e <? target then with_next_tx e target else e) (s_pending S) (s_guard S) (s_chans S)
    (<[tx := mkWriter (mkPending tx ms) CheckQueue]> (s_writers S)) (s_log S).

(** Writers that have queued their requests; the engine itself starts with none. *)
Definition start_queue (e0 : Eng) (reqs : list PendingWrite) : Sys :=
  mkSys e0 reqs None ∅ (list_to_map (map (fun q => (pw_tx_id q, mkWriter q LockGuard)) reqs)) [].

(** Runs: writers enter with ids of their own and take their steps in any order.
    The commit counter keeps room for all of them. *)
Inductive gc_reach (e0 : Eng) : Sys -> Prop :=
| gc_start reqs :
    NoDup (map pw_tx_id reqs) -> e_commit_seq e0 + Z.of_nat (length reqs) < OPEN_ENDED_TS -> gc_reach e0 (start_queue e0 reqs)
| gc_enter S tx ms :
    gc_reach e0 S -> s_writers S !! tx = None -> tx <> 0 -> ms <> [] ->
    e_commit_seq e0 + Z.of_nat (size (s_writers S)) + 1 < OPEN_ENDED_TS -> gc_reach e0 (enter S tx ms)
| gc_step S id io_w io_s S' :
    gc_reach e0 S -> writer_step S id io_w io_s = Some S' -> gc_reach e0 S'.
End Queue.

(** ** What one flush of the queue does *)

Section Flush.
Context {hw : Crc32Hw} {T H : Type} `{MemTableBackend T} `{EngineHook H} `{!MemTableLaws T}.
#[local] Abbreviation Eng := (Engine (T := T) (H := H)).

(** The commit timestamps of the requests that committed. *)
Definition stamps (sent : Sent) : list TxnTs := flat_map (fun p => match p.2 with Ok ts => [ts] | Err _ => [] end) sent.

Lemma stamps_app a b : stamps (a ++ b) = stamps a ++ stamps b.
Proof. apply flat_map_app. Qed.

Lemma stamps_err sent : Forall (fun p => is_ok p.2 = false) sent -> stamps sent = [].
Proof. induction 1 as [|[q r] sent Hr _ IH]; [done|]. unfold stamps in *. cbn [flat_map]. rewrite IH. by destruct r. Qed.

Lemma accepted_all h batch h' ok bad :
  accepted h batch = (h', ok, bad) -> Permutation (map fst bad ++ ok) batch.
Proof.
  revert h h' ok bad. induction batch as [|req batch IH]; intros h h' ok bad; cbn; [by intros [= <- <- <-]|].
  destruct (hook_pre_commit _ _ _) as [h1 r]. destruct (accepted h1 batch) as [[h2 ok2] bad2] eqn:E.
  specialize (IH _ _ _ _ E). destruct (hook_result r); intros [= <- <- <-]; cbn.
  - rewrite <- Permutation_middle. by constructor.
  - by constructor.
Qed.

Lemma apply_batch_stamps (e : Eng) reqs : forall sent e' ok,
  mt_inv (e_memtable e) -> 0 <= e_commit_seq e -> e_commit_seq e + Z.of_nat (length reqs) < OPEN_ENDED_TS ->
  apply_batch e reqs sent = (e', sent ++ ok, Ok tt) -> stamps ok = seqZ (e_commit_seq e) (Z.of_nat (length reqs)).
Proof.
  revert e. induction reqs as [|q reqs IH]; intros e sent e' ok Hi Hp Hb; cbn [apply_batch].
  - intros [= _ Hs]. symmetry in Hs. rewrite <- (app_nil_r sent) in Hs at 2. by apply app_inv_head in Hs as ->.
  - cbn [length] in Hb. destruct (apply_commit_ok e (pw_tx_id q) (pw_mutations q) Hi Hp ltac:(lia)) as (e1 & -> & Hi1 & _ & Hq1 & _).
    destruct (apply_batch_ok e1 reqs (sent ++ [(q, Ok (e_commit_seq e))])) as (e2 & ok2 & E & _); [done|lia|rewrite Hq1; lia|].
    rewrite E. intros [= <- Hs]. rewrite <- app_assoc in Hs. apply app_inv_head in Hs as <-. cbn [app stamps flat_map].
    fold (stamps ok2). cbn [snd]. rewrite (IH e1 _ _ _ Hi1 ltac:(lia) ltac:(lia) E), Hq1. cbn [length].
    rewrite (seqZ_cons (e_commit_seq e) (Z.of_nat (S (length reqs)))) by lia. f_equal. f_equal; lia.
Qed.

(** Every request of the queue gets one result, the engine commits exactly the
    requests told so, in order, and none of them when the flush fails. *)
Lemma flush_serves (e : Eng) batch io_w io_s e' sent r :
  mt_inv (e_memtable e) -> 0 <= e_commit_seq e -> e_commit_seq e + Z.of_nat (length batch) < OPEN_ENDED_TS ->
  flush_pending_batch e batch io_w io_s = (e', sent, r) ->
  Permutation (map fst sent) batch /\ commits_to e e' (sent_txs sent) /\
  stamps sent = seqZ (e_commit_seq e) (Z.of_nat (length (sent_txs sent))) /\
  forall err, r = Err err -> Forall (fun p => is_ok p.2 = false) sent.
Proof.
  intros Hi Hp Hb Hf. destruct (flush_pending_to e batch io_w io_s e' sent r Hi Hp Hb Hf) as [Hc _]. revert Hf.
  unfold flush_pending_batch. pose proof (pre_commit_accepted (e_hook e) batch) as Hpc.
  destruct (pre_commit_loop _ _ _ _ _ _) as [[[h b] passed] sent0].
  destruct (accepted (e_hook e) batch) as [[h2 ok] bad] eqn:Eacc. destruct Hpc as (-> & -> & ->).
  pose proof (accepted_length _ _ _ _ _ Eacc) as Hlen. pose proof (accepted_all _ _ _ _ _ Eacc) as Hperm.
  destruct (accepted_spec _ _ _ _ _ Eacc) as [Hbad _].
  destruct ok as [|q ok0] eqn:Eok.
  { intros [= <- <- <-]. rewrite app_nil_r in Hperm. split; [done|]. split; [done|].
    split; [|done]. by rewrite stamps_err, sent_txs_err. }
  rewrite <- Eok in *. destruct (match e_sync_mode _ with Full => _ | Group _ => _ end) as [w [n|err]].
  - destruct (apply_batch_ok (with_wal (with_hook e h2) w) ok bad) as (e2 & oks & E & Hfst & Hoks & _); [done|done|cbn; lia|].
    pose proof (apply_batch_stamps (with_wal (with_hook e h2) w) ok bad e2 oks Hi Hp ltac:(cbn; lia) E) as Hst.
    rewrite E. intros [= <- <- <-]. rewrite map_app, Hfst. split; [done|]. split; [done|]. split; [|done].
    rewrite stamps_app, sent_txs_app, stamps_err, sent_txs_err, (sent_txs_ok oks), Hfst by done. cbn [app].
    rewrite length_map. exact Hst.
  - intros [= <- <- <-].
    assert (Hall : Forall (fun p => is_ok p.2 = false) (bad ++ map (fun req => (req, Err (CorruptMessage "WAL append failed") : Result TxnTs)) ok))
      by (apply Forall_app; split; [done|]; by apply Forall_map, List.Forall_forall).
    rewrite map_app, map_map, map_id. split; [done|]. split; [done|]. split; [|done]. by rewrite stamps_err, sent_txs_err.
Qed.

Lemma commit_serves (e : Eng) tx ms io_w io_s e' r :
  mt_inv (e_memtable e) -> 0 <= e_commit_seq e -> e_commit_seq e + 1 < OPEN_ENDED_TS ->
  commit_single e tx ms io_w io_s = (e', r) ->
  commits_to e e' (sent_txs [(mkPending tx ms, r)]) /\
  stamps [(mkPending tx ms, r)] = seqZ (e_commit_seq e) (Z.of_nat (length (sent_txs [(mkPending tx ms, r)]))).
Proof.
  intros Hi Hp Hb Hc. split; [by eapply commit_single_to in Hc; [destruct r|..]|]. destruct r as [ts|err]; [|done].
  revert Hc. unfold commit_single. destruct (hook_pre_commit _ _ _) as [h r0].
  destruct (if hook_is_noop then Ok tt else hook_result r0); [|done].
  destruct (match e_sync_mode (with_hook e h) with Full => _ | Group _ => _ end) as [w [n|err]]; [|done].
  destruct (apply_commit_ok (with_wal (with_hook e h) w) tx ms Hi Hp Hb) as (e2 & -> & _). by intros [= _ <-].
Qed.

Lemma commits_to_trans (e e1 e2 : Eng) a b : commits_to e e1 a -> commits_to e1 e2 b -> commits_to e e2 (a ++ b).
Proof.
  intros [Hi1 Hm1 Hq1 Hb1] [Hi2 Hm2 Hq2 Hb2]. split; [done| |rewrite length_app; lia|done].
  rewrite Hm2, Hm1, Hq1, number_commits_app. unfold commits_edits. rewrite flat_map_app. unfold apply_edits. by rewrite fold_left_app.
Qed.
End Flush.

(** ** The invariant *)

Section Invariant.
Context {hw : Crc32Hw} {T H : Type} `{MemTableBackend T} `{EngineHook H} `{!MemTableLaws T}.
#[local] Abbreviation Eng := (Engine (T := T) (H := H)).
#[local] Abbreviation Sys := (Sys (T := T) (H := H)).

Definition holding (pc : Pc) : bool :=
  match pc with FastCheck | FastCommit | TryRecv | Drain | Recv _ => true | _ => false end.

Definition queued (S : Sys) (id : Z) : Prop := id ∈ map pw_tx_id (s_pending S).
Definition log_ids (log : Sent) : list Z := map (fun p => pw_tx_id p.1) log.

(** Not yet handed over; in the queue; served, its result in its channel; done. *)
Definition fresh (S : Sys) (id : Z) : Prop := ~ queued S id /\ s_chans S !! id = None /\ id ∉ log_ids (s_log S).
Definition waiting (S : Sys) (id : Z) (wr : Writer) : Prop :=
  w_req wr ∈ s_pending S /\ s_chans S !! id = None /\ id ∉ log_ids (s_log S).
Definition answered (S : Sys) (id : Z) (wr : Writer) (o : Result TxnTs) : Prop :=
  ~ queued S id /\ s_chans S !! id = Some o /\ (w_req wr, o) ∈ s_log S.
Definition agrees (r o : Result TxnTs) : Prop := forall ts, r = Ok ts <-> o = Ok ts.
Definition finished (S : Sys) (id : Z) (wr : Writer) (r : Result TxnTs) : Prop :=
  ~ queued S id /\ s_chans S !! id = None /\ exists o, (w_req wr, o) ∈ s_log S /\ agrees r o.

Definition status (S : Sys) (id : Z) (wr : Writer) : Prop :=
  match w_pc wr with
  | CheckQueue | FastLock | FastCheck | FastCommit | Push => fresh S id
  | LockGuard | TryRecv => waiting S id wr \/ exists o, answered S id wr o
  | Drain => waiting S id wr
  | Recv flushed => exists o, answered S id wr o /\ forall err, flushed = Err err -> is_ok o = false
  | Returned r => finished S id wr r
  end.

Context (e0 : Eng).

(** The queue and the log name writers, each once; the engine is where the log
    leaves it. *)
Record queue_ok (S : Sys) : Prop := {
  qo_pending : NoDup (map pw_tx_id (s_pending S));
  qo_queued : forall id, queued S id -> is_Some (s_writers S !! id);
  qo_chans : forall id, is_Some (s_chans S !! id) -> is_Some (s_writers S !! id);
  qo_log : NoDup (log_ids (s_log S));
  qo_logged : forall id, id ∈ log_ids (s_log S) -> is_Some (s_writers S !! id);
  qo_engine : commits_to e0 (s_engine S) (sent_txs (s_log S));
  qo_stamps : stamps (s_log S) = seqZ (e_commit_seq e0) (Z.of_nat (length (sent_txs (s_log S))));
}.

Record gc_inv (S : Sys) : Prop := {
  gi_writer : forall id wr, s_writers S !! id = Some wr -> pw_tx_id (w_req wr) = id /\ status S id wr;
  gi_holds : forall id wr, s_writers S !! id = Some wr -> (holding (w_pc wr) = true <-> s_guard S = Some id);
  gi_holder : forall id, s_guard S = Some id -> is_Some (s_writers S !! id);
  gi_queue : queue_ok S;
  gi_room : e_commit_seq e0 + Z.of_nat (size (s_writers S)) < OPEN_ENDED_TS;
}.

Lemma queued_req (S : Sys) req : req ∈ s_pending S -> queued S (pw_tx_id req).
Proof. intros Hr. by apply (list_elem_of_fmap_2 pw_tx_id). Qed.

Lemma logged_req (req : PendingWrite) o (log : Sent) : (req, o) ∈ log -> pw_tx_id req ∈ log_ids log.
Proof. intros Hr. by apply (list_elem_of_fmap_2 (fun p : PendingWrite * Result TxnTs => pw_tx_id p.1)) in Hr. Qed.

(** What a writer's status depends on. *)
Record same_at (S S' : Sys) (id : Z) : Prop := {
  sa_queued : queued S' id <-> queued S id;
  sa_pending : forall req, pw_tx_id req = id -> req ∈ s_pending S' <-> req ∈ s_pending S;
  sa_chan : s_chans S' !! id = s_chans S !! id;
  sa_log : forall req o, pw_tx_id req = id -> (req, o) ∈ s_log S -> (req, o) ∈ s_log S';
  sa_logged : id ∈ log_ids (s_log S') <-> id ∈ log_ids (s_log S);
}.

Lemma status_frame (S S' : Sys) id wr :
  pw_tx_id (w_req wr) = id -> same_at S S' id -> status S id wr -> status S' id wr.
Proof.
  intros Hid [Hq Hp Hc Hl Hlg].
  assert (Hf : fresh S id -> fresh S' id) by (unfold fresh; by rewrite Hq, Hc, Hlg).
  assert (Hw : waiting S id wr -> waiting S' id wr) by (unfold waiting; by rewrite (Hp _ Hid), Hc, Hlg).
  assert (Ha : forall o, answered S id wr o -> answered S' id wr o)
    by (intros o (? & ? & ?); unfold answered; rewrite Hq, Hc; auto).
  unfold status. destruct (w_pc wr); try done.
  - intros [?|[o ?]]; [left|right; exists o]; auto.
  - intros [?|[o ?]]; [left|right; exists o]; auto.
  - intros (o & ? & ?). exists o. auto.
  - intros (? & ? & o & ? & ?). unfold finished. rewrite Hq, Hc. split; [done|]. split; [done|]. exists o. auto.
Qed.

Lemma same_at_refl (S S' : Sys) id :
  s_pending S' = s_pending S -> s_chans S' !! id = s_chans S !! id -> s_log S' = s_log S -> same_at S S' id.
Proof. intros Hp Hc Hl. unfold queued. split; unfold queued; by rewrite ?Hp, ?Hc, ?Hl. Qed.

(** A step of writer [id]: it moves to [pc], the others keep what they rely on. *)
Lemma inv_step (S S1 : Sys) id wr pc :
  gc_inv S -> s_writers S1 = s_writers S -> s_writers S !! id = Some wr ->
  (forall id' wr', id' <> id -> s_writers S !! id' = Some wr' -> status S id' wr' -> pw_tx_id (w_req wr') = id' -> status S1 id' wr') ->
  status S1 id (mkWriter (w_req wr) pc) ->
  (holding pc = true <-> s_guard S1 = Some id) -> (forall id', id' <> id -> s_guard S1 = Some id' <-> s_guard S = Some id') ->
  queue_ok S1 -> gc_inv (set_pc S1 id pc).
Proof.
  intros [Hw Hh Hg Hq Hr] Hws Hwr Hothers Hown Hpc Hguard Hq1.
  assert (Hlk : forall id', s_writers (set_pc S1 id pc) !! id' =
    if decide (id' = id) then Some (mkWriter (w_req wr) pc) else s_writers S !! id').
  { intros id'. cbn. rewrite Hws. case_decide as E; [subst; by rewrite lookup_alter_eq, Hwr|by rewrite lookup_alter_ne]. }
  assert (Hdom : forall id', is_Some (s_writers (set_pc S1 id pc) !! id') <-> is_Some (s_writers S1 !! id')).
  { intros id'. rewrite Hlk, Hws. case_decide; [subst; by rewrite Hwr|done]. }
  split.
  - intros id' wr'. rewrite Hlk. case_decide as E.
    + intros [= <-]. subst id'. split; [exact (proj1 (Hw id wr Hwr))|exact Hown].
    + intros Hwr'. destruct (Hw id' wr' Hwr') as [Hid Hst]. split; [done|]. by apply (Hothers id' wr').
  - intros id' wr'. rewrite Hlk. case_decide as E; [intros [= <-]; subst id'; exact Hpc|].
    intros Hwr'. cbn [set_pc s_guard]. rewrite (Hguard id' E). by apply Hh.
  - intros id'. cbn [set_pc s_guard]. intros Hg'. apply Hdom. rewrite Hws. destruct (decide (id' = id)) as [->|E]; [by rewrite Hwr|].
    apply Hg. by apply Hguard.
  - destruct Hq1. split; try done; intros id' Hid'; apply Hdom; auto.
  - cbn [set_pc s_writers]. rewrite Hws, <- (size_dom (D := gset Z)), dom_alter, size_dom. exact Hr.
Qed.

(** *** Channels *)

Lemma send_all_other (sent : Sent) : forall (c : gmap Z (Result TxnTs)) id, id ∉ log_ids sent -> send_all c sent !! id = c !! id.
Proof.
  induction sent as [|p sent IH]; intros c id Hid; [done|]. cbn in Hid. apply not_elem_of_cons in Hid as [Hne Hid].
  change (send_all (<[pw_tx_id p.1 := p.2]> c) sent !! id = c !! id). rewrite IH by done. by rewrite lookup_insert_ne.
Qed.

Lemma send_all_in (sent : Sent) req o : forall c : gmap Z (Result TxnTs),
  NoDup (log_ids sent) -> (req, o) ∈ sent -> send_all c sent !! pw_tx_id req = Some o.
Proof.
  induction sent as [|p sent IH]; intros c Hnd Hin; [by apply not_elem_of_nil in Hin|]. cbn in Hnd. apply NoDup_cons in Hnd as [Hni Hnd].
  change (send_all (<[pw_tx_id p.1 := p.2]> c) sent !! pw_tx_id req = Some o).
  apply elem_of_cons in Hin as [<-|Hin]; [|by apply IH]. rewrite send_all_other by done. apply lookup_insert_eq.
Qed.

(** *** Room for the commits *)

Lemma sent_txs_length (sent : Sent) : (length (sent_txs sent) <= length sent)%nat.
Proof. induction sent as [|[q [ts|err]] sent IH]; unfold sent_txs in *; cbn; lia. Qed.

Lemma ids_fit (S : Sys) (ids : list Z) :
  NoDup ids -> (forall id, id ∈ ids -> is_Some (s_writers S !! id)) -> (length ids <= size (s_writers S))%nat.
Proof.
  intros Hnd Hin. rewrite <- (size_dom (D := gset Z)), <- (size_list_to_set (C := gset Z) ids Hnd).
  apply subseteq_size. intros id Hid%elem_of_list_to_set. apply elem_of_dom. auto.
Qed.

Lemma commit_room (S : Sys) (ids : list Z) :
  gc_inv S -> NoDup ids -> (forall id, id ∈ ids -> is_Some (s_writers S !! id) /\ id ∉ log_ids (s_log S)) ->
  mt_inv (e_memtable (s_engine S)) /\ e_commit_seq e0 <= e_commit_seq (s_engine S) /\
  e_commit_seq (s_engine S) + Z.of_nat (length ids) < OPEN_ENDED_TS.
Proof.
  intros Hinv Hnd Hids. pose proof (gi_queue _ Hinv) as Hq. destruct (qo_engine _ Hq) as [Hi _ Hs _].
  pose proof (gi_room _ Hinv) as Hr. pose proof (sent_txs_length (s_log S)) as Hl.
  assert (Hfit : (length (log_ids (s_log S) ++ ids) <= size (s_writers S))%nat).
  { apply ids_fit.
    - apply NoDup_app. split; [apply (qo_log _ Hq)|]. split; [|done]. intros id Hlog Hid. by destruct (Hids id Hid).
    - intros id [Hid|Hid]%elem_of_app; [by apply (qo_logged _ Hq)|by apply Hids]. }
  rewrite length_app in Hfit. unfold log_ids in Hfit. rewrite length_map in Hfit. split; [done|]. rewrite Hs. lia.
Qed.

(** *** The steps *)

Context (Hi0 : mt_inv (e_memtable e0)) (Hq0 : 0 <= e_commit_seq e0) (Hb0 : e_commit_seq e0 < OPEN_ENDED_TS).

Lemma start_writer (reqs : list PendingWrite) id wr :
  NoDup (map pw_tx_id reqs) ->
  s_writers (start_queue e0 reqs) !! id = Some wr <-> exists q, q ∈ reqs /\ id = pw_tx_id q /\ wr = mkWriter q LockGuard.
Proof.
  intros Hnd. cbn. rewrite <- elem_of_list_to_map.
  - rewrite list_elem_of_In, in_map_iff. split; [intros (q & [= <- <-] & Hq%list_elem_of_In); by exists q|].
    intros (q & Hq & -> & ->). exists q. split; [done|]. by apply list_elem_of_In.
  - change (NoDup (map fst (map (fun q => (pw_tx_id q, mkWriter q LockGuard)) reqs))). by rewrite map_map.
Qed.

Lemma start_inv (reqs : list PendingWrite) :
  NoDup (map pw_tx_id reqs) -> e_commit_seq e0 + Z.of_nat (length reqs) < OPEN_ENDED_TS -> gc_inv (start_queue e0 reqs).
Proof.
  intros Hnd Hroom. split.
  - intros id wr (q & Hq & -> & ->)%start_writer; [|done]. split; [done|]. left. split; [done|]. split; [apply lookup_empty|by apply not_elem_of_nil].
  - by intros id wr (q & Hq & -> & ->)%start_writer.
  - done.
  - split; cbn -[queued].
    + done.
    + intros id (q & -> & Hq)%list_elem_of_fmap. exists (mkWriter q LockGuard). apply (start_writer reqs); [done|]. by exists q.
    + intros id. rewrite lookup_empty. by intros [].
    + by apply NoDup_nil.
    + by intros id ?%not_elem_of_nil.
    + by apply commits_to_none.
    + done.
  - cbn [start_queue s_writers]. rewrite map_size_list_to_map; [by rewrite length_map|].
    change (NoDup (map fst (map (fun q => (pw_tx_id q, mkWriter q LockGuard)) reqs))). by rewrite map_map.
Qed.

Lemma enter_inv S tx ms :
  gc_inv S -> s_writers S !! tx = None -> e_commit_seq e0 + Z.of_nat (size (s_writers S)) + 1 < OPEN_ENDED_TS -> gc_inv (enter S tx ms).
Proof.
  intros [Hw Hh Hg Hq Hr] Hnew Hroom. destruct Hq as [Hp Hpw Hc Hl Hlw He Hst].
  assert (Hsome : forall id, is_Some (s_writers S !! id) -> is_Some (s_writers (enter S tx ms) !! id)).
  { intros id Hid. cbn. rewrite lookup_insert. by case_decide. }
  assert (Hout : forall id, is_Some (s_writers S !! id) -> id <> tx) by (intros id [? Hx] ->; congruence).
  split.
  - intros id wr. cbn [enter s_writers]. rewrite lookup_insert. case_decide as E.
    + intros [= <-]. subst id. split; [done|]. split; [|split].
      * intros Hq. by apply (Hout tx); [apply Hpw|].
      * apply eq_None_not_Some. intros Hq. by apply (Hout tx); [apply Hc|].
      * intros Hq. by apply (Hout tx); [apply Hlw|].
    + intros Hwr. destruct (Hw id wr Hwr) as [Hid Hs]. split; [done|]. eapply status_frame; [done| |exact Hs]. by apply same_at_refl.
  - intros id wr. cbn [enter s_writers s_guard]. rewrite lookup_insert. case_decide as E; [|apply Hh].
    intros [= <-]. split; [done|]. intros Hgd. by apply Hg, Hout in Hgd.
  - intros id Hgd. by apply Hsome, Hg.
  - split; try done; [auto..|]. cbn [enter s_engine s_log]. destruct (_ <? _); [|done]. destruct He as [? Hm Hs Hb]. by split.
  - cbn [enter s_writers]. rewrite map_size_insert_None by done. lia.
Qed.

Lemma fresh_step (S S1 : Sys) id : s_pending S1 = s_pending S -> s_chans S1 = s_chans S -> s_log S1 = s_log S -> fresh S id -> fresh S1 id.
Proof. unfold fresh, queued. by intros -> -> ->. Qed.

(** Steps that touch neither the queue nor the channels. *)
Lemma inv_move (S : Sys) id wr g pc :
  gc_inv S -> s_writers S !! id = Some wr -> status S id (mkWriter (w_req wr) pc) ->
  (holding pc = true <-> g = Some id) -> (forall id', id' <> id -> g = Some id' <-> s_guard S = Some id') ->
  gc_inv (set_pc (set_guard S g) id pc).
Proof.
  intros Hinv Hwr Hst Hpc Hg. apply (inv_step S _ id wr); try done. by destruct (gi_queue _ Hinv).
Qed.

Lemma release_guard (S : Sys) id : s_guard S = Some id -> forall id', id' <> id -> None = Some id' <-> s_guard S = Some id'.
Proof. intros -> id' Hne. split; [done|]. intros [= ->]. done. Qed.

Lemma take_guard (S : Sys) id : s_guard S = None -> forall id', id' <> id -> Some id = Some id' <-> s_guard S = Some id'.
Proof. intros -> id' Hne. split; [|done]. intros [= ->]. done. Qed.

(** A writer that commits alone. *)
Lemma inv_alone (S : Sys) id wr io_w io_s e r :
  gc_inv S -> s_writers S !! id = Some wr -> w_pc wr = FastCommit ->
  commit_single (s_engine S) (pw_tx_id (w_req wr)) (pw_mutations (w_req wr)) io_w io_s = (e, r) ->
  gc_inv (set_pc (set_guard (served_alone S e (w_req wr) r) None) id (Returned r)).
Proof.
  intros Hinv Hwr Hpc Hc. destruct (gi_writer _ Hinv id wr Hwr) as [Hid Hst]. unfold status in Hst. rewrite Hpc in Hst.
  destruct Hst as (Hnq & Hch & Hnl). assert (Hg : s_guard S = Some id) by (apply (gi_holds _ Hinv id wr Hwr); by rewrite Hpc).
  destruct (commit_room S [id] Hinv) as (Hi & Hge & Hroom).
  { apply NoDup_singleton. }
  { intros id' ->%list_elem_of_singleton. by rewrite Hwr. }
  cbn [length] in Hroom. destruct (commit_serves _ _ _ _ _ _ _ Hi ltac:(lia) ltac:(lia) Hc) as [Hto Hstp].
  destruct (w_req wr) as [tx ms] eqn:Ereq. cbn [pw_tx_id pw_mutations] in Hid, Hto, Hstp. subst tx.
  pose proof (gi_queue _ Hinv) as [Hp Hpw Hcw Hl Hlw He Hsts].
  apply (inv_step S _ id wr); try done.
  - intros id' wr' Hne Hwr' Hs' Hid'. eapply status_frame; [exact Hid'| |exact Hs']. split; try done.
    + intros req o _ Hin. cbn. apply elem_of_app. by left.
    + cbn. unfold log_ids. rewrite map_app, elem_of_app. cbn. rewrite list_elem_of_singleton. split; [intros [?|?]; [done|congruence]|by left].
  - split; [done|]. split; [done|]. exists r. split; [|done]. cbn [w_req set_guard served_alone s_log]. rewrite Ereq.
    apply elem_of_app. right. by left.
  - by apply release_guard.
  - split; cbn [set_guard served_alone s_pending s_log s_engine s_writers s_chans]; try done.
    + unfold log_ids. rewrite map_app. apply NoDup_app. split; [done|]. split; [|apply NoDup_singleton].
      intros x Hx ->%list_elem_of_singleton. done.
    + intros x. unfold log_ids. rewrite map_app, elem_of_app. intros [Hx|Hx%list_elem_of_singleton]; [by apply Hlw|]. cbn in Hx. subst. by rewrite Hwr.
    + rewrite sent_txs_app. by eapply commits_to_trans.
    + rewrite stamps_app, sent_txs_app, Hsts, Hstp, length_app. pose proof (ct_seq _ _ _ He) as ->.
      rewrite Nat2Z.inj_add, seqZ_app by lia. done.
Qed.

(** A writer that serves the queue. *)
Lemma inv_queue (S : Sys) id wr io_w io_s e sent r :
  gc_inv S -> s_writers S !! id = Some wr -> w_pc wr = Drain ->
  flush_pending_batch (s_engine S) (s_pending S) io_w io_s = (e, sent, r) ->
  gc_inv (set_pc (served_queue S e sent) id (Recv r)).
Proof.
  intros Hinv Hwr Hpc Hf. pose proof (gi_queue _ Hinv) as [Hp Hpw Hcw Hl Hlw He Hsts].
  assert (Hwait : forall req, req ∈ s_pending S -> exists wr', s_writers S !! pw_tx_id req = Some wr' /\ waiting S (pw_tx_id req) wr').
  { intros req Hreq. destruct (Hpw (pw_tx_id req)) as [wr' Hwr']; [by apply queued_req|]. exists wr'. split; [done|].
    destruct (gi_writer _ Hinv _ _ Hwr') as [Hid' Hst']. apply queued_req in Hreq. unfold status in Hst'.
    destruct (w_pc wr'); try (by destruct Hst' as [Hn _]); try done.
    - destruct Hst' as [?|(o & Hn & _)]; [done|by destruct Hn].
    - destruct Hst' as [?|(o & Hn & _)]; [done|by destruct Hn].
    - destruct Hst' as (o & (Hn & _) & _). by destruct Hn. }
  destruct (commit_room S (map pw_tx_id (s_pending S)) Hinv Hp) as (Hi & Hge & Hroom).
  { intros id' (req & -> & Hreq)%list_elem_of_fmap. destruct (Hwait req Hreq) as (wr' & Hwr' & _ & _ & Hnl). by rewrite Hwr'. }
  rewrite length_map in Hroom. destruct (flush_serves _ _ _ _ _ _ _ Hi ltac:(lia) Hroom Hf) as (Hperm & Hto & Hstp & Herr).
  assert (Hids : Permutation (log_ids sent) (map pw_tx_id (s_pending S))).
  { unfold log_ids. rewrite <- (map_map fst pw_tx_id). by apply Permutation_map. }
  assert (Hnd : NoDup (log_ids sent)) by (by rewrite Hids).
  assert (Hserved : forall id' wr', pw_tx_id (w_req wr') = id' -> waiting S id' wr' ->
    exists o, answered (served_queue S e sent) id' wr' o /\ (w_req wr', o) ∈ sent).
  { intros id' wr' Hid' (Hin & _ & _). rewrite <- Hperm in Hin. apply list_elem_of_fmap in Hin as ([q o] & Hq & Hin). cbn in Hq.
    exists o. rewrite Hq. split; [|done]. split; [by intros ?%not_elem_of_nil|]. cbn [served_queue s_chans s_log].
    split; [|apply elem_of_app; right; by rewrite Hq]. rewrite <- Hid', Hq. by apply send_all_in. }
  assert (Hkept : forall id', ~ queued S id' -> same_at S (served_queue S e sent) id').
  { intros id' Hnq. assert (Hni : id' ∉ log_ids sent) by (by rewrite Hids). split; cbn [served_queue s_pending s_chans s_log].
    - split; [by intros ?%not_elem_of_nil|done].
    - intros req <-. split; [by intros ?%not_elem_of_nil|]. intros Hr. by apply queued_req in Hr.
    - by apply send_all_other.
    - intros req o _ Hin. apply elem_of_app. by left.
    - unfold log_ids. rewrite map_app, elem_of_app. split; [by intros [?|?]|by left]. }
  apply (inv_step S _ id wr); try done.
  - intros id' wr' Hne Hwr' Hs' Hid'. destruct (decide (id' ∈ map pw_tx_id (s_pending S))) as [Hq|Hq].
    + assert (Hwt : waiting S id' wr').
      { apply list_elem_of_fmap in Hq as (req & Hreq & Hin). destruct (Hwait req Hin) as (wr2 & Hwr2 & Hwt).
        rewrite <- Hreq, Hwr' in Hwr2. injection Hwr2 as <-. by rewrite Hreq. }
      destruct (Hserved id' wr' Hid' Hwt) as (o & Ha & _). destruct Hwt as (Hin & Hc & Hnl).
      assert (Hg : s_guard S = Some id) by (apply (gi_holds _ Hinv id wr Hwr); by rewrite Hpc).
      assert (Hnh : holding (w_pc wr') = false).
      { apply not_true_is_false. intros Hh%(gi_holds _ Hinv id' wr' Hwr'). congruence. }
      unfold status in Hs' |- *. destruct (w_pc wr'); try done; try (by destruct Hs' as [Hn _]). right. by exists o.
    + eapply status_frame; [exact Hid'| |exact Hs']. by apply Hkept.
  - destruct (gi_writer _ Hinv id wr Hwr) as [Hid Hst]. unfold status in Hst. rewrite Hpc in Hst.
    destruct (Hserved id wr Hid Hst) as (o & Ha & Hin). exists o. split; [exact Ha|]. intros err Hr.
    specialize (Herr err Hr). rewrite Forall_forall in Herr. apply (Herr _ Hin).
  - split; [intros _; cbn|done]. apply (gi_holds _ Hinv id wr Hwr). by rewrite Hpc.
  - split; cbn [served_queue s_pending s_log s_engine s_writers s_chans].
    + by apply NoDup_nil.
    + by intros x ?%not_elem_of_nil.
    + intros x. destruct (decide (x ∈ log_ids sent)) as [Hx|Hx]; [intros _; apply Hpw; unfold queued; by rewrite <- Hids|].
      rewrite send_all_other by done. apply Hcw.
    + unfold log_ids. rewrite map_app. apply NoDup_app. split; [done|]. split; [|done]. intros x Hx Hs. fold (log_ids sent) in Hs.
      rewrite Hids in Hs. apply list_elem_of_fmap in Hs as (req & -> & Hin). by destruct (Hwait req Hin) as (? & _ & _ & _ & Hnl).
    + intros x. unfold log_ids. rewrite map_app, elem_of_app. intros [Hx|Hx]; [by apply Hlw|]. apply Hpw. unfold queued. by rewrite <- Hids.
    + rewrite sent_txs_app. by eapply commits_to_trans.
    + rewrite stamps_app, sent_txs_app, Hsts, Hstp, length_app. pose proof (ct_seq _ _ _ He) as ->.
      rewrite Nat2Z.inj_add, seqZ_app by lia. done.
Qed.

(** A writer takes its result from its channel. *)
Lemma inv_receive (S : Sys) id wr o r :
  gc_inv S -> s_writers S !! id = Some wr -> s_guard S = Some id -> answered S id wr o -> agrees r o ->
  gc_inv (set_pc (set_guard (take_chan S id) None) id (Returned r)).
Proof.
  intros Hinv Hwr Hg (Hnq & Hch & Hin) Hr. pose proof (gi_queue _ Hinv) as [Hp Hpw Hcw Hl Hlw He Hsts].
  apply (inv_step S _ id wr); try done.
  - intros id' wr' Hne _ Hs Hid. eapply status_frame; [exact Hid| |exact Hs]. apply same_at_refl; [done| |done]. cbn. by rewrite lookup_delete_ne.
  - split; [exact Hnq|]. split; [apply lookup_delete_eq|]. by exists o.
  - by apply release_guard.
  - split; cbn [set_guard take_chan s_pending s_log s_engine s_writers s_chans]; try done. intros x [y [_ Hx]%lookup_delete_Some]. apply Hcw. by exists y.
Qed.

Lemma writer_step_inv S id io_w io_s S' : gc_inv S -> writer_step S id io_w io_s = Some S' -> gc_inv S'.
Proof.
  intros Hinv. unfold writer_step. destruct (s_writers S !! id) as [wr|] eqn:Hwr; [|done]. cbn [mbind option_bind].
  destruct (gi_writer _ Hinv id wr Hwr) as [Hid Hst]. pose proof (gi_holds _ Hinv id wr Hwr) as Hh. unfold status in Hst.
  assert (Hstay : set_guard S (s_guard S) = S) by (by destruct S).
  destruct (w_pc wr) as [| | | | | | | |flushed|res] eqn:Hpc; cbn [holding] in Hh.
  - intros [= <-]. rewrite <- Hstay at 1. apply (inv_move S id wr); [done|done| |by destruct (s_pending S)|done]. by destruct (s_pending S).
  - destruct (s_guard S) eqn:Hg; [done|]. intros [= <-]. apply (inv_move S id wr); [done..|]. by apply take_guard.
  - destruct (s_pending S); intros [= <-].
    + rewrite <- Hstay at 1. by apply (inv_move S id wr).
    + apply (inv_move S id wr); [done..|]. apply release_guard. by apply Hh.
  - destruct (commit_single _ _ _ _ _) as [e r] eqn:Hc. intros [= <-]. by eapply inv_alone.
  - intros [= <-]. destruct Hst as (Hnq & Hch & Hnl). pose proof (gi_queue _ Hinv) as [Hp Hpw Hcw Hl Hlw He Hsts].
    assert (Hpush : forall x, queued (push_pending S (w_req wr)) x <-> queued S x \/ x = id).
    { intros x. unfold queued. cbn. rewrite map_app, elem_of_app. cbn. by rewrite list_elem_of_singleton, Hid. }
    apply (inv_step S _ id wr); try done.
    + intros id' wr' Hne _ Hs Hid'. eapply status_frame; [exact Hid'| |exact Hs]. split; try done.
      * rewrite Hpush. split; [by intros [?|?]|by left].
      * intros req Hreq. cbn. rewrite elem_of_app, list_elem_of_singleton. split; [intros [?|Hx]; [done|subst; congruence]|by left].
    + left. split; [|done]. cbn. apply elem_of_app. right. by left.
    + split; try done; cbn [push_pending s_pending].
      * rewrite map_app. apply NoDup_app. split; [done|]. split; [|apply NoDup_singleton]. intros x Hx ->%list_elem_of_singleton. apply Hnq. by rewrite <- Hid.
      * intros x Hx. apply Hpush in Hx as [Hx|Hx]; [by apply Hpw|]. subst x. cbn. by rewrite Hwr.
  - destruct (s_guard S) eqn:Hg; [done|]. intros [= <-]. apply (inv_move S id wr); [done..|]. by apply take_guard.
  - destruct (s_chans S !! id) as [r|] eqn:Hch; intros [= <-].
    + destruct Hst as [(_ & Hn & _)|(o & Ha)]; [congruence|]. assert (Ho : o = r) by (destruct Ha as (_ & Hc & _); congruence). subst o.
      eapply inv_receive; [done|done|by apply Hh|exact Ha|done].
    + rewrite <- Hstay at 1. apply (inv_move S id wr); [done|done| |done|done]. destruct Hst as [Hw|(o & _ & Hc & _)]; [exact Hw|congruence].
  - destruct (s_pending S) as [|q batch] eqn:Hpend; [destruct Hst as (Hin & _); rewrite Hpend in Hin; by apply not_elem_of_nil in Hin|].
    rewrite <- Hpend. destruct (flush_pending_batch _ _ _ _) as [[e sent] r] eqn:Hf. intros [= <-]. by eapply inv_queue.
  - destruct (s_chans S !! id) as [r|] eqn:Hch; [|done]. intros [= <-]. destruct Hst as (o & Ha & Herr).
    assert (Ho : o = r) by (destruct Ha as (_ & Hc & _); congruence). subst o.
    eapply inv_receive; [done|done|by apply Hh|exact Ha|]. destruct flushed as [u|err]; [done|].
    specialize (Herr err eq_refl). intros ts. split; [done|]. intros ->. done.
  - done.
Qed.

Lemma gc_reach_inv S : gc_reach e0 S -> gc_inv S.
Proof.
  induction 1 as [reqs Hnd Hroom|S tx ms _ IH Hnew _ _ Hroom|S id io_w io_s S' _ IH Hs].
  - by apply start_inv.
  - by apply enter_inv.
  - by eapply writer_step_inv.
Qed.

(** ** Progress *)

(** The actions a writer has left. *)
Definition rank (pc : Pc) : nat :=
  match pc with
  | CheckQueue => 9 | FastLock => 8 | FastCheck => 7 | FastCommit => 6 | Push => 5
  | LockGuard => 4 | TryRecv => 3 | Drain => 2 | Recv _ => 1 | Returned _ => 0
  end.
Definition add_rank (_ : Z) (wr : Writer) (n : nat) : nat := (rank (w_pc wr) + n)%nat.
Definition work (S : Sys) : nat := map_fold add_rank 0%nat (s_writers S).

Lemma work_at (ws : gmap Z Writer) id wr :
  ws !! id = Some wr -> map_fold add_rank 0%nat ws = add_rank id wr (map_fold add_rank 0%nat (delete id ws)).
Proof. intros Hwr. apply (map_fold_delete_L add_rank); [|done]. intros. unfold add_rank. lia. Qed.

Lemma work_bound (S : Sys) : (work S <= 9 * size (s_writers S))%nat.
Proof.
  unfold work. induction (s_writers S) as [|id wr ws Hno Hfst IH] using map_first_key_ind; [by rewrite map_size_empty|].
  rewrite (work_at _ id wr) by apply lookup_insert_eq. rewrite delete_insert_id, map_size_insert_None by done.
  assert (rank (w_pc wr) <= 9)%nat by (destruct (w_pc wr); cbn; lia). unfold add_rank at 1. lia.
Qed.

Lemma work_set_pc (S : Sys) id wr pc :
  s_writers S !! id = Some wr -> (rank pc < rank (w_pc wr))%nat -> (work (set_pc S id pc) < work S)%nat.
Proof.
  intros Hwr Hlt. unfold work. cbn [set_pc s_writers]. rewrite (work_at (s_writers S) id wr Hwr).
  rewrite (work_at _ id (mkWriter (w_req wr) pc)) by (by rewrite lookup_alter_eq, Hwr). rewrite delete_alter_eq. unfold add_rank at 1 3. cbn [w_pc]. lia.
Qed.

Lemma step_work (S : Sys) id io_w io_s S' : writer_step S id io_w io_s = Some S' -> (work S' < work S)%nat.
Proof.
  unfold writer_step. destruct (s_writers S !! id) as [wr|] eqn:Hwr; [|done]. cbn [mbind option_bind].
  assert (Hdec : forall S1 pc, s_writers S1 = s_writers S -> (rank pc < rank (w_pc wr))%nat -> (work (set_pc S1 id pc) < work S)%nat).
  { intros S1 pc Hws Hlt. replace (work S) with (work S1) by (unfold work; by rewrite Hws). apply (work_set_pc S1 id wr); [by rewrite Hws|done]. }
  destruct (w_pc wr) as [| | | | | | | |flushed|res]; cbn [rank] in Hdec.
  - intros [= <-]. apply Hdec; [done|]. destruct (s_pending S); cbn; lia.
  - destruct (s_guard S); [done|]. intros [= <-]. apply Hdec; [done|cbn; lia].
  - destruct (s_pending S); intros [= <-]; apply Hdec; try done; cbn; lia.
  - destruct (commit_single _ _ _ _ _). intros [= <-]. apply Hdec; [done|cbn; lia].
  - intros [= <-]. apply Hdec; [done|cbn; lia].
  - destruct (s_guard S); [done|]. intros [= <-]. apply Hdec; [done|cbn; lia].
  - destruct (s_chans S !! id); intros [= <-]; apply Hdec; try done; cbn; lia.
  - destruct (s_pending S); [intros [= <-]; apply Hdec; try done; cbn; lia|].
    destruct (flush_pending_batch _ _ _ _) as [[e sent] r]. intros [= <-]. apply Hdec; [done|cbn; lia].
  - destruct (s_chans S !! id); [|done]. intros [= <-]. apply Hdec; [done|cbn; lia].
  - done.
Qed.

Definition returned (wr : Writer) : bool := match w_pc wr with Returned _ => true | _ => false end.

(** The holder of the guard can act, or, when the guard is free, every writer. *)
Lemma inv_progress (S : Sys) id wr :
  gc_inv S -> s_writers S !! id = Some wr -> returned wr = false ->
  exists id', forall io_w io_s, is_Some (writer_step S id' io_w io_s).
Proof.
  intros Hinv Hwr Hnr. destruct (s_guard S) as [g|] eqn:Hg.
  - exists g. intros io_w io_s. destruct (gi_holder _ Hinv g Hg) as [wg Hwg]. unfold writer_step. rewrite Hwg. cbn [mbind option_bind].
    pose proof (proj2 (gi_holds _ Hinv g wg Hwg) Hg) as Hh. destruct (gi_writer _ Hinv g wg Hwg) as [_ Hst]. unfold status in Hst.
    destruct (w_pc wg) as [| | | | | | | |flushed|res]; try done.
    + by destruct (s_pending S).
    + by destruct (commit_single _ _ _ _ _).
    + by destruct (s_chans S !! g).
    + destruct (s_pending S); [done|]. by destruct (flush_pending_batch _ _ _ _) as [[e sent] r].
    + destruct Hst as (o & (_ & -> & _) & _). done.
  - exists id. intros io_w io_s. unfold writer_step. rewrite Hwr, Hg. cbn [mbind option_bind].
    assert (Hh : holding (w_pc wr) = false) by (apply not_true_is_false; intros Hh%(gi_holds _ Hinv id wr Hwr); congruence).
    unfold returned in Hnr. by destruct (w_pc wr).
Qed.
End Invariant.

(** ** The theorems *)

Section Theorems.
Context {hw : Crc32Hw} {T H : Type} `{MemTableBackend T} `{EngineHook H} `{!MemTableLaws T}.

(** C24: concurrent writers are served exactly once and told the truth.  In every
    interleaving of writers, whatever the hook and the log writes do, no request is
    served twice; the engine holds exactly the requests told they committed, in the
    order they were served, with consecutive commit timestamps; and a writer that
    returned was served: it returns a timestamp exactly when its request committed
    with it. *)
Theorem group_commit_exact (e0 : Engine (T := T) (H := H)) (S : Sys) :
  mt_inv (e_memtable e0) -> 0 <= e_commit_seq e0 < OPEN_ENDED_TS -> gc_reach e0 S ->
  NoDup (log_ids (s_log S)) /\ commits_to e0 (s_engine S) (sent_txs (s_log S)) /\
  stamps (s_log S) = seqZ (e_commit_seq e0) (Z.of_nat (length (sent_txs (s_log S)))) /\
  forall id wr r, s_writers S !! id = Some wr -> w_pc wr = Returned r ->
    exists o, (w_req wr, o) ∈ s_log S /\ forall ts, r = Ok ts <-> o = Ok ts.
Proof.
  intros Hi [Hq Hb] Hr. pose proof (gc_reach_inv e0 Hi Hq Hb S Hr) as Hinv. destruct (gi_queue _ _ Hinv) as [_ _ _ Hl _ He Hst].
  split; [done|]. split; [done|]. split; [done|]. intros id wr r Hwr Hpc.
  destruct (gi_writer _ _ Hinv id wr Hwr) as [_ Hs]. unfold status in Hs. rewrite Hpc in Hs. destruct Hs as (_ & _ & o & Hin & Ho). by exists o.
Qed.

(** C25: no writer waits forever.  In every reachable state some writer can take its
    next step unless all have returned, and every step uses up work: with no new
    writers, at most nine steps per writer remain before all have returned. *)
Theorem group_commit_drains (e0 : Engine (T := T) (H := H)) (S : Sys) :
  mt_inv (e_memtable e0) -> 0 <= e_commit_seq e0 < OPEN_ENDED_TS -> gc_reach e0 S ->
  ((forall id wr, s_writers S !! id = Some wr -> returned wr = true) \/
   exists id, forall io_w io_s, is_Some (writer_step S id io_w io_s)) /\
  (forall id io_w io_s S', writer_step S id io_w io_s = Some S' -> (work S' < work S)%nat) /\
  (work S <= 9 * size (s_writers S))%nat.
Proof.
  intros Hi [Hq Hb] Hr. pose proof (gc_reach_inv e0 Hi Hq Hb S Hr) as Hinv.
  split; [|split; [intros id io_w io_s S'; apply step_work|apply work_bound]].
  destruct (decide (map_Forall (fun _ wr => returned wr = true) (s_writers S))) as [Hall|Hsome]; [by left|right].
  apply map_not_Forall in Hsome as (id & wr & Hwr & Hnr); [|apply _]. eapply inv_progress; [exact Hinv|exact Hwr|by apply not_true_is_false].
Qed.

(** Started with an empty queue, as the engine is, the queue stays empty: a request
    is only queued by a writer that found another one in the queue. *)
Inductive engine_run (e0 : Engine (T := T) (H := H)) : Sys -> Prop :=
| run_start : engine_run e0 (start_queue e0 [])
| run_enter S tx ms : engine_run e0 S -> s_writers S !! tx = None -> engine_run e0 (enter S tx ms)
| run_step S id io_w io_s S' : engine_run e0 S -> writer_step S id io_w io_s = Some S' -> engine_run e0 S'.

Definition past_queue (pc : Pc) : bool :=
  match pc with Push | LockGuard | TryRecv | Drain | Recv _ => true | _ => false end.

Lemma queue_never_used (e0 : Engine (T := T) (H := H)) S :
  engine_run e0 S -> s_pending S = [] /\ forall id wr, s_writers S !! id = Some wr -> past_queue (w_pc wr) = false.
Proof.
  induction 1 as [|S tx ms _ [Hp Hw] Hnew|S id io_w io_s S' _ [Hp Hw] Hs].
  - split; [done|]. intros id wr. cbn. by rewrite lookup_empty.
  - split; [done|]. intros id wr. cbn [enter s_writers]. rewrite lookup_insert. case_decide; [by intros [= <-]|apply Hw].
  - unfold writer_step in Hs. destruct (s_writers S !! id) as [wr|] eqn:Hwr; [|done]. cbn [mbind option_bind] in Hs.
    pose proof (Hw id wr Hwr) as Hpc.
    assert (Hset : forall (S1 : Sys (T := T) (H := H)) pc, s_writers S1 = s_writers S -> s_pending S1 = [] -> past_queue pc = false ->
      s_pending (set_pc S1 id pc) = [] /\ forall id' wr', s_writers (set_pc S1 id pc) !! id' = Some wr' -> past_queue (w_pc wr') = false).
    { intros S1 pc Hws Hp1 Hq. split; [done|]. intros id' wr'. cbn [set_pc s_writers]. rewrite Hws, lookup_alter.
      case_decide; [subst; rewrite Hwr; by intros [= <-]|apply Hw]. }
    destruct (w_pc wr); try done.
    + injection Hs as <-. rewrite Hp. by apply Hset.
    + destruct (s_guard S); [done|]. injection Hs as <-. by apply Hset.
    + rewrite Hp in Hs. injection Hs as <-. by apply Hset.
    + destruct (commit_single _ _ _ _ _). injection Hs as <-. by apply Hset.
Qed.
End Theorems.

(** ** Witnesses *)

Section Samples.
#[local] Existing Instance no_sse42.

Abbreviation SampleSys := (Sys (T := BTreeMapTable) (H := unit)).

(** Two queued writers and one that commits while they wait: the first to take the
    guard serves both, the second finds its result. *)
Definition two_requests : list PendingWrite := [mkPending 5 [MPut [x61] [x31]]; mkPending 6 [MPut [x62] [x32]]].
Definition sample_engine : Engine (T := BTreeMapTable) (H := unit) := l_engine new_lsm.
Definition run_ids (S : SampleSys) (ids : list Z) : SampleSys :=
  fold_left (fun S id => default S (writer_step S id IoOk IoOk)) ids S.
Definition both_served : SampleSys := run_ids (start_queue sample_engine two_requests) [5; 5; 5; 5; 6; 6].

Lemma run_ids_reach e0 S ids : gc_reach e0 S -> gc_reach e0 (run_ids S ids).
Proof.
  revert S. induction ids as [|id ids IH]; intros S Hr; [done|]. cbn [run_ids fold_left]. apply IH.
  destruct (writer_step S id IoOk IoOk) as [S'|] eqn:E; [|done]. by eapply gc_step.
Qed.

Lemma both_reached : gc_reach sample_engine both_served.
Proof. apply run_ids_reach, gc_start; [by apply (bool_decide_unpack _)|done]. Qed.

Lemma both_returned :
  (w_pc <$> s_writers both_served !! 5, w_pc <$> s_writers both_served !! 6) = (Some (Returned (Ok 1)), Some (Returned (Ok 2))).
Proof. vm_compute. reflexivity. Qed.

Lemma group_commit_exact_witness :
  NoDup (log_ids (s_log both_served)) /\ commits_to sample_engine (s_engine both_served) (sent_txs (s_log both_served)) /\
  stamps (s_log both_served) = seqZ (e_commit_seq sample_engine) (Z.of_nat (length (sent_txs (s_log both_served)))) /\
  forall id wr r, s_writers both_served !! id = Some wr -> w_pc wr = Returned r ->
    exists o, (w_req wr, o) ∈ s_log both_served /\ forall ts, r = Ok ts <-> o = Ok ts.
Proof.
  apply (group_commit_exact sample_engine both_served).
  - apply mt_default_ok.
  - vm_compute. split; [discriminate|reflexivity].
  - exact both_reached.
Defined.

Lemma group_commit_drains_witness :
  ((forall id wr, s_writers both_served !! id = Some wr -> returned wr = true) \/
   exists id, forall io_w io_s, is_Some (writer_step both_served id io_w io_s)) /\
  (forall id io_w io_s S', writer_step both_served id io_w io_s = Some S' -> (work S' < work both_served)%nat) /\
  (work both_served <= 9 * size (s_writers both_served))%nat.
Proof.
  apply (group_commit_drains sample_engine both_served).
  - apply mt_default_ok.
  - vm_compute. split; [discriminate|reflexivity].
  - exact both_reached.
Defined.
End Samples.
