(* ===== verification/Restart.v ===== *)
(** * The tree across restarts ([hatp-engine/src/lib.rs], [open_with_hook])

    [open_with_hook] rebuilds the whole tree from what a crash leaves: the log, the
    manifest and the SST files.  A flush does not empty the log until it has grown
    past a limit, so the log replayed at the next open usually repeats transactions
    whose rows are already in SST files; they get new commit timestamps, after all
    the files'.  The theorem of this file shows that the tree nevertheless holds
    exactly the committed transactions after any run of commits, flushes,
    compactions, collections, crashes and restarts, when the log is durable before
    a flush starts. *)

From Stdlib Require Import Strings.String Sorting.Sorted.
From stdpp Require Import base tactics list option gmap.
From S2P Require Import Prelude OrdMap Types Version Crc32c Wal MemTable MemTableProps TxManager Codec Arrow RowCodec Manifest Compaction Engine Snapshots Sst SstProps Lsm LsmProps.
#[local] Open Scope Z_scope.
#[local] Set Warnings "-clear-no-such-hyp".

(** ** Opening a tree *)

Section Open.
Context {hw : Crc32Hw} {T H : Type} `{MemTableBackend T} `{EngineHook H} `{VortexLib}.
#[local] Abbreviation Lsm := (Lsm (T := T) (H := H)).

(** What is on disk: the log, the manifest, the SST files by id, and the table
    schemas the sidecar file gives. *)
Record Image := mkImage {
  im_wal : option bytes;
  im_manifest : option bytes;
  im_disk : omap Z vfile;
  im_schemas : omap bytes Schema;
}.

Definition image_rows (disk : omap Z vfile) (file_id : Z) : Result (list VersionedRow) :=
  match om_get file_id disk with
  | Some f => sst_read_all f
  | None => Err (Io "no such file")
  end.

(** The row counts the recovery scan gathers: all rows, and the rows of each table;
    a file that cannot be read counts for nothing. *)
Definition recovered_counts (read_all : Z -> Result (list VersionedRow)) (files : list Z) : Z * omap bytes Z :=
  fold_left (fun '(n, tables) file_id =>
    match read_all file_id with
    | Ok rows => (saturating_add n (Z.of_nat (length rows)), add_table_rows rows tables)
    | Err _ => (n, tables)
    end) files (0, []).

(** [Engine::open_with_hook] *)
Definition lsm_open (im : Image) (hook : H) (mode : SyncMode) (wal_max : Z) (io_man io_len io_s : IoOutcome)
  : option (Result Lsm) :=
  let read_all := image_rows (im_disk im) in
  match engine_open (im_wal im) (im_manifest im) read_all hook mode io_man io_len io_s with
  | None => None
  | Some (Err err) => Some (Err err)
  | Some (Ok (e, manifest)) =>
      let vs := mf_version_set manifest in
      let '(initial_sst_rows, recovered_table_rows) := recovered_counts read_all (file_ids vs) in
      Some (Ok (mkLsm e manifest (im_disk im) (vs_dropped vs) initial_sst_rows recovered_table_rows
                  wal_max (im_schemas im)))
  end.
End Open.

(** ** The state transactions leave *)

Definition mutation_value (m : Mutation) : option bytes :=
  match m with MPut _ v => Some v | MDelete _ => None end.

(** The last mutation of [k], if there is one: its value, or [None] for a delete. *)
Definition latest_in (k : bytes) (ms : list Mutation) : option (option bytes) :=
  fold_left (fun acc m => if eqc k (mutation_key m) then Some (mutation_value m) else acc) ms None.

Definition muts_of (txs : list (Z * list Mutation)) : list Mutation := List.flat_map snd txs.
Definition latest (txs : list (Z * list Mutation)) (k : bytes) : option (option bytes) := latest_in k (muts_of txs).

Lemma latest_in_app k a b :
  latest_in k (a ++ b) = match latest_in k b with Some v => Some v | None => latest_in k a end.
Proof.
  unfold latest_in. rewrite fold_left_app. generalize (fold_left (fun acc m => if eqc k (mutation_key m) then Some (mutation_value m) else acc) a None).
  induction b as [|m b IH] using rev_ind; intros x; [done|]. rewrite !fold_left_app. cbn. by destruct (eqc k (mutation_key m)).
Qed.

Lemma latest_app a b k : latest (a ++ b) k = match latest b k with Some v => Some v | None => latest a k end.
Proof. unfold latest, muts_of. by rewrite flat_map_app, latest_in_app. Qed.

(** Replaying a log onto a state that already has a prefix of it changes nothing. *)
Lemma latest_replay pre f g k : latest ((pre ++ f) ++ f ++ g) k = latest (pre ++ f ++ g) k.
Proof. rewrite !latest_app. destruct (latest g k); [done|]. by destruct (latest f k). Qed.

(** The newest entries of the history [h] are the last mutations of [ms]. *)
Definition state_is (h : bytes -> values) (ms : list Mutation) : Prop :=
  forall k val, (exists t, newest (h k) (OPEN_ENDED_TS - 1) t val) <-> latest_in k ms = Some val.

Lemma state_edit h ms tx ts m :
  state_is h ms -> (forall k u, is_Some (h k !! u) -> u <= ts) -> ts < OPEN_ENDED_TS ->
  state_is (extend_edit h (mutation_edit tx ts m)) (ms ++ [m]).
Proof.
  intros Hs Hu Hts k val. rewrite latest_in_app. unfold latest_in at 1. cbn [fold_left].
  assert (Hed : ed_key (mutation_edit tx ts m) = mutation_key m /\ begin_ts (ed_version (mutation_edit tx ts m)) = ts /\
                value (ed_version (mutation_edit tx ts m)) = mutation_value m) by (by destruct m).
  destruct Hed as (Ek & Eb & Ev). unfold extend_edit. rewrite Ek, Eb, Ev. destruct (eqc k (mutation_key m)); [|apply Hs].
  split.
  - intros (t & Ht & _ & Hmax). assert (E : t = ts).
    { specialize (Hmax ts ltac:(by rewrite lookup_insert_eq) ltac:(lia)). destruct (decide (t = ts)) as [|Hne]; [done|].
      rewrite lookup_insert_ne in Ht by done. specialize (Hu k t (mk_is_Some _ _ Ht)). lia. }
    subst t. rewrite lookup_insert_eq in Ht. congruence.
  - intros [= <-]. exists ts. split; [apply lookup_insert_eq|]. split; [lia|]. intros t' Ht' _.
    destruct (decide (t' = ts)) as [->|Hne]; [lia|]. rewrite lookup_insert_ne in Ht' by done. eauto.
Qed.

Lemma state_muts h ms0 tx ts ms :
  state_is h ms0 -> (forall k u, is_Some (h k !! u) -> u <= ts) -> ts < OPEN_ENDED_TS ->
  state_is (fold_left extend_edit (map (mutation_edit tx ts) ms) h) (ms0 ++ ms) /\
  forall k u, is_Some (fold_left extend_edit (map (mutation_edit tx ts) ms) h k !! u) -> u <= ts.
Proof.
  intros Hs Hu Hts. revert h ms0 Hs Hu. induction ms as [|m ms IH]; intros h ms0 Hs Hu; cbn [map fold_left].
  - by rewrite app_nil_r.
  - change (m :: ms) with ([m] ++ ms). rewrite app_assoc. apply IH; [by apply state_edit|].
    intros k u. unfold extend_edit. assert (Eb : begin_ts (ed_version (mutation_edit tx ts m)) = ts) by (by destruct m).
    rewrite Eb. destruct (eqc k _); [|apply Hu]. rewrite lookup_insert. case_decide; [lia|apply Hu].
Qed.

(** Commits move the state on. *)
Lemma state_extend txs : forall h txs0 ts,
  state_is h (muts_of txs0) -> (forall k u, is_Some (h k !! u) -> u < ts) ->
  ts + Z.of_nat (length txs) <= OPEN_ENDED_TS ->
  state_is (extend h (number_commits ts txs)) (muts_of (txs0 ++ txs)).
Proof.
  induction txs as [|[tx ms] txs IH]; intros h txs0 ts Hs Hu Hb; [by rewrite app_nil_r|]. cbn [length] in Hb.
  unfold extend. cbn [number_commits commits_edits flat_map cb_tx cb_ts cb_muts]. rewrite fold_left_app.
  destruct (state_muts h (muts_of txs0) tx ts ms Hs) as [Hs' Hu']; [intros k u Hk; specialize (Hu k u Hk); lia|lia|].
  change ((tx, ms) :: txs) with ([(tx, ms)] ++ txs). rewrite app_assoc. apply IH; [|intros k u Hk; specialize (Hu' k u Hk); lia|lia].
  unfold muts_of. rewrite flat_map_app. cbn [flat_map]. by rewrite app_nil_r.
Qed.

Lemma state_empty : state_is (fun _ => ∅) [].
Proof. intros k val. split; [|done]. intros (t & Ht & _). by rewrite lookup_empty in Ht. Qed.

(** Entries all at or before [s]: reading at [s] reads the newest of all. *)
Lemma newest_last (h : values) s t val :
  (forall u, is_Some (h !! u) -> u <= s) -> s < OPEN_ENDED_TS ->
  newest h s t val <-> newest h (OPEN_ENDED_TS - 1) t val.
Proof.
  intros Hu Hs. split; intros (Ht & Hle & Hmax).
  - split; [done|]. split; [lia|]. intros t' Ht' _. auto.
  - split; [done|]. split; [eauto|]. intros t' Ht' ?. apply Hmax; [done|lia].
Qed.

(** ** Operations that leave the engine alone *)

Section Tree.
Context {hw : Crc32Hw} {T H : Type} `{MemTableBackend T} `{EngineHook H} `{!MemTableLaws T}.
Context `{VortexLib} `{!VortexLaws}.
#[local] Abbreviation Lsm := (Lsm (T := T) (H := H)).
#[local] Abbreviation Eng := (Engine (T := T) (H := H)).
#[local] Abbreviation txs_list := (list (Z * list Mutation)).

(** A compaction carries the engine along, whatever is in it. *)
Definition at_engine {A} (e : Eng) (r : option (Lsm * A)) : option (Lsm * A) :=
  match r with Some (l, a) => Some (with_engine l e, a) | None => None end.

Lemma compact_chunk_with_engine (l : Lsm) e chunk watermark id io :
  compact_chunk (with_engine l e) chunk watermark id io = at_engine e (compact_chunk l chunk watermark id io).
Proof.
  unfold compact_chunk. rewrite (read_inputs_ext l (with_engine l e) chunk) by done.
  destruct (read_inputs l chunk) as [rows|]; [|done]. change (first_schema (with_engine l e)) with (first_schema l).
  destruct (sst_write _ _ _ _) as [[[f handle]|err]|]; done.
Qed.

Lemma compact_chunks_with_engine chunks watermark io e : forall (l : Lsm) id,
  compact_chunks (with_engine l e) chunks watermark id io = at_engine e (compact_chunks l chunks watermark id io).
Proof.
  induction chunks as [|chunk chunks IH]; intros l id; [done|]. cbn [compact_chunks]. rewrite compact_chunk_with_engine.
  destruct (compact_chunk l chunk watermark id io) as [[l1 r]|]; cbn; [|done]. rewrite IH.
  by destruct (compact_chunks l1 chunks watermark _ io) as [[l2 rs]|].
Qed.

Lemma remove_inputs_with_engine inputs io e : forall l : Lsm,
  remove_inputs (with_engine l e) inputs io = (with_engine (remove_inputs l inputs io).1 e, (remove_inputs l inputs io).2).
Proof.
  induction inputs as [|input inputs IH]; intros l; [done|]. cbn [remove_inputs]. destruct (io_remove io input); [|done].
  apply (IH (with_disk l (om_remove input (l_disk l)))).
Qed.

Lemma commit_compaction_with_engine (l : Lsm) e inputs src tgt handles deleted delta io :
  commit_compaction (with_engine l e) inputs src tgt handles deleted delta io =
  (with_engine (commit_compaction l inputs src tgt handles deleted delta io).1 e,
   (commit_compaction l inputs src tgt handles deleted delta io).2).
Proof.
  unfold commit_compaction. change (version_set (with_engine l e)) with (version_set l). cbn [with_engine l_manifest].
  destruct (append_batch _ _ _ _ _) as [m [u|err]]; [|done]. cbv zeta.
  exact (remove_inputs_with_engine inputs io e (with_counts (with_manifest l m) _ _)).
Qed.

Lemma compact_with_watermark_with_engine (l : Lsm) e src tgt watermark io :
  compact_with_watermark (with_engine l e) src tgt watermark io = at_engine e (compact_with_watermark l src tgt watermark io).
Proof.
  unfold compact_with_watermark. change (version_set (with_engine l e)) with (version_set l).
  destruct (_ <? _)%nat; [done|]. rewrite compact_chunk_with_engine.
  destruct (compact_chunk l _ watermark _ io) as [[l1 [[[hd d] dl]|err]]|]; cbn [at_engine mbind option_bind]; [|done..].
  rewrite commit_compaction_with_engine. by destruct (commit_compaction l1 _ _ _ _ _ _ _) as [l2 [u|err]].
Qed.

Lemma sub_compact_with_engine (l : Lsm) e src tgt watermark io :
  sub_compact (with_engine l e) src tgt watermark io = at_engine e (sub_compact l src tgt watermark io).
Proof.
  unfold sub_compact. change (version_set (with_engine l e)) with (version_set l).
  destruct (_ <? _)%nat; [done|]. rewrite compact_chunks_with_engine.
  destruct (compact_chunks l _ watermark _ io) as [[l1 rs]|]; cbn [at_engine mbind option_bind]; [|done].
  destruct (gather_chunks rs [] 0 []) as [[[hs d] dl]|err]; [|done].
  rewrite commit_compaction_with_engine. by destruct (commit_compaction l1 _ _ _ _ _ _ _) as [l2 [u|err]].
Qed.

(** What compactions and flushes keep: the engine, and the handle of the manifest. *)
Lemma commit_compaction_keeps (l : Lsm) inputs src tgt handles deleted delta io l' :
  commit_compaction l inputs src tgt handles deleted delta io = (l', Ok tt) ->
  mf_detached (l_manifest l) = None -> l_engine l' = l_engine l /\ mf_detached (l_manifest l') = None.
Proof.
  unfold commit_compaction. destruct (append_batch _ _ _ _ _) as [m [[]|err]] eqn:Ea; [|done]. intros Hr Hd.
  apply remove_inputs_ok in Hr as [-> _]. split; [done|]. by eapply append_batch_attached.
Qed.

Lemma compact_keeps (l : Lsm) src tgt watermark io l' r :
  compact_with_watermark l src tgt watermark io = Some (l', Ok r) ->
  mf_detached (l_manifest l) = None -> l_engine l' = l_engine l /\ mf_detached (l_manifest l') = None.
Proof.
  unfold compact_with_watermark. destruct (_ <? _)%nat; [by intros [= <- _]|].
  destruct (compact_chunk l _ _ _ io) as [[l1 [[[hd d] dl]|err]]|] eqn:Ec; cbn [mbind option_bind]; [|done..].
  destruct (compact_chunk_ok _ _ _ _ _ _ _ _ _ Ec) as (_ & f & -> & _).
  destruct (commit_compaction _ _ _ _ _ _ _ _) as [l2 [[]|err]] eqn:Ecc; [|done]. intros [= <- _] Hd.
  by apply (commit_compaction_keeps (with_disk l _)) in Ecc.
Qed.

Lemma compact_chunks_keeps chunks watermark io : forall (l : Lsm) id l' rs,
  compact_chunks l chunks watermark id io = Some (l', rs) -> l_engine l' = l_engine l /\ l_manifest l' = l_manifest l.
Proof.
  induction chunks as [|chunk chunks IH]; intros l id l' rs; cbn [compact_chunks]; [by intros [= <- _]|].
  destruct (compact_chunk l chunk watermark id io) as [[l1 r]|] eqn:Ec; cbn [mbind option_bind]; [|done].
  assert (H1' : l_engine l1 = l_engine l /\ l_manifest l1 = l_manifest l).
  { revert Ec. unfold compact_chunk. destruct (read_inputs l chunk); [|by intros [= <- _]].
    destruct (sst_write _ _ _ _) as [[[f handle]|err]|]; cbn; [by intros [= <- _]..|done]. }
  destruct (compact_chunks l1 chunks watermark _ io) as [[l2 rs2]|] eqn:E2; cbn; [|done]. intros [= <- _].
  apply IH in E2 as [-> ->]. done.
Qed.

Lemma sub_compact_keeps (l : Lsm) src tgt watermark io l' r :
  sub_compact l src tgt watermark io = Some (l', Ok r) ->
  mf_detached (l_manifest l) = None -> l_engine l' = l_engine l /\ mf_detached (l_manifest l') = None.
Proof.
  unfold sub_compact. destruct (_ <? _)%nat; [by intros [= <- _]|].
  destruct (compact_chunks l _ _ _ io) as [[l1 rs]|] eqn:Ec; cbn [mbind option_bind]; [|done].
  apply compact_chunks_keeps in Ec as [He Hm]. destruct (gather_chunks rs [] 0 []) as [[[hs d] dl]|err]; [|done].
  destruct (commit_compaction _ _ _ _ _ _ _ _) as [l2 [[]|err]] eqn:Ecc; [|done]. intros [= <- _] Hd.
  apply commit_compaction_keeps in Ecc; [|by rewrite Hm]. by rewrite <- He.
Qed.

(** ** The invariant *)

(** The tree a restart starts from: its files, without the memtable. *)
Definition flushed (l : Lsm) : Lsm := with_mem l mt_default.

(** The tree [l] holds the transactions [pre] from before its log was last emptied,
    then those of the log, of which [s1] is durable and [s2] is not.  Its files hold
    [pre] and the first transactions [f] of the log. *)
Record tree_at (base : Z) (l : Lsm) (pre f : txs_list) (s1 s2 : list Seg)
    (w : TxnTs) (h : bytes -> values) (wb : TxnTs) (hb : bytes -> values) : Prop := {
  ta_log : log_inv base (l_engine l) s1 s2;
  ta_attached : mf_detached (l_manifest l) = None;
  ta_prefix : f `prefix_of` done_txs s1;
  ta_keys : keys_ok (done_txs (s1 ++ s2));
  ta_rep : lsm_rep w l h;
  ta_seq : 1 <= e_commit_seq (l_engine l);
  ta_now : w < e_commit_seq (l_engine l);
  ta_state : state_is h (muts_of (pre ++ done_txs (s1 ++ s2)));
  ta_flushed : lsm_rep wb (flushed l) hb;
  ta_flushed_now : wb < e_commit_seq (l_engine l);
  ta_flushed_state : state_is hb (muts_of (pre ++ f));
}.

(** The representation looks at the engine's memtable and commit counter only. *)
Lemma lsm_rep_engine w (l : Lsm) h e' :
  lsm_rep w l h -> mt_inv (e_memtable e') -> mt_map (e_memtable e') = mt_map (mem l) ->
  e_commit_seq (l_engine l) <= e_commit_seq e' < OPEN_ENDED_TS -> lsm_rep w (with_engine l e') h.
Proof.
  intros [Hi Hman Hd Hcore Hseq Hfiles Hbound] Hi' Hm Hq. split; try done.
  - unfold mem. cbn [with_engine l_engine]. by rewrite Hm.
  - cbn [with_engine l_engine]. lia.
  - intros k u Hu. cbn [with_engine l_engine]. specialize (Hbound k u Hu). lia.
Qed.

Lemma flushed_engine w (l : Lsm) h e' :
  lsm_rep w (flushed l) h -> e_commit_seq (l_engine l) <= e_commit_seq e' < OPEN_ENDED_TS ->
  lsm_rep w (flushed (with_engine l e')) h.
Proof.
  intros Hrep Hq. destruct mt_default_ok as (Hi & _).
  exact (lsm_rep_engine w (flushed l) h (with_memtable e' mt_default) Hrep Hi eq_refl Hq).
Qed.

Lemma prefix_log_after mode s1 s2 s (f : txs_list) :
  f `prefix_of` done_txs s1 -> f `prefix_of` done_txs (log_after mode s1 s2 s).1.
Proof. intros Hf. destruct mode; cbn; [|done]. rewrite done_txs_app. by apply prefix_app_r. Qed.

(** Commits. *)
Lemma tree_at_commit base l pre f s1 s2 w h wb hb e' txs :
  tree_at base l pre f s1 s2 w h wb hb -> commits_to (l_engine l) e' txs -> keys_ok txs ->
  let s := log_after (e_sync_mode (l_engine l)) s1 s2 (map done_seg txs) in
  log_inv_at base e' s ->
  tree_at base (with_engine l e') pre f s.1 s.2 w (extend h (number_commits (e_commit_seq (l_engine l)) txs)) wb hb.
Proof.
  intros [] Hc Hk s Hlog. pose proof Hc as [Hi Hm Hq Hb]. pose proof (lr_seq _ _ _ ta_rep0) as Hseq.
  assert (Hdone : done_txs (s.1 ++ s.2) = done_txs (s1 ++ s2) ++ txs).
  { unfold s. rewrite log_after_app, app_assoc, done_txs_app. by rewrite done_txs_done. }
  split; [done|done|by apply prefix_log_after| |by apply lsm_rep_commit|cbn; lia|cbn; lia| |apply flushed_engine; [done|lia]|cbn; lia|done].
  - rewrite Hdone. by apply Forall_app.
  - rewrite Hdone, app_assoc. apply state_extend; [done| |lia].
    intros k u Hu. by apply (lr_bound _ _ _ ta_rep0) in Hu as [? _].
Qed.

(** Steps that change neither the memtable, nor the log, nor the counter. *)
Lemma tree_at_idle base l pre f s1 s2 w h wb hb e' :
  tree_at base l pre f s1 s2 w h wb hb -> e_memtable e' = e_memtable (l_engine l) ->
  e_commit_seq e' = e_commit_seq (l_engine l) -> forall s1' s2', log_inv base e' s1' s2' ->
  s1' ++ s2' = s1 ++ s2 -> f `prefix_of` done_txs s1' ->
  tree_at base (with_engine l e') pre f s1' s2' w h wb hb.
Proof.
  intros [] Hm Hq s1' s2' Hlog Es Hf. pose proof (lr_seq _ _ _ ta_rep0) as Hseq.
  split; rewrite ?Es; try done; [by apply lsm_rep_idle|cbn; lia|cbn; lia|apply flushed_engine; [done|lia]|cbn; lia].
Qed.

(** A collection touches the memtable only. *)
Lemma tree_gc base l pre f s1 s2 w h wb hb :
  tree_at base l pre f s1 s2 w h wb hb -> versions_count (mt_map (mem l)) <= u64_max ->
  tree_at base (with_engine l (engine_garbage_collect (l_engine l)).1) pre f s1 s2
    (Z.max w (engine_watermark (l_engine l))) h wb hb.
Proof.
  intros [] Hv.
  assert (Hsame : exists t, (engine_garbage_collect (l_engine l)).1 = with_memtable (l_engine l) t)
    by (unfold engine_garbage_collect; destruct (mt_garbage_collect _ _); eauto).
  pose proof (lsm_rep_gc _ _ _ ta_rep0 Hv) as Hgc. destruct Hsame as [t E]. rewrite E in Hgc |- *.
  split; try done; [by eapply log_inv_ext; [..|exact ta_log0]|].
  cbn. unfold engine_watermark, saturating_sub. lia.
Qed.

(** A compaction changes the files: the tree and the tree without its memtable. *)
Lemma tree_compacted base l l' pre f s1 s2 w h wb hb watermark :
  tree_at base l pre f s1 s2 w h wb hb -> watermark < e_commit_seq (l_engine l) ->
  l_engine l' = l_engine l /\ mf_detached (l_manifest l') = None ->
  lsm_rep (Z.max w watermark) l' h -> lsm_rep (Z.max wb watermark) (flushed l') hb ->
  tree_at base l' pre f s1 s2 (Z.max w watermark) h (Z.max wb watermark) hb.
Proof. intros [] Hw [He Hd] Hr Hb. split; rewrite ?He; try done; lia. Qed.

Lemma flushed_compact (l l' : Lsm) src tgt watermark io r :
  compact_with_watermark l src tgt watermark io = Some (l', Ok r) -> l_engine l' = l_engine l ->
  compact_with_watermark (flushed l) src tgt watermark io = Some (flushed l', Ok r).
Proof. intros Hc He. unfold flushed, with_mem. rewrite compact_with_watermark_with_engine, Hc. cbn. by rewrite He. Qed.

Lemma flushed_sub_compact (l l' : Lsm) src tgt watermark io r :
  sub_compact l src tgt watermark io = Some (l', Ok r) -> l_engine l' = l_engine l ->
  sub_compact (flushed l) src tgt watermark io = Some (flushed l', Ok r).
Proof. intros Hc He. unfold flushed, with_mem. rewrite sub_compact_with_engine, Hc. cbn. by rewrite He. Qed.

(** ** Flush *)

(** A flush that stores rows empties the memtable, and perhaps the log. *)
Lemma flush_effect (l : Lsm) io l' r :
  mt_inv (mem l) -> mf_detached (l_manifest l) = None -> flush l io = Some (l', Ok r) ->
  l' = l \/
  (mt_inv (mem l') /\ mt_map (mem l') = [] /\ mf_detached (l_manifest l') = None /\
   e_commit_seq (l_engine l') = e_commit_seq (l_engine l) /\ e_next_tx_id (l_engine l') = e_next_tx_id (l_engine l) /\
   e_sync_mode (l_engine l') = e_sync_mode (l_engine l) /\
   (e_wal (l_engine l') = e_wal (l_engine l) \/
    e_wal (l_engine l') = {| w_file := {| lf_contents := []; lf_durable := 0 |}; w_tls_buf := w_tls_buf (e_wal (l_engine l)) |})).
Proof.
  intros Hi Hd. unfold flush, flush_drain. fold (mem l). rewrite (mt_drain_ok _ [] Hi). cbn [app].
  destruct (mt_all_versions (mem l)) as [|r0 rest] eqn:Erows; [intros [= <- _]; by left|].
  rewrite <- Erows. unfold flush_sst_locked. rewrite Erows at 1.
  destruct (sst_write _ _ _ _) as [[[f handle]|err]|]; cbn [mbind option_bind]; [|done..].
  cbn [l_manifest with_disk with_mem with_engine].
  destruct (append_batch (l_manifest l) _ _ _ _) as [m [[]|err]] eqn:Happ; [|done].
  apply append_batch_attached in Happ; [|done].
  destruct (mt_clear_ok _ Hi) as (Hi1 & Hm1 & _). destruct (mt_clear_ok _ Hi1) as (Hi2 & Hm2 & _).
  match goal with |- context [if ?b then _ else _] => destruct b end.
  - destruct (wal_reset _ _ _) as [wl [u|err]] eqn:Er; [|done]. intros [= <- _]. right.
    repeat (split; [done|]). right. cbn [with_engine with_wal l_engine e_wal].
    revert Er. unfold wal_reset, reset_append_handle, file_set_len_0, file_sync_data. cbn.
    destruct (io_reset_len io), (io_reset_sync io); cbn; try done. by intros [= <- _].
  - intros [= <- _]. right. repeat (split; [done|]). by left.
Qed.

(** The transactions before the log and those in it, after a flush. *)
Definition after_flush (l' : Lsm) (pre log : txs_list) : txs_list * txs_list :=
  if current_size (e_wal (l_engine l')) =? 0 then (pre ++ log, []) else (pre, log).

Lemma empty_log w segs : wal_holds w (seg_logs segs) -> current_size w = 0 -> done_txs segs = [].
Proof.
  intros (Hc & _) Hz. unfold current_size, blen in Hz. rewrite Hc in Hz.
  assert (El : seg_logs segs = []) by (apply log_bytes_nil_inv; destruct (log_bytes _); [done|cbn in Hz; lia]).
  clear -El. induction segs as [|sg segs IH]; [done|]. unfold seg_logs, done_txs in *. cbn [flat_map] in *.
  apply app_eq_nil in El as [Hs El]. rewrite (IH El). destruct (sg_done sg) eqn:E; [|done].
  unfold seg_log in Hs. rewrite E in Hs. by apply app_eq_nil in Hs as [_ ?].
Qed.

Lemma after_flush_kept (l' : Lsm) pre s1 s2 :
  wal_holds (e_wal (l_engine l')) (seg_logs (s1 ++ s2)) -> after_flush l' pre (done_txs s1) = (pre, done_txs s1).
Proof.
  intros Hw. unfold after_flush. destruct (Z.eqb_spec (current_size (e_wal (l_engine l'))) 0) as [Hz|]; [|done].
  pose proof (empty_log _ _ Hw Hz) as E. rewrite done_txs_app in E. apply app_eq_nil in E as [-> _]. by rewrite app_nil_r.
Qed.

Lemma tree_flush base l pre f s1 s2 w h wb hb io l' r :
  tree_at base l pre f s1 s2 w h wb hb -> done_txs s2 = [] ->
  vs_next_file_id (version_set l) < u64_max -> is_u64 (io_now io) -> io_man_w io = IoOk -> io_man_s io = IoOk ->
  flush l io = Some (l', Ok r) ->
  exists f' s1' s2' wb' hb', tree_at base l' (after_flush l' pre (done_txs s1)).1 f' s1' s2' w h wb' hb' /\
    done_txs s1' = (after_flush l' pre (done_txs s1)).2 /\ done_txs s2' = [].
Proof.
  intros Ht Hnew Hid Hnow Hiw His Hfl. pose proof Ht as []. pose proof (lr_mem _ _ _ ta_rep0) as Hi.
  pose proof (lsm_rep_flush _ _ _ _ _ _ ta_rep0 Hid Hnow Hiw His Hfl) as Hrep.
  destruct (flush_effect l io l' r Hi ta_attached0 Hfl) as [->|(Hi' & Hm' & Hd' & Hq & Hn & Hmode & Hwal)].
  { rewrite (after_flush_kept l pre s1 s2) by apply ta_log0. by exists f, s1, s2, wb, hb. }
  assert (Hbase : lsm_rep w (flushed l') h).
  { destruct mt_default_ok as (Hdi & Hdm & _). pose proof (lr_seq _ _ _ ta_rep0).
    apply lsm_rep_engine; [done|done|cbn; by rewrite Hdm, Hm'|cbn; lia]. }
  destruct Hwal as [Hwal|Hwal].
  - rewrite (after_flush_kept l' pre s1 s2) by (rewrite Hwal; apply ta_log0). exists (done_txs s1), s1, s2, w, h. split; [|done].
    rewrite done_txs_app, Hnew, app_nil_r in ta_state0, ta_keys0. split; rewrite ?done_txs_app, ?Hnew, ?app_nil_r; try done; [|by rewrite Hq..].
    eapply log_inv_ext; [done|done| |done]. lia.
  - unfold after_flush. rewrite Hwal. cbn [current_size w_file lf_contents blen length Z.of_nat Z.eqb fst snd].
    exists [], [], [], w, h. split; [|done].
    destruct (ei_wal _ _ _ _ ta_log0) as (_ & _ & Htls & _). pose proof (ei_next _ _ _ _ ta_log0).
    rewrite done_txs_app, Hnew, app_nil_r in ta_state0.
    split; cbn; rewrite ?app_nil_r; try done; [|by constructor|by rewrite Hq..].
    split; cbn; try done; [rewrite Hwal|by rewrite Hwal|lia]. split; [done|]. split; [constructor|]. by rewrite Htls.
Qed.

(** ** Restart *)

(** The newest commit in the SST files. *)
Lemma sst_max_spec (read_all : Z -> Result (list VersionedRow)) files n0 :
  (forall f, In f files -> exists rows, read_all f = Ok rows) ->
  let mx := fold_left (fun mx file_id =>
    match read_all file_id with
    | Ok rows => fold_left (fun mx row => Z.max mx (begin_ts (row_version row))) rows mx
    | Err _ => mx
    end) files n0 in
  (n0 <= mx /\ forall f rows r, In f files -> read_all f = Ok rows -> In r rows -> begin_ts (row_version r) <= mx) /\
  (mx = n0 \/ exists f rows r, In f files /\ read_all f = Ok rows /\ In r rows /\ mx = begin_ts (row_version r)).
Proof.
  assert (Hrows : forall rows n, let mx := fold_left (fun mx row => Z.max mx (begin_ts (row_version row))) rows n in
    (n <= mx /\ forall r, In r rows -> begin_ts (row_version r) <= mx) /\ (mx = n \/ exists r, In r rows /\ mx = begin_ts (row_version r))).
  { induction rows as [|r rows IH]; intros n; cbn; [split; [split; [lia|done]|by left]|].
    destruct (IH (Z.max n (begin_ts (row_version r)))) as [[Hle Hall] Hex]. split.
    - split; [lia|]. intros r' [<-|Hin]; [lia|auto].
    - destruct Hex as [->|(r' & Hin & ->)]; [|right; exists r'; auto].
      destruct (Z.max_spec n (begin_ts (row_version r))) as [[_ ->]|[_ ->]]; [right; exists r; auto|by left]. }
  revert n0. induction files as [|f files IH]; intros n0 Hok; cbn; [split; [split; [lia|done]|by left]|].
  destruct (Hok f (or_introl eq_refl)) as [rows Hr]. rewrite Hr. destruct (Hrows rows n0) as [[Hle Hall] Hex].
  destruct (IH (fold_left (fun mx row => Z.max mx (begin_ts (row_version row))) rows n0)) as [[Hle2 Hall2] Hex2];
    [intros f' Hf'; apply Hok; by right|]. split.
  - split; [lia|]. intros f' rows' r [<-|Hin] Hr' Hin'; [|eauto]. rewrite Hr in Hr'. injection Hr' as <-. specialize (Hall r Hin'). lia.
  - destruct Hex2 as [E|(f' & rows' & r & ? & ? & ? & ?)]; [|right; exists f', rows', r; auto]. rewrite E.
    destruct Hex as [->|(r & Hin & ->)]; [by left|]. right. exists f, rows, r. auto.
Qed.

(** Every entry of the history of the files is at or before their newest commit. *)
Lemma flushed_bound w (l : Lsm) h c :
  lsm_rep w (flushed l) h -> w < OPEN_ENDED_TS -> (forall k b e v, sst_row l k b e v -> b <= c) ->
  forall k u, is_Some (h k !! u) -> u <= c.
Proof.
  intros Hrep Hw Hc k u Hu. pose proof (lr_core _ _ _ Hrep) as Hcore. destruct (lr_bound _ _ _ Hrep k u Hu) as [Hb _].
  pose proof (lr_seq _ _ _ Hrep) as Hseq.
  destruct (newest_exists (h k) (OPEN_ENDED_TS - 1) u Hu ltac:(lia)) as (t & a & Hn).
  destruct (cr_complete _ _ _ _ Hcore k (OPEN_ENDED_TS - 1) t a ltac:(lia) ltac:(lia) Hn) as [Hm|(e & v' & HP & _)].
  - destruct mt_default_ok as (_ & Hdm & _). unfold mem, flushed in Hm. cbn in Hm. rewrite Hdm in Hm.
    unfold key_history in Hm. cbn in Hm. rewrite lookup_empty in Hm. by destruct Hm.
  - destruct Hn as (_ & _ & Hmax). specialize (Hmax u Hu ltac:(lia)). specialize (Hc k t e v' HP). lia.
Qed.

(** So a tree that has only the files answers every snapshot from that commit on. *)
Lemma flushed_lower w (l l' : Lsm) h c :
  lsm_rep w (flushed l) h -> w < OPEN_ENDED_TS -> (forall k b e v, sst_row l k b e v -> b <= c) ->
  l_disk l' = l_disk l -> version_set l' = version_set l -> man_inv (l_manifest l') ->
  mem l' = mt_default -> e_commit_seq (l_engine l') = c + 1 -> 0 <= c -> c + 1 < OPEN_ENDED_TS ->
  lsm_rep c l' h.
Proof.
  intros Hrep Hw Hc Hdisk Hvs Hman' Hm Hq Hc0 Hb. pose proof (flushed_bound _ _ _ _ Hrep Hw Hc) as Hu.
  destruct mt_default_ok as (Hdi & Hdm & _). destruct Hrep as [Hi Hman Hd [Hwf Hmem Hsst Hcomp Hnew] Hseq Hfiles Hbound].
  assert (Em : mem (flushed l) = mt_default) by done. rewrite Em in *.
  assert (Hlive : forall x, live l' x <-> live (flushed l) x) by (intros x; unfold live; by rewrite Hvs).
  assert (Hrows : forall x rows, file_rows l' x rows <-> file_rows (flushed l) x rows)
    by (intros x rows; unfold file_rows; by rewrite Hdisk).
  split; rewrite ?Hm; try done.
  - intros x Hx%Hlive. destruct (Hd x Hx) as [rows Hr]. exists rows. by apply Hrows.
  - eapply core_rep_ext; [|split; [exact Hwf|exact Hmem|exact Hsst| |exact Hnew]].
    + intros k b e v. unfold sst_row. by setoid_rewrite Hlive; setoid_rewrite Hrows.
    + intros k s t v Hs Hso Hn.
      assert (Hn' : newest (h k) (OPEN_ENDED_TS - 1) t v)
        by (apply (newest_last (h k) s); [intros u Hk; specialize (Hu k u Hk); lia|done|done]).
      destruct (Hcomp k (OPEN_ENDED_TS - 1) t v ltac:(lia) ltac:(lia) Hn') as [|(x & v' & HP & Hx)]; [by left|].
      right. exists x, v'. split; [done|lia].
  - lia.
  - intros x rows Hx%Hlive Hr%Hrows. rewrite Hvs. by apply Hfiles.
  - intros k u Hk. specialize (Hu k u Hk). destruct (Hbound k u Hk). split; [lia|done].
Qed.

Lemma state_same h a b : state_is h a -> (forall k, latest_in k a = latest_in k b) -> state_is h b.
Proof. intros Hs E k val. rewrite <- E. apply Hs. Qed.

Lemma file_read (l : Lsm) x rows : file_rows l x rows -> image_rows (l_disk l) x = Ok rows.
Proof. intros (y & Hy & Hr). unfold image_rows. rewrite Hy. by apply sst_read_all_holds. Qed.

(** The newest commit in the files of a tree. *)
Definition newest_flushed (l : Lsm) : TxnTs := sst_max_commit (image_rows (l_disk l)) (file_ids (version_set l)).

(** The newest commit of the files: not before any row, and before the next commit. *)
Lemma files_newest w (l : Lsm) h :
  lsm_rep w (flushed l) h -> 1 <= e_commit_seq (l_engine l) ->
  let c := sst_max_commit (image_rows (l_disk l)) (file_ids (version_set l)) in
  0 <= c < e_commit_seq (l_engine l) /\ forall k b e v, sst_row l k b e v -> b <= c.
Proof.
  intros Hrep Hq. pose proof (lr_man _ _ _ Hrep) as Hman.
  assert (Hids : forall x, In x (file_ids (version_set l)) <-> live l x) by (intros x; exact (file_ids_live (flushed l) x Hman)).
  destruct (sst_max_spec (image_rows (l_disk l)) (file_ids (version_set l)) 0) as [[Hle Hall] Hex].
  { intros x Hx%Hids. destruct (lr_disk _ _ _ Hrep x Hx) as [rows Hr]. exists rows. by apply (file_read l). }
  fold (sst_max_commit (image_rows (l_disk l)) (file_ids (version_set l))) in Hle, Hall, Hex. split.
  - split; [done|]. destruct Hex as [->|(x & rows & r & Hx%Hids & Hr & Hin & ->)]; [lia|].
    destruct (lr_disk _ _ _ Hrep x Hx) as [rows' Hr']. pose proof (file_read l _ _ Hr') as E. rewrite Hr in E. injection E as ->.
    apply (lr_bound _ _ _ Hrep (row_key r) (begin_ts (row_version r))).
    exists (value (row_version r)). apply (cr_sst _ _ _ _ (lr_core _ _ _ Hrep)) with (e := end_ts (row_version r)).
    by exists x, rows', r.
  - intros k b e v (x & rows & r & Hx%Hids & Hr & Hin & _ & <- & _). apply file_read in Hr. by eapply Hall.
Qed.

(** The image a crash leaves: parts of the log and of the manifest that contain what
    is durable of them, and the files. *)
Definition crash_image (l : Lsm) (n nm : nat) (schemas : omap bytes Schema) : Image :=
  mkImage (Some (take n (lf_contents (w_file (e_wal (l_engine l))))))
    (Some (take nm (lf_contents (mf_path (l_manifest l))))) (l_disk l) schemas.

Lemma tree_reopen base l pre f s1 s2 w h wb hb n nm schemas hook mode wal_max :
  tree_at base l pre f s1 s2 w h wb hb ->
  blen (lf_contents (w_file (e_wal (l_engine l)))) <= u64_max ->
  lf_durable (w_file (e_wal (l_engine l))) <= Z.of_nat n -> torn_magic (take n (lf_contents (w_file (e_wal (l_engine l))))) = false ->
  lf_durable (mf_path (l_manifest l)) <= Z.of_nat nm ->
  e_commit_seq (l_engine l) + Z.of_nat (length (done_txs (s1 ++ s2))) < OPEN_ENDED_TS ->
  exists l' s2' c h', lsm_open (crash_image l n nm schemas) hook mode wal_max IoOk IoOk IoOk = Some (Ok l') /\
    done_txs s2' `prefix_of` done_txs s2 /\ e_sync_mode (l_engine l') = mode /\
    version_set l' = version_set l /\ l_dropped l' = vs_dropped (version_set l) /\
    e_commit_seq (l_engine l') = newest_flushed l + 1 + Z.of_nat (length (done_txs (s1 ++ s2'))) /\
    tree_at (e_next_tx_id (l_engine l')) l' pre f (s1 ++ s2') [] c h' c hb.
Proof.
  intros [] Hlen Hdn Hn4 Hnm Hroom.
  destruct (man_reopen_inv (l_manifest l) nm (lr_man _ _ _ ta_rep0) ta_attached0 Hnm) as (m' & Ho & Hvs & Hman & Hdet).
  destruct (files_newest _ _ _ ta_flushed0 ta_seq0) as [Hc Hall].
  set (c := sst_max_commit (image_rows (l_disk l)) (file_ids (version_set l))) in *.
  destruct (engine_reopen c base (l_engine l) s1 s2 n (im_manifest (crash_image l n nm schemas)) (image_rows (l_disk l)) m' hook mode)
    as (e' & s2' & Hoe & Hp & Hi & Hmode & _); [done|lia|lia|done|done|done|by split; [|rewrite Hvs]|].
  pose proof Hi as [Hc0 Hlog Hmem Hmap Hseq Hbound]. rewrite app_nil_r in Hmap, Hseq.
  set (txs := done_txs (s1 ++ s2')) in *.
  assert (Hpre : txs `prefix_of` done_txs (s1 ++ s2)) by (unfold txs; rewrite !done_txs_app; by apply prefix_app).
  assert (Hk : keys_ok txs) by (destruct Hpre as [g Hg]; rewrite Hg in ta_keys0; by apply Forall_app in ta_keys0 as [? _]).
  unfold lsm_open. cbn [im_wal im_disk im_schemas crash_image]. rewrite Hoe.
  destruct (recovered_counts (image_rows (l_disk l)) (file_ids (mf_version_set m'))) as [n0 tables].
  set (l' := mkLsm e' m' (l_disk l) (vs_dropped (mf_version_set m')) n0 tables wal_max schemas).
  set (e0 := with_commit_seq (with_memtable e' mt_default) (c + 1)).
  assert (Hb0 : lsm_rep c (with_engine l' e0) hb) by (apply (flushed_lower wb l); try done; lia).
  assert (Hct : commits_to e0 e' txs).
  { destruct mt_default_ok as (_ & Hdm & _). split; cbn [e0 with_commit_seq with_memtable e_commit_seq e_memtable]; rewrite ?Hdm; done || lia. }
  exists l', s2', c, (extend hb (number_commits (c + 1) txs)). split; [done|]. split; [done|]. split; [done|].
  split; [exact Hvs|]. split; [cbn; by rewrite Hvs|]. split; [exact Hseq|].
  split; rewrite ?app_nil_r; fold txs; try done.
  - unfold txs. rewrite done_txs_app. by apply prefix_app_r.
  - exact (lsm_rep_commit c (with_engine l' e0) hb e' txs Hb0 Hct Hk).
  - cbn. lia.
  - cbn. lia.
  - assert (Hs : state_is (extend hb (number_commits (c + 1) txs)) (muts_of ((pre ++ f) ++ txs))).
    { apply state_extend; [done| |lia]. intros k u Hu. pose proof (lr_seq _ _ _ ta_rep0).
      pose proof (flushed_bound wb l hb c ta_flushed0 ltac:(lia) Hall k u Hu). lia. }
    eapply state_same; [exact Hs|]. intros k. destruct ta_prefix0 as [g Hg].
    unfold txs. rewrite done_txs_app, Hg, <- (app_assoc f g). exact (latest_replay pre f _ k).
  - exact (flushed_engine c (with_engine l' e0) hb e' Hb0 ltac:(cbn; lia)).
  - cbn. lia.
Qed.

(** ** Runs *)

(** [tree_run base l pre log new]: the tree [l] is reached from an empty directory by
    writes, group commits, syncs, reads, collections, flushes, compactions, crashes
    and restarts.  It committed [pre ++ log ++ new], in order; [pre] is no longer in
    the log, [log] is in its durable part and [new] in the rest; [base] is the first
    transaction id it could hand out since it was last opened.  A flush starts when
    the log is durable, which in full-sync mode it always is. *)
Inductive tree_run : Z -> Lsm -> txs_list -> txs_list -> txs_list -> Prop :=
  | tr_create schemas hook mode wal_max l :
      lsm_open (mkImage None None [] schemas) hook mode wal_max IoOk IoOk IoOk = Some (Ok l) ->
      tree_run (e_next_tx_id (l_engine l)) l [] [] []
  | tr_write base l pre log new ms throttle e' r :
      tree_run base l pre log new -> Forall mutation_ok ms -> Forall (fun m => blen (mutation_key m) < u32_max) ms ->
      e_next_tx_id (l_engine l) < u64_max -> e_commit_seq (l_engine l) + 1 < OPEN_ENDED_TS ->
      engine_write (l_engine l) ms throttle IoOk IoOk = (e', r) ->
      let s := log_after (e_sync_mode (l_engine l)) log new (committed (e_next_tx_id (l_engine l)) ms r) in
      tree_run base (with_engine l e') pre s.1 s.2
  | tr_write_with_tx base l pre log new tx ms throttle e' r :
      tree_run base l pre log new -> Forall mutation_ok ms -> Forall (fun m => blen (mutation_key m) < u32_max) ms ->
      base <= tx < u64_max -> e_commit_seq (l_engine l) + 1 < OPEN_ENDED_TS ->
      write_with_tx (l_engine l) tx ms throttle IoOk IoOk = (e', r) ->
      let s := log_after (e_sync_mode (l_engine l)) log new (committed tx ms r) in
      tree_run base (with_engine l e') pre s.1 s.2
  | tr_group base l pre log new batch e' sent r :
      tree_run base l pre log new ->
      Forall (fun req => tx_ok base (pw_tx_id req, pw_mutations req)) batch ->
      Forall (fun req => Forall (fun m => blen (mutation_key m) < u32_max) (pw_mutations req)) batch ->
      e_commit_seq (l_engine l) + Z.of_nat (length batch) < OPEN_ENDED_TS ->
      flush_pending_batch (l_engine l) batch IoOk IoOk = (e', sent, r) ->
      let s := log_after (e_sync_mode (l_engine l)) log new (sent_txs sent) in
      tree_run base (with_engine l e') pre s.1 s.2
  | tr_sync base l pre log new :
      tree_run base l pre log new -> tree_run base (with_engine l (background_sync (l_engine l) IoOk)) pre (log ++ new) []
  | tr_begin_read base l pre log new :
      tree_run base l pre log new -> tree_run base (with_engine l (begin_read (l_engine l)).1) pre log new
  | tr_unpin base l pre log new s :
      tree_run base l pre log new -> tree_run base (with_engine l (unpin_snapshot (l_engine l) s)) pre log new
  | tr_register base l pre log new schemas :
      tree_run base l pre log new -> tree_run base (with_schemas l schemas) pre log new
  | tr_gc base l pre log new :
      tree_run base l pre log new -> versions_count (mt_map (mem l)) <= u64_max ->
      tree_run base (with_engine l (engine_garbage_collect (l_engine l)).1) pre log new
  | tr_flush base l pre log io l' r :
      tree_run base l pre log [] -> vs_next_file_id (version_set l) < u64_max -> is_u64 (io_now io) ->
      io_man_w io = IoOk -> io_man_s io = IoOk -> flush l io = Some (l', Ok r) ->
      tree_run base l' (after_flush l' pre log).1 (after_flush l' pre log).2 []
  | tr_compact base l pre log new src tgt io l' r :
      tree_run base l pre log new -> vs_next_file_id (version_set l) + 1 < u64_max -> is_u32 tgt -> is_u64 (io_now io) ->
      io_man_w io = IoOk -> io_man_s io = IoOk -> compact l src tgt io = Some (l', Ok r) -> tree_run base l' pre log new
  | tr_sub_compact base l pre log new src tgt io l' r :
      tree_run base l pre log new ->
      vs_next_file_id (version_set l) + Z.of_nat (length (file_ids (version_set l))) < u64_max ->
      is_u32 tgt -> is_u64 (io_now io) -> io_man_w io = IoOk -> io_man_s io = IoOk ->
      sub_compact l src tgt (engine_watermark (l_engine l)) io = Some (l', Ok r) -> tree_run base l' pre log new
  | tr_restart base l pre log new n nm schemas hook mode wal_max l' :
      tree_run base l pre log new -> blen (lf_contents (w_file (e_wal (l_engine l)))) <= u64_max ->
      lf_durable (w_file (e_wal (l_engine l))) <= Z.of_nat n -> torn_magic (take n (lf_contents (w_file (e_wal (l_engine l))))) = false ->
      lf_durable (mf_path (l_manifest l)) <= Z.of_nat nm ->
      e_commit_seq (l_engine l) + Z.of_nat (length (log ++ new)) < OPEN_ENDED_TS ->
      lsm_open (crash_image l n nm schemas) hook mode wal_max IoOk IoOk IoOk = Some (Ok l') ->
      forall new', new' `prefix_of` new ->
      e_commit_seq (l_engine l') = newest_flushed l + 1 + Z.of_nat (length (log ++ new')) ->
      tree_run (e_next_tx_id (l_engine l')) l' pre (log ++ new') [].

Definition tree_inv (base : Z) (l : Lsm) (pre log new : txs_list) : Prop :=
  exists f s1 s2 w h wb hb, tree_at base l pre f s1 s2 w h wb hb /\ done_txs s1 = log /\ done_txs s2 = new.

Lemma tree_inv_commit base l pre log new e' txs :
  tree_inv base l pre log new -> commits_to (l_engine l) e' txs -> keys_ok txs ->
  (forall s1 s2, log_inv base (l_engine l) s1 s2 ->
     log_inv_at base e' (log_after (e_sync_mode (l_engine l)) s1 s2 (map done_seg txs))) ->
  let s := log_after (e_sync_mode (l_engine l)) log new txs in
  tree_inv base (with_engine l e') pre s.1 s.2.
Proof.
  intros (f & s1 & s2 & w & h & wb & hb & Ht & <- & <-) Hc Hk Hlog s.
  pose proof (tree_at_commit _ _ _ _ _ _ _ _ _ _ e' txs Ht Hc Hk (Hlog s1 s2 (ta_log _ _ _ _ _ _ _ _ _ _ Ht))) as Ht'.
  destruct (done_log_after (e_sync_mode (l_engine l)) s1 s2 txs) as [E1 E2].
  do 7 eexists. split; [exact Ht'|done].
Qed.

Lemma tree_inv_idle base l pre log new e' :
  tree_inv base l pre log new -> e_memtable e' = e_memtable (l_engine l) -> e_commit_seq e' = e_commit_seq (l_engine l) ->
  e_wal e' = e_wal (l_engine l) -> e_sync_mode e' = e_sync_mode (l_engine l) ->
  e_next_tx_id (l_engine l) <= e_next_tx_id e' -> tree_inv base (with_engine l e') pre log new.
Proof.
  intros (f & s1 & s2 & w & h & wb & hb & Ht & E1 & E2) Hm Hq Hw Hs Hn. exists f, s1, s2, w, h, wb, hb. split; [|done].
  pose proof Ht as []. eapply tree_at_idle; try done. by eapply log_inv_ext.
Qed.

Lemma tree_create schemas hook mode wal_max l :
  lsm_open (mkImage None None [] schemas) hook mode wal_max IoOk IoOk IoOk = Some (Ok l) ->
  tree_inv (e_next_tx_id (l_engine l)) l [] [] [].
Proof.
  unfold lsm_open. cbn [im_wal im_manifest im_disk im_schemas].
  destruct (engine_open_holds 0 None empty_wal [] None (image_rows []) man_empty hook mode) as (e & -> & Hi & _);
    try done.
  cbn. intros [= <-]. set (l := mkLsm _ _ _ _ _ _ _ _). pose proof Hi as [_ Hlog Hmem Hmap Hseq Hb]. cbn in Hmap, Hseq.
  destruct mt_default_ok as (Hdi & Hdm & _).
  assert (Hnew : lsm_rep 0 (flushed l) (fun _ => ∅)) by (apply lsm_rep_new; [done|done|cbn; lia]).
  exists [], [], [], 0, (fun _ => ∅), 0, (fun _ => ∅). split; [|done].
  split; cbn [app muts_of List.flat_map done_txs]; try done; [by constructor| |cbn; lia|cbn; lia|apply state_empty|cbn; lia|apply state_empty].
  apply (lsm_rep_engine 0 (flushed l) (fun _ => ∅) e Hnew); [done|cbn; by rewrite Hmap, Hdm|cbn; lia].
Qed.

Lemma tree_run_inv base l pre log new : tree_run base l pre log new -> tree_inv base l pre log new.
Proof.
  induction 1 as [schemas hook mode wal_max l Ho
    |base l pre log new ms th e' r _ IH Hms Hk Hid Hb Hw|base l pre log new tx ms th e' r _ IH Hms Hk Htx Hb Hw
    |base l pre log new batch e' sent r _ IH Hok Hk Hb Hf|base l pre log new _ IH|base l pre log new _ IH|base l pre log new s _ IH
    |base l pre log new schemas _ IH|base l pre log new _ IH Hv|base l pre log io l' r _ IH Hid Hnow Hiw His Hf
    |base l pre log new src tgt io l' r _ IH Hid Ht Hnow Hiw His Hc|base l pre log new src tgt io l' r _ IH Hid Ht Hnow Hiw His Hc
    |base l pre log new n nm schemas hook mode wal_max l' _ IH Hlen Hd Hn Hnm Hroom Ho new' Hp Hseq].
  - by eapply tree_create.
  - pose proof IH as (f & s1 & s2 & w & h & wb & hb & [] & _). pose proof (lr_mem _ _ _ ta_rep0) as Hi.
    apply tree_inv_commit; [done| |by apply committed_keys_ok|].
    + erewrite <- alloc_next by done. by eapply engine_write_to; [..|exact Hw]; try lia.
    + intros t1 t2 Hl. by eapply engine_write_log; [..|exact Hw]; try lia.
  - pose proof IH as (f & s1 & s2 & w & h & wb & hb & [] & _). pose proof (lr_mem _ _ _ ta_rep0) as Hi.
    apply tree_inv_commit; [done|by eapply write_with_tx_to; [..|exact Hw]; try lia|by apply committed_keys_ok|].
    intros t1 t2 Hl. by eapply write_with_tx_log; [..|exact Hw]; try lia.
  - pose proof IH as (f & s1 & s2 & w & h & wb & hb & [] & _). pose proof (lr_mem _ _ _ ta_rep0) as Hi.
    destruct (flush_pending_to (l_engine l) batch IoOk IoOk e' sent r) as [Hc Hin]; [done|lia|done|done|].
    apply tree_inv_commit; [done|done| |].
    + apply List.Forall_forall. intros t Ht. destruct (Hin t Ht) as (req & Hreq & ->). rewrite List.Forall_forall in Hk. by apply Hk.
    + intros t1 t2 Hl. by eapply flush_pending_log; [..|exact Hf]; try lia.
  - destruct IH as (f & s1 & s2 & w & h & wb & hb & Ht & <- & <-). exists f, (s1 ++ s2), [], w, h, wb, hb.
    split; [|by rewrite done_txs_app]. pose proof Ht as []. eapply tree_at_idle; try done; [by apply background_sync_log|by rewrite app_nil_r|].
    rewrite done_txs_app. by apply prefix_app_r.
  - by apply tree_inv_idle.
  - destruct (unpin_same (l_engine l) s) as (? & ? & ? & ? & Hnx). apply tree_inv_idle; try done. lia.
  - destruct IH as (f & s1 & s2 & w & h & wb & hb & [] & ?). exists f, s1, s2, w, h, wb, hb. split; [|done].
    split; try done; [by destruct ta_rep0|by destruct ta_flushed0].
  - destruct IH as (f & s1 & s2 & w & h & wb & hb & Ht & ?). do 7 eexists. split; [by apply tree_gc|done].
  - destruct IH as (f & s1 & s2 & w & h & wb & hb & Ht & <- & E2).
    destruct (tree_flush _ _ _ _ _ _ _ _ _ _ io l' r Ht E2 Hid Hnow Hiw His Hf) as (f' & s1' & s2' & wb' & hb' & Ht' & E1' & E2').
    by exists f', s1', s2', w, h, wb', hb'.
  - destruct IH as (f & s1 & s2 & w & h & wb & hb & Ht' & ?). pose proof Ht' as []. unfold compact in Hc.
    destruct (compact_keeps _ _ _ _ _ _ _ Hc ta_attached0) as [He Hd].
    do 7 eexists. split; [|done]. eapply tree_compacted; [exact Ht'| |done|by eapply lsm_rep_compact|].
    + unfold engine_watermark, saturating_sub. lia.
    + eapply lsm_rep_compact; [exact ta_flushed0|done..|]. by apply flushed_compact.
  - destruct IH as (f & s1 & s2 & w & h & wb & hb & Ht' & ?). pose proof Ht' as [].
    destruct (sub_compact_keeps _ _ _ _ _ _ _ Hc ta_attached0) as [He Hd].
    do 7 eexists. split; [|done]. eapply tree_compacted; [exact Ht'| |done|by eapply lsm_rep_sub_compact|].
    + unfold engine_watermark, saturating_sub. lia.
    + eapply lsm_rep_sub_compact; [exact ta_flushed0|done..|]. by apply flushed_sub_compact.
  - destruct IH as (f & s1 & s2 & w & h & wb & hb & Ht & <- & <-). rewrite <- done_txs_app in Hroom.
    destruct (tree_reopen base l pre f s1 s2 w h wb hb n nm schemas hook mode wal_max Ht Hlen Hd Hn Hnm Hroom)
      as (l2 & s2' & c & h' & Ho2 & Hp2 & _ & _ & _ & Hseq2 & Ht2).
    rewrite Ho in Ho2. injection Ho2 as <-.
    assert (E : new' = done_txs s2').
    { apply (prefix_same_length _ _ (done_txs s2)); [done|done|]. rewrite !length_app in Hseq. rewrite done_txs_app, length_app in Hseq2. lia. }
    exists f, (s1 ++ s2'), [], c, h', c, hb. split; [done|]. by rewrite done_txs_app, E.
Qed.

(** ** The theorem *)

(** What a full scan now returns: the last mutation of every key, in key order. *)
Definition reads_txs (l : Lsm) (txs : txs_list) : Prop :=
  exists out, scan_all l (snapshot_ts (l_engine l)) = Ok out /\ StronglySorted clt (map fst out) /\
    forall k val, is_dropped_prefix l k = false -> In (k, val) out <-> latest txs k = Some val.

Lemma tree_reads base l pre log new : tree_inv base l pre log new -> reads_txs l (pre ++ log ++ new).
Proof.
  intros (f & s1 & s2 & w & h & wb & hb & [] & <- & <-). pose proof (lr_seq _ _ _ ta_rep0) as Hseq.
  assert (E : snapshot_ts (l_engine l) = e_commit_seq (l_engine l) - 1) by (unfold snapshot_ts, saturating_sub; lia).
  destruct (scan_all_rep w l h (snapshot_ts (l_engine l)) ta_rep0) as (out & Ho & Hs & Hin); [lia|lia|].
  exists out. split; [done|]. split; [done|]. intros k val Hk. rewrite (Hin k val Hk). rewrite <- done_txs_app.
  rewrite <- (ta_state0 k val). split; intros (t & Ht); exists t; (apply (newest_last (h k) (snapshot_ts (l_engine l))) in Ht || apply (newest_last (h k) (snapshot_ts (l_engine l)))); try done; try lia;
    intros u Hu; apply (lr_bound _ _ _ ta_rep0) in Hu as [? _]; lia.
Qed.

(** Opening a crash image of a run: what it gives, and what it reads. *)
Lemma tree_restarts base l pre log new n nm schemas hook mode wal_max :
  tree_run base l pre log new -> blen (lf_contents (w_file (e_wal (l_engine l)))) <= u64_max ->
  lf_durable (w_file (e_wal (l_engine l))) <= Z.of_nat n -> torn_magic (take n (lf_contents (w_file (e_wal (l_engine l))))) = false ->
  lf_durable (mf_path (l_manifest l)) <= Z.of_nat nm ->
  e_commit_seq (l_engine l) + Z.of_nat (length (log ++ new)) < OPEN_ENDED_TS ->
  exists l' new', lsm_open (crash_image l n nm schemas) hook mode wal_max IoOk IoOk IoOk = Some (Ok l') /\
    new' `prefix_of` new /\ e_commit_seq (l_engine l') = newest_flushed l + 1 + Z.of_nat (length (log ++ new')) /\
    reads_txs l' (pre ++ log ++ new').
Proof.
  intros Hrun Hlen Hd Hn Hnm Hroom. destruct (tree_run_inv _ _ _ _ _ Hrun) as (f & s1 & s2 & w & h & wb & hb & Ht & E1 & E2).
  rewrite <- E1, <- E2, <- done_txs_app in Hroom.
  destruct (tree_reopen base l pre f s1 s2 w h wb hb n nm schemas hook mode wal_max Ht Hlen Hd Hn Hnm Hroom)
    as (l' & s2' & c & h' & Ho & Hp & _ & _ & _ & Hseq & Ht').
  rewrite done_txs_app, E1 in Hseq. rewrite E2 in Hp.
  exists l', (done_txs s2'). split; [done|]. split; [done|]. split; [done|].
  pose proof (tree_reads (e_next_tx_id (l_engine l')) l' pre (log ++ done_txs s2') []) as Hr. rewrite app_nil_r in Hr.
  apply Hr. exists f, (s1 ++ s2'), [], c, h', c, hb. split; [done|]. by rewrite done_txs_app, E1.
Qed.

(** An image whose log is cut inside the first magic number is refused; nothing that
    the log still holds was durable. *)
Lemma tree_refused base l pre log new n nm schemas (hook : H) mode wal_max io_man io_len io_s :
  tree_run base l pre log new -> lf_durable (w_file (e_wal (l_engine l))) <= Z.of_nat n ->
  torn_magic (take n (lf_contents (w_file (e_wal (l_engine l))))) = true ->
  log = [] /\ lsm_open (crash_image l n nm schemas) hook mode wal_max io_man io_len io_s =
    Some (Err (CorruptMessage "WAL file uses an unsupported format")).
Proof.
  intros Hrun Hd Ht. destruct (tree_run_inv _ _ _ _ _ Hrun) as (f & s1 & s2 & w & h & wb & hb & Hat & <- & _).
  destruct (engine_open_refused base (l_engine l) s1 s2 n (im_manifest (crash_image l n nm schemas)) (image_rows (l_disk l))
    hook mode io_man io_len io_s (ta_log _ _ _ _ _ _ _ _ _ _ Hat) Hd Ht) as [-> Ho].
  split; [done|]. unfold lsm_open. cbn [im_wal im_disk crash_image] in *. by rewrite Ho.
Qed.

(** C2: restart of the whole tree.  Take any run of a tree (commits in either sync
    mode with any result of the hook and the throttle, syncs, collections, flushes
    that start on a durable log, compactions, earlier crashes and restarts) in which
    the writes and syncs of the log and the manifest succeed, that committed
    [pre ++ log ++ new]; and a crash between two of these operations, which leaves
    the SST files, all of the manifest (its edits are synced) and any prefix of the
    log that contains its durable part.  If that prefix ends inside the first magic
    number (one to three bytes), opening is refused, and nothing of [log] is in
    it.  Otherwise opening, whose own file operations succeed, gives a tree of such a
    run: it reads exactly as [pre ++ log] and a prefix of [new], although the
    flushed transactions still in the log are replayed with new timestamps.  Before
    the crash the tree reads as all of them, and in full-sync mode nothing is lost. *)
Theorem tree_crash_recovery (base : Z) (l : Lsm) (pre log new : txs_list) (n nm : nat)
    (schemas : omap bytes Schema) (hook : H) (mode : SyncMode) (wal_max : Z) :
  tree_run base l pre log new -> blen (lf_contents (w_file (e_wal (l_engine l)))) <= u64_max ->
  lf_durable (w_file (e_wal (l_engine l))) <= Z.of_nat n ->
  lf_durable (mf_path (l_manifest l)) <= Z.of_nat nm ->
  e_commit_seq (l_engine l) + Z.of_nat (length (log ++ new)) < OPEN_ENDED_TS ->
  let opened := lsm_open (crash_image l n nm schemas) hook mode wal_max IoOk IoOk IoOk in
  if torn_magic (take n (lf_contents (w_file (e_wal (l_engine l))))) then
    log = [] /\ opened = Some (Err (CorruptMessage "WAL file uses an unsupported format"))
  else
    exists l' new', opened = Some (Ok l') /\
      new' `prefix_of` new /\ tree_run (e_next_tx_id (l_engine l')) l' pre (log ++ new') [] /\
      reads_txs l' (pre ++ log ++ new') /\ reads_txs l (pre ++ log ++ new) /\
      (e_sync_mode (l_engine l) = Full -> new' = new).
Proof.
  intros Hrun Hlen Hd Hnm Hroom opened. destruct (torn_magic _) eqn:Hn; [by eapply tree_refused|].
  pose proof (tree_run_inv _ _ _ _ _ Hrun) as Hinv.
  destruct (tree_restarts base l pre log new n nm schemas hook mode wal_max) as (l' & new' & Ho & Hp & Hseq & Hr); [done..|].
  exists l', new'. split; [done|]. split; [done|]. split; [by eapply tr_restart|]. split; [done|].
  split; [by eapply tree_reads|]. intros Hf. destruct Hinv as (f & s1 & s2 & w & h & wb & hb & Ht & E1 & E2).
  rewrite (ei_full _ _ _ _ (ta_log _ _ _ _ _ _ _ _ _ _ Ht) Hf) in E2. cbn in E2. subst new. by apply prefix_nil_inv in Hp.
Qed.
End Tree.

(** ** Samples *)

Section Samples.
#[local] Existing Instance no_sse42.
#[local] Existing Instance list_vortex.
#[local] Existing Instance list_vortex_laws.

Definition open_sample (im : Image) (mode : SyncMode) : SampleLsm :=
  match lsm_open im tt mode 1000000 IoOk IoOk IoOk with Some (Ok l) => l | _ => new_lsm end.
Definition restart (l : SampleLsm) (n : nat) : SampleLsm := open_sample (crash_image l n 1000 []) (e_sync_mode (l_engine l)).

Definition full_lsm : SampleLsm := Eval vm_compute in open_sample (mkImage None None [] []) Full.
Definition full_put : SampleLsm := Eval vm_compute in put full_lsm [x61] [x31].
Definition full_flushed : SampleLsm := Eval vm_compute in after full_put (flush full_put all_ok).
Definition full_put2 : SampleLsm := Eval vm_compute in put full_flushed [x62] [x32].

Definition tx_a : Z * list Mutation := (1, [MPut [x61] [x31]]).
Definition tx_b : Z * list Mutation := (2, [MPut [x62] [x32]]).

Lemma sample_tree_run : tree_run 1 full_put2 [] [tx_a; tx_b] [].
Proof.
  assert (Hnow : is_u64 (io_now all_ok)) by (vm_compute; split; congruence).
  assert (H0 : tree_run 1 full_lsm [] [] []).
  { apply (tr_create [] tt Full 1000000 full_lsm). vm_cast_no_check (eq_refl (Some (Ok (E := EngineError) full_lsm))). }
  assert (H1 : tree_run 1 full_put [] [tx_a] []).
  { refine (tr_write 1 full_lsm [] [] [] [MPut [x61] [x31]] ThrottleNone (l_engine full_put) (Ok 1) H0 _ _ _ _ _);
      [by repeat constructor..|done|done|vm_compute; reflexivity]. }
  assert (F1 : flush full_put all_ok = Some (full_flushed, Ok (Some (mkHandle 0 [x61] [x61] 1 1))))
    by vm_cast_no_check (eq_refl (Some (full_flushed, Ok (E := EngineError) (Some (mkHandle 0 [x61] [x61] 1 1))))).
  pose proof (tr_flush 1 full_put [] [tx_a] all_ok _ _ H1 eq_refl Hnow eq_refl eq_refl F1) as H2.
  refine (tr_write 1 full_flushed [] [tx_a] [] [MPut [x62] [x32]] ThrottleNone (l_engine full_put2) (Ok 2) H2 _ _ _ _ _);
    [by repeat constructor..|done|done|vm_compute; reflexivity].
Qed.

(** The first transaction is in a file and in the log; after the restart it is read
    once, and the newer one beside it. *)
Lemma tree_crash_recovery_witness :
  exists l', lsm_open (crash_image full_put2 200 200 []) tt Full 1000000 IoOk IoOk IoOk = Some (Ok l') /\
    reads_txs l' [tx_a; tx_b] /\ latest [tx_a; tx_b] [x61] = Some (Some [x31]).
Proof.
  pose proof (tree_crash_recovery 1 full_put2 [] [tx_a; tx_b] [] 200 200 [] tt Full 1000000 sample_tree_run) as Hrec.
  change (torn_magic _) with false in Hrec. destruct Hrec as (l' & new' & Ho & _ & _ & Hr & _ & Hf).
  - vm_compute. congruence.
  - vm_compute. congruence.
  - vm_compute. congruence.
  - reflexivity.
  - exists l'. split; [exact Ho|]. split; [|reflexivity]. rewrite (Hf eq_refl) in Hr. exact Hr.
Defined.

(** *** What the conditions exclude *)

(** In group mode, a flush of commits whose log is not durable: after a crash that
    keeps the first of two transactions in the log, its replay gets the newest
    timestamp.  Key [a] has its old value back while key [b], written with the new
    one, keeps it: no prefix of the commits reads so. *)
Definition group_flushed : SampleLsm :=
  let l := put new_lsm [x61] [x31] in
  let l := with_engine l (engine_write (l_engine l) [MPut [x61] [x32]; MPut [x62] [x32]] ThrottleNone IoOk IoOk).1 in
  after l (flush l all_ok).
Lemma group_replay_reverts :
  let first := length (lf_contents (w_file (e_wal (l_engine (put new_lsm [x61] [x31]))))) in
  lf_durable (w_file (e_wal (l_engine group_flushed))) = 0 /\
  scan_all group_flushed 2 = Ok [([x61], Some [x32]); ([x62], Some [x32])] /\
  scan_all (restart group_flushed first) 3 = Ok [([x61], Some [x31]); ([x62], Some [x32])].
Proof. vm_compute. repeat split; reflexivity. Qed.

(** A row of a dropped table that is still in the log returns with the next restart:
    the replay puts it back into the memtable, which scans do not filter. *)
Definition table_row : bytes := table_prefix [x74] ++ [x61].
Definition dropped_sample : SampleLsm :=
  let l := put full_lsm table_row [x31] in
  after l (drop_table_prefix l [x74] IoOk IoOk rw_all_ok).
Lemma dropped_rows_return :
  scan_all dropped_sample 1 = Ok [] /\ is_dropped_prefix (restart dropped_sample 200) table_row = true /\
  scan_all (restart dropped_sample 200) 1 = Ok [(table_row, Some [x31])].
Proof. vm_compute. repeat split; reflexivity. Qed.

(** Clearing the mark of a dropped table, which re-creating it needs, makes its old
    rows in SST files visible again, and no compaction removes them. *)
Definition undropped_sample : SampleLsm :=
  let l := put full_lsm table_row [x31] in
  let l := after l (flush l all_ok) in
  let l := after l (drop_table_prefix l [x74] IoOk IoOk rw_all_ok) in
  (undrop_table_prefix l [x74] IoOk IoOk rw_all_ok).1.
Lemma undrop_returns_rows :
  scan_all undropped_sample 1 = Ok [(table_row, Some [x31])].
Proof. vm_compute. reflexivity. Qed.
End Samples.
