(* ===== verification/Lifecycle.v ===== *)
(** * Life of an engine ([hatp-engine/src/lib.rs], [open_with_hook], [shutdown], [Drop];
    [hatp/src/embedded.rs], [Drop for Database])

    An open engine has a compaction thread, and in group mode a thread that syncs the
    log.  The compaction thread owns a counted pointer to the engine, the sync thread
    only one to the log.  [shutdown] raises the flags and joins the threads; [Drop]
    calls it, and runs when the last counted pointer goes.  A [Database] saves its
    catalog when its last handle goes. *)

From Stdlib Require Import Strings.String.
From stdpp Require Import base tactics list option gmap relations.
From S2P Require Import Prelude OrdMap Types Version Crc32c Wal MemTable MemTableProps TxManager Codec Arrow RowCodec Manifest Compaction Engine Snapshots Sst SstProps Lsm LsmProps Restart.
#[local] Open Scope Z_scope.
#[local] Set Warnings "-clear-no-such-hyp".

(** ** Threads and handles *)

Inductive Thread := ThRunning | ThExited.

(** The compaction thread joins itself when it drops the engine. *)
Inductive DropState := NotDropped | Dropped | SelfJoin.

Record Life := mkLife {
  lf_handles : nat;               (* counted pointers outside the threads *)
  lf_worker : Thread;
  lf_worker_handle : bool;        (* [compaction_worker] holds a join handle *)
  lf_shutdown : bool;             (* [compaction_shutdown] *)
  lf_sync : option Thread;        (* the sync thread, in group mode *)
  lf_sync_handle : bool;
  lf_sync_shutdown : bool;
  lf_final_sync : bool;           (* the last sync of the log was made *)
  lf_drop : DropState;
}.

(** The end of [open_with_hook]: the threads started. *)
Definition spawn (mode : SyncMode) : Life :=
  match mode with
  | Full => mkLife 1 ThRunning true false None false false false NotDropped
  | Group _ => mkLife 1 ThRunning true false (Some ThRunning) true false false NotDropped
  end.

Definition strong_count (l : Life) : nat :=
  (lf_handles l + match lf_worker l with ThRunning => 1 | ThExited => 0 end)%nat.

(** [Engine::shutdown]: a joined thread has seen its flag and returned; the sync thread
    syncs the log once more before it does. *)
Definition shutdown (l : Life) : Life :=
  let joined := lf_worker_handle l in
  let synced := lf_sync_handle l in
  mkLife (lf_handles l) (if joined then ThExited else lf_worker l) false true
    (if synced then Some ThExited else lf_sync l) false true (synced || lf_final_sync l) (lf_drop l).

Definition with_handles (l : Life) (n : nat) : Life :=
  mkLife n (lf_worker l) (lf_worker_handle l) (lf_shutdown l) (lf_sync l) (lf_sync_handle l) (lf_sync_shutdown l)
    (lf_final_sync l) (lf_drop l).
Definition with_drop (l : Life) (d : DropState) : Life :=
  mkLife (lf_handles l) (lf_worker l) (lf_worker_handle l) (lf_shutdown l) (lf_sync l) (lf_sync_handle l) (lf_sync_shutdown l)
    (lf_final_sync l) d.

(** [Drop for Engine] *)
Definition engine_drop (l : Life) : Life := shutdown (with_drop l Dropped).

(** A pointer outside the threads goes. *)
Definition release (l : Life) : Life :=
  let l := with_handles l (lf_handles l - 1) in
  match strong_count l with O => engine_drop l | S _ => l end.

(** The compaction thread gives up after too many panics and lets go of its pointer;
    if that was the last one [Drop] runs on this thread, whose own handle it joins. *)
Definition worker_quits (l : Life) : Life :=
  let l := mkLife (lf_handles l) ThExited (lf_worker_handle l) (lf_shutdown l) (lf_sync l) (lf_sync_handle l)
             (lf_sync_shutdown l) (lf_final_sync l) (lf_drop l) in
  match strong_count l with
  | O => with_drop l (if lf_worker_handle l then SelfJoin else Dropped)
  | S _ => l
  end.

Inductive LifeEvent := EvClone | EvRelease | EvShutdown | EvQuit.
Inductive life_step : Life -> LifeEvent -> Life -> Prop :=
| ls_clone l : (0 < lf_handles l)%nat -> life_step l EvClone (with_handles l (S (lf_handles l)))
| ls_release l : (0 < lf_handles l)%nat -> life_step l EvRelease (release l)
| ls_shutdown l : (0 < lf_handles l)%nat -> life_step l EvShutdown (shutdown l)
| ls_quit l : lf_worker l = ThRunning -> lf_shutdown l = false -> life_step l EvQuit (worker_quits l).

Inductive life_run (mode : SyncMode) : list LifeEvent -> Life -> Prop :=
| lr_start : life_run mode [] (spawn mode)
| lr_step evs l ev l' : life_run mode evs l -> life_step l ev l' -> life_run mode (evs ++ [ev]) l'.

(** A second shutdown changes nothing. *)
Lemma shutdown_idempotent l : shutdown (shutdown l) = shutdown l.
Proof. destruct l as [n [] [] s [[]|] [] ss fs d]; reflexivity. Qed.

(** A thread whose handle was taken has returned; while its handle is there and it was
    not asked to stop it runs, unless it quit. *)
Definition life_inv (l : Life) : Prop :=
  (lf_worker_handle l = false -> lf_worker l = ThExited) /\
  (lf_sync_handle l = false -> lf_sync l <> Some ThRunning) /\
  (lf_shutdown l = true -> lf_worker_handle l = false /\ lf_sync_handle l = false) /\
  (lf_sync l = Some ThExited -> lf_final_sync l = true).

Lemma life_run_inv mode evs l : life_run mode evs l -> life_inv l.
Proof.
  induction 1 as [|evs l ev l' Hr IH Hs]; [by destruct mode; repeat split|].
  destruct l as [n wk wh sh sy syh sysh fs d]. destruct IH as (I1 & I2 & I3 & I4). cbn in *.
  assert (Hsh : forall d', life_inv (shutdown (mkLife n wk wh sh sy syh sysh fs d'))).
  { intros d'. unfold life_inv, shutdown. cbn. destruct wh, syh; cbn; repeat split; auto. }
  inversion Hs; subst; cbn in *; [done| |by apply Hsh|].
  - unfold release. cbn. case_match; [|done]. unfold engine_drop, life_inv, shutdown. cbn.
    destruct wh, syh; cbn; repeat split; auto.
  - unfold worker_quits. cbn. case_match; unfold life_inv; cbn; repeat split; auto; tauto.
Qed.

(** After a shutdown both threads have returned, and in group mode the log was synced
    after they were asked to. *)
Lemma shutdown_stops mode evs l :
  life_run mode evs l ->
  lf_worker (shutdown l) = ThExited /\ lf_sync (shutdown l) <> Some ThRunning /\
  strong_count (shutdown l) = lf_handles l /\ (lf_sync (shutdown l) = Some ThExited -> lf_final_sync (shutdown l) = true).
Proof.
  intros Hr. destruct (life_run_inv _ _ _ Hr) as (I1 & I2 & I3 & I4). destruct l as [n wk wh sh sy syh sysh fs d].
  unfold strong_count. cbn in *. destruct wh, syh; cbn; repeat split; auto; rewrite ?I1 by done; auto using Nat.add_0_r.
Qed.

(** Without a call of [shutdown] and while the compaction thread does not quit, [Drop]
    does not run, even when every handle is gone: the thread's own pointer keeps the
    engine alive, the threads run on and no last sync is made. *)
Lemma drop_never_runs mode evs l :
  life_run mode evs l -> Forall (fun ev => ev = EvClone \/ ev = EvRelease) evs ->
  lf_drop l = NotDropped /\ lf_worker l = ThRunning /\ lf_final_sync l = false /\ lf_sync l = lf_sync (spawn mode).
Proof.
  induction 1 as [|evs l ev l' Hr IH Hs]; [by destruct mode|]. rewrite Forall_app. intros [Hevs Hev].
  destruct (IH Hevs) as (Hd & Hw & Hf & Hy). apply Forall_cons_iff in Hev as [Hev _].
  inversion Hs; subst; [done| |by destruct Hev..]. unfold release, strong_count. cbn. rewrite Hw.
  rewrite Nat.add_1_r. done.
Qed.

Lemma handles_can_go mode : life_run mode [EvRelease] (release (spawn mode)) /\ lf_handles (release (spawn mode)) = 0%nat.
Proof.
  split; [|by destruct mode]. apply (lr_step mode [] (spawn mode)); [constructor|]. apply ls_release. destruct mode; cbn; lia.
Qed.

(** After a shutdown the last handle to go drops the engine. *)
Lemma drop_after_shutdown mode evs l :
  life_run mode evs l -> lf_shutdown l = true -> lf_handles l = 1%nat -> lf_drop (release l) = Dropped.
Proof.
  intros Hr Hs Hh. destruct (life_run_inv _ _ _ Hr) as (I1 & _ & I3 & _). unfold release, strong_count. cbn.
  rewrite (I1 (proj1 (I3 Hs))), Hh. done.
Qed.

(** A compaction thread that quits after the handles are gone waits for itself. *)
Lemma quit_joins_itself mode :
  life_run mode [EvRelease; EvQuit] (worker_quits (release (spawn mode))) /\ lf_drop (worker_quits (release (spawn mode))) = SelfJoin.
Proof.
  split; [|by destruct mode]. apply (lr_step mode [EvRelease] (release (spawn mode))); [apply handles_can_go|].
  apply ls_quit; by destruct mode.
Qed.

(** ** What a shutdown makes durable *)

Section Lossless.
Context {hw : Crc32Hw} {T H : Type} `{MemTableBackend T} `{EngineHook H} `{!MemTableLaws T}.
Context `{VortexLib} `{!VortexLaws}.
#[local] Abbreviation Lsm := (Lsm (T := T) (H := H)).

(** The last sync of [wal_sync_worker_loop], in group mode. *)
Definition shutdown_tree (l : Lsm) (io : IoOutcome) : Lsm :=
  match e_sync_mode (l_engine l) with
  | Full => l
  | Group _ => with_engine l (background_sync (l_engine l) io)
  end.

(** A tree that was shut down reopens to all it committed, in either mode, whatever a
    crash leaves of the log and the manifest. *)
Lemma shutdown_lossless base (l : Lsm) pre log new n nm schemas (hook : H) mode wal_max :
  tree_run base l pre log new ->
  let l1 := shutdown_tree l IoOk in
  blen (lf_contents (w_file (e_wal (l_engine l1)))) <= u64_max ->
  lf_durable (w_file (e_wal (l_engine l1))) <= Z.of_nat n -> torn_magic (take n (lf_contents (w_file (e_wal (l_engine l1))))) = false ->
  lf_durable (mf_path (l_manifest l1)) <= Z.of_nat nm ->
  e_commit_seq (l_engine l1) + Z.of_nat (length (log ++ new)) < OPEN_ENDED_TS ->
  exists l', lsm_open (crash_image l1 n nm schemas) hook mode wal_max IoOk IoOk IoOk = Some (Ok l') /\
    reads_txs l' (pre ++ log ++ new).
Proof.
  intros Hrun l1 Hlen Hd Hn Hnm Hroom.
  assert (Hr : tree_run base l1 pre (log ++ new) []).
  { unfold l1, shutdown_tree. destruct (e_sync_mode (l_engine l)) eqn:Em; [|by apply tr_sync].
    destruct (tree_run_inv _ _ _ _ _ Hrun) as (f & s1 & s2 & w & h & wb & hb & Ht & E1 & E2).
    rewrite (ei_full _ _ _ _ (ta_log _ _ _ _ _ _ _ _ _ _ Ht) Em) in E2. cbn in E2. subst new. by rewrite app_nil_r. }
  destruct (tree_restarts base l1 pre (log ++ new) [] n nm schemas hook mode wal_max) as (l' & new' & Ho & Hp & _ & Hreads);
    [done..|by rewrite app_nil_r|].
  apply prefix_nil_inv in Hp as ->. exists l'. split; [done|]. by rewrite app_nil_r in Hreads.
Qed.
End Lossless.

(** ** The handles of a database *)

(** A handle being dropped: [drop] compares the count with one and saves the catalog,
    then the pointer goes. *)
Inductive Handle := HOpen | HChecked | HGone.
Record Handles := mkHandles { hs_handles : list Handle; hs_saves : nat }.

Definition live (h : Handle) : bool := match h with HGone => false | _ => true end.
Definition inner_count (s : Handles) : nat := length (List.filter live (hs_handles s)).

Inductive handle_step : Handles -> Handles -> Prop :=
| hs_check s i : hs_handles s !! i = Some HOpen ->
    handle_step s (mkHandles (<[i := HChecked]> (hs_handles s)) (if bool_decide (inner_count s = 1%nat) then S (hs_saves s) else hs_saves s))
| hs_decrement s i : hs_handles s !! i = Some HChecked ->
    handle_step s (mkHandles (<[i := HGone]> (hs_handles s)) (hs_saves s)).

(** One handle dropped while no other is being dropped. *)
Definition drop_handle (s : Handles) (i : nat) : Handles :=
  match hs_handles s !! i with
  | Some HOpen =>
      let saves := if bool_decide (inner_count s = 1%nat) then S (hs_saves s) else hs_saves s in
      mkHandles (<[i := HGone]> (hs_handles s)) saves
  | _ => s
  end.

Lemma drop_handle_steps s i : hs_handles s !! i = Some HOpen -> rtc handle_step s (drop_handle s i).
Proof.
  intros Hi. unfold drop_handle. rewrite Hi. eapply rtc_l; [by apply hs_check|]. apply rtc_once.
  rewrite <- (list_insert_insert_eq (hs_handles s) i HGone HChecked). apply (hs_decrement (mkHandles _ _)). cbn.
  apply list_lookup_insert_eq. by eapply lookup_lt_Some.
Qed.

(** Handles dropped one after the other: the catalog is saved once, by the last. *)
Lemma filter_insert_gone (l : list Handle) i :
  l !! i = Some HOpen -> length (List.filter live l) = S (length (List.filter live (<[i := HGone]> l))).
Proof.
  revert i. induction l as [|h l IH]; intros [|i] Hi; [done..| |]; cbn in Hi |- *.
  - by injection Hi as ->.
  - destruct h; cbn; rewrite (IH i Hi); done.
Qed.

Lemma drop_all_saves n :
  hs_saves (fold_left drop_handle (seq 0 (S n)) (mkHandles (replicate (S n) HOpen) 0)) = 1%nat.
Proof.
  assert (Hgen : forall k d saves, fold_left drop_handle (seq d k) (mkHandles (replicate d HGone ++ replicate k HOpen) saves) =
      mkHandles (replicate (d + k) HGone) (match k with O => saves | S _ => S saves end)).
  { induction k as [|k IH]; intros d saves; cbn [seq fold_left]; [by rewrite Nat.add_0_r, app_nil_r|].
    assert (Hat : (replicate d HGone ++ replicate (S k) HOpen) !! d = Some HOpen)
      by (rewrite lookup_app_r, length_replicate, Nat.sub_diag by (rewrite length_replicate; lia); done).
    assert (Hc : inner_count (mkHandles (replicate d HGone ++ replicate (S k) HOpen) saves) = S k).
    { unfold inner_count. cbn [hs_handles]. rewrite List.filter_app, length_app. clear.
      assert (E1 : forall d, List.filter live (replicate d HGone) = []) by (intros m; induction m as [|m IHm]; [done|exact IHm]).
      assert (E2 : forall k, List.filter live (replicate k HOpen) = replicate k HOpen) by (intros m; induction m as [|m IHm]; [done|]; cbn; by rewrite IHm).
      rewrite E1, E2, length_replicate. done. }
    unfold drop_handle at 2. cbn [hs_handles hs_saves]. rewrite Hat, Hc.
    rewrite insert_app_r_alt, length_replicate, Nat.sub_diag by (rewrite length_replicate; lia). cbn [replicate].
    change (<[0%nat := HGone]> (HOpen :: replicate k HOpen)) with (HGone :: replicate k HOpen).
    replace (replicate d HGone ++ HGone :: replicate k HOpen) with (replicate (S d) HGone ++ replicate k HOpen)
      by (rewrite replicate_S_end, <- app_assoc; done).
    rewrite IH. replace (S d + k)%nat with (d + S k)%nat by lia. f_equal. destruct k; [by rewrite bool_decide_true|].
    by rewrite bool_decide_false. }
  pose proof (Hgen (S n) 0%nat 0%nat) as Hg. cbn [replicate app] in *. by rewrite Hg.
Qed.

(** Two handles dropped at the same time both see the other: the catalog is not saved. *)
Lemma concurrent_drop_unsaved :
  rtc handle_step (mkHandles [HOpen; HOpen] 0) (mkHandles [HGone; HGone] 0).
Proof.
  eapply rtc_l; [by apply (hs_check (mkHandles [HOpen; HOpen] 0) 0)|].
  eapply rtc_l; [by apply (hs_check (mkHandles [HChecked; HOpen] 0) 1)|].
  eapply rtc_l; [by apply (hs_decrement (mkHandles [HChecked; HChecked] 0) 0)|].
  eapply rtc_l; [by apply (hs_decrement (mkHandles [HGone; HChecked] 0) 1)|]. done.
Qed.

(** In no order is it saved twice: a save leaves no other handle. *)
Lemma saved_once s s' :
  rtc handle_step s s' -> hs_saves s = 0%nat ->
  (hs_saves s' <= 1)%nat /\ (hs_saves s' = 1%nat -> forall i, hs_handles s' !! i <> Some HOpen).
Proof.
  intros Hr Hs. assert (Hinv : (hs_saves s <= 1)%nat /\ (hs_saves s = 1%nat -> forall i, hs_handles s !! i <> Some HOpen)) by (split; lia).
  clear Hs. induction Hr as [|s s1 s2 Hst _ IH]; [done|]. apply IH. clear IH. destruct Hinv as [Hle Hno].
  destruct Hst as [s i Hi|s i Hi]; cbn [hs_saves hs_handles].
  - assert (hs_saves s = 0%nat) as -> by (destruct (decide (hs_saves s = 1%nat)) as [E|]; [by destruct (Hno E i)|lia]).
    case_bool_decide as Ec; [|split; [lia|done]]. split; [lia|]. intros _ j Hj. unfold inner_count in Ec.
    destruct (decide (i = j)) as [->|Hne]; [rewrite list_lookup_insert_eq in Hj; [done|by eapply lookup_lt_Some]|].
    rewrite list_lookup_insert_ne in Hj by done.
    rewrite (filter_insert_gone _ i Hi) in Ec. rewrite (filter_insert_gone (<[i:=HGone]> (hs_handles s)) j) in Ec; [lia|].
    by rewrite list_lookup_insert_ne.
  - split; [done|]. intros E j Hj. destruct (decide (i = j)) as [->|Hne].
    + rewrite list_lookup_insert_eq in Hj; [done|by eapply lookup_lt_Some].
    + rewrite list_lookup_insert_ne in Hj by done. by apply (Hno E j).
Qed.
