(* ===== verification/Worker.v ===== *)
(** * The compaction worker and the schema sidecar ([hatp-engine/src/lib.rs])

    [compaction_worker_loop] collects garbage when it is due, runs the job the
    picker chooses, and survives panics with a growing pause, up to a limit.  The
    registered table schemas are kept in a file that a save replaces as a whole. *)

From Stdlib Require Import Strings.String.
From stdpp Require Import base tactics list option gmap.
From S2P Require Import Prelude OrdMap Types Version Crc32c Wal MemTable MemTableProps TxManager Arrow Manifest Compaction Engine Sst SstProps Lsm LsmProps.
#[local] Open Scope Z_scope.

(** ** The worker *)

Section Worker.
Context {hw : Crc32Hw} {T H P : Type} `{MemTableBackend T} `{EngineHook H} `{VortexLib} `{CompactionPicker P}.
#[local] Abbreviation Lsm := (Lsm (T := T) (H := H)).

Definition discard {A} (r : Result A) : Result unit := match r with Ok _ => Ok tt | Err err => Err err end.

(** [run_compaction_iteration]: [None] is a panic; the result is only logged. *)
Definition run_compaction_iteration (picker : P) (sst_meta : Z -> bytes * bytes * Z) (l : Lsm) (io : LsmIo)
  : option (Lsm * Result unit) :=
  match pick picker (collect_files sst_meta (version_set l)) with
  | None => Some (l, Ok tt)
  | Some job =>
      if 64 * 1024 * 1024 <? job_estimated_bytes job
      then '(l, r) ← sub_compact l (job_source_level job) (job_target_level job) (engine_watermark (l_engine l)) io;
           Some (l, discard r)
      else '(l, r) ← compact l (job_source_level job) (job_target_level job) io; Some (l, discard r)
  end.

Definition MAX_PANICS_BEFORE_QUIT : Z := 100.
Definition COMPACTION_INTERVAL_MS : Z := 5000.

Definition backoff_ms (panic_count : Z) : Z := saturating_mul 100 (Z.shiftl 1 (Z.min panic_count 6)).

(** What one pass of the loop meets: the shutdown flag, whether a collection is due,
    the outcomes of its system calls, and the tree a panic leaves behind. *)
Record Pass := mkPass { ps_shutdown : bool; ps_gc_due : bool; ps_io : LsmIo; ps_panicked : Lsm -> Lsm }.

(** One pass of [compaction_worker_loop]: the tree, the panic count ([None] when the
    worker has quit) and the time it sleeps. *)
Definition worker_pass (picker : P) (sst_meta : Z -> bytes * bytes * Z) (panic_count : Z) (l : Lsm) (ps : Pass)
  : Lsm * option Z * Z :=
  if ps_shutdown ps then (l, None, 0)
  else
    let l := if ps_gc_due ps then with_engine l (engine_garbage_collect (l_engine l)).1 else l in
    match run_compaction_iteration picker sst_meta l (ps_io ps) with
    | Some (l, _) => (l, Some 0, COMPACTION_INTERVAL_MS)
    | None =>
        let panic_count := saturating_add panic_count 1 in
        if MAX_PANICS_BEFORE_QUIT <? panic_count then (ps_panicked ps l, None, 0)
        else (ps_panicked ps l, Some panic_count, backoff_ms panic_count + COMPACTION_INTERVAL_MS)
    end.

(** [compaction_worker_loop], over the passes it makes. *)
Fixpoint compaction_worker_loop (picker : P) (sst_meta : Z -> bytes * bytes * Z) (panic_count : Z) (l : Lsm) (passes : list Pass)
  : Lsm * option Z :=
  match passes with
  | [] => (l, Some panic_count)
  | ps :: rest =>
      match worker_pass picker sst_meta panic_count l ps with
      | (l, None, _) => (l, None)
      | (l, Some n, _) => compaction_worker_loop picker sst_meta n l rest
      end
  end.

(** The worker never sleeps through a panic for less than 200 ms or more than 6.4 s,
    and keeps running with at most 100 panics in a row. *)
Lemma backoff_bounds n : 1 <= n -> 200 <= backoff_ms n <= 6400.
Proof.
  intros Hn. unfold backoff_ms. assert (Hc : Z.min n 6 = 1 \/ Z.min n 6 = 2 \/ Z.min n 6 = 3 \/ Z.min n 6 = 4 \/ Z.min n 6 = 5 \/ Z.min n 6 = 6) by lia.
  destruct Hc as [->|[->|[->|[->|[->| ->]]]]]; vm_compute; split; discriminate.
Qed.

Lemma worker_pass_count picker sst_meta n (l : Lsm) ps l' n' ms :
  0 <= n <= MAX_PANICS_BEFORE_QUIT -> worker_pass picker sst_meta n l ps = (l', Some n', ms) ->
  0 <= n' <= MAX_PANICS_BEFORE_QUIT /\ COMPACTION_INTERVAL_MS <= ms <= COMPACTION_INTERVAL_MS + 6400.
Proof.
  unfold MAX_PANICS_BEFORE_QUIT. intros Hn. unfold worker_pass. destruct (ps_shutdown ps); [done|].
  destruct (run_compaction_iteration _ _ _ _) as [[l2 r]|]; [intros [= _ <- <-]; lia|].
  unfold MAX_PANICS_BEFORE_QUIT. assert (E : saturating_add n 1 = n + 1) by (unfold saturating_add; rewrite u64_max_val; lia). rewrite E.
  destruct (Z.ltb_spec 100 (n + 1)) as [|Hle]; [done|]. intros [= _ <- <-]. pose proof (backoff_bounds (n + 1)). lia.
Qed.

Lemma worker_count picker sst_meta passes : forall n (l : Lsm) l' n',
  0 <= n <= MAX_PANICS_BEFORE_QUIT -> compaction_worker_loop picker sst_meta n l passes = (l', Some n') ->
  0 <= n' <= MAX_PANICS_BEFORE_QUIT.
Proof.
  induction passes as [|ps passes IH]; intros n l l' n' Hn; cbn [compaction_worker_loop]; [by intros [= _ <-]|].
  destruct (worker_pass _ _ _ _ _) as [[l1 [n1|]] ms] eqn:E; [|done]. apply IH. by eapply worker_pass_count in E as [? _].
Qed.
End Worker.

(** A pass whose job succeeds keeps the history of the tree; the watermark it
    collects at is the engine's, which no pinned snapshot is before. *)
Lemma worker_pass_run {hw : Crc32Hw} {T H P : Type} `{MemTableBackend T} `{EngineHook H} `{!MemTableLaws T} `{VortexLib, !VortexLaws} `{CompactionPicker P}
    (picker : P) sst_meta n w (l : Lsm (T := T) (H := H)) h ps l' :
  let l1 := if ps_gc_due ps then with_engine l (engine_garbage_collect (l_engine l)).1 else l in
  let files := collect_files sst_meta (version_set l) in
  lsm_run w l h -> versions_count (mt_map (mem l)) <= u64_max ->
  vs_next_file_id (version_set l) + Z.of_nat (length (file_ids (version_set l))) < u64_max ->
  vs_next_file_id (version_set l) + 1 < u64_max ->
  (forall job, pick picker files = Some job -> is_u32 (job_target_level job)) ->
  is_u64 (io_now (ps_io ps)) -> io_man_w (ps_io ps) = IoOk -> io_man_s (ps_io ps) = IoOk ->
  run_compaction_iteration picker sst_meta l1 (ps_io ps) = Some (l', Ok tt) ->
  ps_shutdown ps = false ->
  worker_pass picker sst_meta n l ps = (l', Some 0, COMPACTION_INTERVAL_MS) /\
  exists w', lsm_run w' l' h /\ w <= w'.
Proof.
  intros l1 files Hrun Hv Hroom Hroom1 Hjob Hnow Hmw Hms Hit Hsd. split.
  { unfold worker_pass. rewrite Hsd. fold l1. by rewrite Hit. }
  assert (Hl1 : exists w1, lsm_run w1 l1 h /\ w <= w1).
  { unfold l1. destruct (ps_gc_due ps); [|exists w; split; [done|lia]]. eexists. split; [by apply lrun_gc|lia]. }
  assert (Hvs : version_set l1 = version_set l) by (unfold l1; by destruct (ps_gc_due ps)).
  destruct Hl1 as (w1 & Hrun1 & Hw1). revert Hit. unfold run_compaction_iteration. rewrite Hvs. fold files.
  destruct (pick picker files) as [job|] eqn:Ep; [|by intros [= <-]; exists w1].
  specialize (Hjob job eq_refl). destruct (_ <? _).
  - destruct (sub_compact _ _ _ _ _) as [[l2 r]|] eqn:E; [|done]. cbn. intros [= <- Hr]. destruct r as [o|]; [|done].
    eexists. split; [eapply lrun_sub_compact; [exact Hrun1|by rewrite Hvs|done..|exact E]|lia].
  - destruct (compact _ _ _ _) as [[l2 r]|] eqn:E; [|done]. cbn. intros [= <- Hr]. destruct r as [o|]; [|done].
    eexists. split; [eapply lrun_compact; [exact Hrun1|by rewrite Hvs|done..|exact E]|lia].
Qed.

(** ** The schema sidecar *)

(** [serde_json] on the map of schemas. *)
Class SchemasJson := {
  schemas_to_vec : omap bytes Schema -> option bytes;
  schemas_from_slice : bytes -> option (omap bytes Schema);
}.
Class SchemasJsonLaws `{SchemasJson} : Prop :=
  schemas_json_roundtrip : forall schemas json, schemas_to_vec schemas = Some json -> schemas_from_slice json = Some schemas.

(** [hatp.schemas] and its temporary file. *)
Record SchemaFiles := mkSchemaFiles { sf_schemas : option bytes; sf_tmp : option bytes }.

(** Outcomes of the system calls of a save, in order. *)
Record SchemasIo := mkSchemasIo { sio_create : IoOutcome; sio_write : IoOutcome; sio_sync : IoOutcome; sio_rename : IoOutcome }.

Section Sidecar.
Context `{SchemasJson}.

(** [load_table_schemas] *)
Definition load_table_schemas (files : SchemaFiles) (io_read : IoOutcome) : omap bytes Schema :=
  match io_read, sf_schemas files with
  | IoOk, Some json => default [] (schemas_from_slice json)
  | _, _ => []
  end.

(** [save_table_schemas]: failures are logged only. *)
Definition save_table_schemas (files : SchemaFiles) (schemas : omap bytes Schema) (io : SchemasIo) : SchemaFiles :=
  match schemas_to_vec schemas with
  | None => files
  | Some json =>
      match sio_create io with
      | IoErr _ _ => files
      | IoOk =>
          match sio_write io with
          | IoErr n _ => mkSchemaFiles (sf_schemas files) (Some (take n json))
          | IoOk =>
              match sio_sync io, sio_rename io with
              | IoOk, IoOk => mkSchemaFiles (Some json) None
              | _, _ => mkSchemaFiles (sf_schemas files) (Some json)
              end
          end
      end
  end.

(** Whatever the calls of a save do, the next open loads the schemas saved or those
    it would have loaded before; the saved ones when every call succeeds. *)
Lemma schemas_save_atomic `{!SchemasJsonLaws} files schemas io :
  let loaded := load_table_schemas (save_table_schemas files schemas io) IoOk in
  loaded = schemas \/ loaded = load_table_schemas files IoOk.
Proof.
  unfold save_table_schemas. destruct (schemas_to_vec schemas) as [json|] eqn:E; [|by right].
  destruct (sio_create io); [|by right]. destruct (sio_write io); [|by right].
  destruct (sio_sync io), (sio_rename io); [left|by right..]. cbn. by rewrite (schemas_json_roundtrip schemas json E).
Qed.

Lemma schemas_saved `{!SchemasJsonLaws} files schemas json :
  schemas_to_vec schemas = Some json ->
  load_table_schemas (save_table_schemas files schemas (mkSchemasIo IoOk IoOk IoOk IoOk)) IoOk = schemas.
Proof. intros E. unfold save_table_schemas. rewrite E. cbn. by rewrite (schemas_json_roundtrip schemas json E). Qed.
End Sidecar.
