(* ===== verification/Pressure.v ===== *)
(** * Write-pressure throttling ([hatp-engine/src/pressure.rs], [lib.rs])

    A write consults the throttle, which compares a gauge of the memtable's size
    with the flush threshold as 64-bit floats ([SpecFloat]'s binary64).  The gauge is
    set at the end of every commit.  The lemmas give the thresholds of the default
    configuration and show that a rejected writer stays rejected: nothing but a
    commit moves the gauge. *)

From Stdlib Require Import Strings.String SpecFloat.
From stdpp Require Import base tactics list option gmap.
From S2P Require Import Prelude OrdMap Types Version Crc32c Wal MemTable MemTableProps TxManager Manifest Compaction Engine Sst SstProps Lsm LsmProps.
#[local] Open Scope Z_scope.

(** [as f64] on an unsigned integer, and division. *)
Definition f64_of_u64 (n : Z) : spec_float := binary_normalize 53 1024 n 0 false.
Definition f64_div (a b : spec_float) : spec_float := SFdiv 53 1024 a b.

Definition DEFAULT_MEMTABLE_FLUSH_BYTES : Z := 64 * 1024 * 1024.

Record PressureConfig := mkPressure {
  soft_memtable_ratio : spec_float;
  hard_memtable_ratio : spec_float;
  memtable_flush_bytes : Z;
  soft_sleep_ms : Z;
}.

(** [PressureConfig::default]; the ratios are the doubles nearest to 0.7 and 0.95. *)
Definition pressure_default : PressureConfig :=
  mkPressure (S754_finite false 6305039478318694 (-53)) (S754_finite false 8556839292003942 (-53)) DEFAULT_MEMTABLE_FLUSH_BYTES 1.

(** [PressureThrottle::should_throttle] *)
Definition should_throttle (config : PressureConfig) (memtable_bytes : Z) : ThrottleLevel :=
  let capacity := f64_of_u64 (Z.max (memtable_flush_bytes config) 1) in
  let ratio := f64_div (f64_of_u64 memtable_bytes) capacity in
  if SFleb (hard_memtable_ratio config) ratio then ThrottleHard
  else if SFleb (soft_memtable_ratio config) ratio then ThrottleSoft
  else ThrottleNone.

(** By default writes are slowed from 46976205 bytes on and rejected from 63753421. *)
Lemma default_thresholds :
  map (should_throttle pressure_default) [0; 46976204; 46976205; 63753420; 63753421; DEFAULT_MEMTABLE_FLUSH_BYTES; u64_max] =
  [ThrottleNone; ThrottleNone; ThrottleSoft; ThrottleSoft; ThrottleHard; ThrottleHard; ThrottleHard].
Proof. vm_compute. reflexivity. Qed.

Section Gauge.
Context {hw : Crc32Hw} {T H : Type} `{MemTableBackend T} `{EngineHook H} `{VortexLib}.
#[local] Abbreviation Lsm := (Lsm (T := T) (H := H)).

(** The tree with the gauge [memtable_bytes] of its metrics. *)
Record Gauged := mkGauged { ga_lsm : Lsm; ga_memtable_bytes : Z }.

(** [Engine::should_flush], by the threshold of the engine's configuration. *)
Definition should_flush (flush_bytes : Z) (g : Gauged) : bool :=
  flush_bytes <=? mt_approximate_bytes (e_memtable (l_engine (ga_lsm g))).

(** [write_with_tx] with the level it asks for; the end of [commit_single] sets the
    gauge. *)
Definition gauged_write (config : PressureConfig) (g : Gauged) (tx : Z) (ms : list Mutation) (io_w io_s : IoOutcome)
  : Gauged * Result TxnTs :=
  let throttle := should_throttle config (ga_memtable_bytes g) in
  let '(e, r) := write_with_tx (l_engine (ga_lsm g)) tx ms throttle io_w io_s in
  (mkGauged (with_engine (ga_lsm g) e)
     (match r with Ok _ => mt_approximate_bytes (e_memtable e) | Err _ => ga_memtable_bytes g end), r).

(** The other operations that change the tree leave the gauge alone. *)
Inductive gauged_step (config : PressureConfig) : Gauged -> Gauged -> Prop :=
| gs_write g tx ms io_w io_s : gauged_step config g (gauged_write config g tx ms io_w io_s).1
| gs_flush g io l r : flush (ga_lsm g) io = Some (l, r) -> gauged_step config g (mkGauged l (ga_memtable_bytes g))
| gs_compact g src tgt io l r : compact (ga_lsm g) src tgt io = Some (l, r) -> gauged_step config g (mkGauged l (ga_memtable_bytes g))
| gs_sub_compact g src tgt wm io l r :
    sub_compact (ga_lsm g) src tgt wm io = Some (l, r) -> gauged_step config g (mkGauged l (ga_memtable_bytes g))
| gs_collect g :
    gauged_step config g (mkGauged (with_engine (ga_lsm g) (engine_garbage_collect (l_engine (ga_lsm g))).1) (ga_memtable_bytes g)).

Lemma hard_write config g tx ms io_w io_s :
  should_throttle config (ga_memtable_bytes g) = ThrottleHard ->
  ga_memtable_bytes (gauged_write config g tx ms io_w io_s).1 = ga_memtable_bytes g /\
  is_ok (gauged_write config g tx ms io_w io_s).2 = false.
Proof. intros Hh. unfold gauged_write, write_with_tx. rewrite Hh. destruct ms; [done|]. by destruct (tx =? 0). Qed.

(** Once a write is rejected, every later write is, whatever is flushed, compacted
    or collected in between. *)
Lemma hard_throttle_sticks config g g' tx ms io_w io_s :
  should_throttle config (ga_memtable_bytes g) = ThrottleHard -> rtc (gauged_step config) g g' ->
  tx <> 0 -> ms <> [] -> (gauged_write config g' tx ms io_w io_s).2 = Err Throttled.
Proof.
  intros Hh Hs Htx Hms. assert (E : ga_memtable_bytes g' = ga_memtable_bytes g).
  { induction Hs as [|g g1 g2 Hst _ IH]; [done|]. assert (E : ga_memtable_bytes g1 = ga_memtable_bytes g) by (destruct Hst; [by apply hard_write|done..]).
    rewrite IH, E by (by rewrite E). done. }
  unfold gauged_write, write_with_tx. rewrite E, Hh. destruct ms; [done|]. by rewrite (proj2 (Z.eqb_neq tx 0) Htx).
Qed.
End Gauge.

Section Samples.
#[local] Existing Instance no_sse42.
#[local] Existing Instance list_vortex.

(** A threshold of 50 bytes: the first write fills the memtable, the flush empties it,
    and the next write is still rejected. *)
Definition small_pressure : PressureConfig :=
  mkPressure (soft_memtable_ratio pressure_default) (hard_memtable_ratio pressure_default) 50 1.
Definition rejected_after_flush : bool * bool * Result TxnTs :=
  let '(g, _) := gauged_write small_pressure (mkGauged new_lsm 0) 1 [MPut [x61] (replicate 60 x31)] IoOk IoOk in
  let full := should_flush 50 g in
  let g := mkGauged (after (ga_lsm g) (flush (ga_lsm g) all_ok)) (ga_memtable_bytes g) in
  (full, should_flush 50 g, (gauged_write small_pressure g 2 [MPut [x62] [x32]] IoOk IoOk).2).

Lemma flush_does_not_release : rejected_after_flush = (true, false, Err Throttled).
Proof. vm_compute. reflexivity. Qed.

(** Writes are rejected before a flush is due: a memtable between 95% and 100% of the
    threshold is too full to write to and not full enough to flush. *)
Definition filled_to_48 : Gauged :=
  (gauged_write small_pressure (mkGauged new_lsm 0) 1 [MPut [x61] (replicate 23 x31)] IoOk IoOk).1.
Lemma rejected_before_flush_due :
  should_flush 50 filled_to_48 = false /\ (gauged_write small_pressure filled_to_48 2 [MPut [x62] [x32]] IoOk IoOk).2 = Err Throttled.
Proof. vm_compute. split; reflexivity. Qed.
End Samples.
