(* ===== verification/Config.v ===== *)
(** * Engine configuration and the clock ([hatp-engine/src/lib.rs], [EngineConfig];
    [hatp-engine/src/clock.rs])

    The settings an engine is opened with, their defaults and the chained setters,
    and the time source that stamps new files.  Trait objects are records of a type,
    the instance of the trait for it, and a value. *)

From Stdlib Require Import Floats.SpecFloat.
From stdpp Require Import base tactics list option.
From S2P Require Import Prelude OrdMap Types Version Crc32c Wal MemTable MemTableProps Handle TxManager Codec Arrow RowCodec Manifest Compaction Engine Snapshots Sst SstProps Lsm LsmProps Restart Pressure.
#[local] Open Scope Z_scope.

(** ** The clock *)

(** The trait: seconds since the Unix epoch, read from the clock's state. *)
Class Clock (C : Type) := now_secs : C -> Z.

(** [SystemClock::now_secs], of a system time in nanoseconds from the epoch: a time
    before it has no duration and counts as 0. *)
Definition duration_since_epoch (system_time : Z) : option Z :=
  if system_time <? 0 then None else Some system_time.
Definition system_now_secs (system_time : Z) : Z :=
  default 0 ((fun d => d / 1000000000) <$> duration_since_epoch system_time).

(** [ManualClock]: an atomic counter of seconds. *)
Record ManualClock := mkManual { mc_now : Z }.
#[global] Instance manual_clock : Clock ManualClock := mc_now.
Definition manual_new (initial_secs : Z) : ManualClock := mkManual initial_secs.
Definition manual_set (c : ManualClock) (secs : Z) : ManualClock := mkManual secs.

(** [advance]: the atomic addition wraps around, the one of the returned value is
    checked; [None] is its panic, which leaves the clock moved. *)
Definition manual_advance (c : ManualClock) (delta : Z) : ManualClock * option Z :=
  (mkManual (wrap64 (mc_now c + delta)), checked_add (mc_now c) delta).

(** While the counter does not overflow the call returns the time it leaves. *)
Lemma manual_advance_ok c delta :
  0 <= mc_now c -> 0 <= delta -> mc_now c + delta <= u64_max ->
  (manual_advance c delta).2 = Some (now_secs (manual_advance c delta).1).
Proof.
  intros H0 Hd Hm. unfold manual_advance, checked_add, now_secs, manual_clock, wrap64, u64_max in *. cbn.
  rewrite (proj2 (Z.leb_le _ _)) by lia. by rewrite Z.mod_small by lia.
Qed.

(** The clock never runs backwards while the system time does not. *)
Lemma system_now_mono a b : a <= b -> 0 <= system_now_secs a <= system_now_secs b.
Proof.
  intros Hab. unfold system_now_secs, duration_since_epoch.
  destruct (Z.ltb_spec a 0), (Z.ltb_spec b 0); cbn; [lia| |lia|].
  - split; [lia|apply Z.div_pos; lia].
  - split; [apply Z.div_pos; lia|by apply Z.div_le_mono].
Qed.

(** A time source behind a pointer. *)
Record DynClock := mkDynClock { dc_type : Type; dc_clock :: Clock dc_type; dc_state : dc_type }.
Definition dyn_now (c : DynClock) : Z := now_secs (dc_state c).

(** [SystemClock] reads the time of the system, an argument of the read. *)
Record SystemClock := mkSystem { sy_time : Z }.
#[global] Instance system_clock : Clock SystemClock := fun c => system_now_secs (sy_time c).

(** ** The configuration *)

Record DynPicker := mkDynPicker { dp_type : Type; dp_picker :: CompactionPicker dp_type; dp_state : dp_type }.
Definition dyn_pick (p : DynPicker) (files : list FileMeta) : option CompactionJob := pick (dp_state p) files.

(** The one format of the crate. *)
Inductive SstFormat := VortexFormat.

Record EngineConfig := mkConfig {
  cfg_path : bytes;
  cfg_memtable_flush_bytes : Z;
  cfg_wal_max_size_bytes : Z;
  cfg_clock : DynClock;
  cfg_gc_interval_ms : Z;
  cfg_compaction_picker : DynPicker;
  cfg_pressure : PressureConfig;
  cfg_memtable_impl : MemTableImpl;
  cfg_sst_format : SstFormat;
  cfg_sync_mode : SyncMode;
}.

(** [EngineConfig::new], of the system's time. *)
Definition config_new (path : bytes) (system_time : Z) : EngineConfig :=
  mkConfig path DEFAULT_MEMTABLE_FLUSH_BYTES (64 * 1024 * 1024) (mkDynClock _ _ (mkSystem system_time)) 10000
    (mkDynPicker _ _ picker_default) pressure_default ImplSkipMap VortexFormat Full.

Definition with_wal_max_size (c : EngineConfig) (n : Z) : EngineConfig :=
  mkConfig (cfg_path c) (cfg_memtable_flush_bytes c) n (cfg_clock c) (cfg_gc_interval_ms c) (cfg_compaction_picker c)
    (cfg_pressure c) (cfg_memtable_impl c) (cfg_sst_format c) (cfg_sync_mode c).
Definition with_clock (c : EngineConfig) (clock : DynClock) : EngineConfig :=
  mkConfig (cfg_path c) (cfg_memtable_flush_bytes c) (cfg_wal_max_size_bytes c) clock (cfg_gc_interval_ms c)
    (cfg_compaction_picker c) (cfg_pressure c) (cfg_memtable_impl c) (cfg_sst_format c) (cfg_sync_mode c).
Definition with_gc_interval (c : EngineConfig) (interval : Z) : EngineConfig :=
  mkConfig (cfg_path c) (cfg_memtable_flush_bytes c) (cfg_wal_max_size_bytes c) (cfg_clock c) interval
    (cfg_compaction_picker c) (cfg_pressure c) (cfg_memtable_impl c) (cfg_sst_format c) (cfg_sync_mode c).
Definition with_compaction_picker (c : EngineConfig) (picker : DynPicker) : EngineConfig :=
  mkConfig (cfg_path c) (cfg_memtable_flush_bytes c) (cfg_wal_max_size_bytes c) (cfg_clock c) (cfg_gc_interval_ms c)
    picker (cfg_pressure c) (cfg_memtable_impl c) (cfg_sst_format c) (cfg_sync_mode c).
(** [with_pressure] takes the flush threshold of the configuration. *)
Definition with_pressure (c : EngineConfig) (p : PressureConfig) : EngineConfig :=
  mkConfig (cfg_path c) (cfg_memtable_flush_bytes c) (cfg_wal_max_size_bytes c) (cfg_clock c) (cfg_gc_interval_ms c)
    (cfg_compaction_picker c)
    (mkPressure (soft_memtable_ratio p) (hard_memtable_ratio p) (cfg_memtable_flush_bytes c) (soft_sleep_ms p))
    (cfg_memtable_impl c) (cfg_sst_format c) (cfg_sync_mode c).
Definition with_memtable_impl (c : EngineConfig) (impl_kind : MemTableImpl) : EngineConfig :=
  mkConfig (cfg_path c) (cfg_memtable_flush_bytes c) (cfg_wal_max_size_bytes c) (cfg_clock c) (cfg_gc_interval_ms c)
    (cfg_compaction_picker c) (cfg_pressure c) impl_kind (cfg_sst_format c) (cfg_sync_mode c).
Definition with_sst_format (c : EngineConfig) (format : SstFormat) : EngineConfig :=
  mkConfig (cfg_path c) (cfg_memtable_flush_bytes c) (cfg_wal_max_size_bytes c) (cfg_clock c) (cfg_gc_interval_ms c)
    (cfg_compaction_picker c) (cfg_pressure c) (cfg_memtable_impl c) format (cfg_sync_mode c).
Definition with_sync_mode (c : EngineConfig) (mode : SyncMode) : EngineConfig :=
  mkConfig (cfg_path c) (cfg_memtable_flush_bytes c) (cfg_wal_max_size_bytes c) (cfg_clock c) (cfg_gc_interval_ms c)
    (cfg_compaction_picker c) (cfg_pressure c) (cfg_memtable_impl c) (cfg_sst_format c) mode.

(** The public field, assigned. *)
Definition set_flush_bytes (c : EngineConfig) (n : Z) : EngineConfig :=
  mkConfig (cfg_path c) n (cfg_wal_max_size_bytes c) (cfg_clock c) (cfg_gc_interval_ms c) (cfg_compaction_picker c)
    (cfg_pressure c) (cfg_memtable_impl c) (cfg_sst_format c) (cfg_sync_mode c).

(** Configurations made by the constructor and the setters. *)
Inductive built : EngineConfig -> Prop :=
| bu_new path t : built (config_new path t)
| bu_wal c n : built c -> built (with_wal_max_size c n)
| bu_clock c k : built c -> built (with_clock c k)
| bu_gc c i : built c -> built (with_gc_interval c i)
| bu_picker c p : built c -> built (with_compaction_picker c p)
| bu_pressure c p : built c -> built (with_pressure c p)
| bu_impl c k : built c -> built (with_memtable_impl c k)
| bu_format c f : built c -> built (with_sst_format c f)
| bu_mode c m : built c -> built (with_sync_mode c m).

(** The throttle works with the threshold at which a flush is due, whatever pressure
    settings are given. *)
Lemma built_thresholds c : built c -> memtable_flush_bytes (cfg_pressure c) = cfg_memtable_flush_bytes c.
Proof. by induction 1. Qed.

(** Assigning the field of the threshold does not reach the throttle: with 1 kB to
    flush at, writes are not slowed before the memtable holds 44 MB. *)
Lemma field_leaves_throttle (path : bytes) (t : Z) :
  let c := set_flush_bytes (config_new path t) 1024 in
  memtable_flush_bytes (cfg_pressure c) = DEFAULT_MEMTABLE_FLUSH_BYTES /\
  map (should_throttle (cfg_pressure c)) [1024; 1024 * 1024; 46976204; 46976205] =
    [ThrottleNone; ThrottleNone; ThrottleNone; ThrottleSoft].
Proof. split; [done|]. vm_compute. reflexivity. Qed.

(** ** Opening by configuration *)

Section OpenConfig.
Context {hw : Crc32Hw} {Cell SM Heap H : Type} `{SkipMapLaws Cell SM} `{ArcSwapLaws VersionChain Cell Heap}.
Context `{EngineHook H} `{VortexLib}.
#[local] Abbreviation Handle := (MemTable SM Heap).

(** [Engine::open_with_hook]: the memtable is of the configured kind, the log has the
    configured mode and limit. *)
Definition open_with_hook (config : EngineConfig) (im : Image) (hook : H) (io_man io_len io_s : IoOutcome)
  : option (Result (Lsm (T := Handle) (H := H))) :=
  let _ : MemTableBackend Handle := memtable_backend (cfg_memtable_impl config) in
  lsm_open (T := Handle) im hook (cfg_sync_mode config) (cfg_wal_max_size_bytes config) io_man io_len io_s.

(** An engine of any configuration restarts to what it committed: the restart of the
    tree, over the memtable handle. *)
Lemma configured_restart `{!VortexLaws} (config : EngineConfig) :
  let backend : MemTableBackend Handle := memtable_backend (cfg_memtable_impl config) in
  let laws : MemTableLaws Handle := memtable_laws (cfg_memtable_impl config) in
  forall (base : Z) (l : Lsm (T := Handle) (H := H)) pre log new (n nm : nat) schemas hook,
  tree_run base l pre log new -> blen (lf_contents (w_file (e_wal (l_engine l)))) <= u64_max ->
  lf_durable (w_file (e_wal (l_engine l))) <= Z.of_nat n -> torn_magic (take n (lf_contents (w_file (e_wal (l_engine l))))) = false ->
  lf_durable (mf_path (l_manifest l)) <= Z.of_nat nm ->
  e_commit_seq (l_engine l) + Z.of_nat (length (log ++ new)) < OPEN_ENDED_TS ->
  exists l' new', open_with_hook config (crash_image l n nm schemas) hook IoOk IoOk IoOk = Some (Ok l') /\
    new' `prefix_of` new /\ reads_txs l' (pre ++ log ++ new').
Proof.
  intros backend laws base l pre log new n nm schemas hook Hrun Hlen Hd Hn Hnm Hroom.
  destruct (tree_restarts base l pre log new n nm schemas hook (cfg_sync_mode config) (cfg_wal_max_size_bytes config))
    as (l' & new' & Ho & Hp & _ & Hr); [done..|]. by exists l', new'.
Qed.
End OpenConfig.
