(* ===== verification/Lookup.v ===== *)
(** * Point lookups ([Engine::get] of [hatp-engine/src/lib.rs])

    A lookup asks the memtable, then the hot-key cache, then every candidate file
    through its bloom filter and key index, or the file itself when it has no
    index.  The sidecar files, their caches and the hot-key cache are the record
    [Sidecars]; [None] is an out-of-bounds access of a decoder. *)

From Stdlib Require Import Strings.String.
From stdpp Require Import base tactics list option gmap.
From S2P Require Import Prelude OrdMap Types Version Crc32c Wal MemTable MemTableProps TxManager Codec Bloom KeyIndex Arrow RowCodec ColumnPredicate Manifest Compaction Engine Sst Lsm.
#[local] Open Scope Z_scope.

Definition HOT_KEY_CACHE_MAX : Z := 16384.
Definition BLOOM_CACHE_MAX : Z := 512.
Definition KEY_INDEX_CACHE_MAX : Z := 256.

Record Sidecars := mkSidecars {
  sc_bloom_files : omap Z bytes;
  sc_index_files : omap Z bytes;
  sc_bloom_cache : omap Z BloomFilter;
  sc_index_cache : omap Z KeyIndex;
  sc_hot : omap bytes Z;
}.

(** [bloom_insert] of the cache *)
Definition bloom_cache_insert (sc : Sidecars) (file_id : Z) (filter : BloomFilter) : Sidecars :=
  let map := sc_bloom_cache sc in
  let map := if BLOOM_CACHE_MAX <=? Z.of_nat (length map) then [] else map in
  mkSidecars (sc_bloom_files sc) (sc_index_files sc) (om_insert file_id filter map) (sc_index_cache sc) (sc_hot sc).

(** [mmap_read]: an empty file cannot be mapped. *)
Definition mmap_read (file : option bytes) (io_open io_map : IoOutcome) : Result bytes :=
  let? _ := io_result io_open in
  match file with
  | None => Err (Io "no such file")
  | Some [] => Err (Io "empty file")
  | Some data => let? _ := io_result io_map in Ok data
  end.

(** [mmap_read_to_vec], with [std::fs::read] to fall back on. *)
Definition mmap_read_to_vec (file : option bytes) (io_open io_map io_read : IoOutcome) : Result bytes :=
  match mmap_read file io_open io_map with
  | Ok mmap => Ok mmap
  | Err _ => let? _ := io_result io_read in ok_or file (Io "no such file")
  end.

(** [BloomFilter::read_from] and [KeyIndex::read_from] *)
Definition bloom_read_from (file : option bytes) : option (option BloomFilter) :=
  match mmap_read_to_vec file IoOk IoOk IoOk with
  | Ok data => bloom_from_bytes data
  | Err _ => Some None
  end.
Definition ki_read_from (file : option bytes) : option (option KeyIndex) :=
  match mmap_read_to_vec file IoOk IoOk IoOk with
  | Ok data => ki_from_bytes data
  | Err _ => Some None
  end.

(** [write_to] of both: [std::fs::write]; a failure leaves the bytes written so far. *)
Definition sidecar_write_to (data : bytes) (io : IoOutcome) : bytes * Result unit :=
  match io with
  | IoOk => (data, Ok tt)
  | IoErr n msg => (take n data, Err (Io msg))
  end.

(** [bloom_for] *)
Definition bloom_for (sc : Sidecars) (file_id : Z) : option (Sidecars * option BloomFilter) :=
  match om_get file_id (sc_bloom_cache sc) with
  | Some cached => Some (sc, Some cached)
  | None =>
      filter ← bloom_read_from (om_get file_id (sc_bloom_files sc));
      Some match filter with
           | Some filter => (bloom_cache_insert sc file_id filter, Some filter)
           | None => (sc, None)
           end
  end.

Definition with_index_cache (sc : Sidecars) (m : omap Z KeyIndex) : Sidecars :=
  mkSidecars (sc_bloom_files sc) (sc_index_files sc) (sc_bloom_cache sc) m (sc_hot sc).

(** [key_index_for]: a loaded index enters the cache without a size check. *)
Definition key_index_for (sc : Sidecars) (file_id : Z) : option (Sidecars * option KeyIndex) :=
  match om_get file_id (sc_index_cache sc) with
  | Some cached => Some (sc, Some cached)
  | None =>
      index ← ki_read_from (om_get file_id (sc_index_files sc));
      Some match index with
           | Some index => (with_index_cache sc (om_insert file_id index (sc_index_cache sc)), Some index)
           | None => (sc, None)
           end
  end.

(** [key_index_insert] *)
Definition key_index_insert (sc : Sidecars) (file_id : Z) (index : KeyIndex) : Sidecars :=
  let map := sc_index_cache sc in
  let map := if KEY_INDEX_CACHE_MAX <=? Z.of_nat (length map) then [] else map in
  with_index_cache sc (om_insert file_id index map).

(** [hot_key_cache_insert] *)
Definition hot_key_cache_insert (sc : Sidecars) (key : bytes) (file_id : Z) : Sidecars :=
  let cache := if HOT_KEY_CACHE_MAX <=? Z.of_nat (length (sc_hot sc)) then [] else sc_hot sc in
  mkSidecars (sc_bloom_files sc) (sc_index_files sc) (sc_bloom_cache sc) (sc_index_cache sc) (om_insert key file_id cache).

(** [write_bloom_for] and the key index of a new SST, as [flush_sst_locked] and
    [compact_chunk] write them.  The sizes of the filter come from the
    floating-point formula of [BloomFilter::new]; each write may fail, and only a
    sidecar that was written enters its cache. *)
Definition with_bloom_file (sc : Sidecars) (file_id : Z) (data : bytes) : Sidecars :=
  mkSidecars (om_insert file_id data (sc_bloom_files sc)) (sc_index_files sc) (sc_bloom_cache sc) (sc_index_cache sc) (sc_hot sc).
Definition with_index_file (sc : Sidecars) (file_id : Z) (data : bytes) : Sidecars :=
  mkSidecars (sc_bloom_files sc) (om_insert file_id data (sc_index_files sc)) (sc_bloom_cache sc) (sc_index_cache sc) (sc_hot sc).

Definition write_sidecars (sc : Sidecars) (file_id : Z) (rows : list VersionedRow)
    (m k : Z) (io_bloom io_index : IoOutcome) : option Sidecars :=
  filter ← bloom_insert_all (bloom_new m k) (map row_key rows);
  let '(data, written) := sidecar_write_to (bloom_to_bytes filter) io_bloom in
  let sc := with_bloom_file sc file_id data in
  let sc := if is_ok written then bloom_cache_insert sc file_id filter else sc in
  let index := ki_from_rows rows in
  let '(data, written) := sidecar_write_to (ki_data index) io_index in
  let sc := with_index_file sc file_id data in
  Some (if is_ok written then key_index_insert sc file_id index else sc).

(** The sidecars of a compaction input: files whose removal fails stay. *)
Definition retire_sidecars (sc : Sidecars) (input : Z) (io_bloom io_index : bool) : Sidecars :=
  mkSidecars
    (if io_bloom then om_remove input (sc_bloom_files sc) else sc_bloom_files sc)
    (if io_index then om_remove input (sc_index_files sc) else sc_index_files sc)
    (om_remove input (sc_bloom_cache sc)) (om_remove input (sc_index_cache sc)) (sc_hot sc).

Section Get.
Context {hw : Crc32Hw} {T H : Type} `{MemTableBackend T} `{EngineHook H} `{VortexLib}.
#[local] Abbreviation Lsm := (Lsm (T := T) (H := H)).

(** The newer of a found version and the newest so far. *)
Definition newer_of (newest : option VersionedValue) (version : VersionedValue) : bool :=
  match newest with Some current => begin_ts current <? begin_ts version | None => true end.

(** Key-range pruning. *)
Definition out_of_bounds (vs : VersionSet) (key : bytes) (file_id : Z) : bool :=
  match file_metadata vs file_id with
  | Some (min_key, max_key, _, _) =>
      match min_key, max_key with
      | [], _ | _, [] => false
      | _, _ => ltc key min_key || ltc max_key key
      end
  | None => false
  end.

(** The search inside one file: its key index, or the file itself. *)
Definition search_file (l : Lsm) (sc : Sidecars) (key : bytes) (s : Snapshot) (file_id level : Z)
    (newest : option VersionedValue) (found_in_leveled : bool)
  : option (Sidecars * Result (option VersionedValue * bool)) :=
  '(sc, index) ← key_index_for sc file_id;
  match index with
  | Some idx =>
      found ← ki_get idx key;
      Some match found with
      | Some version =>
          let '(sc, newest) := if sees s version && newer_of newest version
                               then (hot_key_cache_insert sc key file_id, Some version) else (sc, newest) in
          (sc, Ok (newest, found_in_leveled || (0 <? level)))
      | None => (sc, Ok (newest, found_in_leveled))
      end
  | None =>
      Some (sc,
        let? found := match om_get file_id (l_disk l) with
                      | Some f => sst_get f key s
                      | None => Err (Io "no such file")
                      end in
        Ok match found with
           | Some version => (if newer_of newest version then Some version else newest, found_in_leveled || (0 <? level))
           | None => (newest, found_in_leveled)
           end)
  end.

(** One candidate file: the state, the newest version and the leveled mark after
    it. *)
Definition get_file (l : Lsm) (sc : Sidecars) (key : bytes) (s : Snapshot) (file_id : Z)
    (newest : option VersionedValue) (found_in_leveled : bool)
  : option (Sidecars * Result (option VersionedValue * bool)) :=
  let level := default 0 (file_level_for (version_set l) file_id) in
  if found_in_leveled && (0 <? level) then Some (sc, Ok (newest, found_in_leveled)) else
  if out_of_bounds (version_set l) key file_id then Some (sc, Ok (newest, found_in_leveled)) else
  '(sc, filter) ← bloom_for sc file_id;
  contained ← match filter with Some filter => bloom_contains filter key | None => Some true end;
  if negb (contained : bool) then Some (sc, Ok (newest, found_in_leveled)) else
  search_file l sc key s file_id level newest found_in_leveled.

Fixpoint get_files (l : Lsm) (sc : Sidecars) (key : bytes) (s : Snapshot) (candidates : list Z)
    (newest : option VersionedValue) (found_in_leveled : bool)
  : option (Sidecars * Result (option VersionedValue)) :=
  match candidates with
  | [] => Some (sc, Ok newest)
  | file_id :: rest =>
      '(sc, r) ← get_file l sc key s file_id newest found_in_leveled;
      match r with
      | Err err => Some (sc, Err err)
      | Ok (newest, found_in_leveled) => get_files l sc key s rest newest found_in_leveled
      end
  end.

(** The route through the hot-key cache. *)
Definition hot_route (sc : Sidecars) (key : bytes) (s : Snapshot) : option (Sidecars * option VersionedValue) :=
  match om_get key (sc_hot sc) with
  | None => Some (sc, None)
  | Some cached_file_id =>
      '(sc, index) ← key_index_for sc cached_file_id;
      match index with
      | None => Some (sc, None)
      | Some idx =>
          found ← ki_get idx key;
          Some (sc, match found with
                    | Some version => if sees s version then Some version else None
                    | None => None
                    end)
      end
  end.

(** [get] *)
Definition lsm_get (l : Lsm) (sc : Sidecars) (key : bytes) (snapshot : TxnTs)
  : option (Sidecars * Result (option bytes)) :=
  if is_dropped_prefix l key then Some (sc, Ok None) else
  let s := mkSnapshot snapshot in
  match mt_get (e_memtable (l_engine l)) key s with
  | Some version => Some (sc, Ok (value version))
  | None =>
      '(sc, hot) ← hot_route sc key s;
      match hot with
      | Some version => Some (sc, Ok (value version))
      | None =>
          '(sc, r) ← get_files l sc key s (candidate_files (version_set l) key) None false;
          Some (sc, let? newest := r in Ok (newest ≫= value))
      end
  end.
End Get.
