(* ===== verification/LookupProps.v ===== *)
(** * What a point lookup returns

    [Engine::get] ([hatp-engine/src/lib.rs]) against the commit history: the
    sidecars never change the answer, and the lookup reads the newest commit, for
    keys with one version per file and at most one leveled file.  The examples at
    the end show what happens to other keys. *)

From Stdlib Require Import Strings.String Sorting.Sorted.
From stdpp Require Import base tactics list option gmap.
From S2P Require Import Prelude OrdMap Types Version Crc32c Wal MemTable MemTableProps TxManager Codec Bloom KeyIndex Arrow RowCodec ColumnPredicate Manifest Compaction Engine Snapshots Sst SstProps Lsm LsmProps LsmReads Lookup.
#[local] Open Scope Z_scope.

(** ** Sidecars that agree with their file *)

(** The filter contains every key of the rows. *)
Definition filter_ok (rows : list VersionedRow) (f : BloomFilter) : Prop :=
  bloom_wf f /\ forall r, In r rows -> bloom_contains f (row_key r) = Some true.

(** The index was built from the rows, before the SST dropped transaction ids. *)
Definition index_ok (rows : list VersionedRow) (idx : KeyIndex) : Prop :=
  exists src, idx = ki_from_rows src /\ map stored src = rows /\ rows_ok src /\ values_small src.

(** The sidecars of one file, cached or on disk; those on disk may be cut short. *)
Record sidecar_ok (sc : Sidecars) (f : Z) (rows : list VersionedRow) : Prop := {
  so_bloom_cache : forall x, om_get f (sc_bloom_cache sc) = Some x -> filter_ok rows x;
  so_bloom_file : forall d, om_get f (sc_bloom_files sc) = Some d ->
    exists x, d `prefix_of` bloom_to_bytes x /\ filter_ok rows x;
  so_index_cache : forall x, om_get f (sc_index_cache sc) = Some x -> index_ok rows x;
  so_index_file : forall d, om_get f (sc_index_files sc) = Some d ->
    exists x, d `prefix_of` ki_data x /\ index_ok rows x;
}.

Lemma om_get_cleared {V} (b : bool) (k k' : Z) (v : V) (m : omap Z V) x :
  om_get k' (om_insert k v (if b then [] else m)) = Some x -> (k' = k /\ x = v) \/ om_get k' m = Some x.
Proof.
  rewrite om_get_insert. destruct (eqc k' k) eqn:E; cbool; [intros [= ->]; by left|]. destruct b; [done|by right].
Qed.

Lemma bloom_cache_insert_ok sc f x g rows :
  sidecar_ok sc g rows -> (g = f -> filter_ok rows x) -> sidecar_ok (bloom_cache_insert sc f x) g rows.
Proof.
  intros [H1 H2 H3 H4] Hx. split; cbn; [|done..]. intros y [[-> ->]|Hy]%om_get_cleared; auto.
Qed.

Lemma key_index_insert_ok sc f x g rows :
  sidecar_ok sc g rows -> (g = f -> index_ok rows x) -> sidecar_ok (key_index_insert sc f x) g rows.
Proof.
  intros [H1 H2 H3 H4] Hx. split; cbn; [done|done| |done]. intros y [[-> ->]|Hy]%om_get_cleared; auto.
Qed.

Lemma hot_key_cache_insert_ok sc key f g rows :
  sidecar_ok sc g rows -> sidecar_ok (hot_key_cache_insert sc key f) g rows.
Proof. by intros [H1 H2 H3 H4]. Qed.

(** *** Writing and retiring sidecars *)

Lemma sidecar_write_prefix data io : (sidecar_write_to data io).1 `prefix_of` data.
Proof. destruct io as [|n msg]; cbn; [done|]. exists (drop n data). by rewrite take_drop. Qed.

Lemma with_bloom_file_ok sc f d g rows :
  sidecar_ok sc g rows -> (g = f -> exists x, d `prefix_of` bloom_to_bytes x /\ filter_ok rows x) ->
  sidecar_ok (with_bloom_file sc f d) g rows.
Proof.
  intros [H1 H2 H3 H4] Hd. split; cbn; [done| |done|done]. intros d'. rewrite om_get_insert.
  destruct (eqc g f) eqn:E; cbool; [|apply H2]. intros [= <-]. auto.
Qed.

Lemma with_index_file_ok sc f d g rows :
  sidecar_ok sc g rows -> (g = f -> exists x, d `prefix_of` ki_data x /\ index_ok rows x) ->
  sidecar_ok (with_index_file sc f d) g rows.
Proof.
  intros [H1 H2 H3 H4] Hd. split; cbn; [done|done|done|]. intros d'. rewrite om_get_insert.
  destruct (eqc g f) eqn:E; cbool; [|apply H4]. intros [= <-]. auto.
Qed.

(** The sidecars of a new SST agree with it, wherever their writes failed. *)
Lemma write_sidecars_ok sc f src m k io_b io_i :
  m <= 2 ^ 63 -> rows_ok src -> values_small src ->
  om_get f (sc_bloom_files sc) = None -> om_get f (sc_index_files sc) = None ->
  om_get f (sc_bloom_cache sc) = None -> om_get f (sc_index_cache sc) = None ->
  exists sc', write_sidecars sc f src m k io_b io_i = Some sc' /\ sidecar_ok sc' f (map stored src) /\
    forall g rows, g <> f -> sidecar_ok sc g rows -> sidecar_ok sc' g rows.
Proof.
  intros Hm Hok Hvs Hb Hi Hbc Hic. unfold write_sidecars.
  destruct (insert_all_contains (bloom_new m k) (map row_key src)) as (x & Hx & Hwf & Hc); [by apply bloom_new_wf|].
  rewrite Hx. cbn [mbind option_bind].
  assert (Hf : filter_ok (map stored src) x).
  { split; [done|]. intros r (r0 & <- & Hin)%in_map_iff. apply Hc, in_map_iff. by exists r0. }
  assert (Hidx : index_ok (map stored src) (ki_from_rows src)) by (by exists src).
  pose proof (sidecar_write_prefix (bloom_to_bytes x) io_b) as Hpb. destruct (sidecar_write_to _ io_b) as [db rb].
  pose proof (sidecar_write_prefix (ki_data (ki_from_rows src)) io_i) as Hpi. destruct (sidecar_write_to _ io_i) as [di ri].
  cbn [fst] in Hpb, Hpi. eexists. split; [done|].
  assert (Hstep : forall g rows, (g = f -> rows = map stored src) -> sidecar_ok sc g rows ->
    sidecar_ok (let sc := with_bloom_file sc f db in let sc := if is_ok rb then bloom_cache_insert sc f x else sc in
      let sc := with_index_file sc f di in if is_ok ri then key_index_insert sc f (ki_from_rows src) else sc) g rows).
  { intros g rows Hg Hs. cbv zeta.
    assert (H1 : sidecar_ok (with_bloom_file sc f db) g rows) by (apply with_bloom_file_ok; [done|intros E; rewrite (Hg E); eauto]).
    assert (H2 : sidecar_ok (if is_ok rb then bloom_cache_insert (with_bloom_file sc f db) f x else with_bloom_file sc f db) g rows)
      by (destruct (is_ok rb); [|done]; apply bloom_cache_insert_ok; [done|]; intros E; by rewrite (Hg E)).
    assert (H3 := with_index_file_ok _ f di g rows H2 ltac:(intros E; rewrite (Hg E); eauto)).
    destruct (is_ok ri); [|done]. apply key_index_insert_ok; [done|]. intros E. by rewrite (Hg E). }
  split; [|intros g rows Hne Hs; by apply Hstep]. apply Hstep; [done|].
  split; [by rewrite Hbc|by rewrite Hb|by rewrite Hic|by rewrite Hi].
Qed.

Lemma retire_sidecars_ok sc f io_b io_i g rows :
  sidecar_ok sc g rows -> sidecar_ok (retire_sidecars sc f io_b io_i) g rows.
Proof.
  assert (Hrm : forall V (m : omap Z V) x, om_get g (om_remove f m) = Some x -> om_get g m = Some x)
    by (intros V m x; rewrite om_get_remove; by destruct (eqc f g)).
  intros [H1 H2 H3 H4]. split; cbn.
  - intros x Hx%Hrm. auto.
  - intros x. destruct io_b; [intros Hx%Hrm|intros Hx]; auto.
  - intros x Hx%Hrm. auto.
  - intros x. destruct io_i; [intros Hx%Hrm|intros Hx]; auto.
Qed.

(** *** Loading a sidecar *)

Lemma mmap_read_to_vec_all d : mmap_read_to_vec (Some d) IoOk IoOk IoOk = Ok d.
Proof. by destruct d. Qed.

(** A file that was cut short is rejected, a whole one is what was written. *)
Lemma bloom_read_prefix x d : bloom_wf x -> d `prefix_of` bloom_to_bytes x ->
  bloom_read_from (Some d) = Some None \/ bloom_read_from (Some d) = Some (Some x).
Proof.
  intros Hx Hd. unfold bloom_read_from. rewrite mmap_read_to_vec_all.
  destruct (Z.lt_ge_cases (blen d) (blen (bloom_to_bytes x))) as [Hlt|Hge]; [left; by apply (bloom_torn x)|right].
  destruct Hd as [g Hg]. assert (g = []) as ->.
  { apply nil_length_inv. apply (f_equal (length (A:=byte))) in Hg. rewrite length_app in Hg. unfold blen in Hge. lia. }
  rewrite app_nil_r in Hg. rewrite <- Hg. by apply bloom_roundtrip.
Qed.

Lemma ki_read_prefix src d : rows_ok src -> values_small src -> d `prefix_of` ki_data (ki_from_rows src) ->
  ki_read_from (Some d) = Some None \/ ki_read_from (Some d) = Some (Some (ki_from_rows src)).
Proof.
  intros Hok Hvs Hd. unfold ki_read_from. rewrite mmap_read_to_vec_all, (ki_from_bytes_prefix src d Hok Hvs Hd).
  case_match; auto.
Qed.

Lemma bloom_for_ok sc f rows :
  sidecar_ok sc f rows ->
  exists sc' x, bloom_for sc f = Some (sc', x) /\ (forall y, x = Some y -> filter_ok rows y) /\
    sc_hot sc' = sc_hot sc /\ forall g rows', (g = f -> rows' = rows) -> sidecar_ok sc g rows' -> sidecar_ok sc' g rows'.
Proof.
  intros [H1 H2 _ _]. unfold bloom_for. destruct (om_get f (sc_bloom_cache sc)) as [x|] eqn:Ec.
  { exists sc, (Some x). split; [done|]. split; [intros y [= <-]; auto|done]. }
  destruct (om_get f (sc_bloom_files sc)) as [d|] eqn:Ef; [|by exists sc, None].
  destruct (H2 d eq_refl) as (x & Hd & Hx).
  destruct (bloom_read_prefix x d (proj1 Hx) Hd) as [->| ->]; cbn [mbind option_bind]; [by exists sc, None|].
  do 2 eexists. split; [done|]. split; [by intros y [= <-]|]. split; [done|].
  intros g rows' Hg Hs. apply bloom_cache_insert_ok; [done|]. intros E. by rewrite (Hg E).
Qed.

Lemma key_index_for_ok sc f rows :
  sidecar_ok sc f rows ->
  exists sc' x, key_index_for sc f = Some (sc', x) /\ (forall y, x = Some y -> index_ok rows y) /\
    sc_hot sc' = sc_hot sc /\ forall g rows', (g = f -> rows' = rows) -> sidecar_ok sc g rows' -> sidecar_ok sc' g rows'.
Proof.
  intros [_ _ H3 H4]. unfold key_index_for. destruct (om_get f (sc_index_cache sc)) as [x|] eqn:Ec.
  { exists sc, (Some x). split; [done|]. split; [intros y [= <-]; auto|done]. }
  destruct (om_get f (sc_index_files sc)) as [d|] eqn:Ef; [|by exists sc, None].
  destruct (H4 d eq_refl) as (x & Hd & Hx). pose proof Hx as (src & -> & _ & Hok & Hvs).
  destruct (ki_read_prefix src d Hok Hvs Hd) as [->| ->]; cbn [mbind option_bind]; [by exists sc, None|].
  do 2 eexists. split; [done|]. split; [by intros y [= <-]|]. split; [done|].
  intros g rows' Hg [G1 G2 G3 G4]. split; cbn; [done|done| |done]. intros y.
  rewrite om_get_insert. destruct (eqc g f) eqn:E; cbool; [|apply G3]. intros [= <-]. by rewrite (Hg E).
Qed.

(** A lookup in an index built from sorted rows. *)
Lemma index_get rows idx key :
  index_ok rows idx -> rows_sorted rows ->
  exists res, ki_get idx key = Some res /\
    match res with
    | Some v => exists r, In r rows /\ row_key r = key /\ v = row_version r
    | None => forall r, In r rows -> row_key r <> key
    end.
Proof.
  intros (src & -> & <- & Hok & Hvs) Hs.
  assert (Hsrc : rows_sorted src).
  { clear -Hs. unfold rows_sorted in *. induction src as [|r src IH]; [constructor|]. cbn in Hs.
    apply StronglySorted_inv in Hs as [Hs Hall]. constructor; [by apply IH|].
    rewrite List.Forall_forall in Hall |- *. intros x Hx. by apply (Hall (stored x)), in_map. }
  destruct (get_ok src key Hok Hvs Hsrc) as (res & Hg & Hres). exists res. split; [done|].
  destruct res as [v|].
  - destruct Hres as (r & Hin%list_elem_of_In & Hk & ->). exists (stored r). split; [by apply in_map|done].
  - intros r (r0 & <- & Hin)%in_map_iff. change (row_key r0 <> key). apply Hres. by apply list_elem_of_In.
Qed.

Section Lookup.
Context {hw : Crc32Hw} {T H : Type} `{MemTableBackend T} `{EngineHook H} `{!MemTableLaws T}.
Context `{VortexLib} `{!VortexLaws}.
#[local] Abbreviation Lsm := (Lsm (T := T) (H := H)).

(** Every sidecar of a live file agrees with the file. *)
Definition side_ok (l : Lsm) (sc : Sidecars) : Prop :=
  forall f rows, live l f -> file_rows l f rows -> sidecar_ok sc f rows.

(** The file has a row of the key, with this version. *)
Definition file_version (l : Lsm) (f : Z) (key : bytes) (v : VersionedValue) : Prop :=
  exists rows r, file_rows l f rows /\ In r rows /\ row_key r = key /\ row_version r = v.

(** Every live file has at most one version of the key, and at most one file
    above level 0 has any. *)
Definition single_version (l : Lsm) (key : bytes) : Prop :=
  forall f v v', live l f -> file_version l f key v -> file_version l f key v' -> v = v'.
Definition single_leveled (l : Lsm) (key : bytes) : Prop :=
  forall f f' v v' n n', level_has (vs_levels (version_set l)) n f = true -> 0 < n ->
    level_has (vs_levels (version_set l)) n' f' = true -> 0 < n' ->
    file_version l f key v -> file_version l f' key v' -> f = f'.

(** What the loop knows after the files of [seen]. *)
Record found_newest (l : Lsm) (key : bytes) (s : Snapshot) (seen : list Z) (newest : option VersionedValue)
    (leveled : bool) : Prop := {
  fn_sound : forall v, newest = Some v -> sees s v = true /\ exists f, In f seen /\ file_version l f key v;
  fn_newest : forall f v, In f seen -> file_version l f key v -> sees s v = true ->
    exists n, newest = Some n /\ begin_ts v <= begin_ts n;
  fn_leveled : leveled = true -> exists f v n, In f seen /\ file_version l f key v /\
    level_has (vs_levels (version_set l)) n f = true /\ 0 < n;
}.

(** A file without a visible version of the key changes nothing. *)
Lemma found_skip l key s seen newest leveled f :
  found_newest l key s seen newest leveled ->
  (forall v, file_version l f key v -> sees s v = false) ->
  found_newest l key s (seen ++ [f]) newest leveled.
Proof.
  intros [Hs Hn Hl] Hno. split.
  - intros v Hv. destruct (Hs v Hv) as (? & g & Hg & ?). split; [done|]. exists g. rewrite in_app_iff. auto.
  - intros g v [Hg|[<-|[]]]%in_app_iff Hv Hsee; [eauto|]. by rewrite (Hno v Hv) in Hsee.
  - intros E. destruct (Hl E) as (g & v & n & Hg & ?). exists g, v, n. rewrite in_app_iff. auto.
Qed.

(** The version of a file with one is compared with the newest so far. *)
Lemma found_step l key s seen newest leveled f v leveled' :
  found_newest l key s seen newest leveled -> file_version l f key v ->
  (forall v', file_version l f key v' -> v' = v) ->
  (leveled' = true -> leveled = true \/ exists n, level_has (vs_levels (version_set l)) n f = true /\ 0 < n) ->
  found_newest l key s (seen ++ [f]) (if sees s v && newer_of newest v then Some v else newest) leveled'.
Proof.
  intros [Hs Hn Hl] Hf Huniq Hlev. split.
  - intros x. destruct (sees s v) eqn:E; cbn [andb].
    + destruct (newer_of newest v); [intros [= <-]; split; [done|]; exists f; rewrite in_app_iff; cbn; auto|].
      intros Hx. destruct (Hs x Hx) as (? & g & Hg & ?). split; [done|]. exists g. rewrite in_app_iff. auto.
    + intros Hx. destruct (Hs x Hx) as (? & g & Hg & ?). split; [done|]. exists g. rewrite in_app_iff. auto.
  - intros g x [Hg|[<-|[]]]%in_app_iff Hx Hsee.
    + destruct (Hn g x Hg Hx Hsee) as (n & -> & Hle). destruct (sees s v); [|by exists n]. cbn.
      destruct (Z.ltb_spec (begin_ts n) (begin_ts v)); [exists v|exists n]; (split; [done|lia]).
    + apply Huniq in Hx as ->. rewrite Hsee. cbn [andb]. destruct newest as [n|]; cbn; [|exists v; split; [done|lia]].
      destruct (Z.ltb_spec (begin_ts n) (begin_ts v)); [exists v|exists n]; (split; [done|lia]).
  - intros E. destruct (Hlev E) as [E'|(n & Hlv & Hpos)].
    + destruct (Hl E') as (g & x & n & Hg & ?). exists g, x, n. rewrite in_app_iff. auto.
    + exists f, v, n. rewrite in_app_iff. cbn. auto.
Qed.

Lemma side_ok_step l sc sc' f rows :
  side_ok l sc -> file_rows l f rows ->
  (forall g rows', (g = f -> rows' = rows) -> sidecar_ok sc g rows' -> sidecar_ok sc' g rows') -> side_ok l sc'.
Proof.
  intros Hs Hr Hstep g rows' Hg Hr'. apply Hstep; [|by apply Hs]. intros ->. by eapply file_rows_fun.
Qed.

Lemma file_version_row l f key rows v :
  file_rows l f rows -> file_version l f key v <-> exists r, In r rows /\ row_key r = key /\ row_version r = v.
Proof.
  intros Hr. split.
  - intros (rows' & r & Hr' & ?). rewrite (file_rows_fun _ _ _ _ Hr Hr'). by exists r.
  - intros (r & ?). by exists rows, r.
Qed.

Lemma level_of (l : Lsm) f n :
  man_inv (l_manifest l) -> default 0 (file_level_for (version_set l) f) = n -> 0 < n ->
  level_has (vs_levels (version_set l)) n f = true.
Proof.
  intros Hm <- Hpos. apply (file_level_inv _ _ _ Hm). fold (version_set l).
  by destruct (file_level_for (version_set l) f).
Qed.

Lemma out_of_bounds_no_rows (l : Lsm) f rows key :
  file_ok (version_set l) f rows -> out_of_bounds (version_set l) key f = true ->
  forall r, In r rows -> row_key r <> key.
Proof.
  intros (_ & [[[mn mx] nb] ca] & Hm & Hc) Ho r Hin <-. unfold out_of_bounds in Ho. rewrite Hm in Ho.
  destruct (Hc r Hin) as [Hlo Hhi]. destruct mn as [|b mn]; [done|]. destruct mx as [|b' mx]; [done|].
  destruct Hhi as [|Hhi]; [done|]. apply orb_true_iff in Ho as [Ho|Ho]; cbool.
  - by apply not_clt in Ho.
  - by apply not_clt in Ho.
Qed.

Lemma found_no_rows (l : Lsm) key s seen newest leveled f rows :
  found_newest l key s seen newest leveled -> file_rows l f rows -> (forall r, In r rows -> row_key r <> key) ->
  found_newest l key s (seen ++ [f]) newest leveled.
Proof.
  intros Hfn Hr Hno. apply found_skip; [done|].
  intros v (r & Hin & Hk & _)%(file_version_row l f key rows v Hr). by destruct (Hno r Hin).
Qed.

(** Inside one file. *)
Lemma search_file_ok w (l : Lsm) h sc key s f newest leveled seen :
  let level := default 0 (file_level_for (version_set l) f) in
  lsm_rep w l h -> side_ok l sc -> live l f -> single_version l key ->
  found_newest l key s seen newest leveled ->
  exists sc' newest' leveled', search_file l sc key s f level newest leveled = Some (sc', Ok (newest', leveled')) /\
    side_ok l sc' /\ found_newest l key s (seen ++ [f]) newest' leveled'.
Proof.
  intros level Hrep Hside Hf Hsv Hfn. pose proof (lr_man _ _ _ Hrep) as Hman.
  destruct (lr_disk _ _ _ Hrep f Hf) as [rows Hr]. pose proof (lr_files _ _ _ Hrep f rows Hf Hr) as Hok.
  pose proof (fun v => file_version_row l f key rows v Hr) as Hfv.
  assert (Hstep : forall r, In r rows -> row_key r = key -> found_newest l key s (seen ++ [f])
    (if sees s (row_version r) && newer_of newest (row_version r) then Some (row_version r) else newest)
    (leveled || (0 <? level))).
  { intros r Hin Hk. assert (Hv : file_version l f key (row_version r)) by (apply Hfv; by exists r).
    eapply found_step; [done|done|intros v' Hv'; by apply (Hsv f)|].
    intros [->|Hl]%orb_true_iff; [by left|right]. apply Z.ltb_lt in Hl. exists level. split; [|done]. by apply level_of. }
  unfold search_file.
  destruct (key_index_for_ok sc f rows (Hside f rows Hf Hr)) as (sc2 & i & -> & Hi & _ & Hstep2).
  pose proof (side_ok_step _ _ _ _ _ Hside Hr Hstep2) as Hside2. cbn [mbind option_bind].
  destruct i as [idx|].
  - destruct (index_get rows idx key (Hi idx eq_refl) (proj1 Hok)) as (res & -> & Hres). cbn [mbind option_bind].
    destruct res as [v|]; [|do 3 eexists; split; [done|]; split; [done|by eapply found_no_rows]].
    destruct Hres as (r & Hin & Hk & ->). specialize (Hstep r Hin Hk).
    destruct (sees s (row_version r) && newer_of newest (row_version r)); do 3 eexists; (split; [done|]); split; try done.
    intros g rows' Hg Hr'. by apply hot_key_cache_insert_ok, Hside2.
  - destruct Hr as (file & Hg & Hh). rewrite Hg, (sst_get_holds _ _ key s Hh). cbn [rbind].
    destruct (head (List.filter _ rows)) as [r|] eqn:Ehd; cbn [fmap option_fmap option_map].
    + apply head_Some_elem_of, list_elem_of_In, filter_In in Ehd as [Hin [Hk Hsee]%andb_true_iff].
      apply eqc_spec in Hk. specialize (Hstep r Hin Hk). rewrite Hsee in Hstep. cbn [andb] in Hstep.
      do 3 eexists. split; [done|]. by split.
    + do 3 eexists. split; [done|]. split; [done|]. apply found_skip; [done|].
      intros v (r & Hin & Hk & <-)%Hfv. apply not_true_is_false. intros Hsee.
      apply head_None in Ehd. assert (Hin' : In r []); [|done]. rewrite <- Ehd. apply filter_In.
      split; [done|]. apply andb_true_iff. split; [by apply eqc_spec|done].
Qed.

(** One candidate file. *)
Lemma get_file_ok w (l : Lsm) h sc key s f newest leveled seen :
  lsm_rep w l h -> side_ok l sc -> live l f -> ~ In f seen -> single_version l key -> single_leveled l key ->
  found_newest l key s seen newest leveled ->
  exists sc' newest' leveled', get_file l sc key s f newest leveled = Some (sc', Ok (newest', leveled')) /\
    side_ok l sc' /\ found_newest l key s (seen ++ [f]) newest' leveled'.
Proof.
  intros Hrep Hside Hf Hseen Hsv Hsl Hfn. pose proof (lr_man _ _ _ Hrep) as Hman.
  destruct (lr_disk _ _ _ Hrep f Hf) as [rows Hr]. pose proof (lr_files _ _ _ Hrep f rows Hf Hr) as Hok.
  unfold get_file. set (level := default 0 (file_level_for (version_set l) f)).
  destruct (leveled && (0 <? level)) eqn:Elv.
  { do 3 eexists. split; [done|]. split; [done|]. apply found_skip; [done|].
    apply andb_true_iff in Elv as [El Hl]. apply Z.ltb_lt in Hl. intros v Hv. exfalso. apply Hseen.
    destruct (fn_leveled _ _ _ _ _ _ Hfn El) as (g & x & n & Hg & Hx & Hn & Hpos).
    assert (f = g) as -> by (by apply (Hsl f g v x level n (level_of l f level Hman eq_refl Hl) Hl Hn Hpos)). done. }
  destruct (out_of_bounds (version_set l) key f) eqn:Eo.
  { do 3 eexists. split; [done|]. split; [done|]. eapply found_no_rows; [done..|]. by eapply out_of_bounds_no_rows. }
  destruct (bloom_for_ok sc f rows (Hside f rows Hf Hr)) as (sc1 & x & -> & Hx & _ & Hstep1).
  pose proof (side_ok_step _ _ _ _ _ Hside Hr Hstep1) as Hside1. cbn [mbind option_bind].
  assert (Hc : exists b, match x with Some filter => bloom_contains filter key | None => Some true end = Some b /\
    (b = false -> forall r, In r rows -> row_key r <> key)).
  { destruct x as [y|]; [|by exists true]. destruct (Hx y eq_refl) as [Hwf Hin].
    destruct (bloom_contains_total y key Hwf) as [b Hb]. exists b. split; [done|]. intros -> r Hr' <-.
    rewrite (Hin r Hr') in Hb. done. }
  destruct Hc as (b & -> & Hneg). cbn [mbind option_bind]. destruct b; cbn [negb]; [by eapply search_file_ok|].
  do 3 eexists. split; [done|]. split; [done|]. eapply found_no_rows; [done..|by apply Hneg].
Qed.

Lemma get_files_ok w (l : Lsm) h key s ids sc newest leveled seen :
  lsm_rep w l h -> side_ok l sc -> single_version l key -> single_leveled l key ->
  (forall f, In f ids -> live l f) -> NoDup (seen ++ ids) -> found_newest l key s seen newest leveled ->
  exists sc' newest' leveled', get_files l sc key s ids newest leveled = Some (sc', Ok newest') /\
    side_ok l sc' /\ found_newest l key s (seen ++ ids) newest' leveled'.
Proof.
  intros Hrep Hside Hsv Hsl. revert sc newest leveled seen Hside.
  induction ids as [|f ids IH]; intros sc newest leveled seen Hside Hids Hnd Hfn; cbn [get_files].
  - rewrite app_nil_r in *. by do 3 eexists.
  - assert (Hf : ~ In f seen).
    { intros Hin. apply NoDup_app in Hnd as (_ & Hd & _). apply (Hd f); [by apply list_elem_of_In|left]. }
    destruct (get_file_ok w l h sc key s f newest leveled seen Hrep Hside (Hids f (or_introl eq_refl)) Hf Hsv Hsl Hfn)
      as (sc1 & n1 & lv1 & -> & Hside1 & Hfn1). cbn [mbind option_bind].
    replace (seen ++ f :: ids) with ((seen ++ [f]) ++ ids) in * by (by rewrite <- app_assoc).
    apply IH; [done| |done|done]. intros g Hg. apply Hids. by right.
Qed.

(** The answer of a lookup that saw every version of the key is the history's. *)
Lemma newest_answer w (l : Lsm) h key s best :
  lsm_rep w l h -> w <= s -> s < OPEN_ENDED_TS ->
  (forall v, best = Some v -> in_mem l s key v \/ in_sst l s key v) ->
  (forall v, in_mem l s key v \/ in_sst l s key v -> exists n, best = Some n /\ begin_ts v <= begin_ts n) ->
  forall x, best ≫= value = Some x <-> exists t, newest (h key) s t (Some x).
Proof.
  intros Hrep Hw Hs Hin Hmax x.
  rewrite <- (rep_reads w l h key s (match best with Some v => [(key, v)] | None => [] end)
    (fun k v => k = key /\ (in_mem l s key v \/ in_sst l s key v)) Hrep Hw Hs); [| |intros v; by split; [intros []|]].
  - destruct best as [v|]; cbn; [|by split; [|intros (? & ? & _)]]. rewrite eqc_refl.
    split; [intros; by exists v|]. by intros (? & [= <-] & ?).
  - split.
    + destruct best; repeat constructor.
    + intros k v. destruct best as [b|]; cbn; [|done]. destruct (eqc k key) eqn:E; [|done]. apply eqc_spec in E as ->.
      intros [= <-]. split; [by auto|]. intros v' [_ Hv']. by destruct (Hmax v' Hv') as (? & [= <-] & ?).
    + intros k v [-> Hv]. destruct (Hmax v Hv) as (n & -> & _). cbn. by rewrite eqc_refl.
Qed.

(** In a memtable a snapshot sees at most one version, newer than any in a file. *)
Lemma mem_answer w (l : Lsm) h key s v :
  lsm_rep w l h -> in_mem l s key v ->
  forall v', in_mem l s key v' \/ in_sst l s key v' -> begin_ts v' <= begin_ts v.
Proof.
  intros Hrep (c & Hc & Hin & Hv) v' [(c' & Hc' & Hin' & Hv')|(f & rows & r & Hf & Hr & Hin' & Hk & <- & _)];
    pose proof (lr_mem _ _ _ Hrep) as Hmem.
  - rewrite Hc in Hc'. injection Hc' as <-. pose proof (proj2 (mem_visible l (mkSnapshot s) key v c Hmem Hc) (conj Hin Hv)) as E.
    pose proof (proj2 (mem_visible l (mkSnapshot s) key v' c Hmem Hc) (conj Hin' Hv')) as E'. rewrite E in E'.
    injection E' as <-. lia.
  - apply Z.lt_le_incl. eapply (cr_newer _ _ _ _ (lr_core _ _ _ Hrep) key).
    + exists (value v, tx_id v). unfold key_history. rewrite Hc. destruct (mt_map_wf _ Hmem) as [_ Hwf].
      by eapply chain_history_value; [apply (Hwf _ _ Hc)|].
    + by exists f, rows, r.
Qed.

Lemma in_sst_candidate w (l : Lsm) h key s v :
  lsm_rep w l h -> in_sst l s key v <->
  sees (mkSnapshot s) v = true /\ exists f, In f (candidate_files (version_set l) key) /\ file_version l f key v.
Proof.
  intros Hrep. pose proof (lr_man _ _ _ Hrep) as Hman. destruct (candidates_inv _ key Hman) as [_ Hcand].
  fold (version_set l) in Hcand. split.
  - intros (f & rows & r & Hf & Hr & Hin & Hk & Hv & Hs). split; [done|]. exists f.
    split; [|by exists rows, r]. destruct (lr_files _ _ _ Hrep f rows Hf Hr) as (_ & m & Hm & Hc).
    apply Hcand. exists m. split; [done|]. rewrite <- Hk. auto.
  - intros (Hs & f & (m & Hm & _)%Hcand & rows & r & Hr & Hin & Hk & Hv). exists f, rows, r.
    split; [|done]. apply (wf_files _ (mi_wf _ Hman)). by exists m.
Qed.

(** The memtable's answer. *)
Lemma mem_get_in w (l : Lsm) h key s :
  lsm_rep w l h -> forall v, mt_get (mem l) key (mkSnapshot s) = Some v <-> in_mem l s key v.
Proof.
  intros Hrep v. pose proof (lr_mem _ _ _ Hrep) as Hmem. rewrite (mt_get_ok _ _ _ Hmem). unfold in_mem.
  destruct (om_get key (mt_map (mem l))) as [c|] eqn:Ec; cbn.
  - rewrite chain_get_find, (mem_visible l _ key v c Hmem Ec). split; [by exists c|]. by intros (? & [= <-] & ?).
  - split; [done|]. by intros (? & ? & _).
Qed.

(** The lookup. *)
Lemma lsm_get_rep w (l : Lsm) h sc key s :
  lsm_rep w l h -> side_ok l sc -> is_dropped_prefix l key = false -> om_get key (sc_hot sc) = None ->
  single_version l key -> single_leveled l key -> w <= s -> s < OPEN_ENDED_TS ->
  exists sc' r, lsm_get l sc key s = Some (sc', Ok r) /\ side_ok l sc' /\
    forall x, r = Some x <-> exists t, newest (h key) s t (Some x).
Proof.
  intros Hrep Hside Hdrop Hhot Hsv Hsl Hw Hs. pose proof (lr_mem _ _ _ Hrep) as Hmem.
  pose proof (lr_man _ _ _ Hrep) as Hman. unfold lsm_get. rewrite Hdrop. fold (mem l).
  destruct (mt_get (mem l) key (mkSnapshot s)) as [v|] eqn:Eg.
  - exists sc, (value v). split; [done|]. split; [done|].
    assert (Hv : in_mem l s key v) by (by apply (mem_get_in w l h key s Hrep)).
    apply (newest_answer w l h key s (Some v) Hrep Hw Hs); [by intros ? [= <-]; left|].
    intros v' Hv'. exists v. split; [done|]. by eapply mem_answer.
  - unfold hot_route. rewrite Hhot. cbn [mbind option_bind].
    destruct (candidates_inv _ key Hman) as [Hnd Hcand]. fold (version_set l) in Hnd, Hcand.
    assert (Hids : forall f, In f (candidate_files (version_set l) key) -> live l f).
    { intros f (m & Hm & _)%Hcand. apply (wf_files _ (mi_wf _ Hman)). by exists m. }
    destruct (get_files_ok w l h key (mkSnapshot s) (candidate_files (version_set l) key) sc None false [])
      as (sc' & best & lv & -> & Hside' & Hfn); try done.
    cbn [mbind option_bind rbind app] in *. do 2 eexists. split; [done|]. split; [done|].
    apply (newest_answer w l h key s best Hrep Hw Hs).
    + intros v Hv. right. apply (in_sst_candidate w l h key s v Hrep). by apply (fn_sound _ _ _ _ _ _ Hfn).
    + intros v [Hv|Hv].
      * apply (mem_get_in w l h key s Hrep) in Hv. congruence.
      * apply (in_sst_candidate w l h key s v Hrep) in Hv as (Hv & f & Hf & Hfv).
        by apply (fn_newest _ _ _ _ _ _ Hfn f v).
Qed.

(** C10: point lookups read the commit history. After any run, take a key whose
    table is not dropped, that is not in the hot-key cache, has one version per file
    and lies in at most one file above level 0; let every sidecar agree with its
    file. A lookup of the key at a snapshot not before the latest collection passes
    the bloom filters and key indexes without an access out of bounds and returns
    exactly the value of the newest commit at or before the snapshot, or nothing
    when there is none or it was a delete; the sidecar caches it fills agree with
    the files again. *)
Theorem lookup_exact (w : TxnTs) (l : Lsm) (h : bytes -> values) (sc : Sidecars) (key : bytes) (s : TxnTs) :
  lsm_run w l h -> side_ok l sc -> is_dropped_prefix l key = false -> om_get key (sc_hot sc) = None ->
  single_version l key -> single_leveled l key -> w <= s -> s < OPEN_ENDED_TS ->
  exists sc' r, lsm_get l sc key s = Some (sc', Ok r) /\ side_ok l sc' /\
    forall x, r = Some x <-> exists t, newest (h key) s t (Some x).
Proof. intros Hrun. apply lsm_get_rep. by apply lsm_run_rep. Qed.
End Lookup.

(** ** A lookup through the sidecars *)

#[local] Existing Instance no_sse42.
#[local] Existing Instance list_vortex.
#[local] Existing Instance list_vortex_laws.
#[local] Existing Instance column_ord.

Definition no_sidecars : Sidecars := mkSidecars [] [] [] [] [].
Definition sidecars_of (sc : Sidecars) (l : SampleLsm) (f : Z) : Sidecars :=
  match read_file l f with Ok rows => default sc (write_sidecars sc f rows 128 7 IoOk IoOk) | Err _ => sc end.

Definition sample_sidecars : Sidecars := Eval vm_compute in sidecars_of no_sidecars compacted_lsm 2.

Lemma sample_file f rows :
  live compacted_lsm f -> file_rows compacted_lsm f rows -> f = 2 /\ Ok rows = read_file compacted_lsm 2.
Proof.
  intros Hf Hr. pose proof (lr_man _ _ _ (lsm_run_rep _ _ _ sample_lsm_run)) as Hman.
  apply (file_ids_live _ f Hman) in Hf. vm_compute in Hf. destruct Hf as [<-|[]]. split; [done|].
  destruct Hr as (file & Hg & Hr). unfold read_file. rewrite Hg. symmetry. by apply sst_read_all_holds.
Qed.

Definition sample_src : list VersionedRow :=
  Eval vm_compute in match read_file compacted_lsm 2 with Ok rows => rows | Err _ => [] end.

Lemma sample_src_ok : rows_ok sample_src /\ values_small sample_src.
Proof. split; [split; [vm_compute; congruence|]|]; repeat constructor; vm_compute; congruence. Qed.

Lemma sample_side_ok : side_ok compacted_lsm sample_sidecars.
Proof.
  intros f rows Hf Hr. destruct (sample_file f rows Hf Hr) as [-> Hrows].
  destruct (write_sidecars_ok no_sidecars 2 sample_src 128 7 IoOk IoOk) as (sc' & Hsc & Hok & _).
  - lia.
  - apply sample_src_ok.
  - apply sample_src_ok.
  - reflexivity.
  - reflexivity.
  - reflexivity.
  - reflexivity.
  - assert (rows = map stored sample_src) as -> by (vm_compute in Hrows; injection Hrows as ->; vm_compute; reflexivity).
    assert (E : write_sidecars no_sidecars 2 sample_src 128 7 IoOk IoOk = Some sample_sidecars) by (vm_compute; reflexivity).
    rewrite E in Hsc. injection Hsc as <-. exact Hok.
Qed.

Lemma lookup_exact_witness :
  exists sc' r, lsm_get compacted_lsm sample_sidecars [x61] 5 = Some (sc', Ok r) /\
    (r = Some [x32] <-> exists t, newest (sample_history [x61]) 5 t (Some [x32])).
Proof.
  destruct (lookup_exact 2 compacted_lsm sample_history sample_sidecars [x61] 5 sample_lsm_run sample_side_ok)
    as (sc' & r & Hg & _ & Hr).
  - reflexivity.
  - reflexivity.
  - intros f v v' Hf (rows & r & Hr & Hin & _ & <-) (rows' & r' & Hr' & Hin' & _ & <-).
    destruct (sample_file f rows Hf Hr) as [-> E], (sample_file 2 rows' Hf Hr') as [_ E'].
    vm_compute in E, E'. injection E as ->. injection E' as ->. destruct Hin as [<-|[]], Hin' as [<-|[]]. reflexivity.
  - intros f f' v v' n n' Hf _ Hf' _ (rows & r & Hr & _) (rows' & r' & Hr' & _).
    destruct (sample_file f rows (ex_intro _ n Hf) Hr) as [-> _], (sample_file f' rows' (ex_intro _ n' Hf') Hr') as [-> _].
    reflexivity.
  - lia.
  - reflexivity.
  - exists sc', r. split; [exact Hg|]. apply Hr.
Defined.

(** ** Keys the lookup gets wrong *)

Definition answer (l : SampleLsm) (sc : Sidecars) (key : bytes) (s : TxnTs) : option (Result (option bytes)) :=
  match lsm_get l sc key s with Some (_, r) => Some r | None => None end.

(** A lookup enters the key's file in the hot-key cache; after a newer version of
    the key is flushed to another file, the cached file still answers. *)
Definition hot_sidecars : Sidecars :=
  match lsm_get flushed_lsm (sidecars_of no_sidecars flushed_lsm 0) [x61] 5 with
  | Some (sc, _) => sidecars_of sc flushed2_lsm 1
  | None => no_sidecars
  end.

Lemma hot_key_returns_old_value :
  answer flushed2_lsm hot_sidecars [x61] 5 = Some (Ok (Some [x31])) /\
  scan_all flushed2_lsm 5 = Ok [([x61], Some [x32])].
Proof. split; vm_compute; reflexivity. Qed.

(** Two versions of a key flushed together: the index of the file finds the older
    one, which the snapshot does not see, and the lookup answers that the key does
    not exist.  Without sidecars the same lookup finds it. *)
Definition twice_put : SampleLsm := put put_lsm [x61] [x32].
Definition twice_flushed : SampleLsm := Eval vm_compute in after twice_put (flush twice_put all_ok).

Lemma overwritten_key_not_found :
  answer twice_flushed (sidecars_of no_sidecars twice_flushed 0) [x61] 5 = Some (Ok None) /\
  answer twice_flushed no_sidecars [x61] 5 = Some (Ok (Some [x32])).
Proof. split; vm_compute; reflexivity. Qed.

(** A key with an old version at level 2 and a new one at level 1: the search
    visits candidate files by their smallest key, and stops at the first of
    levels 1 and up that has the key. *)
Definition flush_put (l : SampleLsm) (k v : bytes) : SampleLsm := let l := put l k v in after l (flush l all_ok).
Definition level2_lsm : SampleLsm :=
  Eval vm_compute in let l := flush_put (flush_put new_lsm [x62] [x31]) [x62] [x32] in after l (compact l 0 2 all_ok).
Definition two_levels : SampleLsm :=
  Eval vm_compute in let l := flush_put (flush_put level2_lsm [x61] [x30]) [x62] [x33] in after l (compact l 0 1 all_ok).

Lemma leveled_exit_returns_old_value :
  answer two_levels no_sidecars [x62] 9 = Some (Ok (Some [x32])) /\
  scan_all two_levels 9 = Ok [([x61], Some [x30]); ([x62], Some [x33])].
Proof. split; vm_compute; reflexivity. Qed.
