(* ===== verification/Catalog.v ===== *)
(** * Schemas and the catalog ([hatp-frontend/src/schema.rs] and [catalog.rs])

    Table definitions with their validation, and the catalog: databases, schemas
    and tables in nested ordered maps, the DDL operations on it and its snapshot.
    Names are the bytes of Rust's strings, whose order is that of their bytes. *)

From Stdlib Require Import Strings.String Sorting.Sorted.
From stdpp Require Import base tactics list option.
From S2P Require Import Prelude OrdMap Types Codec Arrow.
#[local] Open Scope Z_scope.

(** ** [schema.rs] *)

Inductive SchemaError :=
| EmptySchema
| UnknownColumn (name : bytes)
| DuplicateColumn (name : bytes)
| Invalid (msg : string).

Abbreviation CatalogId := bytes (only parsing).
Abbreviation SchemaId := bytes (only parsing).

Record QualifiedName := mkQualified { qn_catalog : CatalogId; qn_schema : SchemaId }.

Record TableSchema := mkTableSchema {
  ts_qualified : QualifiedName;
  ts_name : bytes;
  ts_arrow : Schema;
  ts_primary_key : list bytes;
}.

Fixpoint validate_loop (fields : Schema) (seen : omap bytes unit) : result SchemaError unit :=
  match fields with
  | [] => Ok tt
  | field :: rest =>
      match om_get (fd_name field) seen with
      | Some _ => Err (DuplicateColumn (fd_name field))
      | None => validate_loop rest (om_insert (fd_name field) tt seen)
      end
  end.

(** [TableSchema::validate_unique_columns] *)
Definition validate_unique_columns (schema : Schema) : result SchemaError unit := validate_loop schema [].

(** [TableSchema::new] *)
Definition table_schema_new (qualified : QualifiedName) (name : bytes) (arrow : Schema)
  : result SchemaError TableSchema :=
  let? _ := validate_unique_columns arrow in
  match arrow with
  | [] => Err EmptySchema
  | _ => Ok (mkTableSchema qualified name arrow [])
  end.

Fixpoint check_columns (arrow : Schema) (names : list bytes) : result SchemaError unit :=
  match names with
  | [] => Ok tt
  | name :: rest =>
      match column_with_name arrow name with
      | None => Err (UnknownColumn name)
      | Some _ => check_columns arrow rest
      end
  end.

(** [TableSchema::with_primary_key] *)
Definition with_primary_key (t : TableSchema) (columns : list bytes) : result SchemaError TableSchema :=
  let? _ := check_columns (ts_arrow t) columns in
  Ok (mkTableSchema (ts_qualified t) (ts_name t) (ts_arrow t) columns).

(** [TableSchema::field] and [TableSchema::pk_fields] *)
Definition ts_field (t : TableSchema) (name : bytes) : option Field :=
  i ← column_with_name (ts_arrow t) name; ts_arrow t !! i.
Definition pk_fields (t : TableSchema) : list Field := base.omap (ts_field t) (ts_primary_key t).

Record CreateTable := mkCreate {
  ct_qualified : QualifiedName;
  ct_name : bytes;
  ct_arrow : Schema;
  ct_primary_key : list bytes;
}.

(** [CreateTable::into_schema] *)
Definition into_schema (ddl : CreateTable) : result SchemaError TableSchema :=
  let? t := table_schema_new (ct_qualified ddl) (ct_name ddl) (ct_arrow ddl) in
  with_primary_key t (ct_primary_key ddl).

Inductive DropObject := DropTable (qualified : QualifiedName) (name : bytes).

(** ** [catalog.rs] *)

Inductive CatalogError :=
| TableExists (name : bytes) (schema : SchemaId)
| UnknownTable (name : bytes) (schema : SchemaId)
| CatalogAlreadyExists (id : CatalogId)
| CatalogNotEmpty (id : CatalogId)
| SchemaExists (schema : SchemaId) (catalog : CatalogId)
| UnknownSchema (schema : SchemaId) (catalog : CatalogId)
| UnknownCatalog (id : CatalogId)
| SchemaInvalid (err : SchemaError)
| SchemaNotEmpty (schema : SchemaId) (catalog : CatalogId).

(** The tables of a schema, the schemas of a catalog, the catalogs. *)
Abbreviation SchemaEntry := (omap bytes TableSchema).
Abbreviation CatalogEntry := (omap bytes SchemaEntry).
Abbreviation CatalogState := (omap bytes CatalogEntry).

(** The [#\[from\]] conversion of a schema error. *)
Definition lift {A} (r : result SchemaError A) : result CatalogError A :=
  match r with Ok a => Ok a | Err e => Err (SchemaInvalid e) end.

(** [Catalog::create_catalog] *)
Definition create_catalog (st : CatalogState) (name : bytes) : CatalogState * result CatalogError unit :=
  match om_get name st with
  | Some _ => (st, Err (CatalogAlreadyExists name))
  | None => (om_insert name [] st, Ok tt)
  end.

(** [Catalog::drop_catalog]: removes the entry, and puts it back when it is not
    empty. *)
Definition drop_catalog (st : CatalogState) (name : bytes) : CatalogState * result CatalogError unit :=
  match om_get name st with
  | None => (st, Err (UnknownCatalog name))
  | Some entry =>
      let removed := om_remove name st in
      match entry with
      | [] => (removed, Ok tt)
      | _ => (om_insert name entry removed, Err (CatalogNotEmpty name))
      end
  end.

(** [Catalog::create_schema]: an unknown catalog is created. *)
Definition create_schema (st : CatalogState) (catalog schema : bytes) : CatalogState * result CatalogError unit :=
  let entry := default [] (om_get catalog st) in
  let st := om_insert catalog entry st in
  match om_get schema entry with
  | Some _ => (st, Err (SchemaExists schema catalog))
  | None => (om_insert catalog (om_insert schema [] entry) st, Ok tt)
  end.

(** [Catalog::drop_schema] *)
Definition drop_schema (st : CatalogState) (catalog schema : bytes) : CatalogState * result CatalogError unit :=
  match om_get catalog st with
  | None => (st, Err (UnknownCatalog catalog))
  | Some entry =>
      match om_get schema entry with
      | None => (st, Err (UnknownSchema schema catalog))
      | Some removed =>
          let entry := om_remove schema entry in
          match removed with
          | [] => (om_insert catalog entry st, Ok tt)
          | _ => (om_insert catalog (om_insert schema removed entry) st, Err (SchemaNotEmpty schema catalog))
          end
      end
  end.

(** [Catalog::create_table]: unknown catalogs and schemas are created. *)
Definition create_table (st : CatalogState) (ddl : CreateTable) : CatalogState * result CatalogError unit :=
  match lift (into_schema ddl) with
  | Err e => (st, Err e)
  | Ok t =>
      let '(mkQualified c s) := ts_qualified t in
      let cat_entry := default [] (om_get c st) in
      let tables := default [] (om_get s cat_entry) in
      match om_get (ts_name t) tables with
      | Some _ => (om_insert c (om_insert s tables cat_entry) st, Err (TableExists (ts_name t) s))
      | None => (om_insert c (om_insert s (om_insert (ts_name t) t tables) cat_entry) st, Ok tt)
      end
  end.

(** [Catalog::drop_table] *)
Definition drop_table (st : CatalogState) (qualified : QualifiedName) (name : bytes)
  : CatalogState * result CatalogError unit :=
  let '(mkQualified c s) := qualified in
  match om_get c st with
  | None => (st, Err (UnknownCatalog c))
  | Some cat_entry =>
      match om_get s cat_entry with
      | None => (st, Err (UnknownSchema s c))
      | Some tables =>
          match om_get name tables with
          | None => (st, Err (UnknownTable name s))
          | Some _ => (om_insert c (om_insert s (om_remove name tables) cat_entry) st, Ok tt)
          end
      end
  end.

(** [Catalog::drop] *)
Definition catalog_drop (st : CatalogState) (what : DropObject) : CatalogState * result CatalogError unit :=
  match what with DropTable qualified name => drop_table st qualified name end.

(** [Catalog::table_schema]; [table_entry] returns the same definition in its
    entry. *)
Definition table_schema (st : CatalogState) (qualified : QualifiedName) (name : bytes) : option TableSchema :=
  cat_entry ← om_get (qn_catalog qualified) st;
  tables ← om_get (qn_schema qualified) cat_entry;
  om_get name tables.

(** [catalog_names], [schema_names], [table_names], [all_tables] *)
Definition catalog_names (st : CatalogState) : list bytes := om_keys st.
Definition schema_names (st : CatalogState) (catalog : bytes) : list bytes :=
  default [] (om_keys <$> om_get catalog st).
Definition table_names (st : CatalogState) (catalog schema : bytes) : list bytes :=
  default [] (om_keys <$> (om_get catalog st ≫= om_get schema)).
Definition all_tables (st : CatalogState) : list (QualifiedName * bytes * TableSchema) :=
  List.flat_map (fun '(cat, entry) =>
    List.flat_map (fun '(schema, tables) =>
      map (fun '(name, t) => (mkQualified cat schema, name, t)) tables) entry) st.

(** ** Snapshots *)

Record TableRecord := mkTableRecord { tr_name : bytes; tr_arrow : Schema; tr_primary_key : list bytes }.
Record SchemaRecord := mkSchemaRecord { sr_name : bytes; sr_tables : list TableRecord }.
Record CatalogRecord := mkCatalogRecord { cr_name : bytes; cr_schemas : list SchemaRecord }.
Abbreviation CatalogSnapshot := (list CatalogRecord).

(** [Catalog::to_snapshot] *)
Definition table_record (e : bytes * TableSchema) : TableRecord :=
  mkTableRecord e.1 (ts_arrow e.2) (ts_primary_key e.2).
Definition schema_record (e : bytes * SchemaEntry) : SchemaRecord :=
  mkSchemaRecord e.1 (map table_record e.2).
Definition to_snapshot (st : CatalogState) : CatalogSnapshot :=
  map (fun e : bytes * CatalogEntry => mkCatalogRecord e.1 (map schema_record e.2)) st.

Fixpoint apply_tables (catalog schema : bytes) (tables : list TableRecord) (acc : SchemaEntry)
  : result CatalogError SchemaEntry :=
  match tables with
  | [] => Ok acc
  | r :: rest =>
      let? ts := lift (table_schema_new (mkQualified catalog schema) (tr_name r) (tr_arrow r)) in
      let? ts := match tr_primary_key r with
                 | [] => Ok ts
                 | pk => lift (with_primary_key ts pk)
                 end in
      apply_tables catalog schema rest (om_insert (tr_name r) ts acc)
  end.

Fixpoint apply_schemas (catalog : bytes) (schemas : list SchemaRecord) (acc : CatalogEntry)
  : result CatalogError CatalogEntry :=
  match schemas with
  | [] => Ok acc
  | r :: rest =>
      let? tables := apply_tables catalog (sr_name r) (sr_tables r) [] in
      apply_schemas catalog rest (om_insert (sr_name r) tables acc)
  end.

Fixpoint apply_catalogs (catalogs : list CatalogRecord) (acc : CatalogState) : result CatalogError CatalogState :=
  match catalogs with
  | [] => Ok acc
  | r :: rest =>
      let? entry := apply_schemas (cr_name r) (cr_schemas r) [] in
      apply_catalogs rest (om_insert (cr_name r) entry acc)
  end.

(** [Catalog::apply_snapshot] builds the new state apart and swaps it in. *)
Definition apply_snapshot (st : CatalogState) (snapshot : CatalogSnapshot)
  : CatalogState * result CatalogError unit :=
  match apply_catalogs snapshot [] with
  | Ok st' => (st', Ok tt)
  | Err e => (st, Err e)
  end.

(** [Catalog::from_snapshot] *)
Definition from_snapshot (snapshot : CatalogSnapshot) : result CatalogError CatalogState :=
  match apply_snapshot [] snapshot with
  | (st, Ok _) => Ok st
  | (_, Err e) => Err e
  end.

(** ** Well-formed catalogs *)

(** A table definition the validator accepts. *)
Definition ts_valid (t : TableSchema) : Prop :=
  ts_arrow t <> [] /\ NoDup (map fd_name (ts_arrow t)) /\
  Forall (fun name => In name (map fd_name (ts_arrow t))) (ts_primary_key t).

Definition tables_ok (c s : bytes) (tables : SchemaEntry) : Prop :=
  om_sorted tables /\
  forall n t, om_get n tables = Some t -> ts_valid t /\ ts_qualified t = mkQualified c s /\ ts_name t = n.
Definition schemas_ok (c : bytes) (entry : CatalogEntry) : Prop :=
  om_sorted entry /\ forall s tables, om_get s entry = Some tables -> tables_ok c s tables.
Definition catalog_ok (st : CatalogState) : Prop :=
  om_sorted st /\ forall c entry, om_get c st = Some entry -> schemas_ok c entry.

(** *** The validator *)

Lemma validate_loop_ok fields seen :
  validate_loop fields seen = Ok tt <->
  NoDup (map fd_name fields) /\ forall f, In f fields -> om_get (fd_name f) seen = None.
Proof.
  revert seen. induction fields as [|f fields IH]; intros seen; cbn [validate_loop map].
  - split; [intros _; split; [constructor|done]|done].
  - destruct (om_get (fd_name f) seen) eqn:E.
    + split; [done|]. intros [_ Hn]. by rewrite (Hn f (or_introl eq_refl)) in E.
    + rewrite IH. setoid_rewrite om_get_insert. split.
      * intros [Hnd Hn]. split.
        -- constructor; [|done]. intros (g & Hg & Hin)%list_elem_of_In%in_map_iff. specialize (Hn g Hin).
           by rewrite Hg, eqc_refl in Hn.
        -- intros g [<-|Hin]; [done|]. specialize (Hn g Hin). by destruct (eqc _ _).
      * intros [Hnd Hn]. inversion Hnd as [|x l Hx Hnd']. subst. split; [done|]. intros g Hin.
        destruct (eqc (fd_name g) (fd_name f)) eqn:Eg; [|apply Hn; by right]. apply eqc_spec in Eg.
        destruct Hx. apply list_elem_of_In. rewrite <- Eg. by apply in_map.
Qed.

Lemma column_with_name_In arrow name :
  is_Some (column_with_name arrow name) <-> In name (map fd_name arrow).
Proof.
  induction arrow as [|f arrow IH]; cbn; [by split; [intros []|]|].
  destruct (eqc (fd_name f) name) eqn:E; cbool.
  - split; [by left|eauto].
  - rewrite <- IH, fmap_is_Some. split; [by right|by intros [?|?]].
Qed.

Lemma check_columns_ok arrow names :
  check_columns arrow names = Ok tt <-> Forall (fun name => In name (map fd_name arrow)) names.
Proof.
  induction names as [|n names IH]; cbn [check_columns]; [by split|].
  pose proof (column_with_name_In arrow n) as Hn. destruct (column_with_name arrow n).
  - rewrite IH. split; [intros; constructor; [by apply Hn|done]|by intros [_ ?]%Forall_cons_1].
  - split; [done|]. intros [Hin _]%Forall_cons_1. apply Hn in Hin. by destruct Hin.
Qed.

(** [new] followed by [with_primary_key] accepts exactly the valid definitions. *)
Lemma schema_build_ok q n arrow pk t :
  (let? t := table_schema_new q n arrow in with_primary_key t pk) = Ok t <->
  t = mkTableSchema q n arrow pk /\ ts_valid t.
Proof.
  unfold table_schema_new, validate_unique_columns, with_primary_key, ts_valid.
  pose proof (validate_loop_ok arrow []) as Hv. destruct (validate_loop arrow []) as [[]|e]; cbn [rbind].
  - destruct (proj1 Hv eq_refl) as [Hnd _]. destruct arrow as [|f arrow]; cbn [rbind].
    + split; [done|]. intros [-> (? & _)]. done.
    + cbn [ts_arrow ts_qualified ts_name].
      pose proof (check_columns_ok (f :: arrow) pk) as Hc. destruct (check_columns _ pk) as [[]|e]; cbn [rbind].
      * split; [intros [= <-]; split; [done|]; split; [done|split; [done|by apply Hc]]|by intros [-> _]].
      * split; [done|]. intros [-> (_ & _ & Hpk)]. by apply Hc in Hpk.
  - split; [done|]. intros [-> (_ & Hnd & _)]. assert (Hx : Err e = Ok tt) by (by apply Hv). done.
Qed.

Lemma into_schema_ok ddl t :
  into_schema ddl = Ok t <->
  t = mkTableSchema (ct_qualified ddl) (ct_name ddl) (ct_arrow ddl) (ct_primary_key ddl) /\ ts_valid t.
Proof. apply schema_build_ok. Qed.

(** *** Entries *)

Lemma om_sorted_nil' {V} : om_sorted ([] : list (bytes * V)).
Proof. constructor. Qed.

Lemma tables_ok_nil c s : tables_ok c s [].
Proof. by split; [apply om_sorted_nil'|]. Qed.
Lemma schemas_ok_nil c : schemas_ok c [].
Proof. by split; [apply om_sorted_nil'|]. Qed.

(** Inserting into a map whose entries are all well formed. *)
Lemma om_all_insert {V} (P : bytes -> V -> Prop) k v (m : list (bytes * V)) :
  om_sorted m /\ (forall k v, om_get k m = Some v -> P k v) -> P k v ->
  om_sorted (om_insert k v m) /\ forall k' v', om_get k' (om_insert k v m) = Some v' -> P k' v'.
Proof.
  intros [Hs Hm] Hv. split; [by apply om_sorted_insert|]. intros k' v'. rewrite om_get_insert.
  destruct (eqc k' k) eqn:E; cbool; [intros [= <-]; by subst|apply Hm].
Qed.

Lemma om_all_remove {V} (P : bytes -> V -> Prop) k (m : list (bytes * V)) :
  om_sorted m /\ (forall k v, om_get k m = Some v -> P k v) ->
  om_sorted (om_remove k m) /\ forall k' v', om_get k' (om_remove k m) = Some v' -> P k' v'.
Proof.
  intros [Hs Hm]. split; [by apply om_sorted_remove|]. intros k' v'. rewrite om_get_remove.
  destruct (eqc k k'); [done|apply Hm].
Qed.

Lemma tables_ok_insert c s n t tables :
  tables_ok c s tables -> ts_valid t -> ts_qualified t = mkQualified c s -> ts_name t = n ->
  tables_ok c s (om_insert n t tables).
Proof.
  intros Ht Hv Hq Hn.
  by apply (om_all_insert (fun n t => ts_valid t /\ ts_qualified t = mkQualified c s /\ ts_name t = n)).
Qed.

Lemma tables_ok_remove c s n tables : tables_ok c s tables -> tables_ok c s (om_remove n tables).
Proof. apply (om_all_remove (fun n t => ts_valid t /\ ts_qualified t = mkQualified c s /\ ts_name t = n)). Qed.

Lemma schemas_ok_insert c s tables entry :
  schemas_ok c entry -> tables_ok c s tables -> schemas_ok c (om_insert s tables entry).
Proof. intros He Ht. by apply (om_all_insert (tables_ok c)). Qed.
Lemma schemas_ok_remove c s entry : schemas_ok c entry -> schemas_ok c (om_remove s entry).
Proof. apply (om_all_remove (tables_ok c)). Qed.

Lemma catalog_ok_insert c entry st : catalog_ok st -> schemas_ok c entry -> catalog_ok (om_insert c entry st).
Proof. intros Hs He. by apply (om_all_insert schemas_ok). Qed.
Lemma catalog_ok_remove c st : catalog_ok st -> catalog_ok (om_remove c st).
Proof. apply (om_all_remove schemas_ok). Qed.

(** The entries an operation starts from. *)
Lemma catalog_entry_ok st c : catalog_ok st -> schemas_ok c (default [] (om_get c st)).
Proof. intros [_ H]. destruct (om_get c st) eqn:E; [by apply H|apply schemas_ok_nil]. Qed.
Lemma schema_entry_ok c s entry : schemas_ok c entry -> tables_ok c s (default [] (om_get s entry)).
Proof. intros [_ H]. destruct (om_get s entry) eqn:E; [by apply H|apply tables_ok_nil]. Qed.

Create HintDb catalog.
#[export] Hint Resolve tables_ok_nil schemas_ok_nil tables_ok_insert tables_ok_remove schemas_ok_insert
  schemas_ok_remove catalog_ok_insert catalog_ok_remove catalog_entry_ok schema_entry_ok : catalog.

(** Removing an entry and putting it back, or inserting the entry that is there. *)
Lemma om_reinsert {V} k v (m : list (bytes * V)) :
  om_sorted m -> om_get k m = Some v -> om_insert k v (om_remove k m) = m.
Proof.
  intros Hs Hg. apply om_ext; [by apply om_sorted_insert, om_sorted_remove|done|]. intros k'.
  rewrite om_get_insert, om_get_remove. destruct (eqc k' k) eqn:E; cbool; [by subst|].
  by rewrite (proj2 (eqc_false k k')).
Qed.

(** ** The operations against an abstract catalog *)

Inductive CatalogOp :=
| CreateCatalogOp (name : bytes)
| DropCatalogOp (name : bytes)
| CreateSchemaOp (catalog schema : bytes)
| DropSchemaOp (catalog schema : bytes)
| CreateTableOp (ddl : CreateTable)
| DropOp (what : DropObject).

Definition run_op (st : CatalogState) (op : CatalogOp) : CatalogState * result CatalogError unit :=
  match op with
  | CreateCatalogOp n => create_catalog st n
  | DropCatalogOp n => drop_catalog st n
  | CreateSchemaOp c s => create_schema st c s
  | DropSchemaOp c s => drop_schema st c s
  | CreateTableOp ddl => create_table st ddl
  | DropOp what => catalog_drop st what
  end.

(** The abstract catalog: which definition a qualified name has. *)
Abbreviation Tables := (QualifiedName -> bytes -> option TableSchema).

Definition eq_qualified (a b : QualifiedName) : bool :=
  eqc (qn_catalog a) (qn_catalog b) && eqc (qn_schema a) (qn_schema b).

Definition op_effect (op : CatalogOp) (tables : Tables) : Tables := fun q n =>
  match op with
  | CreateTableOp ddl =>
      if eq_qualified q (ct_qualified ddl) && eqc n (ct_name ddl)
      then Some (mkTableSchema (ct_qualified ddl) (ct_name ddl) (ct_arrow ddl) (ct_primary_key ddl))
      else tables q n
  | DropOp (DropTable q0 n0) => if eq_qualified q q0 && eqc n n0 then None else tables q n
  | _ => tables q n
  end.

(** When an operation is allowed. *)
Definition op_allowed (st : CatalogState) (op : CatalogOp) : Prop :=
  match op with
  | CreateCatalogOp n => ~ In n (catalog_names st)
  | DropCatalogOp n => In n (catalog_names st) /\ schema_names st n = []
  | CreateSchemaOp c s => ~ In s (schema_names st c)
  | DropSchemaOp c s => In s (schema_names st c) /\ table_names st c s = []
  | CreateTableOp ddl => (exists t, into_schema ddl = Ok t) /\ table_schema st (ct_qualified ddl) (ct_name ddl) = None
  | DropOp (DropTable q n) => is_Some (table_schema st q n)
  end.

Lemma om_keys_In {V} k (m : list (bytes * V)) : In k (om_keys m) <-> is_Some (om_get k m).
Proof.
  destruct (om_get k m) as [v|] eqn:E.
  - split; [eauto|]. intros _. apply om_get_In in E. change k with (fst (k, v)). by apply in_map.
  - apply om_get_None_notin in E. split; [done|]. by intros [].
Qed.

(** What an operation that replaces one entry does to the lookups. *)
Lemma table_schema_insert st c entry q n :
  table_schema (om_insert c entry st) q n =
  if eqc (qn_catalog q) c then om_get (qn_schema q) entry ≫= om_get n else table_schema st q n.
Proof. unfold table_schema. rewrite om_get_insert. by destruct (eqc _ c). Qed.

Lemma table_schema_insert2 st c s tables q n :
  table_schema (om_insert c (om_insert s tables (default [] (om_get c st))) st) q n =
  if eq_qualified q (mkQualified c s) then om_get n tables else table_schema st q n.
Proof.
  rewrite table_schema_insert. unfold eq_qualified. cbn. destruct (eqc (qn_catalog q) c) eqn:Ec; [|done]. cbool. cbn.
  rewrite om_get_insert. destruct (eqc (qn_schema q) s); [done|]. unfold table_schema. rewrite Ec.
  by destruct (om_get c st).
Qed.

Lemma table_schema_default st q n :
  table_schema st q n = om_get n (default [] (om_get (qn_schema q) (default [] (om_get (qn_catalog q) st)))).
Proof.
  unfold table_schema. destruct (om_get (qn_catalog q) st); cbn; [|done]. by destruct (om_get _ _).
Qed.

Lemma eq_qualified_spec a b : eq_qualified a b = true <-> a = b.
Proof. destruct a, b. unfold eq_qualified. cbn. rewrite andb_true_iff, !eqc_spec. split; [by intros [-> ->]|by intros [= -> ->]]. Qed.

Definition op_exact (st : CatalogState) (op : CatalogOp) (out : CatalogState * result CatalogError unit) : Prop :=
  match out.2 with
  | Ok _ => op_allowed st op /\ forall q n, table_schema out.1 q n = op_effect op (table_schema st) q n
  | Err _ => ~ op_allowed st op /\ out.1 = st
  end.

Lemma create_catalog_exact st n : op_exact st (CreateCatalogOp n) (create_catalog st n).
Proof.
  unfold create_catalog, op_exact. destruct (om_get n st) as [entry|] eqn:E; cbn [fst snd op_allowed].
  - split; [|done]. intros Hn. apply Hn, om_keys_In. by rewrite E.
  - split; [unfold catalog_names; rewrite om_keys_In, E; by intros []|]. intros q m. rewrite table_schema_insert. cbn.
    destruct (eqc (qn_catalog q) n) eqn:Eq; cbool; [|done]. unfold table_schema. by rewrite Eq, E.
Qed.

Lemma drop_catalog_exact st n : catalog_ok st -> op_exact st (DropCatalogOp n) (drop_catalog st n).
Proof.
  intros [Hs _]. unfold drop_catalog, op_exact, op_allowed, catalog_names, schema_names.
  destruct (om_get n st) as [[|x entry]|] eqn:E; cbn [fst snd fmap option_fmap option_map default];
    rewrite om_keys_In, E.
  - split; [by split|]. intros q m. cbn. unfold table_schema. rewrite om_get_remove.
    destruct (eqc n (qn_catalog q)) eqn:Eq; cbool; [|done]. by rewrite <- Eq, E.
  - split; [by intros [_ ?]|]. by apply om_reinsert.
  - split; [by intros [[] _]|done].
Qed.

Lemma create_schema_exact st c s : catalog_ok st -> op_exact st (CreateSchemaOp c s) (create_schema st c s).
Proof.
  intros [Hs _]. unfold create_schema, op_exact, op_allowed, schema_names.
  assert (Hk : default [] (om_keys <$> om_get c st) = om_keys (default [] (om_get c st)))
    by (by destruct (om_get c st)).
  destruct (om_get s (default [] (om_get c st))) as [tables|] eqn:E; cbn [fst snd]; rewrite Hk, om_keys_In, E.
  - split; [intros Hn; apply Hn; eauto|]. destruct (om_get c st) as [entry|] eqn:Ec; [|done]. by apply om_insert_id.
  - split; [by intros []|]. intros q n. cbn [op_effect].
    rewrite table_schema_insert. destruct (eqc (qn_catalog q) c) eqn:Eq; cbool.
    + rewrite om_get_insert, table_schema_default, Eq. destruct (eqc (qn_schema q) s) eqn:Es; cbool; [by rewrite Es, E|].
      by destruct (om_get (qn_schema q) _).
    + rewrite table_schema_insert. by rewrite (proj2 (eqc_false _ _)).
Qed.

Lemma drop_schema_exact st c s : catalog_ok st -> op_exact st (DropSchemaOp c s) (drop_schema st c s).
Proof.
  intros [Hs Hok]. unfold drop_schema, op_exact, op_allowed, schema_names, table_names.
  destruct (om_get c st) as [entry|] eqn:Ec; cbn [fst snd fmap option_fmap option_map default mbind option_bind];
    [|by split; [intros [[] _]|]]. destruct (Hok c entry Ec) as [He _].
  destruct (om_get s entry) as [[|x tables]|] eqn:Es; cbn [fst snd fmap option_fmap option_map default id];
    rewrite om_keys_In, Es; [|split; [by intros [_ ?]|]|by split; [intros [[] _]|]].
  - split; [by split|]. intros q n. rewrite table_schema_insert. cbn [op_effect].
    destruct (eqc (qn_catalog q) c) eqn:Eq; cbool; [|done]. rewrite om_get_remove. unfold table_schema. rewrite Eq, Ec. cbn.
    destruct (eqc s (qn_schema q)) eqn:Es'; cbool; [|done]. by rewrite <- Es', Es.
  - rewrite om_reinsert by done. by apply om_insert_id.
Qed.

Lemma create_table_exact st ddl : catalog_ok st -> op_exact st (CreateTableOp ddl) (create_table st ddl).
Proof.
  intros [Hs Hok]. unfold create_table, op_exact, op_allowed.
  destruct (into_schema ddl) as [t|e] eqn:Ei; cbn [lift]; [|cbn; split; [by intros [[] _]|done]].
  pose proof (proj1 (into_schema_ok ddl t) Ei) as [-> _]. cbn [ts_qualified ts_name].
  destruct (ct_qualified ddl) as [c s] eqn:Eq. rewrite table_schema_default. cbn [qn_catalog qn_schema].
  destruct (om_get (ct_name ddl) _) as [t|] eqn:En; cbn [fst snd].
  - split; [by intros [_ ?]|]. destruct (om_get c st) as [entry|] eqn:Ec; [|done]. cbn [default id] in *.
    destruct (om_get s entry) as [tables|] eqn:Es; [|done]. cbn [default id] in *. destruct (Hok c entry Ec) as [He _].
    rewrite (om_insert_id s tables entry) by done. by apply om_insert_id.
  - split; [split; [eauto|done]|]. intros q n. rewrite table_schema_insert2. unfold op_effect. rewrite Eq.
    destruct (eq_qualified q (mkQualified c s)) eqn:E; [|done]. apply eq_qualified_spec in E as ->.
    rewrite om_get_insert, table_schema_default. done.
Qed.

Lemma drop_table_exact st q0 n0 : catalog_ok st -> op_exact st (DropOp (DropTable q0 n0)) (drop_table st q0 n0).
Proof.
  intros [Hs Hok]. destruct q0 as [c s]. unfold drop_table, op_exact, op_allowed, table_schema. cbn [qn_catalog qn_schema].
  destruct (om_get c st) as [entry|] eqn:Ec; cbn [mbind option_bind fst snd]; [|by split; [intros []|]].
  destruct (om_get s entry) as [tables|] eqn:Es; cbn [mbind option_bind fst snd]; [|by split; [intros []|]].
  destruct (om_get n0 tables) as [t|] eqn:En; cbn [fst snd]; [|by split; [intros []|]].
  split; [eauto|]. intros q n. cbn [op_effect]. fold (table_schema (om_insert c (om_insert s (om_remove n0 tables) entry) st) q n).
  fold (table_schema st q n). replace entry with (default [] (om_get c st)) at 1 by (by rewrite Ec).
  rewrite table_schema_insert2. destruct (eq_qualified q (mkQualified c s)) eqn:E; [|done].
  apply eq_qualified_spec in E as ->. rewrite om_get_remove. unfold table_schema. cbn. rewrite Ec. cbn. rewrite Es. cbn.
  destruct (eqc n n0) eqn:E'; cbool; [by rewrite (proj2 (eqc_spec n0 n))|]. by rewrite (proj2 (eqc_false n0 n)).
Qed.

(** ** Reachable catalogs *)

Lemma run_op_exact st op : catalog_ok st -> op_exact st op (run_op st op).
Proof.
  intros Hok. destruct op as [n|n|c s|c s|ddl|[q n]]; cbn [run_op].
  - apply create_catalog_exact.
  - by apply drop_catalog_exact.
  - by apply create_schema_exact.
  - by apply drop_schema_exact.
  - by apply create_table_exact.
  - by apply drop_table_exact.
Qed.

Lemma run_op_ok st op : catalog_ok st -> catalog_ok (run_op st op).1.
Proof.
  intros Hok. pose proof (run_op_exact st op Hok) as Hex. unfold op_exact in Hex.
  destruct (run_op st op) as [st' [[]|e]] eqn:E; cbn [fst snd] in Hex |- *; [clear Hex|by destruct Hex as [_ ->]].
  destruct op as [n|n|c s|c s|ddl|[[c s] n]]; cbn in E.
  - unfold create_catalog in E. destruct (om_get n st); [done|]. injection E as <-. auto with catalog.
  - unfold drop_catalog in E. destruct (om_get n st) as [[|]|]; [|done..]. injection E as <-. auto with catalog.
  - unfold create_schema in E. destruct (om_get s _); [done|]. injection E as <-.
    pose proof (catalog_entry_ok st c Hok). auto with catalog.
  - unfold drop_schema in E. destruct (om_get c st) as [entry|] eqn:Ec; [|done].
    assert (schemas_ok c entry) by (by apply Hok). destruct (om_get s entry) as [[|]|]; [|done..]. injection E as <-.
    auto with catalog.
  - unfold create_table in E. destruct (into_schema ddl) as [t|] eqn:Ei; [|done]. cbn [lift] in E.
    apply into_schema_ok in Ei as [Ht Hv]. destruct (ts_qualified t) as [c s] eqn:Eq.
    destruct (om_get (ts_name t) _); [done|]. injection E as <-.
    pose proof (catalog_entry_ok st c Hok). pose proof (schema_entry_ok c s _ (catalog_entry_ok st c Hok)).
    auto 10 with catalog.
  - unfold catalog_drop, drop_table in E. destruct (om_get c st) as [entry|] eqn:Ec; [|done].
    assert (He : schemas_ok c entry) by (by apply Hok). destruct (om_get s entry) as [tables|] eqn:Es; [|done].
    assert (tables_ok c s tables) by (by apply He). destruct (om_get n tables); [|done]. injection E as <-.
    auto 10 with catalog.
Qed.

Lemma apply_tables_ok c s records acc tables :
  tables_ok c s acc -> apply_tables c s records acc = Ok tables -> tables_ok c s tables.
Proof.
  revert acc. induction records as [|r records IH]; intros acc Hacc; cbn [apply_tables]; [by intros [= <-]|].
  pose proof (schema_build_ok (mkQualified c s) (tr_name r) (tr_arrow r) (tr_primary_key r)) as Hb.
  destruct (table_schema_new _ _ _) as [ts|] eqn:En; cbn [lift rbind]; [|done].
  assert (Hts : ts = mkTableSchema (mkQualified c s) (tr_name r) (tr_arrow r) []).
  { unfold table_schema_new in En. destruct (validate_unique_columns _); [|done]. cbn in En.
    destruct (tr_arrow r); [done|]. by injection En. }
  destruct (tr_primary_key r) as [|k pk] eqn:Epk.
  - cbn [rbind]. apply IH. destruct (proj1 (Hb ts)) as [_ Hv]; [by rewrite Hts|]. subst ts. auto with catalog.
  - cbn [rbind] in Hb. destruct (with_primary_key ts (k :: pk)) as [ts'|] eqn:Ew; cbn [lift rbind]; [|done].
    apply IH. destruct (proj1 (Hb ts') eq_refl) as [-> Hv]. auto with catalog.
Qed.

Lemma apply_schemas_ok c records acc entry :
  schemas_ok c acc -> apply_schemas c records acc = Ok entry -> schemas_ok c entry.
Proof.
  revert acc. induction records as [|r records IH]; intros acc Hacc; cbn [apply_schemas]; [by intros [= <-]|].
  destruct (apply_tables c (sr_name r) (sr_tables r) []) as [tables|] eqn:Et; cbn [rbind]; [|done].
  apply apply_tables_ok in Et; [|apply tables_ok_nil]. apply IH. auto with catalog.
Qed.

Lemma apply_catalogs_ok records acc st : catalog_ok acc -> apply_catalogs records acc = Ok st -> catalog_ok st.
Proof.
  revert acc. induction records as [|r records IH]; intros acc Hacc; cbn [apply_catalogs]; [by intros [= <-]|].
  destruct (apply_schemas (cr_name r) (cr_schemas r) []) as [entry|] eqn:Ee; cbn [rbind]; [|done].
  apply apply_schemas_ok in Ee; [|apply schemas_ok_nil]. apply IH. auto with catalog.
Qed.

(** A catalog reached by DDL operations and by loading snapshots of any content. *)
Inductive catalog_reach : CatalogState -> Prop :=
| catalog_new : catalog_reach []
| catalog_step st op : catalog_reach st -> catalog_reach (run_op st op).1
| catalog_load st snapshot : catalog_reach st -> catalog_reach (apply_snapshot st snapshot).1.

Lemma catalog_reach_ok st : catalog_reach st -> catalog_ok st.
Proof.
  induction 1 as [|st op _ IH|st snapshot _ IH].
  - by split; [apply om_sorted_nil'|].
  - by apply run_op_ok.
  - unfold apply_snapshot. destruct (apply_catalogs snapshot []) as [st'|] eqn:E; cbn; [|done].
    eapply apply_catalogs_ok; [|exact E]. by split; [apply om_sorted_nil'|].
Qed.

Lemma table_schema_named st q n t :
  catalog_ok st -> table_schema st q n = Some t -> ts_valid t /\ ts_qualified t = q /\ ts_name t = n.
Proof.
  intros [_ Hok]. unfold table_schema. destruct q as [c s]. cbn [qn_catalog qn_schema].
  destruct (om_get c st) as [entry|] eqn:Ec; [|done]. cbn. destruct (om_get s entry) as [tables|] eqn:Es; [|done]. cbn.
  apply (Hok c entry Ec). done.
Qed.

(** C35: definitions in the catalog are well formed.  Whatever DDL statements and
    snapshots a catalog went through, every table it returns has at least one
    column, no two columns with one name, a primary key of existing columns, and
    carries the qualified name it is found under. *)
Theorem catalog_typed (st : CatalogState) (q : QualifiedName) (n : bytes) (t : TableSchema) :
  catalog_reach st -> table_schema st q n = Some t ->
  ts_valid t /\ ts_qualified t = q /\ ts_name t = n.
Proof. intros Hok%catalog_reach_ok. by apply table_schema_named. Qed.

(** C31: the catalog implements its contract.  On every reachable catalog each
    DDL operation succeeds exactly when it is allowed (the name is free, the
    database or schema exists and is empty, the definition is valid, the table
    exists), changes the definitions found by name exactly as specified, and
    leaves the catalog as it was when it fails. *)
Theorem catalog_ops_refine (st : CatalogState) (op : CatalogOp) :
  catalog_reach st ->
  match run_op st op with
  | (st', Ok _) => op_allowed st op /\ forall q n, table_schema st' q n = op_effect op (table_schema st) q n
  | (st', Err _) => ~ op_allowed st op /\ st' = st
  end.
Proof.
  intros Hr. pose proof (run_op_exact st op (catalog_reach_ok st Hr)) as Hex. unfold op_exact in Hex.
  by destruct (run_op st op) as [st' []].
Qed.

(** *** The snapshot *)

(** Inserting the entries of a map one by one gives the map. *)
Lemma om_insert_last {V} k (v : V) (m : list (bytes * V)) :
  Forall (fun e => clt e.1 k) m -> om_insert k v m = m ++ [(k, v)].
Proof.
  induction m as [|[k' v'] m IH]; intros Hall; [done|]. apply Forall_cons_1 in Hall as [Hlt Hall]. cbn [fst] in Hlt. cbn [om_insert app].
  destruct (cmp k k') eqn:E.
  - apply cmp_eq in E as ->. by apply clt_irrefl in Hlt.
  - exfalso. by apply (clt_asym k k').
  - by rewrite IH.
Qed.

Lemma sorted_app_lt {V} (a : list (bytes * V)) k v b :
  om_sorted (a ++ (k, v) :: b) -> Forall (fun e => clt e.1 k) a.
Proof.
  unfold om_sorted, om_keys. rewrite map_app. cbn [map fst]. intros Hs. apply List.Forall_forall. intros [k' v'] Hin.
  apply (in_map fst) in Hin. cbn in Hin |- *. revert Hs. induction (map fst a) as [|x l IH]; [done|].
  cbn. intros [Hs Hall]%StronglySorted_inv. destruct Hin as [->|Hin]; [|by apply IH].
  rewrite List.Forall_forall in Hall. apply Hall, in_app_iff. right. by left.
Qed.

Lemma apply_tables_snapshot c s done tables :
  tables_ok c s (done ++ tables) -> apply_tables c s (map table_record tables) done = Ok (done ++ tables).
Proof.
  revert done. induction tables as [|[n t] tables IH]; intros done Hok; cbn [map apply_tables]; [by rewrite app_nil_r|].
  destruct Hok as [Hs Ht]. assert (Hg : om_get n (done ++ (n, t) :: tables) = Some t)
    by (apply om_In_get; [|apply in_app_iff; right; left]; done).
  destruct (Ht n t Hg) as (Hv & Hq & Hn). cbn [table_record tr_name tr_arrow tr_primary_key fst snd].
  assert (Hb : (let? t0 := table_schema_new (mkQualified c s) n (ts_arrow t) in with_primary_key t0 (ts_primary_key t)) = Ok t).
  { apply schema_build_ok. split; [|done]. destruct t. cbn in *. congruence. }
  assert (Hstep : apply_tables c s (map table_record tables) (om_insert n t done) = Ok (done ++ (n, t) :: tables)).
  { rewrite (om_insert_last n t done) by (by eapply sorted_app_lt). rewrite IH by (by rewrite <- app_assoc).
    by rewrite <- app_assoc. }
  destruct (table_schema_new _ n (ts_arrow t)) as [ts|] eqn:En; cbn [rbind lift] in Hb |- *; [|done].
  destruct (ts_primary_key t) as [|k pk].
  - unfold with_primary_key in Hb. cbn in Hb. injection Hb as Hb. cbn [rbind]. rewrite <- Hstep, <- Hb.
    f_equal. unfold table_schema_new in En. destruct (validate_unique_columns _); [|done]. cbn in En.
    destruct (ts_arrow t); [done|]. by injection En as <-.
  - rewrite Hb. exact Hstep.
Qed.

Lemma apply_schemas_snapshot c done entry :
  schemas_ok c (done ++ entry) -> apply_schemas c (map schema_record entry) done = Ok (done ++ entry).
Proof.
  revert done. induction entry as [|[s tables] entry IH]; intros done Hok; cbn [map apply_schemas]; [by rewrite app_nil_r|].
  pose proof Hok as [Hs Ht]. assert (Hg : om_get s (done ++ (s, tables) :: entry) = Some tables)
    by (apply om_In_get; [|apply in_app_iff; right; left]; done).
  cbn [schema_record sr_name sr_tables fst snd]. rewrite (apply_tables_snapshot c s [] tables) by (by apply Ht).
  cbn [rbind app]. rewrite (om_insert_last s tables done) by (by eapply sorted_app_lt).
  rewrite IH by (by rewrite <- app_assoc). by rewrite <- app_assoc.
Qed.

Lemma apply_catalogs_snapshot done st :
  catalog_ok (done ++ st) -> apply_catalogs (to_snapshot st) done = Ok (done ++ st).
Proof.
  revert done. induction st as [|[c entry] st IH]; intros done Hok; cbn [to_snapshot map apply_catalogs]; [by rewrite app_nil_r|].
  pose proof Hok as [Hs Ht]. assert (Hg : om_get c (done ++ (c, entry) :: st) = Some entry)
    by (apply om_In_get; [|apply in_app_iff; right; left]; done).
  cbn [cr_name cr_schemas fst snd]. rewrite (apply_schemas_snapshot c [] entry) by (by apply Ht).
  cbn [rbind app]. rewrite (om_insert_last c entry done) by (by eapply sorted_app_lt).
  fold (to_snapshot st). rewrite IH by (by rewrite <- app_assoc). by rewrite <- app_assoc.
Qed.

Lemma snapshot_reload st : catalog_ok st -> from_snapshot (to_snapshot st) = Ok st.
Proof. intros Hok. unfold from_snapshot, apply_snapshot. by rewrite (apply_catalogs_snapshot [] st Hok). Qed.

(** A catalog survives its snapshot: rebuilding a catalog from the snapshot
    of any reachable one succeeds, although every definition is validated again,
    and gives the same catalog, empty databases and schemas included. *)
Lemma catalog_snapshot_roundtrip (st : CatalogState) :
  catalog_reach st -> from_snapshot (to_snapshot st) = Ok st.
Proof.
  intros Hok%catalog_reach_ok. by apply snapshot_reload.
Qed.

(** ** Witnesses *)

Definition users_ddl : CreateTable :=
  mkCreate (mkQualified [x63] [x73]) [x75] [mkField [x69] DtInt64 false; mkField [x6e] DtUtf8 true] [[x69]].
Definition sample_catalog : CatalogState := (run_op [] (CreateTableOp users_ddl)).1.

Lemma sample_catalog_reach : catalog_reach sample_catalog.
Proof. apply catalog_step, catalog_new. Qed.

Lemma catalog_typed_witness :
  exists t, table_schema sample_catalog (mkQualified [x63] [x73]) [x75] = Some t /\ ts_valid t.
Proof.
  eexists. split; [reflexivity|].
  apply (catalog_typed sample_catalog (mkQualified [x63] [x73]) [x75] _ sample_catalog_reach eq_refl).
Defined.

Lemma catalog_ops_refine_witness :
  ~ op_allowed sample_catalog (CreateTableOp users_ddl) /\
  (run_op sample_catalog (CreateTableOp users_ddl)).1 = sample_catalog.
Proof. exact (catalog_ops_refine sample_catalog (CreateTableOp users_ddl) sample_catalog_reach). Defined.

