(* ===== verification/Translate.v ===== *)
(** * From SQL filters to column predicates

    [hatp-frontend/src/predicate_translator.rs], and the filter translation of
    [dml_planner.rs]: a [WHERE] clause is taken apart at its conjunctions, and
    comparisons of a column with a literal become predicates the storage engine
    evaluates.  What an expression means is DataFusion's: the parameter
    [SqlSemantics]. *)

From Stdlib Require Import Strings.String.
From stdpp Require Import base tactics list option.
From S2P Require Import Prelude OrdMap Types Version Codec Arrow RowCodec MemTable ColumnPredicate.
#[local] Open Scope Z_scope.

(** The operators and expressions the translation distinguishes. *)
Inductive Operator := OpAnd | OpOr | OpEqual | OpLess | OpLessEq | OpGreater | OpGreaterEq | OpOther (name : string).

Inductive Expr :=
| EColumn (name : bytes)
| ELiteral (value : ScalarValue)
| EBinary (left : Expr) (op : Operator) (right : Expr)
| ENot (inner : Expr)
| EOther (tag : string).

(** [try_single_column_compare] *)
Definition try_single_column_compare (left : Expr) (op : Operator) (right : Expr) (schema : Schema)
  : option ColumnPredicate :=
  '(col, value) ← match left, right with
                  | EColumn c, ELiteral value => i ← column_with_name schema c; Some (i, value)
                  | ELiteral value, EColumn c => i ← column_with_name schema c; Some (i, value)
                  | _, _ => None
                  end;
  match op with
  | OpEqual => Some (PEq col value)
  | OpLess => Some (PLessThan col value)
  | OpLessEq => Some (PLessThanOrEqual col value)
  | OpGreater => Some (PGreaterThan col value)
  | OpGreaterEq => Some (PGreaterThanOrEqual col value)
  | _ => None
  end.

(** [collect] *)
Fixpoint collect (expr : Expr) (schema : Schema) (out : list ColumnPredicate) : list ColumnPredicate :=
  match expr with
  | EBinary l OpAnd r => collect r schema (collect l schema out)
  | EBinary l op r =>
      match try_single_column_compare l op r schema with
      | Some pred => out ++ [pred]
      | None => out
      end
  | _ => out
  end.

(** [expr_to_column_predicates] *)
Definition expr_to_column_predicates (expr : Expr) (schema : Schema) : list ColumnPredicate :=
  collect expr schema [].

(** [column_predicate_field] and [column_predicate_scalar] *)
Definition column_predicate_field (pred : ColumnPredicate) (schema : Schema) : option bytes :=
  fd_name <$> schema !! p_column pred.
Definition column_predicate_scalar (pred : ColumnPredicate) : option ScalarValue :=
  match pred with
  | PEq _ v | PLessThan _ v | PLessThanOrEqual _ v | PGreaterThan _ v | PGreaterThanOrEqual _ v => Some v
  | PRange _ _ _ => None
  end.

(** The predicates a table scan passes to the engine ([TableProviderAdapter::scan]),
    and which filters it claims to evaluate ([supports_filters_pushdown]). *)
Definition scan_predicates (filters : list Expr) (schema : Schema) : option (list ColumnPredicate) :=
  match List.flat_map (fun f => expr_to_column_predicates f schema) filters with
  | [] => None
  | ps => Some ps
  end.
Inductive FilterPushDown := Unsupported | Inexact.
Definition supports_filters_pushdown (filters : list Expr) (schema : Schema) : list FilterPushDown :=
  map (fun f => match expr_to_column_predicates f schema with [] => Unsupported | _ => Inexact end) filters.

(** [collect_predicates_for_pk]: what was collected before a filter that cannot be
    translated stays in [out]. *)
Fixpoint collect_predicates_for_pk (expr : Expr) (schema : Schema) (out : list ColumnPredicate)
  : list ColumnPredicate * bool :=
  match expr with
  | EBinary l OpAnd r =>
      match collect_predicates_for_pk l schema out with
      | (out, true) => collect_predicates_for_pk r schema out
      | (out, false) => (out, false)
      end
  | EBinary l OpEqual r =>
      match match l, r with
            | EColumn c, ELiteral v => Some (c, v)
            | ELiteral v, EColumn c => Some (c, v)
            | _, _ => None
            end with
      | None => (out, false)
      | Some (c, v) =>
          match column_with_name schema c with
          | None => (out, false)
          | Some col => (out ++ [PEq col v], true)
          end
      end
  | _ => (out, false)
  end.

Fixpoint translate_loop (filters : list Expr) (schema : Schema) (out : list ColumnPredicate)
  : option (list ColumnPredicate) :=
  match filters with
  | [] => match out with [] => None | _ => Some out end
  | f :: rest =>
      match collect_predicates_for_pk f schema out with
      | (out, true) => translate_loop rest schema out
      | (_, false) => None
      end
  end.

(** [try_translate_pk_predicates] *)
Definition try_translate_pk_predicates (filters : list Expr) (schema : Schema) : option (list ColumnPredicate) :=
  translate_loop filters schema [].

(** [conjunction_expr] *)
Definition conjunction_expr (filters : list Expr) : option Expr :=
  match filters with
  | [] => None
  | f :: rest => Some (fold_left (fun l r => EBinary l OpAnd r) rest f)
  end.

(** ** What filters mean *)

(** [sql_holds schema row e]: the filter [e] is true of the row (neither false nor
    null). *)
Class SqlSemantics := sql_holds : Schema -> list ScalarValue -> Expr -> bool.

Definition cmp_holds (op : Operator) (c : comparison) : bool :=
  match op, c with
  | OpEqual, Eq | OpLess, Lt | OpLessEq, (Lt | Eq) | OpGreater, Gt | OpGreaterEq, (Gt | Eq) => true
  | _, _ => false
  end.
Definition is_comparison (op : Operator) : bool :=
  match op with OpEqual | OpLess | OpLessEq | OpGreater | OpGreaterEq => true | _ => false end.
Definition flip (op : Operator) : Operator :=
  match op with
  | OpLess => OpGreater | OpLessEq => OpGreaterEq | OpGreater => OpLess | OpGreaterEq => OpLessEq | op => op
  end.

Class SqlLaws `{SqlSemantics} : Prop := {
  sql_and : forall schema row a b, sql_holds schema row (EBinary a OpAnd b) = sql_holds schema row a && sql_holds schema row b;
  sql_compare : forall schema row c op v i x,
    is_comparison op = true -> column_with_name schema c = Some i -> row !! i = Some x -> same_type x v ->
    sql_holds schema row (EBinary (EColumn c) op (ELiteral v)) =
    negb (is_null x) && negb (is_null v) && cmp_holds op (scalar_cmp x v);
  sql_flip : forall schema row c op v, is_comparison op = true ->
    sql_holds schema row (EBinary (ELiteral v) op (EColumn c)) =
    sql_holds schema row (EBinary (EColumn c) (flip op) (ELiteral v));
}.

Section Translation.
Context `{SqlLaws} `{ScalarOrdLaws}.

(** Every comparison of a known column with a literal has the column on its left,
    or is an equality, and compares values of one type. *)
Fixpoint well_placed (schema : Schema) (row : list ScalarValue) (e : Expr) : Prop :=
  match e with
  | EBinary a op b =>
      match op with
      | OpAnd => well_placed schema row a /\ well_placed schema row b
      | _ =>
          match a, b with
          | EColumn c, ELiteral v =>
              forall i x, column_with_name schema c = Some i -> row !! i = Some x -> same_type x v
          | ELiteral v, EColumn c =>
              op = OpEqual /\ forall i x, column_with_name schema c = Some i -> row !! i = Some x -> same_type x v
          | _, _ => True
          end
      end
  | _ => True
  end.

(** The predicate made for a comparison. *)
Definition compare_pred (op : Operator) (col : nat) (v : ScalarValue) : option ColumnPredicate :=
  match op with
  | OpEqual => Some (PEq col v)
  | OpLess => Some (PLessThan col v)
  | OpLessEq => Some (PLessThanOrEqual col v)
  | OpGreater => Some (PGreaterThan col v)
  | OpGreaterEq => Some (PGreaterThanOrEqual col v)
  | _ => None
  end.

Lemma compare_pred_eval op col v p x :
  compare_pred op col v = Some p -> same_type x v -> is_null v = false ->
  is_comparison op = true /\ p_column p = col /\ evaluate p x = negb (is_null x) && cmp_holds op (scalar_cmp x v).
Proof.
  intros Hp Ht Hv. destruct op; try done; injection Hp as <-; (split; [done|]; split; [done|]);
    unfold evaluate; destruct (is_null x) eqn:Hx; try done; cbn [negb andb];
    rewrite ?(sv_eq_same x v Ht Hx Hv); unfold sv_lt, sv_le, sv_gt, sv_ge;
    rewrite ?(sv_partial_cmp_same x v Ht Hx Hv); by destruct (scalar_cmp x v).
Qed.

Lemma column_with_name_lt schema c i : column_with_name schema c = Some i -> (i < length schema)%nat.
Proof.
  revert i. induction schema as [|f schema IH]; intros i; cbn; [done|].
  destruct (eqc _ _); [intros [= <-]; lia|]. destruct (column_with_name schema c) eqn:E; [|done].
  intros [= <-]. specialize (IH _ eq_refl). lia.
Qed.

(** A comparison that holds of a row is a predicate the row matches. *)
Lemma compare_sound schema row c op v i p :
  length row = length schema -> column_with_name schema c = Some i -> compare_pred op i v = Some p ->
  (forall x, row !! i = Some x -> same_type x v) ->
  sql_holds schema row (EBinary (EColumn c) op (ELiteral v)) = true ->
  match row !! p_column p with Some x => evaluate p x | None => false end = true.
Proof.
  intros Hlen Hc Hp Ht Hsql.
  assert (Hi : is_Some (row !! i)) by (apply lookup_lt_is_Some; rewrite Hlen; by eapply column_with_name_lt).
  destruct Hi as [x Hx]. assert (Hop : is_comparison op = true) by (by destruct op).
  rewrite (sql_compare schema row c op v i x Hop Hc Hx (Ht x Hx)) in Hsql.
  apply andb_true_iff in Hsql as [Hsql Hcmp]. apply andb_true_iff in Hsql as [Hnx Hnv]. apply negb_true_iff in Hnv.
  destruct (compare_pred_eval op i v p x Hp (Ht x Hx) Hnv) as (_ & -> & He). rewrite Hx, He, Hnx. done.
Qed.

Lemma try_compare_pred l op r schema p :
  try_single_column_compare l op r schema = Some p ->
  exists c v i, ((l = EColumn c /\ r = ELiteral v) \/ (l = ELiteral v /\ r = EColumn c)) /\
    column_with_name schema c = Some i /\ compare_pred op i v = Some p.
Proof.
  unfold try_single_column_compare. destruct l as [c|v| | |], r as [c'|v'| | |]; try done.
  - destruct (column_with_name schema c) as [i|] eqn:E; [|done]. cbn. intros Hp. exists c, v', i. naive_solver.
  - destruct (column_with_name schema c') as [i|] eqn:E; [|done]. cbn. intros Hp. exists c', v, i. naive_solver.
Qed.

Lemma collect_sound schema row e out :
  length row = length schema -> well_placed schema row e -> sql_holds schema row e = true ->
  row_matches row out = true -> row_matches row (collect e schema out) = true.
Proof.
  intros Hlen. revert out. induction e as [c|v|l IHl op r IHr|e IH|tag]; intros out Hwp Hsql Hout; try done.
  assert (Hone : op <> OpAnd -> row_matches row
    match try_single_column_compare l op r schema with Some p => out ++ [p] | None => out end = true).
  { intros Hop. destruct (try_single_column_compare l op r schema) as [p|] eqn:Ep; [|done].
    rewrite row_matches_app, Hout. cbn [andb row_matches].
    destruct (try_compare_pred _ _ _ _ _ Ep) as (c & v & i & Hlr & Hc & Hp).
    assert (Hm : match row !! p_column p with Some x => evaluate p x | None => false end = true).
    { destruct Hlr as [[-> ->]|[-> ->]].
      - apply (compare_sound schema row c op v i p); try done. destruct op; cbn in Hwp; try done; intros x Hx; eauto.
      - assert (Hflip : op = OpEqual /\ forall x, row !! i = Some x -> same_type x v).
        { destruct op; cbn in Hwp; try done; destruct Hwp as [? Hw]; split; try done; intros x Hx; eauto. }
        destruct Hflip as [-> Ht]. rewrite sql_flip in Hsql by done. by apply (compare_sound schema row c OpEqual v i p). }
    destruct (row !! p_column p); [|done]. by rewrite Hm. }
  destruct op; try (by apply Hone). cbn [collect]. cbn in Hwp. rewrite sql_and in Hsql.
  apply andb_true_iff in Hsql as [Hl Hr]. destruct Hwp as [Hwl Hwr]. apply IHr; [done|done|]. by apply IHl.
Qed.

(** C32: pushing filters down loses no rows.  When in every filter the column of
    a comparison stands on the left (or the comparison is an equality) and the
    literals have their columns' types, a row of which all filters hold matches
    every predicate the scan hands to the engine. *)
Theorem pushdown_keeps_matches (schema : Schema) (row : list ScalarValue) (filters : list Expr) (ps : list ColumnPredicate) :
  length row = length schema -> Forall (well_placed schema row) filters ->
  forallb (sql_holds schema row) filters = true -> scan_predicates filters schema = Some ps ->
  row_matches row ps = true.
Proof.
  intros Hlen Hwp Hsql. assert (Hall : row_matches row (List.flat_map (fun f => expr_to_column_predicates f schema) filters) = true).
  { induction Hwp as [|f filters Hf _ IH]; [done|]. cbn in Hsql |- *. apply andb_true_iff in Hsql as [Hs Hsql].
    rewrite row_matches_app, IH by done. unfold expr_to_column_predicates. by rewrite (collect_sound schema row f []). }
  unfold scan_predicates. destruct (List.flat_map _ filters); [done|]. by intros [= <-].
Qed.

Lemma collect_pk_incl schema e out ps x :
  collect_predicates_for_pk e schema out = (ps, true) -> In x out -> In x ps.
Proof.
  revert out ps. induction e as [c|v|l IHl op r IHr|e IH|tag]; intros out ps; try done.
  destruct op; try done; cbn [collect_predicates_for_pk].
  - destruct (collect_predicates_for_pk l schema out) as [o1 [|]] eqn:E; [|done]. eauto.
  - destruct l, r; try done; destruct (column_with_name _ _); try done; intros [= <-] Hin; apply in_app_iff; by left.
Qed.

Lemma translate_loop_incl schema filters out ps x :
  translate_loop filters schema out = Some ps -> In x out -> In x ps.
Proof.
  revert out. induction filters as [|f filters IH]; intros out; cbn [translate_loop].
  - destruct out; [done|]. by intros [= <-].
  - destruct (collect_predicates_for_pk f schema out) as [o1 [|]] eqn:E; [|done]. intros Ht Hin.
    apply (IH o1 Ht). by eapply collect_pk_incl.
Qed.

(** Equalities translate both ways. *)
Lemma collect_pk_exact schema row e out ps :
  length row = length schema -> well_placed schema row e ->
  (forall x, In x ps -> forall v, column_predicate_scalar x = Some v -> is_null v = false) ->
  collect_predicates_for_pk e schema out = (ps, true) ->
  row_matches row ps = row_matches row out && sql_holds schema row e.
Proof.
  intros Hlen. revert out ps.
  assert (Hone : forall c v i out, column_with_name schema c = Some i -> is_null v = false ->
    (forall x, row !! i = Some x -> same_type x v) ->
    row_matches row (out ++ [PEq i v]) = row_matches row out && sql_holds schema row (EBinary (EColumn c) OpEqual (ELiteral v))).
  { intros c v i out Hc Hv Ht. rewrite row_matches_app. f_equal. cbn [row_matches p_column].
    assert (Hi : is_Some (row !! i)) by (apply lookup_lt_is_Some; rewrite Hlen; by eapply column_with_name_lt).
    destruct Hi as [x Hx]. rewrite Hx, (sql_compare schema row c OpEqual v i x eq_refl Hc Hx (Ht x Hx)), Hv.
    destruct (compare_pred_eval OpEqual i v (PEq i v) x eq_refl (Ht x Hx) Hv) as (_ & _ & ->). cbn [negb andb].
    rewrite andb_true_r. by destruct (negb (is_null x) && cmp_holds OpEqual (scalar_cmp x v)). }
  induction e as [c|v|l IHl op r IHr|e IH|tag]; intros out ps Hwp Hnn Hc; try done.
  destruct op; try done; cbn [collect_predicates_for_pk] in Hc.
  - cbn in Hwp. destruct Hwp as [Hwl Hwr]. destruct (collect_predicates_for_pk l schema out) as [o1 [|]] eqn:El; [|done].
    assert (Hsub : forall x, In x o1 -> In x ps) by (intros x; by eapply collect_pk_incl).
    rewrite (IHr o1 ps Hwr Hnn Hc). rewrite (IHl out o1 Hwl (fun x Hx => Hnn x (Hsub x Hx)) El).
    by rewrite sql_and, andb_assoc.
  - destruct l as [c|v| | |], r as [c'|v'| | |]; try done; cbn in Hwp.
    + destruct (column_with_name schema c) as [i|] eqn:E; [|done]. injection Hc as <-.
      apply Hone; [done| |by eauto]. eapply (Hnn (PEq i v')); [apply in_app_iff; right; by left|done].
    + destruct (column_with_name schema c') as [i|] eqn:E; [|done]. injection Hc as <-. rewrite sql_flip by done.
      apply Hone; [done| |by destruct Hwp; eauto]. eapply (Hnn (PEq i v)); [apply in_app_iff; right; by left|done].
Qed.

(** The fast path of a delete selects the right rows.  When the filters of a
    [DELETE] translate to predicates on values that are not null, a row matches
    the predicates exactly when all filters hold of it. *)
Lemma translated_filters (schema : Schema) (row : list ScalarValue) (filters : list Expr) (ps : list ColumnPredicate) :
  length row = length schema -> Forall (well_placed schema row) filters ->
  (forall x, In x ps -> forall v, column_predicate_scalar x = Some v -> is_null v = false) ->
  try_translate_pk_predicates filters schema = Some ps ->
  row_matches row ps = forallb (sql_holds schema row) filters.
Proof.
  intros Hlen Hwp Hnn. unfold try_translate_pk_predicates.
  change (forallb (sql_holds schema row) filters) with (row_matches row [] && forallb (sql_holds schema row) filters).
  generalize (@nil ColumnPredicate) as out. induction Hwp as [|f filters Hf _ IH]; intros out; cbn [translate_loop forallb].
  - destruct out; [done|]. intros [= <-]. by rewrite andb_true_r.
  - destruct (collect_predicates_for_pk f schema out) as [o1 [|]] eqn:E; [|done]. intros Ht.
    rewrite (IH o1 Ht). rewrite (collect_pk_exact schema row f out o1 Hlen Hf); [by rewrite andb_assoc| |done].
    intros x Hx. apply Hnn. by eapply translate_loop_incl.
Qed.

End Translation.

(** ** Witnesses *)

(** The documented meaning, on the expressions the translation distinguishes. *)
Definition plain_compare (schema : Schema) (row : list ScalarValue) (c : bytes) (op : Operator) (v : ScalarValue) : bool :=
  match column_with_name schema c ≫= (row !!.) with
  | Some x => negb (is_null x) && negb (is_null v) && cmp_holds op (scalar_cmp x v)
  | None => false
  end.
Fixpoint plain_holds (schema : Schema) (row : list ScalarValue) (e : Expr) : bool :=
  match e with
  | EBinary a op b =>
      match op with
      | OpAnd => plain_holds schema row a && plain_holds schema row b
      | OpOr => plain_holds schema row a || plain_holds schema row b
      | _ =>
          match a, b with
          | EColumn c, ELiteral v => plain_compare schema row c op v
          | ELiteral v, EColumn c => plain_compare schema row c (flip op) v
          | _, _ => false
          end
      end
  | _ => false
  end.
Definition plain_sql : SqlSemantics := plain_holds.

Lemma plain_sql_laws : @SqlLaws plain_sql.
Proof.
  split; [done| |].
  - intros schema row c op v i x Hop Hc Hx Ht. unfold sql_holds, plain_sql. destruct op; try done; cbn;
      unfold plain_compare; rewrite Hc; cbn; by rewrite Hx.
  - intros schema row c op v Hop. by destruct op.
Qed.

Definition text_ord : ScalarOrd := {|
  sv_eq a b := match scalar_cmp a b with Eq => true | _ => false end;
  sv_partial_cmp a b := Some (scalar_cmp a b);
|}.
Lemma text_ord_laws : @ScalarOrdLaws text_ord.
Proof. by split. Qed.

#[local] Existing Instance plain_sql.
#[local] Existing Instance plain_sql_laws.
#[local] Existing Instance text_ord.
#[local] Existing Instance text_ord_laws.

Definition people : Schema := [mkField [x69] DtInt64 false; mkField [x61] DtInt64 true].
(** [WHERE i = 1 AND a > 20] *)
Definition adult : Expr :=
  EBinary (EBinary (EColumn [x69]) OpEqual (ELiteral (SvInt64 (Some 1)))) OpAnd
          (EBinary (EColumn [x61]) OpGreater (ELiteral (SvInt64 (Some 20)))).
Definition alice : list ScalarValue := [SvInt64 (Some 1); SvInt64 (Some 30)].

Lemma pushdown_keeps_matches_witness :
  row_matches alice [PEq 0 (SvInt64 (Some 1)); PGreaterThan 1 (SvInt64 (Some 20))] = true.
Proof.
  apply (pushdown_keeps_matches people alice [adult]).
  - reflexivity.
  - constructor; [|constructor]. split; intros i x Hi Hx; vm_compute in Hi; injection Hi as <-; vm_compute in Hx;
      injection Hx as <-; exact I.
  - reflexivity.
  - reflexivity.
Defined.

(** [WHERE 20 < a]: the literal stands on the left, the operator is kept, and the
    predicate selects the rows with [a < 20]: the scan drops the row the filter
    selects, and DataFusion, which only filters again, cannot bring it back. *)
Definition reversed : Expr := EBinary (ELiteral (SvInt64 (Some 20))) OpLess (EColumn [x61]).

Lemma reversed_comparison_drops_rows :
  sql_holds people alice reversed = true /\
  supports_filters_pushdown [reversed] people = [Inexact] /\
  scan_predicates [reversed] people = Some [PLessThan 1 (SvInt64 (Some 20))] /\
  row_matches alice [PLessThan 1 (SvInt64 (Some 20))] = false.
Proof. by vm_compute. Qed.
