(* ===== verification/Watch.v ===== *)
(** * The commit watcher ([hatp-engine/src/watch.rs])

    The resolved watermark, the publications of the commit path and the waiters of
    [wait_for_resolved].  A publication is the list of its atomic operations in
    program order; the operations of different publications and the turns of the
    waiters interleave in any order.  Tokio's [Notify] and
    [broadcast] are the parameters [NotifyLib] and [BroadcastLib]. *)

From stdpp Require Import base tactics list option.
From S2P Require Import Prelude Types.
#[local] Open Scope Z_scope.

Record WatchEvent := mkEvent { we_tx_id : Z; we_commit_ts : TxnTs; we_mutations : list Mutation }.

(** [tokio::sync::Notify]: a ticket is a [Notified] future; [notify_waiters] wakes
    the futures created before it and leaves no permit for later ones. *)
Class NotifyLib := {
  Notify : Type;
  ticket : Type;
  notify_new : Notify;
  notified : Notify -> Notify * ticket;
  notify_waiters : Notify -> Notify;
  woken : Notify -> ticket -> bool;
}.

Class NotifyLaws `{NotifyLib} := {
  issued : Notify -> ticket -> Prop;
  notified_issued : forall n, issued (notified n).1 (notified n).2;
  notified_keeps : forall n t, issued n t -> issued (notified n).1 t /\ woken (notified n).1 t = woken n t;
  notified_asleep : forall n, woken (notified n).1 (notified n).2 = false;
  waiters_issued : forall n t, issued n t -> issued (notify_waiters n) t;
  waiters_woken : forall n t, issued n t -> woken (notify_waiters n) t = true;
}.

(** [tokio::sync::broadcast]: the sender and what it sends. *)
Class BroadcastLib := {
  Sender : Type;
  receiver_count : Sender -> Z;
  send : Sender -> WatchEvent -> Sender;
}.

Section Watch.
Context `{NotifyLib} `{BroadcastLib}.

Record Watcher := mkWatcher { w_notify : Notify; w_resolved : TxnTs; w_events : Sender }.

(** [Watcher::new] *)
Definition watcher_new (initial_resolved : TxnTs) (events : Sender) : Watcher :=
  mkWatcher notify_new initial_resolved events.

(** [Watcher::resolved_ts] and [Watcher::has_subscribers] *)
Definition resolved_ts (w : Watcher) : TxnTs := w_resolved w.
Definition has_subscribers (w : Watcher) : bool := 0 <? receiver_count (w_events w).

(** What a publication does to the shared watcher, one atomic operation at a time:
    [resolved.fetch_max], [events.send] and [notify.notify_waiters]. *)
Inductive Act :=
| FetchMax (ts : TxnTs)
| SendEvent (ev : WatchEvent)
| NotifyWaiters.

Definition act_step (w : Watcher) (a : Act) : Watcher :=
  match a with
  | FetchMax ts => mkWatcher (w_notify w) (Z.max (w_resolved w) ts) (w_events w)
  | SendEvent ev => mkWatcher (w_notify w) (w_resolved w) (send (w_events w) ev)
  | NotifyWaiters => mkWatcher (notify_waiters (w_notify w)) (w_resolved w) (w_events w)
  end.

(** [Watcher::publish]: the operations of a call in program order; the branch is
    chosen by the receiver count the call reads first. *)
Definition publish (w : Watcher) (tx_id commit_ts : Z) (mutations : list Mutation) : list Act :=
  (if 0 <? receiver_count (w_events w)
   then [FetchMax commit_ts; SendEvent (mkEvent tx_id commit_ts mutations)]
   else [FetchMax commit_ts]) ++ [NotifyWaiters].

(** [Watcher::publish_empty] *)
Definition publish_empty (tx_id commit_ts : Z) : list Act := [FetchMax commit_ts; NotifyWaiters].

(** Where a call of [wait_for_resolved] stands: at the check of the watermark,
    between the check and the creation of the future, at the [await], or
    returned. *)
Inductive Waiter :=
| Checking (ts : TxnTs)
| Arming (ts : TxnTs)
| Waiting (ts : TxnTs) (t : ticket)
| Returned (ts r : TxnTs).

(** One turn of a waiter; [None] while it sleeps. *)
Definition waiter_step (w : Watcher) (x : Waiter) : option (Watcher * Waiter) :=
  match x with
  | Checking ts =>
      let current := resolved_ts w in
      Some (w, if ts <=? current then Returned ts current else Arming ts)
  | Arming ts =>
      let '(n, t) := notified (w_notify w) in
      Some (mkWatcher n (w_resolved w) (w_events w), Waiting ts t)
  | Waiting ts t => if woken (w_notify w) t then Some (w, Checking ts) else None
  | Returned _ _ => None
  end.

(** A call of [publish] or [publish_empty]: the commit it publishes and the
    operations it has still to perform. *)
Record Publisher := mkPublisher { p_ts : TxnTs; p_acts : list Act }.

(** The watcher, its waiters, the publications under way or finished, and the
    timestamps the watermark was raised to so far. *)
Record WatchState := mkWatchState {
  s_watcher : Watcher;
  s_waiters : list Waiter;
  s_publishers : list Publisher;
  s_published : list TxnTs;
}.

Definition raised (a : Act) (ps : list TxnTs) : list TxnTs :=
  match a with FetchMax ts => ts :: ps | _ => ps end.

(** Who takes a step: a caller or a subscriber from outside, publication [j], or
    waiter [i]. *)
Inductive Actor := Outside | Pub (j : nat) | Wait (i : nat).

Inductive watch_step : Actor -> WatchState -> WatchState -> Prop :=
| step_publish w xs cs ps tx ts ms :
    watch_step Outside (mkWatchState w xs cs ps)
      (mkWatchState w xs (cs ++ [mkPublisher ts (publish w tx ts ms)]) ps)
| step_publish_empty w xs cs ps tx ts :
    watch_step Outside (mkWatchState w xs cs ps)
      (mkWatchState w xs (cs ++ [mkPublisher ts (publish_empty tx ts)]) ps)
| step_subscribers w xs cs ps ev :
    watch_step Outside (mkWatchState w xs cs ps)
      (mkWatchState (mkWatcher (w_notify w) (w_resolved w) ev) xs cs ps)
| step_wait w xs cs ps ts :
    watch_step Outside (mkWatchState w xs cs ps) (mkWatchState w (xs ++ [Checking ts]) cs ps)
| step_act w xs cs ps j ts a acts :
    cs !! j = Some (mkPublisher ts (a :: acts)) ->
    watch_step (Pub j) (mkWatchState w xs cs ps)
      (mkWatchState (act_step w a) xs (<[j := mkPublisher ts acts]> cs) (raised a ps))
| step_waiter w xs cs ps i x w' x' :
    xs !! i = Some x -> waiter_step w x = Some (w', x') ->
    watch_step (Wait i) (mkWatchState w xs cs ps) (mkWatchState w' (<[i := x']> xs) cs ps).

Inductive watch_run : list Actor -> WatchState -> WatchState -> Prop :=
| run_nil s : watch_run [] s s
| run_cons a l s s' s'' : watch_step a s s' -> watch_run l s' s'' -> watch_run (a :: l) s s''.

Inductive watch_reach (initial : TxnTs) (events : Sender) : WatchState -> Prop :=
| watch_start : watch_reach initial events (mkWatchState (watcher_new initial events) [] [] [])
| watch_next a s s' : watch_reach initial events s -> watch_step a s s' -> watch_reach initial events s'.

(** The newest of the published commits. *)
Definition high (initial : TxnTs) (ps : list TxnTs) : TxnTs := fold_right Z.max initial ps.

Context `{!NotifyLaws}.

(** What is known of a waiter: the value it returned was resolved, and a sleeping
    one has a ticket of this [Notify]. *)
Definition waiter_ok (initial : TxnTs) (w : Watcher) (ps : list TxnTs) (x : Waiter) : Prop :=
  match x with
  | Checking _ | Arming _ => True
  | Waiting _ t => issued (w_notify w) t
  | Returned ts r => ts <= r <= resolved_ts w /\ (r = initial \/ In r ps)
  end.

(** What is known of a publication: it raises the watermark first, and wakes the
    waiters last. *)
Definition wakes_last (acts : list Act) : Prop :=
  acts = [NotifyWaiters] \/ exists ev, acts = [SendEvent ev; NotifyWaiters].

Definition publisher_ok (w : Watcher) (c : Publisher) : Prop :=
  (exists acts, p_acts c = FetchMax (p_ts c) :: acts /\ wakes_last acts) \/
  (p_ts c <= resolved_ts w /\ (p_acts c = [] \/ wakes_last (p_acts c))).

Record watch_ok (initial : TxnTs) (s : WatchState) : Prop := {
  wo_resolved : resolved_ts (s_watcher s) = high initial (s_published s);
  wo_waiters : Forall (waiter_ok initial (s_watcher s) (s_published s)) (s_waiters s);
  wo_publishers : Forall (publisher_ok (s_watcher s)) (s_publishers s);
}.

Lemma high_In initial ps : high initial ps = initial \/ In (high initial ps) ps.
Proof.
  induction ps as [|p ps IH]; [by left|]. cbn [high fold_right In]. fold (high initial ps).
  destruct (Z.max_spec p (high initial ps)) as [[_ ->]|[_ ->]]; tauto.
Qed.

(** What every step does to the shared watcher: the watermark only grows, tickets
    stay valid, and one that was woken stays woken. *)
Definition grows (w w' : Watcher) : Prop :=
  resolved_ts w <= resolved_ts w' /\
  forall t, issued (w_notify w) t -> issued (w_notify w') t /\
    (woken (w_notify w) t = true -> woken (w_notify w') t = true).

Lemma grows_refl w w' : w_notify w' = w_notify w -> w_resolved w' = w_resolved w -> grows w w'.
Proof. intros Hn Hr. unfold grows, resolved_ts. rewrite Hn, Hr. split; [lia|done]. Qed.

Lemma act_grows w a : grows w (act_step w a).
Proof.
  destruct a; [|by apply grows_refl|]; unfold grows, resolved_ts; cbn; (split; [lia|]); [done|].
  intros t Ht. split; [by apply waiters_issued|]. intros _. by apply waiters_woken.
Qed.

Lemma waiter_grows w x w' x' : waiter_step w x = Some (w', x') -> grows w w'.
Proof.
  destruct x as [ts|ts|ts t|ts r]; cbn [waiter_step].
  - intros [= <- _]. by apply grows_refl.
  - pose proof (notified_keeps (w_notify w)) as Hk. destruct (notified (w_notify w)) as [n t]. intros [= <- _].
    split; [done|]. cbn. intros t' Ht'. destruct (Hk t' Ht') as [Hi He]. cbn in Hi, He. by rewrite He.
  - destruct (woken _ _); [|done]. intros [= <- _]. by apply grows_refl.
  - done.
Qed.

Lemma step_grows a s s' : watch_step a s s' -> grows (s_watcher s) (s_watcher s').
Proof. destruct 1; cbn; eauto using grows_refl, act_grows, waiter_grows. Qed.

Lemma waiter_ok_mono initial w w' ps ps' x :
  grows w w' -> (forall r, In r ps -> In r ps') -> waiter_ok initial w ps x -> waiter_ok initial w' ps' x.
Proof.
  intros [Hr Hn] Hp. destruct x as [ts|ts|ts t|ts r]; cbn; [done|done|intros; by apply Hn|].
  intros [[? ?] [->|Hin]]; (split; [lia|]); [by left|right; auto].
Qed.

Lemma publisher_ok_mono w w' c : grows w w' -> publisher_ok w c -> publisher_ok w' c.
Proof. intros [Hr _] [Hc|[Hc ?]]; [by left|right; split; [lia|done]]. Qed.

Lemma publish_wakes_last w tx ts ms :
  exists acts, publish w tx ts ms = FetchMax ts :: acts /\ wakes_last acts.
Proof. unfold publish, wakes_last. destruct (0 <? _); eexists; (split; [done|eauto]). Qed.

Lemma act_publisher_ok w ts a acts :
  publisher_ok w (mkPublisher ts (a :: acts)) -> publisher_ok (act_step w a) (mkPublisher ts acts).
Proof.
  intros [(acts' & [= -> <-] & Hw)|[Hle [?|[[= -> ->]|(ev & [= -> ->])]]]]; right; cbn; try done.
  - split; [unfold resolved_ts; cbn; lia|by right].
  - split; [exact Hle|by left].
  - split; [exact Hle|right; by left].
Qed.

Lemma waiter_step_ok initial w ps x w' x' :
  resolved_ts w = high initial ps -> waiter_step w x = Some (w', x') ->
  resolved_ts w' = resolved_ts w /\ waiter_ok initial w' ps x'.
Proof.
  intros Hr. destruct x as [ts|ts|ts t|ts r]; cbn [waiter_step].
  - intros [= <- <-]. split; [done|]. destruct (Z.leb_spec ts (resolved_ts w)); [|done].
    split; [lia|]. rewrite Hr. apply high_In.
  - pose proof (notified_issued (w_notify w)) as Hi. destruct (notified (w_notify w)) as [n t].
    by intros [= <- <-].
  - destruct (woken _ _); [|done]. by intros [= <- <-].
  - done.
Qed.

Lemma act_resolved initial w a ps :
  resolved_ts w = high initial ps -> resolved_ts (act_step w a) = high initial (raised a ps).
Proof.
  intros Hr. destruct a as [ts|ev|]; cbn; [|exact Hr|exact Hr]. unfold resolved_ts in *. fold (high initial ps). cbn. lia.
Qed.

Lemma watch_step_ok initial a s s' : watch_ok initial s -> watch_step a s s' -> watch_ok initial s'.
Proof.
  intros [Hr Hx Hc] Hstep. pose proof (step_grows _ _ _ Hstep) as Hg.
  assert (Hc' : Forall (publisher_ok (s_watcher s')) (s_publishers s))
    by (eapply List.Forall_impl; [|exact Hc]; intros ?; by apply publisher_ok_mono).
  assert (Hx' : forall ps, (forall r, In r (s_published s) -> In r ps) ->
    Forall (waiter_ok initial (s_watcher s') ps) (s_waiters s))
    by (intros ps Hp; eapply List.Forall_impl; [|exact Hx]; intros ?; by apply waiter_ok_mono).
  destruct Hstep as [w xs cs ps tx ts ms|w xs cs ps tx ts|w xs cs ps ev|w xs cs ps ts
    |w xs cs ps j ts b acts Hj|w xs cs ps i x w' x' Hi Hw]; cbn in *; split; cbn; auto.
  - apply Forall_app. split; [done|]. apply Forall_singleton. left. apply publish_wakes_last.
  - apply Forall_app. split; [done|]. apply Forall_singleton. left. exists [NotifyWaiters]. split; [done|by left].
  - apply Forall_app. split; [by apply Hx'|]. by repeat constructor.
  - by apply act_resolved.
  - apply Hx'. intros r Hin. destruct b; cbn; auto.
  - apply Forall_insert; [done|]. apply act_publisher_ok. exact (proj1 (Forall_lookup _ _) Hc j _ Hj).
  - rewrite (proj1 (waiter_step_ok _ _ _ _ _ _ Hr Hw)). exact Hr.
  - apply Forall_insert; [by apply Hx'|]. exact (proj2 (waiter_step_ok _ _ _ _ _ _ Hr Hw)).
Qed.

Lemma watch_reach_ok initial events s : watch_reach initial events s -> watch_ok initial s.
Proof.
  induction 1 as [|a s s' _ IH Hstep]; [by split; constructor|]. by eapply watch_step_ok.
Qed.

(** Waiting for a commit is safe.  In every interleaving of publications, in
    any order of commit timestamps, and of waiters, the resolved watermark is the
    newest published commit, and a call of [wait_for_resolved] that returned gave a
    published commit (or the initial watermark) that is at least the timestamp
    asked for and not after the watermark. *)
Lemma watch_resolved_sound (initial : TxnTs) (events : Sender) (s : WatchState) :
  watch_reach initial events s ->
  resolved_ts (s_watcher s) = high initial (s_published s) /\
  forall ts r, In (Returned ts r) (s_waiters s) ->
    ts <= r <= resolved_ts (s_watcher s) /\ (r = initial \/ In r (s_published s)).
Proof.
  intros [Hr Hx _]%watch_reach_ok. split; [done|]. intros ts r Hin.
  exact (proj1 (List.Forall_forall _ _) Hx _ Hin).
Qed.

(** Waiter [i] sleeps on ticket [t] for [ts] while publication [j] of [cts] is
    under way; once [j] has finished, the ticket is woken. *)
Definition overlaps (i j : nat) (ts : TxnTs) (t : ticket) (cts : TxnTs) (s : WatchState) : Prop :=
  s_waiters s !! i = Some (Waiting ts t) /\
  exists acts, s_publishers s !! j = Some (mkPublisher cts acts) /\
    (acts = [] -> woken (w_notify (s_watcher s)) t = true).

(** A waiter that will return: its timestamp is resolved, and it is woken, about to
    check, or back. *)
Definition returning (i : nat) (ts : TxnTs) (t : ticket) (s : WatchState) : Prop :=
  ts <= resolved_ts (s_watcher s) /\
  exists x, s_waiters s !! i = Some x /\
    (x = Waiting ts t /\ issued (w_notify (s_watcher s)) t /\ woken (w_notify (s_watcher s)) t = true \/
     x = Checking ts \/ exists r, x = Returned ts r /\ ts <= r <= resolved_ts (s_watcher s)).

Lemma overlaps_step initial i j ts t cts a s s' :
  watch_ok initial s -> a <> Wait i -> watch_step a s s' -> overlaps i j ts t cts s -> overlaps i j ts t cts s'.
Proof.
  intros Hok Hne Hstep (Hi & acts & Hj & Hw).
  pose proof (step_grows _ _ _ Hstep) as [_ Hg].
  pose proof (proj1 (Forall_lookup _ _) (wo_waiters _ _ Hok) i _ Hi : issued _ t) as Ht.
  destruct (Hg t Ht) as [_ Hk].
  destruct Hstep as [w xs cs ps tx cts' ms|w xs cs ps tx cts'|w xs cs ps ev|w xs cs ps ts'
    |w xs cs ps j' ts' b acts' Hj'|w xs cs ps i' x w' x' Hi' Hw']; unfold overlaps; cbn [s_waiters s_publishers s_watcher] in *.
  1-2: split; [done|]; exists acts; split; [by apply lookup_app_l_Some|done].
  - split; [done|]. by exists acts.
  - split; [by apply lookup_app_l_Some|]. by exists acts.
  - split; [done|]. destruct (decide (j' = j)) as [->|].
    + rewrite Hj in Hj'. injection Hj' as <- ->. exists acts'. rewrite list_lookup_insert_eq by (by eapply lookup_lt_Some).
      split; [done|]. intros ->.
      pose proof (proj1 (Forall_lookup _ _) (wo_publishers _ _ Hok) j _ Hj) as Hc.
      destruct Hc as [(? & [= -> <-] & [|[? ?]])|[_ [?|[[= ->]|(? & [= ])]]]]; try done. cbn. by apply waiters_woken.
    + exists acts. rewrite list_lookup_insert_ne by done. auto.
  - rewrite list_lookup_insert_ne by congruence. split; [done|]. exists acts. auto.
Qed.

Lemma overlaps_run initial i j ts t cts l s s' :
  watch_ok initial s -> Wait i ∉ l -> watch_run l s s' -> overlaps i j ts t cts s ->
  watch_ok initial s' /\ overlaps i j ts t cts s'.
Proof.
  intros Hok Hl Hrun. induction Hrun as [|a l s s1 s2 Hstep _ IH]; [done|]. intros Ho.
  apply not_elem_of_cons in Hl as [Hne Hl]. apply IH; [by eapply watch_step_ok|done|].
  apply (overlaps_step initial i j ts t cts a s s1); [done|congruence|done|done].
Qed.

Lemma returning_step i ts t a s s' : watch_step a s s' -> returning i ts t s -> returning i ts t s'.
Proof.
  intros Hstep (Hr & x & Hi & Hx). pose proof (step_grows _ _ _ Hstep) as [Hle Hg]. split; [lia|].
  assert (Hkeep : s_waiters s' !! i = Some x -> exists x, s_waiters s' !! i = Some x /\
    (x = Waiting ts t /\ issued (w_notify (s_watcher s')) t /\ woken (w_notify (s_watcher s')) t = true \/
     x = Checking ts \/ exists r, x = Returned ts r /\ ts <= r <= resolved_ts (s_watcher s'))).
  { intros Hi'. exists x. split; [done|]. destruct Hx as [(-> & Ht & Hw)|[->|(r & -> & ?)]].
    - left. destruct (Hg t Ht). auto.
    - right. by left.
    - right. right. exists r. split; [done|lia]. }
  destruct Hstep as [w xs cs ps tx cts' ms|w xs cs ps tx cts'|w xs cs ps ev|w xs cs ps ts'
    |w xs cs ps j' ts' b acts' Hj'|w xs cs ps i' x0 w' x' Hi' Hw']; cbn [s_waiters s_publishers s_watcher] in *;
    try (by apply Hkeep); [apply Hkeep; by apply lookup_app_l_Some|].
  destruct (decide (i' = i)) as [->|]; [|apply Hkeep; by rewrite list_lookup_insert_ne by done].
  rewrite Hi in Hi'. injection Hi' as <-. exists x'. rewrite list_lookup_insert_eq by (by eapply lookup_lt_Some).
  split; [done|]. destruct Hx as [(-> & Ht & Hw)|[->|(r & -> & ?)]]; cbn in Hw'; [|..|done].
  - rewrite Hw in Hw'. injection Hw' as <- <-. right. by left.
  - rewrite (proj2 (Z.leb_le ts _) Hr) in Hw'. injection Hw' as <- <-. right. right. eexists. split; [done|lia].
Qed.

Lemma returning_run i ts t l s s' : watch_run l s s' -> returning i ts t s -> returning i ts t s'.
Proof. induction 1; eauto using returning_step. Qed.

(** C36: a sleeping waiter is woken by the commit it waits for.  In any
    interleaving of the single operations of publications (by [publish] or
    [publish_empty]), waiters and subscribers, let a call of [wait_for_resolved]
    for [ts] sleep at a moment when a publication of [cts >= ts] has not finished
    (its first, second or last operation may be the next), and take no turn until
    that publication finishes.  From then on, whatever the others do, the call
    never sleeps again: it is always able to take its turn, the first turn goes
    back to the check, and the check returns the watermark, at least [ts]. *)
Theorem watch_wakes (initial : TxnTs) (events : Sender) (s s1 s2 : WatchState) (l l' : list Actor)
    (i j : nat) (ts : TxnTs) (t : ticket) (cts : TxnTs) (a : Act) (acts : list Act) :
  watch_reach initial events s ->
  s_waiters s !! i = Some (Waiting ts t) ->
  s_publishers s !! j = Some (mkPublisher cts (a :: acts)) -> ts <= cts ->
  watch_run l s s1 -> Wait i ∉ l -> s_publishers s1 !! j = Some (mkPublisher cts []) ->
  watch_run l' s1 s2 ->
  let w := s_watcher s2 in
  exists x, s_waiters s2 !! i = Some x /\
    (x = Waiting ts t /\ waiter_step w x = Some (w, Checking ts) \/
     x = Checking ts /\ waiter_step w x = Some (w, Returned ts (resolved_ts w)) /\ ts <= resolved_ts w \/
     exists r, x = Returned ts r /\ ts <= r <= resolved_ts w).
Proof.
  intros Hreach Hi Hj Hle Hrun Hl Hj1 Hrun' w.
  assert (Ho : overlaps i j ts t cts s) by (split; [done|by exists (a :: acts)]).
  destruct (overlaps_run initial _ _ _ _ _ _ _ _ (watch_reach_ok _ _ _ Hreach) Hl Hrun Ho) as [Hok1 (Hi1 & acts1 & Hj1' & Hw)].
  rewrite Hj1 in Hj1'. injection Hj1' as <-.
  pose proof (proj1 (Forall_lookup _ _) (wo_publishers _ _ Hok1) j _ Hj1) as [(? & [=] & _)|[Hcts _]].
  pose proof (proj1 (Forall_lookup _ _) (wo_waiters _ _ Hok1) i _ Hi1 : issued _ t) as Ht.
  assert (Hret : returning i ts t s1) by (split; [cbn in Hcts; lia|]; eexists; split; [exact Hi1|left; auto]).
  destruct (returning_run _ _ _ _ _ _ Hrun' Hret) as (Hr & x & Hx & Hcase). exists x. split; [done|].
  destruct Hcase as [(-> & _ & Hwk)|[->|Hback]]; [left|right; left|by right; right].
  - cbn. unfold w. by rewrite Hwk.
  - cbn. unfold w. by rewrite (proj2 (Z.leb_le ts _) Hr).
Qed.
End Watch.

(** ** Witnesses and finding *)

(** Tickets are numbered; the state is how many are awake and how many asleep. *)
Definition counting_notify : NotifyLib := {|
  Notify := nat * nat;
  ticket := nat;
  notify_new := (0, 0)%nat;
  notified n := ((n.1, S n.2), (n.1 + n.2)%nat);
  notify_waiters n := ((n.1 + n.2)%nat, 0%nat);
  woken n t := (t <? n.1)%nat;
|}.

Definition counting_notify_laws : @NotifyLaws counting_notify.
Proof.
  refine {| issued := (fun n t => (t < n.1 + n.2)%nat) : @Notify counting_notify -> @ticket counting_notify -> Prop |}.
  - intros [a b]. cbn. lia.
  - intros [a b] t Ht. cbn in *. split; [lia|done].
  - intros [a b]. cbn. apply Nat.ltb_ge. lia.
  - intros [a b] t Ht. cbn in *. lia.
  - intros [a b] t Ht. cbn in *. by apply Nat.ltb_lt.
Defined.

(** No subscriber. *)
Definition no_broadcast : BroadcastLib := {| Sender := unit; receiver_count _ := 0; send s _ := s |}.

#[local] Existing Instance counting_notify.
#[local] Existing Instance counting_notify_laws.
#[local] Existing Instance no_broadcast.

Definition no_events : @Sender no_broadcast := tt.
Definition ticket0 : @ticket counting_notify := 0%nat.
Definition start : Watcher := watcher_new 0 no_events.

(** A waiter for commit 3 goes to sleep after a publication of commit 3 began. *)
Definition publishing : list Publisher := [mkPublisher 3 (publish_empty 10 3)].
Definition asleep : WatchState :=
  mkWatchState (mkWatcher ((0, 1)%nat : @Notify counting_notify) 0 no_events) [Waiting 3 ticket0] publishing [].

Lemma asleep_reach : watch_reach 0 no_events asleep.
Proof.
  apply watch_next with (a := Wait 0) (s := mkWatchState start [Arming 3] publishing []).
  - apply watch_next with (a := Wait 0) (s := mkWatchState start [Checking 3] publishing []).
    + apply watch_next with (a := Outside) (s := mkWatchState start [] publishing []).
      * eapply watch_next; [apply watch_start|]. exact (step_publish_empty start [] [] [] 10 3).
      * exact (step_wait start [] publishing [] 3).
    + exact (step_waiter start [Checking 3] publishing [] 0 (Checking 3) _ _ eq_refl eq_refl).
  - exact (step_waiter start [Arming 3] publishing [] 0 (Arming 3) _ _ eq_refl eq_refl).
Qed.

(** The publication finishes, and the waiter takes its first turn. *)
Definition published : WatchState :=
  mkWatchState (mkWatcher ((1, 0)%nat : @Notify counting_notify) 3 no_events) [Waiting 3 ticket0] [mkPublisher 3 []] [3].
Definition awake : WatchState :=
  mkWatchState (mkWatcher ((1, 0)%nat : @Notify counting_notify) 3 no_events) [Checking 3] [mkPublisher 3 []] [3].

Lemma asleep_published : watch_run [Pub 0; Pub 0] asleep published.
Proof.
  eapply run_cons; [exact (step_act _ [Waiting 3 ticket0] publishing [] 0 3 (FetchMax 3) [NotifyWaiters] eq_refl)|].
  eapply run_cons; [exact (step_act _ [Waiting 3 ticket0] [mkPublisher 3 [NotifyWaiters]] [3] 0 3 NotifyWaiters [] eq_refl)|].
  apply run_nil.
Qed.

Lemma published_awake : watch_run [Wait 0] published awake.
Proof.
  eapply run_cons; [|apply run_nil].
  exact (step_waiter (s_watcher published) [Waiting 3 ticket0] [mkPublisher 3 []] [3] 0 (Waiting 3 ticket0) _ _ eq_refl eq_refl).
Qed.

Lemma watch_wakes_witness :
  let w := s_watcher awake in
  exists x, s_waiters awake !! 0%nat = Some x /\
    (x = Waiting 3 ticket0 /\ waiter_step w x = Some (w, Checking 3) \/
     x = Checking 3 /\ waiter_step w x = Some (w, Returned 3 (resolved_ts w)) /\ 3 <= resolved_ts w \/
     exists r, x = Returned 3 r /\ 3 <= r <= resolved_ts w).
Proof.
  apply (watch_wakes 0 no_events asleep published awake [Pub 0; Pub 0] [Wait 0] 0 0 3 ticket0 3 (FetchMax 3) [NotifyWaiters]);
    [exact asleep_reach|reflexivity|reflexivity|lia|exact asleep_published| |reflexivity|exact published_awake].
  rewrite !elem_of_cons, elem_of_nil. intuition discriminate.
Defined.

(** A commit published between the check of a waiter and the creation of its
    future wakes nobody: the waiter goes to sleep although its timestamp is
    resolved, and sleeps until another commit. *)
Lemma wakeup_lost_between_check_and_wait :
  let w := start in
  waiter_step w (Checking 3) = Some (w, Arming 3) /\
  let w := fold_left act_step (publish w 10 3 []) w in
  exists w' t, waiter_step w (Arming 3) = Some (w', Waiting 3 t) /\ resolved_ts w' = 3 /\
    waiter_step w' (Waiting 3 t) = None.
Proof. split; [done|]. by exists (mkWatcher ((0, 1)%nat : @Notify counting_notify) 3 no_events), ticket0. Qed.
