(* ===== verification/ColumnStats.v ===== *)
(** * Column statistics ([hatp-engine/src/lib.rs])

    When a flush or a compaction writes a file, [compute_column_stats] decodes its
    rows and keeps the least and greatest value of every column per table;
    [skip_file_by_column_stats] leaves a file out of a scan when an equality
    predicate falls outside them.  The theorem says that a skipped file has no row
    the predicates select. *)

From Stdlib Require Import Strings.String.
From stdpp Require Import base tactics list option gmap.
From S2P Require Import Prelude OrdMap Types Version Codec Arrow RowCodec RowCodecProps MemTable ColumnPredicate Manifest Sst SstProps.
#[local] Open Scope Z_scope.

Definition COLUMN_STATS_CACHE_MAX : Z := 1024.

(** [TableColumnStats]; its hash maps are looked up by column name only. *)
Record TableColumnStats := mkStats {
  st_min : omap bytes ScalarValue;
  st_max : omap bytes ScalarValue;
  st_null_count : omap bytes Z;
}.

Abbreviation ColumnStats := (omap Z (omap bytes TableColumnStats)).

Section Stats.
Context `{ScalarOrd}.

(** The innermost loop body: one value of one column. *)
Definition add_scalar (stats : TableColumnStats) (name : bytes) (scalar : ScalarValue) : TableColumnStats :=
  if is_null scalar
  then mkStats (st_min stats) (st_max stats) (om_entry name 0 (fun n => wrap64 (n + 1)) (st_null_count stats))
  else
    let min := match om_get name (st_min stats) with
               | None => om_insert name scalar (st_min stats)
               | Some prev => if sv_lt scalar prev then om_insert name scalar (st_min stats) else st_min stats
               end in
    let max := match om_get name (st_max stats) with
               | None => om_insert name scalar (st_max stats)
               | Some prev => if sv_gt scalar prev then om_insert name scalar (st_max stats) else st_max stats
               end in
    mkStats min max (st_null_count stats).

Fixpoint add_values (stats : TableColumnStats) (fields : Schema) (values : list ScalarValue) : TableColumnStats :=
  match fields, values with
  | field :: fields, scalar :: values => add_values (add_scalar stats (fd_name field) scalar) fields values
  | _, _ => stats
  end.

(** The rows of one table; [None] is a payload read past its end. *)
Fixpoint add_rows (stats : TableColumnStats) (schema : Schema) (rows : list VersionedRow)
  : option TableColumnStats :=
  match rows with
  | [] => Some stats
  | row :: rest =>
      match value (row_version row) with
      | None => add_rows stats schema rest
      | Some payload =>
          match decode_row_values payload schema with
          | None => None
          | Some (Err _) => add_rows stats schema rest
          | Some (Ok values) => add_rows (add_values stats schema values) schema rest
          end
      end
  end.

(** [prefix.strip_suffix(&\[0\])] *)
Definition strip_zero_suffix (prefix : bytes) : option bytes :=
  match rev prefix with
  | b :: r => if b2z b =? 0 then Some (rev r) else None
  | [] => None
  end.

(** The rows grouped by table. *)
Definition group_row (by_table : omap bytes (list VersionedRow)) (row : VersionedRow)
  : omap bytes (list VersionedRow) :=
  match strip_zero_suffix (key_table_prefix (row_key row)) with
  | None => by_table
  | Some name => om_entry (utf8_lossy name) [] (fun rows => rows ++ [row]) by_table
  end.

Fixpoint tables_stats (schemas : omap bytes Schema) (by_table : omap bytes (list VersionedRow))
    (file_stats : omap bytes TableColumnStats) : option (omap bytes TableColumnStats) :=
  match by_table with
  | [] => Some file_stats
  | (table, table_rows) :: rest =>
      match om_get table schemas with
      | None => tables_stats schemas rest file_stats
      | Some schema =>
          stats ← add_rows (mkStats [] [] []) schema table_rows;
          tables_stats schemas rest (om_insert table stats file_stats)
      end
  end.

(** [compute_column_stats] *)
Definition compute_column_stats (schemas : omap bytes Schema) (column_stats : ColumnStats) (file_id : Z)
    (rows : list VersionedRow) : option ColumnStats :=
  file_stats ← tables_stats schemas (fold_left group_row rows []) [];
  Some match file_stats with
  | [] => column_stats
  | _ => om_insert file_id file_stats
           (if COLUMN_STATS_CACHE_MAX <=? Z.of_nat (length column_stats) then [] else column_stats)
  end.

(** [skip_file_by_column_stats] *)
Definition excluded (table_stats : TableColumnStats) (field : bytes) (value : ScalarValue) : bool :=
  default false ((fun cm => sv_gt cm value) <$> om_get field (st_min table_stats)) ||
  default false ((fun cx => sv_lt cx value) <$> om_get field (st_max table_stats)).

Fixpoint any_excluded (table_stats : TableColumnStats) (named_preds : list (bytes * ColumnPredicate)) : bool :=
  match named_preds with
  | [] => false
  | (field, PEq _ value) :: rest =>
      if excluded table_stats field value then true else any_excluded table_stats rest
  | _ :: rest => any_excluded table_stats rest
  end.

Definition skip_file_by_column_stats (column_stats : ColumnStats) (file_id : Z) (table : bytes)
    (named_preds : list (bytes * ColumnPredicate)) : bool :=
  match om_get file_id column_stats ≫= om_get table with
  | None => false
  | Some table_stats => any_excluded table_stats named_preds
  end.
End Stats.

(** [table_zone_maps]: the zone map of each file of the table with its column
    statistics. *)
Section ZoneMaps.
Context `{VortexLib}.

Fixpoint zone_maps (disk : omap Z vfile) (column_stats : ColumnStats) (table : bytes) (ids : list Z)
  : list (Z * (ZoneMap * TableColumnStats)) :=
  match ids with
  | [] => []
  | file_id :: rest =>
      let continue := zone_maps disk column_stats table rest in
      match (match om_get file_id disk with Some f => zone_map f | None => Err (Io "no such file") end) with
      | Err _ => continue
      | Ok zone =>
          let prefix := table_prefix table in
          let foreign := match zm_min_key zone with
                         | [] => false
                         | _ => ltc (zm_max_key zone) prefix || negb (starts_with (zm_min_key zone) prefix)
                         end in
          if foreign then continue
          else (file_id, (zone, default (mkStats [] [] []) (om_get file_id column_stats ≫= om_get table))) :: continue
      end
  end.

Definition table_zone_maps (disk : omap Z vfile) (vs : VersionSet) (column_stats : ColumnStats) (table : bytes)
  : list (Z * (ZoneMap * TableColumnStats)) := zone_maps disk column_stats table (file_ids vs).
End ZoneMaps.

(** ** Order of the scalars of one column *)

(** The types whose values the code orders, by the type of their null. *)
Definition ordered_type (t : DataType) : Prop := same_type (typed_null t) (typed_null t).
Definition typed (t : DataType) (s : ScalarValue) : Prop := same_type (typed_null t) s.

Lemma same_type_sym a b : same_type a b -> same_type b a.
Proof. by destruct a, b. Qed.

Lemma same_type_trans a b c : same_type a b -> same_type b c -> same_type a c.
Proof. destruct a, b; try done; by destruct c. Qed.

Lemma typed_same t a b : typed t a -> typed t b -> same_type a b.
Proof. intros Ha Hb. eapply same_type_trans; [by apply same_type_sym|exact Hb]. Qed.

Definition scalar_le (a b : ScalarValue) : Prop := scalar_cmp a b <> Gt.

Lemma compare_le_trans (x y z : Z) : (x ?= y) <> Gt -> (y ?= z) <> Gt -> (x ?= z) <> Gt.
Proof. rewrite !Z.compare_le_iff. lia. Qed.

Lemma bcmp_le_trans (x y z : bytes) : bcmp x y <> Gt -> bcmp y z <> Gt -> bcmp x z <> Gt.
Proof. exact (cle_trans x y z). Qed.

Lemma scalar_le_trans a b c :
  same_type a b -> same_type b c -> is_null a = false -> is_null b = false -> is_null c = false ->
  scalar_le a b -> scalar_le b c -> scalar_le a c.
Proof.
  unfold scalar_le. intros Hab Hbc. destruct a, b; try done; destruct c; try done; clear Hab Hbc;
    repeat match goal with o : option _ |- _ => destruct o end; try done; intros _ _ _; cbn [scalar_cmp];
    first [apply compare_le_trans|apply bcmp_le_trans|idtac].
  by repeat match goal with b : bool |- _ => destruct b end.
Qed.

Lemma scalar_cmp_sym a b : same_type a b -> scalar_cmp b a = CompOpp (scalar_cmp a b).
Proof.
  intros Hab. destruct a, b; try done; clear Hab; repeat match goal with o : option _ |- _ => destruct o end;
    try done; cbn [scalar_cmp]; first [apply Z.compare_antisym|apply bcmp_antisym|idtac].
  by repeat match goal with b : bool |- _ => destruct b end.
Qed.

Section Bounds.
Context `{ScalarOrd, !ScalarOrdLaws}.

(** Every value of the column seen so far is inside the statistics. *)
Record bounds (t : DataType) (name : bytes) (stats : TableColumnStats) (seen : list ScalarValue) : Prop := {
  bo_min : forall m, om_get name (st_min stats) = Some m -> typed t m /\ is_null m = false;
  bo_max : forall m, om_get name (st_max stats) = Some m -> typed t m /\ is_null m = false;
  bo_seen : forall s, s ∈ seen -> is_null s = false -> typed t s /\ exists lo hi,
    om_get name (st_min stats) = Some lo /\ om_get name (st_max stats) = Some hi /\ scalar_le lo s /\ scalar_le s hi;
}.

Lemma sv_lt_cmp a b : same_type a b -> is_null a = false -> is_null b = false ->
  sv_lt a b = match scalar_cmp a b with Lt => true | _ => false end.
Proof. intros. unfold sv_lt. by rewrite sv_partial_cmp_same. Qed.

Lemma sv_gt_cmp a b : same_type a b -> is_null a = false -> is_null b = false ->
  sv_gt a b = match scalar_cmp a b with Gt => true | _ => false end.
Proof. intros. unfold sv_gt. by rewrite sv_partial_cmp_same. Qed.

Lemma bounds_nil t name : bounds t name (mkStats [] [] []) [].
Proof. by split; [..|intros s ?%not_elem_of_nil]. Qed.

Lemma bounds_other t name stats seen name' s :
  name' <> name -> bounds t name stats seen -> bounds t name (add_scalar stats name' s) seen.
Proof.
  intros Hne [Hmin Hmax Hseen]. unfold add_scalar. destruct (is_null s); [done|].
  assert (Hlo : forall o : bool, om_get name (if o then om_insert name' s (st_min stats) else st_min stats)
                = om_get name (st_min stats)) by (intros []; [by apply om_get_insert_ne|done]).
  assert (Hhi : forall o : bool, om_get name (if o then om_insert name' s (st_max stats) else st_max stats)
                = om_get name (st_max stats)) by (intros []; [by apply om_get_insert_ne|done]).
  split; cbn [st_min st_max].
  - destruct (om_get name' _); [rewrite Hlo|rewrite om_get_insert_ne by done]; exact Hmin.
  - destruct (om_get name' (st_max stats)); [rewrite Hhi|rewrite om_get_insert_ne by done]; exact Hmax.
  - destruct (om_get name' (st_min stats)), (om_get name' (st_max stats));
      rewrite ?Hlo, ?Hhi, ?om_get_insert_ne by done; exact Hseen.
Qed.

Lemma add_scalar_get stats name s : is_null s = false ->
  om_get name (st_min (add_scalar stats name s)) =
    Some match om_get name (st_min stats) with Some p => if sv_lt s p then s else p | None => s end /\
  om_get name (st_max (add_scalar stats name s)) =
    Some match om_get name (st_max stats) with Some p => if sv_gt s p then s else p | None => s end.
Proof.
  intros Hn. unfold add_scalar. rewrite Hn. cbn [st_min st_max].
  split.
  - destruct (om_get name (st_min stats)) eqn:E; [|apply om_get_insert_eq].
    destruct (sv_lt _ _); [apply om_get_insert_eq|exact E].
  - destruct (om_get name (st_max stats)) eqn:E; [|apply om_get_insert_eq].
    destruct (sv_gt _ _); [apply om_get_insert_eq|exact E].
Qed.

Lemma scalar_le_refl s : scalar_le s s.
Proof.
  unfold scalar_le. destruct s; repeat match goal with o : option _ |- _ => destruct o end; try done; cbn [scalar_cmp];
    rewrite ?Z.compare_refl; first [done|by destruct b|exact (cle_refl l)].
Qed.

(** The lesser and the greater of two values of one type. *)
Lemma lesser_le t s p :
  typed t s -> typed t p -> is_null s = false -> is_null p = false ->
  let lo := if sv_lt s p then s else p in
  typed t lo /\ is_null lo = false /\ scalar_le lo s /\ scalar_le lo p.
Proof.
  intros Hs Hp Hsn Hpn. pose proof (typed_same _ _ _ Hs Hp) as Hsp. cbv zeta. rewrite sv_lt_cmp by done.
  unfold scalar_le. pose proof (scalar_cmp_sym _ _ Hsp) as Hsym.
  destruct (scalar_cmp s p) eqn:E; (split; [done|]); (split; [done|]).
  all: split; try apply scalar_le_refl; rewrite ?Hsym, ?E; done.
Qed.

Lemma greater_le t s p :
  typed t s -> typed t p -> is_null s = false -> is_null p = false ->
  let hi := if sv_gt s p then s else p in
  typed t hi /\ is_null hi = false /\ scalar_le s hi /\ scalar_le p hi.
Proof.
  intros Hs Hp Hsn Hpn. pose proof (typed_same _ _ _ Hs Hp) as Hsp. cbv zeta. rewrite sv_gt_cmp by done.
  unfold scalar_le. pose proof (scalar_cmp_sym _ _ Hsp) as Hsym.
  destruct (scalar_cmp s p) eqn:E; (split; [done|]); (split; [done|]).
  all: split; try apply scalar_le_refl; rewrite ?Hsym, ?E; done.
Qed.

Lemma scalar_le_typed t a b c :
  typed t a -> typed t b -> typed t c -> is_null a = false -> is_null b = false -> is_null c = false ->
  scalar_le a b -> scalar_le b c -> scalar_le a c.
Proof. intros Ha Hb Hc. apply scalar_le_trans; by eapply typed_same. Qed.

Lemma bounds_same t name stats seen s :
  typed t s -> bounds t name stats seen -> bounds t name (add_scalar stats name s) (s :: seen).
Proof.
  intros Hs [Hmin Hmax Hseen]. destruct (is_null s) eqn:Hn.
  { unfold add_scalar. rewrite Hn. split; cbn; [done..|]. intros x [->|Hx]%elem_of_cons Hxn; [congruence|by apply Hseen]. }
  destruct (add_scalar_get stats name s Hn) as [Hlo Hhi].
  set (lo := match om_get name (st_min stats) with Some p => if sv_lt s p then s else p | None => s end) in Hlo.
  set (hi := match om_get name (st_max stats) with Some p => if sv_gt s p then s else p | None => s end) in Hhi.
  assert (L : typed t lo /\ is_null lo = false /\ scalar_le lo s /\
              forall p, om_get name (st_min stats) = Some p -> scalar_le lo p).
  { unfold lo. destruct (om_get name (st_min stats)) as [p|]; [|by repeat split; [| |apply scalar_le_refl|]].
    destruct (Hmin p eq_refl) as [Hp Hpn]. destruct (lesser_le t s p Hs Hp Hn Hpn) as (? & ? & ? & ?).
    repeat split; try done. by intros q [= <-]. }
  assert (G : typed t hi /\ is_null hi = false /\ scalar_le s hi /\
              forall p, om_get name (st_max stats) = Some p -> scalar_le p hi).
  { unfold hi. destruct (om_get name (st_max stats)) as [p|]; [|by repeat split; [| |apply scalar_le_refl|]].
    destruct (Hmax p eq_refl) as [Hp Hpn]. destruct (greater_le t s p Hs Hp Hn Hpn) as (? & ? & ? & ?).
    repeat split; try done. by intros q [= <-]. }
  clearbody lo hi. destruct L as (Lt & Ln & Ls & Lp), G as (Gt & Gn & Gs & Gp). split.
  - intros m. rewrite Hlo. by intros [= <-].
  - intros m. rewrite Hhi. by intros [= <-].
  - intros x [->|Hx]%elem_of_cons Hxn; [split; [done|]; by exists lo, hi|].
    destruct (Hseen x Hx Hxn) as (Hxt & l & h & El & Eh & Hl & Hh). split; [done|]. exists lo, hi.
    destruct (Hmin l El), (Hmax h Eh). split; [done|]. split; [done|]. split.
    + by apply (scalar_le_typed t lo l x); auto.
    + by apply (scalar_le_typed t x h hi); auto.
Qed.

(** ** Decoded values have the type of their column *)

Lemma value_typed bs pos t s next :
  ordered_type t -> value_bytes_to_scalar bs pos t = Some (Ok (s, next)) -> typed t s.
Proof.
  unfold ordered_type, typed. intros Ho. destruct t as [| | | | | | | | | | | | | | | | |[]| []| []| []| []|]; try done;
    cbn -[read_int read_uint read_utf8].
  all: try (destruct (read_int _ _ _); cbn; [|done]; by intros [= <- _]).
  all: try (destruct (read_uint _ _ _); cbn; [|done]; by intros [= <- _]).
  all: destruct (read_utf8 bs pos) as [[x n]|]; cbn; [|done]; by intros [= <- _].
Qed.

Lemma decoded_typed bs fields : forall pos vs,
  decode_full_loop bs pos fields [] = Some (Ok vs) ->
  Forall2 (fun f s => ordered_type (fd_type f) -> typed (fd_type f) s) fields vs.
Proof.
  induction fields as [|f fields IH]; intros pos vs; cbn [decode_full_loop]; [intros [= <-]; constructor|].
  destruct (decode_column _ _ _) as [[[s next]|]|] eqn:E; cbn [ubind]; [|done..].
  rewrite decode_full_loop_acc. destruct (decode_full_loop bs next fields []) as [[vs'|]|] eqn:E'; cbn; [|done..].
  intros [= <-]. constructor; [|by eapply IH]. intros Ho. unfold decode_column in E. destruct (bs !! _) as [m|]; [|done].
  destruct (b2z m =? 0); [|by eapply value_typed]. by injection E as <- _.
Qed.

Section Column.
(** One column of a table with distinct column names. *)
Context (schema : Schema) (c : nat) (f : Field).
Context (Hnames : NoDup (map fd_name schema)) (Hf : schema !! c = Some f) (Ho : ordered_type (fd_type f)).

Lemma bounds_values_other fields : forall values stats seen,
  fd_name f ∉ map fd_name fields -> bounds (fd_type f) (fd_name f) stats seen ->
  bounds (fd_type f) (fd_name f) (add_values stats fields values) seen.
Proof.
  induction fields as [|g fields IH]; intros [|v values] stats seen Hn Hb; cbn [add_values]; [done..|].
  cbn in Hn. apply not_elem_of_cons in Hn as [Hne Hn]. apply IH; [done|]. by apply bounds_other.
Qed.

Lemma bounds_values fields : forall i values stats seen s,
  NoDup (map fd_name fields) -> fields !! i = Some f -> values !! i = Some s -> typed (fd_type f) s ->
  bounds (fd_type f) (fd_name f) stats seen ->
  bounds (fd_type f) (fd_name f) (add_values stats fields values) (s :: seen).
Proof.
  induction fields as [|g fields IH]; intros i [|v values] stats seen s Hnd Hg Hv Ht Hb; try done.
  cbn in Hnd. apply NoDup_cons in Hnd as [Hn Hnd]. cbn [add_values]. destruct i as [|i]; cbn in Hg, Hv.
  - injection Hg as ->. injection Hv as ->. apply bounds_values_other; [done|]. by apply bounds_same.
  - apply (IH i); try done. apply bounds_other; [|done]. intros E. apply Hn. rewrite E.
    apply list_elem_of_In, in_map, list_elem_of_In. by eapply list_elem_of_lookup_2.
Qed.

(** The values the rows have in the column. *)
Definition column_value (r : VersionedRow) (s : ScalarValue) : Prop :=
  exists payload decoded, value (row_version r) = Some payload /\
    decode_row_values payload schema = Some (Ok decoded) /\ decoded !! c = Some s.

Lemma bounds_rows rows : forall stats seen stats',
  bounds (fd_type f) (fd_name f) stats seen -> add_rows stats schema rows = Some stats' ->
  exists seen', bounds (fd_type f) (fd_name f) stats' seen' /\ seen ⊆ seen' /\
    forall r s, In r rows -> column_value r s -> s ∈ seen'.
Proof.
  induction rows as [|r rows IH]; intros stats seen stats' Hb; cbn [add_rows].
  - intros [= <-]. by exists seen.
  - destruct (value (row_version r)) as [payload|] eqn:Hval.
    + destruct (decode_row_values payload schema) as [[decoded|]|] eqn:Hd; [| |done].
      * pose proof Hd as Hty. rewrite decode_row_values_full in Hty. apply decoded_typed in Hty.
        destruct (Forall2_lookup_l _ _ _ _ _ Hty Hf) as (s & Hs & Ht).
        intros Hr. destruct (IH _ (s :: seen) _ (bounds_values schema c decoded stats seen s Hnames Hf Hs (Ht Ho) Hb) Hr)
          as (seen' & Hb' & Hsub & Hin). exists seen'. split; [done|]. split; [set_solver|].
        intros r' s' [<-|Hr'] Hc; [|by eapply Hin]. destruct Hc as (p & d & Hp & Hdd & Hds).
        rewrite Hval in Hp. injection Hp as <-. rewrite Hd in Hdd. injection Hdd as <-.
        rewrite Hs in Hds. injection Hds as <-. set_solver.
      * intros Hr. destruct (IH _ _ _ Hb Hr) as (seen' & ? & ? & Hin). exists seen'. repeat (split; [done|]).
        intros r' s' [<-|Hr'] Hc; [|by eapply Hin]. destruct Hc as (p & d & Hp & Hdd & _). congruence.
    + intros Hr. destruct (IH _ _ _ Hb Hr) as (seen' & ? & ? & Hin). exists seen'. repeat (split; [done|]).
      intros r' s' [<-|Hr'] Hc; [|by eapply Hin]. destruct Hc as (p & d & Hp & _). congruence.
Qed.
End Column.

(** ** The statistics of a file *)

Definition row_table (r : VersionedRow) : option bytes :=
  utf8_lossy <$> strip_zero_suffix (key_table_prefix (row_key r)).

Lemma group_rows rows : forall by_table table r,
  (In r rows /\ row_table r = Some table) \/ In r (default [] (om_get table by_table)) ->
  In r (default [] (om_get table (fold_left group_row rows by_table))).
Proof.
  induction rows as [|x rows IH]; intros by_table table r Hr; cbn [fold_left]; [by destruct Hr as [[[] _]|]|].
  apply IH. destruct Hr as [[[->|Hin] Ht]|Hr]; [right|by left|right]; unfold group_row, row_table in *.
  - destruct (strip_zero_suffix _) as [name|]; cbn in Ht; [|done]. injection Ht as ->.
    rewrite om_get_entry, eqc_refl. cbn. apply in_app_iff. right. by left.
  - destruct (strip_zero_suffix _) as [name|]; [|done]. rewrite om_get_entry.
    destruct (eqc table (utf8_lossy name)) eqn:E; [|done]. apply eqc_spec in E as ->. cbn.
    apply in_app_iff. by left.
Qed.

Lemma tables_stats_get schemas table schema rows by_table : forall file_stats stats,
  NoDup (om_keys by_table) -> om_get table schemas = Some schema -> tables_stats schemas by_table file_stats = Some stats ->
  In (table, rows) by_table -> exists st, om_get table stats = Some st /\ add_rows (mkStats [] [] []) schema rows = Some st.
Proof.
  assert (Hkeep : forall by_table file_stats stats st, table ∉ om_keys by_table ->
    tables_stats schemas by_table file_stats = Some stats -> om_get table file_stats = Some st -> om_get table stats = Some st).
  { clear. induction by_table as [|[t rs] by_table IH]; intros file_stats stats st Hn; cbn [tables_stats]; [by intros [= <-]|].
    cbn in Hn. apply not_elem_of_cons in Hn as [Hne Hn]. destruct (om_get t schemas) as [sc|]; [|by apply IH].
    destruct (add_rows _ _ _) as [st'|]; [|done]. cbn. intros Hts Hg. eapply IH; [done|exact Hts|].
    by rewrite om_get_insert_ne. }
  intros file_stats stats Hnd Hs. revert file_stats.
  induction by_table as [|[t rs] by_table IH]; intros file_stats Hts Hin; [done|].
  cbn in Hnd. apply NoDup_cons in Hnd as [Hn Hnd]. cbn [tables_stats] in Hts. destruct Hin as [[= -> ->]|Hin].
  - rewrite Hs in Hts. destruct (add_rows _ _ _) as [st|]; [|done]. cbn in Hts. exists st. split; [|done].
    eapply Hkeep; [done|exact Hts|]. apply om_get_insert_eq.
  - destruct (om_get t schemas) as [sc|]; [|exact (IH Hnd _ Hts Hin)]. destruct (add_rows _ sc rs); [|done]. exact (IH Hnd _ Hts Hin).
Qed.

(** A predicate whose literal is a value of its column's type. *)
Definition literal_typed (schema : Schema) (p : ColumnPredicate) : Prop :=
  match p with
  | PEq col v => exists f, schema !! col = Some f /\ ordered_type (fd_type f) /\ typed (fd_type f) v /\ is_null v = false
  | _ => True
  end.

Lemma group_keys_sorted rows : forall by_table, om_sorted by_table -> om_sorted (fold_left group_row rows by_table).
Proof.
  induction rows as [|x rows IH]; intros by_table Hs; cbn [fold_left]; [done|]. apply IH. unfold group_row.
  destruct (strip_zero_suffix _); [by apply om_sorted_entry|done].
Qed.

(** The statistics of a table of the file. *)
Lemma computed_stats schemas column_stats file_id rows stats table schema r :
  compute_column_stats schemas column_stats file_id rows = Some stats -> om_get table schemas = Some schema ->
  In r rows -> row_table r = Some table ->
  exists table_rows st, om_get file_id stats ≫= om_get table = Some st /\ In r table_rows /\
    add_rows (mkStats [] [] []) schema table_rows = Some st.
Proof.
  unfold compute_column_stats. set (by_table := fold_left group_row rows []). intros Hc Hs Hr Ht.
  assert (Hg : In r (default [] (om_get table by_table))) by (apply group_rows; by left).
  destruct (om_get table by_table) as [trs|] eqn:E; [|done]. cbn in Hg.
  destruct (tables_stats schemas by_table []) as [fs|] eqn:Ets; [|done]. cbn in Hc. injection Hc as <-.
  destruct (tables_stats_get schemas table schema trs by_table [] fs) as (st & Hst & Har); [|done..|by apply om_get_In|].
  { apply om_keys_NoDup, group_keys_sorted, om_sorted_nil. }
  exists trs, st. split; [|done]. destruct fs as [|x fs]; [done|]. rewrite om_get_insert_eq. exact Hst.
Qed.

(** Values inside the statistics are not excluded. *)
Lemma excluded_sound t name stats seen s v :
  bounds t name stats seen -> s ∈ seen -> is_null s = false -> typed t v -> is_null v = false ->
  excluded stats name v = true -> sv_eq s v = false.
Proof.
  intros Hb Hs Hsn Hv Hvn. destruct (bo_seen _ _ _ _ Hb s Hs Hsn) as (Hst & lo & hi & Elo & Ehi & Hlo & Hhi).
  destruct (bo_min _ _ _ _ Hb lo Elo) as [Tlo Nlo], (bo_max _ _ _ _ Hb hi Ehi) as [Thi Nhi].
  unfold excluded. rewrite Elo, Ehi. cbn [fmap option_fmap option_map default id].
  rewrite sv_gt_cmp, sv_lt_cmp, sv_eq_same by (done || by eapply typed_same).
  intros Hx. destruct (scalar_cmp s v) eqn:E; [|done..]. exfalso.
  pose proof (typed_same _ _ _ Hst Hv) as Hsv. apply orb_true_iff in Hx as [Hx|Hx].
  - assert (Hle : scalar_le lo v) by (apply (scalar_le_typed t lo s v); try done; by unfold scalar_le; rewrite E).
    unfold scalar_le in Hle. by destruct (scalar_cmp lo v).
  - assert (Hle : scalar_le v hi).
    { apply (scalar_le_typed t v s hi); try done. unfold scalar_le. by rewrite (scalar_cmp_sym s v Hsv), E. }
    unfold scalar_le in Hle. rewrite (scalar_cmp_sym hi v) in Hle by (by eapply typed_same).
    by destruct (scalar_cmp hi v).
Qed.

Lemma any_excluded_pred st schema ps :
  any_excluded st (predicates_with_fields ps schema) = true ->
  exists col v f, PEq col v ∈ ps /\ schema !! col = Some f /\ excluded st (fd_name f) v = true.
Proof.
  induction ps as [|p ps IH]; [done|]. unfold predicates_with_fields in *. cbn [List.flat_map].
  destruct (schema !! p_column p) as [f|] eqn:Hf; cbn [app].
  - destruct p as [col v| | | | |]; cbn [any_excluded];
      try (intros Hx; destruct (IH Hx) as (col' & v' & f' & ? & ? & ?); exists col', v', f'; split; [by right|done]).
    destruct (excluded st (fd_name f) v) eqn:E.
    + intros _. exists col, v, f. split; [by left|done].
    + intros Hx. destruct (IH Hx) as (col' & v' & f' & ? & ? & ?). exists col', v', f'. split; [by right|done].
  - intros Hx. destruct (IH Hx) as (col' & v' & f' & ? & ? & ?). exists col', v', f'. split; [by right|done].
Qed.

(** C33: skipping a file loses no rows. Take a table with distinct column names and
    predicates whose equalities compare a column of an ordered type with a literal
    that is not null and of that type. When the statistics computed for a file
    exclude one of the equalities, no row of the table in the file is selected by
    the predicates. *)
Theorem stats_skip_sound (schemas : omap bytes Schema) (column_stats stats : ColumnStats) (file_id : Z)
    (rows : list VersionedRow) (table : bytes) (schema : Schema) (ps : list ColumnPredicate) (r : VersionedRow) :
  compute_column_stats schemas column_stats file_id rows = Some stats -> om_get table schemas = Some schema ->
  NoDup (map fd_name schema) -> Forall (literal_typed schema) ps ->
  skip_file_by_column_stats stats file_id table (predicates_with_fields ps schema) = true ->
  In r rows -> row_table r = Some table -> row_selected schema ps r = false.
Proof.
  intros Hc Hs Hnd Hps Hskip Hr Ht. destruct (computed_stats _ _ _ _ _ _ _ _ Hc Hs Hr Ht) as (trs & st & Hst & Hin & Har).
  unfold skip_file_by_column_stats in Hskip. rewrite Hst in Hskip.
  destruct (any_excluded_pred _ _ _ Hskip) as (col & v & f & Hp & Hf & Hx).
  destruct (proj1 (Forall_forall _ _) Hps _ Hp) as (f' & Hf' & Ho & Hv & Hvn). cbn in Hf'.
  rewrite Hf in Hf'. injection Hf' as <-.
  destruct (bounds_rows schema col f Hnd Hf Ho trs _ [] _ (bounds_nil _ _) Har) as (seen & Hb & _ & Hseen).
  unfold row_selected. destruct (value (row_version r)) as [payload|] eqn:Hval; [|done].
  destruct (decode_row_values payload schema) as [[decoded|]|] eqn:Hd; [|done..].
  rewrite row_matches_forallb. apply not_true_is_false. rewrite forallb_forall. intros Hall.
  specialize (Hall _ (proj1 (list_elem_of_In _ _) Hp)). cbn [p_column] in Hall.
  destruct (decoded !! col) as [s|] eqn:Hsc; [|done]. unfold evaluate in Hall.
  destruct (is_null s) eqn:Hsn; [done|].
  rewrite (excluded_sound _ _ _ _ s v Hb) in Hall; try done. apply (Hseen r); [done|]. by exists payload, decoded.
Qed.
End Bounds.

(** ** Witness *)

Section Samples.
#[local] Existing Instance column_ord.
#[local] Existing Instance column_ord_laws.

Definition stat_schema : Schema := [mkField [x69] DtInt64 false; mkField [x64] DtDate32 true].
Definition stat_row (k : byte) (v d : Z) : VersionedRow :=
  mkRow [x74; x00; k] {| value := Some (x01 :: to_le 8 v ++ x01 :: to_le 4 d); begin_ts := 1; end_ts := 9; tx_id := 0 |}.
Definition stat_rows : list VersionedRow := [stat_row x61 7 100; stat_row x62 9 90].
Definition stat_schemas : omap bytes Schema := [([x74], stat_schema)].
Definition stat_stats : ColumnStats :=
  Eval vm_compute in default [] (compute_column_stats stat_schemas [] 3 stat_rows).

Lemma stats_skip_sound_witness :
  skip_file_by_column_stats stat_stats 3 [x74]
    (predicates_with_fields [PEq 0 (SvInt64 (Some 8)); PEq 1 (SvDate32 (Some 101))] stat_schema) = true /\
  row_selected stat_schema [PEq 0 (SvInt64 (Some 8)); PEq 1 (SvDate32 (Some 101))] (stat_row x61 7 100) = false.
Proof.
  split; [reflexivity|].
  apply (stats_skip_sound stat_schemas [] stat_stats 3 stat_rows [x74] stat_schema).
  - vm_compute. reflexivity.
  - reflexivity.
  - by apply (bool_decide_unpack _).
  - constructor; [|constructor; [|constructor]]; eexists; repeat split; reflexivity.
  - reflexivity.
  - left. reflexivity.
  - reflexivity.
Defined.
End Samples.
