(* ===== verification/TableScan.v ===== *)
(** * Table scans to Arrow batches ([hatp-engine/src/lib.rs], [vortex_sst.rs])

    [scan_table_arrow] serves DataFusion: partition 0 merges the memtable with the
    level-0 files and builds batches from the decoded rows ([rows_to_batches]);
    every deeper file is a partition of its own, read from its business columns
    ([scan_to_arrow_batches]).  Arrow's and Vortex's conversions are parameters:
    [iter_to_array] and [execute_arrow], with what they document as laws. *)

From Stdlib Require Import Strings.String.
From stdpp Require Import base tactics list option gmap.
From S2P Require Import Prelude OrdMap Types Version Crc32c Wal MemTable TxManager Codec Arrow RowCodec ColumnPredicate Manifest Compaction Engine Sst Lsm ColumnStats.
#[local] Open Scope Z_scope.

(** ** Arrow's conversions *)

(** The slot a scalar fills. *)
Definition scalar_slot (s : ScalarValue) : option ArrowValue :=
  match scalar_to_array s 1 (DtOther EmptyString) with
  | Ok a => match ar_slots a with slot :: _ => slot | [] => None end
  | Err _ => None
  end.

Class ArrowArrays := {
  (** [ScalarValue::iter_to_array] *)
  iter_to_array : list ScalarValue -> result string ArrowArray;
  (** [execute_arrow] of Vortex, to the type of a field *)
  execute_arrow : Field -> list (option Cell) -> result string ArrowArray;
}.

(** [Schema::project] *)
Definition schema_project (schema : Schema) (indices : list nat) : Result Schema :=
  ok_or (mapM (fun i => schema !! i) indices) (Arrow "project index out of bounds").

(** [RecordBatch::new_empty] *)
Definition new_empty (schema : Schema) : RecordBatch :=
  mkBatch schema ((fun f => mkArray (fd_type f) []) <$> schema) 0.

(** [validate_projection] *)
Definition validate_projection (schema : Schema) (projection : list nat) : Result unit :=
  match projection with
  | [] => Ok tt
  | _ => if (length schema <=? list_max projection)%nat
         then Err (CorruptMessage "projection index out of range")
         else Ok tt
  end.

(** ** Rows to batches *)

(** [columns.get_mut(col_idx)] and [push]. *)
Definition push_column (columns : list (list ScalarValue)) (col_idx : nat) (scalar : ScalarValue)
  : list (list ScalarValue) := alter (fun col => col ++ [scalar]) col_idx columns.

Fixpoint push_row (columns : list (list ScalarValue)) (indices : list nat) (row : list ScalarValue)
  : list (list ScalarValue) :=
  match indices, row with
  | i :: indices, s :: row => push_row (push_column columns i s) indices row
  | _, _ => columns
  end.

(** The decoding loop: all columns at once, or the projected ones. *)
Fixpoint decode_visible (schema : Schema) (cols_to_decode : list nat) (visible : omap bytes VersionedValue)
    (columns : list (list ScalarValue)) : option (Result (list (list ScalarValue))) :=
  match visible with
  | [] => Some (Ok columns)
  | (_, v) :: rest =>
      match value v with
      | None => decode_visible schema cols_to_decode rest columns
      | Some payload =>
          if (length cols_to_decode =? length schema)%nat then
            '(row, r) ← decode_row_into payload schema [];
            let! _ := Some r in
            decode_visible schema cols_to_decode rest (push_row columns (seq 0 (length row)) row)
          else
            let! row := decode_row_narrow payload schema cols_to_decode in
            decode_visible schema cols_to_decode rest (push_row columns cols_to_decode row)
      end
  end.

Section Scan.
Context `{ArrowLib} `{ArrowArrays}.

(** The arrays of one batch: the window [start..end] of every built column. *)
Fixpoint batch_arrays (columns : list (list ScalarValue)) (build_cols : list nat) (start end_ : Z)
  : Result (list ArrowArray) :=
  match build_cols with
  | [] => Ok []
  | col_idx :: rest =>
      let? col := ok_or (columns !! col_idx) (Corrupt "scan batch column index out of range") in
      let? window := ok_or (if (start <=? end_) && (end_ <=? Z.of_nat (length col))
                            then Some (take (Z.to_nat (end_ - start)) (drop (Z.to_nat start) col)) else None)
                       (Corrupt "scan batch window out of range") in
      let? array := match iter_to_array window with
                    | Ok a => Ok a
                    | Err err => Err (CorruptMessage (String.append "build scan batch: " err))
                    end in
      let? arrays := batch_arrays columns rest start end_ in
      Ok (array :: arrays)
  end.

Definition build_batch (schema : Schema) (columns : list (list ScalarValue)) (build_cols : list nat) (start end_ : Z)
  : Result RecordBatch :=
  let? arrays := batch_arrays columns build_cols start end_ in
  let? projected_schema := if (length build_cols =? length schema)%nat then Ok schema
                           else schema_project schema build_cols in
  match try_new projected_schema arrays with
  | Ok batch => Ok batch
  | Err err => Err (CorruptMessage (String.append "build scan batch: " err))
  end.

(** The slicing loop; [None] is the overflow of [start + batch_size], or fuel that
    does not suffice. *)
Fixpoint slice_loop (fuel : nat) (schema : Schema) (columns : list (list ScalarValue)) (build_cols : list nat)
    (total_rows batch_size start : Z) (batches : list RecordBatch) : option (Result (list RecordBatch)) :=
  if negb (start <? total_rows) then Some (Ok batches) else
  match fuel with
  | O => None
  | S fuel =>
      sum ← checked_add start batch_size;
      let end_ := Z.min sum total_rows in
      let! batch := Some (build_batch schema columns build_cols start end_) in
      slice_loop fuel schema columns build_cols total_rows batch_size end_ (batches ++ [batch])
  end.

(** The schema of an empty result. *)
Definition empty_batches (schema : Schema) (projection : option (list nat)) : Result (list RecordBatch) :=
  let? projected_schema := match projection with
                           | Some proj => let? _ := validate_projection schema proj in schema_project schema proj
                           | None => Ok schema
                           end in
  Ok [new_empty projected_schema].

(** [rows_to_batches] *)
Definition rows_to_batches (schemas : omap bytes Schema) (table : bytes) (visible : omap bytes VersionedValue)
    (projection : option (list nat)) (fallback_schema : option Schema) (batch_size : Z)
  : option (Result (list RecordBatch)) :=
  let! row_schema := Some (ok_or (match om_get table schemas with Some s => Some s | None => fallback_schema end)
                             (CorruptMessage "scan_table: no schema registered")) in
  let! _ := Some match projection with Some proj => validate_projection row_schema proj | None => Ok tt end in
  let cols_to_decode := match projection with Some proj => proj | None => seq 0 (length row_schema) end in
  let! columns := decode_visible row_schema cols_to_decode visible (replicate (length row_schema) []) in
  if forallb (fun idx => match columns !! idx with Some [] => true | _ => false end) cols_to_decode
  then Some (empty_batches row_schema projection)
  else
    let total_rows := match cols_to_decode with
                      | idx :: _ => match columns !! idx with Some col => length col | None => 0%nat end
                      | [] => 0%nat
                      end in
    slice_loop total_rows row_schema columns cols_to_decode (Z.of_nat total_rows) batch_size 0 [].
End Scan.

(** ** SST files to batches *)

Section Sst.
Context `{ArrowLib} `{ArrowArrays} `{VortexLib}.

(** The projected business columns; [None] is a column index past the schema. *)
Fixpoint arrow_columns (row_schema : Schema) (rows : list Columns) (cols_to_read : list nat)
  : option (Result (list ArrowArray)) :=
  match cols_to_read with
  | [] => Some (Ok [])
  | col_idx :: rest =>
      field ← row_schema !! col_idx;
      let! cells := Some (ok_or (mapM (fun c => col_cells c !! col_idx) rows)
                            (CorruptMessage "business column missing from SST")) in
      let! a := Some match execute_arrow field cells with
                     | Ok a => Ok a
                     | Err err => Err (CorruptMessage err)
                     end in
      let! arrays := arrow_columns row_schema rows rest in
      Some (Ok (a :: arrays))
  end.

Definition array_slice (start len : nat) (a : ArrowArray) : ArrowArray :=
  mkArray (ar_type a) (take len (drop start (ar_slots a))).

Fixpoint slice_arrays (fuel : nat) (schema : Schema) (columns : list ArrowArray) (row_count batch_size start : nat)
    (batches : list RecordBatch) : option (Result (list RecordBatch)) :=
  if negb (start <? row_count)%nat then Some (Ok batches) else
  match fuel with
  | O => None
  | S fuel =>
      let end_ := Nat.min (start + batch_size) row_count in
      let! batch := Some match try_new schema (array_slice start (end_ - start) <$> columns) with
                         | Ok batch => Ok batch
                         | Err err => Err (CorruptMessage err)
                         end in
      slice_arrays fuel schema columns row_count batch_size end_ (batches ++ [batch])
  end.

(** [scan_to_arrow_batches] *)
Definition scan_to_arrow_batches (file : option vfile) (lower upper : bytes) (s : Snapshot)
    (predicates : list ColumnPredicate) (projection : option (list nat)) (row_schema : Schema) (batch_size : Z)
  : option (Result (list RecordBatch)) :=
  let! f := Some (ok_or file (Io "no such file")) in
  let! rows := Some (vortex_scan f (Some (scan_filter lower upper s predicates))) in
  let row_count := length rows in
  let ncols := length row_schema in
  let cols_to_read := match projection with Some proj => proj | None => seq 0 ncols end in
  match rows with
  | [] =>
      Some (let? projected_schema := match projection with
                                     | Some proj => schema_project row_schema proj
                                     | None => Ok row_schema
                                     end in
            Ok [new_empty projected_schema])
  | _ =>
      let! columns := arrow_columns row_schema rows cols_to_read in
      let! projected_schema := Some (if (length cols_to_read =? ncols)%nat then Ok row_schema
                                     else schema_project row_schema cols_to_read) in
      let effective_batch_size := if batch_size =? u64_max then Z.of_nat row_count else Z.max batch_size 1 in
      slice_arrays row_count projected_schema columns row_count (Z.to_nat effective_batch_size) 0 []
  end.
End Sst.

(** ** The whole scan *)

Section Table.
Context {hw : Crc32Hw} {T H : Type} `{MemTableBackend T} `{EngineHook H} `{VortexLib} `{ScalarOrd}.
Context `{ArrowLib} `{ArrowArrays}.
#[local] Abbreviation Lsm := (Lsm (T := T) (H := H)).

(** The level-0 files, merged into what the memtable shows. *)
Fixpoint merge_l0 (l : Lsm) (column_stats : ColumnStats) (table lower upper : bytes) (s : Snapshot)
    (named_preds : option (list (bytes * ColumnPredicate))) (schema_ref : option Schema) (ids : list Z)
    (visible : omap bytes VersionedValue) : option (Result (omap bytes VersionedValue)) :=
  match ids with
  | [] => Some (Ok visible)
  | file_id :: rest =>
      if match named_preds with
         | Some preds => skip_file_by_column_stats column_stats file_id table preds
         | None => false
         end
      then merge_l0 l column_stats table lower upper s named_preds schema_ref rest visible
      else
        let! rows := match om_get file_id (l_disk l) with
                     | Some f => scan_with_filter f lower upper s named_preds schema_ref
                     | None => Some (Err (Io "no such file"))
                     end in
        merge_l0 l column_stats table lower upper s named_preds schema_ref rest
          (fold_left (fun visible row =>
             if is_dropped_prefix l (row_key row) then visible
             else insert_newest visible (row_key row) (row_version row)) rows visible)
  end.

(** The files of the levels from [level] up to the first empty one; [None] when
    the fuel does not reach it. *)
Fixpoint deep_files (fuel : nat) (vs : VersionSet) (level : Z) : option (list Z) :=
  match vs_files vs level with
  | [] => Some []
  | files =>
      match fuel with
      | O => None
      | S fuel => rest ← deep_files fuel vs (level + 1); Some (files ++ rest)
      end
  end.

(** The results of the parallel reads, gathered in file order. *)
Fixpoint gather (results : list (Result (list RecordBatch))) (partitions : list (list RecordBatch))
  : Result (list (list RecordBatch)) :=
  match results with
  | [] => Ok partitions
  | r :: rest =>
      let? batches := r in
      gather rest (if forallb (fun b => (rb_num_rows b =? 0)%nat) batches then partitions
                   else partitions ++ [batches])
  end.

(** [scan_table_arrow]; the snapshot it pins is released when it returns. *)
Definition scan_table_arrow (l : Lsm) (column_stats : ColumnStats) (table : bytes) (projection : option (list nat))
    (fallback_schema : option Schema) (batch_size : Z) (predicates : option (list ColumnPredicate))
  : option (Result (list (list RecordBatch))) :=
  let s := mkSnapshot (snapshot_ts (l_engine l)) in
  let prefix := table_prefix table in
  let upper := prefix_upper_exclusive prefix in
  let table_dropped := is_dropped_prefix l prefix in
  let schema_ref := om_get table (l_schemas l) in
  let! row_schema := Some (ok_or (match schema_ref with Some sc => Some sc | None => fallback_schema end)
                             (CorruptMessage "scan_table_arrow: no schema and no fallback")) in
  mem_rows ← mt_scan_prefix_versions (e_memtable (l_engine l)) prefix s;
  let visible := fold_left (fun visible e => insert_newest visible e.1 e.2) mem_rows [] in
  let vs := version_set l in
  let! visible :=
    if table_dropped then Some (Ok visible)
    else
      let named_preds := match schema_ref, predicates with
                         | Some sc, Some p => Some (predicates_with_fields p sc)
                         | _, _ => None
                         end in
      merge_l0 l column_stats table prefix upper s named_preds schema_ref (vs_files vs 0) visible in
  let! partitions :=
    match visible with
    | [] => Some (Ok [])
    | _ =>
        let! batches := rows_to_batches (l_schemas l) table visible projection (Some row_schema) batch_size in
        Some (Ok (match batches with [] => [] | _ => [batches] end))
    end in
  let! partitions :=
    if table_dropped then Some (Ok partitions)
    else
      let preds := default [] predicates in
      files ← deep_files (length (vs_levels vs)) vs 1;
      let file_ids := List.filter (fun file_id =>
        match preds with
        | [] => true
        | _ => negb (skip_file_by_column_stats column_stats file_id table (predicates_with_fields preds row_schema))
        end) files in
      results ← mapM (fun file_id =>
        scan_to_arrow_batches (om_get file_id (l_disk l)) prefix upper s preds projection row_schema batch_size) file_ids;
      Some (gather results partitions) in
  Some match partitions with
       | [] => let? batches := empty_batches row_schema projection in Ok [batches]
       | _ => Ok partitions
       end.

(** [scan_table] *)
Definition scan_table (l : Lsm) (column_stats : ColumnStats) (table : bytes) (projection : option (list nat))
    (fallback_schema : option Schema) : option (Result (list RecordBatch)) :=
  umap (fun partitions => concat partitions)
    (scan_table_arrow l column_stats table projection fallback_schema u64_max None).
End Table.
