(* ===== verification/TableScanProps.v ===== *)
(** * Table scans are exact

    [rows_to_batches] turns what a scan merged into batches of the projected,
    decoded rows; [scan_table_arrow] over a tree whose files are all at level 0
    returns exactly the rows of the newest commits. *)

From Stdlib Require Import Strings.String Sorting.Sorted.
From stdpp Require Import base tactics list option gmap.
From S2P Require Import Prelude OrdMap Types Version Crc32c Wal MemTable MemTableProps TxManager Codec Arrow RowCodec RowCodecProps ColumnPredicate Manifest Compaction Engine Sst SstProps Lsm LsmProps LsmReads ColumnStats TableScan.
#[local] Open Scope Z_scope.

(** ** Arrow's documented behaviour *)

(** [ScalarValue::data_type], for the values the row codec produces. *)
Definition scalar_type (s : ScalarValue) : option DataType :=
  match s with
  | SvNull | SvOther _ _ => None
  | SvTimestampSecond _ tz => Some (DtTimestamp Second tz)
  | SvTimestampMillisecond _ tz => Some (DtTimestamp Millisecond tz)
  | SvTimestampMicrosecond _ tz => Some (DtTimestamp Microsecond tz)
  | SvTimestampNanosecond _ tz => Some (DtTimestamp Nanosecond tz)
  | _ => match scalar_to_array s 0 (DtOther EmptyString) with Ok a => Some (ar_type a) | Err _ => None end
  end.

Class ArrowArraysLaws `{ArrowArrays} : Prop := {
  iter_to_array_typed : forall svs t, svs <> [] -> Forall (fun s => scalar_type s = Some t) svs ->
    iter_to_array svs = Ok (mkArray t (scalar_slot <$> svs));
}.

(** The slot a stored cell fills, and the cells of a column type. *)
Definition cell_slot (c : option Cell) : option ArrowValue :=
  match c with
  | Some (CInt _ v) => Some (AvInt v)
  | Some (CFloat32 v) | Some (CFloat64 v) => Some (AvFloat v)
  | Some (CBool v) => Some (AvBool v)
  | Some (CBytes v) => Some (AvBytes v)
  | None => None
  end.

Definition cell_fits (t : DataType) (c : option Cell) : Prop :=
  match c with
  | None => True
  | Some c =>
      match t, c with
      | DtInt8, CInt I8 _ | DtInt16, CInt I16 _ | DtInt32, CInt I32 _ | DtInt64, CInt I64 _
      | DtUInt8, CInt U8 _ | DtUInt16, CInt U16 _ | DtUInt32, CInt U32 _ | DtUInt64, CInt U64 _
      | DtFloat32, CFloat32 _ | DtFloat64, CFloat64 _ | DtUtf8, CBytes _ | DtLargeUtf8, CBytes _ => True
      | _, _ => False
      end
  end.

(** Vortex converts columns of numbers and strings to the Arrow type of the field. *)
Class ColumnLaws `{ArrowArrays} : Prop := {
  execute_arrow_typed : forall f cells,
    pushable_type (fd_type f) = true -> Forall (cell_fits (fd_type f)) cells ->
    execute_arrow f cells = Ok (mkArray (fd_type f) (cell_slot <$> cells));
}.

(** The types the row codec stores. *)
Definition storable (t : DataType) : Prop := scalar_type (typed_null t) = Some t.

Lemma stored_type bs pos t s next :
  value_bytes_to_scalar bs pos t = Some (Ok (s, next)) -> scalar_type s = Some t.
Proof.
  destruct t as [| | | | | | | | | | | | | | | | |[]| []| []| []| []|]; cbn -[read_int read_uint read_utf8 RowCodec.take_len_prefixed];
    try done.
  all: try (destruct (read_int _ _ _); cbn; [|done]; by intros [= <- _]).
  all: try (destruct (read_uint _ _ _); cbn; [|done]; by intros [= <- _]).
  all: try (destruct (read_utf8 bs pos) as [[x n]|]; cbn; [|done]; by intros [= <- _]).
  all: try (destruct (RowCodec.take_len_prefixed bs pos) as [[x n]|]; cbn; [|done]; by intros [= <- _]).
  all: intros Hx; repeat apply bind_Some in Hx as (? & _ & Hx); by simplify_eq.
Qed.

Lemma decoded_types bs fields : forall pos vs,
  Forall (fun f => storable (fd_type f)) fields -> decode_full_loop bs pos fields [] = Some (Ok vs) ->
  Forall2 (fun f s => scalar_type s = Some (fd_type f)) fields vs.
Proof.
  induction fields as [|f fields IH]; intros pos vs Hst; cbn [decode_full_loop]; [intros [= <-]; constructor|].
  apply Forall_cons_1 in Hst as [Hf Hst].
  destruct (decode_column _ _ _) as [[[s next]|]|] eqn:E; cbn [ubind]; [|done..].
  rewrite decode_full_loop_acc. destruct (decode_full_loop bs next fields []) as [[vs'|]|] eqn:E'; cbn; [|done..].
  intros [= <-]. constructor; [|by eapply IH]. unfold decode_column in E. destruct (bs !! _) as [m|]; [|done].
  destruct (b2z m =? 0); [|by eapply stored_type]. by injection E as <- _.
Qed.

Lemma scalar_slot_null s t : scalar_type s = Some t -> scalar_slot s = None <-> is_null s = true.
Proof. destruct s; cbn; try done; repeat match goal with o : option _ |- _ => destruct o end; done. Qed.

(** ** Columns *)

(** The rows of a decoded, projected chunk as one batch. *)
Definition column_of (chunk : list (list ScalarValue)) (j : nat) (t : DataType) : ArrowArray :=
  mkArray t ((fun row => scalar_slot (default SvNull (row !! j))) <$> chunk).

Definition batch_of (schema : Schema) (chunk : list (list ScalarValue)) : RecordBatch :=
  mkBatch schema (imap (fun j f => column_of chunk j (fd_type f)) schema) (length chunk).

(** The decoded rows a scan shows, in key order. *)
Definition row_fits (schema : Schema) (row : list ScalarValue) : Prop :=
  Forall2 (fun f s => fd_nullable f = true \/ is_null s = false) schema row.

Inductive decodes (schema : Schema) : omap bytes VersionedValue -> list (list ScalarValue) -> Prop :=
| dec_nil : decodes schema [] []
| dec_dead k v visible rows : value v = None -> decodes schema visible rows -> decodes schema ((k, v) :: visible) rows
| dec_live k v visible rows payload row :
    value v = Some payload -> decode_row_values payload schema = Some (Ok row) -> row_fits schema row ->
    decodes schema visible rows -> decodes schema ((k, v) :: visible) (row :: rows).

(** The values of column [c]. *)
Definition column_values (c : nat) (rows : list (list ScalarValue)) : list ScalarValue :=
  (fun row => default SvNull (row !! c)) <$> rows.

(** Pushing a row adds its value to each listed column, once. *)
Lemma push_row_lookup indices : forall row columns c,
  NoDup indices -> length row = length indices ->
  push_row columns indices row !! c =
  match list_find (fun i => i = c) indices with
  | Some (j, _) => (fun col => col ++ [default SvNull (row !! j)]) <$> columns !! c
  | None => columns !! c
  end.
Proof.
  induction indices as [|i indices IH]; intros [|s row] columns c Hnd Hl; cbn in Hl; try done.
  apply NoDup_cons in Hnd as [Hn Hnd]. cbn [push_row list_find]. rewrite (IH row) by (done || lia).
  unfold push_column. destruct (decide (i = c)) as [->|Hne].
  - rewrite (proj2 (list_find_None _ _)).
    + cbn. by rewrite list_lookup_alter_eq.
    + apply Forall_forall. by intros x Hx ->.
  - rewrite list_lookup_alter_ne by done. by destruct (list_find _ indices) as [[j x]|].
Qed.

Lemma push_project columns cols full c :
  NoDup cols -> c ∈ cols ->
  push_row columns cols (project cols full) !! c = (fun col => col ++ [default SvNull (full !! c)]) <$> columns !! c.
Proof.
  intros Hnd Hc. rewrite push_row_lookup by (done || by unfold project; rewrite length_fmap).
  destruct (list_find_elem_of (fun i => i = c) cols c Hc eq_refl) as [[j x] Hj]. rewrite Hj.
  apply list_find_Some in Hj as (Hj & -> & _). unfold project. by rewrite list_lookup_fmap, Hj.
Qed.

Lemma push_row_length columns indices row : length (push_row columns indices row) = length columns.
Proof.
  revert columns row. induction indices as [|i indices IH]; intros columns [|s row]; cbn [push_row]; [done..|].
  rewrite IH. apply length_alter.
Qed.

Lemma decode_into_full bs fields : forall pos out,
  decode_into_loop bs pos fields out =
  match decode_full_loop bs pos fields out with
  | Some (Ok vs) => Some (vs, Ok tt)
  | _ => decode_into_loop bs pos fields out
  end.
Proof.
  induction fields as [|f fields IH]; intros pos out; cbn [decode_into_loop decode_full_loop]; [done|].
  destruct (decode_column _ _ _) as [[[s next]|]|]; cbn [ubind]; [apply IH|done..].
Qed.

(** The projections the code handles: distinct columns of the schema, and either
    all of them in order or fewer. *)
Record projection_ok (schema : Schema) (cols : list nat) : Prop := {
  po_nodup : NoDup cols;
  po_bound : Forall (fun c => (c < length schema)%nat) cols;
  po_full : length cols = length schema -> cols = seq 0 (length schema);
  po_some : cols <> [];
}.

Lemma decode_visible_columns schema cols visible rows :
  projection_ok schema cols -> decodes schema visible rows -> forall columns, length columns = length schema ->
  exists columns', decode_visible schema cols visible columns = Some (Ok columns') /\ length columns' = length schema /\
    forall c, c ∈ cols -> columns' !! c = (fun col => col ++ column_values c rows) <$> columns !! c.
Proof.
  intros [Hnd Hb Hfull _]. induction 1 as [|k v visible rows Hv Hd IH|k v visible rows payload row Hv Hrow Hfit Hd IH];
    intros columns Hl; cbn [decode_visible].
  - exists columns. split; [done|]. split; [done|]. intros c _. cbn. destruct (columns !! c); cbn; [|done].
    by rewrite app_nil_r.
  - rewrite Hv. by apply IH.
  - rewrite Hv. pose proof Hrow as Hdec. rewrite decode_row_values_full in Hdec. unfold decode_row_full in Hdec.
    pose proof (decode_full_length _ _ _ _ Hdec) as Hlen.
    assert (Hpush : (if (length cols =? length schema)%nat then
        '(row, r) ← decode_row_into payload schema [];
        let! _ := Some r in decode_visible schema cols visible (push_row columns (seq 0 (length row)) row)
      else let! row := decode_row_narrow payload schema cols in
           decode_visible schema cols visible (push_row columns cols row))
      = decode_visible schema cols visible (push_row columns cols (project cols row))).
    { destruct (Nat.eqb_spec (length cols) (length schema)) as [E|E].
      - unfold decode_row_into. rewrite decode_into_full, Hdec. cbn. by rewrite (Hfull E), Hlen, project_all.
      - by rewrite narrow_decode, Hrow. }
    rewrite Hpush. destruct (IH (push_row columns cols (project cols row))) as (columns' & Ho & Hl' & Hc).
    { by rewrite push_row_length. }
    exists columns'. split; [done|]. split; [done|]. intros c Hin. rewrite Hc, push_project by done.
    destruct (columns !! c); cbn; [|done]. by rewrite <- app_assoc.
Qed.

(** ** One batch *)

Section Batches.
Context `{ArrowLib, !ArrowLaws} `{ArrowArrays, !ArrowArraysLaws}.
Context (schema : Schema) (cols : list nat) (psch : Schema).
Context (Hst : Forall (fun f => storable (fd_type f)) schema) (Hp : projection_ok schema cols).
Context (Hps : mapM (fun i => schema !! i) cols = Some psch).

Lemma projected_fields : Forall2 (fun c f => schema !! c = Some f) cols psch.
Proof. by apply mapM_Some. Qed.

(** A row as the decoder returns it. *)
Definition row_typed (row : list ScalarValue) : Prop :=
  Forall2 (fun f s => scalar_type s = Some (fd_type f)) schema row /\ row_fits schema row.

Lemma decodes_typed visible rows : decodes schema visible rows -> Forall row_typed rows.
Proof.
  induction 1 as [|k v visible rows Hv Hd IH|k v visible rows payload row Hv Hrow Hfit Hd IH]; [constructor|done|].
  constructor; [|done]. split; [|done]. rewrite decode_row_values_full in Hrow. by eapply decoded_types.
Qed.

Lemma column_typed c f rows :
  schema !! c = Some f -> Forall row_typed rows ->
  Forall (fun s => scalar_type s = Some (fd_type f)) (column_values c rows) /\
  (fd_nullable f = false -> Forall (fun s => is_null s = false) (column_values c rows)).
Proof.
  intros Hf Hr. unfold column_values. rewrite !Forall_fmap. split; [|intros Hn];
    (eapply List.Forall_impl; [|exact Hr]); intros row [Ht Hfit]; cbn.
  - destruct (Forall2_lookup_l _ _ _ _ _ Ht Hf) as (s & -> & Hs). exact Hs.
  - destruct (Forall2_lookup_l _ _ _ _ _ Hfit Hf) as (s & -> & [Hs|Hs]); [congruence|exact Hs].
Qed.

(** The array of one projected column. *)
Definition array_of (chunk : list (list ScalarValue)) (c : nat) (f : Field) : ArrowArray :=
  mkArray (fd_type f) (scalar_slot <$> column_values c chunk).

Lemma column_values_length c rows : length (column_values c rows) = length rows.
Proof. apply length_fmap. Qed.

Lemma array_of_fits chunk c f :
  schema !! c = Some f -> Forall row_typed chunk -> column_fits (length chunk) f (array_of chunk c f) = true.
Proof.
  intros Hf Hr. destruct (column_typed c f chunk Hf Hr) as [Ht Hn]. unfold column_fits, array_of. cbn.
  rewrite bool_decide_true by done. rewrite length_fmap, column_values_length, Nat.eqb_refl. cbn.
  destruct (fd_nullable f); [done|]. cbn. apply forallb_forall. intros slot (s & <- & Hs)%in_map_iff.
  destruct (scalar_slot s) eqn:E; [done|]. rewrite List.Forall_forall in Ht. specialize (Hn eq_refl).
  rewrite List.Forall_forall in Hn. apply (scalar_slot_null s _ (Ht s Hs)) in E. by rewrite (Hn s Hs) in E.
Qed.

Lemma arrays_fit chunk cs fs :
  Forall2 (fun c f => schema !! c = Some f) cs fs -> Forall row_typed chunk ->
  columns_fit (length chunk) fs (zip_with (array_of chunk) cs fs) = true.
Proof.
  intros Hcs Hr. induction Hcs as [|c f cs fs Hf Hcs IH]; [done|]. cbn [zip_with columns_fit].
  by rewrite array_of_fits.
Qed.

Lemma batch_arrays_ok columns rows start n cs fs :
  Forall2 (fun c f => schema !! c = Some f) cs fs -> Forall row_typed rows ->
  (forall c, c ∈ cs -> columns !! c = Some (column_values c rows)) -> (0 < n)%nat -> (start + n <= length rows)%nat ->
  batch_arrays columns cs (Z.of_nat start) (Z.of_nat (start + n)) = Ok (zip_with (array_of (take n (drop start rows))) cs fs).
Proof.
  intros Hcs Hr Hc Hn Hle. induction Hcs as [|c f cs fs Hf Hcs IH]; [done|]. cbn [batch_arrays zip_with].
  rewrite (Hc c) by (by left). cbn [ok_or rbind]. rewrite column_values_length.
  rewrite (proj2 (Z.leb_le _ _)), (proj2 (Z.leb_le (Z.of_nat (start + n)) _)) by lia. cbn [andb ok_or rbind].
  replace (Z.to_nat (Z.of_nat (start + n) - Z.of_nat start)) with n by lia. rewrite Nat2Z.id.
  unfold column_values. rewrite <- fmap_drop, <- fmap_take. fold (column_values c (take n (drop start rows))).
  assert (Hlen : length (take n (drop start rows)) = n) by (rewrite length_take, length_drop; lia).
  rewrite (iter_to_array_typed _ (fd_type f)).
  - cbn [rbind]. rewrite IH by (intros c' Hc'; apply Hc; by right). done.
  - intros E. apply (f_equal length) in E. rewrite column_values_length, Hlen in E. cbn in E. lia.
  - apply column_typed; [done|]. by apply Forall_take, Forall_drop.
Qed.

(** Reading the arrays back is reading the projected rows. *)
Lemma batch_columns chunk :
  zip_with (array_of chunk) cols psch = imap (fun j f => column_of (project cols <$> chunk) j (fd_type f)) psch.
Proof.
  apply list_eq. intros j. rewrite lookup_zip_with, list_lookup_imap.
  pose proof projected_fields as Hf. destruct (psch !! j) as [f|] eqn:Ej; cbn.
  - destruct (Forall2_lookup_r _ _ _ _ _ Hf Ej) as (c & Hc & _). rewrite Hc. cbn. f_equal. unfold array_of, column_of, column_values.
    f_equal. rewrite <- !list_fmap_compose. apply list_fmap_ext. intros i row _. unfold compose, project.
    by rewrite list_lookup_fmap, Hc.
  - destruct (cols !! j); done.
Qed.

Lemma projected_schema_ok :
  (if (length cols =? length schema)%nat then Ok schema else schema_project schema cols) = Ok (E := EngineError) psch.
Proof.
  unfold schema_project. rewrite Hps. cbn [ok_or]. destruct (Nat.eqb_spec (length cols) (length schema)) as [E|E]; [|done].
  f_equal. apply list_eq. intros j. pose proof projected_fields as Hf. rewrite (po_full _ _ Hp E) in Hf.
  destruct (decide (j < length schema)%nat) as [Hj|Hj].
  - assert (Hs : seq 0 (length schema) !! j = Some j) by (rewrite lookup_seq_lt; [done|lia]).
    destruct (Forall2_lookup_l _ _ _ _ _ Hf Hs) as (f & -> & Hf'). done.
  - apply Forall2_length in Hf. rewrite length_seq in Hf. rewrite !lookup_ge_None_2; [done|lia..].
Qed.

Lemma try_new_chunk chunk :
  Forall row_typed chunk ->
  try_new psch (zip_with (array_of chunk) cols psch) = Ok (batch_of psch (project cols <$> chunk)).
Proof.
  intros Hr. pose proof projected_fields as Hf.
  assert (Hrows : rows_of_columns (zip_with (array_of chunk) cols psch) = length chunk).
  { destruct cols as [|c cs]; [by destruct (po_some _ _ Hp)|].
    destruct psch as [|f fs]; [by inversion Hf|]. cbn. by rewrite length_fmap, column_values_length. }
  rewrite try_new_fits.
  - unfold batch_of. by rewrite Hrows, batch_columns, length_fmap.
  - destruct cols as [|c cs]; [by destruct (po_some _ _ Hp)|]. destruct psch; [by inversion Hf|done].
  - rewrite Hrows. by apply arrays_fit.
Qed.

Lemma build_batch_ok columns rows start n :
  Forall row_typed rows -> (forall c, c ∈ cols -> columns !! c = Some (column_values c rows)) ->
  (0 < n)%nat -> (start + n <= length rows)%nat ->
  build_batch schema columns cols (Z.of_nat start) (Z.of_nat (start + n)) =
  Ok (batch_of psch (project cols <$> take n (drop start rows))).
Proof.
  intros Hr Hc Hn Hle. unfold build_batch. rewrite (batch_arrays_ok _ rows _ _ _ psch) by (done || apply projected_fields).
  cbn [rbind]. rewrite projected_schema_ok. cbn [rbind]. by rewrite try_new_chunk by (by apply Forall_take, Forall_drop).
Qed.

(** ** The slicing loop *)

Lemma slice_loop_ok columns rows batch_size fuel : forall start batches,
  Forall row_typed rows -> (forall c, c ∈ cols -> columns !! c = Some (column_values c rows)) ->
  1 <= batch_size <= u64_max -> 2 * Z.of_nat (length rows) <= u64_max ->
  (start = 0%nat \/ batch_size <= Z.of_nat (length rows) \/ start = length rows) -> (start <= length rows)%nat -> (length rows - start <= fuel)%nat ->
  exists chunks,
    slice_loop fuel schema columns cols (Z.of_nat (length rows)) batch_size (Z.of_nat start) batches
    = Some (Ok (batches ++ (batch_of psch <$> chunks))) /\
    concat chunks = project cols <$> drop start rows /\
    Forall (fun chunk => Z.of_nat (length chunk) <= batch_size) chunks.
Proof.
  induction fuel as [|fuel IH]; intros start batches Hr Hc Hb Hn Hst0 Hle Hf; cbn [slice_loop].
  all: destruct (Z.ltb_spec (Z.of_nat start) (Z.of_nat (length rows))) as [Hlt|Hge]; cbn [negb]; [|];
    try lia; try (exists []; rewrite app_nil_r, drop_ge by lia; done).
  unfold checked_add. rewrite (proj2 (Z.leb_le _ _)) by lia. cbn [mbind option_bind].
  set (n := Nat.min (Z.to_nat batch_size) (length rows - start)).
  replace (Z.min (Z.of_nat start + batch_size) (Z.of_nat (length rows))) with (Z.of_nat (start + n)) by lia.
  rewrite (build_batch_ok _ rows) by (done || lia). cbn [ubind].
  assert (Hn1 : (1 <= n)%nat /\ (start + n <= length rows)%nat) by lia.
  destruct (IH (start + n)%nat (batches ++ [batch_of psch (project cols <$> take n (drop start rows))]))
    as (chunks & Ho & Hcat & Hch); [done|done|done|done| |lia|lia|].
  { lia. }
  exists ((project cols <$> take n (drop start rows)) :: chunks). split; [|split].
  - rewrite Ho. cbn [fmap list_fmap]. by rewrite <- app_assoc.
  - cbn [concat]. by rewrite Hcat, <- fmap_app, <- drop_drop, take_drop.
  - constructor; [|done]. rewrite length_fmap, length_take. lia.
Qed.

(** ** The whole conversion *)

Lemma validate_projection_ok : validate_projection schema cols = Ok tt.
Proof.
  unfold validate_projection. pose proof (po_bound _ _ Hp) as Hb. destruct cols as [|c cs] eqn:E; [done|].
  rewrite <- E in *. destruct (Nat.leb_spec (length schema) (list_max cols)) as [Hle|]; [|done]. exfalso.
  assert (Hlt : (list_max cols < length schema)%nat); [|lia].
  rewrite E in *. apply list_max_lt; [done|]. apply List.Forall_forall. intros x Hx.
  rewrite List.Forall_forall in Hb. by apply Hb.
Qed.

Lemma empty_is_batch_of : new_empty psch = batch_of psch [].
Proof.
  unfold new_empty, batch_of. f_equal. apply list_eq. intros j. rewrite list_lookup_imap, list_lookup_fmap. done.
Qed.

(** The columns a scan decodes. *)
Definition scanned (projection : option (list nat)) : list nat :=
  match projection with Some proj => proj | None => seq 0 (length schema) end.

Lemma empty_batches_ok projection :
  cols = scanned projection -> empty_batches schema projection = Ok [batch_of psch []].
Proof.
  intros E. unfold empty_batches. rewrite <- empty_is_batch_of. destruct projection as [proj|]; cbn in E.
  - rewrite <- E, validate_projection_ok. cbn [rbind]. unfold schema_project. by rewrite Hps.
  - pose proof projected_schema_ok as Hs. rewrite E, length_seq, Nat.eqb_refl in Hs. injection Hs as ->. done.
Qed.

Lemma rows_to_batches_ok schemas table visible projection fallback batch_size rows :
  match om_get table schemas with Some sc => Some sc | None => fallback end = Some schema ->
  cols = scanned projection -> decodes schema visible rows ->
  1 <= batch_size <= u64_max -> 2 * Z.of_nat (length rows) <= u64_max ->
  exists chunks,
    rows_to_batches schemas table visible projection fallback batch_size = Some (Ok (batch_of psch <$> chunks)) /\
    concat chunks = project cols <$> rows /\ Forall (fun chunk => Z.of_nat (length chunk) <= batch_size) chunks.
Proof.
  intros Hsch Hcols Hd Hb Hn. unfold rows_to_batches. rewrite Hsch. cbn [ok_or ubind].
  fold (scanned projection). rewrite <- Hcols.
  assert (Hv : match projection with Some proj => validate_projection schema proj | None => Ok tt end = Ok tt).
  { destruct projection as [proj|]; [|done]. cbn in Hcols. rewrite <- Hcols. apply validate_projection_ok. }
  rewrite Hv. cbn [ubind].
  destruct (decode_visible_columns schema cols visible rows Hp Hd (replicate (length schema) []) (length_replicate _ _))
    as (columns & Ho & Hl & Hc). rewrite Ho. cbn [ubind].
  assert (Hcol : forall c, c ∈ cols -> columns !! c = Some (column_values c rows)).
  { intros c Hin. rewrite Hc by done. rewrite lookup_replicate_2; [done|].
    pose proof (po_bound _ _ Hp) as Hbd. rewrite List.Forall_forall in Hbd. by apply Hbd, list_elem_of_In. }
  destruct rows as [|row rows].
  - rewrite (proj2 (forallb_forall _ _)) by (intros c Hin%list_elem_of_In; by rewrite Hcol).
    rewrite (empty_batches_ok projection Hcols). exists [[]]. split; [done|]. split; [done|]. constructor; [cbn; lia|constructor].
  - set (rs := row :: rows) in *. pose proof (po_some _ _ Hp) as Hne.
    destruct (forallb _ cols) eqn:Ef.
    { exfalso. rewrite forallb_forall in Ef. destruct cols as [|c cs]; [done|].
      specialize (Ef c (or_introl eq_refl)). by rewrite Hcol in Ef by (by left). }
    assert (Htot : match cols with
      | idx :: _ => match columns !! idx with Some col => length col | None => 0%nat end
      | [] => 0%nat end = length rs).
    { destruct cols as [|c cs]; [done|]. by rewrite Hcol, column_values_length by (by left). }
    rewrite Htot. destruct (slice_loop_ok columns rs batch_size (length rs) 0 []) as (chunks & Hs & Hcat & Hch);
      [by eapply decodes_typed|done|done|done|by left|lia|lia|]. by exists chunks.
Qed.
End Batches.

(** ** Scans of a tree with files at level 0 only *)

Lemma decodes_entries schema (visible : omap bytes VersionedValue) :
  om_sorted visible ->
  (forall k v payload, In (k, v) visible -> value v = Some payload ->
     exists row, decode_row_values payload schema = Some (Ok row) /\ row_fits schema row) ->
  exists entries : list (bytes * list ScalarValue),
    decodes schema visible (map snd entries) /\ StronglySorted clt (map fst entries) /\
    forall k row, In (k, row) entries <-> exists v payload, In (k, v) visible /\ value v = Some payload /\
      decode_row_values payload schema = Some (Ok row).
Proof.
  induction visible as [|[k v] visible IH]; intros Hs Hd.
  - exists []. split; [constructor|]. split; [constructor|]. intros k row. split; [done|]. by intros (? & ? & [] & _).
  - unfold om_sorted in Hs. cbn in Hs. apply StronglySorted_inv in Hs as [Hs Hlt].
    destruct IH as (entries & Hdec & Hsort & Hin); [done|intros k' v' p Hx; apply (Hd k' v' p); by right|].
    destruct (value v) as [payload|] eqn:Hv.
    + destruct (Hd k v payload (or_introl eq_refl) Hv) as (row & Hrow & Hfit). exists ((k, row) :: entries).
      split; [by eapply dec_live|]. split.
      * cbn. constructor; [done|]. rewrite List.Forall_forall in Hlt |- *. intros k' ([k0 row0] & <- & Hx)%in_map_iff.
        apply Hin in Hx as (v0 & _ & Hx & _). apply Hlt. apply in_map_iff. by exists (k0, v0).
      * intros k' row'. split.
        -- intros [[= <- <-]|(v0 & p & Hx & ?)%Hin]; [exists v, payload; split; [by left|done]|exists v0, p; split; [by right|done]].
        -- intros (v0 & p & [[= <- <-]|Hx] & Hv0 & Hr); [left; congruence|right; apply Hin; by exists v0, p].
    + exists entries. split; [by apply dec_dead|]. split; [done|]. intros k' row'. rewrite Hin. split.
      * intros (v0 & p & Hx & ?). exists v0, p. split; [by right|done].
      * intros (v0 & p & [[= <- <-]|Hx] & Hv0 & Hr); [congruence|by exists v0, p].
Qed.

Section TableScan.
Context {hw : Crc32Hw} {T H : Type} `{MemTableBackend T} `{EngineHook H} `{!MemTableLaws T}.
Context `{VortexLib} `{!VortexLaws} `{ScalarOrd} `{ArrowLib, !ArrowLaws} `{ArrowArrays, !ArrowArraysLaws}.
#[local] Abbreviation Lsm := (Lsm (T := T) (H := H)).

Lemma merge_l0_ok (l : Lsm) stats table lower upper s schema_ref ids vis S :
  (forall f, In f ids -> exists rows, file_rows l f rows) -> collects vis S ->
  exists vis', merge_l0 l stats table lower upper s None schema_ref ids vis = Some (Ok vis') /\
    collects vis' (fun k v => S k v \/
      in_files l ids (fun r => in_range lower upper (row_key r) && sees s (row_version r)) k v).
Proof.
  revert vis S. induction ids as [|f ids IH]; intros vis S Hids Hc; cbn [merge_l0].
  - exists vis. split; [done|]. eapply collects_ext; [|exact Hc]. intros k v. split; [by left|].
    by intros [?|(? & ? & ? & [] & _)].
  - destruct (Hids f (or_introl eq_refl)) as (rows & Hr). pose proof Hr as (file & Hg & Hh).
    rewrite Hg. unfold scan_with_filter. cbn [default map List.filter].
    rewrite (sst_scan_holds _ _ _ _ _ Hh). cbn [ubind].
    set (kept := List.filter _ rows). rewrite (fold_skip (fun row => is_dropped_prefix l (row_key row))).
    destruct (IH _ _ (fun f Hf => Hids f (or_intror Hf))
                (collects_fold row_key row_version (fun row => negb (is_dropped_prefix l (row_key row)))
                  kept vis S Hc)) as (vis' & Ho & Hc').
    exists vis'. split; [exact Ho|]. eapply collects_ext; [|exact Hc']. intros k v.
    rewrite (in_files_cons l f ids _ k v rows Hr). unfold kept. setoid_rewrite filter_In.
    setoid_rewrite negb_true_iff. split.
    + intros [[?|(r & [? ?] & ? & ?)]|?]; [tauto| |tauto]. right. left. exists r. tauto.
    + intros [?|[(r & ? & [? ?] & ?)|?]]; [tauto| |tauto]. left. right. exists r. tauto.
Qed.

(** Every live file is at level 0. *)
Definition only_l0 (l : Lsm) : Prop :=
  forall level f, level_has (vs_levels (version_set l)) level f = true -> level = 0.

Lemma l0_files (l : Lsm) f : only_l0 l -> In f (vs_files (version_set l) 0) <-> live l f.
Proof.
  intros Hl0. rewrite vs_files_level. unfold live. split; [by exists 0|]. intros [level Hl].
  by rewrite (Hl0 _ _ Hl) in Hl.
Qed.

Lemma no_deep_files (l : Lsm) fuel : only_l0 l -> deep_files fuel (version_set l) 1 = Some [].
Proof.
  intros Hl0. assert (E : vs_files (version_set l) 1 = []); [|destruct fuel; cbn [deep_files]; by rewrite E].
  destruct (vs_files (version_set l) 1) as [|f fs] eqn:E; [done|]. exfalso.
  assert (Hin : In f (vs_files (version_set l) 1)) by (rewrite E; by left).
  apply vs_files_level in Hin. by apply Hl0 in Hin.
Qed.

Lemma table_prefix_finite table : finite_prefix (table_prefix table) = true.
Proof. unfold finite_prefix, table_prefix. rewrite existsb_app. cbn. apply orb_true_r. Qed.

Lemma table_not_dropped (l : Lsm) table k :
  no_nul table -> starts_with k (table_prefix table) = true ->
  is_dropped_prefix l k = is_dropped_prefix l (table_prefix table).
Proof.
  intros Hn [q ->]%starts_with_inv. unfold is_dropped_prefix, table_prefix. rewrite <- app_assoc. cbn [app].
  by rewrite !key_table_prefix_app.
Qed.

(** What the first partition merges: the newest commit of every key of the table. *)
Lemma table_visible w (l : Lsm) h table s stats schema_ref :
  lsm_rep w l h -> no_nul table -> is_dropped_prefix l (table_prefix table) = false -> only_l0 l ->
  w <= s -> s < OPEN_ENDED_TS ->
  exists mem_rows vis,
    mt_scan_prefix_versions (mem l) (table_prefix table) (mkSnapshot s) = Some mem_rows /\
    merge_l0 l stats table (table_prefix table) (prefix_upper_exclusive (table_prefix table)) (mkSnapshot s) None
      schema_ref (vs_files (version_set l) 0) (fold_left (fun visible e => insert_newest visible e.1 e.2) mem_rows [])
    = Some (Ok vis) /\ om_sorted vis /\
    forall k val, (exists v, om_get k vis = Some v /\ value v = val) <->
      starts_with k (table_prefix table) = true /\ exists t, newest (h k) s t val.
Proof.
  intros Hrep Hnul Hdrop Hl0 Hw Hs. pose proof (lr_mem _ _ _ Hrep) as Hmem. destruct (mt_map_wf _ Hmem) as [Hsort _].
  set (p := table_prefix table) in *. eexists. rewrite (mt_scan_prefix_ok _ _ _ Hmem).
  rewrite (table_prefix_finite table : finite_prefix p = true).
  set (rows := push_visible (fun k => starts_with k p) (mkSnapshot s) (mt_map (mem l))).
  pose proof (collects_fold fst snd (fun _ => true) rows [] _ collects_nil) as Hc0.
  destruct (merge_l0_ok l stats table p (prefix_upper_exclusive p) (mkSnapshot s) schema_ref
    (vs_files (version_set l) 0) _ _
    (fun f Hf => lr_disk _ _ _ Hrep f (proj1 (l0_files l f Hl0) Hf)) Hc0) as (vis & Ho & Hc).
  exists vis. split; [done|]. split; [exact Ho|]. split; [apply (cl_sorted _ _ Hc)|]. intros k val.
  assert (Hrange : forall k, in_range p (prefix_upper_exclusive p) k = starts_with k p).
  { intros k'. rewrite in_prefix_range. unfold prefix_keys. by rewrite (table_prefix_finite table : finite_prefix p = true). }
  destruct (starts_with k p) eqn:Hk.
  - rewrite (rep_reads w l h k s vis _ Hrep Hw Hs Hc); [by split; [|intros [_ ?]]|]. intros x. split.
    + intros [[[]|([k' x'] & Hr & _ & <- & <-)]|(f & rs & r & Hf & Hr & Hr' & Hp & _ & <- & <-)].
      * left. apply push_visible_found in Hr as (_ & c & Hg & Hv); [|done]. exists c.
        split; [done|]. by apply (mem_visible l _ k' x' c Hmem Hg).
      * right. apply l0_files in Hf; [|done]. apply andb_true_iff in Hp as [_ Hp]. by exists f, rs, r.
    + intros [(c & Hg & Hx)|(f & rs & r & Hf & Hr & Hr' & <- & <- & Hv)].
      * left. right. exists (k, x). split; [|done]. apply push_visible_found; [done|]. split; [done|].
        exists c. split; [done|]. by apply (mem_visible l _ k x c Hmem Hg).
      * right. exists f, rs, r. rewrite (l0_files l f Hl0), Hrange, Hk, Hv, (table_not_dropped l table) by done. done.
  - split; [|by intros [? _]]. intros (x & Hg & _).
    destruct (cl_newest _ _ Hc k x Hg) as [[[[]|([k' x'] & Hr & _ & <- & <-)]|(f & rs & r & _ & _ & _ & Hp & _ & <- & _)] _].
    + apply push_visible_found in Hr as [Hr _]; [|done]. cbn in Hk. by rewrite Hk in Hr.
    + by rewrite Hrange, Hk in Hp.
Qed.

Lemma table_scan_run (w : TxnTs) (l : Lsm) (h : bytes -> values) (stats : ColumnStats) (table : bytes)
    (projection : option (list nat)) (fallback : option Schema) (batch_size : Z) (schema psch : Schema) :
  let s := snapshot_ts (l_engine l) in
  lsm_run w l h -> w <= s -> only_l0 l -> no_nul table -> is_dropped_prefix l (table_prefix table) = false ->
  om_get table (l_schemas l) = Some schema -> Forall (fun f => storable (fd_type f)) schema ->
  projection_ok schema (scanned schema projection) ->
  mapM (fun i => schema !! i) (scanned schema projection) = Some psch -> 1 <= batch_size <= u64_max ->
  (forall k t v, starts_with k (table_prefix table) = true -> newest (h k) s t (Some v) ->
     exists row, decode_row_values v schema = Some (Ok row) /\ row_fits schema row) ->
  exists entries : list (bytes * list ScalarValue), StronglySorted clt (map fst entries) /\
    (forall k row, In (k, row) entries <-> starts_with k (table_prefix table) = true /\
       exists t v, newest (h k) s t (Some v) /\ decode_row_values v schema = Some (Ok row)) /\
    (2 * Z.of_nat (length entries) <= u64_max -> exists chunks,
       scan_table_arrow l stats table projection fallback batch_size None
       = Some (Ok [batch_of psch <$> chunks]) /\
       concat chunks = project (scanned schema projection) <$> map snd entries /\
       Forall (fun chunk => Z.of_nat (length chunk) <= batch_size) chunks).
Proof.
  intros s Hrun Hw Hl0 Hnul Hdrop Hsch Hst Hp Hps Hb Hdec. pose proof (lsm_run_rep _ _ _ Hrun) as Hrep.
  assert (Hs : s < OPEN_ENDED_TS).
  { pose proof (lr_seq _ _ _ Hrep) as Hq. unfold OPEN_ENDED_TS in *. rewrite u64_max_val in *.
    unfold s, snapshot_ts, saturating_sub. lia. }
  destruct (table_visible w l h table s stats (Some schema) Hrep Hnul Hdrop Hl0 Hw Hs) as (mrows & vis & Hm & Hv & Hsort & Hvis).
  destruct (decodes_entries schema vis Hsort) as (entries & Hd & Hes & Hein).
  { intros k v payload Hin Hpay. destruct (proj1 (Hvis k (Some payload))) as (Hk & t & Ht).
    - exists v. split; [by apply om_In_get|done].
    - by apply (Hdec k t). }
  exists entries. split; [done|]. split.
  { intros k row. rewrite Hein. split.
    - intros (v & payload & Hin & Hpay & Hrow). destruct (proj1 (Hvis k (Some payload))) as (Hk & t & Ht).
      + exists v. split; [by apply om_In_get|done].
      + split; [done|]. by exists t, payload.
    - intros (Hk & t & payload & Ht & Hrow). destruct (proj2 (Hvis k (Some payload))) as (v & Hg & Hpay); [by split; [|exists t]|].
      exists v, payload. split; [by apply om_get_In|done]. }
  intros Hlen. unfold scan_table_arrow. rewrite Hsch, Hdrop. cbn [ok_or ubind]. fold (mem l) s. rewrite Hm.
  cbn [mbind option_bind]. rewrite Hv. cbn [ubind]. rewrite no_deep_files by done. cbn [List.filter mapM mbind option_bind gather].
  pose proof (empty_batches_ok schema (scanned schema projection) psch Hst Hp Hps projection eq_refl) as He.
  destruct vis as [|x vis].
  - assert (Hnil : map snd entries = []) by (by inversion Hd). exists [[]]. cbn [ubind mret option_ret gather]. rewrite He.
    split; [done|]. split; [by rewrite Hnil|]. constructor; [cbn; lia|constructor].
  - set (vs := x :: vis) in *.
    destruct (rows_to_batches_ok schema (scanned schema projection) psch Hst Hp Hps (l_schemas l) table vs projection
      (Some schema) batch_size (map snd entries)) as (chunks & Ho & Hcat & Hch).
    + by rewrite Hsch.
    + done.
    + done.
    + done.
    + by rewrite length_map.
    + rewrite Ho. cbn [ubind mret option_ret gather]. destruct chunks as [|c chunks].
      * exists [[]]. cbn [fmap list_fmap ubind gather]. rewrite He. split; [done|]. split; [by rewrite <- Hcat|].
        constructor; [cbn; lia|constructor].
      * exists (c :: chunks). by cbn [fmap list_fmap ubind gather].
Qed.

(** C13: a table scan without predicates reads the commit history. After any run
    that left every file at level 0, take a table that is registered and not
    dropped, of storable column types, whose stored values decode with no null in a
    column declared without; and a projection of distinct columns in range, not
    empty, that lists all columns in order or fewer. With a batch size of at least
    one, the scan returns one partition: the rows whose key is in the table and
    whose newest commit is a value, decoded, projected and in key order, cut into
    batches of at most [batch_size] rows; the slicing loop terminates. *)
Theorem table_scan_exact (w : TxnTs) (l : Lsm) (h : bytes -> values) (stats : ColumnStats) (table : bytes)
    (projection : option (list nat)) (fallback : option Schema) (batch_size : Z) (schema psch : Schema) :
  let s := snapshot_ts (l_engine l) in
  lsm_run w l h -> w <= s -> only_l0 l -> no_nul table -> is_dropped_prefix l (table_prefix table) = false ->
  om_get table (l_schemas l) = Some schema -> Forall (fun f => storable (fd_type f)) schema ->
  projection_ok schema (scanned schema projection) ->
  mapM (fun i => schema !! i) (scanned schema projection) = Some psch -> 1 <= batch_size <= u64_max ->
  (forall k t v, starts_with k (table_prefix table) = true -> newest (h k) s t (Some v) ->
     exists row, decode_row_values v schema = Some (Ok row) /\ row_fits schema row) ->
  exists entries : list (bytes * list ScalarValue), StronglySorted clt (map fst entries) /\
    (forall k row, In (k, row) entries <-> starts_with k (table_prefix table) = true /\
       exists t v, newest (h k) s t (Some v) /\ decode_row_values v schema = Some (Ok row)) /\
    (2 * Z.of_nat (length entries) <= u64_max -> exists chunks,
       scan_table_arrow l stats table projection fallback batch_size None
       = Some (Ok [batch_of psch <$> chunks]) /\
       concat chunks = project (scanned schema projection) <$> map snd entries /\
       Forall (fun chunk => Z.of_nat (length chunk) <= batch_size) chunks).
Proof. apply table_scan_run. Qed.
End TableScan.

(** ** Files read column by column *)

(** The loop over levels ends: each level it passes is one of the version set's. *)
Lemma deep_files_total vs level fuel :
  (length (List.filter (fun e => Z.leb level e.1) (vs_levels vs)) <= fuel)%nat -> is_Some (deep_files fuel vs level).
Proof.
  revert level. induction fuel as [|fuel IH]; intros level Hf; cbn [deep_files].
  all: destruct (vs_files vs level) as [|f fs] eqn:E; [done|].
  all: unfold vs_files in E; destruct (om_get level (vs_levels vs)) as [files|] eqn:Eg; [|done]; apply om_get_In in Eg.
  - exfalso. assert (Hin : In (level, files) (List.filter (fun e => Z.leb level e.1) (vs_levels vs)))
      by (apply filter_In; split; [done|]; cbn; lia).
    destruct (List.filter _ _); [done|cbn in Hf; lia].
  - destruct (IH (level + 1)) as [rest ->]; [|done].
    enough (Hlt : (length (List.filter (fun e => Z.leb (level + 1) e.1) (vs_levels vs))
                   < length (List.filter (fun e => Z.leb level e.1) (vs_levels vs)))%nat) by lia.
    clear -Eg. induction (vs_levels vs) as [|[n x] m IH]; [done|]. cbn [List.filter fst].
    assert (Hle : (length (List.filter (fun e => Z.leb (level + 1) e.1) m) <= length (List.filter (fun e => Z.leb level e.1) m))%nat).
    { clear. induction m as [|[n x] m IH]; [done|]. cbn [List.filter fst].
      destruct (Z.leb_spec (level + 1) n), (Z.leb_spec level n); cbn; lia. }
    destruct Eg as [[= -> ->]|Hin].
    + destruct (Z.leb_spec (level + 1) level), (Z.leb_spec level level); cbn; lia.
    + specialize (IH Hin). destruct (Z.leb_spec (level + 1) n), (Z.leb_spec level n); cbn; lia.
Qed.

Lemma deep_files_enough vs level : is_Some (deep_files (length (vs_levels vs)) vs level).
Proof. apply deep_files_total, List.filter_length_le. Qed.

(** A cell built from a decoded value is the value's slot. *)
Lemma build_cell_slot `{VortexLib} t s :
  pushable_type t = true -> scalar_type s = Some t ->
  cell_fits t (build_cell t s) /\ cell_slot (build_cell t s) = scalar_slot s.
Proof.
  intros Hp Ht. destruct t; try done; destruct s as [|[]|[]|[]|[]|[]|[]|[]|[]|[]|[]|[]|[]|[]|[]|[]|[]|[]| | | | |[]|[]|[]|[]|[]|[]|[]|[]|[]|[]|[]|]; done.
Qed.

Lemma pushable_storable t : pushable_type t = true -> storable t.
Proof. by destruct t. Qed.

Section Columnar.
Context `{VortexLib, !VortexLaws} `{ArrowLib, !ArrowLaws} `{ArrowArrays, !ColumnLaws}.
Context (schema : Schema) (cols : list nat) (psch : Schema).
Context (Hpush : Forall (fun f => pushable_type (fd_type f) = true) schema) (Hp : projection_ok schema cols).
Context (Hps : mapM (fun i => schema !! i) cols = Some psch).

(** A row of the file whose payload decodes to [row]. *)
Definition row_decodes (r : VersionedRow) (row : list ScalarValue) : Prop :=
  exists payload, value (row_version r) = Some payload /\ decode_row_values payload schema = Some (Ok row) /\ row_fits schema row.

Lemma row_decodes_typed r row : row_decodes r row -> row_typed schema row.
Proof.
  intros (payload & _ & Hd & Hf). split; [|done]. rewrite decode_row_values_full in Hd.
  eapply decoded_types; [|exact Hd]. eapply List.Forall_impl; [|exact Hpush]. intros f. apply pushable_storable.
Qed.

(** A row of the file as its columns hold it. *)
Definition cells_of (c : Columns) (row : list ScalarValue) : Prop :=
  row_decodes (row_of c) row /\ col_cells c = zip_with (fun f s => build_cell (fd_type f) s) schema row.

Lemma column_cells rows drows c f :
  Forall2 cells_of rows drows -> schema !! c = Some f ->
  mapM (fun x => col_cells x !! c) rows = Some ((fun s => build_cell (fd_type f) s) <$> column_values c drows).
Proof.
  intros Hr Hf. apply mapM_Some. unfold column_values. rewrite <- list_fmap_compose. apply Forall2_fmap_r.
  eapply Forall2_impl; [exact Hr|]. intros x row [Hd ->]. rewrite lookup_zip_with, Hf. cbn.
  destruct (row_decodes_typed _ _ Hd) as [Ht _]. by destruct (Forall2_lookup_l _ _ _ _ _ Ht Hf) as (s & -> & _).
Qed.

Lemma drows_typed rows drows : Forall2 cells_of rows drows -> Forall (row_typed schema) drows.
Proof. induction 1 as [|x row rows drows [Hd _] _ IH]; constructor; [by eapply row_decodes_typed|done]. Qed.

Lemma arrow_columns_ok rows drows cs fs :
  Forall2 cells_of rows drows -> Forall2 (fun c f => schema !! c = Some f) cs fs ->
  arrow_columns schema rows cs = Some (Ok (zip_with (array_of drows) cs fs)).
Proof.
  intros Hr. induction 1 as [|c f cs fs Hf _ IH]; [done|]. cbn [arrow_columns zip_with].
  rewrite Hf. cbn [mbind option_bind]. rewrite (column_cells rows drows c f Hr Hf). cbn [ok_or ubind].
  destruct (column_typed schema c f drows Hf (drows_typed _ _ Hr)) as [Ht _].
  assert (Hpf : pushable_type (fd_type f) = true) by (by eapply Forall_lookup_1 in Hpush).
  rewrite execute_arrow_typed; [|done|].
  - rewrite IH. cbn [ubind]. do 3 f_equal. unfold array_of. f_equal. rewrite <- list_fmap_compose.
    apply list_fmap_ext. intros i s Hs. unfold compose. eapply build_cell_slot; [done|]. by eapply Forall_lookup_1 in Ht.
  - apply Forall_fmap. eapply List.Forall_impl; [|exact Ht]. intros s Hs. by apply build_cell_slot.
Qed.

Lemma array_slice_of drows start n c f :
  array_slice start n (array_of drows c f) = array_of (take n (drop start drows)) c f.
Proof. unfold array_slice, array_of, column_values. cbn. by rewrite !fmap_take, !fmap_drop. Qed.

Lemma slice_arrays_ok drows batch_size fuel : forall start batches,
  Forall (row_typed schema) drows -> (0 < batch_size)%nat -> (start <= length drows)%nat -> (length drows - start <= fuel)%nat ->
  exists chunks,
    slice_arrays fuel psch (zip_with (array_of drows) cols psch) (length drows) batch_size start batches
    = Some (Ok (batches ++ (batch_of psch <$> chunks))) /\
    concat chunks = project cols <$> drop start drows /\ Forall (fun chunk => (length chunk <= batch_size)%nat) chunks.
Proof.
  induction fuel as [|fuel IH]; intros start batches Hr Hb Hle Hf; cbn [slice_arrays].
  all: destruct (Nat.ltb_spec start (length drows)) as [Hlt|Hge]; cbn [negb];
    try lia; try (exists []; rewrite app_nil_r, drop_ge by lia; done).
  set (n := Nat.min batch_size (length drows - start)).
  replace (Nat.min (start + batch_size) (length drows)) with (start + n)%nat by lia.
  replace (start + n - start)%nat with n by lia.
  assert (Hs : array_slice start n <$> zip_with (array_of drows) cols psch
               = zip_with (array_of (take n (drop start drows))) cols psch).
  { clear. generalize psch. induction cols as [|c cs IH]; intros [|f fs]; cbn [zip_with fmap list_fmap]; [done..|].
    by rewrite array_slice_of, <- IH. }
  rewrite Hs, (try_new_chunk schema) by (done || by apply Forall_take, Forall_drop). cbn [ubind].
  assert (Hn1 : (1 <= n)%nat /\ (start + n <= length drows)%nat) by lia.
  destruct (IH (start + n)%nat (batches ++ [batch_of psch (project cols <$> take n (drop start drows))]))
    as (chunks & Ho & Hcat & Hch); [done|done|lia|lia|].
  exists ((project cols <$> take n (drop start drows)) :: chunks). split; [|split].
  - rewrite Ho. cbn [fmap list_fmap]. by rewrite <- app_assoc.
  - cbn [concat]. by rewrite Hcat, <- fmap_app, <- drop_drop, take_drop.
  - constructor; [|done]. rewrite length_fmap, length_take. lia.
Qed.

Lemma visible_cells src fcols (q : Columns -> bool) :
  mapM (columns_of (Some schema)) src = Some fcols ->
  (forall r, In r (collect_rows (List.filter q fcols)) -> exists row, row_decodes r row) ->
  exists drows, Forall2 cells_of (List.filter q fcols) drows.
Proof.
  intros Hm%mapM_Some. induction Hm as [|r c src fcols Hc _ IH]; intros Hd; [exists []; constructor|].
  cbn [List.filter] in Hd |- *. destruct (q c); [|by apply IH]. cbn [collect_rows map] in Hd.
  destruct IH as [drows Hdr]; [intros r' Hr'; apply Hd; by right|]. destruct (Hd _ (or_introl eq_refl)) as [row Hrow].
  exists (row :: drows). constructor; [|done]. split; [done|]. unfold columns_of in Hc.
  destruct Hrow as (payload & Hv & Hdec & _). rewrite (columns_of_row (Some schema) r c Hc) in Hv. cbn in Hv.
  rewrite Hv in Hc. cbn [business_cells] in Hc. rewrite Hdec in Hc. cbn in Hc. by injection Hc as <-.
Qed.

Lemma projected_cols projection :
  cols = scanned schema projection ->
  match projection with Some proj => schema_project schema proj | None => Ok schema end = Ok psch.
Proof.
  intros E. destruct projection as [proj|]; cbn in E.
  - unfold schema_project. by rewrite <- E, Hps.
  - pose proof (projected_schema_ok schema cols psch Hp Hps) as Hs.
    by rewrite E, length_seq, Nat.eqb_refl in Hs.
Qed.

(** C30: reading columns is reading rows. On a file of numeric and string columns
    whose visible rows in the range are values that decode, without predicates, and
    with a projection of distinct columns in range, not empty, that lists all
    columns in order or fewer, the direct read of the columns returns, projected and
    cut into batches, exactly what decoding the visible rows gives; its loop
    terminates. *)
Theorem columnar_scan_exact (projection : option (list nat)) (f : vfile) (rows : list VersionedRow) (lower upper : bytes)
    (s : Snapshot) (batch_size : Z) :
  cols = scanned schema projection -> sst_wrote (Some schema) f rows ->
  (forall r, In r rows -> in_range lower upper (row_key r) && sees s (row_version r) = true -> exists row, row_decodes r row) ->
  exists drows chunks,
    Forall2 row_decodes (List.filter (fun r => in_range lower upper (row_key r) && sees s (row_version r)) rows) drows /\
    scan_to_arrow_batches (Some f) lower upper s [] projection schema batch_size = Some (Ok (batch_of psch <$> chunks)) /\
    concat chunks = project cols <$> drows /\
    (batch_size <> u64_max -> Forall (fun chunk => Z.of_nat (length chunk) <= Z.max batch_size 1) chunks).
Proof.
  intros Hcols (src & fcols & Hm & Hw & ->) Hd. set (q := expr_holds (range_expr lower upper s)).
  assert (Hrows : collect_rows (List.filter q fcols)
    = List.filter (fun r => in_range lower upper (row_key r) && sees s (row_version r)) (map stored src)).
  { eapply filter_wrote_all; [done|]. intros c. apply range_expr_holds. }
  destruct (visible_cells src fcols q Hm) as [drows Hdr].
  { intros r. rewrite Hrows, filter_In. intros [Hin Hv]. by apply Hd. }
  assert (Hdec : Forall2 row_decodes (collect_rows (List.filter q fcols)) drows).
  { unfold collect_rows. apply Forall2_fmap_l. eapply Forall2_impl; [exact Hdr|]. by intros c row [? _]. }
  rewrite Hrows in Hdec. exists drows. unfold scan_to_arrow_batches, scan_filter. cbn [fold_left ok_or ubind].
  rewrite (vortex_scan_filter _ _ _ Hw) by (apply forallb_ok, range_expr_ok). fold q. cbn [ubind].
  fold (scanned schema projection). rewrite <- Hcols.
  destruct (List.filter q fcols) as [|c0 cs] eqn:Ef.
  - apply Forall2_nil_inv_l in Hdr as ->. exists [[]]. rewrite (projected_cols projection Hcols). cbn [rbind].
    rewrite (empty_is_batch_of psch). split; [done|]. split; [done|]. split; [done|]. intros _. constructor; [cbn; lia|constructor].
  - rewrite <- Ef in *. set (vis := List.filter q fcols) in *.
    rewrite (arrow_columns_ok vis drows cols psch Hdr) by (by apply mapM_Some). cbn [ubind].
    rewrite (projected_schema_ok schema cols psch Hp Hps). cbn [ubind].
    rewrite (Forall2_length _ _ _ Hdr). set (bs := if batch_size =? u64_max then _ else _).
    assert (Hpos : (0 < length drows)%nat) by (rewrite <- (Forall2_length _ _ _ Hdr), Ef; cbn; lia).
    destruct (slice_arrays_ok drows (Z.to_nat bs) (length drows) 0 []) as (chunks & Ho & Hcat & Hch); [by eapply drows_typed| |lia|lia|].
    { unfold bs. destruct (batch_size =? u64_max); lia. }
    exists chunks. split; [done|]. split; [exact Ho|]. split; [exact Hcat|]. intros Hne.
    eapply List.Forall_impl; [|exact Hch]. intros chunk Hl. cbn in Hl. unfold bs in Hl.
    rewrite (proj2 (Z.eqb_neq _ _) Hne) in Hl. lia.
Qed.
End Columnar.

(** ** Witness and findings *)

(** Arrow's conversions on slots. *)
Definition slot_arrays : ArrowArrays := {|
  iter_to_array svs :=
    match svs with
    | [] => Err "empty iterator"%string
    | s :: _ =>
        match scalar_type s with
        | None => Err "no type"%string
        | Some t => if bool_decide (Forall (fun s => scalar_type s = Some t) svs)
                    then Ok (mkArray t (scalar_slot <$> svs)) else Err "mixed types"%string
        end
    end;
  execute_arrow f cells := Ok (mkArray (fd_type f) (cell_slot <$> cells));
|}.

Lemma slot_arrays_laws : @ArrowArraysLaws slot_arrays.
Proof.
  split. intros [|s svs] t Hne Hf; [done|]. unfold iter_to_array, slot_arrays.
  pose proof (Forall_cons_1 _ _ _ Hf) as [-> _]. by rewrite bool_decide_true.
Qed.

Lemma slot_column_laws : @ColumnLaws slot_arrays.
Proof. by split. Qed.

Section Samples.
#[local] Existing Instance slot_column_laws.
#[local] Existing Instance no_sse42.
#[local] Existing Instance list_vortex.
#[local] Existing Instance list_vortex_laws.
#[local] Existing Instance column_ord.
#[local] Existing Instance checking_arrow.
#[local] Existing Instance checking_arrow_laws.
#[local] Existing Instance slot_arrays.
#[local] Existing Instance slot_arrays_laws.

(** Table [t] with columns [i] and [u]. *)
Definition tab : bytes := [x74].
Definition tab_schema : Schema := [mkField [x69] DtInt64 false; mkField [x75] DtInt64 true].
Definition tab_key (k : byte) : bytes := assemble_table_key tab [[k]].
Definition tab_row (i u : Z) : bytes := x01 :: to_le 8 i ++ x01 :: to_le 8 u.

Definition tab_lsm : SampleLsm := mkLsm opened_sample man_empty [] [] 0 [] 1000000 [(tab, tab_schema)].
Definition tab_put : SampleLsm := Eval vm_compute in put tab_lsm (tab_key x61) (tab_row 7 9).
Definition tab_flushed : SampleLsm := Eval vm_compute in after tab_put (flush tab_put all_ok).

Definition tab_history : bytes -> values :=
  extend (fun _ => ∅) (number_commits 1 [(1, [MPut (tab_key x61) (tab_row 7 9)])]).

Lemma tab_run : lsm_run 0 tab_flushed tab_history.
Proof.
  assert (Hnow : is_u64 (io_now all_ok)) by (vm_compute; split; congruence).
  assert (H1 : lsm_run 0 tab_put tab_history).
  { refine (lrun_write 0 tab_lsm _ [MPut (tab_key x61) (tab_row 7 9)] ThrottleNone IoOk IoOk _ (Ok 1) _ _ _ _).
    - by apply lrun_new.
    - done.
    - by repeat constructor.
    - vm_compute. reflexivity. }
  assert (F1 : flush tab_put all_ok = Some (tab_flushed, Ok (Some (mkHandle 0 (tab_key x61) (tab_key x61) 1 1))))
    by vm_cast_no_check (eq_refl (Some (tab_flushed, Ok (E := EngineError) (Some (mkHandle 0 (tab_key x61) (tab_key x61) 1 1))))).
  exact (lrun_flush 0 tab_put _ all_ok _ _ H1 eq_refl Hnow eq_refl eq_refl F1).
Qed.

Lemma tab_values k t v : tab_history k !! t = Some (Some v) -> v = tab_row 7 9.
Proof.
  unfold tab_history. cbn [extend number_commits commits_edits]. cbn. unfold extend_edit. cbn.
  destruct (eqc _ _); [|by rewrite lookup_empty].
  intros [[_ [= <-]]|[_ Hx]]%lookup_insert_Some; [done|by rewrite lookup_empty in Hx].
Qed.

Lemma table_scan_exact_witness :
  exists entries : list (bytes * list ScalarValue), StronglySorted clt (map fst entries) /\
    (forall k row, In (k, row) entries <-> starts_with k (table_prefix tab) = true /\
       exists t v, newest (tab_history k) 1 t (Some v) /\ decode_row_values v tab_schema = Some (Ok row)) /\
    (2 * Z.of_nat (length entries) <= u64_max -> exists chunks,
       scan_table_arrow tab_flushed [] tab (Some [1%nat]) None 100 None
       = Some (Ok [batch_of [mkField [x75] DtInt64 true] <$> chunks]) /\
       concat chunks = project [1%nat] <$> map snd entries /\
       Forall (fun chunk => Z.of_nat (length chunk) <= 100) chunks).
Proof.
  apply (table_scan_exact 0 tab_flushed tab_history [] tab (Some [1%nat]) None 100 tab_schema
    [mkField [x75] DtInt64 true] tab_run).
  - by vm_compute.
  - intros level f. unfold level_has. change (vs_levels (version_set tab_flushed)) with [(0, [(0, tt)])].
    rewrite om_get_cons. destruct (eqc level 0) eqn:E; [by apply eqc_spec in E|done].
  - by repeat constructor.
  - reflexivity.
  - reflexivity.
  - by repeat constructor.
  - split; [by apply (bool_decide_unpack _)|repeat constructor; lia|done|done].
  - reflexivity.
  - rewrite u64_max_val. lia.
  - intros k t v _ (Hv & _). apply tab_values in Hv as ->. eexists. split; [vm_compute; reflexivity|].
    repeat constructor; by right.
Defined.

(** The file of two rows. *)
Definition tab_rows : list VersionedRow :=
  [mkRow (tab_key x61) {| value := Some (tab_row 7 9); begin_ts := 1; end_ts := 9; tx_id := 0 |};
   mkRow (tab_key x62) {| value := Some (tab_row 8 1); begin_ts := 2; end_ts := 9; tx_id := 0 |}].
Definition tab_file : vfile :=
  Eval vm_compute in match mapM (columns_of (Some tab_schema)) tab_rows with Some cols => cols | None => [] end.

Lemma columnar_scan_exact_witness :
  exists drows chunks,
    Forall2 (row_decodes tab_schema)
      (List.filter (fun r => in_range (table_prefix tab) [xff] (row_key r) && sees (mkSnapshot 3) (row_version r)) tab_rows) drows /\
    scan_to_arrow_batches (Some tab_file) (table_prefix tab) [xff] (mkSnapshot 3) [] None tab_schema 1
    = Some (Ok (batch_of tab_schema <$> chunks)) /\
    concat chunks = project [0; 1]%nat <$> drows /\
    (1 <> u64_max -> Forall (fun chunk => Z.of_nat (length chunk) <= Z.max 1 1) chunks).
Proof.
  apply (columnar_scan_exact tab_schema [0; 1]%nat tab_schema).
  - by repeat constructor.
  - split; [by apply (bool_decide_unpack _)|repeat constructor; cbn; lia|done|done].
  - reflexivity.
  - reflexivity.
  - exists tab_rows, tab_file. split; [vm_compute; reflexivity|]. split; reflexivity.
  - intros r [<-|[<-|[]]] _; eexists _, _; (split; [reflexivity|]); (split; [vm_compute; reflexivity|]); repeat constructor; by right.
Defined.

(** The slots of every row of a result, with the column names. *)
Definition result_rows (r : option (Result (list (list RecordBatch)))) : list (list bytes * list (list (option ArrowValue))) :=
  match r with
  | Some (Ok partitions) =>
      map (fun b => (map fd_name (rb_schema b), map ar_slots (rb_columns b))) (concat partitions)
  | _ => []
  end.
Definition ints (xs : list Z) : list (option ArrowValue) := (fun x => Some (AvInt x)) <$> xs.

(** The row is updated from 7 to 8 and flushed again. *)
Definition tab_updated : SampleLsm :=
  Eval vm_compute in let l := put tab_flushed (tab_key x61) (tab_row 8 9) in after l (flush l all_ok).

(** Predicates filter each file before the versions are merged: a scan for the
    old value finds the superseded row. *)
Lemma filtered_scan_returns_old_row :
  result_rows (scan_table_arrow tab_updated [] tab None None 100 None) = [([[x69]; [x75]], [ints [8]; ints [9]])] /\
  result_rows (scan_table_arrow tab_updated [] tab None None 100 (Some [PEq 0 (SvInt64 (Some 7))]))
  = [([[x69]; [x75]], [ints [7]; ints [9]])].
Proof. vm_compute. split; reflexivity. Qed.

(** The row and another are compacted to level 1 before the update. *)
Definition tab_compacted : SampleLsm :=
  Eval vm_compute in
    let l := put tab_flushed (tab_key x62) (tab_row 1 2) in
    let l := after l (flush l all_ok) in after l (compact l 0 1 all_ok).

(** Deeper files are partitions of their own: the scan returns both versions of an
    updated row, and a row that was deleted. *)
Lemma compacted_row_returned_twice :
  result_rows (scan_table_arrow (put tab_compacted (tab_key x61) (tab_row 8 9)) [] tab None None 100 None)
  = [([[x69]; [x75]], [ints [8]; ints [9]]); ([[x69]; [x75]], [ints [7; 1]; ints [9; 2]])].
Proof. vm_compute. reflexivity. Qed.

Definition tab_deleted : SampleLsm := Eval vm_compute in
  with_engine tab_compacted (engine_write (l_engine tab_compacted) [MDelete (tab_key x61)] ThrottleNone IoOk IoOk).1.

Lemma deleted_row_returned :
  scan_all tab_deleted 3 = Ok [(tab_key x61, None); (tab_key x62, Some (tab_row 1 2))] /\
  In ([[x69]; [x75]], [ints [7; 1]; ints [9; 2]]) (result_rows (scan_table_arrow tab_deleted [] tab None None 100 None)).
Proof. vm_compute. split; [reflexivity|]. right. left. reflexivity. Qed.

(** All columns in another order keep the names of the schema's order. *)
Lemma permuted_projection_mislabelled :
  result_rows (scan_table_arrow tab_flushed [] tab (Some [1; 0]%nat) None 100 None)
  = [([[x69]; [x75]], [ints [9]; ints [7]])].
Proof. vm_compute. reflexivity. Qed.

(** A scan of no columns, as for [COUNT], has no rows. *)
Lemma empty_projection_has_no_rows :
  match scan_table tab_flushed [] tab (Some []) None with
  | Some (Ok batches) => map rb_num_rows batches
  | _ => []
  end = [0%nat].
Proof. vm_compute. reflexivity. Qed.
End Samples.
