(* ===== verification/Dml.v ===== *)
(** * Inserts and deletes of table rows ([hatp-engine/src/lib.rs])

    [ingest_batches] turns record batches into one mutation per primary key;
    [delete_with_column_predicates] finds the rows to delete, by a point lookup
    when the predicates are one equality per primary-key column and by a scan
    otherwise.  Both derive the storage key from the primary-key values. *)

From Stdlib Require Import Strings.String Sorting.Sorted.
From stdpp Require Import base tactics list option gmap.
From S2P Require Import Prelude OrdMap Types Version Crc32c Wal MemTable MemTableProps TxManager Codec Arrow RowCodec RowCodecProps ColumnPredicate Manifest Compaction Engine Sst SstProps Lsm LsmProps LsmReads Lookup LookupProps ColumnStats TableScan TableScanProps.
#[local] Open Scope Z_scope.

Definition null_primary_key (table column : bytes) : EngineError :=
  NullPrimaryKey (string_of_list_byte table) (string_of_list_byte column).

(** ** Primary-key columns and keys *)

(** [resolve_pk_columns] and [resolve_pk_columns_via_schema]: [what] is the text of
    their errors. *)
Fixpoint resolve_pk (what : string) (schema : Schema) (primary_key : list bytes) : Result (list (nat * bytes)) :=
  match primary_key with
  | [] => Ok []
  | column :: rest =>
      let? idx := ok_or (column_with_name schema column) (Corrupt what) in
      let? out := resolve_pk what schema rest in
      Ok ((idx, column) :: out)
  end.

Definition resolve_pk_columns (batch : RecordBatch) (primary_key : list bytes) : Result (list (nat * bytes)) :=
  resolve_pk "resolve_pk_columns: primary key column not present in input batch" (rb_schema batch) primary_key.

Definition resolve_pk_columns_via_schema (schema : Schema) (primary_key : list bytes) : Result (list (nat * bytes)) :=
  resolve_pk "resolve_pk_columns_via_schema: primary key column not present in schema" schema primary_key.

(** The encoded parts of a key. *)
Fixpoint row_parts (table : bytes) (batch : RecordBatch) (row : nat) (pk_columns : list (nat * bytes))
  : option (Result (list bytes)) :=
  match pk_columns with
  | [] => Some (Ok [])
  | (idx, column) :: rest =>
      array ← rb_columns batch !! idx;
      scalar ← array_slot_to_scalar array row;
      let! part := Some (ok_or (encode_pk_value scalar) (null_primary_key table column)) in
      let! parts := row_parts table batch row rest in
      Some (Ok (part :: parts))
  end.

(** [build_pk_key]; [None] is a column or row out of range. *)
Definition build_pk_key (table : bytes) (batch : RecordBatch) (row : nat) (pk_columns : list (nat * bytes))
  : option (Result bytes) := umap (assemble_table_key table) (row_parts table batch row pk_columns).

Fixpoint scalar_parts (table : bytes) (pk_columns : list (nat * bytes)) (row_scalars : list ScalarValue)
  : Result (list bytes) :=
  match pk_columns with
  | [] => Ok []
  | (idx, column) :: rest =>
      let? scalar := ok_or (row_scalars !! idx)
                       (Corrupt "build_pk_key_from_scalars: primary-key column index out of range") in
      let? part := ok_or (encode_pk_value scalar) (null_primary_key table column) in
      let? parts := scalar_parts table rest row_scalars in
      Ok (part :: parts)
  end.

(** [build_pk_key_from_scalars] *)
Definition build_pk_key_from_scalars (table : bytes) (pk_columns : list (nat * bytes)) (row_scalars : list ScalarValue)
  : Result bytes := let? parts := scalar_parts table pk_columns row_scalars in Ok (assemble_table_key table parts).

(** ** Inserts *)

(** The rows of one batch from [row] on, [n] of them. *)
Fixpoint ingest_rows (table : bytes) (batch : RecordBatch) (pk_columns : list (nat * bytes)) (row n : nat)
    (merged : omap bytes bytes) : option (Result (omap bytes bytes)) :=
  match n with
  | O => Some (Ok merged)
  | S n =>
      let! key := build_pk_key table batch row pk_columns in
      let! payload := encode_row batch row in
      ingest_rows table batch pk_columns (S row) n (om_insert key payload merged)
  end.

Fixpoint ingest_loop (table : bytes) (batches : list RecordBatch) (pk_columns : list (nat * bytes))
    (merged : omap bytes bytes) : option (Result (omap bytes bytes)) :=
  match batches with
  | [] => Some (Ok merged)
  | batch :: rest =>
      let! merged := ingest_rows table batch pk_columns 0 (rb_num_rows batch) merged in
      ingest_loop table rest pk_columns merged
  end.

Abbreviation PkCache := (omap bytes (list (nat * bytes))).

(** [resolve_pk_cached] *)
Definition resolve_pk_cached (cache : PkCache) (table : bytes) (primary_key : list bytes) (first_batch : option RecordBatch)
  : PkCache * Result (list (nat * bytes)) :=
  match om_get table cache with
  | Some c => (cache, Ok c)
  | None =>
      match first_batch with
      | None => (cache, Err (Corrupt "ingest_batches: no batches"))
      | Some b =>
          match resolve_pk_columns b primary_key with
          | Err err => (cache, Err err)
          | Ok resolved => (om_insert table resolved cache, Ok resolved)
          end
      end
  end.

(** [ingest_batches]: the registered schemas and the cache after the call, and its
    result.  The schema file it rewrites holds the same map. *)
Definition ingest_batches (schemas : omap bytes Schema) (cache : PkCache) (batches : list RecordBatch) (table : bytes)
    (primary_key : list bytes) : (omap bytes Schema * PkCache) * option (Result (list Mutation)) :=
  match primary_key with
  | [] => ((schemas, cache), Some (Err (Corrupt "ingest_batches requires a table with a primary key")))
  | _ =>
      let schemas := match batches with
                     | batch :: _ => om_insert table (rb_schema batch) schemas
                     | [] => schemas
                     end in
      match resolve_pk_cached cache table primary_key (head batches) with
      | (cache, Err err) => ((schemas, cache), Some (Err err))
      | (cache, Ok pk_columns) =>
          ((schemas, cache),
           umap (map (fun '(key, value) => MPut key value)) (ingest_loop table batches pk_columns []))
      end
  end.

(** ** Deletes *)

Definition is_eq_on (idx : nat) (p : ColumnPredicate) : bool :=
  match p with PEq col _ => (col =? idx)%nat | _ => false end.

Fixpoint extract_parts (predicates : list ColumnPredicate) (primary_key : list bytes) (schema : Schema)
  : option (list bytes) :=
  match primary_key with
  | [] => Some []
  | pk_col_name :: rest =>
      pk_idx ← column_with_name schema pk_col_name;
      eq_pred ← List.find (is_eq_on pk_idx) predicates;
      match eq_pred with
      | PEq _ value =>
          encoded ← encode_pk_value value;
          parts ← extract_parts predicates rest schema;
          Some (encoded :: parts)
      | _ => None
      end
  end.

(** [try_extract_pk_eq_from_predicates] *)
Definition try_extract_pk_eq_from_predicates (predicates : list ColumnPredicate) (primary_key : list bytes)
    (schema : Schema) : option (list bytes) :=
  if negb (length predicates =? length primary_key)%nat then None
  else extract_parts predicates primary_key schema.

Section Delete.
Context {hw : Crc32Hw} {T H : Type} `{MemTableBackend T} `{EngineHook H} `{VortexLib} `{ScalarOrd}.
Context `{ArrowLib} `{ArrowArrays}.
#[local] Abbreviation Lsm := (Lsm (T := T) (H := H)).

(** The point lookup of the fast path in the files: the first that has a visible
    version decides. *)
Fixpoint found_in_files (l : Lsm) (key : bytes) (s : Snapshot) (ids : list Z) : Result bool :=
  match ids with
  | [] => Ok false
  | file_id :: rest =>
      let? found := match om_get file_id (l_disk l) with
                    | Some f => sst_get f key s
                    | None => Err (Io "no such file")
                    end in
      match found with
      | Some version => Ok (match value version with Some _ => true | None => false end)
      | None => found_in_files l key s rest
      end
  end.

Definition delete_point (l : Lsm) (key : bytes) : Result (list Mutation) :=
  let s := mkSnapshot (snapshot_ts (l_engine l)) in
  let? found := match mt_get (e_memtable (l_engine l)) key s with
                | Some version => Ok (match value version with Some _ => true | None => false end)
                | None => found_in_files l key s (file_ids (version_set l))
                end in
  if negb found then Err EmptyBatch else Ok [MDelete key].

(** The scan of the generic path. *)
Fixpoint delete_rows (table : bytes) (pk_columns : list (nat * bytes)) (predicates : list ColumnPredicate)
    (batch : RecordBatch) (row n : nat) (mutations : list Mutation) : option (Result (list Mutation)) :=
  match n with
  | O => Some (Ok mutations)
  | S n =>
      row_scalars ← mapM (fun a => array_slot_to_scalar a row) (rb_columns batch);
      if negb (row_matches row_scalars predicates)
      then delete_rows table pk_columns predicates batch (S row) n mutations
      else
        let! key := Some (build_pk_key_from_scalars table pk_columns row_scalars) in
        delete_rows table pk_columns predicates batch (S row) n (mutations ++ [MDelete key])
  end.

Fixpoint delete_batches (table : bytes) (pk_columns : list (nat * bytes)) (predicates : list ColumnPredicate)
    (batches : list RecordBatch) (mutations : list Mutation) : option (Result (list Mutation)) :=
  match batches with
  | [] => Some (Ok mutations)
  | batch :: rest =>
      let! mutations := delete_rows table pk_columns predicates batch 0 (rb_num_rows batch) mutations in
      delete_batches table pk_columns predicates rest mutations
  end.

(** [delete_with_column_predicates] *)
Definition delete_with_column_predicates (l : Lsm) (column_stats : ColumnStats) (table : bytes)
    (primary_key : list bytes) (predicates : list ColumnPredicate) : option (Result (list Mutation)) :=
  match primary_key, predicates with
  | [], _ => Some (Err (Corrupt "delete_with_column_predicates requires a table with a primary key"))
  | _, [] => Some (Err (Corrupt "delete_with_column_predicates: no predicates"))
  | _, _ =>
      let! schema := Some (ok_or (om_get table (l_schemas l))
                             (CorruptMessage "delete_with_column_predicates: no schema registered")) in
      match try_extract_pk_eq_from_predicates predicates primary_key schema with
      | Some encoded_parts => Some (delete_point l (assemble_table_key table encoded_parts))
      | None =>
          let! pk_columns := Some (resolve_pk_columns_via_schema schema primary_key) in
          let! batches := scan_table l column_stats table None None in
          let! mutations := delete_batches table pk_columns predicates batches [] in
          Some (match mutations with [] => Err EmptyBatch | _ => Ok mutations end)
      end
  end.
End Delete.
