(* ===== verification/DmlProps.v ===== *)
(** * Properties of inserts and deletes

    Keys identify rows: what an insert writes, a scan reads back and a delete
    looks up has one key per primary key, the fast path of a delete selects the
    rows its predicates select, and an insert keeps the last row per key. *)

From Stdlib Require Import Strings.String Sorting.Sorted.
From stdpp Require Import base tactics list option gmap.
From S2P Require Import Prelude OrdMap Types Version Crc32c Wal MemTable MemTableProps TxManager Codec Arrow RowCodec RowCodecProps ColumnPredicate Manifest Compaction Engine Sst SstProps Lsm LsmProps LsmReads Lookup LookupProps ColumnStats TableScan TableScanProps Dml.
#[local] Open Scope Z_scope.

(** ** Primary-key columns *)

Lemma column_with_name_lookup schema name i :
  column_with_name schema name = Some i -> exists f, schema !! i = Some f /\ fd_name f = name.
Proof.
  revert i. induction schema as [|f schema IH]; intros i; cbn [column_with_name]; [done|].
  destruct (eqc (fd_name f) name) eqn:E; [intros [= <-]; apply eqc_spec in E; by exists f|].
  destruct (column_with_name schema name) as [j|]; [|done]. intros [= <-]. by apply IH.
Qed.

Lemma resolve_pk_spec what schema pk pkc :
  resolve_pk what schema pk = Ok pkc -> Forall2 (fun n c => column_with_name schema n = Some c.1 /\ c.2 = n) pk pkc.
Proof.
  revert pkc. induction pk as [|n pk IH]; intros pkc; cbn [resolve_pk]; [intros [= <-]; constructor|].
  destruct (column_with_name schema n) as [i|] eqn:E; cbn [ok_or rbind]; [|done].
  destruct (resolve_pk what schema pk) as [out|]; cbn [rbind]; [|done]. intros [= <-]. constructor; [done|by apply IH].
Qed.

Lemma resolve_pk_NoDup what schema pk pkc : resolve_pk what schema pk = Ok pkc -> NoDup pk -> NoDup (map fst pkc).
Proof.
  intros Hr%resolve_pk_spec Hnd. induction Hr as [|n [i n'] pk pkc [Hc Hn] Hr IH]; cbn; [constructor|].
  apply NoDup_cons in Hnd as [Hni Hnd]. apply NoDup_cons. split; [|by apply IH].
  intros ([i' m] & Hi & Hin)%list_elem_of_In%in_map_iff. cbn in Hi. subst i'. apply Hni.
  apply list_elem_of_In, list_elem_of_lookup in Hin as [j Hj].
  destruct (Forall2_lookup_r _ _ _ _ _ Hr Hj) as (n2 & Hn2 & Hc2 & _). cbn in Hc2.
  destruct (column_with_name_lookup _ _ _ Hc) as (f & Hf & <-), (column_with_name_lookup _ _ _ Hc2) as (f2 & Hf2 & <-).
  cbn in Hf. rewrite Hf in Hf2. injection Hf2 as <-. by eapply list_elem_of_lookup_2.
Qed.

(** ** The predicates of the fast path *)

Lemma find_eq_on i ps p : List.find (is_eq_on i) ps = Some p -> exists v, p = PEq i v /\ p ∈ ps.
Proof.
  intros [Hin He]%find_some. apply list_elem_of_In in Hin. destruct p; try done. cbn in He.
  apply Nat.eqb_eq in He as ->. by eexists.
Qed.

Lemma extract_spec ps pk schema what parts pkc :
  extract_parts ps pk schema = Some parts -> resolve_pk what schema pk = Ok pkc ->
  exists vs, Forall2 (fun c v => PEq c.1 v ∈ ps) pkc vs /\ Forall2 (fun v x => encode_pk_value v = Some x) vs parts.
Proof.
  revert parts pkc. induction pk as [|n pk IH]; intros parts pkc; cbn [extract_parts resolve_pk].
  - intros [= <-] [= <-]. exists []. by split.
  - destruct (column_with_name schema n) as [i|]; [|done]. cbn [mbind option_bind ok_or rbind].
    destruct (List.find _ ps) as [p|] eqn:Ef; [|done]. cbn [mbind option_bind].
    destruct (find_eq_on _ _ _ Ef) as (v & -> & Hin). destruct (encode_pk_value v) as [x|] eqn:Ex; [|done].
    cbn [mbind option_bind]. destruct (extract_parts ps pk schema) as [parts'|]; [|done]. intros [= <-].
    destruct (resolve_pk what schema pk) as [out|]; cbn [rbind]; [|done]. intros [= <-].
    destruct (IH _ _ eq_refl eq_refl) as (vs & Hv & Hx). exists (v :: vs). split; by constructor.
Qed.

(** One equality per column, and no other predicate. *)
Lemma predicates_covered ps (pkc : list (nat * bytes)) vs :
  length ps = length pkc -> NoDup (map fst pkc) -> Forall2 (fun c v => PEq c.1 v ∈ ps) pkc vs ->
  forall p, p ∈ ps <-> exists j c v, pkc !! j = Some c /\ vs !! j = Some v /\ p = PEq c.1 v.
Proof.
  intros Hl Hnd Hv p. split.
  2:{ intros (j & c & v & Hc & Hvj & ->). destruct (Forall2_lookup_l _ _ _ _ _ Hv Hc) as (v' & Hv' & Hin). by simplify_eq. }
  assert (Hsub : map fst pkc ⊆+ map p_column ps).
  { apply NoDup_submseteq; [done|]. intros i ([i' n] & <- & Hin)%list_elem_of_In%in_map_iff.
    apply list_elem_of_In, list_elem_of_lookup in Hin as [j Hj].
    destruct (Forall2_lookup_l _ _ _ _ _ Hv Hj) as (v & _ & Hin). apply list_elem_of_In, in_map_iff.
    exists (PEq i' v). split; [done|by apply list_elem_of_In]. }
  assert (Hperm : map fst pkc ≡ₚ map p_column ps) by (apply submseteq_length_Permutation; [done|]; rewrite !length_map; lia).
  assert (Hnd' : NoDup (map p_column ps)) by (by rewrite <- Hperm). intros Hp.
  assert (Hcol : p_column p ∈ map fst pkc) by (rewrite Hperm; by apply list_elem_of_In, in_map, list_elem_of_In).
  apply list_elem_of_In, in_map_iff in Hcol as (c & Hi & Hin). apply list_elem_of_In, list_elem_of_lookup in Hin as [j Hj].
  destruct (Forall2_lookup_l _ _ _ _ _ Hv Hj) as (v & Hvj & Hin). exists j, c, v. split; [done|]. split; [done|].
  apply (NoDup_map_inj p_column ps); [done|by apply list_elem_of_In..|]. done.
Qed.

(** ** Keys and predicates agree *)

Section Keys.
Context `{ScalarOrd, !ScalarOrdLaws}.

(** A key column of a row and its literal: values of one ordered type, in range. *)
Definition comparable_pair (s v : ScalarValue) : Prop :=
  same_type s v /\ scalar_ok s /\ scalar_ok v /\ is_null v = false.

Lemma encode_nonnull a b : same_type a b -> is_null a = false <-> is_Some (encode_pk_value a).
Proof.
  intros Hs. destruct a, b; try done; clear Hs; repeat match goal with o : option _ |- _ => destruct o end;
    cbn; split; intros Hx; try done; try (by eexists); by destruct Hx.
Qed.

Lemma tuple_cmp_eq ss vs : Forall2 same_type ss vs ->
  tuple_cmp ss vs = Eq <-> Forall2 (fun s v => scalar_cmp s v = Eq) ss vs.
Proof.
  induction 1 as [|s v ss vs Hs Hss IH]; cbn; [done|]. split.
  - destruct (scalar_cmp s v) eqn:E; [|done..]. intros Ht. constructor; [done|by apply IH].
  - intros [Hc Ht]%Forall2_cons. rewrite Hc. by apply IH.
Qed.

Lemma eq_selects s v col : comparable_pair s v ->
  evaluate (PEq col v) s = true <-> is_null s = false /\ scalar_cmp s v = Eq.
Proof.
  intros (Hs & _ & _ & Hv). unfold evaluate. destruct (is_null s) eqn:Hn; [by split; [|intros [? _]]|].
  rewrite sv_eq_same by done. by destruct (scalar_cmp s v); (split; [|intros [_ ?]]).
Qed.

Lemma scalar_parts_spec table pkc row ss :
  Forall2 (fun c s => row !! c.1 = Some s) pkc ss ->
  forall parts, scalar_parts table pkc row = Ok parts <-> Forall2 (fun s x => encode_pk_value s = Some x) ss parts.
Proof.
  induction 1 as [|[i n] s pkc ss Hs Hss IH]; intros parts; cbn [scalar_parts].
  - split; [intros [= <-]; constructor|by intros ->%Forall2_nil_inv_l].
  - cbn in Hs. rewrite Hs. cbn [ok_or rbind]. destruct (encode_pk_value s) as [x|] eqn:E; cbn [ok_or rbind].
    + destruct (scalar_parts table pkc row) as [xs|] eqn:Ep; cbn [rbind]; split.
      * intros [= <-]. constructor; [done|by apply IH].
      * intros (x' & xs' & Hx & Hxs & ->)%Forall2_cons_inv_l. apply IH in Hxs as [= ->]. by simplify_eq.
      * done.
      * intros (x' & xs' & Hx & Hxs & ->)%Forall2_cons_inv_l. by apply IH in Hxs.
    + split; [done|]. intros (x' & xs' & Hx & _)%Forall2_cons_inv_l. congruence.
Qed.

(** The storage key identifies the primary key. *)
Lemma key_identifies table pkc row ss vs parts :
  Forall2 (fun c s => row !! c.1 = Some s) pkc ss -> Forall2 comparable_pair ss vs ->
  Forall2 (fun v x => encode_pk_value v = Some x) vs parts ->
  build_pk_key_from_scalars table pkc row = Ok (assemble_table_key table parts) <->
  Forall2 (fun s v => is_null s = false /\ scalar_cmp s v = Eq) ss vs.
Proof.
  intros Hss Hsv Hx. unfold build_pk_key_from_scalars.
  assert (Ht : Forall2 same_type ss vs) by (eapply Forall2_impl; [exact Hsv|]; by intros s v (? & _)).
  assert (Ho : Forall scalar_ok ss) by (eapply Forall2_Forall_l; [exact Hsv|]; apply List.Forall_forall; by intros v _ s (_ & ? & _)).
  assert (Hov : Forall scalar_ok vs) by (eapply Forall2_Forall_r; [exact Hsv|]; apply List.Forall_forall; by intros s _ v (_ & _ & ? & _)).
  assert (Hcmp : forall xs, Forall2 (fun s x => encode_pk_value s = Some x) ss xs ->
    assemble_table_key table xs = assemble_table_key table parts <-> Forall2 (fun s v => scalar_cmp s v = Eq) ss vs).
  { intros xs Hxs. rewrite <- tuple_cmp_eq by done. by apply table_key_cmp. }
  split.
  - destruct (scalar_parts table pkc row) as [xs|] eqn:Ep; cbn [rbind]; [|done]. intros [= E].
    apply (scalar_parts_spec _ _ _ ss Hss) in Ep. apply (Hcmp xs Ep) in E.
    apply Forall2_same_length_lookup. split; [by eapply Forall2_length|]. intros j s v Hs Hv.
    split; [|by apply (Forall2_lookup_lr _ _ _ _ _ _ E Hs Hv)].
    destruct (Forall2_lookup_l _ _ _ _ _ Ep Hs) as (x & _ & Hxj).
    apply (encode_nonnull s v); [by apply (Forall2_lookup_lr _ _ _ _ _ _ Ht Hs Hv)|by eexists].
  - intros Hall. assert (Hxs : exists xs, Forall2 (fun s x => encode_pk_value s = Some x) ss xs).
    { clear -Hall Ht. induction Hall as [|s v ss vs [Hn _] Hall IH]; [exists []; constructor|].
      apply Forall2_cons in Ht as [Hs Ht]. destruct (IH Ht) as [xs Hxs].
      apply (encode_nonnull s v Hs) in Hn as [x Hx]. exists (x :: xs). by constructor. }
    destruct Hxs as [xs Hxs]. rewrite (proj2 (scalar_parts_spec table pkc row ss Hss xs) Hxs). cbn [rbind]. f_equal.
    apply (Hcmp xs Hxs). eapply Forall2_impl; [exact Hall|]. by intros s v [_ ?].
Qed.

(** The point lookup of a delete targets exactly the selected row.  When the
    predicates of a delete are taken for one equality per primary-key column, a
    row (whose key columns, like the literals, are in-range values of ordered
    types) satisfies all of them exactly when the key computed from the literals
    is the key of the row: no predicate is lost, no other row has the key. *)
Lemma delete_point_key_exact (schema : Schema) (table : bytes) (primary_key : list bytes)
    (predicates : list ColumnPredicate) (pk_columns : list (nat * bytes)) (parts : list bytes) (row : list ScalarValue) :
  NoDup primary_key -> resolve_pk_columns_via_schema schema primary_key = Ok pk_columns ->
  try_extract_pk_eq_from_predicates predicates primary_key schema = Some parts ->
  (forall col v, PEq col v ∈ predicates -> exists s, row !! col = Some s /\ comparable_pair s v) ->
  row_matches row predicates = true <->
  build_pk_key_from_scalars table pk_columns row = Ok (assemble_table_key table parts).
Proof.
  intros Hnd Hr Hx Hlit. unfold try_extract_pk_eq_from_predicates in Hx.
  destruct (Nat.eqb_spec (length predicates) (length primary_key)) as [Hl|]; [|done]. cbn [negb] in Hx.
  destruct (extract_spec _ _ _ _ _ _ Hx Hr) as (vs & Hv & Henc).
  pose proof (resolve_pk_NoDup _ _ _ _ Hr Hnd) as Hnd'.
  pose proof (Forall2_length _ _ _ (resolve_pk_spec _ _ _ _ Hr)) as Hlen.
  pose proof (predicates_covered predicates pk_columns vs ltac:(lia) Hnd' Hv) as Hcov.
  assert (Hss : exists ss, Forall2 (fun c s => row !! c.1 = Some s) pk_columns ss /\ Forall2 comparable_pair ss vs).
  { clear -Hv Hlit. induction Hv as [|c v pkc vs Hin Hv IH]; [exists []; by split|].
    destruct (Hlit _ _ Hin) as (s & Hs & Hc). destruct IH as (ss & ? & ?). exists (s :: ss). split; by constructor. }
  destruct Hss as (ss & Hss & Hsv). rewrite (key_identifies table pk_columns row ss vs parts) by done.
  rewrite row_matches_forallb, forallb_forall. split.
  - intros Hall. apply Forall2_same_length_lookup. split; [by eapply Forall2_length|]. intros j s v Hs Hvj.
    destruct (Forall2_lookup_r _ _ _ _ _ Hss Hs) as (c & Hc & Hrow).
    specialize (Hall (PEq c.1 v)). cbn [p_column] in Hall. rewrite Hrow in Hall.
    apply (eq_selects s v c.1); [by apply (Forall2_lookup_lr _ _ _ _ _ _ Hsv Hs Hvj)|]. apply Hall, list_elem_of_In, Hcov.
    by exists j, c, v.
  - intros Hall p Hp%list_elem_of_In. apply Hcov in Hp as (j & c & v & Hc & Hvj & ->). cbn [p_column].
    destruct (Forall2_lookup_l _ _ _ _ _ Hss Hc) as (s & Hs & ->).
    apply eq_selects; [by apply (Forall2_lookup_lr _ _ _ _ _ _ Hsv Hs Hvj)|]. by apply (Forall2_lookup_lr _ _ _ _ _ _ Hall Hs Hvj).
Qed.
End Keys.

(** ** Inserts *)

(** The key of a batch row is the key of the row a scan decodes. *)
Lemma encode_retag t s : encode_pk_value (retag t s) = encode_pk_value s.
Proof.
  destruct t as [| | | | | | | | | | | | | | | | |[] tz|[]|[]|[]|[]|], s; try done;
    by repeat match goal with o : option Z |- _ => destruct o end.
Qed.

(** The scalars of a row of a batch, as they are stored and decoded. *)
Definition row_values (br : RecordBatch * nat) : list ScalarValue :=
  zip_with (stored_scalar br.2) (rb_schema br.1) (rb_columns br.1).

Lemma row_parts_stored table batch row pkc :
  Forall2 (cell_ok row) (rb_schema batch) (rb_columns batch) ->
  Forall (fun c => (c.1 < length (rb_schema batch))%nat) pkc ->
  row_parts table batch row pkc = Some (scalar_parts table pkc (row_values (batch, row))).
Proof.
  intros Hc. induction 1 as [|[i n] pkc Hi _ IH]; cbn [row_parts scalar_parts]; [done|]. cbn in Hi.
  destruct (lookup_lt_is_Some_2 _ _ Hi) as [f Hf]. destruct (Forall2_lookup_l _ _ _ _ _ Hc Hf) as (a & Ha & Hok).
  rewrite Ha. cbn [mbind option_bind]. destruct (cell_roundtrip _ _ _ Hok) as (s & _ & Hs & _).
  rewrite Hs. cbn [mbind option_bind]. unfold row_values at 1. cbn [fst snd]. rewrite lookup_zip_with, Hf, Ha. cbn [mbind option_bind ok_or rbind].
  unfold stored_scalar at 1. rewrite Hs. cbn [default]. unfold id. rewrite encode_retag.
  destruct (encode_pk_value s) as [x|]; cbn [ok_or ubind rbind]; [|done].
  rewrite IH. by destruct (scalar_parts table pkc (row_values (batch, row))).
Qed.

Lemma build_pk_key_stored table batch row pkc :
  Forall2 (cell_ok row) (rb_schema batch) (rb_columns batch) ->
  Forall (fun c => (c.1 < length (rb_schema batch))%nat) pkc ->
  build_pk_key table batch row pkc = Some (build_pk_key_from_scalars table pkc (row_values (batch, row))).
Proof.
  intros Hc Hp. unfold build_pk_key, build_pk_key_from_scalars. rewrite row_parts_stored by done.
  by destruct (scalar_parts table pkc (row_values (batch, row))).
Qed.

(** Writing the rows in order keeps the last payload of every key. *)
Definition write_all (pairs : list (bytes * bytes)) (m : omap bytes bytes) : omap bytes bytes :=
  fold_left (fun m kp => om_insert kp.1 kp.2 m) pairs m.

Lemma write_all_sorted pairs m : om_sorted m -> om_sorted (write_all pairs m).
Proof. revert m. induction pairs as [|kp pairs IH]; intros m Hm; [done|]. by apply IH, om_sorted_insert. Qed.

Lemma write_all_get pairs k v :
  om_get k (write_all pairs []) = Some v <->
  exists i, pairs !! i = Some (k, v) /\ forall j kp, (i < j)%nat -> pairs !! j = Some kp -> kp.1 <> k.
Proof.
  induction pairs as [|kp pairs IH] using rev_ind; [split; [done|by intros (i & Hi & _)]|].
  unfold write_all in *. rewrite fold_left_app. cbn [fold_left]. rewrite om_get_insert.
  assert (Hlast : (pairs ++ [kp]) !! length pairs = Some kp) by (by apply list_lookup_middle).
  destruct (eqc k kp.1) eqn:E; cbool.
  - subst k. split.
    + intros [= <-]. exists (length pairs). rewrite Hlast. split; [by destruct kp|]. intros j kp' Hj Hk.
      apply lookup_lt_Some in Hk. rewrite length_app in Hk. cbn in Hk. lia.
    + intros (i & Hi & Hmax). destruct (decide (i = length pairs)) as [->|Hne]; [rewrite Hlast in Hi; by injection Hi as ->|].
      pose proof (lookup_lt_Some _ _ _ Hi) as Hlt. rewrite length_app in Hlt. cbn in Hlt.
      destruct (Hmax (length pairs) kp); [lia|done|done].
  - rewrite IH. split; intros (i & Hi & Hmax); exists i.
    + split; [by apply lookup_app_l_Some|]. intros j kp' Hj [Hk|[Hge Hk]]%lookup_app_Some; [by eapply Hmax|].
      destruct (j - length pairs)%nat; cbn in Hk; [|done]. injection Hk as <-. congruence.
    + apply lookup_app_Some in Hi as [Hi|[Hge Hk]].
      * split; [done|]. intros j kp' Hj Hk. eapply Hmax; [exact Hj|]. by apply lookup_app_l_Some.
      * destruct (i - length pairs)%nat; cbn in Hk; [|done]. by injection Hk as ->.
Qed.

(** All rows, in the order they are written. *)
Definition batch_rows (batches : list RecordBatch) : list (RecordBatch * nat) :=
  List.flat_map (fun b => map (pair b) (seq 0 (rb_num_rows b))) batches.

Definition writes (table : bytes) (pkc : list (nat * bytes)) (br : RecordBatch * nat) (kp : bytes * bytes) : Prop :=
  build_pk_key table br.1 br.2 pkc = Some (Ok kp.1) /\ encode_row br.1 br.2 = Some (Ok kp.2).

Lemma ingest_rows_ok table pkc b n : forall row merged pairs,
  Forall2 (writes table pkc) (map (pair b) (seq row n)) pairs ->
  ingest_rows table b pkc row n merged = Some (Ok (write_all pairs merged)).
Proof.
  induction n as [|n IH]; intros row merged pairs Hw; cbn [seq map] in Hw; cbn [ingest_rows].
  - by apply Forall2_nil_inv_l in Hw as ->.
  - apply Forall2_cons_inv_l in Hw as ([k p] & pairs' & [Hk Hp] & Hw & ->). cbn in Hk, Hp.
    rewrite Hk. cbn [ubind]. rewrite Hp. cbn [ubind]. by rewrite (IH _ _ _ Hw).
Qed.

Lemma ingest_loop_ok table pkc batches : forall merged pairs,
  Forall2 (writes table pkc) (batch_rows batches) pairs ->
  ingest_loop table batches pkc merged = Some (Ok (write_all pairs merged)).
Proof.
  induction batches as [|b batches IH]; intros merged pairs Hw; cbn [ingest_loop].
  - by apply Forall2_nil_inv_l in Hw as ->.
  - cbn [batch_rows flat_map] in Hw. apply Forall2_app_inv_l in Hw as (p1 & p2 & H1 & H2 & ->).
    rewrite (ingest_rows_ok _ _ _ _ _ _ _ H1). cbn [ubind]. rewrite (IH _ p2 H2). unfold write_all. by rewrite fold_left_app.
Qed.

(** The key a row is stored under. *)
Abbreviation stored_key table pkc br := (build_pk_key_from_scalars table pkc (row_values br)).

Lemma row_encodes batch row :
  batch_ok batch -> (row < rb_num_rows batch)%nat ->
  Forall2 (cell_ok row) (rb_schema batch) (rb_columns batch) /\
  exists payload, encode_row batch row = Some (Ok payload) /\
    decode_row_values payload (rb_schema batch) = Some (Ok (row_values (batch, row))).
Proof.
  intros (_ & _ & Hf & Hok) Hr. pose proof (batch_cells _ _ _ _ Hf Hr Hok) as Hc. split; [done|].
  destruct (encode_cols_roundtrip batch row 0 _ _ eq_refl Hc) as (enc & He & Hd). rewrite drop_0 in He, Hd.
  exists enc. split; [apply He|]. rewrite decode_row_values_full. pose proof (Hd [] [] []) as Hd0.
  rewrite app_nil_r in Hd0. exact Hd0.
Qed.

Lemma batch_rows_In batches br :
  br ∈ batch_rows batches <-> br.1 ∈ batches /\ (br.2 < rb_num_rows br.1)%nat.
Proof.
  rewrite list_elem_of_In. unfold batch_rows. rewrite in_flat_map. setoid_rewrite in_map_iff. setoid_rewrite in_seq.
  destruct br as [b i]. cbn. setoid_rewrite list_elem_of_In. split.
  - intros (b' & Hb & j & [= <- <-] & Hj). split; [done|lia].
  - intros [Hb Hi]. exists b. split; [done|]. exists i. split; [done|lia].
Qed.

Lemma resolve_pk_bound what schema pk pkc :
  resolve_pk what schema pk = Ok pkc -> Forall (fun c => (c.1 < length schema)%nat) pkc.
Proof.
  intros Hr%resolve_pk_spec. induction Hr as [|n [i n'] pk pkc [Hc _] _ IH]; constructor; [|done].
  destruct (column_with_name_lookup _ _ _ Hc) as (f & Hf & _). by eapply lookup_lt_Some.
Qed.

(** Inserts write each row once, under the key a delete computes.  Ingesting
    batches of one schema whose key columns are not null (the cached columns, if
    any, being those of this key) registers the schema and returns puts sorted by
    key: for every key exactly the last row that has it; and each payload decodes
    to that row, whose key, computed from the decoded values the way a delete does,
    is the key of the put. *)
Lemma ingest_exact (schemas : omap bytes Schema) (cache : PkCache) (batches : list RecordBatch) (table : bytes)
    (primary_key : list bytes) (schema : Schema) (pk_columns : list (nat * bytes)) :
  primary_key <> [] -> batches <> [] ->
  (forall b, b ∈ batches -> batch_ok b /\ rb_schema b = schema) ->
  resolve_pk_columns (mkBatch schema [] 0) primary_key = Ok pk_columns ->
  (forall c, om_get table cache = Some c -> c = pk_columns) ->
  (forall br, br ∈ batch_rows batches -> is_ok (stored_key table pk_columns br) = true) ->
  exists ms, ingest_batches schemas cache batches table primary_key
      = ((om_insert table schema schemas,
          match om_get table cache with Some _ => cache | None => om_insert table pk_columns cache end), Some (Ok ms)) /\
    StronglySorted clt (map mutation_key ms) /\
    forall m, m ∈ ms <-> exists i br key payload, m = MPut key payload /\ batch_rows batches !! i = Some br /\
      encode_row br.1 br.2 = Some (Ok payload) /\ decode_row_values payload schema = Some (Ok (row_values br)) /\
      stored_key table pk_columns br = Ok key /\
      forall j br', (i < j)%nat -> batch_rows batches !! j = Some br' -> stored_key table pk_columns br' <> Ok key.
Proof.
  intros Hpk Hne Hb Hr Hcache Hkeys. pose proof (resolve_pk_bound _ _ _ _ Hr) as Hbound. cbn [rb_schema] in Hbound.
  assert (Hrow : forall br, br ∈ batch_rows batches -> exists kp, writes table pk_columns br kp /\
    stored_key table pk_columns br = Ok kp.1 /\ decode_row_values kp.2 schema = Some (Ok (row_values br))).
  { intros [b row] Hin. pose proof (Hkeys _ Hin) as Hk. apply batch_rows_In in Hin as [Hin Hlt]. cbn in Hin, Hlt.
    destruct (Hb b Hin) as [Hok Hs]. destruct (row_encodes b row Hok Hlt) as (Hc & payload & He & Hd).
    destruct (stored_key table pk_columns (b, row)) as [key|] eqn:Ek; [|done]. exists (key, payload). cbn [fst snd].
    rewrite Hs in Hd. split; [|done]. split; cbn [fst snd]; [|done].
    rewrite build_pk_key_stored by (done || by rewrite Hs). by rewrite Ek. }
  assert (Hpairs : exists pairs, Forall2 (fun br kp => writes table pk_columns br kp /\
    stored_key table pk_columns br = Ok kp.1 /\ decode_row_values kp.2 schema = Some (Ok (row_values br))) (batch_rows batches) pairs).
  { clear -Hrow. induction (batch_rows batches) as [|br brs IH]; [exists []; constructor|].
    destruct (Hrow br) as [kp Hkp]; [by left|]. destruct IH as [pairs Hp]; [intros br' ?; apply Hrow; by right|].
    exists (kp :: pairs). by constructor. }
  destruct Hpairs as [pairs Hpairs].
  assert (Hloop : ingest_loop table batches pk_columns [] = Some (Ok (write_all pairs []))).
  { apply ingest_loop_ok. eapply Forall2_impl; [exact Hpairs|]. by intros br kp (? & _). }
  set (ms := map (fun '(key, value) => MPut key value) (write_all pairs [])). exists ms.
  assert (Hsort : om_sorted (write_all pairs [])) by (apply write_all_sorted, om_sorted_nil).
  split; [|split].
  - unfold ingest_batches. destruct primary_key as [|n pk]; [done|]. destruct batches as [|b0 batches]; [done|].
    destruct (Hb b0) as [_ Hs0]; [by left|]. cbn [head]. unfold resolve_pk_cached.
    destruct (om_get table cache) as [c|] eqn:Ec.
    + rewrite (Hcache c eq_refl), Hloop, Hs0. done.
    + unfold resolve_pk_columns in Hr |- *. cbn [rb_schema] in Hr. rewrite Hs0, Hr, Hloop. done.
  - unfold ms. rewrite map_map. unfold om_sorted, om_keys in Hsort. by rewrite (map_ext _ fst) by (by intros []).
  - intros m. unfold ms. rewrite list_elem_of_In, in_map_iff. split.
    + intros ([k v] & <- & Hin). apply om_In_get in Hin; [|done]. apply write_all_get in Hin as (i & Hi & Hmax).
      destruct (Forall2_lookup_r _ _ _ _ _ Hpairs Hi) as (br & Hbr & [_ He] & Hk & Hd). exists i, br, k, v.
      repeat (split; [done|]). intros j br' Hj Hbr'. destruct (Forall2_lookup_l _ _ _ _ _ Hpairs Hbr') as (kp & Hkp & _ & -> & _).
      intros [= E]. by apply (Hmax j kp).
    + intros (i & br & k & v & -> & Hbr & He & _ & Hk & Hmax). exists (k, v). split; [done|]. apply om_get_In, write_all_get.
      destruct (Forall2_lookup_l _ _ _ _ _ Hpairs Hbr) as ([k' v'] & Hkp & [_ He'] & Hk' & _). cbn in He', Hk'.
      exists i. split; [congruence|]. intros j kp Hj Hkj.
      destruct (Forall2_lookup_r _ _ _ _ _ Hpairs Hkj) as (br' & Hbr' & _ & Hk2 & _). intros E. apply (Hmax j br' Hj Hbr'). congruence.
Qed.

(** ** The point lookup of a delete *)

Section Point.
Context {hw : Crc32Hw} {T H : Type} `{MemTableBackend T} `{EngineHook H} `{!MemTableLaws T}.
Context `{VortexLib} `{!VortexLaws}.
#[local] Abbreviation Lsm := (Lsm (T := T) (H := H)).

Lemma found_in_files_ok (l : Lsm) key s ids :
  (forall f, In f ids -> exists rows, file_rows l f rows) ->
  (exists f v, In f ids /\ file_version l f key v /\ sees s v = true /\
     found_in_files l key s ids = Ok (match value v with Some _ => true | None => false end)) \/
  (found_in_files l key s ids = Ok false /\ forall f v, In f ids -> file_version l f key v -> sees s v = false).
Proof.
  induction ids as [|f ids IH]; intros Hids; cbn [found_in_files]; [right; split; [done|by intros ? ? []]|].
  destruct (Hids f (or_introl eq_refl)) as (rows & Hr). pose proof Hr as (file & Hg & Hh).
  rewrite Hg, (sst_get_holds _ _ _ _ Hh). cbn [rbind].
  destruct (List.filter _ rows) as [|r kept] eqn:Ef; cbn [head fmap option_fmap option_map].
  - destruct (IH (fun f Hf => Hids f (or_intror Hf))) as [(g & v & Hin & Hv & Hs & Ho)|[Ho Hno]].
    + left. exists g, v. split; [by right|done].
    + right. split; [done|]. intros g v [<-|Hin] Hv; [|by eapply Hno].
      apply (file_version_row l f key rows v Hr) in Hv as (r & Hin & Hk & <-).
      destruct (sees s (row_version r)) eqn:E; [|done]. exfalso.
      assert (Hf : In r (List.filter (fun r => eqc (row_key r) key && sees s (row_version r)) rows)).
      { apply filter_In. by rewrite Hk, eqc_refl, E. }
      by rewrite Ef in Hf.
  - assert (Hf : In r (List.filter (fun r => eqc (row_key r) key && sees s (row_version r)) rows)) by (rewrite Ef; by left).
    apply filter_In in Hf as [Hin Hp]. apply andb_true_iff in Hp as [Hk Hs]. apply eqc_spec in Hk.
    left. exists f, (row_version r). split; [by left|]. split; [by exists rows, r|done].
Qed.

(** The point lookup of a delete is exact.  After any run, when at most one
    version of the key in the files is visible now, the fast path of a delete
    returns the delete of that key if its newest commit is a value, and reports
    that there is nothing to delete otherwise. *)
Lemma delete_point_exact (w : TxnTs) (l : Lsm) (h : bytes -> values) (key : bytes) :
  let s := snapshot_ts (l_engine l) in
  lsm_run w l h -> w <= s -> (forall v v', in_sst l s key v -> in_sst l s key v' -> v = v') ->
  (delete_point l key = Ok [MDelete key] /\ exists t v, newest (h key) s t (Some v)) \/
  (delete_point l key = Err EmptyBatch /\ forall t v, ~ newest (h key) s t (Some v)).
Proof.
  intros s Hrun Hw Hone. pose proof (lsm_run_rep _ _ _ Hrun) as Hrep.
  assert (Hs : s < OPEN_ENDED_TS).
  { pose proof (lr_seq _ _ _ Hrep) as Hq. unfold OPEN_ENDED_TS in *. rewrite u64_max_val in *.
    unfold s, snapshot_ts, saturating_sub. lia. }
  assert (Hanswer : exists best,
    delete_point l key = (match best ≫= value with Some _ => Ok [MDelete key] | None => Err EmptyBatch end) /\
    forall x, best ≫= value = Some x <-> exists t, newest (h key) s t (Some x)).
  { unfold delete_point. fold (mem l) s. destruct (mt_get (mem l) key (mkSnapshot s)) as [v|] eqn:Eg.
    - exists (Some v). split; [cbn; by destruct (value v)|].
      assert (Hv : in_mem l s key v) by (by apply (mem_get_in w l h key s Hrep)).
      apply (newest_answer w l h key s (Some v) Hrep Hw Hs); [by intros ? [= <-]; left|].
      intros v' Hv'. exists v. split; [done|]. by eapply mem_answer.
    - assert (Hmiss : forall v, ~ in_mem l s key v) by (intros v Hv; apply (mem_get_in w l h key s Hrep) in Hv; congruence).
      assert (Hlive : forall f, In f (file_ids (version_set l)) <-> live l f)
        by (intros f; apply file_ids_live, (lr_man _ _ _ Hrep)).
      destruct (found_in_files_ok l key (mkSnapshot s) (file_ids (version_set l))) as [(f & v & Hf & Hv & Hsee & Ho)|[Ho Hno]].
      { intros f Hf. by apply (lr_disk _ _ _ Hrep), Hlive. }
      + exists (Some v). rewrite Ho. cbn [rbind]. split; [cbn; by destruct (value v)|].
        assert (Hin : in_sst l s key v) by (destruct Hv as (rows & r & ? & ? & ? & ?); exists f, rows, r; by rewrite <- Hlive).
        apply (newest_answer w l h key s (Some v) Hrep Hw Hs); [by intros ? [= <-]; right|].
        intros v' [Hm|Hv']; [by destruct (Hmiss v')|]. exists v. split; [done|]. by rewrite (Hone v v' Hin Hv').
      + exists None. rewrite Ho. cbn [rbind negb]. split; [done|].
        apply (newest_answer w l h key s None Hrep Hw Hs); [done|].
        intros v' [Hm|(f & rows & r & Hf & Hr & Hin & Hk & Hv & Hsee)]; [by destruct (Hmiss v')|].
        exfalso. apply Hlive in Hf. by rewrite (Hno f v' Hf) in Hsee by (by exists rows, r). }
  destruct Hanswer as (best & Ho & Hx). destruct (best ≫= value) as [x|].
  - left. split; [done|]. destruct (proj1 (Hx x) eq_refl) as [t Ht]. by exists t, x.
  - right. split; [done|]. intros t v Ht. assert (E : None = Some v) by (apply Hx; by exists t). done.
Qed.
End Point.

(** ** The scan of a delete *)

(** A scalar read back from the array it was put in: nulls lose their type. *)
Definition reread (s : ScalarValue) : ScalarValue := if is_null s then SvNull else s.

Lemma reread_slot t s :
  pushable_type t = true -> scalar_type s = Some t ->
  array_slot_to_scalar (mkArray t [scalar_slot s]) 0 = Some (reread s).
Proof.
  intros Hp Ht. destruct t; try done; destruct s as [|[]|[]|[]|[]|[]|[]|[]|[]|[]|[]|[]|[]|[]|[]|[]|[]|[]| | | | |[]|[]|[]|[]|[]|[]|[]|[]|[]|[]|[]|]; done.
Qed.

Section Generic.
Context `{ScalarOrd}.
Context (schema : Schema) (Hpush : Forall (fun f => pushable_type (fd_type f) = true) schema).

Lemma reread_matches row ps : row_matches (reread <$> row) ps = row_matches row ps.
Proof.
  rewrite !row_matches_forallb. induction ps as [|p ps IH]; [done|]. cbn [forallb]. rewrite IH. f_equal.
  rewrite list_lookup_fmap. destruct (row !! p_column p) as [s|]; cbn; [|done]. unfold evaluate, reread.
  by destruct (is_null s) eqn:E; rewrite ?E.
Qed.

Lemma encode_reread s : encode_pk_value (reread s) = encode_pk_value s.
Proof.
  unfold reread. destruct (is_null s) eqn:E; [|done]. destruct s; try done; by repeat match goal with o : option _ |- _ => destruct o end.
Qed.

Lemma reread_key table pkc row :
  build_pk_key_from_scalars table pkc (reread <$> row) = build_pk_key_from_scalars table pkc row.
Proof.
  unfold build_pk_key_from_scalars. f_equal. induction pkc as [|[i n] pkc IH]; [done|]. cbn [scalar_parts].
  rewrite list_lookup_fmap. destruct (row !! i) as [s|]; cbn [fmap option_fmap option_map ok_or rbind]; [|done].
  by rewrite encode_reread, IH.
Qed.

(** The scalars of a row of a batch are the row, reread. *)
Lemma batch_row_scalars chunk i row :
  Forall (row_typed schema) chunk -> chunk !! i = Some row ->
  mapM (fun a => array_slot_to_scalar a i) (rb_columns (batch_of schema chunk)) = Some (reread <$> row).
Proof.
  intros Hr Hi. assert (Ht : row_typed schema row) by (by eapply Forall_lookup_1 in Hr). destruct Ht as [Ht _].
  apply mapM_Some. cbn [batch_of rb_columns]. apply Forall2_same_length_lookup. split.
  { rewrite length_imap, length_fmap. by eapply Forall2_length. }
  intros j a s Ha Hs. rewrite list_lookup_imap in Ha. rewrite list_lookup_fmap in Hs.
  destruct (schema !! j) as [f|] eqn:Hf; cbn in Ha; [|done]. injection Ha as <-.
  destruct (Forall2_lookup_l _ _ _ _ _ Ht Hf) as (x & Hx & Hty). rewrite Hx in Hs. cbn in Hs. injection Hs as <-.
  erewrite slot_at by (unfold column_of; cbn [ar_slots]; rewrite list_lookup_fmap, Hi; cbn; rewrite Hx; reflexivity).
  cbn [column_of ar_type]. apply reread_slot; [by eapply Forall_lookup_1 in Hpush|done].
Qed.

Context (table : bytes) (pkc : list (nat * bytes)) (ps : list ColumnPredicate).

(** The keys of the rows that match. *)
Definition matching (entries : list (bytes * list ScalarValue)) : list Mutation :=
  map (fun e => MDelete e.1) (List.filter (fun e => row_matches e.2 ps) entries).

Definition keyed (e : bytes * list ScalarValue) : Prop := build_pk_key_from_scalars table pkc e.2 = Ok e.1.

Lemma delete_rows_ok chunk entries n : forall i out,
  Forall (row_typed schema) chunk -> Forall keyed entries -> map snd entries = drop i chunk -> (i + n = length chunk)%nat ->
  delete_rows table pkc ps (batch_of schema chunk) i n out = Some (Ok (out ++ matching entries)).
Proof.
  revert entries. induction n as [|n IH]; intros entries i out Hr Hk He Hl; cbn [delete_rows].
  - rewrite drop_ge in He by lia. destruct entries; [|done]. cbn. by rewrite app_nil_r.
  - destruct (lookup_lt_is_Some_2 chunk i) as [row Hi]; [lia|]. rewrite (drop_S _ _ _ Hi) in He.
    destruct entries as [|[k row'] entries]; [done|]. cbn in He. injection He as -> He.
    apply Forall_cons_1 in Hk as [Hk0 Hk]. rewrite (batch_row_scalars chunk i row Hr Hi). cbn [mbind option_bind].
    rewrite reread_matches. unfold matching. cbn [List.filter snd]. destruct (row_matches row ps); cbn [negb].
    + rewrite reread_key, Hk0. cbn [ubind fst]. rewrite (IH entries) by (done || lia). cbn. by rewrite <- app_assoc.
    + by rewrite (IH entries) by (done || lia).
Qed.

Lemma delete_batches_ok chunks : forall entries out,
  Forall (row_typed schema) (concat chunks) -> Forall keyed entries -> map snd entries = concat chunks ->
  delete_batches table pkc ps (batch_of schema <$> chunks) out = Some (Ok (out ++ matching entries)).
Proof.
  induction chunks as [|chunk chunks IH]; intros entries out Hr Hk He; cbn [fmap list_fmap delete_batches].
  - destruct entries; [|done]. cbn. by rewrite app_nil_r.
  - cbn [concat] in Hr, He. apply Forall_app in Hr as [Hr1 Hr2].
    rewrite <- (take_drop (length chunk) entries) in Hk, He |- *. set (a := take _ entries) in *. set (b := drop _ entries) in *.
    rewrite map_app in He. apply Forall_app in Hk as [Hk1 Hk2].
    assert (Hla : length a = length chunk).
    { unfold a. rewrite length_take. apply (f_equal length) in He. rewrite !length_app, !length_map in He.
      unfold a, b in He. rewrite length_take, length_drop in He. lia. }
    apply app_inj_1 in He as [Ha Hb]; [|by rewrite length_map].
    cbn [batch_of rb_num_rows]. fold (batch_of schema chunk).
    rewrite (delete_rows_ok chunk a (length chunk) 0) by (done || lia). cbn [ubind].
    rewrite (IH b) by done. unfold matching. by rewrite List.filter_app, map_app, <- app_assoc.
Qed.
End Generic.

Section DeleteScan.
Context {hw : Crc32Hw} {T H : Type} `{MemTableBackend T} `{EngineHook H} `{!MemTableLaws T}.
Context `{VortexLib} `{!VortexLaws} `{ScalarOrd} `{ArrowLib, !ArrowLaws} `{ArrowArrays, !ArrowArraysLaws}.
#[local] Abbreviation Lsm := (Lsm (T := T) (H := H)).

Lemma all_columns_ok schema : schema <> [] -> projection_ok schema (scanned schema None).
Proof.
  intros Hne. cbn. split; [apply NoDup_seq| |done|by destruct schema].
  apply List.Forall_forall. intros c Hc%in_seq. lia.
Qed.

Lemma all_columns_schema (schema : Schema) : mapM (fun i => schema !! i) (seq 0 (length schema)) = Some schema.
Proof.
  apply mapM_Some, Forall2_same_length_lookup. split; [apply length_seq|]. intros j i f Hi Hf.
  apply lookup_seq in Hi as [-> _]. exact Hf.
Qed.

(** A delete that scans removes exactly the selected rows.  After any run that
    left every file at level 0, on a registered table of numeric and string columns
    whose rows are stored under their primary keys, a delete whose predicates are
    not a primary-key lookup returns the deletes of exactly the rows whose newest
    commit satisfies every predicate, in key order, or reports that there are none. *)
Lemma delete_scan_run (w : TxnTs) (l : Lsm) (h : bytes -> values) (stats : ColumnStats) (table : bytes)
    (primary_key : list bytes) (predicates : list ColumnPredicate) (schema : Schema) (pk_columns : list (nat * bytes)) :
  let s := snapshot_ts (l_engine l) in
  lsm_run w l h -> w <= s -> only_l0 l -> no_nul table -> is_dropped_prefix l (table_prefix table) = false ->
  om_get table (l_schemas l) = Some schema -> schema <> [] ->
  Forall (fun f => pushable_type (fd_type f) = true) schema ->
  primary_key <> [] -> predicates <> [] -> try_extract_pk_eq_from_predicates predicates primary_key schema = None ->
  resolve_pk_columns_via_schema schema primary_key = Ok pk_columns ->
  (forall k t v, starts_with k (table_prefix table) = true -> newest (h k) s t (Some v) ->
     exists row, decode_row_values v schema = Some (Ok row) /\ row_fits schema row /\
       build_pk_key_from_scalars table pk_columns row = Ok k) ->
  exists entries : list (bytes * list ScalarValue), StronglySorted clt (map fst entries) /\
    (forall k row, In (k, row) entries <-> starts_with k (table_prefix table) = true /\
       exists t v, newest (h k) s t (Some v) /\ decode_row_values v schema = Some (Ok row)) /\
    (2 * Z.of_nat (length entries) <= u64_max ->
       delete_with_column_predicates l stats table primary_key predicates =
       Some (match matching predicates entries with [] => Err EmptyBatch | ms => Ok ms end)).
Proof.
  intros s Hrun Hw Hl0 Hnul Hdrop Hsch Hne Hpush Hpk Hps Hx Hr Hrows.
  assert (Hst : Forall (fun f => storable (fd_type f)) schema)
    by (eapply List.Forall_impl; [|exact Hpush]; intros f; apply pushable_storable).
  destruct (table_scan_run w l h stats table None None u64_max schema schema Hrun Hw Hl0 Hnul Hdrop Hsch Hst
    (all_columns_ok schema Hne) (all_columns_schema schema)) as (entries & Hs & Hin & Hscan).
  { rewrite u64_max_val. lia. }
  { intros k t v Hk Hv. destruct (Hrows k t v Hk Hv) as (row & ? & ? & _). by exists row. }
  exists entries. split; [done|]. split; [done|]. intros Hlen. destruct (Hscan Hlen) as (chunks & Ho & Hcat & _).
  assert (Hent : forall e, In e entries -> keyed table pk_columns e /\ row_typed schema e.2).
  { intros [k row] He. apply Hin in He as (Hk & t & v & Hv & Hd). destruct (Hrows k t v Hk Hv) as (row' & Hd' & Hfit & Hkey).
    rewrite Hd in Hd'. injection Hd' as <-. split; [done|]. split; [|done]. rewrite decode_row_values_full in Hd.
    by eapply decoded_types. }
  assert (Hproj : project (scanned schema None) <$> map snd entries = map snd entries).
  { apply list_eq. intros j. rewrite list_lookup_fmap. destruct (map snd entries !! j) as [row|] eqn:E; cbn; [|done].
    apply list_elem_of_lookup_2, list_elem_of_In, in_map_iff in E as (e & <- & He). f_equal. apply project_all.
    destruct (Hent e He) as [_ [Ht _]]. symmetry. by eapply Forall2_length. }
  rewrite Hproj in Hcat. unfold delete_with_column_predicates. destruct primary_key as [|n pk]; [done|].
  destruct predicates as [|p ps]; [done|]. rewrite Hsch. cbn [ok_or ubind]. rewrite Hx, Hr. cbn [ubind].
  unfold scan_table. rewrite Ho. cbn [umap ubind concat]. rewrite app_nil_r.
  rewrite (delete_batches_ok schema Hpush table pk_columns (p :: ps) chunks entries []).
  - cbn [ubind app]. by destruct (matching (p :: ps) entries).
  - rewrite Hcat. apply List.Forall_forall. intros row (e & <- & He)%in_map_iff. by apply Hent.
  - apply List.Forall_forall. intros e He. by apply Hent.
  - done.
Qed.

End DeleteScan.

(** ** Witnesses and findings *)

Section Samples.
#[local] Existing Instance no_sse42.
#[local] Existing Instance list_vortex.
#[local] Existing Instance list_vortex_laws.
#[local] Existing Instance column_ord.
#[local] Existing Instance column_ord_laws.
#[local] Existing Instance checking_arrow.
#[local] Existing Instance checking_arrow_laws.
#[local] Existing Instance slot_arrays.
#[local] Existing Instance slot_arrays_laws.

(** Columns [i] and [u] of the table, [i] its primary key. *)
(** Two rows of one key: the second is written. *)
Definition ingested : list RecordBatch :=
  [mkBatch tab_schema [mkArray DtInt64 [Some (AvInt 7); Some (AvInt 7)]; mkArray DtInt64 [Some (AvInt 1); None]] 2].

Lemma ingested_ok b : b ∈ ingested -> batch_ok b /\ rb_schema b = tab_schema.
Proof.
  intros [->|[]%not_elem_of_nil]%elem_of_cons. split; [|done].
  split; [done|]. split; [done|]. split; [done|].
  repeat constructor; vm_compute; congruence.
Qed.

Lemma tab_one_version v v' :
  in_sst tab_flushed 1 (tab_key x61) v -> in_sst tab_flushed 1 (tab_key x61) v' -> v = v'.
Proof.
  assert (Hall : forall v, in_sst tab_flushed 1 (tab_key x61) v ->
    v = {| value := Some (tab_row 7 9); begin_ts := 1; end_ts := OPEN_ENDED_TS; tx_id := 0 |}); [|by intros ->%Hall ->%Hall].
  intros x (f & rows & r & [level Hl] & (file & Hg & Hh) & Hin & _ & <- & _).
  assert (Hf : f = 0).
  { unfold level_has in Hl. change (vs_levels (version_set tab_flushed)) with [(0, [(0, tt)])] in Hl.
    rewrite om_get_cons in Hl. destruct (eqc level 0); [|done]. apply os_mem_In in Hl. by destruct Hl as [<-|[]]. }
  subst f. apply sst_read_all_holds in Hh. vm_compute in Hg. injection Hg as <-. vm_compute in Hh. injection Hh as <-.
  destruct Hin as [<-|[]]. vm_compute. reflexivity.
Qed.

(** A row stored under its primary key. *)
Definition key7 : bytes := assemble_table_key tab [sign_flip_be 7 8].
Definition keyed_lsm : SampleLsm := Eval vm_compute in put tab_lsm key7 (tab_row 7 9).
Definition keyed_history : bytes -> values := extend (fun _ => ∅) (number_commits 1 [(1, [MPut key7 (tab_row 7 9)])]).

Lemma keyed_run : lsm_run 0 keyed_lsm keyed_history.
Proof.
  refine (lrun_write 0 tab_lsm _ [MPut key7 (tab_row 7 9)] ThrottleNone IoOk IoOk _ (Ok 1) _ _ _ _).
  - by apply lrun_new.
  - done.
  - by repeat constructor.
  - vm_compute. reflexivity.
Qed.

Lemma keyed_values k t v : keyed_history k !! t = Some (Some v) -> k = key7 /\ v = tab_row 7 9.
Proof.
  unfold keyed_history. cbn [extend number_commits commits_edits]. cbn. unfold extend_edit. cbn.
  destruct (eqc _ _) eqn:E; [|by rewrite lookup_empty]. apply eqc_spec in E.
  intros [[_ [= <-]]|[_ Hx]]%lookup_insert_Some; [done|by rewrite lookup_empty in Hx].
Qed.

(** A row that was deleted, flushed and inserted again: the tombstone of the older
    file is found first, and the delete reports that there is nothing to delete. *)
Definition reinserted : SampleLsm := Eval vm_compute in
  let l := with_engine tab_put (engine_write (l_engine tab_put) [MDelete (assemble_table_key tab [sign_flip_be 7 8])] ThrottleNone IoOk IoOk).1 in
  let l := after l (flush l all_ok) in
  let l := put l (assemble_table_key tab [sign_flip_be 7 8]) (tab_row 7 9) in after l (flush l all_ok).

Lemma delete_misses_reinserted_row :
  scan_all reinserted 3 = Ok [(tab_key x61, Some (tab_row 7 9)); (assemble_table_key tab [sign_flip_be 7 8], Some (tab_row 7 9))] /\
  delete_with_column_predicates reinserted [] tab [[x69]] [PEq 0 (SvInt64 (Some 7))] = Some (Err EmptyBatch).
Proof. vm_compute. split; reflexivity. Qed.

(** The cached key columns of a table outlive a change of its schema: rows of the
    new schema are stored under the wrong column. *)
Definition swapped_schema : Schema := [mkField [x75] DtInt64 true; mkField [x69] DtInt64 false].
Definition swapped : list RecordBatch :=
  [mkBatch swapped_schema [mkArray DtInt64 [Some (AvInt 1)]; mkArray DtInt64 [Some (AvInt 7)]] 1].

Lemma stale_key_columns :
  let '((_, cache), _) := ingest_batches [] [] ingested tab [[x69]] in
  match (ingest_batches [] cache swapped tab [[x69]]).2 with Some (Ok ms) => map mutation_key ms | _ => [] end
  = [assemble_table_key tab [sign_flip_be 1 8]] /\
  match (ingest_batches [] [] swapped tab [[x69]]).2 with Some (Ok ms) => map mutation_key ms | _ => [] end
  = [assemble_table_key tab [sign_flip_be 7 8]].
Proof. vm_compute. split; reflexivity. Qed.
End Samples.
