(* ===== verification/Database.v ===== *)
(** * The database facade ([hatp/src/embedded.rs])

    [Database] owns the engine, the catalog and the transaction manager behind the
    engine's hook; [Transaction] buffers its writes over a pinned snapshot, keeps
    the read and write sets of its SSI context, and commits its buffer as one
    batch.  A database is its engine ([Lsm] with its [Sidecars]), the catalog with
    the count of unsaved DDL statements, and the two catalog files; the clones of a
    handle share it, so every operation takes the database and returns it. *)

From Stdlib Require Import Strings.String Sorting.Sorted.
From stdpp Require Import base tactics list option gmap.
From S2P Require Import Prelude OrdMap Types Version Crc32c Wal MemTable MemTableProps TxManager Codec Bloom KeyIndex Arrow RowCodec ColumnPredicate Manifest Compaction Engine Snapshots Sst SstProps Lsm LsmProps LsmReads Lookup Catalog.
#[local] Open Scope Z_scope.

(** ** Errors *)

Inductive DatabaseError :=
| DbEngine (err : EngineError)
| ReadOnlyCommit
| DataFusion (msg : string)
| DbArrow (msg : string)
| Frontend (msg : string)
| SsiConflict (txn : Z) (key : bytes)
| SsiReadWriteConflict (txn : Z) (key : bytes)
| Config (msg : string).

Abbreviation DbResult A := (result DatabaseError A).

(** The [#\[from\]] conversion behind [?]. *)
Definition from_engine {A} (r : Result A) : DbResult A :=
  match r with Ok a => Ok a | Err err => Err (DbEngine err) end.

(** ** The transaction manager behind the hook *)

(** [detect_tx_manager]: the downcast of the engine's hook.  The manager is shared
    with the hook, so its updates go back there. *)
Class DetectTxManager (H : Type) := {
  detect_tx_manager : H -> option TxManager;
  put_manager : TxManager -> H -> H;
}.

#[global] Instance noop_manager : DetectTxManager unit := {|
  detect_tx_manager _ := None;
  put_manager _ h := h;
|}.

#[global] Instance hook_manager : DetectTxManager TxManager := {|
  detect_tx_manager m := Some m;
  put_manager m _ := m;
|}.

(** ** The catalog on disk *)

(** [serde_json] on catalog snapshots. *)
Class CatalogJson := {
  json_to_vec : CatalogSnapshot -> option bytes;
  json_from_slice : bytes -> option CatalogSnapshot;
}.

(** What is decoded is what was encoded. *)
Class CatalogJsonLaws `{CatalogJson} := {
  json_roundtrip : forall s b, json_to_vec s = Some b -> json_from_slice b = Some s;
}.

(** [catalog.json] and [catalog.json.tmp] *)
Record CatalogFiles := mkFiles { cf_json : option bytes; cf_tmp : option bytes }.

(** Outcomes of the system calls of a save, in order. *)
Record SaveIo := mkSaveIo { io_create : IoOutcome; io_write : IoOutcome; io_fsync : IoOutcome; io_rename : IoOutcome }.

Section Files.
Context `{CatalogJson}.

(** [save_catalog]: [false] when the catalog was not written. *)
Definition save_catalog_file (files : CatalogFiles) (catalog : CatalogState) (io : SaveIo) : CatalogFiles * bool :=
  match json_to_vec (to_snapshot catalog) with
  | None => (files, false)
  | Some json =>
      match io_create io with
      | IoErr _ _ => (files, false)
      | IoOk =>
          match io_write io with
          | IoErr n _ => (mkFiles (cf_json files) (Some (take n json)), false)
          | IoOk =>
              let written := mkFiles (cf_json files) (Some json) in
              match io_fsync io with
              | IoErr _ _ => (written, false)
              | IoOk =>
                  match io_rename io with
                  | IoErr _ _ => (written, false)
                  | IoOk => (mkFiles (Some json) None, true)
                  end
              end
          end
      end
  end.

(** [load_catalog] *)
Definition load_catalog (files : CatalogFiles) (io_read : IoOutcome) : DbResult CatalogState :=
  match io_read with
  | IoErr _ msg => Err (DbEngine (Io msg))
  | IoOk =>
      match cf_json files with
      | None => Ok []
      | Some json =>
          match json_from_slice json with
          | None => Err (Frontend "catalog decode failed")
          | Some snapshot =>
              match from_snapshot snapshot with
              | Ok st => Ok st
              | Err _ => Err (Frontend "catalog apply failed")
              end
          end
      end
  end.
End Files.

Definition CATALOG_SAVE_THRESHOLD : Z := 16.

(** ** The database *)

Record Transaction := mkTx {
  t_snapshot_ts : TxnTs;
  t_mutations : list Mutation;
  t_reserved_tx_id : option TxnId;
  t_is_ssi : bool;
}.

Section Database.
Context {hw : Crc32Hw} {T H : Type} `{MemTableBackend T} `{EngineHook H} `{DetectTxManager H} `{VortexLib} `{ScalarOrd} `{CatalogJson}.
#[local] Abbreviation Eng := (Engine (T := T) (H := H)).
#[local] Abbreviation Tree := (Lsm (T := T) (H := H)).

Record Database := mkDb {
  db_tree : Tree;
  db_sidecars : Sidecars;
  db_catalog : CatalogState;
  db_ddl_count : Z;
  db_files : CatalogFiles;
}.

Definition with_tree (db : Database) (l : Tree) : Database :=
  mkDb l (db_sidecars db) (db_catalog db) (db_ddl_count db) (db_files db).
Definition with_sidecars (db : Database) (sc : Sidecars) : Database :=
  mkDb (db_tree db) sc (db_catalog db) (db_ddl_count db) (db_files db).
Definition with_saved (db : Database) (n : Z) (files : CatalogFiles) : Database :=
  mkDb (db_tree db) (db_sidecars db) (db_catalog db) n files.

Definition db_engine (db : Database) : Eng := l_engine (db_tree db).
Definition with_eng (db : Database) (e : Eng) : Database := with_tree db (with_engine (db_tree db) e).

(** The field [tx_manager]; [update_manager] is a call on it. *)
Definition tx_manager (db : Database) : option TxManager := detect_tx_manager (e_hook (db_engine db)).
Definition update_manager (db : Database) (m : TxManager) : Database :=
  with_eng db (with_hook (db_engine db) (put_manager m (e_hook (db_engine db)))).

(** *** Opening *)

(** Paths as their components, which is how [Path] compares them. *)
Definition paths_match (canonicalize : list bytes -> option (list bytes)) (requested engine_path : list bytes) : bool :=
  bool_decide (requested = engine_path) ||
  match canonicalize requested, canonicalize engine_path with
  | Some requested_canon, Some engine_canon => bool_decide (requested_canon = engine_canon)
  | _, _ => false
  end.

(** [open_with_engine]; the registration of the tables with DataFusion may fail. *)
Definition open_with_engine (canonicalize : list bytes -> option (list bytes)) (requested engine_path : list bytes)
    (l : Tree) (sc : Sidecars) (files : CatalogFiles) (io_read : IoOutcome) (registered : result string unit)
  : DbResult Database :=
  if negb (paths_match canonicalize requested engine_path) then Err (Config "engine path mismatch") else
  let? catalog := load_catalog files io_read in
  match registered with
  | Err msg => Err (Frontend msg)
  | Ok _ => Ok (mkDb l sc catalog 0 files)
  end.

(** *** Transactions: begin *)

(** [Database::begin] *)
Definition db_begin (db : Database) : Database * Transaction :=
  let '(e, snapshot_ts) := begin_read (db_engine db) in
  (with_eng db e, mkTx snapshot_ts [] None false).

(** [Database::begin_ssi] makes three calls, each under a lock of its own: [begin_read],
    [reserve_tx_id] and [begin_ssi_with_id].  Other threads' calls may fall between
    them. *)
Definition ssi_snapshot (db : Database) : Database * TxnTs :=
  let '(e, start_ts) := begin_read (db_engine db) in (with_eng db e, start_ts).

Definition ssi_reserve (db : Database) : Database * TxnId :=
  let '(e, reserved) := alloc_tx_id (db_engine db) in (with_eng db e, reserved).

Definition ssi_register (db : Database) (reserved : TxnId) (start_ts : TxnTs) : Database * Transaction :=
  match tx_manager db with
  | None => (db, mkTx start_ts [] None false)
  | Some manager =>
      let '(manager, ssi) := begin_ssi_with_id manager reserved start_ts in
      (update_manager db manager, mkTx start_ts [] (Some (th_id (handle ssi))) true)
  end.

(** The whole of it, when nothing falls between. *)
Definition db_begin_ssi (db : Database) : Database * Transaction :=
  match tx_manager db with
  | None => db_begin db
  | Some _ =>
      let '(db, start_ts) := ssi_snapshot db in
      let '(db, reserved) := ssi_reserve db in
      ssi_register db reserved start_ts
  end.

(** *** Autocommit operations and reads *)

Definition db_write (db : Database) (ms : list Mutation) (throttle : ThrottleLevel) (io_w io_s : IoOutcome)
  : Database * DbResult TxnTs :=
  let '(e, r) := engine_write (db_engine db) ms throttle io_w io_s in (with_eng db e, from_engine r).

(** [Database::put] *)
Definition db_put (db : Database) (key value : bytes) := db_write db [MPut key value].
(** [Database::delete] *)
Definition db_delete (db : Database) (key : bytes) := db_write db [MDelete key].

(** [Database::get]: the guard is dropped when the read returns. *)
Definition db_get (db : Database) (key : bytes) : option (Database * DbResult (option bytes)) :=
  let '(e, snapshot_ts) := begin_read (db_engine db) in
  let db := with_eng db e in
  '(sc, r) ← lsm_get (db_tree db) (db_sidecars db) key snapshot_ts;
  let db := with_sidecars db sc in
  Some (with_eng db (unpin_snapshot (db_engine db) snapshot_ts), from_engine r).

(** [Database::get_at] *)
Definition db_get_at (db : Database) (key : bytes) (snapshot_ts : TxnTs) : option (Database * DbResult (option bytes)) :=
  let db := with_eng db (pin_snapshot (db_engine db) snapshot_ts) in
  '(sc, r) ← lsm_get (db_tree db) (db_sidecars db) key snapshot_ts;
  let db := with_sidecars db sc in
  Some (with_eng db (unpin_snapshot (db_engine db) snapshot_ts), from_engine r).

(** [Database::flush], with the sidecars the flush writes for its file. *)
Definition db_flush (db : Database) (io : LsmIo) (bloom_m bloom_k : Z) (io_bloom io_index : IoOutcome)
  : option (Database * DbResult Z) :=
  let l := db_tree db in
  let rows_before := mt_len (e_memtable (l_engine l)) in
  let '(l1, rows) := flush_drain l in
  let file_id := vs_next_file_id (version_set l) in
  '(l', r) ← flush l io;
  sc ← match rows, sst_write rows file_id (first_schema l1 rows) (io_sst io file_id) with
       | _ :: _, Some (Ok _) => write_sidecars (db_sidecars db) file_id rows bloom_m bloom_k io_bloom io_index
       | _, _ => Some (db_sidecars db)
       end;
  Some (with_sidecars (with_tree db l') sc, let? _ := from_engine r in Ok rows_before).

(** [schedule_catalog_save] *)
Definition schedule_catalog_save (db : Database) (io : SaveIo) : Database :=
  let count := wrap64 (db_ddl_count db + 1) in
  if CATALOG_SAVE_THRESHOLD <=? count
  then with_saved db 0 (save_catalog_file (db_files db) (db_catalog db) io).1
  else with_saved db count (db_files db).

(** [Database::register_table]; [registered] is the answer of DataFusion. *)
Definition register_table (db : Database) (registered : result string unit) (io : SaveIo) : Database * DbResult unit :=
  match registered with
  | Err msg => (db, Err (Frontend msg))
  | Ok _ => (schedule_catalog_save db io, Ok tt)
  end.

(** [Database::save_catalog], and the drop of the last handle. *)
Definition save_catalog (db : Database) (io : SaveIo) : Database :=
  with_saved db (db_ddl_count db) (save_catalog_file (db_files db) (db_catalog db) io).1.
Definition db_drop (db : Database) (strong_count : Z) (io : SaveIo) : Database :=
  if strong_count =? 1 then save_catalog db io else db.

(** *** Transactions: buffered writes *)

(** A call of [with_ssi_txn] on the context of [tx], its result discarded. *)
Definition on_context (db : Database) (tx : Transaction) (f : SsiTxn -> SsiTxn) : Database :=
  match tx_manager db, t_reserved_tx_id tx with
  | Some manager, Some id => update_manager db (with_ssi_txn manager id (fun ssi => (f ssi, tt))).1
  | _, _ => db
  end.

Definition record_ssi_write (db : Database) (tx : Transaction) (key : bytes) : Database :=
  if negb (t_is_ssi tx) then db else on_context db tx (fun ssi => record_write ssi key).

Definition push_mutation (tx : Transaction) (m : Mutation) : Transaction :=
  mkTx (t_snapshot_ts tx) (t_mutations tx ++ [m]) (t_reserved_tx_id tx) (t_is_ssi tx).

(** [Transaction::put] *)
Definition tx_put (db : Database) (tx : Transaction) (key value : bytes) : Database * Transaction :=
  (record_ssi_write db tx key, push_mutation tx (MPut key value)).

(** [Transaction::delete] *)
Definition tx_delete (db : Database) (tx : Transaction) (key : bytes) : Database * Transaction :=
  (record_ssi_write db tx key, push_mutation tx (MDelete key)).

(** *** Transactions: reads *)

(** The reverse walk over the buffer: [Some] is the answer of a buffered write. *)
Fixpoint buffered (ms : list Mutation) (key : bytes) : option (option bytes) :=
  match ms with
  | [] => None
  | MPut candidate value :: rest => if eqc candidate key then Some (Some value) else buffered rest key
  | MDelete candidate :: rest => if eqc candidate key then Some None else buffered rest key
  end.

(** [Transaction::get] *)
Definition tx_get (db : Database) (tx : Transaction) (key : bytes) : option (Database * DbResult (option bytes)) :=
  match buffered (rev (t_mutations tx)) key with
  | Some answer => Some (db, Ok answer)
  | None =>
      let db := if t_is_ssi tx then on_context db tx (fun ssi => record_read ssi key) else db in
      db_get_at db key (t_snapshot_ts tx)
  end.

(** [find] with the assignment through it. *)
Fixpoint set_existing (key value : bytes) (kvs : list (bytes * bytes)) : option (list (bytes * bytes)) :=
  match kvs with
  | [] => None
  | (k, v) :: rest =>
      if eqc k key then Some ((k, value) :: rest)
      else match set_existing key value rest with Some rest => Some ((k, v) :: rest) | None => None end
  end.

Definition fold_mutation (lower upper : bytes) (kvs : list (bytes * bytes)) (m : Mutation) : list (bytes * bytes) :=
  match m with
  | MPut key value =>
      if lec lower key && ltc key upper
      then match set_existing key value kvs with Some kvs => kvs | None => kvs ++ [(key, value)] end
      else kvs
  | MDelete key =>
      if lec lower key && ltc key upper then List.filter (fun '(k, _) => negb (eqc k key)) kvs else kvs
  end.

(** [Transaction::scan_range] *)
Definition tx_scan_range (db : Database) (tx : Transaction) (lower upper : bytes)
  : option (Database * DbResult (list (bytes * bytes))) :=
  let db := if t_is_ssi tx then on_context db tx (fun ssi => add_read_conflict_range ssi lower upper) else db in
  r ← scan_range (db_tree db) lower upper (t_snapshot_ts tx);
  Some (db, let? kvs := from_engine r in
            Ok (sort_by_key fst (fold_left (fold_mutation lower upper) (t_mutations tx) kvs))).

(** *** Transactions: commit and drop *)

(** [clone_for_retry]: the clone pins the snapshot again. *)
Definition clone_for_retry (db : Database) (tx : Transaction) : Database * Transaction :=
  (with_eng db (pin_snapshot (db_engine db) (t_snapshot_ts tx)), tx).

Definition commit_error (err : EngineError) : DatabaseError :=
  match err with
  | WriteConflict txn key => SsiConflict txn key
  | ReadWriteConflict txn key => SsiReadWriteConflict txn key
  | other => DbEngine other
  end.

(** [try_commit] *)
Definition try_commit (db : Database) (tx : Transaction) (throttle : ThrottleLevel) (io_w io_s : IoOutcome)
  : Database * result (Transaction * DatabaseError) TxnTs :=
  match t_mutations tx with
  | [] => let '(db, retry) := clone_for_retry db tx in (db, Err (retry, ReadOnlyCommit))
  | ms =>
      let '(e, commit_result) := match t_reserved_tx_id tx with
                                 | Some id => write_with_tx (db_engine db) id ms throttle io_w io_s
                                 | None => engine_write (db_engine db) ms throttle io_w io_s
                                 end in
      let db := with_eng db e in
      match commit_result with
      | Ok commit_ts => (db, Ok commit_ts)
      | Err err => let '(db, retry) := clone_for_retry db tx in (db, Err (retry, commit_error err))
      end
  end.

(** [Drop for Transaction], then the drop of the snapshot guard. *)
Definition tx_drop (db : Database) (tx : Transaction) : Database :=
  let db := match tx_manager db, t_reserved_tx_id tx with
            | Some manager, Some id => update_manager db (tm_abort manager id).1
            | _, _ => db
            end in
  with_eng db (unpin_snapshot (db_engine db) (t_snapshot_ts tx)).

(** [commit] consumes the transaction: the clone returned with an error is
    dropped, then the transaction itself. *)
Definition tx_commit (db : Database) (tx : Transaction) (throttle : ThrottleLevel) (io_w io_s : IoOutcome)
  : Database * DbResult TxnTs :=
  match try_commit db tx throttle io_w io_s with
  | (db, Ok commit_ts) => (tx_drop db tx, Ok commit_ts)
  | (db, Err (retry, err)) => (tx_drop (tx_drop db retry) tx, Err err)
  end.

(** [rollback] *)
Definition rollback (db : Database) (tx : Transaction) : Database := tx_drop db tx.
End Database.
