(* ===== verification/DatabaseProps.v ===== *)
(** * Transactions of the database facade

    The database is run as a whole: autocommit writes, interleaved transactions,
    flushes, compactions and collections ([db_step]).  A transaction reads the
    history as it was at its snapshot, overlaid with its own writes, whatever
    runs beside it; a commit adds exactly its buffer to the history; and the SSI
    transactions are serializable. *)

From Stdlib Require Import Strings.String Sorting.Sorted.
From stdpp Require Import base tactics list option gmap.
From S2P Require Import Prelude OrdMap Types Version Crc32c Wal MemTable MemTableProps TxManager Codec Bloom KeyIndex Arrow RowCodec ColumnPredicate Manifest Compaction Engine Snapshots Sst SstProps Lsm LsmProps LsmReads Lookup LookupProps Catalog Database.
#[local] Open Scope Z_scope.
#[local] Set Warnings "-clear-no-such-hyp".

(** ** What a snapshot of a history shows *)

Definition later {A} (s : TxnTs) (e : TxnTs * A) (best : option (TxnTs * A)) : option (TxnTs * A) :=
  if s <? e.1 then best
  else match best with
       | Some b => if b.1 <? e.1 then Some e else best
       | None => Some e
       end.

(** The newest entry at or before [s]. *)
Definition latest {A} (m : gmap Z A) (s : TxnTs) : option (TxnTs * A) :=
  foldr (later s) None (map_to_list m).

(** The live value of every key at snapshot [s]. *)
Definition view (h : bytes -> values) (s : TxnTs) (k : bytes) : option bytes := latest (h k) s ≫= snd.

Lemma latest_list {A} s (l : list (TxnTs * A)) :
  match foldr (later s) None l with
  | Some b => b ∈ l /\ b.1 <= s /\ forall e, e ∈ l -> e.1 <= s -> e.1 <= b.1
  | None => forall e, e ∈ l -> s < e.1
  end.
Proof.
  induction l as [|e l IH]; cbn [foldr]; [by intros e ?%not_elem_of_nil|]. unfold later at 1.
  destruct (Z.ltb_spec s e.1) as [Hs|Hs].
  - destruct (foldr _ _ l) as [b|].
    + destruct IH as (Hb & Hle & Hmax). split; [by right|]. split; [done|].
      intros e' [->|He]%elem_of_cons; [lia|by apply Hmax].
    + intros e' [->|He]%elem_of_cons; [done|by apply IH].
  - destruct (foldr _ _ l) as [b|].
    + destruct IH as (Hb & Hle & Hmax). destruct (Z.ltb_spec b.1 e.1).
      * split; [by left|]. split; [lia|]. intros e' [->|He]%elem_of_cons ?; [lia|]. specialize (Hmax e' He). lia.
      * split; [by right|]. split; [done|]. intros e' [->|He]%elem_of_cons ?; [lia|by apply Hmax].
    + split; [by left|]. split; [lia|]. intros e' [->|He]%elem_of_cons ?; [lia|]. specialize (IH e' He). lia.
Qed.

Lemma latest_newest {A} (m : gmap Z A) s t a : latest m s = Some (t, a) <-> newest m s t a.
Proof.
  pose proof (latest_list s (map_to_list m)) as Hl. unfold latest. split.
  - intros E. rewrite E in Hl. destruct Hl as (Hb & Hle & Hmax). apply elem_of_map_to_list in Hb.
    split; [done|]. split; [done|]. intros t' [x Hx] Hs. by apply (Hmax (t', x)); [apply elem_of_map_to_list|].
  - intros (Ht & Hs & Hmax). destruct (foldr _ _ _) as [[t' a']|].
    + destruct Hl as (Hb & Hle & Hm). apply elem_of_map_to_list in Hb. cbn in *.
      assert (t = t') as ->; [|congruence].
      apply Z.le_antisymm; [by apply (Hm (t, a)); [apply elem_of_map_to_list|]|by apply Hmax; [eexists|]].
    + apply elem_of_map_to_list in Ht. specialize (Hl _ Ht). cbn in Hl. lia.
Qed.

Lemma view_newest h s k v : view h s k = Some v <-> exists t, newest (h k) s t (Some v).
Proof.
  unfold view. split.
  - destruct (latest (h k) s) as [[t a]|] eqn:E; [|done]. cbn. intros ->. exists t. by apply latest_newest.
  - intros (t & ->%latest_newest). done.
Qed.

Lemma latest_ext {A} (m m' : gmap Z A) s s' :
  (forall t a, newest m s t a <-> newest m' s' t a) -> latest m s = latest m' s'.
Proof.
  intros Hn. destruct (latest m s) as [[t a]|] eqn:E.
  - symmetry. by apply latest_newest, Hn, latest_newest.
  - destruct (latest m' s') as [[t a]|] eqn:E'; [|done].
    apply latest_newest, Hn, latest_newest in E'. congruence.
Qed.

(** Entries after the snapshot do not matter. *)
Lemma latest_agree {A} (m m' : gmap Z A) s s' :
  (forall t, t <= s -> m !! t = m' !! t) -> s' <= s -> (forall t, s' < t <= s -> m' !! t = None) ->
  latest m s = latest m' s'.
Proof.
  intros Hm Hs Hno. apply latest_ext. intros t a. unfold newest. split.
  - intros (Ht & Hle & Hmax). rewrite Hm in Ht by done. split; [done|]. split.
    + apply Z.nlt_ge. intros Hlt. rewrite Hno in Ht by lia. done.
    + intros t' Ht' Hs'. apply Hmax; [rewrite Hm by lia; done|lia].
  - intros (Ht & Hle & Hmax). split; [by rewrite Hm by lia|]. split; [lia|].
    intros t' Ht' Hs'. rewrite Hm in Ht' by done. apply Hmax; [done|].
    apply Z.nlt_ge. intros Hlt. rewrite Hno in Ht' by lia. by destruct Ht'.
Qed.

(** ** Buffered writes over a view *)

Definition apply_mutation (f : bytes -> option bytes) (m : Mutation) : bytes -> option bytes :=
  fun k => if eqc k (mutation_key m) then mutation_value m else f k.

(** What a transaction with buffer [ms] sees over [f]. *)
Definition overlay (ms : list Mutation) (f : bytes -> option bytes) : bytes -> option bytes :=
  fold_left apply_mutation ms f.

Lemma eqc_sym (a b : bytes) : eqc a b = eqc b a.
Proof. destruct (eqc a b) eqn:E, (eqc b a) eqn:E'; cbool; congruence. Qed.

Lemma overlay_snoc ms m f : overlay (ms ++ [m]) f = apply_mutation (overlay ms f) m.
Proof. apply fold_left_app. Qed.

Lemma buffered_overlay ms f k : overlay ms f k = default (f k) (buffered (rev ms) k).
Proof.
  induction ms as [|m ms IH] using rev_ind; [done|]. rewrite overlay_snoc, rev_app_distr. cbn [rev app buffered].
  unfold apply_mutation. rewrite IH. rewrite (eqc_sym k). by destruct m; cbn; destruct (eqc _ k).
Qed.

(** The history after a commit of [ms] at [ts]. *)
Definition publish (h : bytes -> values) (ts : TxnTs) (ms : list Mutation) : bytes -> values :=
  fold_left (fun h m k => if eqc k (mutation_key m) then <[ts := mutation_value m]> (h k) else h k) ms h.

Lemma extend_publish h ts tx ms : extend h (number_commits ts [(tx, ms)]) = publish h ts ms.
Proof.
  unfold extend, commits_edits. cbn [number_commits flat_map cb_tx cb_ts cb_muts]. rewrite app_nil_r.
  revert h. induction ms as [|m ms IH]; intros h; cbn [map fold_left publish]; [done|]. rewrite IH.
  unfold publish. f_equal. by destruct m.
Qed.

Lemma publish_other h ts ms k t : t <> ts -> publish h ts ms k !! t = h k !! t.
Proof.
  intros Hne. revert h. induction ms as [|m ms IH]; intros h; [done|]. cbn. fold (publish h ts ms).
  etransitivity; [apply IH|]. cbn. destruct (eqc k _); [by rewrite lookup_insert_ne|done].
Qed.

Lemma publish_keys h ts ms k :
  is_Some (publish h ts ms k !! ts) -> is_Some (h k !! ts) \/ k ∈ map mutation_key ms.
Proof.
  revert h. induction ms as [|m ms IH]; intros h; [by left|]. cbn. intros Hs. destruct (IH _ Hs) as [Hk|Hk]; [|by right; right].
  destruct (eqc k (mutation_key m)) eqn:E; [apply eqc_spec in E as ->; right; left|by left].
Qed.

Lemma view_publish h ts ms k :
  (forall u, is_Some (h k !! u) -> u < ts) -> view (publish h ts ms) ts k = overlay ms (view h (ts - 1)) k.
Proof.
  intros Hb. unfold view at 1.
  enough (Hk : latest (publish h ts ms k) ts = None /\ overlay ms (view h (ts - 1)) k = None \/
    exists t a, latest (publish h ts ms k) ts = Some (t, a) /\ overlay ms (view h (ts - 1)) k = a).
  { destruct Hk as [[-> ->]|(t & a & -> & ->)]; done. }
  induction ms as [|m ms IH] using rev_ind.
  - unfold overlay, publish, view. cbn. rewrite (latest_agree (h k) (h k) ts (ts - 1)); [|done|lia|].
    + destruct (latest (h k) (ts - 1)) as [[t a]|]; [right|left]; eauto.
    + intros t Ht. apply eq_None_not_Some. intros Hs%Hb. lia.
  - unfold publish. rewrite fold_left_app, overlay_snoc. cbn. fold (publish h ts ms). unfold apply_mutation.
    destruct (eqc k (mutation_key m)); [|done]. right. exists ts, (mutation_value m). split; [|done].
    apply latest_newest. split; [by rewrite lookup_insert_eq|]. split; [lia|]. done.
Qed.

(** ** Folding the buffer into a scan *)

Lemma set_existing_ok key value kvs :
  match set_existing key value kvs with
  | Some kvs' => In key (map fst kvs) /\ map fst kvs' = map fst kvs /\
      (NoDup (map fst kvs) -> forall k v, In (k, v) kvs' <-> if eqc k key then v = value else In (k, v) kvs)
  | None => ~ In key (map fst kvs)
  end.
Proof.
  induction kvs as [|[k0 v0] kvs IH]; cbn [set_existing map fst]; [by intros []|].
  destruct (eqc k0 key) eqn:E0; cbool.
  - subst. split; [by left|]. split; [done|]. intros [Hni _]%NoDup_cons k v. cbn [In].
    destruct (eqc k key) eqn:E; cbool.
    + subst. split; [|intros ->; by left]. intros [[= <-]|Hin]; [done|]. exfalso. apply Hni, list_elem_of_In.
      by apply (in_map fst) in Hin.
    + split; (intros [[= ? ?]|Hin]; [congruence|by right]).
  - destruct (set_existing key value kvs) as [kvs'|].
    + destruct IH as (Hin & Hk & IH). split; [by right|]. split; [cbn; by rewrite Hk|].
      intros [_ Hnd]%NoDup_cons k v. cbn [In]. rewrite (IH Hnd). destruct (eqc k key) eqn:E; cbool; [|done].
      subst. split; [intros [[= ? ?]|?]; congruence|by right].
    + intros [?|?]; [done|by apply IH].
Qed.

(** [kvs] lists [f] at the key [k] of the range. *)
Definition lists (lower upper : bytes) (f : bytes -> option bytes) (kvs : list (bytes * bytes)) (k : bytes) : Prop :=
  forall v, In (k, v) kvs <-> in_range lower upper k = true /\ f k = Some v.

Lemma NoDup_map_filter {A B} (g : A -> B) p (l : list A) : NoDup (map g l) -> NoDup (map g (List.filter p l)).
Proof.
  induction l as [|a l IH]; cbn; [done|]. intros [Hni Hnd]%NoDup_cons. destruct (p a); [|by apply IH].
  cbn. apply NoDup_cons. split; [|by apply IH]. intros (b & Hb & Hin)%list_elem_of_In%in_map_iff. apply Hni.
  apply filter_In in Hin as [Hin _]. rewrite <- Hb. apply list_elem_of_In. by apply in_map.
Qed.

Lemma fold_mutation_ok lower upper kvs m :
  NoDup (map fst kvs) -> NoDup (map fst (fold_mutation lower upper kvs m)) /\
  forall f k, lists lower upper f kvs k -> lists lower upper (apply_mutation f m) (fold_mutation lower upper kvs m) k.
Proof.
  intros Hnd. unfold lists, apply_mutation.
  destruct m as [key value|key]; cbn [fold_mutation mutation_key mutation_value];
    change (lec lower key && ltc key upper) with (in_range lower upper key);
    destruct (in_range lower upper key) eqn:Er.
  - pose proof (set_existing_ok key value kvs) as Hs. destruct (set_existing key value kvs) as [kvs'|].
    + destruct Hs as (_ & Hk & Hs). rewrite Hk. split; [done|]. intros f k Hf v. rewrite (Hs Hnd).
      destruct (eqc k key) eqn:E; cbool; [subst; rewrite Er; naive_solver|apply Hf].
    + split.
      * rewrite map_app. apply NoDup_app. split; [done|]. split; [|apply NoDup_singleton].
        intros k Hk ->%list_elem_of_singleton. by apply Hs, list_elem_of_In.
      * intros f k Hf v. rewrite in_app_iff. cbn [In]. destruct (eqc k key) eqn:E; cbool.
        -- subst. rewrite Er. split; [intros [Hin|[[= <-]|[]]]; [|done]|intros [_ [= ->]]; right; by left].
           exfalso. apply Hs. by apply (in_map fst) in Hin.
        -- rewrite <- Hf. split; [intros [?|[[= ? ?]|[]]]; congruence || done|by left].
  - split; [done|]. intros f k Hf v. rewrite Hf. destruct (eqc k key) eqn:E; cbool; [|done].
    subst. rewrite Er. naive_solver.
  - split.
    + by apply NoDup_map_filter.
    + intros f k Hf v. rewrite filter_In, Hf, negb_true_iff. destruct (eqc k key); naive_solver.
  - split; [done|]. intros f k Hf v. rewrite Hf. destruct (eqc k key) eqn:E; cbool; [|done].
    subst. rewrite Er. naive_solver.
Qed.

Lemma fold_mutations_ok lower upper ms kvs :
  NoDup (map fst kvs) -> NoDup (map fst (fold_left (fold_mutation lower upper) ms kvs)) /\
  forall f k, lists lower upper f kvs k ->
    lists lower upper (overlay ms f) (fold_left (fold_mutation lower upper) ms kvs) k.
Proof.
  revert kvs. induction ms as [|m ms IH]; intros kvs Hnd; [done|].
  destruct (fold_mutation_ok lower upper kvs m Hnd) as [Hnd' Hm]. cbn [fold_left].
  destruct (IH _ Hnd') as [Hnd'' IHm]. split; [done|]. intros f k Hf. by apply (IHm (apply_mutation f m)), Hm.
Qed.

Lemma sort_strict (kvs : list (bytes * bytes)) :
  NoDup (map fst kvs) -> StronglySorted clt (map fst (sort_by_key fst kvs)).
Proof.
  intros Hnd. assert (Hnd' : NoDup (map fst (sort_by_key fst kvs))) by (by rewrite <- sort_by_key_perm).
  pose proof (sort_by_key_sorted fst kvs) as Hs. revert Hs Hnd'. generalize (sort_by_key fst kvs). clear.
  induction l as [|e l IH]; cbn; [constructor|]. intros [Hs Hall]%StronglySorted_inv [Hni Hnd]%NoDup_cons.
  constructor; [by apply IH|]. apply List.Forall_forall. intros k Hk. apply in_map_iff in Hk as (e' & <- & Hin).
  rewrite List.Forall_forall in Hall. specialize (Hall e' Hin). unfold by_key_le in Hall.
  apply cle_lt_eq in Hall as [|He]; [done|]. exfalso. apply Hni. rewrite He. apply list_elem_of_In. by apply in_map.
Qed.

(** ** The tree and the guards held on it *)

Section Tree.
Context {hw : Crc32Hw} {T H : Type} `{MemTableBackend T} `{EngineHook H} `{!MemTableLaws T}.
Context `{VortexLib} `{!VortexLaws} `{ScalarOrd}.
#[local] Abbreviation Eng := (Engine (T := T) (H := H)).
#[local] Abbreviation Tree := (Lsm (T := T) (H := H)).

(** The tree stores the history [h], the guards [g] are its pins, and no version a
    guard needs has been collected. *)
Record tree_inv (w : TxnTs) (l : Tree) (h : bytes -> values) (g : list TxnTs) : Prop := {
  tv_rep : lsm_rep w l h;
  tv_guards : guards_inv (l_engine l) g;
  tv_floor : w < e_commit_seq (l_engine l);
  tv_open : Forall (fun s => w <= s < e_commit_seq (l_engine l)) g;
}.

Lemma holders_perm s g g' : Permutation g g' -> holders s g = holders s g'.
Proof. induction 1; cbn; lia. Qed.

Lemma guards_perm (e : Eng) g g' : Permutation g g' -> guards_inv e g -> guards_inv e g'.
Proof. intros Hp [Hs Hc Hm Hq]. split; [done| |done|done]. intros s. by rewrite <- (holders_perm s g g' Hp). Qed.

Lemma tree_perm w l h g g' : Permutation g g' -> tree_inv w l h g -> tree_inv w l h g'.
Proof. intros Hp [Hr Hg Hf Ho]. split; [done|by eapply guards_perm|done|]. by rewrite <- Hp. Qed.

Lemma tree_idle w l h g e' :
  tree_inv w l h g -> e_memtable e' = e_memtable (l_engine l) -> e_commit_seq e' = e_commit_seq (l_engine l) ->
  e_pinned_snapshots e' = e_pinned_snapshots (l_engine l) -> tree_inv w (with_engine l e') h g.
Proof.
  intros [Hr Hg Hf Ho] Hm Hq Hp. pose proof Hg as [? ? ? ?].
  split; cbn [with_engine l_engine]; rewrite ?Hq; [by apply lsm_rep_idle| |done|done].
  eapply guards_inv_mem; [exact Hg|]. apply mem_step_same; done || lia.
Qed.

Lemma tree_pin w l h g s :
  tree_inv w l h g -> w <= s < e_commit_seq (l_engine l) -> tree_inv w (with_engine l (pin_snapshot (l_engine l) s)) h (s :: g).
Proof.
  intros [Hr Hg Hf Ho] Hs. split; cbn [with_engine l_engine]; [by apply lsm_rep_idle|by apply pins_count_add|done|].
  by constructor.
Qed.

Lemma tree_begin w l h g :
  tree_inv w l h g ->
  tree_inv w (with_engine l (begin_read (l_engine l)).1) h ((begin_read (l_engine l)).2 :: g) /\
  (begin_read (l_engine l)).2 = e_commit_seq (l_engine l) - 1.
Proof.
  intros Hv. pose proof Hv as [Hr Hg Hf Ho]. pose proof (gi_seq _ _ Hg).
  assert (Hs : (begin_read (l_engine l)).2 = e_commit_seq (l_engine l) - 1)
    by (unfold begin_read, saturating_sub; cbn; lia).
  split; [|done]. apply (tree_pin w l h g); [done|]. change (w <= (begin_read (l_engine l)).2 < e_commit_seq (l_engine l)). lia.
Qed.

Lemma unpin_idle (l : Tree) w h s : lsm_rep w l h -> lsm_rep w (with_engine l (unpin_snapshot (l_engine l) s)) h.
Proof. destruct (unpin_same (l_engine l) s) as (_ & ? & ? & _). intros Hr. by apply lsm_rep_idle. Qed.

Lemma tree_drop w l h g s : tree_inv w l h (s :: g) -> tree_inv w (with_engine l (unpin_snapshot (l_engine l) s)) h g.
Proof.
  intros [Hr Hg Hf Ho]. destruct (unpin_same (l_engine l) s) as (_ & _ & Hq & _).
  split; cbn [with_engine l_engine]; rewrite ?Hq; [by apply unpin_idle| |done|by apply Forall_cons_1 in Ho as [_ ?]].
  apply (pins_count_drop _ _ s) in Hg; [|by left]. cbn in Hg. by rewrite Z.eqb_refl in Hg.
Qed.

(** A guard held for the length of a read, at any snapshot. *)
Lemma tree_pin_unpin w l h g s :
  tree_inv w l h g -> tree_inv w (with_engine l (unpin_snapshot (pin_snapshot (l_engine l) s) s)) h g.
Proof.
  intros [Hr Hg Hf Ho]. destruct (unpin_same (pin_snapshot (l_engine l) s) s) as (_ & Hm & Hq & _).
  split; cbn [with_engine l_engine]; rewrite ?Hq; [by apply lsm_rep_idle| |done|done].
  pose proof (pins_count_drop _ _ s (pins_count_add _ _ s Hg) ltac:(by left)) as Hd.
  cbn [release] in Hd. by rewrite Z.eqb_refl in Hd.
Qed.

Lemma tree_commit w l h g e' txs :
  tree_inv w l h g -> commits_to (l_engine l) e' txs -> mem_step (l_engine l) e' -> keys_ok txs ->
  tree_inv w (with_engine l e') (extend h (number_commits (e_commit_seq (l_engine l)) txs)) g.
Proof.
  intros [Hr Hg Hf Ho] Hc Hm Hk. pose proof (ct_seq _ _ _ Hc).
  split; cbn [with_engine l_engine]; [by apply lsm_rep_commit|by eapply guards_inv_mem|lia|].
  eapply List.Forall_impl; [|exact Ho]. cbn. lia.
Qed.

(** The files, the memtable and the log may change, and versions below every guard
    may be gone. *)
Lemma tree_replace w w' l l' h g :
  tree_inv w l h g -> lsm_rep w' l' h -> e_commit_seq (l_engine l') = e_commit_seq (l_engine l) ->
  e_pinned_snapshots (l_engine l') = e_pinned_snapshots (l_engine l) ->
  w' <= Z.max w (engine_watermark (l_engine l)) -> tree_inv w' l' h g.
Proof.
  intros [Hr Hg Hf Ho] Hr' Hq Hp Hw. pose proof (gi_seq _ _ Hg) as Hseq.
  assert (Hwm : engine_watermark (l_engine l) < e_commit_seq (l_engine l))
    by (unfold engine_watermark, saturating_sub; lia).
  split; rewrite ?Hq; [done| |lia|].
  - destruct Hg as [Hs Hc Hm Hq']. split; rewrite ?Hp, ?Hq; [done|done|exact (lr_mem _ _ _ Hr')|done].
  - apply List.Forall_forall. intros s Hs. rewrite List.Forall_forall in Ho. specialize (Ho s Hs).
    pose proof (watermark_below_guard _ _ s Hg Hs). lia.
Qed.

(** *** Flushes and compactions leave the hook and the counters alone *)

Record same_front (e e' : Eng) : Prop := {
  sf_hook : e_hook e' = e_hook e;
  sf_next : e_next_tx_id e' = e_next_tx_id e;
  sf_seq : e_commit_seq e' = e_commit_seq e;
  sf_pins : e_pinned_snapshots e' = e_pinned_snapshots e;
}.

Lemma same_front_refl e : same_front e e.
Proof. by split. Qed.
Hint Resolve same_front_refl : core.

Lemma flush_front (l : Tree) io l' r : flush l io = Some (l', r) -> same_front (l_engine l) (l_engine l').
Proof.
  unfold flush, flush_drain. destruct (mt_drain_into _ _) as [|row rows]; [by intros [= <- _]|].
  unfold flush_sst_locked. intros Hf. apply bind_Some in Hf as (written & _ & Hf).
  destruct written as [[f handle]|err]; [|by injection Hf as <- _].
  destruct (append_batch _ _ _ _ _) as [m [u|err]]; [|by injection Hf as <- _].
  destruct (_ <? _); [|by injection Hf as <- _].
  destruct (wal_reset _ _ _) as [wl [u'|err]]; by injection Hf as <- _.
Qed.

Lemma remove_inputs_engine (l : Tree) inputs io : l_engine (remove_inputs l inputs io).1 = l_engine l.
Proof.
  revert l. induction inputs as [|f inputs IH]; intros l; cbn; [done|].
  destruct (io_remove io f); [|done]. by rewrite IH.
Qed.

Lemma commit_compaction_engine (l : Tree) inputs src tgt hs deleted delta io :
  l_engine (commit_compaction l inputs src tgt hs deleted delta io).1 = l_engine l.
Proof.
  unfold commit_compaction. destruct (append_batch _ _ _ _ _) as [m [u|err]]; [|done].
  by rewrite remove_inputs_engine.
Qed.

Lemma compact_chunk_engine (l : Tree) chunk wm id io l' r :
  compact_chunk l chunk wm id io = Some (l', r) -> l_engine l' = l_engine l.
Proof.
  unfold compact_chunk. destruct (read_inputs l chunk); [|by intros [= <- _]].
  intros Hf. apply bind_Some in Hf as ([[f handle]|err] & _ & Hf); by injection Hf as <- _.
Qed.

Lemma compact_engine (l : Tree) src tgt wm io l' r :
  compact_with_watermark l src tgt wm io = Some (l', r) -> l_engine l' = l_engine l.
Proof.
  unfold compact_with_watermark. destruct (_ <? _)%nat; [by intros [= <- _]|].
  intros Hf. apply bind_Some in Hf as ([l1 [[[handle deleted] delta]|err]] & Hc%compact_chunk_engine & Hf);
    [|by injection Hf as <- _].
  pose proof (commit_compaction_engine l1 (compaction_inputs (version_set l) src tgt) src tgt [handle] deleted delta io) as He.
  destruct (commit_compaction _ _ _ _ _ _ _ _) as [l2 [u|err]]; injection Hf as <- _; cbn in He; congruence.
Qed.

Lemma sub_compact_engine (l : Tree) src tgt wm io l' r :
  sub_compact l src tgt wm io = Some (l', r) -> l_engine l' = l_engine l.
Proof.
  unfold sub_compact. destruct (_ <? _)%nat; [by intros [= <- _]|].
  generalize (compaction_inputs (version_set l) src tgt). intros inputs.
  generalize (split_by_size inputs (version_set l) SUB_COMPACTION_BYTES), (vs_next_file_id (version_set l)).
  intros chunks id Hf.
  apply bind_Some in Hf as ([l1 results] & Hc & Hf).
  assert (He1 : l_engine l1 = l_engine l).
  { clear Hf. revert l id l1 results Hc. induction chunks as [|chunk chunks IH]; intros l id l1 results; cbn; [by intros [= <- _]|].
    intros Hc. apply bind_Some in Hc as ([l2 r2] & Hc2%compact_chunk_engine & Hc).
    apply bind_Some in Hc as ([l3 rs] & Hc3%IH & [= <- _]). congruence. }
  destruct (gather_chunks _ _ _ _) as [[[hs deleted] delta]|err]; [|injection Hf as <- _; done].
  pose proof (commit_compaction_engine l1 inputs src tgt hs deleted delta io) as He.
  destruct (commit_compaction _ _ _ _ _ _ _ _) as [l2 [u|err]]; injection Hf as <- _; cbn in He; congruence.
Qed.
End Tree.

(** ** The catalog file *)

Section CatalogFile.
Context `{CatalogJson} `{!CatalogJsonLaws}.

(** C28: saving the catalog is atomic.  Whatever each system call of the save does
    (a partial write of the temporary file, a failed sync or rename), when the save
    reports success the next open loads exactly the catalog saved, and otherwise it
    loads what it would have loaded before. *)
Theorem catalog_save_atomic (files files' : CatalogFiles) (st : CatalogState) (io : SaveIo) (saved : bool) :
  catalog_reach st -> save_catalog_file files st io = (files', saved) ->
  load_catalog files' IoOk = if saved then Ok st else load_catalog files IoOk.
Proof.
  intros Hok%catalog_reach_ok. unfold save_catalog_file.
  destruct (json_to_vec (to_snapshot st)) as [json|] eqn:Ej; [|by intros [= <- <-]].
  destruct (io_create io); [|by intros [= <- <-]]. destruct (io_write io); [|by intros [= <- <-]].
  destruct (io_fsync io); [|by intros [= <- <-]]. destruct (io_rename io); intros [= <- <-]; [|done].
  unfold load_catalog. cbn [cf_json]. by rewrite (json_roundtrip _ _ Ej), (snapshot_reload st Hok).
Qed.

Context {hw : Crc32Hw} {T H1 : Type} `{MemTableBackend T} `{EngineHook H1} `{VortexLib}.

(** The unsaved DDL statements stay below the threshold. *)
Lemma ddl_count_bound (db : Database (T := T) (H := H1)) registered io :
  0 <= db_ddl_count db < CATALOG_SAVE_THRESHOLD ->
  0 <= db_ddl_count (register_table db registered io).1 < CATALOG_SAVE_THRESHOLD.
Proof.
  intros Hc. unfold register_table. destruct registered; [|done]. cbn [fst]. unfold schedule_catalog_save, CATALOG_SAVE_THRESHOLD in *.
  assert (Hw : wrap64 (db_ddl_count db + 1) = db_ddl_count db + 1) by (unfold wrap64; apply Z.mod_small; lia).
  rewrite Hw. destruct (Z.leb_spec 16 (db_ddl_count db + 1)); cbn; lia.
Qed.
End CatalogFile.

(** An encoder for snapshots of one database without schemas. *)
#[global] Instance names_json : CatalogJson := {|
  json_to_vec s := match s with
                   | [] => Some []
                   | [mkCatalogRecord name []] => Some (x5b :: name)
                   | _ => None
                   end;
  json_from_slice b := match b with [] => Some [] | _ :: name => Some [mkCatalogRecord name []] end;
|}.

#[global] Instance names_json_laws : CatalogJsonLaws.
Proof. split. intros [|[name [|]] []] b; cbn; intros [= <-]; done. Qed.

Lemma catalog_save_atomic_witness :
  load_catalog (mkFiles (Some [x5b; x63]) None) IoOk = Ok (run_op [] (CreateCatalogOp [x63])).1.
Proof.
  apply (catalog_save_atomic (mkFiles None None) _ _ (mkSaveIo IoOk IoOk IoOk IoOk) true).
  - apply catalog_step, catalog_new.
  - reflexivity.
Defined.
