(* ===== verification/DatabaseRun.v ===== *)
(** * Runs of the database

    Autocommit writes, interleaved transactions, reads, flushes, compactions and
    collections as steps of one world, with the three calls of [begin_ssi] as separate
    steps; snapshot isolation of the transactions for every run.  A commit and a flush
    are one step each; what can go wrong inside them is shown at the end and in
    [LsmProps]. *)

From Stdlib Require Import Strings.String Sorting.Sorted.
From stdpp Require Import base tactics list option gmap.
From S2P Require Import Prelude OrdMap Types Version Crc32c Wal MemTable MemTableProps TxManager Codec Bloom KeyIndex Arrow RowCodec ColumnPredicate Manifest Compaction Engine Snapshots Sst SstProps Lsm LsmProps LsmReads Lookup LookupProps Catalog Database DatabaseProps.
#[local] Open Scope Z_scope.
#[local] Set Warnings "-clear-no-such-hyp".

Definition publish_result {E} (h : bytes -> values) (ms : list Mutation) (r : result E TxnTs) : bytes -> values :=
  match r with Ok ts => publish h ts ms | Err _ => h end.

Definition keys_small (ms : list Mutation) : Prop := Forall (fun m => blen (mutation_key m) < u32_max) ms.

Section Run.
Context {hw : Crc32Hw} {T H : Type} `{MemTableBackend T} `{EngineHook H} `{!MemTableLaws T} `{DetectTxManager H}.
Context `{VortexLib} `{!VortexLaws} `{ScalarOrd} `{CatalogJson}.
#[local] Abbreviation Db := (Database (T := T) (H := H)).
#[local] Abbreviation Tree := (Lsm (T := T) (H := H)).

(** A call of [begin_ssi] under way: it has its snapshot, and perhaps its id. *)
Record Begun := mkBegun { bg_ts : TxnTs; bg_id : option TxnId }.

Definition begun_ids (bg : list Begun) : list TxnId :=
  List.flat_map (fun b => match bg_id b with Some id => [id] | None => [] end) bg.

(** The database with its open transactions and the calls of [begin_ssi] under way;
    the ghosts are the history of its commits, the latest watermark versions were
    collected at, the SSI transactions committed, as their contexts were at the
    commit, and those registered after the commit of an SSI transaction that their
    snapshot does not include. *)
Record World := mkWorld {
  wd_db : Db;
  wd_open : list Transaction;
  wd_history : bytes -> values;
  wd_floor : TxnTs;
  wd_log : list (SsiTxn * TxnTs);
  wd_begun : list Begun;
  wd_late : list TxnId;
}.

Definition ssi_commit {E} (db : Db) (tx : Transaction) (r : result E TxnTs) : list (SsiTxn * TxnTs) :=
  match r, tx_manager db, t_reserved_tx_id tx with
  | Ok ts, Some m, Some id =>
      match get_ssi_txn m id with
      | Some t => [(fold_left record_write (map mutation_key (t_mutations tx)) t, ts)]
      | None => []
      end
  | _, _, _ => []
  end.

(** The counters are not exhausted. *)
Definition room (db : Db) : Prop :=
  e_commit_seq (db_engine db) + 1 < OPEN_ENDED_TS /\ e_next_tx_id (db_engine db) + 1 < u64_max.

(** The retry handle a failed commit returns. *)
Definition retries {A} (r : result (Transaction * DatabaseError) A) : list Transaction :=
  match r with Ok _ => [] | Err (retry, _) => [retry] end.

Inductive db_step : World -> World -> Prop :=
  | st_write db open h w log bg late ms throttle io_w io_s db' r :
      room db -> keys_small ms -> db_write db ms throttle io_w io_s = (db', r) ->
      db_step (mkWorld db open h w log bg late) (mkWorld db' open (publish_result h ms r) w log bg late)
  | st_begin db open h w log bg late db' tx :
      db_begin db = (db', tx) -> db_step (mkWorld db open h w log bg late) (mkWorld db' (tx :: open) h w log bg late)
  | st_ssi_snapshot db open h w log bg late db' s :
      ssi_snapshot db = (db', s) ->
      db_step (mkWorld db open h w log bg late) (mkWorld db' open h w log (mkBegun s None :: bg) late)
  | st_ssi_reserve db open h w log bg late s rest db' id :
      room db -> Permutation bg (mkBegun s None :: rest) -> ssi_reserve db = (db', id) ->
      db_step (mkWorld db open h w log bg late) (mkWorld db' open h w log (mkBegun s (Some id) :: rest) late)
  | st_ssi_register db open h w log bg late s id rest db' tx :
      Permutation bg (mkBegun s (Some id) :: rest) -> ssi_register db id s = (db', tx) ->
      db_step (mkWorld db open h w log bg late) (mkWorld db' (tx :: open) h w log rest (note_late log s id late))
  | st_put db open h w log bg late tx rest key value db' tx' :
      Permutation open (tx :: rest) -> tx_put db tx key value = (db', tx') ->
      db_step (mkWorld db open h w log bg late) (mkWorld db' (tx' :: rest) h w log bg late)
  | st_delete db open h w log bg late tx rest key db' tx' :
      Permutation open (tx :: rest) -> tx_delete db tx key = (db', tx') ->
      db_step (mkWorld db open h w log bg late) (mkWorld db' (tx' :: rest) h w log bg late)
  | st_get db open h w log bg late tx key db' r :
      tx ∈ open -> tx_get db tx key = Some (db', r) ->
      db_step (mkWorld db open h w log bg late) (mkWorld db' open h w log bg late)
  | st_scan db open h w log bg late tx lower upper db' r :
      tx ∈ open -> tx_scan_range db tx lower upper = Some (db', r) ->
      db_step (mkWorld db open h w log bg late) (mkWorld db' open h w log bg late)
  | st_db_get db open h w log bg late key db' r :
      db_get db key = Some (db', r) -> db_step (mkWorld db open h w log bg late) (mkWorld db' open h w log bg late)
  | st_get_at db open h w log bg late key s db' r :
      db_get_at db key s = Some (db', r) -> db_step (mkWorld db open h w log bg late) (mkWorld db' open h w log bg late)
  | st_try_commit db open h w log bg late tx throttle io_w io_s db' r :
      tx ∈ open -> room db -> keys_small (t_mutations tx) -> try_commit db tx throttle io_w io_s = (db', r) ->
      db_step (mkWorld db open h w log bg late)
        (mkWorld db' (retries r ++ open) (publish_result h (t_mutations tx) r) w (log ++ ssi_commit db tx r) bg late)
  | st_drop db open h w log bg late tx rest :
      Permutation open (tx :: rest) ->
      db_step (mkWorld db open h w log bg late) (mkWorld (tx_drop db tx) rest h w log bg late)
  | st_register db open h w log bg late registered io :
      db_step (mkWorld db open h w log bg late) (mkWorld (register_table db registered io).1 open h w log bg late)
  | st_flush db open h w log bg late io m k io_bloom io_index db' n :
      vs_next_file_id (version_set (db_tree db)) < u64_max -> is_u64 (io_now io) ->
      io_man_w io = IoOk -> io_man_s io = IoOk -> db_flush db io m k io_bloom io_index = Some (db', Ok n) ->
      db_step (mkWorld db open h w log bg late) (mkWorld db' open h w log bg late)
  | st_compact db open h w log bg late src tgt io l' r sc :
      vs_next_file_id (version_set (db_tree db)) + 1 < u64_max -> is_u32 tgt -> is_u64 (io_now io) ->
      io_man_w io = IoOk -> io_man_s io = IoOk -> compact (db_tree db) src tgt io = Some (l', Ok r) ->
      db_step (mkWorld db open h w log bg late)
        (mkWorld (with_sidecars (with_tree db l') sc) open h (Z.max w (engine_watermark (db_engine db))) log bg late)
  | st_sub_compact db open h w log bg late src tgt io l' r sc :
      vs_next_file_id (version_set (db_tree db)) + Z.of_nat (length (file_ids (version_set (db_tree db)))) < u64_max ->
      is_u32 tgt -> is_u64 (io_now io) -> io_man_w io = IoOk -> io_man_s io = IoOk ->
      sub_compact (db_tree db) src tgt (engine_watermark (db_engine db)) io = Some (l', Ok r) ->
      db_step (mkWorld db open h w log bg late)
        (mkWorld (with_sidecars (with_tree db l') sc) open h (Z.max w (engine_watermark (db_engine db))) log bg late)
  | st_gc db open h w log bg late :
      versions_count (mt_map (e_memtable (db_engine db))) <= u64_max ->
      db_step (mkWorld db open h w log bg late)
        (mkWorld (with_eng db (engine_garbage_collect (db_engine db)).1) open h
           (Z.max w (engine_watermark (db_engine db))) log bg late)
  | st_sync db open h w log bg late io :
      db_step (mkWorld db open h w log bg late) (mkWorld (with_eng db (background_sync (db_engine db) io)) open h w log bg late).

(** A database just created. *)
Definition new_world (W : World) : Prop :=
  man_open None IoOk = Some (Ok (l_manifest (db_tree (wd_db W)))) /\
  e_memtable (db_engine (wd_db W)) = mt_default /\
  1 <= e_commit_seq (db_engine (wd_db W)) < OPEN_ENDED_TS /\
  1 <= e_next_tx_id (db_engine (wd_db W)) /\
  e_pinned_snapshots (db_engine (wd_db W)) = [] /\
  (forall m, tx_manager (wd_db W) = Some m -> m = tm_default) /\
  wd_open W = [] /\ wd_history W = (fun _ => ∅) /\ wd_floor W = 0 /\ wd_log W = [] /\ wd_begun W = [] /\ wd_late W = [].

Definition db_reach (W : World) : Prop := exists W0, new_world W0 /\ rtc db_step W0 W.

(** ** The tree of a run *)

(** The snapshots that are pinned. *)
Definition pinned (open : list Transaction) (bg : list Begun) : list TxnTs :=
  map t_snapshot_ts open ++ map bg_ts bg.

Definition world_inv (W : World) : Prop :=
  tree_inv (wd_floor W) (db_tree (wd_db W)) (wd_history W) (pinned (wd_open W) (wd_begun W)).

Lemma pinned_open tx open bg : tx ∈ open -> t_snapshot_ts tx ∈ pinned open bg.
Proof. intros Hin. apply elem_of_app. left. by apply list_elem_of_fmap_2. Qed.

Lemma pinned_perm open open' bg bg' :
  Permutation open open' -> Permutation bg bg' -> Permutation (pinned open bg) (pinned open' bg').
Proof. intros Ho Hb. apply Permutation_app; by apply Permutation_map. Qed.

(** Calls that touch only the hook. *)
Lemma manager_tree w (db : Db) h g m :
  tree_inv w (db_tree db) h g -> tree_inv w (db_tree (update_manager db m)) h g.
Proof. intros Hv. by apply tree_idle. Qed.

Lemma on_context_tree w (db : Db) h g tx f :
  tree_inv w (db_tree db) h g -> tree_inv w (db_tree (on_context db tx f)) h g.
Proof.
  intros Hv. unfold on_context. destruct (tx_manager db), (t_reserved_tx_id tx); try done. by apply manager_tree.
Qed.

Lemma context_tree w (db : Db) h g tx f (b : bool) :
  tree_inv w (db_tree db) h g -> tree_inv w (db_tree (if b then on_context db tx f else db)) h g.
Proof. destruct b; [apply on_context_tree|done]. Qed.

Lemma record_write_tree w (db : Db) h g tx k :
  tree_inv w (db_tree db) h g -> tree_inv w (db_tree (record_ssi_write db tx k)) h g.
Proof. unfold record_ssi_write. destruct (negb _); [done|apply on_context_tree]. Qed.

Lemma get_at_tree w (db : Db) h g k s db' r :
  tree_inv w (db_tree db) h g -> db_get_at db k s = Some (db', r) -> tree_inv w (db_tree db') h g.
Proof.
  intros Hv Hg. unfold db_get_at in Hg. apply bind_Some in Hg as ([sc r0] & _ & [= <- _]).
  by apply (tree_pin_unpin w (db_tree db) h g s).
Qed.

Lemma get_tree w (db : Db) h g k db' r :
  tree_inv w (db_tree db) h g -> db_get db k = Some (db', r) -> tree_inv w (db_tree db') h g.
Proof. intros Hv. change (db_get db k) with (db_get_at db k (begin_read (db_engine db)).2). by apply get_at_tree. Qed.

Lemma begin_tree w (db : Db) h g db' tx :
  tree_inv w (db_tree db) h g -> db_begin db = (db', tx) ->
  tree_inv w (db_tree db') h (t_snapshot_ts tx :: g) /\ t_snapshot_ts tx = e_commit_seq (db_engine db) - 1.
Proof. intros Hv [= <- <-]. by apply tree_begin. Qed.

Lemma ssi_register_tree w (db : Db) h g id s db' tx :
  tree_inv w (db_tree db) h g -> ssi_register db id s = (db', tx) ->
  tree_inv w (db_tree db') h g /\ t_snapshot_ts tx = s /\
  e_commit_seq (db_engine db') = e_commit_seq (db_engine db).
Proof.
  intros Hv. unfold ssi_register. destruct (tx_manager db); intros [= <- <-]; [|done].
  split; [by apply manager_tree|done].
Qed.

Lemma drop_tree w (db : Db) h g tx :
  tree_inv w (db_tree db) h (t_snapshot_ts tx :: g) -> tree_inv w (db_tree (tx_drop db tx)) h g.
Proof.
  intros Hv. unfold tx_drop. destruct (tx_manager db), (t_reserved_tx_id tx); try by apply tree_drop.
  apply (tree_drop w (db_tree (update_manager db _))). by apply manager_tree.
Qed.

(** *** Commits *)

#[local] Abbreviation Eng := (Engine (T := T) (H := H)).

Lemma commit_single_ts (e : Eng) tx ms io_w io_s e' ts :
  mt_inv (e_memtable e) -> 0 <= e_commit_seq e -> e_commit_seq e + 1 < OPEN_ENDED_TS ->
  commit_single e tx ms io_w io_s = (e', Ok ts) -> ts = e_commit_seq e.
Proof.
  intros Hi Hp Hb. unfold commit_single. destruct (hook_pre_commit _ _ _) as [h r0].
  destruct (if hook_is_noop then Ok tt else hook_result r0); [|done].
  destruct (match e_sync_mode (with_hook e h) with Full => _ | Group _ => _ end) as [w [n|err]]; [|done].
  destruct (apply_commit_ok (with_wal (with_hook e h) w) tx ms Hi Hp Hb) as (e2 & -> & _). by intros [= _ <-].
Qed.

Lemma write_with_tx_ts (e : Eng) tx ms throttle io_w io_s e' ts :
  mt_inv (e_memtable e) -> 0 <= e_commit_seq e -> e_commit_seq e + 1 < OPEN_ENDED_TS ->
  write_with_tx e tx ms throttle io_w io_s = (e', Ok ts) -> ts = e_commit_seq e.
Proof.
  intros Hi Hp Hb. unfold write_with_tx. destruct ms as [|m ms]; [done|]. destruct (tx =? 0); [done|].
  set (e1 := if _ <? _ then _ else _).
  assert (He1 : e_memtable e1 = e_memtable e /\ e_commit_seq e1 = e_commit_seq e) by (unfold e1; by destruct (_ <? _)).
  destruct He1 as [Hmem Hseq]. rewrite <- Hmem in Hi. rewrite <- Hseq in *.
  destruct throttle; [| |done]; by apply commit_single_ts.
Qed.

Lemma committed_publish h ts tx ms (r : Result TxnTs) :
  (forall u, r = Ok u -> u = ts) -> extend h (number_commits ts (committed tx ms r)) = publish_result h ms r.
Proof. intros Hr. destruct r as [u|err]; [|done]. rewrite (Hr u eq_refl). apply extend_publish. Qed.

Lemma write_with_tx_tree w (l : Tree) h g tx ms throttle io_w io_s e' r :
  tree_inv w l h g -> e_commit_seq (l_engine l) + 1 < OPEN_ENDED_TS -> keys_small ms ->
  write_with_tx (l_engine l) tx ms throttle io_w io_s = (e', r) ->
  tree_inv w (with_engine l e') (publish_result h ms r) g.
Proof.
  intros Hv Hb Hk Hw. pose proof (gi_mem _ _ (tv_guards _ _ _ _ Hv)) as Hm. pose proof (gi_seq _ _ (tv_guards _ _ _ _ Hv)) as Hq.
  rewrite <- (committed_publish h (e_commit_seq (l_engine l)) tx ms r).
  - apply tree_commit; [done| | |by apply committed_keys_ok].
    + eapply write_with_tx_to; [..|exact Hw]; done || lia.
    + eapply write_with_tx_mem; [..|exact Hw]; done || lia.
  - intros u ->. eapply write_with_tx_ts; [..|exact Hw]; done || lia.
Qed.

Lemma engine_write_tree w (l : Tree) h g ms throttle io_w io_s e' r :
  tree_inv w l h g -> e_commit_seq (l_engine l) + 1 < OPEN_ENDED_TS -> keys_small ms ->
  engine_write (l_engine l) ms throttle io_w io_s = (e', r) ->
  tree_inv w (with_engine l e') (publish_result h ms r) g.
Proof.
  intros Hv Hb Hk. unfold engine_write. destruct ms as [|m ms]; [intros [= <- <-]; by apply tree_idle|].
  intros Hw. apply (write_with_tx_tree w (with_engine l (alloc_tx_id (l_engine l)).1) h g) in Hw; [exact Hw| |done|done].
  by apply tree_idle.
Qed.

(** The batch a transaction hands to the engine. *)
Definition commit_call (e : Eng) (tx : Transaction) (throttle : ThrottleLevel) (io_w io_s : IoOutcome) : Eng * Result TxnTs :=
  match t_reserved_tx_id tx with
  | Some id => write_with_tx e id (t_mutations tx) throttle io_w io_s
  | None => engine_write e (t_mutations tx) throttle io_w io_s
  end.

Lemma try_commit_call (db : Db) tx throttle io_w io_s db' r :
  try_commit db tx throttle io_w io_s = (db', r) ->
  exists e0 r0, (r0 = Err EmptyBatch /\ e0 = db_engine db \/ commit_call (db_engine db) tx throttle io_w io_s = (e0, r0)) /\
    match r0 with
    | Ok ts => db' = with_eng db e0 /\ r = Ok ts
    | Err _ => db' = with_eng db (pin_snapshot e0 (t_snapshot_ts tx)) /\ exists err, r = Err (tx, err)
    end.
Proof.
  unfold try_commit, commit_call. destruct (t_mutations tx) as [|m ms].
  - intros [= <- <-]. exists (db_engine db), (Err EmptyBatch). split; [by left|]. split; [done|]. by eexists.
  - destruct (match t_reserved_tx_id tx with Some _ => _ | None => _ end) as [e0 r0]. intros Hr.
    exists e0, r0. split; [by right|]. destruct r0; injection Hr as <- <-; [done|]. split; [done|]. by eexists.
Qed.

Lemma try_commit_tree w (db : Db) h g tx throttle io_w io_s db' r :
  tree_inv w (db_tree db) h g -> t_snapshot_ts tx ∈ g -> room db -> keys_small (t_mutations tx) ->
  try_commit db tx throttle io_w io_s = (db', r) ->
  tree_inv w (db_tree db') (publish_result h (t_mutations tx) r) (map t_snapshot_ts (retries r) ++ g).
Proof.
  intros Hv Hin [Hb _] Hk Hc. destruct (try_commit_call _ _ _ _ _ _ _ Hc) as (e0 & r0 & He & Hr).
  assert (Hv0 : tree_inv w (with_engine (db_tree db) e0) (publish_result h (t_mutations tx) r0) g).
  { destruct He as [[-> ->]|He]; [by apply tree_idle|]. unfold commit_call in He.
    destruct (t_reserved_tx_id tx); [by eapply write_with_tx_tree|by eapply engine_write_tree]. }
  destruct r0 as [ts|err]; [destruct Hr as [-> ->]; exact Hv0|]. destruct Hr as (-> & err' & ->).
  apply (tree_pin w _ h g (t_snapshot_ts tx)) in Hv0 as Hp; [exact Hp|].
  pose proof (tv_open _ _ _ _ Hv0) as Ho. rewrite Forall_forall in Ho. exact (Ho _ Hin).
Qed.

(** *** Every step *)

Lemma flush_tree w (db : Db) h g io m k io_bloom io_index db' n :
  tree_inv w (db_tree db) h g -> vs_next_file_id (version_set (db_tree db)) < u64_max -> is_u64 (io_now io) ->
  io_man_w io = IoOk -> io_man_s io = IoOk -> db_flush db io m k io_bloom io_index = Some (db', Ok n) ->
  tree_inv w (db_tree db') h g /\ same_front (db_engine db) (db_engine db').
Proof.
  intros Hv Hn Hnow Hiw His. unfold db_flush. destruct (flush_drain (db_tree db)) as [l1 rows].
  intros Hf. apply bind_Some in Hf as ([l' r] & Hfl & Hf). apply bind_Some in Hf as (sc & _ & Hf).
  injection Hf as <- Hr. destruct r as [o|]; [|done]. pose proof (flush_front _ _ _ _ Hfl) as Hs.
  split; [|done]. apply (tree_replace w w (db_tree db) l' h g); [done| |apply Hs|apply Hs|lia].
  by eapply lsm_rep_flush; [exact (tv_rep _ _ _ _ Hv)|..].
Qed.

Lemma world_inv_step W W' : db_step W W' -> world_inv W -> world_inv W'.
Proof.
  unfold world_inv.
  destruct 1 as [db open h w log bg late ms th io_w io_s db' r [Hb _] Hk Hw|db open h w log bg late db' tx Hbg|db open h w log bg late db' s Hbg|db open h w log bg late s rest db' id [_ Hx] Hp Hbg
    |db open h w log bg late s id rest db' tx Hp Hbg
    |db open h w log bg late tx rest k v db' tx' Hp Ht|db open h w log bg late tx rest k db' tx' Hp Ht
    |db open h w log bg late tx k db' r _ Hg|db open h w log bg late tx lo up db' r _ Hg|db open h w log bg late k db' r Hg|db open h w log bg late k s db' r Hg
    |db open h w log bg late tx th io_w io_s db' r Hin Hroom Hk Hc|db open h w log bg late tx rest Hp|db open h w log bg late registered io
    |db open h w log bg late io m k iob ioi db' n Hn Hnow Hiw His Hf|db open h w log bg late src tgt io l' r sc Hn Ht Hnow Hiw His Hc
    |db open h w log bg late src tgt io l' r sc Hn Ht Hnow Hiw His Hc|db open h w log bg late Hvc|db open h w log bg late io];
    cbn [wd_db wd_open wd_history wd_floor wd_begun] in *; intros Hv.
  - unfold db_write in Hw. destruct (engine_write _ _ _ _ _) as [e' r0] eqn:Ew. injection Hw as <- <-.
    apply (engine_write_tree w (db_tree db) h _ ms th io_w io_s e' r0 Hv Hb Hk) in Ew. by destruct r0.
  - by eapply begin_tree.
  - injection Hbg as <- <-. apply (tree_perm _ _ _ _ _ (Permutation_middle (map t_snapshot_ts open) (map bg_ts bg) _)).
    by apply tree_begin.
  - injection Hbg as <- <-. apply (tree_idle w (db_tree db)); [|done..].
    by apply (tree_perm _ _ _ _ _ (pinned_perm _ _ _ _ (Permutation_refl open) Hp)).
  - destruct (ssi_register_tree w db h (pinned open bg) id s db' tx Hv Hbg) as (Hv' & Hs & _).
    eapply tree_perm; [|exact Hv']. rewrite (pinned_perm _ _ _ _ (Permutation_refl open) Hp). unfold pinned. cbn [map bg_ts app].
    rewrite Hs. symmetry. apply Permutation_middle.
  - injection Ht as <- <-. apply record_write_tree. cbn [push_mutation t_snapshot_ts].
    by apply (tree_perm _ _ _ _ _ (pinned_perm _ _ _ _ Hp (Permutation_refl bg))).
  - injection Ht as <- <-. apply record_write_tree. cbn [push_mutation t_snapshot_ts].
    by apply (tree_perm _ _ _ _ _ (pinned_perm _ _ _ _ Hp (Permutation_refl bg))).
  - unfold tx_get in Hg. destruct (buffered _ _); [by injection Hg as <- _|].
    eapply get_at_tree; [|exact Hg]. by apply context_tree.
  - unfold tx_scan_range in Hg. apply bind_Some in Hg as (r0 & _ & [= <- _]). by apply context_tree.
  - by eapply get_tree.
  - by eapply get_at_tree.
  - unfold pinned. rewrite map_app, <- app_assoc. eapply try_commit_tree; [done|by apply pinned_open|done|done|exact Hc].
  - apply drop_tree. by apply (tree_perm _ _ _ _ _ (pinned_perm _ _ _ _ Hp (Permutation_refl bg))).
  - destruct registered; [|done]. cbn. unfold schedule_catalog_save. by destruct (_ <=? _).
  - by eapply flush_tree.
  - pose proof (compact_engine _ _ _ _ _ _ _ Hc) as He.
    eapply (tree_replace w _ (db_tree db) l'); [done| |by rewrite He|by rewrite He|done].
    by eapply lsm_rep_compact; [exact (tv_rep _ _ _ _ Hv)|..].
  - pose proof (sub_compact_engine _ _ _ _ _ _ _ Hc) as He.
    eapply (tree_replace w _ (db_tree db) l'); [done| |by rewrite He|by rewrite He|done].
    by eapply lsm_rep_sub_compact; [exact (tv_rep _ _ _ _ Hv)|..].
  - eapply (tree_replace w _ (db_tree db)); [done|by apply lsm_rep_gc; [exact (tv_rep _ _ _ _ Hv)|]|..|done];
      cbn [with_eng with_tree db_tree with_engine l_engine]; unfold engine_garbage_collect; by destruct (mt_garbage_collect _ _).
  - by apply tree_idle.
Qed.

Lemma new_world_inv W : new_world W -> world_inv W.
Proof.
  intros (Hman & Hm & Hq & _ & Hp & _ & Ho & Hh & Hf & _ & Hb & _). unfold world_inv. rewrite Ho, Hf, Hh, Hb.
  assert (Hrep : lsm_rep 0 (db_tree (wd_db W)) (fun _ => ∅)) by (by apply lsm_rep_new).
  split; [done|by apply guards_inv_fresh; [|apply Hrep|]|unfold db_engine in Hq; lia|constructor].
Qed.

Lemma db_reach_inv W : db_reach W -> world_inv W.
Proof.
  intros (W0 & Hn & Hr). apply new_world_inv in Hn. induction Hr as [|W1 W2 W3 Hs _ IH]; [done|].
  by apply IH, (world_inv_step W1).
Qed.

(** ** What is in the past stays *)

Definition seq (W : World) : TxnTs := e_commit_seq (db_engine (wd_db W)).

Lemma on_context_same (db : Db) tx f :
  e_commit_seq (db_engine (on_context db tx f)) = e_commit_seq (db_engine db) /\
  e_next_tx_id (db_engine (on_context db tx f)) = e_next_tx_id (db_engine db).
Proof. unfold on_context. by destruct (tx_manager db), (t_reserved_tx_id tx). Qed.

Lemma record_write_same (db : Db) tx k :
  e_commit_seq (db_engine (record_ssi_write db tx k)) = e_commit_seq (db_engine db) /\
  e_next_tx_id (db_engine (record_ssi_write db tx k)) = e_next_tx_id (db_engine db).
Proof. unfold record_ssi_write. destruct (negb _); [done|apply on_context_same]. Qed.

Lemma unpin_hook (e : Eng) s : e_hook (unpin_snapshot e s) = e_hook e.
Proof. unfold unpin_snapshot. by destruct (om_get s (e_pinned_snapshots e)). Qed.

Lemma get_at_same (db : Db) k s db' r :
  db_get_at db k s = Some (db', r) ->
  e_commit_seq (db_engine db') = e_commit_seq (db_engine db) /\
  e_next_tx_id (db_engine db') = e_next_tx_id (db_engine db) /\ e_hook (db_engine db') = e_hook (db_engine db).
Proof.
  intros Hg. unfold db_get_at in Hg. apply bind_Some in Hg as ([sc r0] & _ & [= <- _]).
  cbn [with_eng with_tree db_engine db_tree with_sidecars with_engine l_engine].
  destruct (unpin_same (pin_snapshot (db_engine db) s) s) as (_ & _ & -> & _ & ->). by rewrite unpin_hook.
Qed.

Lemma drop_seq (db : Db) tx : e_commit_seq (db_engine (tx_drop db tx)) = e_commit_seq (db_engine db).
Proof.
  unfold tx_drop. cbn [with_eng with_tree db_engine db_tree with_engine l_engine].
  destruct (unpin_same (db_engine (match tx_manager db with Some m => match t_reserved_tx_id tx with
    Some id => update_manager db (tm_abort m id).1 | None => db end | None => db end)) (t_snapshot_ts tx)) as (_ & _ & -> & _).
  by destruct (tx_manager db), (t_reserved_tx_id tx).
Qed.

Lemma engine_write_ts (e : Eng) ms throttle io_w io_s e' ts :
  mt_inv (e_memtable e) -> 0 <= e_commit_seq e -> e_commit_seq e + 1 < OPEN_ENDED_TS ->
  engine_write e ms throttle io_w io_s = (e', Ok ts) -> ts = e_commit_seq e.
Proof.
  intros Hi Hp Hb. unfold engine_write. destruct ms as [|m ms]; [done|]. intros Hw.
  by apply (write_with_tx_ts (alloc_tx_id e).1) in Hw.
Qed.

(** What a commit does to the commit timestamps. *)
Lemma commit_call_seq (e : Eng) tx throttle io_w io_s e' r :
  mt_inv (e_memtable e) -> 0 <= e_commit_seq e -> e_commit_seq e + 1 < OPEN_ENDED_TS ->
  commit_call e tx throttle io_w io_s = (e', r) ->
  e_commit_seq e <= e_commit_seq e' /\ forall ts, r = Ok ts -> ts = e_commit_seq e.
Proof.
  intros Hi Hp Hb Hc. unfold commit_call in Hc. destruct (t_reserved_tx_id tx).
  - split; [by destruct (write_with_tx_mem _ _ _ _ _ _ _ _ Hi Hp Hb Hc); lia|].
    intros ts ->. by eapply write_with_tx_ts.
  - split; [by destruct (engine_write_mem _ _ _ _ _ _ _ Hi Hp Hb Hc); lia|].
    intros ts ->. by eapply engine_write_ts.
Qed.

Lemma publish_past {E} h ms (r : result E TxnTs) n k t :
  (forall ts, r = Ok ts -> ts = n) -> t < n -> publish_result h ms r k !! t = h k !! t.
Proof. destruct r as [ts|]; [|done]. intros Hn Ht. specialize (Hn ts eq_refl). apply publish_other. lia. Qed.

(** A step keeps the history before the commit timestamp it starts at. *)
Lemma history_step W W' :
  db_step W W' -> world_inv W ->
  seq W <= seq W' /\ forall k t, t < seq W -> wd_history W' k !! t = wd_history W k !! t.
Proof.
  unfold world_inv, seq.
  destruct 1 as [db open h w log bg late ms th io_w io_s db' r [Hb _] Hk Hw|db open h w log bg late db' tx Hbg|db open h w log bg late db' s Hbg|db open h w log bg late s rest db' id [_ Hx] Hp Hbg
    |db open h w log bg late s id rest db' tx Hp Hbg
    |db open h w log bg late tx rest k v db' tx' Hp Ht|db open h w log bg late tx rest k db' tx' Hp Ht
    |db open h w log bg late tx k db' r _ Hg|db open h w log bg late tx lo up db' r _ Hg|db open h w log bg late k db' r Hg|db open h w log bg late k s db' r Hg
    |db open h w log bg late tx th io_w io_s db' r Hin [Hb _] Hk Hc|db open h w log bg late tx rest Hp|db open h w log bg late registered io
    |db open h w log bg late io m k iob ioi db' n Hn Hnow Hiw His Hf|db open h w log bg late src tgt io l' r sc Hn Ht Hnow Hiw His Hc
    |db open h w log bg late src tgt io l' r sc Hn Ht Hnow Hiw His Hc|db open h w log bg late Hvc|db open h w log bg late io];
    cbn [wd_db wd_open wd_history wd_floor] in *; intros Hv;
    pose proof (gi_mem _ _ (tv_guards _ _ _ _ Hv)) as Hm; pose proof (gi_seq _ _ (tv_guards _ _ _ _ Hv)) as Hq;
    fold (db_engine db) in Hm, Hq.
  - unfold db_write in Hw. destruct (engine_write _ _ _ _ _) as [e' r0] eqn:Ew. injection Hw as <- <-.
    split; [by destruct (engine_write_mem _ _ _ _ _ _ _ Hm ltac:(lia) Hb Ew); cbn; lia|].
    intros k t Ht. apply (publish_past _ _ _ (e_commit_seq (db_engine db))); [|done].
    intros ts Hts. destruct r0; [|done]. injection Hts as ->. by eapply engine_write_ts; [..|exact Ew]; try lia.
  - injection Hbg as <- <-. split; [cbn; lia|done].
  - injection Hbg as <- <-. split; [cbn; lia|done].
  - injection Hbg as <- <-. split; [cbn; lia|done].
  - destruct (ssi_register_tree _ _ _ _ _ _ _ _ Hv Hbg) as (_ & _ & ->). split; [lia|done].
  - injection Ht as <- <-. rewrite (proj1 (record_write_same db tx k)). split; [lia|done].
  - injection Ht as <- <-. rewrite (proj1 (record_write_same db tx k)). split; [lia|done].
  - unfold tx_get in Hg. destruct (buffered _ _); [injection Hg as <- _; split; [lia|done]|].
    apply get_at_same in Hg as [-> _]. destruct (t_is_ssi tx); rewrite ?(proj1 (on_context_same _ _ _)); (split; [lia|done]).
  - unfold tx_scan_range in Hg. apply bind_Some in Hg as (r0 & _ & [= <- _]).
    destruct (t_is_ssi tx); rewrite ?(proj1 (on_context_same _ _ _)); (split; [lia|done]).
  - change (db_get db k) with (db_get_at db k (begin_read (db_engine db)).2) in Hg.
    apply get_at_same in Hg as [-> _]. split; [lia|done].
  - apply get_at_same in Hg as [-> _]. split; [lia|done].
  - destruct (try_commit_call _ _ _ _ _ _ _ Hc) as (e0 & r0 & He & Hr).
    assert (Hs : e_commit_seq (db_engine db) <= e_commit_seq e0 /\ forall ts, r0 = Ok ts -> ts = e_commit_seq (db_engine db)).
    { destruct He as [[-> ->]|He]; [split; [lia|done]|]. by eapply commit_call_seq; [..|exact He]; try lia. }
    destruct Hs as [Hs Hts]. destruct r0 as [ts|err].
    + destruct Hr as [-> ->]. split; [exact Hs|]. intros k t Ht.
      apply (publish_past _ _ _ (e_commit_seq (db_engine db))); [|done]. intros ts' [= <-]. by apply Hts.
    + destruct Hr as (-> & err' & ->). split; [exact Hs|done].
  - rewrite drop_seq. split; [lia|done].
  - destruct registered; [|split; [apply Z.le_refl|done]]. cbn. unfold schedule_catalog_save. destruct (_ <=? _); (split; [apply Z.le_refl|done]).
  - destruct (flush_tree _ _ _ _ _ _ _ _ _ _ _ Hv Hn Hnow Hiw His Hf) as [_ ?%sf_seq]. split; [lia|done].
  - pose proof (compact_engine _ _ _ _ _ _ _ Hc) as He. unfold db_engine. cbn. rewrite He. split; [lia|done].
  - pose proof (sub_compact_engine _ _ _ _ _ _ _ Hc) as He. unfold db_engine. cbn. rewrite He. split; [lia|done].
  - split; [|done]. unfold engine_garbage_collect. destruct (mt_garbage_collect _ _). cbn. lia.
  - split; [cbn; lia|done].
Qed.

Lemma history_steps W W' :
  rtc db_step W W' -> world_inv W ->
  world_inv W' /\ seq W <= seq W' /\ forall k t, t < seq W -> wd_history W' k !! t = wd_history W k !! t.
Proof.
  induction 1 as [|W1 W2 W3 Hs _ IH]; intros Hi; [by split; [|split; [lia|]]|].
  destruct (history_step _ _ Hs Hi) as [Hq Hh]. destruct (IH (world_inv_step _ _ Hs Hi)) as (Hi' & Hq' & Hh').
  split; [done|]. split; [lia|]. intros k t Ht. rewrite Hh' by lia. by apply Hh.
Qed.

(** ** Reads of a transaction *)

Lemma on_context_tables (db : Db) tx f :
  l_dropped (db_tree (on_context db tx f)) = l_dropped (db_tree db) /\ version_set (db_tree (on_context db tx f)) = version_set (db_tree db).
Proof. unfold on_context. by destruct (tx_manager db), (t_reserved_tx_id tx). Qed.

Lemma is_dropped_same (l l' : Tree) k : l_dropped l' = l_dropped l -> is_dropped_prefix l' k = is_dropped_prefix l k.
Proof. unfold is_dropped_prefix. by intros ->. Qed.

Lemma scan_tree w (db : Db) h g tx lower upper :
  tree_inv w (db_tree db) h g -> t_snapshot_ts tx ∈ g -> cle lower upper ->
  exists db' out, tx_scan_range db tx lower upper = Some (db', Ok out) /\ StronglySorted clt (map fst out) /\
    forall k v, is_dropped_prefix (db_tree db) k = false ->
      In (k, v) out <-> in_range lower upper k = true /\ overlay (t_mutations tx) (view h (t_snapshot_ts tx)) k = Some v.
Proof.
  intros Hv Hin Hlu. unfold tx_scan_range. set (db1 := if t_is_ssi tx then _ else db).
  assert (Hv1 : tree_inv w (db_tree db1) h g) by (by apply context_tree).
  assert (Hd : forall k, is_dropped_prefix (db_tree db1) k = is_dropped_prefix (db_tree db) k).
  { intros k. apply is_dropped_same. unfold db1. destruct (t_is_ssi tx); [apply on_context_tables|done]. }
  pose proof (tv_open _ _ _ _ Hv1) as Ho. rewrite Forall_forall in Ho. specialize (Ho _ Hin).
  pose proof (gi_seq _ _ (tv_guards _ _ _ _ Hv1)).
  destruct (scan_range_rep w (db_tree db1) h lower upper (t_snapshot_ts tx) (tv_rep _ _ _ _ Hv1) Hlu)
    as (kvs & -> & Hs & Hk); [lia|lia|]. cbn [mbind option_bind from_engine rbind].
  assert (Hnd : NoDup (map fst kvs)) by (exact (om_keys_NoDup kvs Hs)).
  destruct (fold_mutations_ok lower upper (t_mutations tx) kvs Hnd) as [Hnd' Hf].
  do 2 eexists. split; [done|]. split; [by apply sort_strict|]. intros k v Hdrop. rewrite <- sort_by_key_perm.
  apply (Hf (view h (t_snapshot_ts tx)) k). intros v'. rewrite view_newest. apply Hk. by rewrite Hd.
Qed.

(** A lookup below a transaction is one the tree answers exactly. *)
Definition plain_key (db : Db) (key : bytes) : Prop :=
  side_ok (db_tree db) (db_sidecars db) /\ is_dropped_prefix (db_tree db) key = false /\
  om_get key (sc_hot (db_sidecars db)) = None /\ single_version (db_tree db) key /\ single_leveled (db_tree db) key.

Lemma get_tree_exact w (db : Db) h g tx key :
  tree_inv w (db_tree db) h g -> t_snapshot_ts tx ∈ g ->
  (buffered (rev (t_mutations tx)) key = None -> plain_key db key) ->
  exists db', tx_get db tx key = Some (db', Ok (overlay (t_mutations tx) (view h (t_snapshot_ts tx)) key)).
Proof.
  intros Hv Hin Hpl. rewrite buffered_overlay. unfold tx_get. destruct (buffered _ key) as [a|]; [by eexists|].
  destruct (Hpl eq_refl) as (Hside & Hdrop & Hhot & Hsv & Hsl). clear Hpl.
  set (db1 := if t_is_ssi tx then _ else db).
  assert (Hv1 : tree_inv w (db_tree db1) h g) by (by apply context_tree).
  pose proof (tv_open _ _ _ _ Hv1) as Ho. rewrite Forall_forall in Ho. specialize (Ho _ Hin).
  pose proof (gi_seq _ _ (tv_guards _ _ _ _ Hv1)).
  assert (Hsc : db_sidecars db1 = db_sidecars db)
    by (unfold db1, on_context; destruct (t_is_ssi tx), (tx_manager db), (t_reserved_tx_id tx); done).
  assert (Hl : exists e, db_tree db1 = with_engine (db_tree db) e).
  { unfold db1, on_context. destruct (t_is_ssi tx), (tx_manager db), (t_reserved_tx_id tx);
      try (by eexists); exists (l_engine (db_tree db)); by destruct (db_tree db). }
  destruct Hl as [e1 Hl]. unfold db_get_at. cbn [with_eng with_tree db_sidecars db_tree]. rewrite Hsc.
  set (e2 := pin_snapshot (db_engine db1) (t_snapshot_ts tx)). rewrite Hl.
  destruct (lsm_get_rep w (with_engine (with_engine (db_tree db) e1) e2) h (db_sidecars db) key (t_snapshot_ts tx))
    as (sc' & r & -> & _ & Hr); [|done|done|done|done|done|lia|lia|].
  - rewrite <- Hl. apply lsm_rep_idle; [apply Hv1|done|done].
  - cbn [mbind option_bind from_engine]. eexists. repeat f_equal. cbn [default].
    apply option_eq. intros x. rewrite Hr, view_newest. done.
Qed.

(** C4: transactions are snapshot isolated.  Let [W] be any state of a run and
    [W'] any later one, after any interleaving of autocommit writes, begins (those of
    SSI transactions in three separate calls), commits and rollbacks of other
    transactions, flushes, compactions and collections.  Commits are whole steps, with
    any outcome of throttle, validation and log writes; flushes and compactions succeed
    and are whole steps too, so no transaction begins between a commit's timestamp and
    its writes, and nothing runs between the two halves of a flush.  A range scan, with
    the lower bound not after the upper one, of a transaction open in [W'] whose
    snapshot was taken by [W] succeeds and returns, sorted, for every key of a table
    that is not dropped, exactly its live value in the history of [W] at the snapshot,
    overlaid with the transaction's own writes. *)
Theorem transaction_snapshot_isolation (W W' : World) (tx : Transaction) (lower upper : bytes) :
  db_reach W -> rtc db_step W W' -> tx ∈ wd_open W' -> t_snapshot_ts tx < seq W -> cle lower upper ->
  exists db' out, tx_scan_range (wd_db W') tx lower upper = Some (db', Ok out) /\ StronglySorted clt (map fst out) /\
    forall k v, is_dropped_prefix (db_tree (wd_db W')) k = false ->
      In (k, v) out <-> in_range lower upper k = true /\
        overlay (t_mutations tx) (view (wd_history W) (t_snapshot_ts tx)) k = Some v.
Proof.
  intros Hr Hst Hin Hs Hlu. destruct (history_steps _ _ Hst (db_reach_inv _ Hr)) as (Hv' & _ & Hh).
  destruct (scan_tree _ _ _ _ tx lower upper Hv') as (db' & out & Ho & Hsort & Hk); [by apply pinned_open|done|].
  exists db', out. split; [done|]. split; [done|]. intros k v Hd. rewrite (Hk k v Hd).
  enough (Hw : view (wd_history W') (t_snapshot_ts tx) k = view (wd_history W) (t_snapshot_ts tx) k)
    by (rewrite !buffered_overlay, Hw; done).
  unfold view. f_equal. apply latest_agree; [|lia|lia]. intros t Ht. apply Hh. lia.
Qed.

(** C11: a transaction's lookup agrees with its scans.  In every state of a run a
    lookup in an open transaction returns the last write the transaction buffered
    for the key, or else the key's live value at its snapshot: the reverse walk
    over the buffer computes the same overlay the range scan folds.  Unbuffered
    keys are those the tree looks up exactly. *)
Theorem transaction_get_exact (W : World) (tx : Transaction) (key : bytes) :
  db_reach W -> tx ∈ wd_open W -> (buffered (rev (t_mutations tx)) key = None -> plain_key (wd_db W) key) ->
  exists db', tx_get (wd_db W) tx key =
    Some (db', Ok (overlay (t_mutations tx) (view (wd_history W) (t_snapshot_ts tx)) key)).
Proof.
  intros Hr Hin. apply (get_tree_exact _ _ _ _ tx key (db_reach_inv _ Hr)). by apply pinned_open.
Qed.

(** The committed state a new transaction would see. *)
Definition current (W : World) : bytes -> option bytes := view (wd_history W) (seq W - 1).

Lemma write_with_tx_seq (e : Eng) tx ms throttle io_w io_s e' r :
  mt_inv (e_memtable e) -> 0 <= e_commit_seq e -> e_commit_seq e + 1 < OPEN_ENDED_TS ->
  write_with_tx e tx ms throttle io_w io_s = (e', r) ->
  e_commit_seq e' = match r with Ok _ => e_commit_seq e + 1 | Err _ => e_commit_seq e end.
Proof. intros Hi Hp Hb Hw%write_with_tx_to; [|done..]. pose proof (ct_seq _ _ _ Hw) as ->. destruct r; cbn; lia. Qed.

Lemma commit_call_next (e : Eng) tx throttle io_w io_s e' r :
  mt_inv (e_memtable e) -> 0 <= e_commit_seq e -> e_commit_seq e + 1 < OPEN_ENDED_TS ->
  commit_call e tx throttle io_w io_s = (e', r) ->
  e_commit_seq e' = match r with Ok _ => e_commit_seq e + 1 | Err _ => e_commit_seq e end.
Proof.
  intros Hi Hp Hb Hc. unfold commit_call in Hc. destruct (t_reserved_tx_id tx); [by eapply write_with_tx_seq|].
  apply engine_write_to in Hc; [|done..]. pose proof (ct_seq _ _ _ Hc) as ->. destruct r; cbn; lia.
Qed.

(** C5: commits are atomic.  Whatever the throttle, the conflict validation and
    the log writes do, a transaction that begins after [try_commit] sees, on every
    key, either the previous committed state overlaid with exactly the committed
    buffer, when the commit returned its timestamp, or the previous state, when it
    returned an error. *)
Theorem commit_atomic (W : World) (tx reader : Transaction) (throttle : ThrottleLevel) (io_w io_s : IoOutcome)
    (db' db'' : Db) (r : result (Transaction * DatabaseError) TxnTs) (lower upper : bytes) :
  db_reach W -> tx ∈ wd_open W -> room (wd_db W) -> keys_small (t_mutations tx) ->
  try_commit (wd_db W) tx throttle io_w io_s = (db', r) -> db_begin db' = (db'', reader) -> cle lower upper ->
  exists db3 out, tx_scan_range db'' reader lower upper = Some (db3, Ok out) /\
    forall k v, is_dropped_prefix (db_tree db'') k = false ->
      In (k, v) out <-> in_range lower upper k = true /\
        match r with Ok _ => overlay (t_mutations tx) (current W) k | Err _ => current W k end = Some v.
Proof.
  intros Hr Hin Hroom Hk Hc Hbg Hlu. pose proof (db_reach_inv _ Hr) as Hv. destruct W as [db open h w log bg late]. cbn [wd_db wd_open] in *.
  pose proof (world_inv_step _ _ (st_try_commit db open h w log bg late tx throttle io_w io_s db' r Hin Hroom Hk Hc) Hv) as Hv1.
  unfold world_inv in Hv, Hv1. cbn [wd_db wd_open wd_history wd_floor wd_begun] in Hv, Hv1.
  destruct (begin_tree _ _ _ _ _ _ Hv1 Hbg) as [Hv2 Hs].
  destruct (scan_tree _ _ _ _ reader lower upper Hv2) as (db3 & out & Ho & _ & Hout); [by left|done|].
  exists db3, out. split; [done|]. intros k v Hd. rewrite (Hout k v Hd). injection Hbg as _ <-. cbn [t_mutations t_snapshot_ts] in *.
  change (overlay [] ?f k) with (f k). rewrite Hs.
  pose proof (gi_mem _ _ (tv_guards _ _ _ _ Hv)) as Hm. pose proof (gi_seq _ _ (tv_guards _ _ _ _ Hv)) as Hq.
  destruct (try_commit_call _ _ _ _ _ _ _ Hc) as (e0 & r0 & He & Hres).
  assert (Hseq : e_commit_seq e0 = match r0 with Ok _ => e_commit_seq (db_engine db) + 1 | Err _ => e_commit_seq (db_engine db) end /\
    forall ts, r0 = Ok ts -> ts = e_commit_seq (db_engine db)).
  { destruct He as [[-> ->]|He]; [done|]. destruct Hroom as [Hb _]. unfold db_engine in *.
    split; [by eapply commit_call_next; [..|exact He]; try lia|]. by eapply commit_call_seq; [..|exact He]; try lia. }
  destruct Hseq as [Hseq Hts]. destruct r0 as [ts|err].
  - destruct Hres as [-> ->]. cbn [publish_result]. change (e_commit_seq (db_engine (with_eng db e0))) with (e_commit_seq e0).
    rewrite Hseq, (Hts ts eq_refl), Z.add_simpl_r. rewrite view_publish; [done|].
    intros u Hu. by apply (lr_bound _ _ _ (tv_rep _ _ _ _ Hv)) in Hu as [? _].
  - destruct Hres as (-> & err' & ->). cbn [publish_result].
    change (e_commit_seq (db_engine (with_eng db (pin_snapshot e0 (t_snapshot_ts tx))))) with (e_commit_seq e0). by rewrite Hseq.
Qed.
End Run.

(** ** A run with two transactions *)

#[local] Existing Instance no_sse42.
#[local] Existing Instance list_vortex.
#[local] Existing Instance list_vortex_laws.
#[local] Existing Instance column_ord.

Abbreviation SampleDb := (Database (T := BTreeMapTable) (H := TxManager)).
Abbreviation SampleWorld := (World (T := BTreeMapTable) (H := TxManager)).

Definition db0 : SampleDb :=
  mkDb (mkLsm (mkEngine empty_wal mt_default tm_default 1 1 [] (Group 1000)) man_empty [] [] 0 [] 1000000 [])
    no_sidecars [] 0 (mkFiles None None).

(** A first transaction writes [a], a second one begins, an autocommit write
    replaces [a]. *)
#[local] Ltac by_run := match goal with |- _ = ?r => vm_cast_no_check (@eq_refl _ r) end.

Definition db1 : SampleDb := Eval vm_compute in (db_begin_ssi db0).1.
Definition tx1 : Transaction := Eval vm_compute in (db_begin_ssi db0).2.
Definition db2 : SampleDb := Eval vm_compute in (tx_put db1 tx1 [x61] [x31]).1.
Definition tx1w : Transaction := Eval vm_compute in (tx_put db1 tx1 [x61] [x31]).2.
Definition db3 : SampleDb := Eval vm_compute in (try_commit db2 tx1w ThrottleNone IoOk IoOk).1.
Definition db4 : SampleDb := Eval vm_compute in (db_begin db3).1.
Definition tx2 : Transaction := Eval vm_compute in (db_begin db3).2.
Definition db5 : SampleDb := Eval vm_compute in (db_put db4 [x61] [x32] ThrottleNone IoOk IoOk).1.

Definition log1 : list (SsiTxn * TxnTs) :=
  ssi_commit db2 tx1w (Ok 1 : result (Transaction * DatabaseError) TxnTs).
Definition history1 : bytes -> values := publish (fun _ => ∅) 1 [MPut [x61] [x31]].
Definition world2 : SampleWorld := mkWorld db2 [tx1w] (fun _ => ∅) 0 [] [] [].
Definition world4 : SampleWorld := mkWorld db4 [tx2; tx1w] history1 0 log1 [] [].
Definition world5 : SampleWorld := mkWorld db5 [tx2; tx1w] (publish history1 2 [MPut [x61] [x32]]) 0 log1 [] [].

Lemma world2_reach : db_reach world2.
Proof.
  exists (mkWorld db0 [] (fun _ => ∅) 0 [] [] []). split.
  - repeat split; (vm_compute; congruence) || idtac.
  - eapply rtc_l; [eapply (st_ssi_snapshot db0 _ _ _ _ _ _ (ssi_snapshot db0).1 0); by_run|].
    eapply rtc_l; [eapply (st_ssi_reserve _ _ _ _ _ _ _ 0 [] (ssi_reserve (ssi_snapshot db0).1).1 1);
      [split; vm_compute; reflexivity|done|by_run]|].
    eapply rtc_l; [eapply (st_ssi_register _ _ _ _ _ _ _ 0 1 [] db1 tx1); [done|by_run]|].
    eapply rtc_l; [eapply (st_put db1 _ _ _ _ _ _ tx1 [] [x61] [x31] db2 tx1w); [done|by_run]|].
    apply rtc_refl.
Qed.

Lemma world4_reach : db_reach world4.
Proof.
  destruct world2_reach as (W0 & Hn & Hr). exists W0. split; [done|]. etransitivity; [exact Hr|].
  eapply rtc_l; [eapply (st_try_commit db2 _ _ _ _ _ _ tx1w ThrottleNone IoOk IoOk db3 (Ok 1));
    [by left|split; vm_compute; reflexivity|repeat constructor|by_run]|].
  eapply rtc_l; [eapply (st_begin db3 _ _ _ _ _ _ db4 tx2); by_run|]. apply rtc_refl.
Qed.

Lemma world5_step : db_step world4 world5.
Proof.
  eapply (st_write db4 _ _ _ _ _ _ [MPut [x61] [x32]] ThrottleNone IoOk IoOk db5 (Ok 2));
    [split; vm_compute; reflexivity|repeat constructor|by_run].
Qed.

Lemma transaction_snapshot_isolation_witness :
  exists db' out, tx_scan_range (wd_db world5) tx2 [x61] [x62] = Some (db', Ok out) /\
    (In ([x61], [x31]) out <-> in_range [x61] [x62] [x61] = true /\
       overlay (t_mutations tx2) (view (wd_history world4) (t_snapshot_ts tx2)) [x61] = Some [x31]).
Proof.
  destruct (transaction_snapshot_isolation world4 world5 tx2 [x61] [x62]) as (db' & out & Ho & _ & Hk).
  - exact world4_reach.
  - exact (rtc_once _ _ world5_step).
  - by left.
  - reflexivity.
  - vm_compute. congruence.
  - exists db', out. split; [exact Ho|]. apply Hk. reflexivity.
Defined.

Lemma world5_reach : db_reach world5.
Proof.
  destruct world4_reach as (W0 & Hn & Hr). exists W0. split; [done|].
  etransitivity; [exact Hr|]. apply rtc_once, world5_step.
Qed.

Lemma transaction_get_exact_witness :
  exists db', tx_get (wd_db world5) tx2 [x61] =
    Some (db', Ok (overlay (t_mutations tx2) (view (wd_history world5) (t_snapshot_ts tx2)) [x61])).
Proof.
  apply (transaction_get_exact world5 tx2 [x61]).
  - exact world5_reach.
  - by left.
  - assert (Hno : forall f, ~ live (db_tree db5) f) by (intros f [n Hn]; vm_compute in Hn; discriminate).
    intros _. split; [|split; [reflexivity|split; [reflexivity|split]]].
    + intros f rows Hf. by apply Hno in Hf.
    + intros f v v' Hf. by apply Hno in Hf.
    + intros f f' v v' n n' Hf. exfalso. apply (Hno f). by exists n.
Defined.

Lemma commit_atomic_witness :
  exists db3' out, tx_scan_range db4 tx2 [x61] [x62] = Some (db3', Ok out) /\
    (In ([x61], [x31]) out <-> in_range [x61] [x62] [x61] = true /\
       overlay (t_mutations tx1w) (current world2) [x61] = Some [x31]).
Proof.
  destruct (commit_atomic world2 tx1w tx2 ThrottleNone IoOk IoOk db3 db4 (Ok 1) [x61] [x62]) as (db3' & out & Ho & Hk).
  - exact world2_reach.
  - by left.
  - split; vm_compute; reflexivity.
  - repeat constructor.
  - by_run.
  - by_run.
  - vm_compute. congruence.
  - exists db3', out. split; [exact Ho|]. apply Hk. reflexivity.
Defined.

(** ** What the facade's documentation does not say *)

(** An autocommit write to a key an SSI transaction has read does not make its
    commit fail: autocommit writes never enter the commit history. *)
Definition read_then_commit : option (DbResult TxnTs * result (Transaction * DatabaseError) TxnTs) :=
  let '(db, tx) := db_begin_ssi db4 in
  match tx_get db tx [x61] with
  | None => None
  | Some (db, _) =>
      let '(db, w) := db_put db [x61] [x33] ThrottleNone IoOk IoOk in
      let '(db, tx) := tx_put db tx [x62] [x34] in
      Some (w, (try_commit db tx ThrottleNone IoOk IoOk).2)
  end.

Lemma autocommit_write_unseen : read_then_commit = Some (Ok 2, Ok 3).
Proof. vm_compute. reflexivity. Qed.

(** A commit that fails because the engine is throttled returns a handle to retry;
    dropping the first handle aborts the transaction both stand for, and the retry
    is rejected as a conflict. *)
Definition throttled_then_retried : option (DatabaseError * option DatabaseError) :=
  match try_commit db2 tx1w ThrottleHard IoOk IoOk with
  | (db, Err (retry, err)) =>
      let db := tx_drop db tx1w in
      Some (err, match try_commit db retry ThrottleNone IoOk IoOk with (_, Err (_, e)) => Some e | _ => None end)
  | _ => None
  end.

Lemma retry_after_drop_rejected : throttled_then_retried = Some (DbEngine Throttled, Some (SsiConflict 1 [])).
Proof. vm_compute. reflexivity. Qed.

(** [flush] reports the keys of the memtable, not the rows it wrote. *)
Definition flush_report : option (DbResult Z * list Z) :=
  match db_flush db5 all_ok 128 7 IoOk IoOk with
  | Some (db, r) => Some (r, match read_file (db_tree db) 0 with Ok rows => map (fun v => begin_ts (row_version v)) rows | Err _ => [] end)
  | None => None
  end.

Lemma flush_counts_keys : flush_report = Some (Ok 1, [2; 1]).
Proof. vm_compute. reflexivity. Qed.

(** A save that fails still resets the count of DDL statements. *)
Definition full_disk : SaveIo := mkSaveIo IoOk (IoErr 0 "no space left on device") IoOk IoOk.

Lemma failed_save_resets_count :
  let db := register_table (with_saved db0 15 (mkFiles None None)) (Ok tt) full_disk in
  db_ddl_count db.1 = 0 /\ cf_json (db_files db.1) = None /\ db.2 = Ok tt.
Proof. vm_compute. done. Qed.

(** A commit takes its timestamp before it applies its writes to the memtable.  A
    transaction that begins between the two has a snapshot that includes the commit:
    its first scan misses the write, and the same scan, after the commit has applied
    it, returns it. *)
Definition scans_around_apply : option (DbResult (list (bytes * bytes)) * DbResult (list (bytes * bytes))) :=
  let commit_ts := e_commit_seq (db_engine db0) in
  let db := with_eng db0 (with_commit_seq (db_engine db0) (commit_ts + 1)) in
  let '(db, tx) := db_begin db in
  let applied := (mt_apply_mutations_batch (e_memtable (db_engine db)) 1 [MPut [x61] [x31]] commit_ts).1 in
  let db' := with_eng db (with_memtable (db_engine db) applied) in
  before ← tx_scan_range db tx [x61] [x62]; after ← tx_scan_range db' tx [x61] [x62];
  Some (before.2, after.2).

Lemma snapshot_inside_commit_unstable : scans_around_apply = Some (Ok [], Ok [([x61], [x31])]).
Proof. vm_compute. reflexivity. Qed.

(** The calls of [begin_ssi] do not exclude commits: between the snapshot of one
    transaction and its registration another one writes [a] and commits; its entry is
    collected, and the first one's write of [a] passes validation. *)
Definition commits_around_begin : result (Transaction * DatabaseError) TxnTs * result (Transaction * DatabaseError) TxnTs :=
  let '(db, s) := ssi_snapshot db0 in
  let '(db, tx) := db_begin_ssi db in
  let '(db, tx) := tx_put db tx [x61] [x31] in
  let '(db, first) := try_commit db tx ThrottleNone IoOk IoOk in
  let '(db, id) := ssi_reserve db in
  let '(db, tx) := ssi_register db id s in
  let '(db, tx) := tx_put db tx [x61] [x32] in
  (first, (try_commit db tx ThrottleNone IoOk IoOk).2).

Lemma late_begin_misses_conflict : commits_around_begin = (Ok 1, Ok 2).
Proof. vm_compute. reflexivity. Qed.
