(* ===== verification/DatabaseSsi.v ===== *)
(** * Serializability of the database's SSI transactions

    The steps of a database over [TxManagerHook] drive the transaction manager by
    the steps of its own system: a database run refines a run of the manager, so
    what the manager guarantees of its log holds of the committed histories. *)

From Stdlib Require Import Strings.String Sorting.Sorted.
From stdpp Require Import base tactics list option gmap.
From S2P Require Import Prelude OrdMap Types Version Crc32c Wal MemTable MemTableProps TxManager Codec Bloom KeyIndex Arrow RowCodec ColumnPredicate Manifest Compaction Engine Snapshots Sst SstProps Lsm LsmProps LsmReads Lookup LookupProps Catalog Database DatabaseProps DatabaseRun.
#[local] Open Scope Z_scope.
#[local] Set Warnings "-clear-no-such-hyp".

(** ** The manager's transactions keep their ids *)

Section Manager.
Context {hi : HashIter}.

(** [m'] knows no transaction that [m] does not. *)
Definition known (m m' : TxManager) : Prop :=
  forall i, is_Some (om_get i (transactions m')) -> is_Some (om_get i (transactions m)).

Lemma known_refl m : known m m.
Proof. by intros i. Qed.

Lemma known_trans m1 m2 m3 : known m1 m2 -> known m2 m3 -> known m1 m3.
Proof. intros H1 H2 i Hi. by apply H1, H2. Qed.

Lemma known_update m m' i h h' :
  om_get i (transactions m) = Some h -> transactions m' = om_insert i h' (transactions m) -> known m m'.
Proof.
  intros Hg Ht j. rewrite Ht, om_get_insert. destruct (eqc j i) eqn:E; [|done]. cbool. subst. by rewrite Hg.
Qed.

Lemma known_abort m id : known m (tm_abort m id).1.
Proof.
  unfold tm_abort. destruct (om_get id (transactions m)) as [h|] eqn:E; [|apply known_refl].
  destruct (th_state h); [|apply known_refl..]. by eapply known_update.
Qed.

Lemma known_commit m id cts : known m (commit_at m id cts).1.
Proof.
  unfold commit_at. destruct (om_get id (transactions m)) as [h|] eqn:E; [|apply known_refl].
  destruct (negb _); [apply known_refl|]. cbn. destruct (om_get id (ssi_contexts m)); by eapply known_update.
Qed.

Lemma known_with_ssi {R} m id (f : SsiTxn -> SsiTxn * R) : known m (with_ssi_txn m id f).1.
Proof. unfold with_ssi_txn. destruct (om_get id (ssi_contexts m)) as [t|]; [|apply known_refl]. by destruct (f t); intros i. Qed.

(** The context of a transaction after a successful validation. *)
Lemma pre_commit_context clk log late m id ms m1 r :
  tm_inv clk log late m -> on_pre_commit m id ms = Some (m1, r) ->
  known m m1 /\
  (forall u, r = Ok u -> get_ssi_txn m1 id = fold_left record_write (map mutation_key ms) <$> get_ssi_txn m id).
Proof.
  intros Hinv. unfold on_pre_commit. destruct (is_aborted _); [intros [= <- <-]; split; [apply known_refl|done]|].
  unfold get_ssi_txn. destruct (om_get id (ssi_contexts m)) as [t|] eqn:Hg.
  2:{ intros [= <- <-]. split; [apply known_refl|]. by rewrite Hg. }
  destruct (record_write_and_validate_inv clk log late m id (map mutation_key ms) Hinv) as (m' & r' & Hrv & _ & Hr).
  rewrite Hrv. rewrite Hg in Hr. cbn [fmap option_fmap option_map]. destruct r' as [u|e].
  - intros [= <- <-]. destruct Hr as (Hc & _ & _ & Ht). split; [|done]. intros i. by rewrite Ht.
  - destruct Hr as (Hconf & _ & _). intros Hm.
    assert (m1 = m' /\ exists err, r = Err err) as (-> & err & ->) by (destruct e; try done; injection Hm as <- <-; eauto).
    split; [|done]. unfold record_write_and_validate in Hrv. rewrite Hg in Hrv.
    destruct (validate_ssi_with_contexts _ _ _) as [[[]|e']|]; [done| |done]. cbn [with_contexts transactions] in Hrv.
    destruct (om_get id (transactions m)) as [h|] eqn:Eh; injection Hrv as <- _; [|by intros i].
    by eapply known_update.
Qed.

(** *** A commit attempt is a step of the manager *)

(** The entry the log gets. *)
Definition context_commit {E} (m : TxManager) (id : TxnId) (ms : list Mutation) (r : result E TxnTs) : list (SsiTxn * TxnTs) :=
  match r, get_ssi_txn m id with
  | Ok ts, Some t => [(fold_left record_write (map mutation_key ms) t, ts)]
  | _, _ => []
  end.
End Manager.

Section Commit.
Context {hi : HashIter} {hw : Crc32Hw} {T : Type} `{MemTableBackend T} `{!MemTableLaws T}.
#[local] Abbreviation Eng := (Engine (T := T) (H := TxManager)).

(** The system of an engine between two commits. *)
Definition sys_of (e : Eng) (log : list (SsiTxn * TxnTs)) (late : list TxnId) : Sys :=
  mkSys (e_hook e) (e_commit_seq e - 1) log None late.

Lemma post_commit_hook (m : TxManager) tx ms cts : post_commit m tx ms cts = on_tx_commit m tx cts.
Proof. unfold post_commit. cbn. f_equal. induction ms as [|[] ms IH]; cbn; done. Qed.

Lemma apply_commit_hook (e : Eng) tx ms :
  mt_inv (e_memtable e) -> 0 <= e_commit_seq e -> e_commit_seq e + 1 < OPEN_ENDED_TS ->
  exists e', apply_commit e tx ms = (e', Ok (e_commit_seq e)) /\ e_commit_seq e' = e_commit_seq e + 1 /\
    e_next_tx_id e' = e_next_tx_id e /\ e_hook e' = on_tx_commit (e_hook e) tx (e_commit_seq e).
Proof.
  intros Hi Hp Hb. destruct (apply_commit_ok e tx ms Hi Hp Hb) as (e' & Ha & _ & _ & Hs & _ & _ & _ & Hn).
  exists e'. split; [done|]. split; [done|]. split; [done|]. unfold apply_commit in Ha.
  destruct (mt_apply_mutations_batch _ _ _ _) as [t [u|err]]; [|done]. injection Ha as <-. apply post_commit_hook.
Qed.

(** A commit attempt is validated and rejected, or validated and failed, or
    validated, stamped and promoted. *)
Lemma commit_single_sys (e : Eng) id ms io_w io_s e' r log late :
  sys_inv (sys_of e log late) -> mt_inv (e_memtable e) -> 0 <= e_commit_seq e -> e_commit_seq e + 1 < OPEN_ENDED_TS ->
  commit_single e id ms io_w io_s = (e', r) ->
  sys_inv (sys_of e' (log ++ context_commit (e_hook e) id ms r) late) /\ known (e_hook e) (e_hook e') /\
  e_next_tx_id e' = e_next_tx_id e.
Proof.
  intros Hs Hi Hp Hb. pose proof Hs as [Hinv _]%sys_inv_alt. unfold commit_single. cbn [hook_pre_commit TxManagerHook hook_is_noop].
  destruct (on_pre_commit_total _ _ _ _ id ms Hinv) as (m1 & r1 & Hpre). rewrite Hpre.
  destruct (pre_commit_context _ _ _ _ _ _ _ _ Hinv Hpre) as [Hk Hctx]. cbn [hook_result].
  destruct r1 as [[]|err].
  2:{ intros [= <- <-]. rewrite app_nil_r. split; [|done]. by eapply sys_step_inv; [eapply step_reject|]. }
  pose proof (sys_step_inv _ _ (step_validate _ _ log late id ms m1 Hpre) Hs) as Hs1.
  destruct (match e_sync_mode (with_hook e m1) with Full => _ | Group _ => _ end) as [wl [n|err]].
  2:{ intros [= <- <-]. rewrite app_nil_r. split; [|done]. by eapply sys_step_inv; [eapply step_commit_failure|]. }
  destruct (apply_commit_hook (with_wal (with_hook e m1) wl) id ms Hi Hp Hb) as (e2 & -> & Hs2 & Hn2 & Hh2).
  intros [= <- <-]. cbn [with_wal with_hook e_commit_seq e_hook e_next_tx_id] in *. specialize (Hctx tt eq_refl).
  split; [|split; [|done]]; [|rewrite Hh2; eapply known_trans; [exact Hk|apply known_commit]].
  unfold sys_of. rewrite Hh2, Hs2, Z.add_simpl_r. unfold OPEN_ENDED_TS in Hb.
  assert (E : context_commit (e_hook e) id ms (Ok (E := EngineError) (e_commit_seq e)) = log_commit (get_ssi_txn m1 id) (e_commit_seq e))
    by (unfold context_commit; rewrite Hctx; by destruct (get_ssi_txn (e_hook e) id)).
  rewrite E. eapply sys_step_inv; [apply step_promote|]. eapply sys_step_inv; [apply step_stamp|exact Hs1]. lia.
Qed.

Lemma write_with_tx_sys (e : Eng) id ms throttle io_w io_s e' r log late :
  sys_inv (sys_of e log late) -> mt_inv (e_memtable e) -> 0 <= e_commit_seq e -> e_commit_seq e + 1 < OPEN_ENDED_TS ->
  write_with_tx e id ms throttle io_w io_s = (e', r) ->
  sys_inv (sys_of e' (log ++ context_commit (e_hook e) id ms r) late) /\ known (e_hook e) (e_hook e') /\
  e_next_tx_id e <= e_next_tx_id e'.
Proof.
  intros Hs Hi Hp Hb. assert (Hnone : forall err : EngineError, sys_inv (sys_of e (log ++ context_commit (e_hook e) id ms (Err err)) late)
    /\ known (e_hook e) (e_hook e) /\ e_next_tx_id e <= e_next_tx_id e)
    by (intros err; cbn; rewrite app_nil_r; split; [done|]; split; [apply known_refl|lia]).
  unfold write_with_tx. destruct ms as [|m ms]; [intros [= <- <-]; apply Hnone|].
  destruct (id =? 0); [intros [= <- <-]; apply Hnone|].
  set (e1 := if _ <? _ then _ else _).
  assert (He1 : e_memtable e1 = e_memtable e /\ e_commit_seq e1 = e_commit_seq e /\ e_hook e1 = e_hook e /\ e_next_tx_id e <= e_next_tx_id e1)
    by (unfold e1; destruct (Z.ltb_spec (e_next_tx_id e) (saturating_add id 1)); cbn; repeat split; lia).
  destruct He1 as (Hm1 & Hq1 & Hh1 & Hn1).
  assert (Hs1 : sys_inv (sys_of e1 log late)) by (unfold sys_of; by rewrite Hh1, Hq1).
  destruct throttle; [| |intros [= <- <-]; cbn [context_commit]; rewrite app_nil_r, Hh1; split; [done|]; split; [apply known_refl|done]];
    intros Hw; (destruct (commit_single_sys _ _ _ _ _ _ _ log late Hs1 ltac:(by rewrite Hm1) ltac:(lia) ltac:(lia) Hw) as (Hs' & Hk & Hn);
    rewrite Hh1 in Hs', Hk; split; [done|]; split; [done|lia]).
Qed.
End Commit.

(** ** The invariant of a run *)

Section Serializable.
Context {hi : HashIter} {hw : Crc32Hw} {T : Type} `{MemTableBackend T} `{!MemTableLaws T}.
Context `{VortexLib} `{!VortexLaws} `{ScalarOrd} `{CatalogJson}.
#[local] Abbreviation Db := (Database (T := T) (H := TxManager)).
#[local] Abbreviation Wd := (World (T := T) (H := TxManager)).
#[local] Abbreviation Eng := (Engine (T := T) (H := TxManager)).

(** The manager is in a state its own system allows, every id it knows is below the
    counter, the ids in [ids] are reserved and not registered yet, and a commit of the
    log wrote only keys of its write set. *)
Record engine_ssi (e : Eng) (log : list (SsiTxn * TxnTs)) (late ids : list TxnId) (h : bytes -> values) : Prop := {
  es_sys : sys_inv (sys_of e log late);
  es_next : 1 <= e_next_tx_id e;
  es_ids : forall i, is_Some (om_get i (transactions (e_hook e))) -> i < e_next_tx_id e;
  es_link : forall t c k, (t, c) ∈ log -> is_Some (h k !! c) -> k ∈ write_set t;
  es_distinct : NoDup ids;
  es_reserved : forall i, i ∈ ids -> i < e_next_tx_id e /\ om_get i (transactions (e_hook e)) = None;
}.

(** Ids that are not known stay so. *)
Lemma reserved_known (m m' : TxManager) i :
  known m m' -> om_get i (transactions m) = None -> om_get i (transactions m') = None.
Proof. intros Hk Hn. apply eq_None_not_Some. intros [x Hx]%Hk. congruence. Qed.

Lemma ssi_perm (e : Eng) log late ids ids' h :
  Permutation ids ids' -> engine_ssi e log late ids h -> engine_ssi e log late ids' h.
Proof.
  intros Hp [Hs Hn Hi Hl Hd Hr]. split; [done|done|done|done|by rewrite <- Hp|]. intros i Hin. apply Hr. by rewrite Hp.
Qed.

Lemma ssi_idle (e e' : Eng) log late ids h :
  engine_ssi e log late ids h -> e_hook e' = e_hook e -> e_commit_seq e' = e_commit_seq e ->
  e_next_tx_id e <= e_next_tx_id e' -> engine_ssi e' log late ids h.
Proof.
  intros [Hs Hn Hi Hl Hd Hr] Hh Hq Hx. split; [unfold sys_of; by rewrite Hh, Hq|lia| |done|done|]; intros i Hg; rewrite Hh in *.
  - specialize (Hi i Hg). lia.
  - destruct (Hr i Hg). split; [lia|done].
Qed.

Lemma log_past (e : Eng) log late t c : sys_inv (sys_of e log late) -> (t, c) ∈ log -> c < e_commit_seq e.
Proof.
  intros [_ _ _ _ (_ & Hf & _) _] Hin. rewrite Forall_forall in Hf. specialize (Hf _ Hin). cbn in Hf. lia.
Qed.

Lemma ssi_manager (e : Eng) log late ids h m :
  engine_ssi e log late ids h -> sys_step (sys_of e log late) (mkSys m (e_commit_seq e - 1) log None late) -> known (e_hook e) m ->
  engine_ssi (with_hook e m) log late ids h.
Proof.
  intros [Hs Hn Hi Hl Hd Hr] Hst Hk. split; [by eapply sys_step_inv|done| |done|done|].
  - intros i Hg. by apply Hi, Hk.
  - intros i [? ?]%Hr. split; [done|by eapply reserved_known].
Qed.

Lemma ssi_with_context (db : Db) tx (f : SsiTxn -> SsiTxn) log late ids h :
  engine_ssi (db_engine db) log late ids h ->
  (forall m id, sys_step (mkSys m (e_commit_seq (db_engine db) - 1) log None late)
     (mkSys (with_ssi_txn m id (fun t => (f t, tt))).1 (e_commit_seq (db_engine db) - 1) log None late)) ->
  engine_ssi (db_engine (on_context db tx f)) log late ids h.
Proof.
  intros Hv Hst. unfold on_context. cbn [tx_manager detect_tx_manager hook_manager].
  destruct (t_reserved_tx_id tx) as [id|]; [|done]. apply (ssi_manager _ _ _ _ _ _ Hv); [apply Hst|apply known_with_ssi].
Qed.

(** A commit extends the history and the log together. *)
Lemma ssi_commit_call (e e' : Eng) log late ids h w (l : Lsm (T := T) (H := TxManager)) id ms (r : Result TxnTs) :
  engine_ssi e log late ids h -> l_engine l = e -> lsm_rep w l h -> (forall ts, r = Ok ts -> ts = e_commit_seq e) ->
  sys_inv (sys_of e' (log ++ context_commit (e_hook e) id ms r) late) -> known (e_hook e) (e_hook e') ->
  e_next_tx_id e <= e_next_tx_id e' ->
  engine_ssi e' (log ++ context_commit (e_hook e) id ms r) late ids (publish_result h ms r).
Proof.
  intros [Hs Hn Hi Hl Hd Hr] <- Hrep Hts Hs' Hk Hx. split; [done|lia| | |done|].
  - intros i Hg%Hk. specialize (Hi i Hg). lia.
  - intros t c k Hin Hc. apply elem_of_app in Hin as [Hin|Hin].
    + pose proof (log_past _ _ _ _ _ Hs Hin). apply (Hl t c k Hin). destruct r as [ts|]; [|done].
      cbn in Hc. rewrite publish_other in Hc; [done|]. rewrite (Hts ts eq_refl). lia.
    + unfold context_commit in Hin. destruct r as [ts|]; [|by apply not_elem_of_nil in Hin].
      destruct (get_ssi_txn _ id) as [t0|]; [|by apply not_elem_of_nil in Hin].
      apply list_elem_of_singleton in Hin as [= -> ->]. cbn in Hc.
      destruct (publish_keys _ _ _ _ Hc) as [Hold|Hnew].
      * apply (lr_bound _ _ _ Hrep) in Hold as [Hlt _]. rewrite (Hts ts eq_refl) in Hlt. lia.
      * destruct (fold_record_write (map mutation_key ms) t0) as (_ & _ & _ & _ & Hw). rewrite Hw. apply elem_of_union_l. by apply elem_of_list_to_set.
  - intros i [? ?]%Hr. split; [lia|by eapply reserved_known].
Qed.

Lemma alloc_fresh (e : Eng) log late ids h :
  engine_ssi e log late ids h -> e_next_tx_id e + 1 < u64_max ->
  (alloc_tx_id e).2 = e_next_tx_id e /\ e_next_tx_id (alloc_tx_id e).1 = e_next_tx_id e + 1 /\
  om_get (e_next_tx_id e) (transactions (e_hook e)) = None /\ get_ssi_txn (e_hook e) (e_next_tx_id e) = None.
Proof.
  intros [Hs Hn Hi Hl _ _] Hx. unfold alloc_tx_id. rewrite (proj2 (Z.eqb_neq _ _)) by lia. cbn.
  assert (Hnone : om_get (e_next_tx_id e) (transactions (e_hook e)) = None)
    by (apply eq_None_not_Some; intros Hg%Hi; lia).
  split; [done|]. split; [unfold wrap64; apply Z.mod_small; unfold u64_max in Hx; lia|]. split; [done|].
  unfold get_ssi_txn. destruct (om_get _ (ssi_contexts _)) as [t|] eqn:E; [|done].
  destruct (wf_active _ (si_wf _ Hs) _ _ E) as (hd & Hh & _). cbn in Hh. congruence.
Qed.

Lemma ssi_write_with_tx w (l : Lsm (T := T) (H := TxManager)) h g log late ids id ms throttle io_w io_s e' r :
  tree_inv w l h g -> engine_ssi (l_engine l) log late ids h -> e_commit_seq (l_engine l) + 1 < OPEN_ENDED_TS ->
  write_with_tx (l_engine l) id ms throttle io_w io_s = (e', r) ->
  engine_ssi e' (log ++ context_commit (e_hook (l_engine l)) id ms r) late ids (publish_result h ms r).
Proof.
  intros Hv Hssi Hb Hw. pose proof (gi_mem _ _ (tv_guards _ _ _ _ Hv)) as Hm. pose proof (gi_seq _ _ (tv_guards _ _ _ _ Hv)) as Hq.
  destruct (write_with_tx_sys _ _ _ _ _ _ _ _ log late (es_sys _ _ _ _ _ Hssi) Hm ltac:(lia) Hb Hw) as (Hs & Hk & Hn).
  eapply (ssi_commit_call _ e' log late ids h w l); [done|done|apply Hv| |done|done|done].
  intros ts ->. eapply write_with_tx_ts; [..|exact Hw]; done || lia.
Qed.

Lemma ssi_engine_write w (l : Lsm (T := T) (H := TxManager)) h g log late ids ms throttle io_w io_s e' r :
  tree_inv w l h g -> engine_ssi (l_engine l) log late ids h -> e_commit_seq (l_engine l) + 1 < OPEN_ENDED_TS ->
  e_next_tx_id (l_engine l) + 1 < u64_max ->
  engine_write (l_engine l) ms throttle io_w io_s = (e', r) -> engine_ssi e' log late ids (publish_result h ms r).
Proof.
  intros Hv Hssi Hb Hx. unfold engine_write. destruct ms as [|m ms]; [intros [= <- <-]; done|].
  destruct (alloc_fresh _ _ _ _ _ Hssi Hx) as (Hid & Hnext & _ & Hctx). intros Hw.
  change (alloc_tx_id (l_engine l)) with ((alloc_tx_id (l_engine l)).1, (alloc_tx_id (l_engine l)).2) in Hw.
  cbn beta iota in Hw. rewrite Hid in Hw.
  apply (ssi_write_with_tx w (with_engine l (alloc_tx_id (l_engine l)).1) h g log late ids) in Hw.
  - unfold context_commit in Hw. cbn [with_engine l_engine] in Hw.
    change (e_hook (alloc_tx_id (l_engine l)).1) with (e_hook (l_engine l)) in Hw. rewrite Hctx in Hw.
    by destruct r; rewrite app_nil_r in Hw.
  - by apply tree_idle.
  - apply (ssi_idle (l_engine l)); [done|done|done|]. cbn [with_engine l_engine]. rewrite Hnext. lia.
  - done.
Qed.

Lemma ssi_snapshot_ok (db : Db) log late ids h db' s :
  engine_ssi (db_engine db) log late ids h -> ssi_snapshot db = (db', s) -> engine_ssi (db_engine db') log late ids h.
Proof. intros Hv [= <- <-]. eapply ssi_idle; [exact Hv|done|done|]. apply Z.le_refl. Qed.

Lemma ssi_reserve_ok (db : Db) log late ids h db' id :
  engine_ssi (db_engine db) log late ids h -> e_next_tx_id (db_engine db) + 1 < u64_max -> ssi_reserve db = (db', id) ->
  engine_ssi (db_engine db') log late (id :: ids) h.
Proof.
  intros Hv Hx. destruct (alloc_fresh _ _ _ _ _ Hv Hx) as (Hid & Hnext & Hnone & _). unfold ssi_reserve.
  destruct (alloc_tx_id (db_engine db)) as [e id'] eqn:Ea. intros [= <- <-]. cbn [fst snd] in Hid, Hnext. subst id'.
  assert (Hsame : e_hook e = e_hook (db_engine db) /\ e_commit_seq e = e_commit_seq (db_engine db)).
  { by injection Ea as <-. }
  destruct Hsame as [Hh Hq]. change (db_engine (with_eng db e)) with e.
  pose proof (ssi_idle _ e _ _ _ _ Hv Hh Hq ltac:(lia)) as [Hs Hn Hi Hl Hd Hr]. split; [done|done|done|done| |].
  - constructor; [|done]. intros Hin. destruct Hv as [_ _ _ _ _ Hr0]. destruct (Hr0 _ Hin). lia.
  - intros i [->|Hin]%elem_of_cons; [|by apply Hr]. rewrite Hh. split; [lia|done].
Qed.

Lemma ssi_register_ok (db : Db) log late id ids h s db' tx :
  engine_ssi (db_engine db) log late (id :: ids) h -> s < e_commit_seq (db_engine db) ->
  ssi_register db id s = (db', tx) -> engine_ssi (db_engine db') log (note_late log s id late) ids h.
Proof.
  intros [Hs Hn Hi Hl [Hni Hd]%NoDup_cons Hr] Hle. unfold ssi_register. cbn [tx_manager detect_tx_manager hook_manager].
  unfold begin_ssi_with_id, begin_with_id. cbn beta iota. destruct (Hr id) as [Hlt Hnone]; [by left|]. intros [= <- _].
  split; cbn [update_manager with_eng with_tree db_engine db_tree with_engine l_engine with_hook e_hook e_next_tx_id
    hook_manager put_manager with_contexts with_transactions transactions sys_of e_commit_seq]; [|done| |done|done|].
  - eapply sys_step_inv; [apply (step_begin (e_hook (db_engine db)) (e_commit_seq (db_engine db) - 1) log None late id s Hnone); [done|lia]|].
    exact Hs.
  - intros i. rewrite om_get_insert. destruct (eqc i _) eqn:E; cbool; [by intros _; subst|]. apply Hi.
  - intros i Hin. rewrite om_get_insert_ne by (intros ->; done). apply Hr. by right.
Qed.

Lemma ssi_drop (db : Db) tx log late ids h : engine_ssi (db_engine db) log late ids h -> engine_ssi (db_engine (tx_drop db tx)) log late ids h.
Proof.
  intros Hv. unfold tx_drop. cbn [tx_manager detect_tx_manager hook_manager].
  set (db1 := match t_reserved_tx_id tx with Some _ => _ | None => _ end).
  assert (Hv1 : engine_ssi (db_engine db1) log late ids h).
  { unfold db1. destruct (t_reserved_tx_id tx) as [id|]; [|done].
    apply (ssi_manager _ _ _ _ _ _ Hv); [by apply step_abort|apply known_abort]. }
  destruct (unpin_same (db_engine db1) (t_snapshot_ts tx)) as (_ & _ & Hq & _ & Hn).
  eapply ssi_idle; [exact Hv1|apply unpin_hook|exact Hq|]. cbn [with_eng with_tree db_engine db_tree with_engine l_engine] in *.
  rewrite Hn. apply Z.le_refl.
Qed.

Lemma ssi_record_write (db : Db) tx k log late ids h :
  engine_ssi (db_engine db) log late ids h -> engine_ssi (db_engine (record_ssi_write db tx k)) log late ids h.
Proof.
  intros Hv. unfold record_ssi_write. destruct (negb _); [done|]. apply ssi_with_context; [done|].
  intros m id. by apply step_record_write.
Qed.

Lemma ssi_get_at (db : Db) k s db' r log late ids h :
  engine_ssi (db_engine db) log late ids h -> db_get_at db k s = Some (db', r) -> engine_ssi (db_engine db') log late ids h.
Proof. intros Hv Hg. destruct (get_at_same _ _ _ _ _ Hg) as (Hq & Hn & Hh). apply (ssi_idle _ _ _ _ _ _ Hv Hh Hq). lia. Qed.

Definition world_ssi (W : Wd) : Prop :=
  engine_ssi (db_engine (wd_db W)) (wd_log W) (wd_late W) (begun_ids (wd_begun W)) (wd_history W).

Lemma ssi_try_commit (db : Db) g h w log late ids tx throttle io_w io_s db' r :
  tree_inv w (db_tree db) h g -> engine_ssi (db_engine db) log late ids h -> room db ->
  try_commit db tx throttle io_w io_s = (db', r) ->
  engine_ssi (db_engine db') (log ++ ssi_commit db tx r) late ids (publish_result h (t_mutations tx) r).
Proof.
  intros Hv Hssi [Hb Hx] Hc. destruct (try_commit_call _ _ _ _ _ _ _ Hc) as (e0 & r0 & He & Hr).
  assert (Hv0 : engine_ssi e0 (log ++ ssi_commit db tx r0) late ids (publish_result h (t_mutations tx) r0)).
  { destruct He as [[-> ->]|He]; [cbn; by rewrite app_nil_r|]. unfold commit_call, ssi_commit in *.
    cbn [tx_manager detect_tx_manager hook_manager]. destruct (t_reserved_tx_id tx) as [id|].
    - eapply (ssi_write_with_tx w (db_tree db) h _ log late ids) in He; [|done|done|done]. unfold context_commit in He. by destruct r0.
    - eapply (ssi_engine_write w (db_tree db) h _ log late ids) in He; [|done|done|done|done]. by destruct r0; rewrite app_nil_r. }
  destruct r0 as [ts|err]; [by destruct Hr as [-> ->]|]. destruct Hr as (-> & err' & ->).
  cbn [ssi_commit publish_result] in *. eapply ssi_idle; [exact Hv0|done|done|]. apply Z.le_refl.
Qed.

Lemma begun_perm bg bg' : Permutation bg bg' -> Permutation (begun_ids bg) (begun_ids bg').
Proof. apply Permutation_flat_map. Qed.

Lemma world_ssi_step (W W' : Wd) : db_step W W' -> world_inv W -> world_ssi W -> world_ssi W'.
Proof.
  unfold world_inv, world_ssi.
  destruct 1 as [db open h w log bg late ms th io_w io_s db' r [Hb Hx] Hk Hw|db open h w log bg late db' tx Hbg|db open h w log bg late db' s Hbg|db open h w log bg late s rest db' id [_ Hx] Hp Hbg
    |db open h w log bg late s id rest db' tx Hp Hbg
    |db open h w log bg late tx rest k v db' tx' Hp Ht|db open h w log bg late tx rest k db' tx' Hp Ht
    |db open h w log bg late tx k db' r _ Hg|db open h w log bg late tx lo up db' r _ Hg|db open h w log bg late k db' r Hg|db open h w log bg late k s db' r Hg
    |db open h w log bg late tx th io_w io_s db' r Hin Hroom Hk Hc|db open h w log bg late tx rest Hp|db open h w log bg late registered io
    |db open h w log bg late io m k iob ioi db' n Hn Hnow Hiw His Hf|db open h w log bg late src tgt io l' r sc Hn Ht Hnow Hiw His Hc
    |db open h w log bg late src tgt io l' r sc Hn Ht Hnow Hiw His Hc|db open h w log bg late Hvc|db open h w log bg late io];
    cbn [wd_db wd_open wd_history wd_floor wd_log wd_begun wd_late] in *; intros Hv Hs.
  - unfold db_write in Hw. destruct (engine_write _ _ _ _ _) as [e' r0] eqn:Ew. injection Hw as <- <-.
    eapply (ssi_engine_write w (db_tree db) h _ log late _) in Ew; [|done..]. by destruct r0.
  - injection Hbg as <- <-. eapply ssi_idle; [exact Hs|done|done|]. apply Z.le_refl.
  - by eapply ssi_snapshot_ok.
  - apply (ssi_perm _ _ _ _ _ _ (begun_perm _ _ Hp)) in Hs. by eapply ssi_reserve_ok.
  - apply (ssi_perm _ _ _ _ _ _ (begun_perm _ _ Hp)) in Hs. eapply ssi_register_ok; [exact Hs| |exact Hbg].
    pose proof (tv_open _ _ _ _ Hv) as Ho. rewrite Forall_forall in Ho.
    assert (Hin : s ∈ pinned open bg) by (apply elem_of_app; right; rewrite Hp; by left). apply Ho in Hin; unfold db_engine; lia.
  - injection Ht as <- <-. by apply ssi_record_write.
  - injection Ht as <- <-. by apply ssi_record_write.
  - unfold tx_get in Hg. destruct (buffered _ _); [by injection Hg as <- _|]. eapply ssi_get_at; [|exact Hg].
    destruct (t_is_ssi tx); [|done]. apply ssi_with_context; [done|]. intros m id. apply step_read.
  - unfold tx_scan_range in Hg. apply bind_Some in Hg as (r0 & _ & [= <- _]).
    destruct (t_is_ssi tx); [|done]. apply ssi_with_context; [done|]. intros m id. apply step_read_range.
  - change (db_get db k) with (db_get_at db k (begin_read (db_engine db)).2) in Hg. by eapply ssi_get_at.
  - by eapply ssi_get_at.
  - by eapply ssi_try_commit.
  - by apply ssi_drop.
  - destruct registered; [|done]. cbn. unfold schedule_catalog_save. by destruct (_ <=? _).
  - destruct (flush_tree _ _ _ _ _ _ _ _ _ _ _ Hv Hn Hnow Hiw His Hf) as [_ [Hh Hnx Hq _]].
    eapply ssi_idle; [exact Hs|done|done|lia].
  - unfold db_engine. cbn. by rewrite (compact_engine _ _ _ _ _ _ _ Hc).
  - unfold db_engine. cbn. by rewrite (sub_compact_engine _ _ _ _ _ _ _ Hc).
  - eapply ssi_idle; [exact Hs|..]; unfold engine_garbage_collect; destruct (mt_garbage_collect _ _); done || apply Z.le_refl.
  - eapply ssi_idle; [exact Hs|done|done|]. apply Z.le_refl.
Qed.

Lemma new_world_ssi (W : Wd) : new_world W -> world_ssi W.
Proof.
  intros (_ & _ & Hq & Hn & _ & Hm & _ & Hh & _ & Hl & Hb & Hla). unfold world_ssi. rewrite Hl, Hh, Hb, Hla.
  assert (Hd : e_hook (db_engine (wd_db W)) = tm_default) by (by apply Hm).
  split; [|done| |by intros t c k ?%not_elem_of_nil|constructor|by intros i ?%not_elem_of_nil].
  - unfold sys_of. rewrite Hd. apply sys_inv_alt. pose proof sys_init_inv as (Hi & Hser & _)%sys_inv_alt.
    split; [by apply (tm_inv_tick 0); [|lia]|split; [by apply (log_serial_tick 0); [|lia]|done]].
  - rewrite Hd. intros i [x Hx]. done.
Qed.

Lemma db_reach_ssi (W : Wd) : db_reach W -> world_inv W /\ world_ssi W.
Proof.
  intros (W0 & Hn & Hr). pose proof (new_world_inv _ Hn) as Hi. apply new_world_ssi in Hn.
  induction Hr as [|W1 W2 W3 Hs _ IH]; [done|]. apply IH; [by apply (world_ssi_step W1)|by apply (world_inv_step W1)].
Qed.

(** C3: SSI transactions are serializable.  Take any run of a database over the
    transaction manager: the three calls of [begin_ssi] are separate steps, and commits
    of other transactions fall between them; a commit, which holds the write guard, is
    one step, and so is a flush, which succeeds.  Let an SSI transaction be committed
    that was registered before any SSI commit after its snapshot.  Then between its
    snapshot and its commit no other SSI transaction committed a version of any key it
    read, scanned or wrote; and if moreover all versions of the key committed in between
    are by SSI transactions (autocommit writes and plain transactions are not
    validated), the key has the same value at its snapshot and just before its commit:
    its reads are those of a serial execution in commit order. *)
Theorem database_serializable (W : Wd) (t : SsiTxn) (c : TxnTs) (k : bytes) :
  db_reach W -> (t, c) ∈ wd_log W -> th_id (handle t) ∉ wd_late W -> depends t k ->
  start_ts t < c /\
  (forall t' c', (t', c') ∈ wd_log W -> start_ts t < c' < c -> wd_history W k !! c' = None) /\
  ((forall c', start_ts t < c' < c -> is_Some (wd_history W k !! c') -> exists t', (t', c') ∈ wd_log W) ->
   view (wd_history W) (start_ts t) k = view (wd_history W) (c - 1) k).
Proof.
  intros Hr Hin Hlate Hd. destruct (db_reach_ssi _ Hr) as [_ [Hs _ _ Hl _ _]].
  pose proof Hs as [_ _ _ _ (_ & Hf & Hser) _]. rewrite Forall_forall in Hf, Hser. pose proof (Hf _ Hin) as Hc. cbn in Hc.
  assert (Hno : forall t' c', (t', c') ∈ wd_log W -> start_ts t < c' < c -> wd_history W k !! c' = None).
  { intros t' c' Hin' Hlt. apply eq_None_not_Some. intros Hk. apply (Hser _ Hin Hlate t' c' Hin' Hlt). exists k.
    split; [by eapply Hl|]. destruct Hd as [|[|]]; [left|right; left|right; right]; done. }
  split; [lia|]. split; [done|]. intros Hall. unfold view. f_equal. symmetry. apply latest_agree; [done|lia|].
  intros u Hu. apply eq_None_not_Some. intros Hk. destruct (Hall u ltac:(lia) Hk) as [t' Hin'].
  rewrite (Hno t' u Hin' ltac:(lia)) in Hk. by destruct Hk.
Qed.

(** ** What a transaction touches is recorded *)

Definition context_of (db : Db) (id : TxnId) : option SsiTxn := get_ssi_txn (e_hook (db_engine db)) id.

Lemma on_context_of (db : Db) tx f id t :
  t_reserved_tx_id tx = Some id -> context_of db id = Some t -> context_of (on_context db tx f) id = Some (f t).
Proof.
  unfold context_of, on_context. cbn [tx_manager detect_tx_manager hook_manager]. intros -> Ht.
  cbn [update_manager with_eng with_tree db_engine db_tree with_engine l_engine with_hook e_hook hook_manager put_manager].
  unfold tx_manager, get_ssi_txn, with_ssi_txn in *. cbn. rewrite Ht. cbn. by rewrite om_get_insert, eqc_refl.
Qed.

(** [t'] is [t] after an access of [k]. *)
Definition accessed (t t' : SsiTxn) (k : bytes) : Prop :=
  start_ts t' = start_ts t /\ depends t' k /\ forall k', depends t k' -> depends t' k'.

Lemma accessed_read t k : accessed t (record_read t k) k.
Proof. split; [done|]. unfold depends. cbn. split; [set_solver|]. intros k' [|[|]]; set_solver. Qed.

Lemma accessed_write t k : accessed t (record_write t k) k.
Proof. split; [done|]. unfold depends. cbn. split; [set_solver|]. intros k' [|[|]]; set_solver. Qed.

Lemma accessed_range t lower upper k :
  in_range lower upper k = true -> accessed t (add_read_conflict_range t lower upper) k.
Proof.
  intros Hk. split; [done|]. unfold depends, in_ranges. cbn. rewrite existsb_app. cbn. split.
  - right; right. unfold in_range in Hk. rewrite Hk. by rewrite orb_true_r.
  - intros k' [?|[?|Hr]]; [by left|by right; left|right; right]. by rewrite existsb_app, Hr.
Qed.

(** C27: every access of an SSI transaction is recorded.  While a transaction's
    context is live, a lookup that reaches the database, a range scan (for every
    key of the range, present or not), a put and a delete leave the context live,
    at the same snapshot, depending on the keys accessed and on all it depended on
    before: validation at commit sees them all. *)
Theorem ssi_accesses_recorded (db db' : Db) (tx tx' : Transaction) (id : TxnId) (t : SsiTxn) (key value lower upper : bytes)
    (r : DbResult (option bytes)) (rs : DbResult (list (bytes * bytes))) :
  t_is_ssi tx = true -> t_reserved_tx_id tx = Some id -> context_of db id = Some t ->
  (buffered (rev (t_mutations tx)) key = None /\ tx_get db tx key = Some (db', r)) \/
  (in_range lower upper key = true /\ tx_scan_range db tx lower upper = Some (db', rs)) \/
  tx_put db tx key value = (db', tx') \/ tx_delete db tx key = (db', tx') ->
  exists t', context_of db' id = Some t' /\ accessed t t' key.
Proof.
  intros Hssi Hid Ht [[Hbuf Hg]|[[Hr Hs]|[Hp|Hd]]].
  - unfold tx_get in Hg. rewrite Hbuf, Hssi in Hg. apply get_at_same in Hg as (_ & _ & Hh).
    exists (record_read t key). split; [|apply accessed_read].
    unfold context_of at 1. rewrite Hh. by apply (on_context_of db tx (fun ssi => record_read ssi key)).
  - unfold tx_scan_range in Hs. rewrite Hssi in Hs. apply bind_Some in Hs as (r0 & _ & [= <- _]).
    eexists. split; [by apply (on_context_of db tx (fun ssi => add_read_conflict_range ssi lower upper))|by apply accessed_range].
  - injection Hp as <- _. unfold record_ssi_write. rewrite Hssi. cbn [negb].
    eexists. split; [by apply (on_context_of db tx (fun ssi => record_write ssi key))|apply accessed_write].
  - injection Hd as <- _. unfold record_ssi_write. rewrite Hssi. cbn [negb].
    eexists. split; [by apply (on_context_of db tx (fun ssi => record_write ssi key))|apply accessed_write].
Qed.
End Serializable.

(** ** Witnesses *)

#[local] Existing Instance no_sse42.
#[local] Existing Instance list_vortex.
#[local] Existing Instance list_vortex_laws.
#[local] Existing Instance column_ord.

Lemma database_serializable_witness :
  exists t, (t, 1) ∈ wd_log world5 /\ start_ts t < 1 /\
    (forall t' c', (t', c') ∈ wd_log world5 -> start_ts t < c' < 1 -> wd_history world5 [x61] !! c' = None).
Proof.
  destruct (get_ssi_txn (e_hook (db_engine db2)) 1) as [t|] eqn:E; [|vm_compute in E; discriminate].
  assert (Hlog : wd_log world5 = [(fold_left record_write [[x61]] t, 1)])
    by (cbn [world5 wd_log]; unfold log1, ssi_commit; cbn [tx_manager detect_tx_manager hook_manager t_reserved_tx_id tx1w]; by rewrite E).
  exists (fold_left record_write [[x61]] t). rewrite Hlog.
  assert (Hin : (fold_left record_write [[x61]] t, 1) ∈ wd_log world5) by (rewrite Hlog; by left).
  destruct (database_serializable world5 (fold_left record_write [[x61]] t) 1 [x61] world5_reach Hin) as (Hlt & Hno & _).
  - apply not_elem_of_nil.
  - left. apply elem_of_union_l, elem_of_singleton. reflexivity.
  - split; [by left|]. split; [exact Hlt|]. intros t' c' Hin'. apply (Hno t' c'). rewrite Hlog. exact Hin'.
Defined.

Lemma ssi_accesses_recorded_witness :
  exists t t', context_of db1 1 = Some t /\ context_of db2 1 = Some t' /\ accessed t t' [x61].
Proof.
  destruct (context_of db1 1) as [t|] eqn:E; [|vm_compute in E; discriminate].
  destruct (ssi_accesses_recorded db1 db2 tx1 tx1w 1 t [x61] [x31] [x61] [x62] (Ok None) (Ok []) eq_refl eq_refl E) as (t' & Ht' & Ha).
  - right; right; left. match goal with |- _ = ?r => vm_cast_no_check (@eq_refl _ r) end.
  - exists t, t'. split; [reflexivity|]. split; [exact Ht'|exact Ha].
Defined.
