(* ===== verification/Session.v ===== *)
(** * Opening a database and running SQL ([hatp/src/embedded.rs],
    [hatp-frontend/src/execution.rs])

    [Database::open] and [open_with_tx_manager] put the pieces together: the engine
    from its configuration and what is on disk, the catalog from its file, and a
    DataFusion session.  [execute_sql] runs a statement in the session; DataFusion
    and the debug form of an Arrow array are parameters. *)

From Stdlib Require Import Strings.String Numbers.DecimalString.
From stdpp Require Import base tactics list option gmap.
From S2P Require Import Prelude Paths OrdMap Types Version Crc32c Wal MemTable MemTableProps Handle TxManager Codec Bloom KeyIndex Arrow RowCodec ColumnPredicate Manifest Compaction Engine Snapshots Sst SstProps Lsm LsmProps Restart Pressure Config Lookup LookupProps Catalog Database DatabaseProps.
#[local] Open Scope Z_scope.
#[local] Set Warnings "-clear-no-such-hyp".

(** ** What a crash leaves of the sidecars *)

(** The caches are empty, and of each file, none of which is synced, a prefix may be
    left. *)
Definition cut_files (cut : Z -> nat) (files : omap Z bytes) : omap Z bytes :=
  map (fun x => (x.1, take (cut x.1) x.2)) files.
Definition reopened_sidecars (sc : Sidecars) (cut_bloom cut_index : Z -> nat) : Sidecars :=
  mkSidecars (cut_files cut_bloom (sc_bloom_files sc)) (cut_files cut_index (sc_index_files sc)) [] [] [].

Lemma cut_get cut files f d :
  om_get f (cut_files cut files) = Some d -> exists d0, om_get f files = Some d0 /\ d = take (cut f) d0.
Proof.
  induction files as [|[g d0] files IH]; [done|]. cbn [cut_files map]. rewrite !om_get_cons. cbn [fst snd].
  destruct (eqc f g) eqn:E; [|exact IH]. apply eqc_spec in E as ->. intros [= <-]. by exists d0.
Qed.

(** They still answer for the rows of the files they answered for. *)
Lemma reopened_sidecar_ok sc f rows cut_bloom cut_index :
  sidecar_ok sc f rows -> sidecar_ok (reopened_sidecars sc cut_bloom cut_index) f rows.
Proof.
  intros [Hb Hbf Hi Hif]. split; cbn; [done| |done|].
  - intros d (d0 & Hd0 & ->)%cut_get. destruct (Hbf d0 Hd0) as (x & Hp & Hx). exists x. split; [|done].
    etrans; [|exact Hp]. apply prefix_take.
  - intros d (d0 & Hd0 & ->)%cut_get. destruct (Hif d0 Hd0) as (x & Hp & Hx). exists x. split; [|done].
    etrans; [|exact Hp]. apply prefix_take.
Qed.

(** ** Opening *)

Section Open.
Context {hw : Crc32Hw} {Cell SM Heap : Type} `{SkipMapLaws Cell SM} `{ArcSwapLaws VersionChain Cell Heap}.
Context {hi : HashIter} `{VortexLib} `{CatalogJson}.
#[local] Abbreviation Table := (MemTable SM Heap).

(** [Database::open]: no hook. *)
Definition db_open (path : bytes) (components : bytes -> list bytes) (canonicalize : list bytes -> option (list bytes))
    (system_time : Z) (im : Image) (sc : Sidecars) (files : CatalogFiles) (io_man io_len io_s io_read : IoOutcome)
    (registered : result string unit) : option (DbResult (Database (T := Table) (H := unit))) :=
  match open_with_hook (config_new path system_time) im tt io_man io_len io_s with
  | None => None
  | Some (Err err) => Some (Err (DbEngine err))
  | Some (Ok l) => Some (open_with_engine canonicalize (components path) (components path) l sc files io_read registered)
  end.

(** [Database::open_with_tx_manager] *)
Definition open_with_tx_manager (path : bytes) (manager : TxManager) (system_time : Z) (im : Image) (sc : Sidecars)
    (files : CatalogFiles) (io_man io_len io_s io_read : IoOutcome) (registered : result string unit)
  : option (DbResult (Database (T := Table) (H := TxManager))) :=
  match open_with_hook (config_new path system_time) im manager io_man io_len io_s with
  | None => None
  | Some (Err err) => Some (Err (DbEngine err))
  | Some (Ok l) =>
      Some (let? catalog := load_catalog files io_read in
            match registered with
            | Err msg => Err (Frontend msg)
            | Ok _ => Ok (mkDb l sc catalog 0 files)
            end)
  end.

#[local] Instance default_backend : MemTableBackend Table := memtable_backend ImplSkipMap.
#[local] Instance default_laws : MemTableLaws Table := memtable_laws ImplSkipMap.

(** C6: a database comes back after a crash.  Take a database whose tree is that of
    any run of commits, flushes that start on a durable log, compactions, crashes and
    restarts in which the writes and syncs of the log and the manifest succeed, and
    whose catalog is saved; it crashes between two of these operations.  The image
    has the SST files, all of the manifest, any prefix of the log that contains its
    durable part and whatever prefixes of the sidecar files.  If the prefix of the log
    ends inside the first magic number (one to three bytes), opening fails.
    Otherwise opening with a manager, whose own file operations succeed, gives the
    same catalog and a tree that reads exactly as the committed transactions, of
    those not synced a prefix; the sidecars still answer for the rows of their
    files. *)
Theorem database_reopens `{!VortexLaws} base (db : Database (T := Table) (H := TxManager)) pre log new (n nm : nat)
    path manager system_time schemas cut_bloom cut_index :
  tree_run base (db_tree db) pre log new -> load_catalog (db_files db) IoOk = Ok (db_catalog db) ->
  blen (lf_contents (w_file (e_wal (db_engine db)))) <= u64_max ->
  lf_durable (w_file (e_wal (db_engine db))) <= Z.of_nat n ->
  lf_durable (mf_path (l_manifest (db_tree db))) <= Z.of_nat nm ->
  e_commit_seq (db_engine db) + Z.of_nat (length (log ++ new)) < OPEN_ENDED_TS ->
  let opened := open_with_tx_manager path manager system_time (crash_image (db_tree db) n nm schemas)
    (reopened_sidecars (db_sidecars db) cut_bloom cut_index) (db_files db) IoOk IoOk IoOk IoOk (Ok tt) in
  if torn_magic (take n (lf_contents (w_file (e_wal (db_engine db))))) then
    opened = Some (Err (DbEngine (CorruptMessage "WAL file uses an unsupported format")))
  else
    exists db' new', opened = Some (Ok db') /\
      db_catalog db' = db_catalog db /\ new' `prefix_of` new /\ reads_txs (db_tree db') (pre ++ log ++ new') /\
      (forall f rows, sidecar_ok (db_sidecars db) f rows -> sidecar_ok (db_sidecars db') f rows).
Proof.
  intros Hrun Hcat Hlen Hd Hnm Hroom opened. unfold opened, open_with_tx_manager.
  change (open_with_hook _ _ _ _ _ _) with
    (lsm_open (crash_image (db_tree db) n nm schemas) manager Full (64 * 1024 * 1024) IoOk IoOk IoOk).
  destruct (torn_magic _) eqn:Hn.
  { by destruct (tree_refused base (db_tree db) pre log new n nm schemas manager Full (64 * 1024 * 1024) IoOk IoOk IoOk
      Hrun Hd Hn) as [_ ->]. }
  destruct (tree_restarts base (db_tree db) pre log new n nm schemas manager Full (64 * 1024 * 1024))
    as (l' & new' & Ho & Hp & _ & Hr); [done..|].
  exists (mkDb l' (reopened_sidecars (db_sidecars db) cut_bloom cut_index) (db_catalog db) 0 (db_files db)), new'.
  rewrite Ho, Hcat. split; [done|]. split; [done|]. split; [done|]. split; [done|].
  intros f rows Hs. by apply reopened_sidecar_ok.
Qed.

(** [open] never fails for its path, and has no manager, so its SSI transactions are
    plain ones. *)
Lemma db_open_plain path components canonicalize system_time im sc files io_man io_len io_s db :
  db_open path components canonicalize system_time im sc files io_man io_len io_s IoOk (Ok tt) = Some (Ok db) ->
  tx_manager db = None /\ load_catalog files IoOk = Ok (db_catalog db).
Proof.
  unfold db_open. destruct (open_with_hook _ _ _ _ _ _) as [[l|err]|]; [|done..]. unfold open_with_engine, paths_match.
  rewrite bool_decide_true by done. cbn [orb negb]. destruct (load_catalog files IoOk); [|done]. intros [= <-]. done.
Qed.
End Open.

(** *** A database with one row, whose index file is cut to five bytes *)

Section Sample.
#[local] Existing Instance no_sse42.
#[local] Existing Instance list_vortex.
#[local] Existing Instance list_vortex_laws.
#[local] Abbreviation Table := (MemTable (SortedEntries nat) (list VersionChain)).
#[local] Instance row_backend : MemTableBackend Table := memtable_backend (Cell := nat) ImplSkipMap.
#[local] Instance row_laws : MemTableLaws Table := memtable_laws (Cell := nat) ImplSkipMap.

#[local] Abbreviation Tree := (Lsm (T := Table) (H := TxManager)).

Definition no_tree : Tree :=
  mkLsm (mkEngine empty_wal mt_default tm_default 1 1 [] Full) man_empty [] [] 0 [] (64 * 1024 * 1024) [].
Definition new_tree : Tree :=
  match lsm_open (mkImage None None [] []) tm_default Full (64 * 1024 * 1024) IoOk IoOk IoOk with
  | Some (Ok l) => l | _ => no_tree end.
Definition row_write : Engine (T := Table) (H := TxManager) * Result TxnTs :=
  engine_write (l_engine new_tree) [MPut [x61] [x31]] ThrottleNone IoOk IoOk.
Definition row_db : Database (T := Table) (H := TxManager) :=
  mkDb (with_engine new_tree row_write.1) (mkSidecars [] [(0, [x00; x00; x00; x00; x00; x00])] [] [] []) [] 0 (mkFiles None None).

Lemma opened {A} (x : option (Result A)) (d : A) :
  match x with Some (Ok _) => true | _ => false end = true -> x = Some (Ok (match x with Some (Ok l) => l | _ => d end)).
Proof. by destruct x as [[]|]. Qed.

Lemma row_run : tree_run (e_next_tx_id (l_engine new_tree)) (db_tree row_db) [] [(1, [MPut [x61] [x31]])] [].
Proof.
  assert (H0 : tree_run (e_next_tx_id (l_engine new_tree)) new_tree [] [] []).
  { apply (tr_create [] tm_default Full (64 * 1024 * 1024)). refine (opened _ no_tree _). vm_compute. reflexivity. }
  pose proof (tr_write _ new_tree [] [] [] [MPut [x61] [x31]] ThrottleNone row_write.1 row_write.2 H0) as Hw.
  assert (Er : row_write.2 = Ok 1) by (vm_compute; reflexivity). rewrite Er in Hw.
  assert (Es : log_after (e_sync_mode (l_engine new_tree)) [] []
      (committed (e_next_tx_id (l_engine new_tree)) [MPut [x61] [x31]] (Ok 1)) = ([(1, [MPut [x61] [x31]])], []))
    by (vm_compute; reflexivity).
  cbv zeta in Hw. rewrite Es in Hw.
  apply Hw; [by repeat constructor|by repeat constructor|vm_compute; reflexivity|vm_compute; reflexivity|].
  rewrite <- Er. apply surjective_pairing.
Qed.

Lemma database_reopens_witness :
  exists db', open_with_tx_manager (Cell := nat) (SM := SortedEntries nat) (Heap := list VersionChain) [x64] tm_default 0 (crash_image (db_tree row_db) 200 200 [])
      (reopened_sidecars (db_sidecars row_db) (fun _ => 0%nat) (fun _ => 5%nat)) (mkFiles None None) IoOk IoOk IoOk IoOk (Ok tt) =
    Some (Ok db') /\ reads_txs (db_tree db') [(1, [MPut [x61] [x31]])].
Proof.
  pose proof (database_reopens (Cell := nat) _ row_db [] [(1, [MPut [x61] [x31]])] [] 200 200 [x64] tm_default 0 []
    (fun _ => 0%nat) (fun _ => 5%nat) row_run) as Hrec.
  assert (Et : torn_magic (take 200 (lf_contents (w_file (e_wal (db_engine row_db))))) = false) by (vm_compute; reflexivity).
  rewrite Et in Hrec. destruct Hrec as (db' & new' & Ho & _ & Hp & Hr & _).
  - reflexivity.
  - vm_compute. congruence.
  - vm_compute. congruence.
  - vm_compute. congruence.
  - vm_compute. reflexivity.
  - apply prefix_nil_inv in Hp as ->. exists db'. split; [exact Ho|exact Hr].
Defined.
End Sample.

(** ** SQL *)

(** [SessionExecutionOutcome] *)
Record SessionExecutionOutcome := mkOutcome { oc_rows : nat; oc_batches : nat; oc_head : list string }.

(** DataFusion: planning a query, and collecting the plan's batches; Arrow: the debug
    form of an array, and whether a slot is null. *)
Class SqlSession (Session DataFrame : Type) := {
  session_sql : Session -> string -> result string DataFrame;
  collect : DataFrame -> result string (list RecordBatch);
  debug_array : ArrowArray -> string;
}.

Section Sql.
Context {Session DataFrame : Type} `{SqlSession Session DataFrame}.
#[local] Open Scope string_scope.

Definition join (sep : string) (parts : list string) : string := String.concat sep parts.
Definition slice_one (a : ArrowArray) (row : nat) : ArrowArray := mkArray (ar_type a) (take 1 (drop row (ar_slots a))).

(** One column of a row of the preview; [None] is a panic of [is_null] or of the slice. *)
Definition preview_value (a : ArrowArray) (row : nat) : option string :=
  slot ← ar_slots a !! row;
  Some (match slot with None => "NULL" | Some _ => debug_array (slice_one a row) end).
Definition preview_part (schema : Schema) (columns : list ArrowArray) (row col : nat) : option string :=
  array ← columns !! col; field ← schema !! col; value ← preview_value array row;
  Some (string_of_list_byte (fd_name field) ++ " = " ++ value).
Definition preview_row (batch : RecordBatch) (row : nat) : option string :=
  parts ← mapM (preview_part (rb_schema batch) (rb_columns batch) row) (seq 0 (length (rb_columns batch)));
  Some ("row[" ++ fmt_u64 (Z.of_nat row) ++ "]: " ++ join ", " parts).

(** [head_preview] *)
Definition head_preview (batches : list RecordBatch) (cap : nat) : option (list string) :=
  match batches with
  | [] => Some []
  | batch :: _ => mapM (preview_row batch) (seq 0 (Nat.min (rb_num_rows batch) cap))
  end.

(** [FrontendSession::execute] *)
Definition execute (session : Session) (query : string) : option (result string SessionExecutionOutcome) :=
  match session_sql session query with
  | Err err => Some (Err err)
  | Ok df =>
      match collect df with
      | Err err => Some (Err err)
      | Ok batches =>
          let rows := fold_left Nat.add (map rb_num_rows batches) 0%nat in
          head ← head_preview batches 5;
          Some (Ok (mkOutcome rows (length batches) head))
      end
  end.

(** [Database::execute_sql] *)
Definition execute_sql (session : Session) (query : string) : option (DbResult SessionExecutionOutcome) :=
  (fun r => match r with Ok o => Ok o | Err err => Err (Frontend err) end) <$> execute session query.

(** A batch as Arrow builds it: a column per field, each with a slot per row. *)
Definition batch_shaped (batch : RecordBatch) : Prop :=
  length (rb_schema batch) = length (rb_columns batch) /\
  Forall (fun a => length (ar_slots a) = rb_num_rows batch) (rb_columns batch).

Lemma mapM_seq_total {A} (f : nat -> option A) a n :
  (forall i, (a <= i < a + n)%nat -> is_Some (f i)) -> exists l, mapM f (seq a n) = Some l /\ length l = n.
Proof.
  intros Hf. assert (Hm : is_Some (mapM f (seq a n))).
  { apply mapM_is_Some. apply Forall_forall. intros i Hi%elem_of_seq. by apply Hf. }
  destruct Hm as [l Hl]. exists l. split; [done|]. pose proof (length_mapM _ _ _ Hl) as E. rewrite length_seq in E. lia.
Qed.

Lemma preview_row_total batch row : batch_shaped batch -> (row < rb_num_rows batch)%nat -> is_Some (preview_row batch row).
Proof.
  intros [Hs Hc] Hr. unfold preview_row.
  destruct (mapM_seq_total (preview_part (rb_schema batch) (rb_columns batch) row) 0 (length (rb_columns batch))) as (l & Hl & _).
  - intros i Hi. unfold preview_part. destruct (rb_columns batch !! i) as [a|] eqn:Ea; [|apply lookup_ge_None in Ea; lia].
    destruct (rb_schema batch !! i) as [f|] eqn:Ef; [|apply lookup_ge_None in Ef; lia].
    pose proof (proj1 (Forall_lookup _ _) Hc i a Ea) as Ha. cbn in Ha. unfold preview_value. cbn [mbind option_bind].
    destruct (ar_slots a !! row) as [s|] eqn:Er; [by eexists|]. apply lookup_ge_None in Er. lia.
  - rewrite Hl. by eexists.
Qed.

(** A statement whose plan and run succeed gives an outcome, without panicking: the
    rows of all batches, and at most five lines, those of the first batch. *)
Lemma execute_outcome session query df batches :
  session_sql session query = Ok df -> collect df = Ok batches -> Forall batch_shaped batches ->
  exists head, execute_sql session query = Some (Ok (mkOutcome (list_sum (map rb_num_rows batches)) (length batches) head)) /\
    length head = match batches with [] => 0%nat | b :: _ => Nat.min (rb_num_rows b) 5 end.
Proof.
  intros Hq Hc Hb. unfold execute_sql, execute. rewrite Hq, Hc.
  assert (Hh : exists head, head_preview batches 5 = Some head /\
      length head = match batches with [] => 0%nat | b :: _ => Nat.min (rb_num_rows b) 5 end).
  { destruct Hb as [|b bs Hb _]; [by exists []|]. apply mapM_seq_total. intros i Hi. apply preview_row_total; [done|lia]. }
  destruct Hh as (head & Eh & Hl). rewrite Eh. exists head. split; [|done]. cbn [mbind option_bind fmap option_fmap option_map].
  do 3 f_equal. rewrite fold_symmetric by lia. done.
Qed.
End Sql.
