(* ===== verification/Statistics.v ===== *)
(** * Table statistics ([hatp-frontend/src/execution.rs], [hatp-engine/src/lib.rs])

    [statistics] aggregates the column statistics of a table's files for
    DataFusion's optimizer and caches the result until the engine's statistics
    version moves.  The theorem says that the least and greatest value it reports
    for a column enclose every value of the files it aggregated. *)

From Stdlib Require Import Strings.String.
From stdpp Require Import base tactics list option gmap.
From S2P Require Import Prelude OrdMap Types Version Crc32c Wal MemTable MemTableProps TxManager Codec Arrow RowCodec RowCodecProps ColumnPredicate Manifest Compaction Engine Sst SstProps Lsm LsmProps LsmReads Lookup LookupProps ColumnStats TableScan TableScanProps.
#[local] Open Scope Z_scope.

(** [datafusion_common::stats]: the estimates the adapter makes. *)
Inductive Precision A := Inexact_value (a : A) | Absent.
Arguments Inexact_value {A}.
Arguments Absent {A}.
Record ColumnStatistics := mkColumnStatistics {
  cs_min_value : Precision ScalarValue;
  cs_max_value : Precision ScalarValue;
  cs_null_count : Precision Z;
  cs_byte_size : Precision Z;
}.
Record TableStatistics := mkTableStatistics {
  tst_num_rows : Precision Z;
  tst_total_byte_size : Precision Z;
  tst_column_statistics : list ColumnStatistics;
}.

Section Statistics.
Context {T H : Type} `{VortexLib} `{ScalarOrd}.
#[local] Abbreviation Lsm := (Lsm (T := T) (H := H)).

(** [Engine::total_sst_bytes] *)
Definition total_sst_bytes (vs : VersionSet) : Z :=
  fold_left (fun acc file_id => match file_metadata vs file_id with
                                | Some (_, _, bytes, _) => wrap64 (acc + bytes)
                                | None => acc
                                end) (file_ids vs) 0.

(** [Engine::table_row_count] *)
Definition table_row_count (l : Lsm) (table : bytes) : Z := default 0 (om_get (table_prefix table) (l_table_rows l)).

Abbreviation ZoneMaps := (list (Z * (ZoneMap * TableColumnStats))).

(** The null counts of the files; [None] once a file has none for the column. *)
Definition agg_nulls (zone_maps : ZoneMaps) (col_name : bytes) : option Z :=
  fold_left (fun (acc : option Z) zm =>
    match om_get col_name (st_null_count zm.2.2) with
    | Some n => match acc with Some a => Some (wrap64 (a + n)) | None => None end
    | None => None
    end) zone_maps (Some 0).

Definition keep_min (agg : option ScalarValue) (m : ScalarValue) : option ScalarValue :=
  match agg with
  | None => Some m
  | Some prev => if sv_lt m prev then Some m else Some prev
  end.
Definition keep_max (agg : option ScalarValue) (m : ScalarValue) : option ScalarValue :=
  match agg with
  | None => Some m
  | Some prev => if sv_gt m prev then Some m else Some prev
  end.

(** One file: a null least value also skips its greatest value. *)
Definition agg_bounds (col_name : bytes) (agg : option ScalarValue * option ScalarValue)
    (zm : Z * (ZoneMap * TableColumnStats)) : option ScalarValue * option ScalarValue :=
  let '(agg_min, agg_max) := agg in
  let upper agg_min :=
    match om_get col_name (st_max zm.2.2) with
    | Some SvNull | None => (agg_min, agg_max)
    | Some m => (agg_min, keep_max agg_max m)
    end in
  match om_get col_name (st_min zm.2.2) with
  | Some SvNull => agg
  | Some m => upper (keep_min agg_min m)
  | None => upper agg_min
  end.

Definition precision {A} (o : option A) : Precision A := match o with Some a => Inexact_value a | None => Absent end.

Definition column_statistics (zone_maps : ZoneMaps) (rows bytes ncols : Z) (field : Field) : ColumnStatistics :=
  let '(agg_min, agg_max) := fold_left (agg_bounds (fd_name field)) zone_maps (None, None) in
  mkColumnStatistics (precision agg_min) (precision agg_max)
    (Inexact_value (default rows (agg_nulls zone_maps (fd_name field)))) (Inexact_value (bytes / ncols)).

(** The statistics computed from the tree. *)
Definition compute_statistics (l : Lsm) (column_stats : ColumnStats) (name : bytes) (schema : Schema) : TableStatistics :=
  let rows := table_row_count l name in
  let bytes := total_sst_bytes (version_set l) in
  let ncols := Z.max (Z.of_nat (length schema)) 1 in
  let zone_maps := table_zone_maps (l_disk l) (version_set l) column_stats name in
  mkTableStatistics (Inexact_value rows) (Inexact_value bytes) (map (column_statistics zone_maps rows bytes ncols) schema).

Abbreviation StatisticsCache := (option (Z * TableStatistics)).

(** [TableProviderAdapter::statistics]: the cache after the call and the result;
    [version] is the engine's [stats_version]. *)
Definition statistics (engine_attached : bool) (cache : StatisticsCache) (version : Z) (l : Lsm) (column_stats : ColumnStats)
    (name : bytes) (schema : Schema) : StatisticsCache * option TableStatistics :=
  if negb engine_attached then (cache, None)
  else
    let fresh := compute_statistics l column_stats name schema in
    match cache with
    | Some (cached_version, cached_stats) =>
        if cached_version =? version then (cache, Some cached_stats) else (Some (version, fresh), Some fresh)
    | None => (Some (version, fresh), Some fresh)
    end.
End Statistics.

(** ** The reported bounds *)

Section Bounds.
Context {T H : Type} `{VortexLib} `{ScalarOrd, !ScalarOrdLaws}.
#[local] Abbreviation Lsm := (Lsm (T := T) (H := H)).

(** Both aggregates cover every value of [seen]. *)
Definition encloses (t : DataType) (agg : option ScalarValue * option ScalarValue) (seen : list ScalarValue) : Prop :=
  (forall m, agg.1 = Some m -> typed t m /\ is_null m = false) /\
  (forall m, agg.2 = Some m -> typed t m /\ is_null m = false) /\
  forall s, s ∈ seen -> is_null s = false -> typed t s /\
    exists lo hi, agg = (Some lo, Some hi) /\ scalar_le lo s /\ scalar_le s hi.

(** Aggregating a value keeps a bound of what was aggregated. *)
Lemma keep_min_ok t agg m :
  typed t m -> is_null m = false -> (forall x, agg = Some x -> typed t x /\ is_null x = false) ->
  exists lo, keep_min agg m = Some lo /\ typed t lo /\ is_null lo = false /\ scalar_le lo m /\
    forall x, agg = Some x -> scalar_le lo x.
Proof.
  intros Hm Hn Ha. destruct agg as [p|]; cbn [keep_min]; [|exists m; by repeat split; [..|apply scalar_le_refl|]].
  destruct (Ha p eq_refl) as [Hp Hpn]. destruct (lesser_le t m p Hm Hp Hn Hpn) as (Ht & Hnn & Hlm & Hlp).
  exists (if sv_lt m p then m else p). split; [by destruct (sv_lt m p)|]. repeat (split; [done|]). by intros x [= <-].
Qed.

Lemma keep_max_ok t agg m :
  typed t m -> is_null m = false -> (forall x, agg = Some x -> typed t x /\ is_null x = false) ->
  exists hi, keep_max agg m = Some hi /\ typed t hi /\ is_null hi = false /\ scalar_le m hi /\
    forall x, agg = Some x -> scalar_le x hi.
Proof.
  intros Hm Hn Ha. destruct agg as [p|]; cbn [keep_max]; [|exists m; by repeat split; [..|apply scalar_le_refl|]].
  destruct (Ha p eq_refl) as [Hp Hpn]. destruct (greater_le t m p Hm Hp Hn Hpn) as (Ht & Hnn & Hlm & Hlp).
  exists (if sv_gt m p then m else p). split; [by destruct (sv_gt m p)|]. repeat (split; [done|]). by intros x [= <-].
Qed.

(** The step of the loop, when the values in the statistics are not null. *)
Definition lower_step (agg : option ScalarValue) (m : option ScalarValue) : option ScalarValue :=
  match m with Some m => keep_min agg m | None => agg end.
Definition upper_step (agg : option ScalarValue) (m : option ScalarValue) : option ScalarValue :=
  match m with Some m => keep_max agg m | None => agg end.

Lemma agg_bounds_step t name agg id zone st seen :
  bounds t name st seen ->
  agg_bounds name agg (id, (zone, st)) = (lower_step agg.1 (om_get name (st_min st)), upper_step agg.2 (om_get name (st_max st))).
Proof.
  intros Hb. destruct agg as [lo hi]. unfold agg_bounds. cbn [fst snd].
  pose proof (bo_min _ _ _ _ Hb) as Hmin. pose proof (bo_max _ _ _ _ Hb) as Hmax.
  destruct (om_get name (st_min st)) as [m|]; [destruct (Hmin m eq_refl) as [_ Hm]|];
    (destruct (om_get name (st_max st)) as [m'|]; [destruct (Hmax m' eq_refl) as [_ Hm']|]); cbn [lower_step upper_step].
  - destruct m; try done; by destruct m'.
  - by destruct m.
  - by destruct m'.
  - done.
Qed.

Lemma encloses_step t name agg id zone st seen seen' :
  encloses t agg seen -> bounds t name st seen' -> encloses t (agg_bounds name agg (id, (zone, st))) (seen' ++ seen).
Proof.
  intros (Hlo & Hhi & Hseen) Hb. rewrite (agg_bounds_step t name agg id zone st seen' Hb). destruct agg as [alo ahi]. cbn [fst snd] in *.
  destruct Hb as [Hmin Hmax Hbs].
  assert (L : (forall m, lower_step alo (om_get name (st_min st)) = Some m -> typed t m /\ is_null m = false) /\
    forall x, alo = Some x \/ om_get name (st_min st) = Some x ->
      exists lo, lower_step alo (om_get name (st_min st)) = Some lo /\ typed t lo /\ is_null lo = false /\ scalar_le lo x).
  { destruct (om_get name (st_min st)) as [m|]; cbn [lower_step].
    - destruct (Hmin m eq_refl) as [Hm Hn]. destruct (keep_min_ok t alo m Hm Hn Hlo) as (lo & -> & Ht & Hln & Hlm & Hlx).
      split; [by intros ? [= <-]|]. intros x [Hx|[= <-]]; exists lo; auto.
    - split; [done|]. intros x [Hx|[=]]. exists x. destruct (Hlo x Hx). by repeat split; [..|apply scalar_le_refl]. }
  assert (G : (forall m, upper_step ahi (om_get name (st_max st)) = Some m -> typed t m /\ is_null m = false) /\
    forall x, ahi = Some x \/ om_get name (st_max st) = Some x ->
      exists hi, upper_step ahi (om_get name (st_max st)) = Some hi /\ typed t hi /\ is_null hi = false /\ scalar_le x hi).
  { destruct (om_get name (st_max st)) as [m|]; cbn [upper_step].
    - destruct (Hmax m eq_refl) as [Hm Hn]. destruct (keep_max_ok t ahi m Hm Hn Hhi) as (hi & -> & Ht & Hln & Hlm & Hlx).
      split; [by intros ? [= <-]|]. intros x [Hx|[= <-]]; exists hi; auto.
    - split; [done|]. intros x [Hx|[=]]. exists x. destruct (Hhi x Hx). by repeat split; [..|apply scalar_le_refl]. }
  destruct L as [L1 L2], G as [G1 G2]. split; [done|]. split; [done|]. intros s Hs Hn.
  assert (Hold : typed t s /\ exists l h, (alo = Some l \/ om_get name (st_min st) = Some l) /\
    (ahi = Some h \/ om_get name (st_max st) = Some h) /\ (typed t l /\ is_null l = false) /\ (typed t h /\ is_null h = false) /\
    scalar_le l s /\ scalar_le s h).
  { apply elem_of_app in Hs as [Hs|Hs].
    - destruct (Hbs s Hs Hn) as (Ht & l & h & El & Eh & Hl & Hh). split; [done|]. exists l, h. repeat (split; [auto|]). done.
    - destruct (Hseen s Hs Hn) as (Ht & l & h & [= El Eh] & Hl & Hh). split; [done|]. exists l, h. repeat (split; [auto|]). done. }
  destruct Hold as (Ht & l & h & Hl & Hh & [Tl Nl] & [Th Nh] & Ls & Sh). split; [done|].
  destruct (L2 l Hl) as (lo & -> & Tlo & Nlo & Ll), (G2 h Hh) as (hi & -> & Thi & Nhi & Gh).
  exists lo, hi. split; [done|]. split; [by apply (scalar_le_typed t lo l s)|by apply (scalar_le_typed t s h hi)].
Qed.

(** C34: the bounds reported to the optimizer enclose the data.  For a table with
    distinct column names whose files all have statistics computed from their rows,
    the statistics have one entry per column, and a column of an ordered type
    reports a least and a greatest value that enclose every value it has in any
    file aggregated. *)
Theorem statistics_enclose (l : Lsm) (column_stats : ColumnStats) (name : bytes) (schema : Schema) (col : nat) (f : Field)
    (contents : Z -> list VersionedRow) :
  NoDup (map fd_name schema) -> schema !! col = Some f -> ordered_type (fd_type f) ->
  (forall id zone st, In (id, (zone, st)) (table_zone_maps (l_disk l) (version_set l) column_stats name) ->
     add_rows (mkStats [] [] []) schema (contents id) = Some st) ->
  exists c, tst_column_statistics (compute_statistics l column_stats name schema) !! col = Some c /\
    forall id zone st r s, In (id, (zone, st)) (table_zone_maps (l_disk l) (version_set l) column_stats name) ->
      In r (contents id) -> column_value schema col r s -> is_null s = false ->
      exists lo hi, cs_min_value c = Inexact_value lo /\ cs_max_value c = Inexact_value hi /\ scalar_le lo s /\ scalar_le s hi.
Proof.
  intros Hnd Hf Ho Hst. unfold compute_statistics. cbn [tst_column_statistics].
  set (zms := table_zone_maps _ _ _ _) in *.
  assert (Hagg : forall zms agg seen, (forall id zone st, In (id, (zone, st)) zms -> add_rows (mkStats [] [] []) schema (contents id) = Some st) ->
    encloses (fd_type f) agg seen -> exists seen', encloses (fd_type f) (fold_left (agg_bounds (fd_name f)) zms agg) seen' /\
      seen ⊆ seen' /\ forall id zone st r s, In (id, (zone, st)) zms -> In r (contents id) -> column_value schema col r s -> s ∈ seen').
  { clear Hst zms. induction zms as [|[id [zone st]] zms IH]; intros agg seen Hst Henc; [by exists seen|]. cbn [fold_left].
    destruct (bounds_rows schema col f Hnd Hf Ho (contents id) _ [] st (bounds_nil _ _) (Hst id zone st (or_introl eq_refl))) as (s1 & Hb & _ & Hs1).
    destruct (IH (agg_bounds (fd_name f) agg (id, (zone, st))) (s1 ++ seen)) as (seen' & Henc' & Hsub & Hin);
      [intros ? ? ? ?; eapply Hst; by right|by apply encloses_step|].
    exists seen'. split; [done|]. split; [set_solver|]. intros id' zone' st' r s [[= <- <- <-]|Hz] Hr Hv; [|by eapply Hin].
    apply Hsub, elem_of_app. left. by eapply Hs1. }
  destruct (Hagg zms (None, None) [] Hst) as (seen & (_ & _ & Henc) & _ & Hin); [by split; [|split; [|intros s ?%not_elem_of_nil]]|].
  eexists. split; [etransitivity; [apply list_lookup_fmap|by rewrite Hf]|].
  intros id zone st r s Hz Hr Hv Hn. destruct (Henc s (Hin id zone st r s Hz Hr Hv) Hn) as (_ & lo & hi & E & Hlo & Hhi).
  exists lo, hi. unfold column_statistics. rewrite E. done.
Qed.

(** A second call returns what the first one did, until the version moves. *)
Lemma statistics_cached attached cache version (l l' : Lsm) stats stats' name schema :
  let '(cache', r) := statistics attached cache version l stats name schema in
  statistics attached cache' version l' stats' name schema = (cache', r).
Proof.
  unfold statistics. destruct attached; cbn [negb]; [|done]. destruct cache as [[v s]|]; [destruct (v =? version) eqn:E|].
  - by rewrite E.
  - by rewrite Z.eqb_refl.
  - by rewrite Z.eqb_refl.
Qed.
End Bounds.

(** ** Witness and findings *)

Section Samples.
#[local] Existing Instance no_sse42.
#[local] Existing Instance list_vortex.
#[local] Existing Instance column_ord.
#[local] Existing Instance column_ord_laws.

(** A table flushed twice, with the statistics its flushes computed. *)
Definition twice_flushed : SampleLsm := Eval vm_compute in
  let l := put tab_flushed (tab_key x62) (tab_row 3 11) in after l (flush l all_ok).
Definition file_contents (id : Z) : list VersionedRow :=
  match sst_read_all <$> om_get id (l_disk twice_flushed) with Some (Ok rows) => rows | _ => [] end.
Definition flush_stats : ColumnStats := Eval vm_compute in
  fold_left (fun stats id => default [] (compute_column_stats (l_schemas twice_flushed) stats id (file_contents id))) [0; 1] [].

Lemma statistics_enclose_witness :
  exists c, tst_column_statistics (compute_statistics twice_flushed flush_stats tab tab_schema) !! 0%nat = Some c /\
    forall id zone st r s, In (id, (zone, st)) (table_zone_maps (l_disk twice_flushed) (version_set twice_flushed) flush_stats tab) ->
      In r (file_contents id) -> column_value tab_schema 0 r s -> is_null s = false ->
      exists lo hi, cs_min_value c = Inexact_value lo /\ cs_max_value c = Inexact_value hi /\ scalar_le lo s /\ scalar_le s hi.
Proof.
  apply (statistics_enclose twice_flushed flush_stats tab tab_schema 0 (mkField [x69] DtInt64 false) file_contents).
  - by apply (bool_decide_unpack _).
  - reflexivity.
  - reflexivity.
  - intros id zone st Hin. vm_compute in Hin. destruct Hin as [[= <- <- <-]|[[= <- <- <-]|[]]]; vm_compute; reflexivity.
Defined.

(** The values 7 and 3 of column [i] are reported as its bounds; neither file has a
    null in a column, and every row is reported as null. *)
Lemma null_count_of_no_nulls :
  map (fun c => (cs_min_value c, cs_max_value c, cs_null_count c))
    (tst_column_statistics (compute_statistics twice_flushed flush_stats tab tab_schema)) =
  [(Inexact_value (SvInt64 (Some 3)), Inexact_value (SvInt64 (Some 7)), Inexact_value 2);
   (Inexact_value (SvInt64 (Some 9)), Inexact_value (SvInt64 (Some 11)), Inexact_value 2)].
Proof. vm_compute. reflexivity. Qed.
End Samples.
