(* ===== verification/Planner.v ===== *)
(** * INSERT, UPDATE and DELETE ([hatp-frontend/src/dml_planner.rs], [execution.rs])

    The planner turns a statement on a table into mutations; the table adapter
    commits them.  DataFusion's physical expressions and Arrow's filter kernel are
    parameters.  Names of columns carry no qualifier here, which is what
    [unqualify_columns] makes of them. *)

From Stdlib Require Import Strings.String Strings.Byte Sorting.Sorted.
From stdpp Require Import base tactics list option gmap.
From S2P Require Import Prelude OrdMap Types Version Crc32c Wal MemTable MemTableProps TxManager Codec Arrow RowCodec RowCodecProps ColumnPredicate Manifest Compaction Engine Sst Lsm Lookup Catalog Translate ColumnStats TableScan Dml.
#[local] Open Scope Z_scope.

(** ** Errors *)

(** The text of a plan error; the formatted ones keep what they name. *)
Inductive PlanMessage :=
| PlanText (msg : string)
| PlanCause (what err : string)
| PkColumnNotFound (col_name : bytes)
| NullPkColumn (col_name : bytes).
Inductive DfError := Plan (msg : PlanMessage) | External (err : EngineError) | NotImplemented (msg : string).

Abbreviation DfResult A := (result DfError A).

(** Computations that may panic ([None]) or fail. *)
Definition dbind {A B} (r : option (DfResult A)) (k : A -> option (DfResult B)) : option (DfResult B) :=
  match r with
  | None => None
  | Some (Err e) => Some (Err e)
  | Some (Ok a) => k a
  end.

Notation "'let*' p ':=' c1 'in' c2" := (dbind c1 (fun p => c2))
  (at level 10, p pattern, c1 at level 200, c2 at level 200,
   format "'[v' 'let*'  p  ':='  c1  'in' '/' c2 ']'") : hatp_scope.

(** [map_err] to [DataFusionError::External]. *)
Definition external {A} (r : option (Result A)) : option (DfResult A) :=
  match r with
  | None => None
  | Some (Ok a) => Some (Ok a)
  | Some (Err e) => Some (Err (External e))
  end.

(** ** DataFusion and Arrow *)

(** What the planner calls of DataFusion and Arrow; their errors as text. *)
Class DataFusion := {
  DFSchema : Type;
  PhysicalExpr : Type;
  ColumnarValue : Type;
  df_schema_try_from : Schema -> result string DFSchema;
  create_physical_expr : Expr -> DFSchema -> result string PhysicalExpr;
  evaluate_physical : PhysicalExpr -> RecordBatch -> result string ColumnarValue;
  cast_to : ColumnarValue -> DataType -> result string ColumnarValue;
  into_array : ColumnarValue -> nat -> result string ArrowArray;
  (** [arrow_select::filter::filter_record_batch]; the mask as its slots *)
  filter_record_batch : RecordBatch -> list (option ArrowValue) -> Result RecordBatch;
}.

Definition plan_err {A} (what : string) (r : result string A) : DfResult A :=
  match r with Ok a => Ok a | Err err => Err (Plan (PlanCause what err)) end.

(** [eval_expr_to_array] *)
Definition eval_expr_to_array `{DataFusion} (expr : Expr) (schema : Schema) (batch : RecordBatch) (target_type : DataType)
  : DfResult ArrowArray :=
  let? df_schema := plan_err "build DFSchema" (df_schema_try_from schema) in
  let? physical := plan_err "physicalize expression" (create_physical_expr expr df_schema) in
  let? value := plan_err "evaluate expression" (evaluate_physical physical batch) in
  let? casted := plan_err "cast expression" (cast_to value target_type) in
  plan_err "expression to array" (into_array casted (rb_num_rows batch)).

(** ** Keys: the planner's own copies of the engine's helpers *)

Fixpoint plan_resolve_columns (schema : Schema) (primary_key : list bytes) : DfResult (list (nat * bytes)) :=
  match primary_key with
  | [] => Ok []
  | col_name :: rest =>
      let? idx := ok_or (column_with_name schema col_name) (Plan (PkColumnNotFound col_name)) in
      let? out := plan_resolve_columns schema rest in
      Ok ((idx, col_name) :: out)
  end.

Definition plan_resolve_pk_columns (batch : RecordBatch) (primary_key : list bytes) : DfResult (list (nat * bytes)) :=
  plan_resolve_columns (rb_schema batch) primary_key.

Fixpoint plan_encoded_parts (batch : RecordBatch) (row : nat) (pk_columns : list (nat * bytes)) : option (DfResult (list bytes)) :=
  match pk_columns with
  | [] => Some (Ok [])
  | (idx, col_name) :: rest =>
      array ← rb_columns batch !! idx;
      scalar ← array_slot_to_scalar array row;
      let* part := Some (ok_or (encode_pk_value scalar) (Plan (NullPkColumn col_name))) in
      let* parts := plan_encoded_parts batch row rest in
      Some (Ok (part :: parts))
  end.

Definition plan_build_pk_key (table : bytes) (batch : RecordBatch) (row : nat) (pk_columns : list (nat * bytes))
  : option (DfResult bytes) :=
  let* parts := plan_encoded_parts batch row pk_columns in Some (Ok (assemble_table_key table parts)).

Section Planner.
Context `{DataFusion} `{ArrowLib}.

(** [eval_filters_mask] *)
Definition eval_filters_mask (filters : list Expr) (schema : Schema) (batch : RecordBatch)
  : DfResult (list (option ArrowValue)) :=
  match conjunction_expr filters with
  | None => Ok (replicate (rb_num_rows batch) (Some (AvBool true)))
  | Some expr =>
      let? array := eval_expr_to_array expr schema batch DtBoolean in
      match ar_type array with
      | DtBoolean => Ok (ar_slots array)
      | _ => Err (Plan (PlanText "WHERE expression must evaluate to boolean"))
      end
  end.

(** *** DELETE *)

(** The keys of the rows that matched, from [row] on. *)
Fixpoint push_deletes (table : bytes) (matched : RecordBatch) (pk_columns : list (nat * bytes)) (row n : nat)
    (mutations : list Mutation) : option (DfResult (list Mutation)) :=
  match n with
  | O => Some (Ok mutations)
  | S n =>
      let* key := plan_build_pk_key table matched row pk_columns in
      push_deletes table matched pk_columns (S row) n (mutations ++ [MDelete key])
  end.

Fixpoint delete_matched (table : bytes) (primary_key : list bytes) (filters : list Expr) (batches : list RecordBatch)
    (mutations : list Mutation) : option (DfResult (list Mutation)) :=
  match batches with
  | [] => Some (Ok mutations)
  | batch :: rest =>
      if (rb_num_rows batch =? 0)%nat then delete_matched table primary_key filters rest mutations
      else
        let* mask := Some (eval_filters_mask filters (rb_schema batch) batch) in
        let* matched := external (Some (filter_record_batch batch mask)) in
        let* pk_columns := Some (plan_resolve_pk_columns matched primary_key) in
        let* mutations := push_deletes table matched pk_columns 0 (rb_num_rows matched) mutations in
        delete_matched table primary_key filters rest mutations
  end.

(** *** UPDATE *)

Definition find_assignment (assignments : list (bytes * Expr)) (col_name : bytes) : option (bytes * Expr) :=
  List.find (fun '(n, _) => eqc n col_name) assignments.

(** The columns of the updated batch, from column [col_idx] on. *)
Fixpoint updated_columns (assignments : list (bytes * Expr)) (schema : Schema) (batch : RecordBatch) (col_idx : nat)
    (fields : Schema) : option (DfResult (list ArrowArray)) :=
  match fields with
  | [] => Some (Ok [])
  | field :: rest =>
      let* array := match find_assignment assignments (fd_name field) with
                    | Some (_, expr) => Some (eval_expr_to_array expr schema batch (fd_type field))
                    | None => Ok <$> rb_columns batch !! col_idx
                    end in
      let* arrays := updated_columns assignments schema batch (S col_idx) rest in
      Some (Ok (array :: arrays))
  end.

Fixpoint push_updates (table : bytes) (matched : RecordBatch) (pk_columns : list (nat * bytes)) (row n : nat)
    (mutations : list Mutation) : option (DfResult (list Mutation)) :=
  match n with
  | O => Some (Ok mutations)
  | S n =>
      let* payload := external (encode_row matched row) in
      let* key := plan_build_pk_key table matched row pk_columns in
      push_updates table matched pk_columns (S row) n (mutations ++ [MPut key payload])
  end.

Fixpoint update_matched (table : bytes) (assignments : list (bytes * Expr)) (filters : list Expr) (primary_key : list bytes)
    (batches : list RecordBatch) (mutations : list Mutation) : option (DfResult (list Mutation)) :=
  match batches with
  | [] => Some (Ok mutations)
  | batch :: rest =>
      if (rb_num_rows batch =? 0)%nat then update_matched table assignments filters primary_key rest mutations
      else
        let schema := rb_schema batch in
        let* mask := Some (eval_filters_mask filters schema batch) in
        let* columns := updated_columns assignments schema batch 0 schema in
        let* updated_batch := match try_new schema columns with
                              | Ok b => Some (Ok b)
                              | Err msg => Some (Err (External (Arrow msg)))
                              end in
        let* matched := external (Some (filter_record_batch updated_batch mask)) in
        let* pk_columns := Some (plan_resolve_pk_columns matched primary_key) in
        let* mutations := push_updates table matched pk_columns 0 (rb_num_rows matched) mutations in
        update_matched table assignments filters primary_key rest mutations
  end.
End Planner.

Section Statements.
Context {hw : Crc32Hw} {T H : Type} `{MemTableBackend T} `{EngineHook H} `{VortexLib} `{ScalarOrd}.
Context `{DataFusion} `{ArrowLib} `{ArrowArrays}.
#[local] Abbreviation Lsm := (Lsm (T := T) (H := H)).

(** [plan_delete] *)
Definition plan_delete (l : Lsm) (column_stats : ColumnStats) (table : bytes) (primary_key : list bytes)
    (filters : list Expr) : option (DfResult (list Mutation)) :=
  match filters, primary_key with
  | [], _ => Some (Err (Plan (PlanText "DELETE requires a WHERE clause; full-table DELETE is rejected")))
  | _, [] => Some (Err (Plan (PlanText "DELETE requires a table with a primary key")))
  | _, _ =>
      match om_get table (l_schemas l) ≫= try_translate_pk_predicates filters with
      | Some predicates =>
          match delete_with_column_predicates l column_stats table primary_key predicates with
          | None => None
          | Some (Ok muts) => Some (Ok muts)
          | Some (Err EmptyBatch) => Some (Ok [])
          | Some (Err err) => Some (Err (External err))
          end
      | None =>
          let* batches := external (scan_table l column_stats table None None) in
          delete_matched table primary_key filters batches []
      end
  end.

(** [plan_update] *)
Definition plan_update (l : Lsm) (column_stats : ColumnStats) (table : bytes) (assignments : list (bytes * Expr))
    (filters : list Expr) (primary_key : list bytes) : option (DfResult (list Mutation)) :=
  match primary_key with
  | [] => Some (Err (Plan (PlanText "UPDATE requires a table with a primary key")))
  | _ =>
      let* batches := external (scan_table l column_stats table None None) in
      match batches with
      | [] => Some (Ok [])
      | _ => update_matched table assignments filters primary_key batches []
      end
  end.

(** [plan_insert]: the partitions of the source, when the plan is a
    [MemorySourceConfig]. *)
Definition plan_insert (schemas : omap bytes Schema) (cache : PkCache) (source : option (list (list RecordBatch)))
    (table : bytes) (primary_key : list bytes) : (omap bytes Schema * PkCache) * option (DfResult (list Mutation)) :=
  match source with
  | None => ((schemas, cache), Some (Err (Plan (PlanText "plan_insert currently only supports MemorySourceConfig"))))
  | Some partitions =>
      let '(st, r) := ingest_batches schemas cache (concat partitions) table primary_key in (st, external r)
  end.

(** *** The table adapter *)

(** [ta_engine]: whether an engine is attached; the statistics cache is left out. *)
Record TableProviderAdapter := mkAdapter { ta_primary_key : list bytes; ta_schema : Schema; ta_name : bytes; ta_engine : bool }.

(** [TableProviderAdapter::new], [TableProviderAdapter::with_engine] *)
Definition adapter_new (schema : TableSchema) : TableProviderAdapter :=
  mkAdapter (ts_primary_key schema) (ts_arrow schema) (ts_name schema) false.
Definition adapter_with_engine (schema : TableSchema) : TableProviderAdapter :=
  mkAdapter (ts_primary_key schema) (ts_arrow schema) (ts_name schema) true.

(** The guard every operation starts with. *)
Definition requires_engine {A} (ta : TableProviderAdapter) (msg : string) (run : option (A * DfResult unit)) (a : A)
  : option (A * DfResult unit) := if ta_engine ta then run else Some (a, Err (NotImplemented msg)).

(** [Schema::project] *)
Definition schema_project (schema : Schema) (projection : list nat) : DfResult Schema :=
  ok_or (mapM (fun i => schema !! i) projection) (External (Arrow "project index out of bounds")).

(** [scan]: the partitions handed to DataFusion and their schema. *)
Definition adapter_scan (ta : TableProviderAdapter) (l : Lsm) (column_stats : ColumnStats) (projection : option (list nat))
    (filters : list Expr) : option (DfResult (list (list RecordBatch) * Schema)) :=
  if negb (ta_engine ta) then Some (Err (NotImplemented "TableProviderAdapter::scan requires `with_engine`"))
  else
    let* schema := Some match projection with
                        | Some projection => schema_project (ta_schema ta) projection
                        | None => Ok (ta_schema ta)
                        end in
    let* partitions := external (scan_table_arrow l column_stats (ta_name ta) projection (Some (ta_schema ta)) u64_max
                                   (scan_predicates filters (ta_schema ta))) in
    let out := match partitions with [] => [[new_empty schema]] | _ => partitions end in
    Some (Ok (out, schema)).

(** [truncate] *)
Definition truncate : DfResult unit := Err (NotImplemented "TRUNCATE is not supported; use DELETE WHERE true").

(** The common end of the statements: commit the mutations, if there are any. *)
Definition commit_mutations (l : Lsm) (mutations : list Mutation) (throttle : ThrottleLevel) (io_w io_s : IoOutcome)
  : Lsm * DfResult unit :=
  match mutations with
  | [] => (l, Ok tt)
  | _ =>
      let '(e, r) := engine_write (l_engine l) mutations throttle io_w io_s in
      (with_engine l e, match r with Ok _ => Ok tt | Err err => Err (External err) end)
  end.

Definition run_plan (l : Lsm) (plan : option (DfResult (list Mutation))) (throttle : ThrottleLevel) (io_w io_s : IoOutcome)
  : option (Lsm * DfResult unit) :=
  match plan with
  | None => None
  | Some (Err err) => Some (l, Err err)
  | Some (Ok mutations) => Some (commit_mutations l mutations throttle io_w io_s)
  end.

(** [delete_from] *)
Definition delete_from (ta : TableProviderAdapter) (l : Lsm) (column_stats : ColumnStats) (filters : list Expr)
    (throttle : ThrottleLevel) (io_w io_s : IoOutcome) : option (Lsm * DfResult unit) :=
  requires_engine ta "TableProviderAdapter::delete_from requires `with_engine`"
    (run_plan l (plan_delete l column_stats (ta_name ta) (ta_primary_key ta) filters) throttle io_w io_s) l.

(** [update] *)
Definition adapter_update (ta : TableProviderAdapter) (l : Lsm) (column_stats : ColumnStats)
    (assignments : list (bytes * Expr)) (filters : list Expr) (throttle : ThrottleLevel) (io_w io_s : IoOutcome)
  : option (Lsm * DfResult unit) :=
  requires_engine ta "TableProviderAdapter::update requires `with_engine`"
    (run_plan l (plan_update l column_stats (ta_name ta) assignments filters (ta_primary_key ta)) throttle io_w io_s) l.

(** [insert_into]; the planner registers the schema of the rows. *)
Definition insert_into (ta : TableProviderAdapter) (l : Lsm) (cache : PkCache) (source : option (list (list RecordBatch)))
    (throttle : ThrottleLevel) (io_w io_s : IoOutcome) : option ((Lsm * PkCache) * DfResult unit) :=
  requires_engine ta "TableProviderAdapter::insert_into requires `with_engine`"
    (let '((schemas, cache), plan) := plan_insert (l_schemas l) cache source (ta_name ta) (ta_primary_key ta) in
     (fun '(l, r) => ((l, cache), r)) <$> run_plan (with_schemas l schemas) plan throttle io_w io_s) (l, cache).
End Statements.

(** ** Registration with a session *)

Definition hatp_catalog : bytes := list_byte_of_string "hatp".

(** [build_schema_provider]: the tables of one schema, each attached to the engine.
    Names of a schema are distinct, so registering one does not fail. *)
Definition build_schema_provider (catalog : CatalogState) (name : bytes) : list (bytes * TableProviderAdapter) :=
  List.flat_map (fun table_name =>
    match table_schema catalog (mkQualified hatp_catalog name) table_name with
    | Some schema => [(table_name, adapter_with_engine schema)]
    | None => []
    end) (table_names catalog hatp_catalog name).

(** [register_catalog_with]: the schemas registered under the catalog [hatp]. *)
Definition register_catalog_with (catalog : CatalogState) : list (bytes * list (bytes * TableProviderAdapter)) :=
  map (fun schema_name => (schema_name, build_schema_provider catalog schema_name)) (schema_names catalog hatp_catalog).
