(* ===== verification/PlannerProps.v ===== *)
(** * Statements change exactly the rows they select

    A [DELETE] or [UPDATE] on a table, run on any tree a database run left with its
    files at level 0, plans one mutation per row whose newest version satisfies the
    filters; committing the plan changes those rows and no other key. *)

From Stdlib Require Import Strings.String Sorting.Sorted.
From stdpp Require Import base tactics list option gmap.
From S2P Require Import Prelude OrdMap Types Version Crc32c Wal MemTable MemTableProps TxManager Codec Arrow RowCodec RowCodecProps ColumnPredicate Manifest Compaction Engine Snapshots Sst SstProps Lsm LsmProps LsmReads Lookup LookupProps Catalog Translate ColumnStats TableScan TableScanProps Dml DmlProps Database DatabaseProps DatabaseRun Planner.
#[local] Open Scope Z_scope.
#[local] Set Warnings "-clear-no-such-hyp".

(** ** What the external kernels do *)

(** The elements a boolean mask keeps: null counts as false. *)
Definition mask_true (slot : option ArrowValue) : bool := match slot with Some (AvBool true) => true | _ => false end.
Definition kept {A} (mask : list (option ArrowValue)) (l : list A) : list A :=
  snd <$> List.filter (fun e => mask_true e.1) (zip mask l).

(** [sql_value schema row e t]: the value of [e] on the row, cast to [t]. *)
Class SqlValues := sql_value : Schema -> list ScalarValue -> Expr -> DataType -> ScalarValue.

Class DataFusionLaws `{DataFusion} `{SqlSemantics} `{SqlValues} : Prop := {
  (** evaluating a filter on a batch decides it row by row *)
  eval_filter : forall e schema chunk a, Forall (row_typed schema) chunk ->
    eval_expr_to_array e schema (batch_of schema chunk) DtBoolean = Ok a ->
    ar_type a = DtBoolean /\ Forall2 (fun row slot => mask_true slot = sql_holds schema row e) chunk (ar_slots a);
  (** evaluating an expression on a batch computes it row by row *)
  eval_value : forall e schema chunk t a, Forall (row_typed schema) chunk ->
    eval_expr_to_array e schema (batch_of schema chunk) t = Ok a ->
    a = mkArray t ((fun row => scalar_slot (sql_value schema row e t)) <$> chunk);
  (** filtering a batch keeps the rows of the mask *)
  filter_kept : forall batch mask, rb_num_rows batch = length mask ->
    Forall (fun a => length (ar_slots a) = length mask) (rb_columns batch) ->
    filter_record_batch batch mask =
    Ok (mkBatch (rb_schema batch) ((fun a => mkArray (ar_type a) (kept mask (ar_slots a))) <$> rb_columns batch)
          (length (kept mask mask)));
}.

Lemma kept_fmap {A B} mask (f : A -> B) l : kept mask (f <$> l) = f <$> kept mask l.
Proof.
  unfold kept. revert mask. induction l as [|x l IH]; intros [|b mask]; try done. cbn. destruct (mask_true b); cbn; by rewrite IH.
Qed.

Lemma kept_length {A B} mask (l : list A) (l' : list B) : length l = length l' -> length (kept mask l) = length (kept mask l').
Proof.
  unfold kept. revert mask l'. induction l as [|x l IH]; intros [|b mask] [|y l'] E; try done. cbn in E |- *.
  destruct (mask_true b); cbn; [f_equal|]; apply IH; lia.
Qed.

Lemma kept_filter {A} (p : A -> bool) mask l :
  Forall2 (fun x slot => mask_true slot = p x) l mask -> kept mask l = List.filter p l.
Proof. unfold kept. induction 1 as [|x b l mask Hb _ IH]; [done|]. cbn. rewrite Hb. destruct (p x); cbn; by rewrite IH. Qed.

Section Kernels.
Context `{DataFusionLaws} `{!SqlLaws} `{ArrowLib, !ArrowLaws}.

Definition selects (schema : Schema) (filters : list Expr) (row : list ScalarValue) : bool :=
  forallb (sql_holds schema row) filters.

(** The filters evaluate on rows of the schema. *)
Definition evaluable (schema : Schema) (filters : list Expr) : Prop :=
  forall e chunk, conjunction_expr filters = Some e -> Forall (row_typed schema) chunk ->
    exists a, eval_expr_to_array e schema (batch_of schema chunk) DtBoolean = Ok a.

Lemma conjunction_holds schema row filters e :
  conjunction_expr filters = Some e -> sql_holds schema row e = selects schema filters row.
Proof.
  destruct filters as [|f rest]; [done|]. intros [= <-]. unfold selects. cbn [forallb].
  revert f. induction rest as [|g rest IH]; intros f; cbn [fold_left forallb]; [by rewrite andb_true_r|].
  by rewrite IH, sql_and, andb_assoc.
Qed.

Lemma filters_mask schema filters chunk :
  evaluable schema filters -> Forall (row_typed schema) chunk ->
  exists mask, eval_filters_mask filters schema (batch_of schema chunk) = Ok mask /\
    Forall2 (fun row slot => mask_true slot = selects schema filters row) chunk mask.
Proof.
  intros Hev Hr. unfold eval_filters_mask. destruct (conjunction_expr filters) as [e|] eqn:E.
  - destruct (Hev e chunk E Hr) as [a Ha]. rewrite Ha. cbn [rbind].
    destruct (eval_filter e schema chunk a Hr Ha) as [Ht Hm]. rewrite Ht. exists (ar_slots a). split; [done|].
    eapply Forall2_impl; [exact Hm|]. cbn. intros row slot ->. by apply conjunction_holds.
  - destruct filters; [|done]. exists (replicate (length chunk) (Some (AvBool true))). split; [done|].
    clear. induction chunk; constructor; done.
Qed.

Lemma filter_batch_of schema chunk mask :
  length mask = length chunk -> filter_record_batch (batch_of schema chunk) mask = Ok (batch_of schema (kept mask chunk)).
Proof.
  intros Hl. rewrite filter_kept.
  - unfold batch_of. cbn [rb_schema rb_columns]. rewrite (kept_length mask mask chunk Hl). do 2 f_equal.
    rewrite fmap_imap. apply imap_ext. intros j f _. unfold compose, column_of. cbn. by rewrite kept_fmap.
  - by rewrite Hl.
  - apply List.Forall_forall. intros a Ha%list_elem_of_In. cbn in Ha. apply elem_of_lookup_imap in Ha as (j & f & -> & _).
    cbn. by rewrite length_fmap.
Qed.

Lemma filtered schema filters chunk :
  evaluable schema filters -> Forall (row_typed schema) chunk ->
  exists mask, eval_filters_mask filters schema (batch_of schema chunk) = Ok mask /\ length mask = length chunk /\
    forall (A : Type) (g : list ScalarValue -> A), kept mask (g <$> chunk) = g <$> List.filter (selects schema filters) chunk.
Proof.
  intros Hev Hr. destruct (filters_mask schema filters chunk Hev Hr) as (mask & Hm & Hf). exists mask.
  split; [done|]. split; [symmetry; by eapply Forall2_length|]. intros A g. by rewrite kept_fmap, (kept_filter _ _ _ Hf).
Qed.

(** ** The keys of a batch *)

Context (schema : Schema) (Hpush : Forall (fun f => pushable_type (fd_type f) = true) schema).
Context (table : bytes) (primary_key : list bytes) (pkc : list (nat * bytes)).
Context (Hpk : resolve_pk_columns_via_schema schema primary_key = Ok pkc).

Lemma resolve_columns_ok what pk out : resolve_pk what schema pk = Ok out -> plan_resolve_columns schema pk = Ok out.
Proof.
  revert out. induction pk as [|n pk IH]; intros out; cbn [resolve_pk plan_resolve_columns]; [by intros [= <-]|].
  destruct (column_with_name schema n); [|done]. cbn [ok_or rbind].
  destruct (resolve_pk what schema pk) as [rest|]; [|done]. cbn. intros [= <-]. by rewrite (IH rest eq_refl).
Qed.

Lemma batch_pk_columns chunk : plan_resolve_pk_columns (batch_of schema chunk) primary_key = Ok pkc.
Proof. unfold plan_resolve_pk_columns. cbn. by eapply resolve_columns_ok. Qed.

Lemma batch_pk_key chunk i row k :
  Forall (row_typed schema) chunk -> chunk !! i = Some row -> build_pk_key_from_scalars table pkc row = Ok k ->
  plan_build_pk_key table (batch_of schema chunk) i pkc = Some (Ok k).
Proof.
  intros Hr Hi. pose proof (batch_row_scalars schema Hpush chunk i row Hr Hi) as Hm. apply mapM_Some in Hm.
  rewrite <- (reread_key table pkc row). unfold plan_build_pk_key, build_pk_key_from_scalars.
  assert (Hrow : length row = length schema)
    by (eapply Forall_lookup_1 in Hr as [Ht _]; [|exact Hi]; symmetry; by eapply Forall2_length).
  assert (E : forall parts, scalar_parts table pkc (reread <$> row) = Ok parts ->
    plan_encoded_parts (batch_of schema chunk) i pkc = Some (Ok parts)).
  { pose proof (resolve_pk_bound _ _ _ _ Hpk) as Hb. clear Hpk.
    induction Hb as [|[j n] cols Hj _ IH]; intros parts; cbn [plan_encoded_parts scalar_parts]; [by intros [= <-]|].
    cbn in Hj. destruct (lookup_lt_is_Some_2 (reread <$> row) j) as [s Hs]; [rewrite length_fmap; lia|].
    destruct (Forall2_lookup_r _ _ _ _ _ Hm Hs) as (a & Ha & Has). rewrite Ha, Hs. cbn [mbind option_bind]. rewrite Has.
    cbn [mbind option_bind ok_or rbind]. destruct (encode_pk_value s); cbn [ok_or rbind dbind]; [|done].
    destruct (scalar_parts table cols (reread <$> row)) as [rest|]; cbn [rbind]; [|done]. intros [= <-]. by rewrite (IH rest eq_refl). }
  destruct (scalar_parts table pkc (reread <$> row)) as [parts|]; cbn [rbind]; [|done]. intros [= <-]. by rewrite (E parts eq_refl).
Qed.

(** Cutting the keyed rows the way a scan cut its batches. *)
Lemma split_entries (chunks : list (list (list ScalarValue))) : forall entries : list (bytes * list ScalarValue),
  map snd entries = concat chunks -> exists parts, concat parts = entries /\ map snd <$> parts = chunks.
Proof.
  induction chunks as [|chunk chunks IH]; intros entries He; cbn [concat] in He.
  - destruct entries; [|done]. by exists [].
  - destruct (IH (drop (length chunk) entries)) as (parts & Hc & Hp).
    { rewrite <- skipn_map, He. apply drop_app_length. }
    exists (take (length chunk) entries :: parts). split; [cbn; by rewrite Hc, take_drop|]. cbn [fmap list_fmap].
    rewrite Hp. f_equal. rewrite <- firstn_map, He. apply take_app_length.
Qed.

Lemma filter_pairs {A B} (p : B -> bool) (l : list (A * B)) :
  List.filter p (map snd l) = map snd (List.filter (fun e => p e.2) l).
Proof. induction l as [|[a b] l IH]; [done|]. cbn. destruct (p b); cbn; by rewrite IH. Qed.

(** *** DELETE *)

Lemma push_deletes_ok entries n : forall i out,
  Forall (row_typed schema) (map snd entries) -> Forall (keyed table pkc) entries -> (i + n = length entries)%nat ->
  push_deletes table (batch_of schema (map snd entries)) pkc i n out =
  Some (Ok (out ++ map (fun e => MDelete e.1) (drop i entries))).
Proof.
  induction n as [|n IH]; intros i out Hr Hk Hl; cbn [push_deletes].
  - rewrite drop_ge by lia. cbn. by rewrite app_nil_r.
  - destruct (lookup_lt_is_Some_2 entries i) as [[k row] Hi]; [lia|].
    pose proof (Forall_lookup_1 _ _ _ _ Hk Hi) as Hke. unfold keyed in Hke. cbn in Hke.
    rewrite (batch_pk_key _ i row k Hr) by (done || by rewrite list_lookup_fmap, Hi). cbn [dbind].
    rewrite IH by (done || lia). rewrite (drop_S _ _ _ Hi). cbn. by rewrite <- app_assoc.
Qed.

Definition selected (filters : list Expr) (entries : list (bytes * list ScalarValue)) : list (bytes * list ScalarValue) :=
  List.filter (fun e => selects schema filters e.2) entries.

Lemma selected_typed filters entries :
  Forall (row_typed schema) (map snd entries) -> Forall (row_typed schema) (map snd (selected filters entries)).
Proof.
  intros Hr. rewrite Forall_map in Hr |- *. rewrite List.Forall_forall in Hr |- *. intros e [He _]%filter_In. by apply Hr.
Qed.

Lemma selected_keyed filters entries : Forall (keyed table pkc) entries -> Forall (keyed table pkc) (selected filters entries).
Proof. rewrite !List.Forall_forall. intros Hk e [He _]%filter_In. by apply Hk. Qed.

Lemma delete_matched_ok filters parts : forall out,
  evaluable schema filters -> Forall (row_typed schema) (map snd (concat parts)) -> Forall (keyed table pkc) (concat parts) ->
  delete_matched table primary_key filters (batch_of schema <$> (map snd <$> parts)) out =
  Some (Ok (out ++ map (fun e => MDelete e.1) (selected filters (concat parts)))).
Proof.
  induction parts as [|part parts IH]; intros out Hev Hr Hk; cbn [fmap list_fmap delete_matched concat].
  { cbn. by rewrite app_nil_r. }
  cbn [concat] in Hr, Hk. rewrite map_app in Hr. apply Forall_app in Hr as [Hr1 Hr2]. apply Forall_app in Hk as [Hk1 Hk2].
  unfold selected. rewrite List.filter_app, map_app. fold (selected filters part) (selected filters (concat parts)).
  cbn [batch_of rb_num_rows rb_schema]. fold (batch_of schema (map snd part)).
  destruct (Nat.eqb_spec (length (map snd part)) 0) as [E|E].
  { rewrite length_map in E. destruct part; [|done]. by apply IH. }
  destruct (filtered schema filters (map snd part) Hev Hr1) as (mask & Hm & Hl & Hkept).
  rewrite Hm. cbn [dbind]. rewrite filter_batch_of by done. cbn [external dbind].
  specialize (Hkept _ id). rewrite !list_fmap_id, filter_pairs in Hkept. rewrite Hkept. fold (selected filters part).
  rewrite batch_pk_columns. cbn [dbind batch_of rb_num_rows]. fold (batch_of schema (map snd (selected filters part))).
  rewrite push_deletes_ok; [|by apply selected_typed|by apply selected_keyed|by rewrite length_map].
  cbn [dbind drop]. rewrite IH by done. by rewrite <- app_assoc.
Qed.

(** *** UPDATE *)

Context (assignments : list (bytes * Expr)).

(** The value of column [j] after the update. *)
Definition update_cell (row : list ScalarValue) (j : nat) (f : Field) : ScalarValue :=
  match find_assignment assignments (fd_name f) with
  | Some (_, e) => sql_value schema row e (fd_type f)
  | None => default SvNull (row !! j)
  end.
Definition update_row (row : list ScalarValue) : list ScalarValue := imap (update_cell row) schema.

(** The assigned expressions evaluate on rows of the schema. *)
Definition assignable : Prop :=
  forall f n e chunk, f ∈ schema -> find_assignment assignments (fd_name f) = Some (n, e) -> Forall (row_typed schema) chunk ->
    exists a, eval_expr_to_array e schema (batch_of schema chunk) (fd_type f) = Ok a.

Lemma update_row_lookup row j f : schema !! j = Some f -> update_row row !! j = Some (update_cell row j f).
Proof. intros Hf. unfold update_row. by rewrite list_lookup_imap, Hf. Qed.

Lemma updated_columns_ok chunk fields : forall j,
  assignable -> Forall (row_typed schema) chunk -> drop j schema = fields ->
  updated_columns assignments schema (batch_of schema chunk) j fields =
  Some (Ok (imap (fun i f => column_of (update_row <$> chunk) (j + i) (fd_type f)) fields)).
Proof.
  induction fields as [|f fields IH]; intros j Ha Hr Hd; cbn [updated_columns imap]; [done|].
  assert (Hj : schema !! j = Some f) by (pose proof (lookup_drop schema j 0) as E; rewrite Hd, Nat.add_0_r in E; done).
  assert (Hcol : (match find_assignment assignments (fd_name f) with
      | Some (_, expr) => Some (eval_expr_to_array expr schema (batch_of schema chunk) (fd_type f))
      | None => Ok <$> rb_columns (batch_of schema chunk) !! j end) = Some (Ok (column_of (update_row <$> chunk) j (fd_type f)))).
  { assert (Hcell : forall row, default SvNull (update_row row !! j) = update_cell row j f) by (intros row; by rewrite (update_row_lookup row j f Hj)).
    unfold column_of at 1. rewrite <- list_fmap_compose. unfold compose.
    rewrite (list_fmap_ext _ (fun row => scalar_slot (update_cell row j f)) chunk) by (intros ? row _; by rewrite Hcell).
    unfold update_cell. destruct (find_assignment assignments (fd_name f)) as [[n e]|] eqn:E.
    - destruct (Ha f n e chunk) as [a Hev]; [by eapply list_elem_of_lookup_2|done|done|].
      rewrite Hev. by rewrite (eval_value e schema chunk (fd_type f) a Hr Hev).
    - cbn [batch_of rb_columns]. rewrite list_lookup_imap, Hj. done. }
  rewrite Hcol. cbn [dbind]. rewrite (IH (S j)); [|done|done|].
  - cbn [dbind]. do 3 f_equal; [by rewrite Nat.add_0_r|]. apply imap_ext. intros i g _. cbn. by rewrite Nat.add_succ_r.
  - rewrite <- Nat.add_1_r, <- drop_drop, Hd. done.
Qed.

Lemma try_new_batch_of chunk :
  schema <> [] -> Forall (row_typed schema) chunk ->
  try_new schema (imap (fun j f => column_of chunk j (fd_type f)) schema) = Ok (batch_of schema chunk).
Proof.
  intros Hne Hr. assert (Hp : project (scanned schema None) <$> chunk = chunk).
  { apply list_eq. intros i. rewrite list_lookup_fmap. destruct (chunk !! i) as [row|] eqn:E; [|done]. cbn. f_equal.
    apply project_all. apply (Forall_lookup_1 _ _ _ _ Hr) in E as [Ht _]. symmetry. by eapply Forall2_length. }
  pose proof (try_new_chunk schema (scanned schema None) schema (all_columns_ok schema Hne) (all_columns_schema schema) chunk Hr) as Ht.
  rewrite (batch_columns schema (scanned schema None) schema (all_columns_schema schema)), Hp in Ht. exact Ht.
Qed.

(** A typed value survives the array and the row codec. *)
Definition row_storable (row : list ScalarValue) : Prop :=
  row_typed schema row /\ Forall2 (fun f s => slot_ok (fd_type f) (scalar_slot s)) schema row.

Lemma retag_reread t s : pushable_type t = true -> scalar_type s = Some t -> retag t (reread s) = s.
Proof.
  intros Hp Ht. destruct t; try done; destruct s as [|[]|[]|[]|[]|[]|[]|[]|[]|[]|[]|[]|[]|[]|[]|[]|[]|[]| | | | |[]|[]|[]|[]|[]|[]|[]|[]|[]|[]|[]|]; done.
Qed.

(** The row a batch holds, read back. *)
Lemma stored_row chunk i row :
  Forall (row_typed schema) chunk -> chunk !! i = Some row ->
  zip_with (stored_scalar i) schema (rb_columns (batch_of schema chunk)) = row.
Proof.
  intros Hr Hi. apply list_eq. intros j. rewrite lookup_zip_with.
  destruct (Forall_lookup_1 _ _ _ _ Hr Hi) as [Ht _]. cbn [batch_of rb_columns]. rewrite list_lookup_imap.
  destruct (schema !! j) as [f|] eqn:Hf; cbn.
  - destruct (Forall2_lookup_l _ _ _ _ _ Ht Hf) as (x & Hx & Hty). rewrite Hx. f_equal. unfold stored_scalar.
    erewrite slot_at by (cbn; rewrite list_lookup_fmap, Hi; cbn; rewrite Hx; reflexivity).
    cbn [column_of ar_type default]. rewrite reread_slot; [|by eapply Forall_lookup_1 in Hpush|done]. cbn. by apply retag_reread; [eapply Forall_lookup_1 in Hpush|].
  - symmetry. apply lookup_ge_None. apply lookup_ge_None in Hf. rewrite <- (Forall2_length _ _ _ Ht). done.
Qed.

Lemma batch_encodes chunk i row :
  schema <> [] -> Forall row_storable chunk -> chunk !! i = Some row ->
  exists payload, encode_row (batch_of schema chunk) i = Some (Ok payload) /\ decode_row_values payload schema = Some (Ok row).
Proof.
  intros Hne Hs Hi. assert (Hr : Forall (row_typed schema) chunk) by (eapply List.Forall_impl; [|exact Hs]; by intros ? []).
  assert (Hc : Forall2 (cell_ok i) schema (rb_columns (batch_of schema chunk))).
  { cbn. apply Forall2_same_length_lookup. split; [by rewrite length_imap|]. intros j f a Hf Ha.
    rewrite list_lookup_imap, Hf in Ha. cbn in Ha. injection Ha as <-. split; [done|].
    cbn. rewrite list_lookup_fmap, Hi. cbn. eexists. split; [done|].
    destruct (Forall_lookup_1 _ _ _ _ Hs Hi) as [_ Hslot].
    destruct (Forall2_lookup_l _ _ _ _ _ Hslot Hf) as (x & -> & Hx). done. }
  destruct (encode_cols_roundtrip (batch_of schema chunk) i 0 _ _ eq_refl Hc) as (enc & He & Hd). rewrite drop_0 in He, Hd.
  exists enc. split; [apply He|]. rewrite decode_row_values_full. specialize (Hd [] [] []). rewrite app_nil_r in Hd.
  etransitivity; [exact Hd|]. do 2 f_equal. by apply stored_row.
Qed.

(** [m] puts the updated row [e] under its key. *)
Definition puts_updated (e : bytes * list ScalarValue) (m : Mutation) : Prop :=
  exists k payload, build_pk_key_from_scalars table pkc (update_row e.2) = Ok k /\ m = MPut k payload /\
    decode_row_values payload schema = Some (Ok (update_row e.2)).

Definition rekeyed (e : bytes * list ScalarValue) : Prop :=
  row_storable (update_row e.2) /\ exists k, build_pk_key_from_scalars table pkc (update_row e.2) = Ok k.

Abbreviation updated es := (update_row <$> map snd es).

Lemma updated_storable es : Forall rekeyed es -> Forall row_storable (updated es).
Proof. intros Hk. rewrite Forall_fmap, Forall_map. eapply List.Forall_impl; [|exact Hk]. by intros e []. Qed.

Lemma storable_typed rows : Forall row_storable rows -> Forall (row_typed schema) rows.
Proof. intros Hr. eapply List.Forall_impl; [|exact Hr]. by intros ? []. Qed.

Lemma push_updates_ok es n : forall i out,
  schema <> [] -> Forall rekeyed es -> (i + n = length es)%nat ->
  exists ms, push_updates table (batch_of schema (updated es)) pkc i n out = Some (Ok (out ++ ms)) /\
    Forall2 puts_updated (drop i es) ms.
Proof.
  induction n as [|n IH]; intros i out Hne Hk Hl; cbn [push_updates].
  - exists []. rewrite drop_ge by lia. by rewrite app_nil_r.
  - destruct (lookup_lt_is_Some_2 es i) as [e Hi]; [lia|]. pose proof (updated_storable _ Hk) as Hst.
    assert (Hrow : updated es !! i = Some (update_row e.2)) by (rewrite !list_lookup_fmap, Hi; done).
    destruct (batch_encodes _ i _ Hne Hst Hrow) as (payload & -> & Hd). cbn [external dbind].
    destruct (Forall_lookup_1 _ _ _ _ Hk Hi) as [_ [k Hkey]].
    rewrite (batch_pk_key _ i _ k (storable_typed _ Hst) Hrow Hkey). cbn [dbind].
    destruct (IH (S i) (out ++ [MPut k payload])) as (ms & Ho & Hms); [done|done|lia|].
    exists (MPut k payload :: ms). rewrite Ho, <- app_assoc. split; [done|]. rewrite (drop_S _ _ _ Hi).
    constructor; [|done]. by exists k, payload.
Qed.

Lemma update_matched_ok filters parts : forall out,
  schema <> [] -> evaluable schema filters -> assignable ->
  Forall (row_typed schema) (map snd (concat parts)) -> Forall rekeyed (concat parts) ->
  exists ms, update_matched table assignments filters primary_key (batch_of schema <$> (map snd <$> parts)) out =
    Some (Ok (out ++ ms)) /\ Forall2 puts_updated (selected filters (concat parts)) ms.
Proof.
  induction parts as [|part parts IH]; intros out Hne Hev Ha Hr Hk; cbn [fmap list_fmap update_matched concat].
  { exists []. by rewrite app_nil_r. }
  cbn [concat] in Hr, Hk. rewrite map_app in Hr. apply Forall_app in Hr as [Hr1 Hr2]. apply Forall_app in Hk as [Hk1 Hk2].
  unfold selected. rewrite List.filter_app. fold (selected filters part) (selected filters (concat parts)).
  cbn [batch_of rb_num_rows rb_schema]. fold (batch_of schema (map snd part)).
  destruct (Nat.eqb_spec (length (map snd part)) 0) as [E|E].
  { rewrite length_map in E. destruct part; [|done]. by apply IH. }
  destruct (filtered schema filters (map snd part) Hev Hr1) as (mask & Hm & Hl & Hkept).
  rewrite Hm. cbn [dbind]. rewrite (updated_columns_ok _ schema 0 Ha Hr1 eq_refl). cbn [dbind Nat.add].
  rewrite (try_new_batch_of _ Hne (storable_typed _ (updated_storable _ Hk1))). cbn [dbind].
  rewrite filter_batch_of by (by rewrite length_fmap). cbn [external dbind].
  rewrite (Hkept _ update_row), filter_pairs. fold (selected filters part).
  rewrite batch_pk_columns. cbn [dbind batch_of rb_num_rows]. fold (batch_of schema (updated (selected filters part))).
  destruct (push_updates_ok (selected filters part) (length (updated (selected filters part))) 0 out) as (ms & -> & Hms).
  { done. }
  { rewrite List.Forall_forall in Hk1 |- *. intros e [He _]%filter_In. by apply Hk1. }
  { by rewrite length_fmap, length_map. }
  cbn [dbind drop] in Hms |- *. destruct (IH (out ++ ms)) as (ms' & -> & Hms'); [done..|].
  exists (ms ++ ms'). rewrite <- app_assoc. split; [done|]. by apply Forall2_app.
Qed.
End Kernels.

(** ** Mutations over a view *)

Lemma overlay_deletes ks f k : overlay (map MDelete ks) f k = if bool_decide (k ∈ ks) then None else f k.
Proof.
  induction ks as [|x ks IH] using rev_ind; [done|]. rewrite map_app. cbn [map]. rewrite overlay_snoc. unfold apply_mutation. cbn.
  destruct (eqc k x) eqn:E; cbool.
  - subst. rewrite bool_decide_true; [done|]. apply elem_of_app. right. by left.
  - rewrite IH. case_bool_decide as Hk; case_bool_decide as Hk'; try done; exfalso.
    + apply Hk', elem_of_app. by left.
    + apply elem_of_app in Hk' as [?|?%list_elem_of_singleton]; done.
Qed.

Lemma overlay_untouched ms f k : k ∉ map mutation_key ms -> overlay ms f k = f k.
Proof.
  induction ms as [|m ms IH] using rev_ind; [done|]. rewrite map_app, overlay_snoc. cbn. unfold apply_mutation.
  intros Hni. rewrite (proj2 (eqc_false k (mutation_key m))).
  - apply IH. intros Hin. apply Hni, elem_of_app. by left.
  - intros ->. apply Hni, elem_of_app. right. by left.
Qed.

Lemma overlay_once ms f k m :
  NoDup (map mutation_key ms) -> m ∈ ms -> mutation_key m = k -> overlay ms f k = mutation_value m.
Proof.
  intros Hnd Hin <-. induction ms as [|x ms IH] using rev_ind; [by apply not_elem_of_nil in Hin|].
  rewrite map_app in Hnd. apply NoDup_app in Hnd as (Hnd & Hdis & _). rewrite overlay_snoc. unfold apply_mutation.
  apply elem_of_app in Hin as [Hin|Hx]; [|apply list_elem_of_singleton in Hx as ->; by rewrite eqc_refl].
  rewrite (proj2 (eqc_false _ _)); [by apply IH|]. intros E. apply (Hdis (mutation_key m)).
  - by apply list_elem_of_fmap_2.
  - cbn. rewrite E. by left.
Qed.

Lemma sorted_NoDup (ks : list bytes) : StronglySorted clt ks -> NoDup ks.
Proof.
  intros Hs. replace ks with (om_keys (map (fun k => (k, tt)) ks)); [apply om_keys_NoDup|];
    unfold om_sorted, om_keys; rewrite map_map; cbn; by rewrite map_id.
Qed.

(** ** Statements on a tree *)

Section Statements.
Context {hw : Crc32Hw} {T H : Type} `{MemTableBackend T} `{EngineHook H} `{!MemTableLaws T}.
Context `{VortexLib} `{!VortexLaws} `{ScalarOrd, !ScalarOrdLaws} `{ArrowLib, !ArrowLaws} `{ArrowArrays, !ArrowArraysLaws}.
Context `{DataFusionLaws} `{!SqlLaws}.
#[local] Abbreviation Lsm := (Lsm (T := T) (H := H)).

(** ** Committing a plan *)

(** The tree after the commit shows the mutations over the tree before it, or the
    tree before it when the engine refused the commit; no older snapshot changes. *)
Record committed_as (w : TxnTs) (l : Lsm) (h : bytes -> values) (ms : list Mutation) (throttle : ThrottleLevel)
    (io_w io_s : IoOutcome) (l' : Lsm) (r : DfResult unit) (h' : bytes -> values) : Prop := {
  ca_run : lsm_run w l' h';
  ca_past : forall k s, s <= snapshot_ts (l_engine l) -> view h' s k = view h s k;
  ca_now : forall k, view h' (snapshot_ts (l_engine l')) k = match r with Ok _ => overlay ms (view h (snapshot_ts (l_engine l))) k | Err _ => view h (snapshot_ts (l_engine l)) k end;
  ca_err : forall err, r = Err err -> exists e, err = External e /\ (engine_write (l_engine l) ms throttle io_w io_s).2 = Err e;
}.

Lemma commit_schemas (l : Lsm) ms throttle io_w io_s l' r :
  commit_mutations l ms throttle io_w io_s = (l', r) -> l_schemas l' = l_schemas l.
Proof. unfold commit_mutations. destruct ms; [by intros [= <- _]|]. destruct (engine_write _ _ _ _ _). by intros [= <- _]. Qed.

Lemma commit_run w (l : Lsm) h ms throttle io_w io_s :
  lsm_run w l h -> 1 <= e_commit_seq (l_engine l) -> e_commit_seq (l_engine l) + 1 < OPEN_ENDED_TS -> keys_small ms ->
  exists l' r h', commit_mutations l ms throttle io_w io_s = (l', r) /\ committed_as w l h ms throttle io_w io_s l' r h'.
Proof.
  intros Hrun Hq1 Hq2 Hms. pose proof (lsm_run_rep _ _ _ Hrun) as Hrep. unfold commit_mutations. destruct ms as [|m ms]; [by exists l, (Ok tt), h|].
  destruct (engine_write (l_engine l) (m :: ms) throttle io_w io_s) as [e' r] eqn:Ew.
  pose proof (lr_mem _ _ _ Hrep) as Hmem. unfold mem in Hmem.
  assert (Hts : forall u, r = Ok u -> u = e_commit_seq (l_engine l)) by (intros u ->; eapply engine_write_ts in Ew; [done|done|lia|done]).
  assert (Hseq : e_commit_seq e' = match r with Ok _ => e_commit_seq (l_engine l) + 1 | Err _ => e_commit_seq (l_engine l) end).
  { pose proof Ew as Et. apply engine_write_to in Et; [|done|lia|done]. pose proof (ct_seq _ _ _ Et) as ->. destruct r; cbn; lia. }
  eexists _, _, (publish_result h (m :: ms) r). split; [reflexivity|]. split.
  - rewrite <- (committed_publish h (e_commit_seq (l_engine l)) (alloc_tx_id (l_engine l)).2) by done.
    by eapply lrun_write.
  - intros k s Hs. unfold view. rewrite (latest_agree _ (h k) s s); [done| |lia|intros; lia]. intros t Ht.
    apply (publish_past _ _ _ (e_commit_seq (l_engine l))); [done|]. unfold snapshot_ts, saturating_sub in Hs. lia.
  - intros k. cbn [l_engine with_engine]. unfold snapshot_ts at 1, saturating_sub. rewrite Hseq. destruct r as [u|err].
    + rewrite (Hts u eq_refl). cbn [publish_result]. replace (Z.max _ 0) with (e_commit_seq (l_engine l)) by lia.
      rewrite view_publish by (intros t Ht; by apply (lr_bound _ _ _ Hrep k t)).
      unfold snapshot_ts, saturating_sub. by replace (Z.max _ 0) with (e_commit_seq (l_engine l) - 1) by lia.
    + done.
  - intros err Herr. rewrite Ew. destruct r as [u|e]; [done|]. injection Herr as <-. by exists e.
Qed.

(** A registered table of numeric and string columns, its files at level 0, its
    rows stored under their primary keys. *)
Record table_ready (w : TxnTs) (l : Lsm) (h : bytes -> values) (table : bytes) (primary_key : list bytes)
    (schema : Schema) (pkc : list (nat * bytes)) : Prop := {
  tr_run : lsm_run w l h;
  tr_floor : w <= snapshot_ts (l_engine l);
  tr_seq : 1 <= e_commit_seq (l_engine l) /\ e_commit_seq (l_engine l) + 1 < OPEN_ENDED_TS;
  tr_l0 : only_l0 l;
  tr_name : no_nul table;
  tr_live : is_dropped_prefix l (table_prefix table) = false;
  tr_schema : om_get table (l_schemas l) = Some schema;
  tr_fields : schema <> [];
  tr_types : Forall (fun f => pushable_type (fd_type f) = true) schema;
  tr_key : primary_key <> [];
  tr_columns : resolve_pk_columns_via_schema schema primary_key = Ok pkc;
  tr_rows : forall k v, starts_with k (table_prefix table) = true -> view h (snapshot_ts (l_engine l)) k = Some v ->
    exists row, decode_row_values v schema = Some (Ok row) /\ row_fits schema row /\ build_pk_key_from_scalars table pkc row = Ok k;
  tr_size : forall ks, NoDup ks ->
    (forall k, k ∈ ks -> starts_with k (table_prefix table) = true /\ is_Some (view h (snapshot_ts (l_engine l)) k)) ->
    2 * Z.of_nat (length ks) <= u64_max;
}.

(** Past the guards of the statements. *)
Lemma plan_delete_scans (l : Lsm) stats table pk filters :
  filters <> [] -> pk <> [] -> plan_delete l stats table pk filters =
  match om_get table (l_schemas l) ≫= try_translate_pk_predicates filters with
  | Some predicates =>
      match delete_with_column_predicates l stats table pk predicates with
      | None => None
      | Some (Ok muts) => Some (Ok muts)
      | Some (Err EmptyBatch) => Some (Ok [])
      | Some (Err err) => Some (Err (External err))
      end
  | None => dbind (external (scan_table l stats table None None)) (fun batches => delete_matched table pk filters batches [])
  end.
Proof. by destruct filters, pk. Qed.

Lemma delete_looks_up (l : Lsm) stats table pk ps schema parts :
  pk <> [] -> ps <> [] -> om_get table (l_schemas l) = Some schema -> try_extract_pk_eq_from_predicates ps pk schema = Some parts ->
  delete_with_column_predicates l stats table pk ps = Some (delete_point l (assemble_table_key table parts)).
Proof. destruct pk, ps; try done. intros _ _ Hs Hx. unfold delete_with_column_predicates. rewrite Hs. cbn [ok_or ubind]. by rewrite Hx. Qed.

Section Table.
Context (w : TxnTs) (l : Lsm) (h : bytes -> values) (stats : ColumnStats) (table : bytes) (primary_key : list bytes)
  (schema : Schema) (pkc : list (nat * bytes)).
Context (Hready : table_ready w l h table primary_key schema pkc).
#[local] Abbreviation now := (view h (snapshot_ts (l_engine l))).

(** The rows of the table, by key. *)
Definition table_entries (entries : list (bytes * list ScalarValue)) : Prop :=
  NoDup (map fst entries) /\ Forall (keyed table pkc) entries /\ Forall (row_typed schema) (map snd entries) /\
  forall k row, In (k, row) entries <-> starts_with k (table_prefix table) = true /\
    exists v, now k = Some v /\ decode_row_values v schema = Some (Ok row).

Lemma decoded_row v row : decode_row_values v schema = Some (Ok row) -> row_fits schema row -> row_typed schema row.
Proof.
  rewrite decode_row_values_full. intros Hd Hfit. split; [|done]. eapply decoded_types; [|exact Hd].
  eapply List.Forall_impl; [|exact (tr_types _ _ _ _ _ _ _ Hready)]. intros f. apply pushable_storable.
Qed.

Lemma entries_of_run entries :
  StronglySorted clt (map fst entries) ->
  (forall k row, In (k, row) entries <-> starts_with k (table_prefix table) = true /\
     exists t v, newest (h k) (snapshot_ts (l_engine l)) t (Some v) /\ decode_row_values v schema = Some (Ok row)) ->
  table_entries entries /\ 2 * Z.of_nat (length entries) <= u64_max.
Proof.
  intros Hs Hin. assert (Hin' : forall k row, In (k, row) entries <-> starts_with k (table_prefix table) = true /\
    exists v, now k = Some v /\ decode_row_values v schema = Some (Ok row)).
  { intros k row. rewrite Hin. split; intros [Hk Hv]; (split; [done|]).
    - destruct Hv as (t & v & Hv & Hd). exists v. split; [|done]. apply view_newest. by exists t.
    - destruct Hv as (v & (t & Hv)%view_newest & Hd). by exists t, v. }
  assert (Hnd : NoDup (map fst entries)) by (exact (om_keys_NoDup entries Hs)).
  assert (Hent : forall e, In e entries -> keyed table pkc e /\ row_typed schema e.2).
  { intros [k row] He. apply Hin' in He as (Hk & v & Hv & Hd).
    destruct (tr_rows _ _ _ _ _ _ _ Hready k v Hk Hv) as (row' & Hd' & Hfit & Hkey). rewrite Hd in Hd'. injection Hd' as <-.
    split; [done|]. by eapply decoded_row. }
  split; [split; [done|split; [|split]]|].
  - apply List.Forall_forall. intros e He. by apply Hent.
  - apply List.Forall_forall. intros row (e & <- & He)%in_map_iff. by apply Hent.
  - done.
  - rewrite <- (length_map fst). apply (tr_size _ _ _ _ _ _ _ Hready); [done|].
    intros k ([k' row] & <- & He)%list_elem_of_In%in_map_iff. apply Hin' in He as (Hk & v & Hv & _). split; [exact Hk|]. by exists v.
Qed.

Lemma newest_rows k t v :
  starts_with k (table_prefix table) = true -> newest (h k) (snapshot_ts (l_engine l)) t (Some v) ->
  exists row, decode_row_values v schema = Some (Ok row) /\ row_fits schema row /\ build_pk_key_from_scalars table pkc row = Ok k.
Proof. intros Hk Hv. apply (tr_rows _ _ _ _ _ _ _ Hready k v Hk). apply view_newest. by exists t. Qed.

Lemma scan_parts : exists parts, table_entries (concat parts) /\
  scan_table l stats table None None = Some (Ok (batch_of schema <$> (map snd <$> parts))).
Proof.
  destruct Hready as [Hrun Hw Hq Hl0 Hnul Hdrop Hsch Hne Hpush Hpk Hr Hrows Hsize].
  assert (Hst : Forall (fun f => storable (fd_type f)) schema)
    by (eapply List.Forall_impl; [|exact Hpush]; intros f; apply pushable_storable).
  destruct (table_scan_run w l h stats table None None u64_max schema schema Hrun Hw Hl0 Hnul Hdrop Hsch Hst
    (all_columns_ok schema Hne) (all_columns_schema schema)) as (entries & Hs & Hin & Hscan).
  { rewrite u64_max_val. lia. }
  { intros k t v Hk Hv. destruct (newest_rows k t v Hk Hv) as (row & ? & ? & _). by exists row. }
  destruct (entries_of_run entries Hs Hin) as [Hent Hlen]. destruct (Hscan Hlen) as (chunks & Ho & Hcat & _).
  assert (Hproj : project (scanned schema None) <$> map snd entries = map snd entries).
  { apply list_eq. intros j. rewrite list_lookup_fmap. destruct (map snd entries !! j) as [row|] eqn:E; cbn; [|done]. f_equal.
    apply project_all. destruct Hent as (_ & _ & Ht & _). apply (Forall_lookup_1 _ _ _ _ Ht) in E as [E _]. symmetry. by eapply Forall2_length. }
  rewrite Hproj in Hcat. destruct (split_entries chunks entries (eq_sym Hcat)) as (parts & Hc & Hp).
  exists parts. rewrite Hc. split; [done|]. unfold scan_table. rewrite Ho. cbn [umap ubind concat]. by rewrite app_nil_r, Hp.
Qed.

Lemma live_key_small k : is_Some (now k) -> blen k < u32_max.
Proof.
  intros [v (t & Hv & _)%view_newest]. apply (lr_bound _ _ _ (lsm_run_rep _ _ _ (tr_run _ _ _ _ _ _ _ Hready)) k t). by rewrite Hv.
Qed.

Lemma commit_live ms throttle io_w io_s :
  Forall (fun m => is_Some (now (mutation_key m))) ms ->
  exists l' r h', commit_mutations l ms throttle io_w io_s = (l', r) /\ committed_as w l h ms throttle io_w io_s l' r h'.
Proof.
  intros Hms. destruct (tr_seq _ _ _ _ _ _ _ Hready). apply commit_run; [apply (tr_run _ _ _ _ _ _ _ Hready)|done|done|].
  eapply List.Forall_impl; [|exact Hms]. intros m. apply live_key_small.
Qed.

(** ** DELETE *)

(** [k] holds a row of the table that the filters select. *)
Definition selected_key (filters : list Expr) (k : bytes) : bool :=
  starts_with k (table_prefix table) &&
  match now k ≫= (fun v => decode_row_values v schema) with
  | Some (Ok row) => selects schema filters row
  | _ => false
  end.

Lemma selected_key_row filters k :
  selected_key filters k = true <-> starts_with k (table_prefix table) = true /\
    exists v row, now k = Some v /\ decode_row_values v schema = Some (Ok row) /\ selects schema filters row = true.
Proof.
  unfold selected_key. rewrite andb_true_iff. destruct (now k) as [v|]; cbn [mbind option_bind].
  - destruct (decode_row_values v schema) as [[row|]|] eqn:E.
    + split; intros [Hk Hs]; (split; [done|]); [by exists v, row|]. destruct Hs as (v' & row' & [= <-] & Hd & Hs). congruence.
    + split; [by intros []|]. intros (_ & v' & row' & [= <-] & Hd & _). congruence.
    + split; [by intros []|]. intros (_ & v' & row' & [= <-] & Hd & _). congruence.
  - split; [by intros []|]. by intros (_ & v' & row' & [=] & _).
Qed.

Lemma selected_live filters k : selected_key filters k = true -> is_Some (now k).
Proof. intros (_ & v & row & Hv & _)%selected_key_row. by exists v. Qed.

Lemma selected_entries filters entries k :
  table_entries entries -> k ∈ map fst (selected schema filters entries) <-> selected_key filters k = true.
Proof.
  intros (_ & _ & _ & Hin). rewrite list_elem_of_In, in_map_iff, selected_key_row. unfold selected. split.
  - intros ([k' row] & <- & [He Hs]%filter_In). apply Hin in He as (Hk & v & Hv & Hd). split; [done|]. by exists v, row.
  - intros (Hk & v & row & Hv & Hd & Hs). exists (k, row). split; [done|]. apply filter_In. split; [|done]. apply Hin. split; [done|]. by exists v.
Qed.

(** The rows of the table. *)
Definition table_row (k : bytes) (row : list ScalarValue) : Prop :=
  starts_with k (table_prefix table) = true /\ exists v, now k = Some v /\ decode_row_values v schema = Some (Ok row).

Lemma table_row_typed k row : table_row k row -> row_typed schema row /\ build_pk_key_from_scalars table pkc row = Ok k.
Proof.
  intros (Hk & v & Hv & Hd). destruct (tr_rows _ _ _ _ _ _ _ Hready k v Hk Hv) as (row' & Hd' & Hfit & Hkey).
  rewrite Hd in Hd'. injection Hd' as <-. split; [by eapply decoded_row|done].
Qed.

(** The filters translate to predicates on values that are not null, of the type of
    their column. *)
Record translates (filters : list Expr) (ps : list ColumnPredicate) : Prop := {
  tl_ps : try_translate_pk_predicates filters schema = Some ps;
  tl_placed : forall k row, table_row k row -> Forall (well_placed schema row) filters;
  tl_literals : forall x, In x ps -> forall v, column_predicate_scalar x = Some v -> is_null v = false;
}.

(** The ways a [DELETE] runs: evaluating the filters with DataFusion, matching
    column predicates against a scan, or looking one key up.  The key looked up has
    at most one visible version in the files. *)
Inductive delete_route (filters : list Expr) : Prop :=
| route_generic : try_translate_pk_predicates filters schema = None -> evaluable schema filters -> delete_route filters
| route_predicates ps :
    translates filters ps -> try_extract_pk_eq_from_predicates ps primary_key schema = None -> delete_route filters
| route_point ps parts :
    translates filters ps -> try_extract_pk_eq_from_predicates ps primary_key schema = Some parts -> NoDup primary_key ->
    (forall k row, table_row k row -> forall col v, PEq col v ∈ ps -> exists s, row !! col = Some s /\ comparable_pair s v) ->
    (forall v v', in_sst l (snapshot_ts (l_engine l)) (assemble_table_key table parts) v ->
       in_sst l (snapshot_ts (l_engine l)) (assemble_table_key table parts) v' -> v = v') ->
    delete_route filters.

Lemma translates_selects filters ps k row :
  translates filters ps -> table_row k row -> row_matches row ps = selects schema filters row.
Proof.
  intros [Ht Hp Hl] Hrow. apply translated_filters; [|by eapply Hp|done|done].
  apply table_row_typed in Hrow as [[Hty _] _]. symmetry. by eapply Forall2_length.
Qed.

Lemma translated_nonempty filters ps : try_translate_pk_predicates filters schema = Some ps -> ps <> [].
Proof.
  unfold try_translate_pk_predicates. enough (Hl : forall out, translate_loop filters schema out = Some ps -> ps <> []) by apply Hl.
  induction filters as [|f filters IH]; intros out; cbn [translate_loop]; [by destruct out; [|intros [= <-]]|].
  destruct (collect_predicates_for_pk f schema out) as [o1 [|]]; [|done]. apply IH.
Qed.

Lemma point_selects filters ps parts k :
  translates filters ps -> try_extract_pk_eq_from_predicates ps primary_key schema = Some parts -> NoDup primary_key ->
  (forall k row, table_row k row -> forall col v, PEq col v ∈ ps -> exists s, row !! col = Some s /\ comparable_pair s v) ->
  selected_key filters k = true <-> k = assemble_table_key table parts /\ is_Some (now k).
Proof.
  intros Ht Hx Hnd Hlit. rewrite selected_key_row.
  assert (Hkey : forall k row, table_row k row -> selects schema filters row = true <-> k = assemble_table_key table parts).
  { intros k' row Hrow. rewrite <- (translates_selects filters ps k' row Ht Hrow).
    rewrite (delete_point_key_exact schema table primary_key ps pkc parts row Hnd (tr_columns _ _ _ _ _ _ _ Hready) Hx (Hlit k' row Hrow)).
    destruct (table_row_typed _ _ Hrow) as [_ ->]. split; [by intros [= ->]|by intros ->]. }
  split.
  - intros (Hk & v & row & Hv & Hd & Hs). split; [|by exists v]. apply (Hkey k row); [|done]. split; [done|]. by exists v.
  - intros [-> [v Hv]]. assert (Hk : starts_with (assemble_table_key table parts) (table_prefix table) = true).
    { rewrite assemble_eq. unfold table_prefix. rewrite cons_middle, app_assoc. apply starts_with_app. }
    split; [done|]. destruct (tr_rows _ _ _ _ _ _ _ Hready _ v Hk Hv) as (row & Hd & _). exists v, row. split; [done|]. split; [done|].
    eapply Hkey; [|done]. split; [done|]. by exists v.
Qed.

Lemma plan_delete_ok filters :
  filters <> [] -> delete_route filters ->
  exists ks, plan_delete l stats table primary_key filters = Some (Ok (map MDelete ks)) /\ NoDup ks /\
    forall k, k ∈ ks <-> selected_key filters k = true.
Proof.
  intros Hf Hroute. pose proof (tr_key _ _ _ _ _ _ _ Hready) as Hpk. rewrite plan_delete_scans by done.
  rewrite (tr_schema _ _ _ _ _ _ _ Hready). cbn [mbind option_bind].
  destruct Hroute as [Ht Hev|ps Htl Hx|ps parts Htl Hx Hnd Hlit Hone].
  - rewrite Ht. destruct scan_parts as (parts & Hent & ->). cbn [external dbind]. pose proof Hent as (Hnd & Hk & Hty & _).
    rewrite (delete_matched_ok schema (tr_types _ _ _ _ _ _ _ Hready) table primary_key pkc (tr_columns _ _ _ _ _ _ _ Hready)) by done.
    exists (map fst (selected schema filters (concat parts))). cbn [app]. rewrite map_map. split; [done|].
    split; [by apply NoDup_map_filter|]. intros k. by apply selected_entries.
  - pose proof Htl as [Ht _ _]. rewrite Ht.
    pose proof Hready as [Hrun Hw Hq Hl0 Hnul Hdrop Hsch Hne Hpush _ Hr Hrows Hsize].
    destruct (delete_scan_run w l h stats table primary_key ps schema pkc Hrun Hw Hl0 Hnul Hdrop Hsch Hne Hpush Hpk
      (translated_nonempty _ _ Ht) Hx Hr) as (entries & Hs & Hin & Hscan); [exact newest_rows|].
    destruct (entries_of_run entries Hs Hin) as [Hent Hlen]. rewrite (Hscan Hlen).
    exists (map fst (selected schema filters entries)). split.
    + assert (E : matching ps entries = map MDelete (map fst (selected schema filters entries))).
      { unfold matching, selected. rewrite map_map. f_equal. apply filter_ext_in. intros [k row] He. cbn.
        apply (translates_selects filters ps k row Htl). destruct Hent as (_ & _ & _ & Hent). by apply Hent in He. }
      rewrite E. by destruct (map fst (selected schema filters entries)).
    + split; [by apply NoDup_map_filter, Hent|]. intros k. by apply selected_entries.
  - pose proof Htl as [Ht _ _]. rewrite Ht.
    rewrite (delete_looks_up l stats table primary_key ps schema parts Hpk (translated_nonempty _ _ Ht) (tr_schema _ _ _ _ _ _ _ Hready) Hx).
    pose proof (fun k => point_selects filters ps parts k Htl Hx Hnd Hlit) as Hsel.
    destruct (delete_point_exact w l h (assemble_table_key table parts) (tr_run _ _ _ _ _ _ _ Hready) (tr_floor _ _ _ _ _ _ _ Hready) Hone)
      as [[-> (t & v & Hv)]|[-> Hno]].
    + exists [assemble_table_key table parts]. split; [done|]. split; [apply NoDup_singleton|]. intros k.
      rewrite list_elem_of_singleton, Hsel. split; [intros ->|by intros []]. split; [done|]. exists v. apply view_newest. by exists t.
    + exists []. split; [done|]. split; [constructor|]. intros k. rewrite Hsel. split; [by intros ?%not_elem_of_nil|].
      intros [-> [v (t & Hv)%view_newest]]. by destruct (Hno t v).
Qed.

(** ** UPDATE *)

(** The filters and the assigned expressions evaluate on the rows of the table,
    every updated row fits the schema, and no key column is assigned. *)
Record updates (assignments : list (bytes * Expr)) (filters : list Expr) : Prop := {
  up_filters : evaluable schema filters;
  up_assigned : assignable schema assignments;
  up_rows : forall k row, table_row k row -> row_storable schema (update_row schema assignments row);
  up_keys : forall c f, c ∈ pkc -> schema !! c.1 = Some f -> find_assignment assignments (fd_name f) = None;
}.

Lemma update_keeps_key assignments filters k row :
  updates assignments filters -> table_row k row ->
  build_pk_key_from_scalars table pkc (update_row schema assignments row) = Ok k.
Proof.
  intros Hup Hrow. destruct (table_row_typed k row Hrow) as [[Hty _] <-]. unfold build_pk_key_from_scalars.
  pose proof (resolve_pk_bound _ _ _ _ (tr_columns _ _ _ _ _ _ _ Hready)) as Hb.
  assert (E : scalar_parts table pkc (update_row schema assignments row) = scalar_parts table pkc row); [|by rewrite E].
  pose proof (up_keys _ _ Hup) as Hk. clear Hup Hrow Hready. induction Hb as [|[j n] cols Hj _ IH]; [done|]. cbn [scalar_parts]. cbn in Hj.
  destruct (lookup_lt_is_Some_2 schema j Hj) as [f Hf]. destruct (Forall2_lookup_l _ _ _ _ _ Hty Hf) as (x & Hx & _).
  rewrite (update_row_lookup schema assignments row j f Hf). unfold update_cell.
  rewrite (Hk (j, n) f) by (done || by left). rewrite Hx. cbn [default]. rewrite IH; [done|]. intros c g Hc. apply Hk. by right.
Qed.

(** [m] stores the updated row of [e] under its key. *)
Definition rewrites_row (assignments : list (bytes * Expr)) (e : bytes * list ScalarValue) (m : Mutation) : Prop :=
  exists payload, m = MPut e.1 payload /\ decode_row_values payload schema = Some (Ok (update_row schema assignments e.2)).

Lemma plan_update_ok assignments filters :
  updates assignments filters ->
  exists entries ms, plan_update l stats table assignments filters primary_key = Some (Ok ms) /\ table_entries entries /\
    Forall2 (rewrites_row assignments) (selected schema filters entries) ms.
Proof.
  intros Hup. destruct scan_parts as (parts & Hent & Hscan). pose proof Hent as (_ & _ & Hty & Hin).
  assert (Hrow : forall e, In e (concat parts) -> table_row e.1 e.2) by (intros [k row] He; by apply Hin).
  destruct (update_matched_ok schema (tr_types _ _ _ _ _ _ _ Hready) table primary_key pkc (tr_columns _ _ _ _ _ _ _ Hready)
    assignments filters parts []) as (ms & Ho & Hms); [apply (tr_fields _ _ _ _ _ _ _ Hready)|apply Hup|apply Hup|done| |].
  { apply List.Forall_forall. intros e He%Hrow. split; [by eapply up_rows|]. exists e.1. by eapply update_keeps_key. }
  exists (concat parts), ms. split.
  - unfold plan_update. pose proof (tr_key _ _ _ _ _ _ _ Hready) as Hpk. rewrite Hscan. cbn [external dbind].
    cbn [app] in Ho. rewrite Ho. destruct primary_key; [done|]. destruct parts; [|done]. cbn in Ho. by injection Ho as <-.
  - split; [done|]. apply Forall2_same_length_lookup. split; [by eapply Forall2_length|]. intros j e m He Hm.
    destruct (Forall2_lookup_lr _ _ _ _ _ _ Hms He Hm) as (k & payload & Hk & -> & Hd).
    apply list_elem_of_lookup_2, list_elem_of_In in He. unfold selected in He. apply filter_In in He as [He%Hrow _].
    rewrite (update_keeps_key _ _ _ _ Hup He) in Hk. injection Hk as <-. by exists payload.
Qed.

Lemma rewrites_keys assignments es ms : Forall2 (rewrites_row assignments) es ms -> map mutation_key ms = map fst es.
Proof. induction 1 as [|e m es ms (payload & -> & _) _ IH]; [done|]. cbn. by rewrite IH. Qed.
End Table.

(** C15: a [DELETE] removes exactly the rows it selects. Take a registered table,
    not dropped, of numeric and string columns, whose rows decode and are stored
    under their primary keys, in a tree whose files are all at level 0. The
    statement has filters and runs by one of the three routes: evaluating them with
    DataFusion; matching the predicates they translate to, with literals that are
    not null, against a scan; or, for one equality per key column, looking that key
    up, which then has at most one visible version in the files. It plans one delete
    per selected row; if the engine accepts the commit, a reader then sees every
    selected row gone and every other key of the database unchanged, and if it
    refuses, nothing has changed. Snapshots taken before are not affected. *)
Theorem delete_from_exact (w : TxnTs) (l : Lsm) (h : bytes -> values) (stats : ColumnStats) (table : bytes)
    (primary_key : list bytes) (schema : Schema) (pkc : list (nat * bytes)) (filters : list Expr)
    (throttle : ThrottleLevel) (io_w io_s : IoOutcome) :
  let now := view h (snapshot_ts (l_engine l)) in
  table_ready w l h table primary_key schema pkc -> filters <> [] ->
  delete_route l h table primary_key schema filters ->
  exists ks l' r h', plan_delete l stats table primary_key filters = Some (Ok (map MDelete ks)) /\ NoDup ks /\
    delete_from (mkAdapter primary_key schema table true) l stats filters throttle io_w io_s = Some (l', r) /\
    lsm_run w l' h' /\ (forall k s, s <= snapshot_ts (l_engine l) -> view h' s k = view h s k) /\
    (forall err, r = Err err ->
       exists e, err = External e /\ (engine_write (l_engine l) (map MDelete ks) throttle io_w io_s).2 = Err e) /\
    forall k, view h' (snapshot_ts (l_engine l')) k =
      match r with
      | Ok _ => if selected_key l h table schema filters k then None else now k
      | Err _ => now k
      end.
Proof.
  intros now Hready Hf Hroute. destruct (plan_delete_ok w l h stats table primary_key schema pkc Hready filters Hf Hroute) as (ks & Hp & Hnd & Hks).
  destruct (commit_live w l h table primary_key schema pkc Hready (map MDelete ks) throttle io_w io_s) as (l' & r & h' & Hc & Hca).
  { apply Forall_map, List.Forall_forall. intros k Hk%list_elem_of_In. cbn. apply Hks in Hk. by eapply selected_live. }
  exists ks, l', r, h'. split; [done|]. split; [done|]. destruct Hca as [Hrun Hpast Hnow Herr].
  split; [unfold delete_from, requires_engine; cbn [ta_name ta_primary_key ta_engine]; rewrite Hp; cbn [run_plan]; by rewrite Hc|].
  split; [done|]. split; [done|]. split; [done|]. intros k. rewrite Hnow. destruct r; [|done]. rewrite overlay_deletes.
  case_bool_decide as Hk; [by rewrite (proj1 (Hks k) Hk)|]. destruct (selected_key l h table schema filters k) eqn:E; [|done].
  by apply Hks in E.
Qed.

(** C16: an [UPDATE] changes exactly the rows it selects. Take a registered table,
    not dropped, of numeric and string columns, whose rows decode and are stored
    under their primary keys, in a tree whose files are all at level 0; filters and
    assignments that evaluate on its rows; for every row of the table, selected or
    not, an updated row that can be stored; and no key column assigned. If the
    engine accepts the commit, a reader then finds in place of every selected row
    the row with its assigned columns computed from the old row and the others kept,
    and every other key of the database unchanged; if it refuses, nothing has
    changed. *)
Theorem update_exact (w : TxnTs) (l : Lsm) (h : bytes -> values) (stats : ColumnStats) (table : bytes)
    (primary_key : list bytes) (schema : Schema) (pkc : list (nat * bytes)) (assignments : list (bytes * Expr))
    (filters : list Expr) (throttle : ThrottleLevel) (io_w io_s : IoOutcome) :
  let now := view h (snapshot_ts (l_engine l)) in
  table_ready w l h table primary_key schema pkc -> updates l h table schema pkc assignments filters ->
  exists ms l' r h', plan_update l stats table assignments filters primary_key = Some (Ok ms) /\
    adapter_update (mkAdapter primary_key schema table true) l stats assignments filters throttle io_w io_s = Some (l', r) /\
    lsm_run w l' h' /\ (forall k s, s <= snapshot_ts (l_engine l) -> view h' s k = view h s k) /\
    (forall err, r = Err err -> exists e, err = External e /\ (engine_write (l_engine l) ms throttle io_w io_s).2 = Err e) /\
    let later := view h' (snapshot_ts (l_engine l')) in
    match r with
    | Ok _ =>
        (forall k, selected_key l h table schema filters k = false -> later k = now k) /\
        (forall k row, table_row l h table schema k row -> selects schema filters row = true ->
           exists v, later k = Some v /\ decode_row_values v schema = Some (Ok (update_row schema assignments row)))
    | Err _ => forall k, later k = now k
    end.
Proof.
  intros now Hready Hup. destruct (plan_update_ok w l h stats table primary_key schema pkc Hready assignments filters Hup) as (entries & ms & Hp & Hent & Hms).
  pose proof (rewrites_keys _ _ _ _ Hms) as Hkeys. pose proof (fun k => selected_entries l h table schema pkc filters entries k Hent) as Hsel.
  destruct (commit_live w l h table primary_key schema pkc Hready ms throttle io_w io_s) as (l' & r & h' & Hc & Hca).
  { apply (proj1 (Forall_map mutation_key (fun k => is_Some (now k)) ms)). rewrite Hkeys. apply List.Forall_forall. intros k Hk%list_elem_of_In%Hsel. by eapply selected_live. }
  exists ms, l', r, h'. split; [done|]. destruct Hca as [Hrun Hpast Hnow Herr].
  split; [unfold adapter_update, requires_engine; cbn [ta_name ta_primary_key ta_engine]; rewrite Hp; cbn [run_plan]; by rewrite Hc|].
  split; [done|]. split; [done|]. split; [done|]. destruct r as [u|err]; [|done]. split.
  - intros k Hk. rewrite Hnow. apply overlay_untouched. rewrite Hkeys, Hsel. by rewrite Hk.
  - intros k row (Hk & v & Hv & Hd) Hs. assert (He : (k, row) ∈ selected schema filters entries).
    { apply list_elem_of_In, filter_In. split; [|done]. apply Hent. split; [done|]. by exists v. }
    apply list_elem_of_lookup_1 in He as [j Hj]. destruct (Forall2_lookup_l _ _ _ _ _ Hms Hj) as (m & Hm & payload & -> & Hd').
    exists payload. split; [|done]. rewrite Hnow. apply (overlay_once ms now k (MPut k payload)); [|by eapply list_elem_of_lookup_2|done].
    rewrite Hkeys. by apply NoDup_map_filter, Hent.
Qed.

(** C17: an [INSERT] stores exactly its rows. Insert batches of one schema, with a
    primary key of its columns and keys that encode (not null, and not too long),
    into a tree in any state, where the key columns cached for the table, if there
    are any, are those of this schema: the schema is registered; if the engine
    accepts the commit, a reader then finds under every key of the batches the last
    row that has it, and every other key of the database unchanged; if it refuses,
    no key has changed. Snapshots taken before are not affected. *)
Theorem insert_into_exact (w : TxnTs) (l : Lsm) (h : bytes -> values) (cache : PkCache) (partitions : list (list RecordBatch))
    (table : bytes) (primary_key : list bytes) (schema : Schema) (pkc : list (nat * bytes))
    (throttle : ThrottleLevel) (io_w io_s : IoOutcome) :
  let now := view h (snapshot_ts (l_engine l)) in
  let rows := batch_rows (concat partitions) in
  lsm_run w l h -> 1 <= e_commit_seq (l_engine l) -> e_commit_seq (l_engine l) + 1 < OPEN_ENDED_TS ->
  primary_key <> [] -> concat partitions <> [] ->
  (forall b, b ∈ concat partitions -> batch_ok b /\ rb_schema b = schema) ->
  resolve_pk_columns (mkBatch schema [] 0) primary_key = Ok pkc ->
  (forall c, om_get table cache = Some c -> c = pkc) ->
  (forall br, br ∈ rows -> exists key, stored_key table pkc br = Ok key /\ blen key < u32_max) ->
  exists ms l' cache' r h', (plan_insert (l_schemas l) cache (Some partitions) table primary_key).2 = Some (Ok ms) /\
    insert_into (mkAdapter primary_key schema table true) l cache (Some partitions) throttle io_w io_s = Some ((l', cache'), r) /\
    lsm_run w l' h' /\ l_schemas l' = om_insert table schema (l_schemas l) /\ om_get table cache' = Some pkc /\
    (forall k s, s <= snapshot_ts (l_engine l) -> view h' s k = view h s k) /\
    (forall err, r = Err err -> exists e, err = External e /\ (engine_write (l_engine l) ms throttle io_w io_s).2 = Err e) /\
    let later := view h' (snapshot_ts (l_engine l')) in
    match r with
    | Ok _ =>
        (forall k, (forall br, br ∈ rows -> stored_key table pkc br <> Ok k) -> later k = now k) /\
        (forall i br k, rows !! i = Some br -> stored_key table pkc br = Ok k ->
           (forall j br', (i < j)%nat -> rows !! j = Some br' -> stored_key table pkc br' <> Ok k) ->
           exists v, later k = Some v /\ decode_row_values v schema = Some (Ok (row_values br)))
    | Err _ => forall k, later k = now k
    end.
Proof.
  intros now rows Hrun Hq1 Hq2 Hpk Hne Hb Hr Hcache Hkeys.
  destruct (ingest_exact (l_schemas l) cache (concat partitions) table primary_key schema pkc Hpk Hne Hb Hr Hcache) as (ms & Ho & Hs & Hin).
  { intros br Hbr. destruct (Hkeys br Hbr) as (key & -> & _). done. }
  set (l1 := with_schemas l (om_insert table schema (l_schemas l))).
  destruct (commit_run w l1 h ms throttle io_w io_s) as (l' & r & h' & Hc & [Hrun' Hpast Hnow Herr]); [by apply lrun_register|done|done| |].
  { apply List.Forall_forall. intros m Hm%list_elem_of_In. apply Hin in Hm as (i & br & key & payload & -> & Hbr & _ & _ & Hk & _).
    destruct (Hkeys br) as (key' & Hk' & Hlt); [by eapply list_elem_of_lookup_2|]. cbn. congruence. }
  eexists ms, l', _, r, h'. split; [unfold plan_insert; by rewrite Ho|]. split.
  { unfold insert_into, requires_engine, plan_insert. cbn [ta_engine ta_name ta_primary_key]. rewrite Ho. cbn [external run_plan].
    fold l1. by rewrite Hc. }
  split; [done|]. split; [by eapply commit_schemas in Hc|].
  split; [destruct (om_get table cache) as [c|] eqn:Ec; [by rewrite Ec, (Hcache c eq_refl)|by rewrite om_get_insert_eq]|].
  split; [done|]. split; [done|]. destruct r as [u|err]; [|done]. split.
  - intros k Hno. rewrite Hnow. apply overlay_untouched. intros (m & -> & Hm)%list_elem_of_fmap.
    apply Hin in Hm as (i & br & key & payload & -> & Hbr & _ & _ & Hk & _). apply (Hno br); [by eapply list_elem_of_lookup_2|done].
  - intros i br k Hbr Hk Hlast. assert (Hput : exists payload, MPut k payload ∈ ms /\ decode_row_values payload schema = Some (Ok (row_values br))).
    { destruct (proj1 (batch_rows_In _ br) (list_elem_of_lookup_2 _ _ _ Hbr)) as [Hbr1 Hlt]. destruct (Hb _ Hbr1) as [Hok Hsch].
      destruct (row_encodes br.1 br.2 Hok Hlt) as (_ & payload & He & Hd). rewrite Hsch in Hd. destruct br as [b row].
      exists payload. split; [|done]. apply Hin. by exists i, (b, row), k, payload. }
    destruct Hput as (payload & Hm & Hd). exists payload. split; [|done]. rewrite Hnow.
    apply (overlay_once ms _ k (MPut k payload)); [|done|done]. by apply sorted_NoDup.
Qed.
End Statements.

(** ** Registration *)

(** Every table of the catalog is registered once, under its schema and name. *)
Lemma registered_tables (catalog : CatalogState) schema_name table_name ta :
  catalog_ok catalog ->
  (exists tables, In (schema_name, tables) (register_catalog_with catalog) /\ In (table_name, ta) tables) <->
  exists t, table_schema catalog (mkQualified hatp_catalog schema_name) table_name = Some t /\ ta = adapter_with_engine t /\
    ta_name ta = table_name.
Proof.
  intros Hok. unfold register_catalog_with. setoid_rewrite in_map_iff. split.
  - intros (tables & (s & [= -> <-] & _) & Hin). apply in_flat_map in Hin as (n & _ & Hn).
    destruct (table_schema catalog _ n) as [t|] eqn:Et; [|done]. destruct Hn as [[= -> <-]|[]]. exists t. split; [done|]. split; [done|].
    by apply (table_schema_named catalog _ _ _ Hok Et).
  - intros (t & Ht & -> & _). exists (build_schema_provider catalog schema_name). split.
    + exists schema_name. split; [done|]. unfold table_schema in Ht. cbn [qn_catalog qn_schema] in Ht. unfold schema_names.
      destruct (om_get hatp_catalog catalog) as [entry|]; cbn in Ht |- *; [|done]. apply om_keys_In.
      by destruct (om_get schema_name entry).
    + apply in_flat_map. exists table_name. rewrite Ht. split; [|by left]. unfold table_schema in Ht. cbn [qn_catalog qn_schema] in Ht. unfold table_names.
      destruct (om_get hatp_catalog catalog) as [entry|]; cbn in Ht |- *; [|done].
      destruct (om_get schema_name entry) as [tables|]; cbn in Ht |- *; [|done]. apply om_keys_In. by rewrite Ht.
Qed.

(** ** Witnesses and findings *)

(** Kernels that read the rows of a batch back and evaluate the expression on each. *)
Definition rows_of_batch (schema : Schema) (batch : RecordBatch) : list (list ScalarValue) :=
  (fun i => zip_with (stored_scalar i) schema (rb_columns batch)) <$> List.seq 0 (rb_num_rows batch).

Definition plain_value (schema : Schema) (row : list ScalarValue) (e : Expr) (t : DataType) : ScalarValue :=
  match t, e with
  | DtBoolean, _ => SvBoolean (Some (plain_holds schema row e))
  | _, EColumn c => default SvNull (column_with_name schema c ≫= (row !!.))
  | _, ELiteral v => v
  | _, _ => SvNull
  end.
Definition plain_values : SqlValues := plain_value.

Definition plain_kernels : DataFusion := {|
  DFSchema := Schema;
  PhysicalExpr := Expr * Schema;
  ColumnarValue := (Expr * Schema) * list (list ScalarValue) * DataType;
  df_schema_try_from schema := if forallb (fun f => pushable_type (fd_type f)) schema then Ok schema else Err "type"%string;
  create_physical_expr e schema := Ok (e, schema);
  evaluate_physical p batch := Ok (p, rows_of_batch p.2 batch, DtBoolean);
  cast_to v t := Ok (v.1, t);
  into_array v _ := let '((e, schema), rows, t) := v in
    Ok (mkArray t ((fun row => scalar_slot (plain_value schema row e t)) <$> rows));
  filter_record_batch batch mask :=
    Ok (mkBatch (rb_schema batch) ((fun a => mkArray (ar_type a) (kept mask (ar_slots a))) <$> rb_columns batch)
          (length (kept mask mask)));
|}.

Lemma rows_of_batch_of schema chunk :
  forallb (fun f => pushable_type (fd_type f)) schema = true -> Forall (row_typed schema) chunk ->
  rows_of_batch schema (batch_of schema chunk) = chunk.
Proof.
  intros Hp Hr. apply list_eq. intros i. unfold rows_of_batch. rewrite list_lookup_fmap. cbn [batch_of rb_num_rows].
  fold (batch_of schema chunk). destruct (chunk !! i) as [row|] eqn:E.
  - rewrite lookup_seq_lt by (by eapply lookup_lt_Some). cbn. f_equal. apply stored_row; [|done|done].
    apply List.Forall_forall. rewrite forallb_forall in Hp. exact Hp.
  - rewrite lookup_seq_ge; [done|]. by apply lookup_ge_None.
Qed.

Lemma plain_eval e schema chunk t a :
  Forall (row_typed schema) chunk ->
  @eval_expr_to_array plain_kernels e schema (batch_of schema chunk) t = Ok a ->
  a = mkArray t ((fun row => scalar_slot (plain_value schema row e t)) <$> chunk).
Proof.
  intros Hr. unfold eval_expr_to_array. cbn [df_schema_try_from plain_kernels].
  destruct (forallb (fun f => pushable_type (fd_type f)) schema) eqn:Hp; [|done]. cbn -[rows_of_batch plain_value].
  by rewrite (rows_of_batch_of schema chunk Hp Hr); intros [= <-].
Qed.

Lemma plain_kernels_laws : @DataFusionLaws plain_kernels plain_sql plain_values.
Proof.
  split; [| |done].
  - intros e schema chunk a Hr ->%(plain_eval e schema chunk _ _ Hr). split; [done|]. cbn [ar_slots].
    clear. induction chunk; constructor; [|done]. unfold sql_holds, plain_sql. cbn. by destruct (plain_holds _ _ _).
  - intros e schema chunk t a Hr. by apply plain_eval.
Qed.

Section Samples.
#[local] Existing Instance no_sse42.
#[local] Existing Instance list_vortex.
#[local] Existing Instance list_vortex_laws.
#[local] Existing Instance column_ord.
#[local] Existing Instance column_ord_laws.
#[local] Existing Instance checking_arrow.
#[local] Existing Instance checking_arrow_laws.
#[local] Existing Instance slot_arrays.
#[local] Existing Instance slot_arrays_laws.
#[local] Existing Instance plain_sql.
#[local] Existing Instance plain_sql_laws.
#[local] Existing Instance plain_values.
#[local] Existing Instance plain_kernels.
#[local] Existing Instance plain_kernels_laws.

Lemma keyed_view k v : view keyed_history 1 k = Some v -> k = key7 /\ v = tab_row 7 9.
Proof. intros (t & Hv & _)%view_newest. by apply keyed_values in Hv. Qed.

(** The table of columns [i] and [u], with the row (7, 9). *)
Lemma keyed_ready : table_ready 0 keyed_lsm keyed_history tab [[x69]] tab_schema [(0%nat, [x69])].
Proof.
  split; try done; [exact keyed_run|by repeat constructor|by repeat constructor| |].
  - intros k v _ Hv. apply keyed_view in Hv as [-> ->]. eexists. split; [vm_compute; reflexivity|].
    split; [repeat constructor; by right|]. vm_compute. reflexivity.
  - intros ks Hnd Hks. assert (Hall : forall k, k ∈ ks -> k = key7) by (intros k Hk; destruct (Hks k Hk) as [_ [v Hv]]; by apply keyed_view in Hv as [-> _]).
    destruct ks as [|a [|b ks]]; [done|done|]. apply NoDup_cons in Hnd as [Hni _]. exfalso. apply Hni.
    rewrite (Hall a), (Hall b) by (by repeat constructor). by left.
Qed.

(** [WHERE u > 8 OR u > 100] *)
Definition big_u : Expr :=
  EBinary (EBinary (EColumn [x75]) OpGreater (ELiteral (SvInt64 (Some 8)))) OpOr
          (EBinary (EColumn [x75]) OpGreater (ELiteral (SvInt64 (Some 100)))).

Lemma plain_evaluable filters : evaluable tab_schema filters.
Proof. intros e chunk _ _. by eexists. Qed.

Lemma delete_from_exact_witness :
  exists ks l' r h', plan_delete keyed_lsm [] tab [[x69]] [big_u] = Some (Ok (map MDelete ks)) /\ NoDup ks /\
    delete_from (mkAdapter [[x69]] tab_schema tab true) keyed_lsm [] [big_u] ThrottleNone IoOk IoOk = Some (l', r) /\
    lsm_run 0 l' h' /\ (forall k s, s <= 1 -> view h' s k = view keyed_history s k) /\
    (forall err, r = Err err ->
       exists e, err = External e /\ (engine_write (l_engine keyed_lsm) (map MDelete ks) ThrottleNone IoOk IoOk).2 = Err e) /\
    forall k, view h' (snapshot_ts (l_engine l')) k =
      match r with
      | Ok _ => if selected_key keyed_lsm keyed_history tab tab_schema [big_u] k then None else view keyed_history 1 k
      | Err _ => view keyed_history 1 k
      end.
Proof.
  apply (delete_from_exact 0 keyed_lsm keyed_history [] tab [[x69]] tab_schema [(0%nat, [x69])] [big_u] ThrottleNone IoOk IoOk).
  - exact keyed_ready.
  - discriminate.
  - apply route_generic; [reflexivity|apply plain_evaluable].
Defined.

(** Two rows of one key, inserted into the empty table. *)
Lemma insert_into_exact_witness :
  let rows := batch_rows (concat [ingested]) in
  exists ms l' cache' r h', (plan_insert (l_schemas tab_lsm) [] (Some [ingested]) tab [[x69]]).2 = Some (Ok ms) /\
    insert_into (mkAdapter [[x69]] tab_schema tab true) tab_lsm [] (Some [ingested]) ThrottleNone IoOk IoOk = Some ((l', cache'), r) /\
    lsm_run 0 l' h' /\ l_schemas l' = om_insert tab tab_schema (l_schemas tab_lsm) /\ om_get tab cache' = Some [(0%nat, [x69])] /\
    (forall k s, s <= 0 -> view h' s k = view (fun _ => ∅) s k) /\
    (forall err, r = Err err ->
       exists e, err = External e /\ (engine_write (l_engine tab_lsm) ms ThrottleNone IoOk IoOk).2 = Err e) /\
    let later := view h' (snapshot_ts (l_engine l')) in
    match r with
    | Ok _ =>
        (forall k, (forall br, br ∈ rows -> stored_key tab [(0%nat, [x69])] br <> Ok k) -> later k = view (fun _ => ∅) 0 k) /\
        (forall i br k, rows !! i = Some br -> stored_key tab [(0%nat, [x69])] br = Ok k ->
           (forall j br', (i < j)%nat -> rows !! j = Some br' -> stored_key tab [(0%nat, [x69])] br' <> Ok k) ->
           exists v, later k = Some v /\ decode_row_values v tab_schema = Some (Ok (row_values br)))
    | Err _ => forall k, later k = view (fun _ => ∅) 0 k
    end.
Proof.
  apply (insert_into_exact 0 tab_lsm (fun _ => ∅) [] [ingested] tab [[x69]] tab_schema [(0%nat, [x69])] ThrottleNone IoOk IoOk).
  - by apply lrun_new.
  - vm_compute. discriminate.
  - vm_compute. reflexivity.
  - discriminate.
  - discriminate.
  - exact ingested_ok.
  - reflexivity.
  - discriminate.
  - intros br [->|[->|[]%not_elem_of_nil]%elem_of_cons]%elem_of_cons; eexists; (split; [vm_compute; reflexivity|vm_compute; reflexivity]).
Defined.

(** The row is selected, and the statement succeeds. *)
Lemma delete_runs :
  selected_key keyed_lsm keyed_history tab tab_schema [big_u] key7 = true /\
  snd <$> delete_from (mkAdapter [[x69]] tab_schema tab true) keyed_lsm [] [big_u] ThrottleNone IoOk IoOk = Some (Ok tt).
Proof. vm_compute. split; reflexivity. Qed.

Definition set_u : list (bytes * Expr) := [([x75], ELiteral (SvInt64 (Some 5)))].

Lemma set_u_updates : updates keyed_lsm keyed_history tab tab_schema [(0%nat, [x69])] set_u [big_u].
Proof.
  split.
  - apply plain_evaluable.
  - intros f n e chunk _ _ _. by eexists.
  - intros k row (_ & v & Hv & Hd). apply keyed_view in Hv as [-> ->]. vm_compute in Hd. injection Hd as <-.
    change (row_storable tab_schema [SvInt64 (Some 7); SvInt64 (Some 5)]). split; [split|].
    + by repeat constructor.
    + repeat constructor; by right.
    + repeat constructor; vm_compute; congruence.
  - intros c f [->|[]%not_elem_of_nil]%elem_of_cons [= <-]. reflexivity.
Qed.

Lemma update_exact_witness :
  exists ms l' r h', plan_update keyed_lsm [] tab set_u [big_u] [[x69]] = Some (Ok ms) /\
    adapter_update (mkAdapter [[x69]] tab_schema tab true) keyed_lsm [] set_u [big_u] ThrottleNone IoOk IoOk = Some (l', r) /\
    lsm_run 0 l' h' /\ (forall k s, s <= 1 -> view h' s k = view keyed_history s k) /\
    (forall err, r = Err err ->
       exists e, err = External e /\ (engine_write (l_engine keyed_lsm) ms ThrottleNone IoOk IoOk).2 = Err e) /\
    let later := view h' (snapshot_ts (l_engine l')) in
    match r with
    | Ok _ =>
        (forall k, selected_key keyed_lsm keyed_history tab tab_schema [big_u] k = false -> later k = view keyed_history 1 k) /\
        (forall k row, table_row keyed_lsm keyed_history tab tab_schema k row -> selects tab_schema [big_u] row = true ->
           exists v, later k = Some v /\ decode_row_values v tab_schema = Some (Ok (update_row tab_schema set_u row)))
    | Err _ => forall k, later k = view keyed_history 1 k
    end.
Proof.
  apply (update_exact 0 keyed_lsm keyed_history [] tab [[x69]] tab_schema [(0%nat, [x69])] set_u [big_u] ThrottleNone IoOk IoOk).
  - exact keyed_ready.
  - exact set_u_updates.
Defined.

(** Assigning a key column stores the row under its new key and leaves the old row
    in place: [UPDATE tab SET i = 8] turns one row into two. *)
Lemma update_key_duplicates :
  match adapter_update (mkAdapter [[x69]] tab_schema tab true) keyed_lsm [] [([x69], ELiteral (SvInt64 (Some 8)))] [] ThrottleNone IoOk IoOk with
  | Some (l', Ok _) => match scan_all l' 2 with Ok rows => map snd rows | _ => [] end
  | _ => []
  end = [Some (tab_row 7 9); Some (tab_row 8 9)].
Proof. vm_compute. reflexivity. Qed.

(** A row that is not selected is evaluated too: [SET i = NULL WHERE u > 100], which
    selects no row, fails on the row it would not change. *)
Lemma update_checks_unselected :
  snd <$> adapter_update (mkAdapter [[x69]] tab_schema tab true) keyed_lsm [] [([x69], ELiteral (SvInt64 None))]
    [EBinary (EColumn [x75]) OpGreater (ELiteral (SvInt64 (Some 100)))] ThrottleNone IoOk IoOk <> Some (Ok tt).
Proof. vm_compute. discriminate. Qed.

(** Tables of one name in two schemas are stored under one prefix: a row deleted
    from [b.t] is gone from [a.t]. *)
Definition two_schemas : CatalogState :=
  [(hatp_catalog, [([x61], [(tab, mkTableSchema (mkQualified hatp_catalog [x61]) tab tab_schema [[x69]])]);
                   ([x62], [(tab, mkTableSchema (mkQualified hatp_catalog [x62]) tab tab_schema [[x69]])])])].
Definition adapter_of (schema_name : bytes) : option TableProviderAdapter :=
  om_get schema_name (register_catalog_with two_schemas) ≫= om_get tab.
Definition rows_seen (schema_name : bytes) (l : SampleLsm) : option nat :=
  ta ← adapter_of schema_name;
  match adapter_scan ta l [] None [] with
  | Some (Ok (partitions, _)) => Some (list_sum (map rb_num_rows (concat partitions)))
  | _ => None
  end.

Lemma schemas_share_rows :
  rows_seen [x61] keyed_lsm = Some 1%nat /\
  match adapter_of [x62] with
  | Some ta => match delete_from ta keyed_lsm [] [big_u] ThrottleNone IoOk IoOk with
               | Some (l', Ok _) => rows_seen [x61] l'
               | _ => None
               end
  | None => None
  end = Some 0%nat.
Proof. vm_compute. split; reflexivity. Qed.
End Samples.
